(* ===== verification/_CoqProject ===== *)
-Q . S2P
Prelude.v
GoStd.v
GoTime.v
Object.v
Cache.v
Informer.v
Controller.v
Deps.v
Kubernetes.v
Parse.v
Records.v
Backend.v
Xfr.v
Chaos.v
Setup.v
Metrics.v
Cluster.v
Startup.v
ChaosLock.v
ChaosPool.v
Handler.v
Server.v
Plugin.v
