(* ===== verification/Prelude.v ===== *)
(** k8s_dns_chaos: a CoreDNS plugin that answers the DNS names of a Kubernetes cluster and, for the
    pods it is told to, breaks DNS on purpose.

    * The program and its parts

    The plugin watches services, endpoints, pods and namespaces of the cluster and keeps stripped
    copies of them in caches (src/object, src/controller.go, src/watch.go). A query is parsed into a
    request for a service, an endpoint or a pod (src/parse.go), looked up in the caches through
    indices (src/kubernetes.go, src/namespace.go) and answered (src/handler.go). A gRPC service
    (src/grpc_server.go) puts pods under chaos and takes them out of it; queries from the address of
    such a pod get an error or a random address instead of the answer when their name is covered
    (src/chaos.go). The other files serve other parts of CoreDNS: zone transfers (src/xfr.go), the
    names of the server (src/ns.go), reverse lookups (src/reverse.go), external names
    (src/external.go), search paths (src/autopath.go) and metadata (src/metadata.go). The Corefile
    configures all of it (src/setup.go).

    * The files, from the bottom up

    - [Prelude]: Go's outcomes. [outcome] is how a call ends (a value, an early return with an error, a
      panic); [GoM] is a call that changes a state, with the state it leaves on every outcome;
      [go_for] and [go_fold] are loops; slices are lists with Go's behaviour out of range. The
      lemmas and tactics the other files share are here.
    - [GoStd]: the parts of the packages strings, strconv and net the program uses, written out, Atoi,
      ParseIP, ParseCIDR and IP.String included; integers as floats.
    - [GoTime]: [time.Parse] with the layout RFC3339Nano, chunk by chunk, over Go's calendar arithmetic,
      and durations. What is written is read back, and the days are those of the calendar.
    - [Object]: the API objects and the objects of src/object; [toPod], [toService], [toEndpoints] and
      the deep copies. API objects live in a heap, because a conversion clears them in place.
    - [Cache]: the interface of client-go's indexed store ([CacheLib]) and what it documents
      ([CacheLaws]).
    - [Informer]: [DefaultProcessor], from watch deltas to cache and handler calls, and the abstract
      cache it refines; the types of the cached objects and the reaction of the handler are parameters
      of its lemmas.
    - [Controller]: [dnsControl] and its queries; the interface [dnsController] as a record of queries,
      and its contract [Implements] over a [snapshot] of the caches, against which the lookups are
      proved; change detection; [Stop].
    - [Deps]: what the plugin calls of CoreDNS and of the DNS library ([DnsLib]), what is documented of
      it ([DnsLaws]), and concrete functions for the examples ([SimpleDns]).
    - [Kubernetes]: the configuration of the plugin, and which namespaces it exposes.
    - [Parse]: [parseRequest].
    - [Records]: [findPods], [findServices], [Records], with the reference they are compared to.
    - [Backend]: [Services] and the lookups for other plugins.
    - [Xfr]: zone transfers.
    - [Chaos]: the chaos. Its state [world] is the store of the [*PodInfo] values and the three maps
      of the plugin ([chaosMap], [podMap], [ipPodMap]); [SetDNSChaos], [CancelDNSChaos],
      [getChaosPod], [needChaos], [chaosDNS], the directive [chaos] and the start-up search.
    - [Setup]: the configuration (src/setup.go): [kubernetesParse] over Caddy's dispenser ([CaddyLib],
      [CaddyLaws]), with each directive; the start ([InitKubeCache], [setup]); the local addresses
      (src/local.go).
    - [Metrics]: the programming latency (src/metrics.go), with the processor that records it.
    - [Cluster]: the informers, the caches and the queries together, as [newdnsController] composes
      them: a state machine over the shared heap, the controller and the clock ([system_step]), and
      the cluster an API server describes by its notices, which the controller is proved to mirror.
    - [Startup]: the hook that waits for the caches when the server starts (src/setup.go), run together
      with the informers of [Cluster].
    - [ChaosLock]: the locking protocol of the chaos calls, as a step relation on threads.
    - [ChaosPool]: the same calls as they would run with one lock for all of them: cut into sections
      at their lock operations ([sections]), run by any number of threads on one [world]
      ([pool_run]); the machine [spec] that carries out requests one at a time and keeps for every
      pod the [cause] of its chaos, which they are proved to refine; rely and guarantee as
      [proc_safe].
    - [Handler]: [ServeDNS] and [getRecords]; what a query is answered given the requests before it.
    - [Server]: [ServeDNS] cut into sections too ([serve_sections]: those of [getChaosPod], the records,
      the answer), run with requests and other queries on the pools of [ChaosPool].
    - [Plugin]: the start of the plugin and the queries served after it.

    * What the theorems show

    - Chaos: in every reachable state the maps are well-formed; requests and the start never panic, and
      a query does exactly when the pod it comes from was put under chaos by the Corefile with a
      scope other than [all], which leaves it without a selector; what setting and cancelling do on
      every outcome, to the entries and to the index by address that queries read; that cancelling
      undoes setting, and that requests keep the index exact; which names a request covers; what is
      answered under chaos; from the request to the answer, that exactly the queries of the listed
      pods for the covered names are broken, and that no other source is touched.
    - Lookups: a lookup through the indices answers as a scan of all cached services would; a record
      is of an exposed namespace, or of one named [any], which [match] takes for the namespace asked;
      names are parsed and printed consistently; pod names stand for their addresses; search paths
      are those of the client's pod; reverse, external and transfer answers are characterized the
      same way.
    - Configuration: which Corefiles are accepted, and what every field of the configuration and the
      pods under chaos then are; how the start finds the addresses of those pods, and that the
      index by address is exact then; which local addresses are found. Directives
      [transfer] are taken in their documented forms only, since the rest is up to CoreDNS.
    - Caches: processing deltas refines a map of objects by key, the controller implements the
      interface of the plugin, an update of endpoints that counts as no change changes no answer
      when endpoints are named by address; with the default
      cleanup of API objects no programming latency is ever observed, and without it what is observed
      is the time since the instant the annotation gives. Together: whatever the deltas
      and their interleaving, every cache is typed and nothing panics; after any history of notices
      the controller answers over the last state of every object that is not gone, the answer to a
      query is a scan of that cluster, and the serial of the zone is the time of the last notice that
      counts.
    - The lock of the chaos: shared it excludes races on the maps, copied as it is it does not; either
      way no call waits forever. The rest assumes a shared lock, which the program does not have: the
      parts of a call that hold the lock are steps that nothing interrupts, and so is the read of an
      address that [getChaosPod] makes without it, in the program a data race whichever the lock. Then,
      in every interleaving of requests and queries, the maps stay well-formed and no call panics;
      requests take effect one at a time; and as long as pods keep their addresses (no address is
      written then, and the unlocked read is harmless) queries are linearizable: a query in flight is
      answered by what the requests carried out before it looked its pod up say of the pod
      ([queries_linearize], in [Server]).
    - The start: the hook returns at the first tick after all informers have listed, or at the
      timeout, and the controller then answers over the cluster of the events so far.
    - The whole plugin: what a start leaves or why it fails, and that after it exactly the addresses of
      the pods of the Corefile are served by their chaos.
    - The sections "Behaviours worth knowing" prove, on concrete states, where the code does not do
      what it seems to mean: an address a pod has left keeps its chaos, even after cancelling; each
      call locks a copy of the lock; a query in flight brings the chaos of a cancelled pod back, whatever
      the lock; the scope of the Corefile leads to a nil selector; and others.

    * Conventions and bounds

    Code outside src/ (CoreDNS, the DNS library, client-go, the trie selector, the API server, the
    clock) is a parameter: a class of functions, a class of the laws its documentation states, and
    a concrete instance that witnesses use. The repository's copy of package object is modelled;
    its main package imports the same package from CoreDNS. Loops run over lists, so no fuel is
    needed, except where noted: the parser of the Corefile loops until the dispenser is at an end,
    and two more than the number of directives is proved enough; [net.parseIPv6] reads at most eight
    groups; [calcSRVWeight] is proved exact up to a thousand addresses, the most the API server
    keeps in one object. Integers are [Z]
    with the wrap-around written where the code converts ([Serial], [uint16_floor], the bytes of
    [getRandomIPv4]); float64 arithmetic is the IEEE arithmetic of SpecFloat. Strings are byte
    strings; folding of case is that of ASCII. Each file models one goroutine at a time, except
    [ChaosLock], where the calls interleave by actions, [ChaosPool] and [Server], where they interleave
    by the sections between lock operations, and [Cluster] and [Startup], where the informers interleave by
    batches of deltas, and with the waking of the hook; a query of the caches sees one state of them.

    * What is not modelled

    The connection to the API server and client-go's queues, whose deltas are the input of the
    processors, the gRPC and DNS servers themselves, logging, the histogram, the generated code of
    src/pb except its messages, the helpers of src/e2e, and the registration of hooks and handlers
    with CoreDNS. *)
From stdpp Require Import prelude strings gmap sets list fin_maps.

(** * Go's errors and outcomes *)

(** The error values the program compares or returns. The first three are the sentinels of
    kubernetes.go, [errPodTerminating] is that of object/pod.go, [errObj] that of controller.go;
    every other error is a message. *)
Inductive go_error : Type :=
| errNoItems
| errNsNotExposed
| errInvalidRequest
| errPodTerminating
| errObj
| errMsg (msg : string).

#[export] Instance go_error_eq_dec : EqDecision go_error.
Proof. solve_decision. Defined.

(** How a call ends: it returns a value, it returns early with an error, or it panics. *)
Inductive outcome (A : Type) : Type :=
| Ret (a : A)
| Throw (e : go_error)
| Panic.
Arguments Ret {A} a.
Arguments Throw {A} e.
Arguments Panic {A}.

#[export] Instance outcome_eq_dec {A} `{EqDecision A} : EqDecision (outcome A).
Proof. solve_decision. Defined.

Definition is_ret {A} (o : outcome A) : bool :=
  match o with Ret _ => true | _ => false end.

#[export] Instance outcome_ret : MRet outcome := λ A a, Ret a.
#[export] Instance outcome_bind : MBind outcome := λ A B f o,
  match o with Ret a => f a | Throw e => Throw e | Panic => Panic end.

#[export] Instance outcome_fmap : FMap outcome := λ A B f o,
  match o with Ret a => Ret (f a) | Throw e => Throw e | Panic => Panic end.

(** [a && b] and [a || b] where [a] is a call, or [b] is. *)
Definition and_call (a : bool) (b : outcome bool) : outcome bool := if a then b else Ret false.
Definition call_or (a : outcome bool) (b : bool) : outcome bool :=
  a ≫= λ x, if (x : bool) then Ret true else Ret b.
Definition call_and (a : outcome bool) (b : outcome bool) : outcome bool :=
  a ≫= λ x, if (x : bool) then b else Ret false.
Definition call_not (a : outcome bool) : outcome bool := negb <$> a.

(** * Go calls that change state *)

(** A call on the state [S]: its outcome and the state it leaves, on every outcome. *)
Definition GoM (S A : Type) : Type := S → outcome A * S.

#[export] Instance gom_ret {S} : MRet (GoM S) := λ A a s, (Ret a, s).
#[export] Instance gom_bind {S} : MBind (GoM S) := λ A B f m s,
  match m s with
  | (Ret a, s') => f a s'
  | (Throw e, s') => (Throw e, s')
  | (Panic, s') => (Panic, s')
  end.

Definition throw {S A} (e : go_error) : GoM S A := λ s, (Throw e, s).
Definition panic {S A} : GoM S A := λ s, (Panic, s).
Definition gets {S A} (f : S → A) : GoM S A := λ s, (Ret (f s), s).
Definition modify {S} (f : S → S) : GoM S unit := λ s, (Ret tt, f s).
Definition lift_outcome {S A} (o : outcome A) : GoM S A := λ s, (o, s).

(** [for _, x := range l { f x }]; a [return] in the body is [throw] or [panic]. *)
Fixpoint go_for {S A} (f : A → GoM S unit) (l : list A) : GoM S unit :=
  match l with
  | [] => mret tt
  | x :: l' => f x ≫= λ _, go_for f l'
  end.

(** The same loop over an accumulator, for code with no effect but a possible panic. *)
Fixpoint go_fold {A B} (f : B → A → outcome B) (b : B) (l : list A) : outcome B :=
  match l with
  | [] => Ret b
  | x :: l' => f b x ≫= λ b', go_fold f b' l'
  end.

(** One step of a run. *)
Lemma gom_bind_ret {S A B} (m : GoM S A) (f : A → GoM S B) s a s' :
  m s = (Ret a, s') → (m ≫= f) s = f a s'.
Proof. unfold mbind, gom_bind. by intros ->. Qed.

Lemma gom_bind_throw {S A B} (m : GoM S A) (f : A → GoM S B) s e s' :
  m s = (Throw e, s') → (m ≫= f) s = (Throw e, s').
Proof. unfold mbind, gom_bind. by intros ->. Qed.

Lemma gom_bind_panic {S A B} (m : GoM S A) (f : A → GoM S B) s s' :
  m s = (Panic, s') → (m ≫= f) s = (Panic, s').
Proof. unfold mbind, gom_bind. by intros ->. Qed.

(** * Hoare triples over calls *)

Definition hoare {S A} (P : S → Prop) (m : GoM S A) (Q : outcome A → S → Prop) : Prop :=
  ∀ s, P s → Q (m s).1 (m s).2.

(** A call that preserves [I] whatever its outcome. *)
Definition preserves {S A} (I : S → Prop) (m : GoM S A) : Prop :=
  hoare I m (λ _ s, I s).

(** A call that preserves [I] and does not panic. *)
Definition safe {S A} (I : S → Prop) (m : GoM S A) : Prop :=
  ∀ s, I s → I (m s).2 ∧ (m s).1 ≠ Panic.

(** A call without effect, whose outcome does not depend on the state. *)
Definition pure_call {S A} (m : GoM S A) : Prop := ∃ o, ∀ s, m s = (o, s).

Create HintDb gocall discriminated.

Section Hoare.
Context {S : Type}.
Implicit Types (I P : S → Prop).

Lemma hoare_conseq {A} P P' (m : GoM S A) (Q Q' : outcome A → S → Prop) :
  hoare P' m Q' → (∀ s, P s → P' s) → (∀ o s, Q' o s → Q o s) → hoare P m Q.
Proof. unfold hoare. naive_solver. Qed.

Lemma hoare_bind {A B} P (m : GoM S A) (f : A → GoM S B)
    (R : outcome A → S → Prop) (Q : outcome B → S → Prop) :
  hoare P m R →
  (∀ a, hoare (R (Ret a)) (f a) Q) →
  (∀ e s, R (Throw e) s → Q (Throw e) s) →
  (∀ s, R Panic s → Q Panic s) →
  hoare P (m ≫= f) Q.
Proof.
  intros Hm Hf He Hp s HP. specialize (Hm s HP).
  unfold mbind, gom_bind. destruct (m s) as [[a|e|] s'] eqn:E; simpl in *.
  - by apply Hf.
  - by apply He.
  - by apply Hp.
Qed.

Lemma preserves_ret {A} I (a : A) : preserves I (mret a).
Proof. intros s Hs. exact Hs. Qed.

Lemma preserves_throw {A} I e : preserves I (throw (A:=A) e).
Proof. intros s Hs. exact Hs. Qed.

Lemma preserves_panic {A} I : preserves I (panic (A:=A)).
Proof. intros s Hs. exact Hs. Qed.

Lemma preserves_gets {A} I (f : S → A) : preserves I (gets f).
Proof. intros s Hs. exact Hs. Qed.

Lemma preserves_modify I (f : S → S) : (∀ s, I s → I (f s)) → preserves I (modify f).
Proof. intros H s Hs. by apply H. Qed.

Lemma preserves_bind {A B} I (m : GoM S A) (f : A → GoM S B) :
  preserves I m → (∀ a, preserves I (f a)) → preserves I (m ≫= f).
Proof. intros Hm Hf. eapply hoare_bind; [exact Hm|apply Hf|done|done]. Qed.

Lemma preserves_for {A} I (f : A → GoM S unit) (l : list A) :
  (∀ x, x ∈ l → preserves I (f x)) → preserves I (go_for f l).
Proof.
  induction l as [|x l IH]; intros H; simpl; [apply preserves_ret|].
  apply preserves_bind; [apply H; by left|]. intros _. apply IH.
  intros y Hy. apply H. by right.
Qed.

Lemma pure_ret {A} (a : A) : pure_call (S:=S) (mret a).
Proof. by exists (Ret a). Qed.

Lemma pure_lift {A} (o : outcome A) : pure_call (S:=S) (lift_outcome o).
Proof. by exists o. Qed.

Lemma pure_bind {A B} (m : GoM S A) (f : A → GoM S B) :
  pure_call m → (∀ a, pure_call (f a)) → pure_call (m ≫= f).
Proof.
  intros [om Hm] Hf. destruct om as [a|e|].
  - destruct (Hf a) as [o Ho]. exists o. intros s. unfold mbind, gom_bind. by rewrite Hm.
  - exists (Throw e). intros s. unfold mbind, gom_bind. by rewrite Hm.
  - exists Panic. intros s. unfold mbind, gom_bind. by rewrite Hm.
Qed.

Lemma safe_ret {A} I (a : A) : safe I (mret a).
Proof. by intros s Hs. Qed.

Lemma safe_bind {A B} I (m : GoM S A) (f : A → GoM S B) :
  safe I m → (∀ a, safe I (f a)) → safe I (m ≫= f).
Proof.
  intros Hm Hf s Hs. destruct (Hm s Hs) as [Hi Hp]. unfold mbind, gom_bind.
  destruct (m s) as [[a|e|] s']; simpl in *; [by apply Hf|done|done].
Qed.

Lemma safe_for {A} I (f : A → GoM S unit) (l : list A) :
  (∀ x, x ∈ l → safe I (f x)) → safe I (go_for f l).
Proof.
  induction l as [|x l IH]; intros H; simpl; [apply safe_ret|].
  apply safe_bind; [apply H; by left|]. intros _. apply IH.
  intros y Hy. apply H. by right.
Qed.

(** Running a loop over a concatenation. *)
Lemma go_for_app {A} (f : A → GoM S unit) (l1 l2 : list A) s :
  go_for f (l1 ++ l2) s = (go_for f l1 ≫= λ _, go_for f l2) s.
Proof.
  revert s. induction l1 as [|x l1 IH]; intros s; [done|].
  simpl. unfold mbind, gom_bind in *.
  destruct (f x s) as [[[]|e|] s']; [apply IH|done|done].
Qed.
Lemma gom_bind_assoc {A B C} (m : GoM S A) (f : A → GoM S B) (g : B → GoM S C) s :
  ((m ≫= f) ≫= g) s = (m ≫= λ a, f a ≫= g) s.
Proof. unfold mbind, gom_bind. by destruct (m s) as [[a|e|] s']. Qed.

(** Calls with the same continuation, pointwise. *)
Lemma gom_bind_ext {A B} (m m' : GoM S A) (f f' : A → GoM S B) s :
  m s = m' s → (∀ a s, f a s = f' a s) → (m ≫= f) s = (m' ≫= f') s.
Proof.
  intros Hm Hf. unfold mbind, gom_bind. rewrite Hm. by destruct (m' s) as [[a|e|] s'].
Qed.

(** A loop over the elements of the elements, over images, and with an equal body. *)
Lemma go_for_bind {A B} (g : B → GoM S unit) (f : A → list B) (l : list A) s :
  go_for (λ x, go_for g (f x)) l s = go_for g (l ≫= f) s.
Proof.
  revert s. induction l as [|x l IH]; intros s; [done|]. cbn [go_for].
  change ((x :: l) ≫= f) with (f x ++ (l ≫= f)). rewrite go_for_app.
  apply gom_bind_ext; [done|]. intros _. apply IH.
Qed.

Lemma go_for_fmap {A B} (g : B → GoM S unit) (f : A → B) (l : list A) s :
  go_for (λ x, g (f x)) l s = go_for g (f <$> l) s.
Proof.
  revert s. induction l as [|x l IH]; intros s; [done|]. apply gom_bind_ext; [done|].
  intros _. apply IH.
Qed.

Lemma go_for_ext {A} (f g : A → GoM S unit) (l : list A) s :
  (∀ x s, f x s = g x s) → go_for f l s = go_for g l s.
Proof.
  intros Hfg. revert s. induction l as [|x l IH]; intros s; [done|].
  apply gom_bind_ext; [apply Hfg|]. intros _. apply IH.
Qed.
End Hoare.

#[export] Hint Resolve preserves_ret preserves_throw preserves_panic preserves_gets
  preserves_modify preserves_bind preserves_for pure_ret pure_lift pure_bind safe_ret safe_bind
  safe_for : gocall.

(** * Automation *)

(** Reduce the monad's operations on a concrete call. *)
Ltac go_simpl :=
  cbv beta iota delta [mbind mret outcome_fmap gom_bind gom_ret outcome_bind outcome_ret
    and_call call_or call_and call_not throw panic gets modify
    lift_outcome fst snd] in *;
  cbn [go_for go_fold] in *.

(** Run the first call of the goal, by computation or by its equation. *)
Tactic Notation "go_step" := erewrite gom_bind_ret by reflexivity.
Tactic Notation "go_step" uconstr(H) := erewrite gom_bind_ret by (apply H; done).

(** Case on the outcome of the call inside the hypothesis [H], dropping impossible cases. *)
Ltac go_inv H :=
  repeat (go_simpl;
    match type of H with
    | context [match ?x with _ => _ end] =>
        let E := fresh "E" in destruct x eqn:E; try discriminate H
    end); simplify_eq/=.

(** Case on every [match] of the goal. *)
Ltac go_case := repeat (case_match; simplify_eq/=; try done).

(** Boolean tests as propositions. *)
Create Rewrite HintDb gobool.
#[export] Hint Rewrite andb_true_iff andb_false_iff orb_true_iff orb_false_iff negb_true_iff
  negb_false_iff String.eqb_eq String.eqb_neq bool_decide_eq_true bool_decide_eq_false : gobool.
Ltac go_bool := autorewrite with gobool in *.

(** * Lists and options *)

Section ListLemmas.
Context {A B : Type}.

(** A loop that appends what each element yields is [concat] of a map. *)
Lemma foldl_app_concat (f : A → list B) (l : list A) (acc : list B) :
  foldl (λ acc x, acc ++ f x) acc l = acc ++ concat (f <$> l).
Proof.
  revert acc. induction l as [|x l IH]; intros acc; simpl.
  - by rewrite app_nil_r.
  - by rewrite IH, app_assoc.
Qed.

Lemma foldl_ext (f g : B → A → B) (l : list A) (b : B) :
  (∀ b x, x ∈ l → f b x = g b x) → foldl f b l = foldl g b l.
Proof.
  revert b. induction l as [|x l IH]; intros b H; [done|]. simpl.
  rewrite (H b x) by (by left). apply IH. intros ???. apply H. by right.
Qed.

Lemma elem_of_concat_fmap (f : A → list B) (l : list A) (y : B) :
  y ∈ concat (f <$> l) ↔ ∃ x, x ∈ l ∧ y ∈ f x.
Proof.
  induction l as [|x l IH]; simpl.
  - split; [by intros ?%not_elem_of_nil|]. by intros (? & ?%not_elem_of_nil & _).
  - rewrite elem_of_app, IH. setoid_rewrite elem_of_cons. naive_solver.
Qed.

Lemma concat_fmap_filter_nil (f : A → list B) (P : A → Prop) `{∀ x, Decision (P x)} (l : list A) :
  (∀ x, x ∈ l → ¬ P x → f x = []) →
  concat (f <$> l) = concat (f <$> filter P l).
Proof.
  induction l as [|x l IH]; intros Hnil; [done|]. rewrite filter_cons.
  rewrite fmap_cons, concat_cons, IH by (intros; apply Hnil; [by right|done]).
  destruct (decide (P x)) as [Hx|Hx]; [done|].
  by rewrite (Hnil x) by (done || by left).
Qed.

Lemma existsb_false_forall (p : A → bool) (l : list A) :
  existsb p l = false ↔ ∀ x, x ∈ l → p x = false.
Proof.
  induction l as [|x l IH]; simpl; [set_solver|].
  rewrite orb_false_iff, IH. setoid_rewrite elem_of_cons. naive_solver.
Qed.

Lemma existsb_true_exists (p : A → bool) (l : list A) :
  existsb p l = true ↔ ∃ x, x ∈ l ∧ p x = true.
Proof.
  rewrite existsb_exists. by setoid_rewrite list_elem_of_In.
Qed.
End ListLemmas.

Lemma fmap_id_ext {A} (f : A → A) (l : list A) : (∀ x, f x = x) → f <$> l = l.
Proof. intros Hf. induction l as [|x l IH]; [done|]. by rewrite fmap_cons, Hf, IH. Qed.

Lemma mapM_ext_in {A B} (f g : A → option B) (l : list A) :
  (∀ x, x ∈ l → f x = g x) → mapM f l = mapM g l.
Proof.
  induction l as [|x l IH]; intros H; [done|]. simpl.
  rewrite (H x) by (by left). by rewrite IH by (intros; apply H; by right).
Qed.

Lemma concat_fmap_singleton {A B} (f : A → B) (l : list A) : concat ((λ x, [f x]) <$> l) = f <$> l.
Proof. induction l as [|x l IH]; [done|]. by rewrite !fmap_cons, concat_cons, IH. Qed.

Lemma concat_fmap_permutation {A B} (f : A → list B) (l1 l2 : list A) :
  l1 ≡ₚ l2 → concat (f <$> l1) ≡ₚ concat (f <$> l2).
Proof.
  induction 1 as [|x l1 l2 _ IH|x y l|l1 l2 l3 _ IH1 _ IH2]; simpl.
  - done.
  - by rewrite IH.
  - by rewrite !(assoc_L (++)), (Permutation_app_comm (f y)).
  - by rewrite IH1.
Qed.

(** A loop whose steps append is one append of what they give. *)
Lemma foldl_emit {A B} (step : list B → A → list B) (f : A → list B) (l : list A) (acc : list B) :
  (∀ acc x, step acc x = acc ++ f x) → foldl step acc l = acc ++ concat (f <$> l).
Proof.
  intros Hs. revert acc. induction l as [|x l IH]; intros acc; simpl; [by rewrite app_nil_r|].
  by rewrite Hs, IH, app_assoc.
Qed.

(** A loop that panics nowhere and collects, for each element, what a reference says up to order. *)
Lemma go_fold_collect {A B C} (add : B → list C → B) (step : B → A → outcome B)
    (ref : A → list C) (l : list A) (b : B) :
  (∀ b, add b [] = b) → (∀ b f g, add (add b f) g = add b (f ++ g)) →
  (∀ b x, x ∈ l → ∃ f, step b x = Ret (add b f) ∧ f ≡ₚ ref x) →
  ∃ f, go_fold step b l = Ret (add b f) ∧ f ≡ₚ concat (ref <$> l).
Proof.
  intros Hnil Happ. revert b. induction l as [|x l IH]; intros b Hstep.
  - exists []. split; [by rewrite Hnil|done].
  - destruct (Hstep b x) as (f & Hf & Hp); [by left|]. cbn [go_fold]. rewrite Hf.
    destruct (IH (add b f)) as (g & Hg & Hq); [intros b' y Hy; apply Hstep; by right|].
    exists (f ++ g). split; [go_simpl; by rewrite Hg, Happ|]. simpl. by rewrite Hp, Hq.
Qed.

(** * Go slices *)

(** [l[i]]: a panic out of range. *)
Definition go_index {A} (l : list A) (i : nat) : outcome A :=
  match l !! i with Some x => Ret x | None => Panic end.

(** [l[i] = x]: a panic out of range. *)
Definition go_set {A} (l : list A) (i : nat) (x : A) : outcome (list A) :=
  if decide (i < length l) then Ret (<[i:=x]> l) else Panic.

(** [copy(dst, src)]: the destination and how many elements were copied. *)
Definition go_copy {A} (dst src : list A) : list A * nat :=
  let n := min (length dst) (length src) in (take n src ++ drop n dst, n).

(** [for i, x := range l { dst[off+i] = f x }]. *)
Fixpoint go_fill_from {A B} (f : A → B) (dst : list B) (off : nat) (l : list A) :
    outcome (list B) :=
  match l with
  | [] => Ret dst
  | x :: l' => go_set dst off (f x) ≫= λ dst', go_fill_from f dst' (S off) l'
  end.

(** [dst := make([]B, len(l)); for i, x := range l { dst[i] = f x }], [zero] the zero value. *)
Definition go_fill {A B} (zero : B) (f : A → B) (l : list A) : outcome (list B) :=
  go_fill_from f (replicate (length l) zero) 0 l.

Section Slices.
Context {A B : Type}.

Lemma go_fill_from_spec (f : A → B) (dst : list B) (off : nat) (l : list A) :
  length dst = off + length l →
  go_fill_from f dst off l = Ret (take off dst ++ (f <$> l)).
Proof.
  revert dst off. induction l as [|x l IH]; intros dst off Hlen; simpl in *.
  - rewrite app_nil_r, take_ge by lia. done.
  - unfold go_set. rewrite decide_True by lia. go_simpl.
    rewrite IH by (rewrite length_insert; lia). f_equal.
    rewrite (take_S_r _ _ (f x)) by (apply list_lookup_insert_eq; lia).
    rewrite take_insert_ge by lia. by rewrite <- app_assoc.
Qed.

(** The fill loop never panics and is [map]. *)
Lemma go_fill_fmap (zero : B) (f : A → B) (l : list A) : go_fill zero f l = Ret (f <$> l).
Proof.
  unfold go_fill. by rewrite go_fill_from_spec by (by rewrite length_replicate).
Qed.

Lemma go_copy_full (dst src : list A) :
  length dst = length src → go_copy dst src = (src, length src).
Proof.
  intros H. unfold go_copy. rewrite H, Nat.min_id, take_ge by lia.
  by rewrite drop_ge, app_nil_r by lia.
Qed.

Lemma go_copy_prefix (dst src : list A) :
  length src ≤ length dst →
  go_copy dst src = (src ++ drop (length src) dst, length src).
Proof.
  intros H. unfold go_copy. rewrite Nat.min_r by done. by rewrite take_ge by lia.
Qed.

Lemma go_index_lookup (l : list A) i x : l !! i = Some x → go_index l i = Ret x.
Proof. unfold go_index. by intros ->. Qed.
End Slices.

Lemma filter_iff_in {A} (P Q : A → Prop) `{∀ x, Decision (P x), ∀ x, Decision (Q x)} (l : list A) :
  (∀ x, x ∈ l → P x ↔ Q x) → filter P l = filter Q l.
Proof.
  induction l as [|x l IH]; intros Hl; [done|]. rewrite !filter_cons, IH by (intros; apply Hl; by right).
  assert (P x ↔ Q x) by (apply Hl; by left). repeat case_decide; naive_solver.
Qed.

Lemma concat_fmap_perm_ext {A B} (f g : A → list B) (l : list A) :
  (∀ x, x ∈ l → f x ≡ₚ g x) → concat (f <$> l) ≡ₚ concat (g <$> l).
Proof.
  induction l as [|x l IH]; intros Hl; [done|]. rewrite !fmap_cons, !concat_cons.
  rewrite (Hl x) by (by left). by rewrite IH by (intros; apply Hl; by right).
Qed.

Lemma filter_permutation {A} (P : A → Prop) `{∀ x, Decision (P x)} (l1 l2 : list A) :
  l1 ≡ₚ l2 → filter P l1 ≡ₚ filter P l2.
Proof. by intros ->. Qed.
