(* ===== verification/GoStd.v ===== *)
(** The parts of Go's standard library the program uses: [strings], [strconv] and
    [net], and [float64].

    A Go string is a [string] of bytes. [EqualFold] and [ToLower] fold the ASCII letters and leave
    every other byte alone: the names they are applied to are DNS names, whose non-ASCII bytes the
    DNS library escapes as [\DDD], and Kubernetes object names, which are ASCII labels.
    [net.ParseIP] follows netip.ParseAddr byte for byte, leading zeros, embedded IPv4 and [::]
    included. An [net.IP] is its list of bytes; Go's nil IP is the empty list. *)
From stdpp Require Import prelude strings list.
From Stdlib Require Import Ascii SpecFloat.
From S2P Require Import Prelude.

(** * Floats *)

(** [float64] *)
Abbreviation prec := 53%Z.
Abbreviation emax := 1024%Z.

Definition float_of_Z (n : Z) : spec_float := binary_normalize prec emax n 0 false.

(** * Bytes *)

Definition byte_Z (c : ascii) : Z := Z.of_nat (nat_of_ascii c).

Definition is_upper (c : ascii) : bool :=
  let n := nat_of_ascii c in (65 <=? n)%nat && (n <=? 90)%nat.

Definition lower_ascii (c : ascii) : ascii :=
  if is_upper c then ascii_of_nat (nat_of_ascii c + 32) else c.

Definition is_digit (c : ascii) : bool :=
  let n := nat_of_ascii c in (48 <=? n)%nat && (n <=? 57)%nat.

(** The value of a hexadecimal digit, either case. *)
Definition hex_val (c : ascii) : option Z :=
  let n := byte_Z c in
  if (48 <=? n)%Z && (n <=? 57)%Z then Some (n - 48)%Z
  else if (97 <=? n)%Z && (n <=? 102)%Z then Some (n - 97 + 10)%Z
  else if (65 <=? n)%Z && (n <=? 70)%Z then Some (n - 65 + 10)%Z
  else None.

(** * Package strings *)

Module strings.
Fixpoint map_bytes (f : ascii → ascii) (s : string) : string :=
  match s with
  | EmptyString => EmptyString
  | String c s' => String (f c) (map_bytes f s')
  end.

Definition ToLower (s : string) : string := map_bytes lower_ascii s.

Definition EqualFold (a b : string) : bool := (ToLower a =? ToLower b)%string.

(** [strings.Count(s, c)] for a one-byte [c]. *)
Fixpoint Count (s : string) (c : ascii) : Z :=
  match s with
  | EmptyString => 0%Z
  | String d s' => ((if Ascii.eqb d c then 1 else 0) + Count s' c)%Z
  end.

(** [strings.Replace(s, old, new, -1)] for one-byte [old] and [new]. *)
Definition Replace (s : string) (old new : ascii) : string :=
  map_bytes (λ c, if Ascii.eqb c old then new else c) s.

(** [strings.Index], -1 when there is no occurrence. *)
Definition Index (s sub : string) : Z :=
  match String.index 0 sub s with Some n => Z.of_nat n | None => (-1)%Z end.

Definition Contains (s sub : string) : bool := (0 <=? Index s sub)%Z.

Definition HasPrefix (s p : string) : bool := String.prefix p s.

Definition Join (l : list string) (sep : string) : string := String.concat sep l.
End strings.

(** * Package strconv *)

Module strconv.
Definition ErrSyntax : go_error := errMsg "invalid syntax".
Definition ErrRange : go_error := errMsg "value out of range".

Definition maxUint64 : Z := (2 ^ 64 - 1)%Z.

(** The loop of [ParseUint] in base ten: it stops at the first byte that is not a digit, and at
    the first digit that overflows. *)
Fixpoint parse_digits (s : string) (n : Z) : Z + go_error :=
  match s with
  | EmptyString => inl n
  | String c s' =>
      if is_digit c then
        let n' := (n * 10 + (byte_Z c - 48))%Z in
        if (maxUint64 <? n')%Z then inr ErrRange else parse_digits s' n'
      else inr ErrSyntax
  end.

(** [Atoi], with a 64-bit [int]. The errors are the ones the [NumError] wraps. *)
Definition Atoi (s : string) : Z + go_error :=
  let '(neg, digits) := match s with
                        | String "-"%char s' => (true, s')
                        | String "+"%char s' => (false, s')
                        | _ => (false, s)
                        end in
  if (digits =? "")%string then inr ErrSyntax
  else match parse_digits digits 0 with
       | inr e => inr e
       | inl n =>
           let cutoff := (2 ^ 63)%Z in
           if (negb neg && (cutoff <=? n)%Z) || (neg && (cutoff <? n)%Z) then inr ErrRange
           else inl (if neg then - n else n)%Z
       end.
End strconv.

(** * Package net *)

Module net.
Definition IP : Type := list Z.

Definition v4InV6Prefix : list Z := [0;0;0;0;0;0;0;0;0;0;255;255]%Z.

(** [net.IPv4(a, b, c, d)]: the 16-byte form. *)
Definition IPv4 (a b c d : Z) : IP := v4InV6Prefix ++ [a; b; c; d].

Definition To4 (ip : IP) : IP :=
  if decide (length ip = 4%nat) then ip
  else if decide (length ip = 16%nat ∧ take 12 ip = v4InV6Prefix) then drop 12 ip
  else [].

(** netip's parseIPv4Fields: [val] and [digLen] are the octet being read, [fields] the octets
    already read, [prevdot] whether the byte before is a dot (or there is none). *)
Fixpoint parseIPv4Fields (s : string) (val : Z) (digLen : nat) (fields : list Z)
    (prevdot : bool) : option (list Z) :=
  match s with
  | EmptyString =>
      if decide (length fields = 3%nat) then Some (fields ++ [val]) else None
  | String c s' =>
      if is_digit c then
        if (digLen =? 1)%nat && (val =? 0)%Z then None
        else
          let val' := (val * 10 + (byte_Z c - 48))%Z in
          if (255 <? val')%Z then None
          else parseIPv4Fields s' val' (S digLen) fields false
      else if Ascii.eqb c "."%char then
        if prevdot || (match s' with EmptyString => true | _ => false end) then None
        else if (length fields =? 3)%nat then None
        else parseIPv4Fields s' 0 0 (fields ++ [val]) true
      else None
  end.

Definition parseIPv4 (s : string) : option (list Z) := parseIPv4Fields s 0 0 [] true.

(** The hexadecimal field at the front of [s]: its value, its length and what follows. None
    when it has more than four digits. *)
Fixpoint hexField (s : string) (acc : Z) (off : nat) : option (Z * nat * string) :=
  match s with
  | EmptyString => Some (acc, off, EmptyString)
  | String c s' =>
      match hex_val c with
      | None => Some (acc, off, s)
      | Some v =>
          let acc' := (acc * 16 + v)%Z in
          if (3 <? off)%nat || (65535 <? acc')%Z then None else hexField s' acc' (S off)
      end
  end.

(** What the loop of netip's parseIPv6 leaves: the bytes read, where the [::] stands among
    them, and the text it did not read. [fuel] bounds the fields, of which there are eight. *)
Fixpoint parseIPv6Loop (fuel : nat) (s : string) (ip : list Z) (ellipsis : option nat) :
    option (list Z * option nat * string) :=
  match fuel with
  | O => Some (ip, ellipsis, s)
  | S fuel' =>
      match hexField s 0 0 with
      | None | Some (_, O, _) => None
      | Some (acc, _, rest) =>
          match rest with
          | String "."%char _ =>
              if bool_decide (ellipsis = None) && negb (length ip =? 12)%nat then None
              else if (16 <? length ip + 4)%nat then None
              else match parseIPv4 s with
                   | None => None
                   | Some v4 => Some (ip ++ v4, ellipsis, EmptyString)
                   end
          | _ =>
              let ip' := ip ++ [acc / 256; acc mod 256]%Z in
              match rest with
              | EmptyString => Some (ip', ellipsis, EmptyString)
              | String ":"%char EmptyString => None
              | String ":"%char (String ":"%char s2) =>
                  if bool_decide (ellipsis = None) then
                    match s2 with
                    | EmptyString => Some (ip', Some (length ip'), EmptyString)
                    | _ => parseIPv6Loop fuel' s2 ip' (Some (length ip'))
                    end
                  else None
              | String ":"%char s2 => parseIPv6Loop fuel' s2 ip' ellipsis
              | _ => None
              end
          end
      end
  end.

Definition expandEllipsis (ip : list Z) (e : nat) : list Z :=
  take e ip ++ replicate (16 - length ip) 0%Z ++ drop e ip.

Definition parseIPv6 (s : string) : option (list Z) :=
  let fin r :=
    match r with
    | Some (ip, ellipsis, EmptyString) =>
        if (length ip <? 16)%nat then
          match ellipsis with Some e => Some (expandEllipsis ip e) | None => None end
        else match ellipsis with Some _ => None | None => Some ip end
    | _ => None
    end in
  match s with
  | String ":"%char (String ":"%char EmptyString) => Some (replicate 16 0%Z)
  | String ":"%char (String ":"%char s') => fin (parseIPv6Loop 8 s' [] (Some 0%nat))
  | _ => fin (parseIPv6Loop 8 s [] None)
  end.

(** netip.ParseAddr chooses by the first dot, colon or percent sign. *)
Inductive addr_kind := addr4 | addr6 | addr_none.
Fixpoint classify (s : string) : addr_kind :=
  match s with
  | EmptyString => addr_none
  | String c s' =>
      if Ascii.eqb c "."%char then addr4
      else if Ascii.eqb c ":"%char then addr6
      else if Ascii.eqb c "%"%char then addr_none
      else classify s'
  end.

(** [net.ParseIP]: 16 bytes, or the nil IP. A zone (a percent sign) is refused. *)
Definition ParseIP (s : string) : IP :=
  match classify s with
  | addr4 => match parseIPv4 s with Some v4 => v4InV6Prefix ++ v4 | None => [] end
  | addr6 =>
      if strings.Contains s "%" then []
      else match parseIPv6 s with Some ip => ip | None => [] end
  | addr_none => []
  end.

(** [IP.To16] *)
Definition To16 (ip : IP) : IP :=
  if decide (length ip = 4%nat) then v4InV6Prefix ++ ip
  else if decide (length ip = 16%nat) then ip
  else [].

Definition IPv6loopback : IP := [0;0;0;0;0;0;0;0;0;0;0;0;0;0;0;1]%Z.

(** [IP.IsLoopback] *)
Definition IsLoopback (ip : IP) : bool :=
  match To4 ip with
  | b :: _ => (b =? 127)%Z
  | [] => bool_decide (ip = IPv6loopback)
  end.

(** [dtoi] on a whole string: the decimal number it is, None when it is empty, has another byte or
    is [big] or more. *)
Definition big : Z := 16777215.
Fixpoint dtoi_from (s : string) (n : Z) : option Z :=
  match s with
  | EmptyString => Some n
  | String c s' =>
      if is_digit c then
        let n' := (n * 10 + (byte_Z c - 48))%Z in
        if (big <=? n')%Z then None else dtoi_from s' n'
      else None
  end.
Definition dtoi (s : string) : option Z := if (s =? "")%string then None else dtoi_from s 0.

(** What is before and after the first slash. *)
Fixpoint cut_slash (s : string) : option (string * string) :=
  match s with
  | EmptyString => None
  | String c s' =>
      if Ascii.eqb c "/"%char then Some ("", s')
      else match cut_slash s' with Some (a, b) => Some (String c a, b) | None => None end
  end.

Definition BitLen (addr : string) : Z :=
  match classify addr with addr4 => 32 | addr6 => 128 | addr_none => 0 end.

(** The address of [net.ParseCIDR]: 16 bytes, or the nil IP when the text is not an address, a slash
    and a prefix length. *)
Definition ParseCIDR (s : string) : IP :=
  match cut_slash s with
  | None => []
  | Some (addr, mask) =>
      if decide (ParseIP addr = []) then []
      else match dtoi mask with
           | None => []
           | Some n => if (BitLen addr <? n)%Z then [] else ParseIP addr
           end
  end.

(** [IP.String]: dotted for four bytes or their 16-byte form; otherwise the groups in hexadecimal,
    the first of the longest runs of two or more zero groups as [::]. *)
Definition digit (n : Z) : string := String (ascii_of_nat (Z.to_nat (48 + n))) "".
Definition octet (n : Z) : string :=
  if (n <? 10)%Z then digit n
  else if (n <? 100)%Z then digit (n / 10) +:+ digit (n mod 10)
  else digit (n / 100) +:+ digit (n / 10 mod 10) +:+ digit (n mod 10).

Definition hex_digit (n : Z) : string :=
  if (n <? 10)%Z then digit n else String (ascii_of_nat (Z.to_nat (87 + n))) "".
Definition hex_group (n : Z) : string :=
  if (n <? 16)%Z then hex_digit n
  else if (n <? 256)%Z then hex_digit (n / 16) +:+ hex_digit (n mod 16)
  else if (n <? 4096)%Z then
    hex_digit (n / 256) +:+ hex_digit (n / 16 mod 16) +:+ hex_digit (n mod 16)
  else hex_digit (n / 4096) +:+ hex_digit (n / 256 mod 16) +:+ hex_digit (n / 16 mod 16)
       +:+ hex_digit (n mod 16).

Fixpoint groups (ip : IP) : list Z :=
  match ip with
  | hi :: lo :: ip' => (hi * 256 + lo)%Z :: groups ip'
  | _ => []
  end.

Fixpoint zeros (g : list Z) : nat :=
  match g with 0%Z :: g' => S (zeros g') | _ => 0 end.

(** The start and the length of the first longest run of zero groups. *)
Fixpoint longest_zeros (g : list Z) (i : nat) (best : nat * nat) : nat * nat :=
  match g with
  | [] => best
  | _ :: g' => longest_zeros g' (S i) (if (best.2 <? zeros g)%nat then (i, zeros g) else best)
  end.

Definition IP_String (ip : IP) : string :=
  if decide (ip = []) then "<nil>"
  else
    match To4 ip with
    | [a; b; c; d] => strings.Join (octet <$> [a; b; c; d]) "."
    | _ =>
        if decide (length ip = 16) then
          let g := groups ip in
          let '(start, len) := longest_zeros g 0 (0, 0) in
          if (2 <=? len)%nat then
            strings.Join (hex_group <$> take start g) ":" +:+ "::"
            +:+ strings.Join (hex_group <$> drop (start + len) g) ":"
          else strings.Join (hex_group <$> g) ":"
        else "?" +:+ String.concat "" ((λ b, hex_digit (b / 16) +:+ hex_digit (b mod 16))%Z <$> ip)
    end.
End net.

(** * Facts *)

(** A number read is a 64-bit [int]. *)
Lemma Atoi_bounds s z : strconv.Atoi s = inl z → (- 2 ^ 63 <= z < 2 ^ 63)%Z.
Proof.
  assert (Hpos : ∀ s n m, (0 <= n)%Z → strconv.parse_digits s n = inl m → (0 <= m)%Z).
  { intros t. induction t as [|c t IH]; intros n m Hn; [by intros [= <-]|].
    cbn [strconv.parse_digits]. destruct (is_digit c) eqn:Hd; [|done].
    case_match; [done|]. apply IH. unfold is_digit in Hd. unfold byte_Z.
    apply andb_true_iff in Hd as [Hlo%Nat.leb_le _]. lia. }
  assert (Hfin : ∀ (neg : bool) ds,
    (if (ds =? "")%string then inr strconv.ErrSyntax else
     match strconv.parse_digits ds 0 with
     | inl n => if (negb neg && (2 ^ 63 <=? n)%Z) || (neg && (2 ^ 63 <? n)%Z)
                then inr strconv.ErrRange else inl (if neg then - n else n)%Z
     | inr e => inr e
     end) = inl z → (- 2 ^ 63 <= z < 2 ^ 63)%Z).
  { intros neg ds. case_match; [done|]. destruct (strconv.parse_digits ds 0) as [n|] eqn:Hn; [|done].
    apply Hpos in Hn; [|done]. destruct neg; cbn [negb andb orb].
    - destruct (Z.ltb_spec (2 ^ 63) n); [done|]. intros [= <-]. lia.
    - rewrite orb_false_r. destruct (Z.leb_spec (2 ^ 63) n); [done|]. intros [= <-]. lia. }
  unfold strconv.Atoi. cbv zeta. case_match. apply Hfin.
Qed.

(** An address has sixteen bytes. *)
Lemma parseIPv4Fields_length s val dig fields dot v :
  net.parseIPv4Fields s val dig fields dot = Some v → length v = 4.
Proof.
  revert val dig fields dot. induction s as [|c s IH]; intros val dig fields dot; cbn [net.parseIPv4Fields].
  - case_decide as Hl; [|done]. intros [= <-]. rewrite length_app, Hl. simpl. lia.
  - repeat case_match; try done; apply IH.
Qed.

Lemma parseIPv4_length s v : net.parseIPv4 s = Some v → length v = 4.
Proof. apply parseIPv4Fields_length. Qed.

Lemma parseIPv6Loop_length fuel s ip e ip' e' rest :
  length ip + 2 * fuel ≤ 16 → default 0 e ≤ length ip →
  net.parseIPv6Loop fuel s ip e = Some (ip', e', rest) → length ip' ≤ 16 ∧ default 0 e' ≤ length ip'.
Proof.
  revert s ip e. induction fuel as [|fuel IH]; intros s ip e Hlen He; cbn [net.parseIPv6Loop].
  { intros [= <- <- _]. lia. }
  destruct (net.hexField s 0 0) as [[[acc [|off]] t]|]; [done| |done].
  assert (Hip : ∀ a b : Z, length (ip ++ [a; b]) + 2 * fuel ≤ 16 ∧ default 0 e ≤ length (ip ++ [a; b])).
  { intros a b. rewrite length_app. simpl. lia. }
  set (ip1 := ip ++ [_; _]). destruct (Hip (acc / 256)%Z (acc mod 256)%Z) as [H1 H2]. fold ip1 in H1, H2.
  clearbody ip1. intros Hrun.
  repeat case_match; simplify_eq/=; try (by eapply IH; [| |exact Hrun]); try lia.
  all: try match goal with Hv : net.parseIPv4 _ = Some _ |- _ => apply parseIPv4_length in Hv end.
  all: repeat match goal with Hb : (16 <? _)%nat = false |- _ => apply Nat.ltb_ge in Hb end.
  all: try (rewrite length_app; lia).
  all: eapply IH; [| |exact Hrun]; simpl; lia.
Qed.

Lemma ParseIP_length s : net.ParseIP s = [] ∨ length (net.ParseIP s) = 16.
Proof.
  assert (Hv6 : ∀ t ip, net.parseIPv6 t = Some ip → length ip = 16).
  { intros t ip.
    assert (Hfin : ∀ t' e, default 0 e = 0 →
      match net.parseIPv6Loop 8 t' [] e with
      | Some (ip, el, EmptyString) =>
          if (length ip <? 16)%nat
          then match el with Some e => Some (net.expandEllipsis ip e) | None => None end
          else match el with Some _ => None | None => Some ip end
      | _ => None
      end = Some ip → length ip = 16).
    { intros t' e He. destruct (net.parseIPv6Loop 8 t' [] e) as [[[ip1 el] [|]]|] eqn:Hl; try done.
      apply parseIPv6Loop_length in Hl as [Hle Hel]; [|simpl; lia|simpl; lia].
      destruct (Nat.ltb_spec (length ip1) 16); destruct el as [e'|]; try done; intros [= <-].
      - unfold net.expandEllipsis. simpl in Hel.
        rewrite !length_app, length_take, length_replicate, length_drop. lia.
      - lia. }
    unfold net.parseIPv6.
    repeat match goal with |- context [match ?x with _ => _ end] => is_var x; destruct x end;
      by first [apply (Hfin _ None)|apply (Hfin _ (Some 0))|intros [= <-]]. }
  unfold net.ParseIP. destruct (net.classify s); [| |by left].
  - destruct (net.parseIPv4 s) as [v|] eqn:Hv; [right|by left].
    rewrite length_app. by rewrite (parseIPv4_length s v).
  - destruct (strings.Contains s "%"); [by left|].
    destruct (net.parseIPv6 s) as [v|] eqn:Hv; [right|by left]. by eapply Hv6.
Qed.

(** The address of a prefix is an address. *)
Lemma ParseCIDR_length s : net.ParseCIDR s = [] ∨ length (net.ParseCIDR s) = 16.
Proof. unfold net.ParseCIDR. repeat case_match; try (by left). apply ParseIP_length. Qed.

(** A text without a slash is not an address with a prefix length. *)
Lemma ParseCIDR_plain s : "/"%char ∉ String.list_ascii_of_string s → net.ParseCIDR s = [].
Proof.
  intros Hs. unfold net.ParseCIDR. assert (net.cut_slash s = None) as ->; [|done].
  induction s as [|c s IH]; [done|]. cbn in Hs |- *. apply not_elem_of_cons in Hs as [Hc Hs].
  destruct (Ascii.eqb_spec c "/"); [congruence|]. by rewrite IH.
Qed.

Section StringFacts.
Implicit Types (s a b : string).

Lemma string_length_app a b :
  String.length (a +:+ b) = (String.length a + String.length b)%nat.
Proof. induction a as [|c a IH]; simpl; [done|]. by f_equal. Qed.

Lemma EqualFold_refl a : strings.EqualFold a a = true.
Proof. apply String.eqb_refl. Qed.

Lemma EqualFold_lower a b :
  strings.ToLower a = a → strings.ToLower b = b →
  strings.EqualFold a b = (a =? b)%string.
Proof. unfold strings.EqualFold. by intros -> ->. Qed.

Lemma map_bytes_compose f g s :
  strings.map_bytes f (strings.map_bytes g s) = strings.map_bytes (λ c, f (g c)) s.
Proof. induction s as [|c s IH]; simpl; [done|]. by rewrite IH. Qed.

Lemma map_bytes_id f s :
  (∀ c, c ∈ String.list_ascii_of_string s → f c = c) → strings.map_bytes f s = s.
Proof.
  induction s as [|c s IH]; intros H; simpl; [done|]. rewrite H by (simpl; left).
  rewrite IH; [done|]. intros d Hd. apply H. simpl. by right.
Qed.

(** Replacing [a] by [b] and back is the identity on a string without [b]. *)
Lemma Replace_inverse s (x y : ascii) :
  y ∉ String.list_ascii_of_string s →
  strings.Replace (strings.Replace s x y) y x = s.
Proof.
  intros Hy. unfold strings.Replace. rewrite map_bytes_compose.
  apply map_bytes_id. intros c Hc. destruct (Ascii.eqb_spec c x) as [->|Hne].
  - by rewrite Ascii.eqb_refl.
  - destruct (Ascii.eqb_spec c y) as [->|]; [done|done].
Qed.

(** Replacing moves the count of one byte to the other. *)
Lemma Count_Replace s (x y : ascii) :
  y ∉ String.list_ascii_of_string s →
  strings.Count (strings.Replace s x y) y = strings.Count s x.
Proof.
  induction s as [|c s IH]; simpl; intros Hy; [done|].
  apply not_elem_of_cons in Hy as [Hc Hs]. unfold strings.Replace in *.
  rewrite IH by done. destruct (Ascii.eqb_spec c x) as [->|Hne].
  - by rewrite Ascii.eqb_refl.
  - destruct (Ascii.eqb_spec c y); [congruence|done].
Qed.

Lemma prefix_map f p s :
  (∀ c d, c ∈ String.list_ascii_of_string p → d ∈ String.list_ascii_of_string s →
     f c = f d → c = d) →
  String.prefix (strings.map_bytes f p) (strings.map_bytes f s) = String.prefix p s.
Proof.
  revert s. induction p as [|c p IH]; intros [|d s] Hf; simpl; try done.
  assert (Htl : ∀ c d, c ∈ String.list_ascii_of_string p → d ∈ String.list_ascii_of_string s →
     f c = f d → c = d) by (intros x y Hx Hy; apply Hf; simpl; by right).
  destruct (Ascii.ascii_dec c d) as [->|Hne].
  - destruct (Ascii.ascii_dec (f d) (f d)); [by apply IH|done].
  - destruct (Ascii.ascii_dec (f c) (f d)) as [Heq|]; [|done].
    destruct Hne. apply Hf; [simpl; by left|simpl; by left|done].
Qed.

(** A renaming of bytes that confuses none of the two texts keeps containment. *)
Lemma Contains_map f p s :
  (∀ c d, c ∈ String.list_ascii_of_string p → d ∈ String.list_ascii_of_string s →
     f c = f d → c = d) →
  strings.Contains (strings.map_bytes f s) (strings.map_bytes f p) = strings.Contains s p.
Proof.
  intros Hf. unfold strings.Contains, strings.Index.
  assert (Hi : String.index 0 (strings.map_bytes f p) (strings.map_bytes f s) = String.index 0 p s);
    [|by rewrite Hi].
  induction s as [|d s IH].
  - by destruct p.
  - change (strings.map_bytes f (String d s)) with (String (f d) (strings.map_bytes f s)).
    pose proof (prefix_map f p (String d s) Hf) as Hp. simpl strings.map_bytes in Hp.
    cbn [String.index]. rewrite Hp. destruct (String.prefix p (String d s)); [done|].
    rewrite IH; [done|]. intros x y Hx Hy. apply Hf; [done|]. simpl. by right.
Qed.

Lemma dot_elem c d : "."%char ∈ String.list_ascii_of_string (c +:+ "." +:+ d).
Proof. induction c as [|x c IH]; [left|by right]. Qed.

(** The last dot of a key separates it, when what follows has none. *)
Lemma key_inj a b c d :
  "."%char ∉ String.list_ascii_of_string b → "."%char ∉ String.list_ascii_of_string d →
  a +:+ "." +:+ b = c +:+ "." +:+ d → a = c ∧ b = d.
Proof.
  revert c. induction a as [|x a IH]; intros [|y c] Hb Hd Heq.
  - by injection Heq.
  - injection Heq as _ Heq. change (b = c +:+ "." +:+ d) in Heq. subst b.
    by destruct Hb; apply dot_elem.
  - injection Heq as _ Heq. change (a +:+ "." +:+ b = d) in Heq. subst d.
    by destruct Hd; apply dot_elem.
  - injection Heq as <- Heq. by destruct (IH c Hb Hd Heq) as [-> ->].
Qed.
End StringFacts.

Example ParseIP_v4 : net.ParseIP "10.0.0.1" = net.IPv4 10 0 0 1.
Proof. reflexivity. Qed.
Example ParseIP_v6 :
  net.ParseIP "1234:abcd::2" = [18;52;171;205;0;0;0;0;0;0;0;0;0;0;0;2]%Z.
Proof. vm_compute. reflexivity. Qed.
Example ParseIP_embedded : net.ParseIP "::ffff:1.2.3.4" = net.IPv4 1 2 3 4.
Proof. vm_compute. reflexivity. Qed.
Example ParseIP_bad :
  net.ParseIP <$> ["1.2.3"; "01.2.3.4"; "256.1.1.1"; "1.2.3.4."; "::1::"; "1:2:3:4:5:6:7:8:9"; "webs"; "fe80::1%eth0"; ""]
  = replicate 9 [].
Proof. vm_compute. reflexivity. Qed.

Example IP_String_v4 : net.IP_String (net.IPv4 10 0 0 255) = "10.0.0.255".
Proof. reflexivity. Qed.
Example IP_String_v6 :
  net.IP_String <$> (net.ParseIP <$> ["1234:ABCD::2"; "::1"; "::"; "1:0:0:2:0:0:0:3"; "1:2:3:4:5:6:7:0"; "fe80::"])
  = ["1234:abcd::2"; "::1"; "::"; "1:0:0:2::3"; "1:2:3:4:5:6:7:0"; "fe80::"].
Proof. vm_compute. reflexivity. Qed.
