(* ===== verification/GoTime.v ===== *)
(** The parts of Go's package time the program uses: [time.Parse] with the layout [RFC3339Nano] and
    [time.Since].

    A time is its nanoseconds since the zero time, January 1 of the year 1, 00:00:00 UTC, so that
    [IsZero] holds of 0 only; a duration is its nanoseconds. The layout is
    2006-01-02T15:04:05.999999999Z07:00: [Parse] is the loop of Go's parse over its chunks, one
    definition for each chunk. (The fast path Go takes first accepts less and agrees with it.) *)
From stdpp Require Import prelude strings list.
From Stdlib Require Import Ascii SpecFloat.
From S2P Require Import Prelude GoStd.

Module time.
Local Open Scope Z_scope.

(** * The calendar *)

Definition isLeap (year : Z) : bool :=
  (year mod 4 =? 0) && (negb (year mod 100 =? 0) || (year mod 400 =? 0)).

Definition daysIn (month year : Z) : Z :=
  if month =? 2 then if isLeap year then 29 else 28
  else 30 + Z.land (month + Z.shiftr month 3) 1.

(** [dateToAbsDays], counted from the zero time: the year begins in March, January and February
    belonging to the year before. *)
Definition dateToDays (year month day : Z) : Z :=
  let janFeb := if month <? 3 then 1 else 0 in
  let amonth := month + 12 * janFeb in
  let y := year - janFeb in
  let ayday := Z.shiftr (979 * amonth - 2919) 5 in
  let century := y / 100 in
  let cyear := y mod 100 in
  let cday := 1461 * cyear / 4 in
  let centurydays := 146097 * century / 4 in
  centurydays + (cday + ayday) + day - 1 - 306.

Definition secondsPerDay : Z := 86400.
Definition Second : Z := 1000000000.

(** [Date(..., UTC)], for fields in their ranges. *)
Definition Date (year month day hour min sec nsec : Z) : Z :=
  (dateToDays year month day * secondsPerDay + (hour * 3600 + min * 60 + sec)) * Second + nsec.

(** * Parsing *)

Definition digit_val (c : ascii) : Z := byte_Z c - 48.

(** One or two digits; exactly two when [fixed]. *)
Definition getnum (s : string) (fixed : bool) : option (Z * string) :=
  match s with
  | String a s' =>
      if is_digit a then
        match s' with
        | String b s'' =>
            if is_digit b then Some (digit_val a * 10 + digit_val b, s'')
            else if fixed then None else Some (digit_val a, s')
        | EmptyString => if fixed then None else Some (digit_val a, s')
        end
      else None
  | EmptyString => None
  end.

(** A byte of the layout that stands for itself. *)
Definition skip (value : string) (prefix : ascii) : option string :=
  match value with
  | String c v => if Ascii.eqb c prefix then Some v else None
  | EmptyString => None
  end.

(** 2006 *)
Definition longYear (value : string) : option (Z * string) :=
  match value with
  | String a (String b (String c (String d v))) =>
      if is_digit a then
        match strconv.Atoi (String a (String b (String c (String d "")))) with
        | inl year => Some (year, v)
        | inr _ => None
        end
      else None
  | _ => None
  end.

(** A number between bounds. *)
Definition in_range (lo hi : Z) (r : option (Z * string)) : option (Z * string) :=
  '(n, v) ← r; if (n <? lo) || (hi <? n) then None else Some (n, v).

Definition commaOrPeriod (c : ascii) : bool := Ascii.eqb c "."%char || Ascii.eqb c ","%char.

(** The digits a string begins with, and the rest. *)
Fixpoint span_digits (s : string) : string * string :=
  match s with
  | String c s' =>
      if is_digit c then let '(ds, rest) := span_digits s' in (String c ds, rest) else ("", s)
  | EmptyString => ("", "")
  end.

(** [parseNanoseconds], of the digits: nine of them at most are read. *)
Definition parseNanoseconds (digits : string) : option Z :=
  let digits := String.substring 0 9 digits in
  match strconv.Atoi digits with
  | inl ns => Some (ns * 10 ^ (9 - Z.of_nat (String.length digits)))
  | inr _ => None
  end.

(** .999999999 *)
Definition fracSecond9 (value : string) : option (Z * string) :=
  match value with
  | String c (String d v) =>
      if commaOrPeriod c && is_digit d then
        let '(digits, rest) := span_digits (String d v) in
        ns ← parseNanoseconds digits; Some (ns, rest)
      else Some (0, value)
  | _ => Some (0, value)
  end.

(** Z07:00: the offset in seconds. *)
Definition iso8601ColonTZ (value : string) : option (Z * string) :=
  match value with
  | String "Z" v => Some (0, v)
  | String sign (String h1 (String h2 (String colon (String m1 (String m2 v))))) =>
      if Ascii.eqb colon ":"%char then
        '(hr, _) ← in_range 0 24 (getnum (String h1 (String h2 "")) true);
        '(mm, _) ← in_range 0 60 (getnum (String m1 (String m2 "")) true);
        let zoneOffset := (hr * 60 + mm) * 60 in
        if Ascii.eqb sign "+"%char then Some (zoneOffset, v)
        else if Ascii.eqb sign "-"%char then Some (- zoneOffset, v)
        else None
      else None
  | _ => None
  end.

(** [Parse(RFC3339Nano, value)]; None is an error. *)
Definition Parse_RFC3339Nano (value : string) : option Z :=
  '(year, value) ← longYear value;
  value ← skip value "-"%char;
  '(month, value) ← in_range 1 12 (getnum value true);
  value ← skip value "-"%char;
  '(day, value) ← getnum value true;
  value ← skip value "T"%char;
  '(hour, value) ← in_range 0 23 (getnum value false);
  value ← skip value ":"%char;
  '(min, value) ← in_range 0 59 (getnum value true);
  value ← skip value ":"%char;
  '(sec, value) ← in_range 0 59 (getnum value true);
  '(nsec, value) ← fracSecond9 value;
  '(zoneOffset, value) ← iso8601ColonTZ value;
  if (value =? "")%string && (1 <=? day) && (day <=? daysIn month year) then
    Some (Date year month day hour min sec nsec - zoneOffset * Second)
  else None.

(** * Durations *)

Definition minDuration : Z := - 2 ^ 63.
Definition maxDuration : Z := 2 ^ 63 - 1.

(** [t.Sub(u)], saturating; [Since(u)] is [Now().Sub(u)]. *)
Definition Sub (t u : Z) : Z := Z.max minDuration (Z.min maxDuration (t - u)).

(** [d.Seconds()]: the seconds and the rest, as floats. *)
Definition Seconds (d : Z) : spec_float :=
  let sec := Z.quot d Second in
  let nsec := Z.rem d Second in
  SFadd prec emax (float_of_Z sec) (SFdiv prec emax (float_of_Z nsec) (float_of_Z Second)).

(** * How times are written *)

(** The fields of a date and time, and its zone. *)
Record civil := mkCivil { c_year : Z; c_month : Z; c_day : Z; c_hour : Z; c_min : Z; c_sec : Z }.
Inductive zone : Type := UTC | Offset (west : bool) (hours minutes : Z).

Definition valid (c : civil) : Prop :=
  0 <= c_year c <= 9999 ∧ 1 <= c_month c <= 12 ∧ 1 <= c_day c <= daysIn (c_month c) (c_year c) ∧
  0 <= c_hour c <= 23 ∧ 0 <= c_min c <= 59 ∧ 0 <= c_sec c <= 59.
Definition valid_zone (z : zone) : Prop :=
  match z with UTC => True | Offset _ hh mm => 0 <= hh <= 24 ∧ 0 <= mm <= 60 end.
Definition all_digits (s : string) : Prop := Forall (λ c, is_digit c = true) (String.list_ascii_of_string s).

Definition digit_char (n : Z) : ascii := ascii_of_nat (Z.to_nat (48 + n)).
Definition pad2 (n : Z) (s : string) : string := String (digit_char (n / 10)) (String (digit_char (n mod 10)) s).
Definition pad4 (n : Z) (s : string) : string := pad2 (n / 100) (pad2 (n mod 100) s).
Definition print_frac (frac s : string) : string :=
  if (frac =? "")%string then s else String "."%char (frac +:+ s).
Definition print_zone (z : zone) : string :=
  match z with
  | UTC => "Z"
  | Offset west hh mm =>
      String (if west then "-"%char else "+"%char) (pad2 hh (String ":"%char (pad2 mm "")))
  end.
Definition print (c : civil) (frac : string) (z : zone) : string :=
  pad4 (c_year c) (String "-"%char (pad2 (c_month c) (String "-"%char (pad2 (c_day c)
    (String "T"%char (pad2 (c_hour c) (String ":"%char (pad2 (c_min c) (String ":"%char
    (pad2 (c_sec c) (print_frac frac (print_zone z)))))))))))).

(** The nanoseconds of the digits of a fraction: the first counts 10^8, and from the tenth on none. *)
Fixpoint frac_nanos (scale : Z) (frac : string) : Z :=
  match frac with
  | EmptyString => 0
  | String c s => digit_val c * scale + frac_nanos (scale / 10) s
  end.
Definition zone_seconds (z : zone) : Z :=
  match z with
  | UTC => 0
  | Offset west hh mm => (if west then -1 else 1) * ((hh * 60 + mm) * 60)
  end.

(** The time that is written so. *)
Definition time_of (c : civil) (frac : string) (z : zone) : Z :=
  Date (c_year c) (c_month c) (c_day c) (c_hour c) (c_min c) (c_sec c) (frac_nanos (10 ^ 8) frac)
  - zone_seconds z * Second.

(** The date after a date. *)
Definition next_day (year month day : Z) : Z * Z * Z :=
  if day <? daysIn month year then (year, month, day + 1)
  else if month <? 12 then (year, month + 1, 1) else (year + 1, 1, 1).
End time.

(** * Facts *)

Section Facts.
Local Open Scope Z_scope.
Import time.

(** The calendar: a month has its days, and the next day is one more. *)
Lemma month_cases month :
  1 <= month <= 12 →
  month = 1 ∨ month = 2 ∨ month = 3 ∨ month = 4 ∨ month = 5 ∨ month = 6 ∨
  month = 7 ∨ month = 8 ∨ month = 9 ∨ month = 10 ∨ month = 11 ∨ month = 12.
Proof. lia. Qed.

(** The days of the years before March of [y], and those of a year. *)
Definition years_days (y : Z) : Z := 146097 * (y / 100) / 4 + 1461 * (y mod 100) / 4.

Lemma years_days_next y : years_days y = years_days (y - 1) + 365 + (if isLeap y then 1 else 0).
Proof.
  unfold years_days, isLeap.
  destruct (Z.eqb_spec (y mod 4) 0), (Z.eqb_spec (y mod 100) 0), (Z.eqb_spec (y mod 400) 0); simpl;
    Z.to_euclidean_division_equations; lia.
Qed.

(** The days from March to the beginning of a month. *)
Definition month_start (month : Z) : Z :=
  Z.shiftr (979 * (if month <? 3 then month + 12 else month) - 2919) 5.

Lemma dateToDays_eq year month day :
  dateToDays year month day =
    years_days (if month <? 3 then year - 1 else year) + month_start month + day - 307.
Proof.
  unfold dateToDays, years_days, month_start. destruct (month <? 3).
  - replace (month + 12 * 1) with (month + 12) by lia. lia.
  - replace (month + 12 * 0) with month by lia. rewrite Z.sub_0_r. lia.
Qed.

Lemma month_start_next month year :
  1 <= month <= 11 → month ≠ 2 → month_start (month + 1) = month_start month + daysIn month year.
Proof.
  intros Hm Hne. assert (1 <= month <= 12) as Hc%month_cases by lia.
  repeat destruct Hc as [-> | Hc]; try subst month; done || lia.
Qed.

Lemma days_next_day year month day :
  1 <= month <= 12 → 1 <= day <= daysIn month year →
  let '(y, m, d) := next_day year month day in dateToDays y m d = dateToDays year month day + 1.
Proof.
  intros Hm Hd. unfold next_day.
  destruct (Z.ltb_spec day (daysIn month year)) as [Hlt|Hlt]; [rewrite !dateToDays_eq; lia|].
  destruct (Z.ltb_spec month 12) as [Hm12|Hm12].
  - destruct (decide (month = 2)) as [->|Hne].
    + change (2 + 1) with 3. rewrite !dateToDays_eq. simpl. pose proof (years_days_next year).
      change (month_start 3) with 0. change (month_start 2) with 337. unfold daysIn in *. simpl in *.
      destruct (isLeap year); lia.
    + rewrite !dateToDays_eq, (month_start_next month year) by lia.
      destruct (Z.ltb_spec month 3), (Z.ltb_spec (month + 1) 3); lia.
  - assert (month = 12) as -> by lia. rewrite !dateToDays_eq. simpl.
    change (daysIn 12 year) with 31 in *. change (month_start 1) with 306. change (month_start 12) with 275.
    rewrite Z.add_simpl_r. lia.
Qed.

Lemma days_start : dateToDays 1 1 1 = 0.
Proof. done. Qed.

(** ** Digits *)

Lemma digit_char_spec n : 0 <= n <= 9 → is_digit (digit_char n) = true ∧ digit_val (digit_char n) = n.
Proof.
  intros Hn. assert (n = 0 ∨ n = 1 ∨ n = 2 ∨ n = 3 ∨ n = 4 ∨ n = 5 ∨ n = 6 ∨ n = 7 ∨ n = 8 ∨ n = 9)
    as Hc by lia. by repeat destruct Hc as [-> | Hc]; try subst n.
Qed.

Lemma digit_val_bounds c : is_digit c = true → 0 <= digit_val c <= 9.
Proof.
  unfold is_digit, digit_val, byte_Z. intros [H1%Nat.leb_le H2%Nat.leb_le]%andb_true_iff. lia.
Qed.

Lemma pad2_bounds n : 0 <= n <= 99 → 0 <= n / 10 <= 9 ∧ 0 <= n mod 10 <= 9.
Proof. intros. Z.to_euclidean_division_equations. lia. Qed.

Lemma getnum_pad2 n s fixed : 0 <= n <= 99 → getnum (pad2 n s) fixed = Some (n, s).
Proof.
  intros [H1 H2]%pad2_bounds. unfold getnum, pad2.
  destruct (digit_char_spec _ H1) as [-> ->], (digit_char_spec _ H2) as [-> ->].
  do 2 f_equal. Z.to_euclidean_division_equations. lia.
Qed.

(** Reading digits, when there is no overflow. *)
Fixpoint value (s : string) (n : Z) : Z :=
  match s with EmptyString => n | String c s' => value s' (n * 10 + digit_val c) end.

Lemma parse_digits_value s n :
  all_digits s → 0 <= n → (n + 1) * 10 ^ Z.of_nat (String.length s) <= 10 ^ 18 →
  strconv.parse_digits s n = inl (value s n) ∧ 0 <= value s n < 10 ^ 18.
Proof.
  unfold all_digits. revert n. induction s as [|c s IH]; intros n Hs Hn Hb.
  - change (10 ^ Z.of_nat (String.length "")) with 1 in Hb. split; [done|]. cbn [value]. lia.
  - cbn [String.list_ascii_of_string] in Hs. apply Forall_cons in Hs as [Hc Hs]. cbn [strconv.parse_digits value].
    rewrite Hc. fold (digit_val c). pose proof (digit_val_bounds c Hc).
    cbn [String.length] in Hb. rewrite Nat2Z.inj_succ, Z.pow_succ_r in Hb by lia.
    assert (0 < 10 ^ Z.of_nat (String.length s)) by (apply Z.pow_pos_nonneg; lia).
    assert (Hle : (n * 10 + digit_val c + 1) * 10 ^ Z.of_nat (String.length s) <= 10 ^ 18) by nia.
    unfold strconv.maxUint64. destruct (Z.ltb_spec (2 ^ 64 - 1) (n * 10 + digit_val c)); [nia|].
    apply IH; [done|lia|done].
Qed.

Lemma Atoi_value s :
  all_digits s → s ≠ "" → (String.length s <= 9)%nat → strconv.Atoi s = inl (value s 0).
Proof.
  intros Hs Hne Hl.
  assert (Hb : (0 + 1) * 10 ^ Z.of_nat (String.length s) <= 10 ^ 18)
    by (change (0 + 1) with 1; rewrite Z.mul_1_l; apply Z.pow_le_mono_r; lia).
  destruct (parse_digits_value s 0 Hs ltac:(lia) Hb) as [Hp Hv].
  destruct s as [|c s]; [done|]. unfold strconv.Atoi.
  assert (Hc : is_digit c = true) by (unfold all_digits in Hs; simpl in Hs; by apply Forall_cons in Hs as [? _]).
  assert (Hm : (match String c s with
                | String "-"%char s' => (true, s') | String "+"%char s' => (false, s')
                | _ => (false, String c s) end) = (false, String c s)).
  { destruct c as [[] [] [] [] [] [] [] []]; done. }
  rewrite Hm, Hp. cbn [String.eqb negb andb orb]. destruct (Z.leb_spec (2 ^ 63) (value (String c s) 0)); [lia|done].
Qed.

Lemma digit_all n s : 0 <= n <= 9 → all_digits s → all_digits (String (digit_char n) s).
Proof. intros [Hd _]%digit_char_spec Hs. by apply Forall_cons. Qed.

Lemma longYear_pad4 n s : 0 <= n <= 9999 → longYear (pad4 n s) = Some (n, s).
Proof.
  intros Hn.
  assert (H12 : 0 <= n / 100 <= 99 ∧ 0 <= n mod 100 <= 99) by (Z.to_euclidean_division_equations; lia).
  destruct H12 as [H1 H2]. destruct (pad2_bounds _ H1) as [Ha Hb], (pad2_bounds _ H2) as [Hc Hd].
  unfold longYear, pad4, pad2. rewrite (proj1 (digit_char_spec _ Ha)).
  rewrite Atoi_value; [|repeat apply digit_all; done || by apply Forall_nil|done|simpl; lia]. cbn [value].
  rewrite !(λ n H, proj2 (digit_char_spec n H)) by done.
  do 2 f_equal. Z.to_euclidean_division_equations. lia.
Qed.

(** ** Fractions *)

Lemma span_digits_app ds c s :
  all_digits ds → is_digit c = false → span_digits (ds +:+ String c s) = (ds, String c s).
Proof.
  unfold all_digits. intros Hds Hc. induction ds as [|d ds IH].
  - change ("" +:+ String c s) with (String c s). cbn [span_digits]. by rewrite Hc.
  - cbn [String.list_ascii_of_string] in Hds. apply Forall_cons in Hds as [Hd Hds].
    change (String d ds +:+ String c s) with (String d (ds +:+ String c s)). cbn [span_digits].
    by rewrite Hd, IH.
Qed.

Lemma value_from s n : value s n = n * 10 ^ Z.of_nat (String.length s) + value s 0.
Proof.
  revert n. induction s as [|c s IH]; intros n; cbn [value String.length].
  - change (Z.of_nat 0) with 0. lia.
  - rewrite IH, (IH (0 * 10 + _)), Nat2Z.inj_succ, Z.pow_succ_r by lia. lia.
Qed.

(** The digits beyond the scale do not count. *)
Lemma frac_nanos_zero s : frac_nanos 0 s = 0.
Proof. induction s as [|c s IH]; [done|]. cbn [frac_nanos]. change (0 / 10) with 0. rewrite IH. lia. Qed.

Lemma substring_cons k c s : String.substring 0 (S k) (String c s) = String c (String.substring 0 k s).
Proof. done. Qed.

Lemma substring_length k s : (String.length (String.substring 0 k s) <= k)%nat.
Proof.
  revert s. induction k as [|k IH]; intros [|c s]; simpl; try lia. specialize (IH s). lia.
Qed.

Lemma substring_digits k s : all_digits s → all_digits (String.substring 0 k s).
Proof.
  unfold all_digits. revert s. induction k as [|k IH]; intros [|c s] Hs; try by constructor.
  cbn [String.list_ascii_of_string] in Hs. apply Forall_cons in Hs as [Hc Hs].
  rewrite substring_cons. constructor; [done|by apply IH].
Qed.

Lemma frac_nanos_value k s :
  frac_nanos (10 ^ Z.of_nat k) s =
    value (String.substring 0 (S k) s) 0 * 10 ^ Z.of_nat (S k - String.length (String.substring 0 (S k) s)).
Proof.
  revert s. induction k as [|k IH]; intros [|c s]; try done; rewrite substring_cons; cbn [frac_nanos value String.length].
  - change (10 ^ Z.of_nat 0 / 10) with 0. rewrite frac_nanos_zero.
    replace (String.substring 0 0 s) with "" by (by destruct s). cbn [value String.length]. simpl. lia.
  - rewrite (Nat2Z.inj_succ k), Z.pow_succ_r by lia.
    replace (10 * 10 ^ Z.of_nat k / 10) with (10 ^ Z.of_nat k) by (rewrite Z.mul_comm, Z.div_mul; lia).
    rewrite IH, (value_from _ (0 * 10 + _)).
    pose proof (substring_length (S k) s) as Hl. rewrite Nat.sub_succ.
    set (v := value _ 0). set (m := String.length _) in *.
    replace (10 * 10 ^ Z.of_nat k) with (10 ^ Z.of_nat m * 10 ^ Z.of_nat (S k - m)); [lia|].
    rewrite <- Z.pow_add_r, <- Z.pow_succ_r by lia. f_equal. lia.
Qed.

Lemma parseNanoseconds_value ds :
  all_digits ds → ds ≠ "" → parseNanoseconds ds = Some (frac_nanos (10 ^ 8) ds).
Proof.
  intros Hds Hne. unfold parseNanoseconds. pose proof (substring_length 9 ds) as Hl.
  rewrite Atoi_value; [|by apply substring_digits|by destruct ds|done].
  f_equal. change (10 ^ 8) with (10 ^ Z.of_nat 8). rewrite frac_nanos_value. do 2 f_equal. lia.
Qed.

Lemma print_zone_head z : ∃ c s, print_zone z = String c s ∧ is_digit c = false ∧ commaOrPeriod c = false.
Proof. destruct z as [|[] hh mm]; by do 2 eexists. Qed.

Lemma fracSecond9_print frac z :
  all_digits frac →
  fracSecond9 (print_frac frac (print_zone z)) = Some (frac_nanos (10 ^ 8) frac, print_zone z).
Proof.
  intros Hf. unfold print_frac. destruct (print_zone_head z) as (c & s & -> & Hc & Hp).
  destruct frac as [|d ds].
  - cbn [String.eqb fracSecond9]. destruct s as [|c' s]; [done|]. by rewrite Hp.
  - cbn [String.eqb]. change (String d ds +:+ String c s) with (String d (ds +:+ String c s)).
    cbn [fracSecond9]. assert (Hd : is_digit d = true) by (by apply Forall_cons in Hf as [? _]).
    rewrite Hd. cbn [andb commaOrPeriod Ascii.eqb]. simpl (_ || _). cbv iota.
    change (String d (ds +:+ String c s)) with (String d ds +:+ String c s).
    rewrite span_digits_app by done. by rewrite parseNanoseconds_value.
Qed.

Lemma in_range_ok lo hi n v : lo <= n <= hi → in_range lo hi (Some (n, v)) = Some (n, v).
Proof.
  intros Hn. unfold in_range. simpl. destruct (Z.ltb_spec n lo), (Z.ltb_spec hi n); done || lia.
Qed.

Lemma iso8601ColonTZ_print z :
  valid_zone z → iso8601ColonTZ (print_zone z) = Some (zone_seconds z, "").
Proof.
  destruct z as [|west hh mm]; [done|]. intros [Hh Hm]. unfold print_zone, zone_seconds.
  assert (Hn : ∀ n s, 0 <= n <= 99 → getnum (String (digit_char (n / 10))
    (String (digit_char (n mod 10)) s)) true = Some (n, s)) by (intros; by apply getnum_pad2).
  unfold pad2. destruct west; cbn [iso8601ColonTZ Ascii.eqb Bool.eqb];
    rewrite !Hn, !in_range_ok by lia; simpl; do 2 f_equal; lia.
Qed.

Lemma skip_head c v : skip (String c v) c = Some v.
Proof. unfold skip. by rewrite Ascii.eqb_refl. Qed.

Lemma daysIn_bound month year : 1 <= month <= 12 → daysIn month year <= 31.
Proof.
  intros Hc%month_cases.
  repeat destruct Hc as [-> | Hc]; try subst month; unfold daysIn; simpl (_ =? 2); cbv iota;
    try destruct (isLeap year); by vm_compute.
Qed.

(** The next chunk of what is written. *)
Ltac chunk :=
  first [rewrite skip_head | rewrite longYear_pad4 by done
        | rewrite getnum_pad2 by lia; rewrite ?in_range_ok by lia
        | rewrite fracSecond9_print by done | rewrite iso8601ColonTZ_print by done];
  cbn [mbind option_bind].

(** What is written is read back. *)
Lemma Parse_print c frac z :
  valid c → all_digits frac → valid_zone z → Parse_RFC3339Nano (print c frac z) = Some (time_of c frac z).
Proof.
  intros (Hy & Hm & Hd & Hh & Hmi & Hs) Hf Hz. unfold Parse_RFC3339Nano, print.
  pose proof (daysIn_bound (c_month c) (c_year c) Hm).
  repeat chunk.
  destruct (Z.leb_spec 1 (c_day c)), (Z.leb_spec (c_day c) (daysIn (c_month c) (c_year c))); try lia. done.
Qed.

Lemma Sub_bounds t u : minDuration <= Sub t u <= maxDuration.
Proof. unfold Sub, minDuration, maxDuration. lia. Qed.
End Facts.
