(* ===== verification/Object.v ===== *)
(** Package object (src/object): the stripped-down copies of the API objects that the caches hold,
    and the functions that make them.

    The API objects are records of the fields the program reads. They live in a heap, because the
    conversion of an object clears it in place ([*pod = api.Pod{}]) unless it is told not to, and
    whoever holds the same pointer afterwards reads the cleared object. A converted object is
    never changed, so it is a value. A Go [interface{}] is a value of [any]. *)
From stdpp Require Import prelude strings gmap list.
From S2P Require Import Prelude GoStd.

(** * API objects *)

(** A [time.Time] as nanoseconds since the zero time. *)
Definition Time : Type := Z.
Definition IsZero (t : Time) : bool := (t =? 0)%Z.

Record ObjectMeta := mkMeta {
  om_Name : string;
  om_Namespace : string;
  om_ResourceVersion : string;
  om_DeletionTimestamp : option Time;
  om_Annotations : gmap string string;
}.

Record api_Pod := mkApiPod { ap_Meta : ObjectMeta; ap_PodIP : string }.

Record ServicePort := mkServicePort {
  sp_Name : string; sp_Protocol : string; sp_Port : Z;
}.
Record LoadBalancerIngress := mkIngress { lb_IP : string; lb_Hostname : string }.
Record api_Service := mkApiService {
  as_Meta : ObjectMeta;
  as_ClusterIP : string;
  as_Type : string;
  as_ExternalName : string;
  as_Ports : list ServicePort;
  as_ExternalIPs : list string;
  as_Ingress : list LoadBalancerIngress;
}.

Record api_EndpointAddress := mkApiAddress {
  aa_IP : string;
  aa_Hostname : string;
  aa_NodeName : option string;
  aa_TargetRef : option string; (* the name of the object referred to *)
}.
Record api_EndpointPort := mkApiPort { app_Name : string; app_Port : Z; app_Protocol : string }.
Record api_EndpointSubset := mkApiSubset {
  au_Addresses : list api_EndpointAddress; au_Ports : list api_EndpointPort;
}.
Record api_Endpoints := mkApiEndpoints {
  ae_Meta : ObjectMeta; ae_Subsets : list api_EndpointSubset;
}.
Record api_Namespace := mkApiNamespace { an_Meta : ObjectMeta }.

Definition zero_meta : ObjectMeta := mkMeta "" "" "" None ∅.
Definition zero_Pod : api_Pod := mkApiPod zero_meta "".
Definition zero_Service : api_Service := mkApiService zero_meta "" "" "" [] [] [].
Definition zero_Endpoints : api_Endpoints := mkApiEndpoints zero_meta [].

Inductive api_object : Type :=
| ApiPod (p : api_Pod)
| ApiService (s : api_Service)
| ApiEndpoints (e : api_Endpoints)
| ApiNamespace (n : api_Namespace).

Abbreviation ApiHeap := (gmap positive api_object).

(** * Stripped-down objects *)

Record Pod := mkPod {
  pod_Version : string; pod_PodIP : string; pod_Name : string; pod_Namespace : string;
}.

Record Service := mkService {
  svc_Version : string;
  svc_Name : string;
  svc_Namespace : string;
  svc_Index : string;
  svc_ClusterIP : string;
  svc_Type : string;
  svc_ExternalName : string;
  svc_Ports : list ServicePort;
  svc_ExternalIPs : list string;
}.

Record EndpointAddress := mkAddress {
  ea_IP : string; ea_Hostname : string; ea_NodeName : string; ea_TargetRefName : string;
}.
Record EndpointPort := mkEndpointPort { ep_Port : Z; ep_Name : string; ep_Protocol : string }.
Record EndpointSubset := mkSubset {
  es_Addresses : list EndpointAddress; es_Ports : list EndpointPort;
}.
Record Endpoints := mkEndpoints {
  eps_Version : string;
  eps_Name : string;
  eps_Namespace : string;
  eps_Index : string;
  eps_IndexIP : list string;
  eps_Subsets : list EndpointSubset;
}.

#[export] Instance ObjectMeta_eq_dec : EqDecision ObjectMeta.
Proof. solve_decision. Defined.
#[export] Instance ServicePort_eq_dec : EqDecision ServicePort.
Proof. solve_decision. Defined.
#[export] Instance EndpointAddress_eq_dec : EqDecision EndpointAddress.
Proof. solve_decision. Defined.
#[export] Instance EndpointPort_eq_dec : EqDecision EndpointPort.
Proof. solve_decision. Defined.
#[export] Instance EndpointSubset_eq_dec : EqDecision EndpointSubset.
Proof. solve_decision. Defined.
#[export] Instance Endpoints_eq_dec : EqDecision Endpoints.
Proof. solve_decision. Defined.
#[export] Instance Service_eq_dec : EqDecision Service.
Proof. solve_decision. Defined.
#[export] Instance Pod_eq_dec : EqDecision Pod.
Proof. solve_decision. Defined.
#[export] Instance api_Namespace_eq_dec : EqDecision api_Namespace.
Proof. solve_decision. Defined.

(** * Metadata *)

(** The accessors of [metav1.Object] that the program and client-go's stores use on a converted
    object. The setters leave it as it is. *)
Class MetaObject (A : Type) := {
  GetNamespace : A → string; SetNamespace : string → A → A;
  GetName : A → string; SetName : string → A → A;
  GetResourceVersion : A → string; SetResourceVersion : string → A → A;
}.

#[export] Instance Pod_meta : MetaObject Pod := {|
  GetNamespace := pod_Namespace; SetNamespace _ p := p;
  GetName := pod_Name; SetName _ p := p;
  GetResourceVersion := pod_Version; SetResourceVersion _ p := p;
|}.
#[export] Instance Service_meta : MetaObject Service := {|
  GetNamespace := svc_Namespace; SetNamespace _ s := s;
  GetName := svc_Name; SetName _ s := s;
  GetResourceVersion := svc_Version; SetResourceVersion _ s := s;
|}.
#[export] Instance Endpoints_meta : MetaObject Endpoints := {|
  GetNamespace := eps_Namespace; SetNamespace _ e := e;
  GetName := eps_Name; SetName _ e := e;
  GetResourceVersion := eps_Version; SetResourceVersion _ e := e;
|}.

(** The other accessors are those of the embedded [*Empty]: constants, whatever was set. A type of a
    library that only appears as an empty list is an argument. *)
Module Empty.
Record empty := mkEmpty {}.
Section Accessors.
Context {ObjectKind OwnerReference ManagedFieldsEntry : Type}.
Variable EmptyObjectKind : ObjectKind.
Implicit Types e : empty.
Definition GetObjectKind e : ObjectKind := EmptyObjectKind.
Definition GetGenerateName e : string := "".
Definition SetGenerateName (name : string) e : empty := e.
Definition GetUID e : string := "".
Definition SetUID (uid : string) e : empty := e.
Definition GetGeneration e : Z := 0.
Definition SetGeneration (generation : Z) e : empty := e.
Definition GetSelfLink e : string := "".
Definition SetSelfLink (selfLink : string) e : empty := e.
Definition GetCreationTimestamp e : Time := 0%Z.
Definition SetCreationTimestamp (timestamp : Time) e : empty := e.
(** A pointer to the zero time, never nil. *)
Definition GetDeletionTimestamp e : option Time := Some 0%Z.
Definition SetDeletionTimestamp (timestamp : option Time) e : empty := e.
Definition GetDeletionGracePeriodSeconds e : option Z := None.
Definition SetDeletionGracePeriodSeconds (_ : option Z) e : empty := e.
Definition GetLabels e : gmap string string := ∅.
Definition SetLabels (labels : gmap string string) e : empty := e.
Definition GetAnnotations e : gmap string string := ∅.
Definition SetAnnotations (annotations : gmap string string) e : empty := e.
Definition GetFinalizers e : list string := [].
Definition SetFinalizers (finalizers : list string) e : empty := e.
Definition GetOwnerReferences e : list OwnerReference := [].
Definition SetOwnerReferences (_ : list OwnerReference) e : empty := e.
Definition GetClusterName e : string := "".
Definition SetClusterName (clusterName : string) e : empty := e.
Definition GetManagedFields e : list ManagedFieldsEntry := [].
Definition SetManagedFields (managedFields : list ManagedFieldsEntry) e : empty := e.
End Accessors.
End Empty.

(** What an [interface{}] of the program can hold: nil, a converted object, a pointer to an API
    object, a [cache.DeletedFinalStateUnknown] with its key, anything else. *)
Inductive any : Type :=
| VNil
| VPod (p : Pod)
| VService (s : Service)
| VEndpoints (e : Endpoints)
| VNamespace (n : api_Namespace)
| VApi (l : positive)
| VTombstone (key : string)
| VOther (type : string).

#[export] Instance any_eq_dec : EqDecision any.
Proof. solve_decision. Defined.

(** * Conversions *)

(** [ToFunc]: the converted object and an error, which can both be present. *)
Definition ToFunc : Type := any → GoM ApiHeap (any * option go_error).

Definition ServiceKey (name namespace : string) : string := name +:+ "." +:+ namespace.
Definition EndpointsKey (name namespace : string) : string := name +:+ "." +:+ namespace.

(** The converted pod and what is left of the API object. *)
Definition toPod (skipCleanup : bool) (pod : api_Pod) : Pod * api_Pod :=
  (mkPod (om_ResourceVersion (ap_Meta pod)) (ap_PodIP pod)
     (om_Name (ap_Meta pod)) (om_Namespace (ap_Meta pod)),
   if skipCleanup then pod else zero_Pod).

Definition ToPod (skipCleanup : bool) : ToFunc := λ obj h,
  match obj with
  | VApi l =>
      match h !! l with
      | Some (ApiPod apiPod) =>
          let '(pod, apiPod') := toPod skipCleanup apiPod in
          (* the deletion timestamp is read after the conversion *)
          let err := match om_DeletionTimestamp (ap_Meta apiPod') with
                     | Some t => if IsZero t then None else Some errPodTerminating
                     | None => None
                     end in
          (Ret (VPod pod, err), <[l := ApiPod apiPod']> h)
      | _ => (Ret (VNil, Some (errMsg "unexpected object")), h)
      end
  | _ => (Ret (VNil, Some (errMsg "unexpected object")), h)
  end.

(** The host of a load balancer ingress: its IP, or its host name when it has none. *)
Definition ingress_host (lb : LoadBalancerIngress) : string :=
  if (lb_IP lb =? "")%string then lb_Hostname lb else lb_IP lb.

Definition toService (skipCleanup : bool) (svc : api_Service) : outcome (Service * api_Service) :=
  let ports :=
    match as_Ports svc with
    | [] => [mkServicePort "" "" (-1)]
    | ps => (go_copy (replicate (length ps) (mkServicePort "" "" 0)) ps).1
    end in
  let ext0 := replicate (length (as_Ingress svc) + length (as_ExternalIPs svc)) "" in
  let '(ext1, li) := go_copy ext0 (as_ExternalIPs svc) in
  ext ← go_fill_from ingress_host ext1 li (as_Ingress svc);
  mret (mkService (om_ResourceVersion (as_Meta svc)) (om_Name (as_Meta svc))
          (om_Namespace (as_Meta svc))
          (ServiceKey (om_Name (as_Meta svc)) (om_Namespace (as_Meta svc)))
          (as_ClusterIP svc) (as_Type svc) (as_ExternalName svc) ports ext,
        if skipCleanup then svc else zero_Service).

Definition ToService (skipCleanup : bool) : ToFunc := λ obj h,
  match obj with
  | VApi l =>
      match h !! l with
      | Some (ApiService svc) =>
          match toService skipCleanup svc with
          | Ret (s, svc') => (Ret (VService s, None), <[l := ApiService svc']> h)
          | Throw e => (Throw e, h)
          | Panic => (Panic, h)
          end
      | _ => (Ret (VNil, Some (errMsg "unexpected object")), h)
      end
  | _ => (Ret (VNil, Some (errMsg "unexpected object")), h)
  end.

Definition toAddress (a : api_EndpointAddress) : EndpointAddress :=
  mkAddress (aa_IP a) (aa_Hostname a) (default "" (aa_NodeName a)) (default "" (aa_TargetRef a)).

Definition toPort (p : api_EndpointPort) : EndpointPort :=
  mkEndpointPort (app_Port p) (app_Name p) (app_Protocol p).

Definition zero_address : EndpointAddress := mkAddress "" "" "" "".
Definition zero_port : EndpointPort := mkEndpointPort 0 "" "".
Definition zero_subset : EndpointSubset := mkSubset [] [].

Definition toSubset (eps : api_EndpointSubset) : outcome EndpointSubset :=
  let ports0 :=
    match au_Ports eps with
    | [] => [mkEndpointPort (-1) "" ""]
    | ps => replicate (length ps) zero_port
    end in
  addrs ← go_fill zero_address toAddress (au_Addresses eps);
  ports ← go_fill_from toPort ports0 0 (au_Ports eps);
  mret (mkSubset addrs ports).

(** [for i, x := range l { dst[i] = sub }] where computing [sub] can itself panic. *)
Fixpoint fill_subsets {A} (f : A → outcome EndpointSubset) (dst : list EndpointSubset) (i : nat)
    (l : list A) : outcome (list EndpointSubset) :=
  match l with
  | [] => Ret dst
  | x :: l' =>
      sub ← f x;
      dst' ← go_set dst i sub;
      fill_subsets f dst' (S i) l'
  end.

Definition toEndpoints (skipCleanup : bool) (end_ : api_Endpoints) :
    outcome (Endpoints * api_Endpoints) :=
  subsets ← fill_subsets toSubset (replicate (length (ae_Subsets end_)) zero_subset) 0
              (ae_Subsets end_);
  let indexIP :=
    foldl (λ acc eps, foldl (λ acc a, acc ++ [aa_IP a]) acc (au_Addresses eps)) []
      (ae_Subsets end_) in
  mret (mkEndpoints (om_ResourceVersion (ae_Meta end_)) (om_Name (ae_Meta end_))
          (om_Namespace (ae_Meta end_))
          (EndpointsKey (om_Name (ae_Meta end_)) (om_Namespace (ae_Meta end_)))
          indexIP subsets,
        if skipCleanup then end_ else zero_Endpoints).

Definition ToEndpoints (skipCleanup : bool) : ToFunc := λ obj h,
  match obj with
  | VApi l =>
      match h !! l with
      | Some (ApiEndpoints eps) =>
          match toEndpoints skipCleanup eps with
          | Ret (e, eps') => (Ret (VEndpoints e, None), <[l := ApiEndpoints eps']> h)
          | Throw e => (Throw e, h)
          | Panic => (Panic, h)
          end
      | _ => (Ret (VNil, Some (errMsg "unexpected object")), h)
      end
  | _ => (Ret (VNil, Some (errMsg "unexpected object")), h)
  end.

(** * Copies *)

Definition DeepCopyPod (p : Pod) : Pod :=
  mkPod (pod_Version p) (pod_PodIP p) (pod_Name p) (pod_Namespace p).

Definition DeepCopyService (s : Service) : Service :=
  mkService (svc_Version s) (svc_Name s) (svc_Namespace s) (svc_Index s) (svc_ClusterIP s)
    (svc_Type s) (svc_ExternalName s)
    (go_copy (replicate (length (svc_Ports s)) (mkServicePort "" "" 0)) (svc_Ports s)).1
    (go_copy (replicate (length (svc_ExternalIPs s)) "") (svc_ExternalIPs s)).1.

Definition CopyWithoutSubsets (e : Endpoints) : Endpoints :=
  mkEndpoints (eps_Version e) (eps_Name e) (eps_Namespace e) (eps_Index e)
    (go_copy (replicate (length (eps_IndexIP e)) "") (eps_IndexIP e)).1 [].

Definition copyAddress (a : EndpointAddress) : EndpointAddress :=
  mkAddress (ea_IP a) (ea_Hostname a) (ea_NodeName a) (ea_TargetRefName a).
Definition copyPort (p : EndpointPort) : EndpointPort :=
  mkEndpointPort (ep_Port p) (ep_Name p) (ep_Protocol p).

Definition copySubset (eps : EndpointSubset) : outcome EndpointSubset :=
  addrs ← go_fill zero_address copyAddress (es_Addresses eps);
  ports ← go_fill zero_port copyPort (es_Ports eps);
  mret (mkSubset addrs ports).

Definition DeepCopyEndpoints (e : Endpoints) : outcome Endpoints :=
  let indexIP := (go_copy (replicate (length (eps_IndexIP e)) "") (eps_IndexIP e)).1 in
  subsets ← fill_subsets copySubset (replicate (length (eps_Subsets e)) zero_subset) 0
              (eps_Subsets e);
  mret (mkEndpoints (eps_Version e) (eps_Name e) (eps_Namespace e) (eps_Index e) indexIP subsets).

(** A pod is terminating when its deletion timestamp is set and not the zero time. *)
Definition terminating (p : api_Pod) : bool :=
  match om_DeletionTimestamp (ap_Meta p) with Some t => negb (IsZero t) | None => false end.

(** * Facts *)

Lemma fill_subsets_spec {A} (f : A → EndpointSubset) (g : A → outcome EndpointSubset)
    (dst : list EndpointSubset) (i : nat) (l : list A) :
  (∀ x, g x = Ret (f x)) → length dst = i + length l →
  fill_subsets g dst i l = Ret (take i dst ++ (f <$> l)).
Proof.
  intros Hg. revert dst i. induction l as [|x l IH]; intros dst i Hlen; simpl in *.
  - rewrite app_nil_r, take_ge by lia. done.
  - rewrite Hg. go_simpl. unfold go_set. rewrite decide_True by lia. go_simpl.
    rewrite IH by (rewrite length_insert; lia). f_equal.
    rewrite (take_S_r _ _ (f x)) by (apply list_lookup_insert_eq; lia).
    rewrite take_insert_ge by lia. by rewrite <- app_assoc.
Qed.

Lemma fill_subsets_fmap {A} (f : A → EndpointSubset) (g : A → outcome EndpointSubset) (l : list A) :
  (∀ x, g x = Ret (f x)) →
  fill_subsets g (replicate (length l) zero_subset) 0 l = Ret (f <$> l).
Proof. intros Hg. by rewrite (fill_subsets_spec f g) by (done || by rewrite length_replicate). Qed.

(** The subset a conversion makes. *)
Definition subset_of (eps : api_EndpointSubset) : EndpointSubset :=
  mkSubset (toAddress <$> au_Addresses eps)
    match au_Ports eps with [] => [mkEndpointPort (-1) "" ""] | ps => toPort <$> ps end.

Lemma toSubset_spec eps : toSubset eps = Ret (subset_of eps).
Proof.
  unfold toSubset, subset_of. rewrite go_fill_fmap. go_simpl.
  destruct (au_Ports eps) as [|p ps]; [done|].
  by rewrite go_fill_from_spec by (by rewrite length_replicate).
Qed.

Lemma indexIP_spec (l : list api_EndpointSubset) :
  foldl (λ acc eps, foldl (λ acc a, acc ++ [aa_IP a]) acc (au_Addresses eps)) [] l
  = concat ((λ eps, aa_IP <$> au_Addresses eps) <$> l).
Proof.
  rewrite <- (app_nil_l (concat _)), <- foldl_app_concat. apply foldl_ext. intros acc eps _.
  by rewrite (foldl_app_concat (λ a, [aa_IP a])), concat_fmap_singleton.
Qed.

(** What a conversion makes of the fields of an API object. *)
Definition service_of (svc : api_Service) : Service :=
  mkService (om_ResourceVersion (as_Meta svc)) (om_Name (as_Meta svc)) (om_Namespace (as_Meta svc))
    (ServiceKey (om_Name (as_Meta svc)) (om_Namespace (as_Meta svc)))
    (as_ClusterIP svc) (as_Type svc) (as_ExternalName svc)
    match as_Ports svc with [] => [mkServicePort "" "" (-1)] | ps => ps end
    (as_ExternalIPs svc ++ (ingress_host <$> as_Ingress svc)).

Definition endpoints_of (e : api_Endpoints) : Endpoints :=
  mkEndpoints (om_ResourceVersion (ae_Meta e)) (om_Name (ae_Meta e)) (om_Namespace (ae_Meta e))
    (EndpointsKey (om_Name (ae_Meta e)) (om_Namespace (ae_Meta e)))
    (concat ((λ eps, aa_IP <$> au_Addresses eps) <$> ae_Subsets e))
    (subset_of <$> ae_Subsets e).

Definition pod_of (p : api_Pod) : Pod :=
  mkPod (om_ResourceVersion (ap_Meta p)) (ap_PodIP p) (om_Name (ap_Meta p)) (om_Namespace (ap_Meta p)).

Lemma toService_ok skip svc :
  toService skip svc = Ret (service_of svc, if skip then svc else zero_Service).
Proof.
  unfold toService, service_of. rewrite go_copy_prefix by (rewrite length_replicate; lia).
  rewrite go_fill_from_spec
    by (rewrite length_app, length_drop, length_replicate; lia).
  go_simpl. rewrite take_app_length. repeat f_equal.
  destruct (as_Ports svc) as [|p ps]; [done|].
  by rewrite go_copy_full by (by rewrite length_replicate).
Qed.

Lemma toEndpoints_ok skip e :
  toEndpoints skip e = Ret (endpoints_of e, if skip then e else zero_Endpoints).
Proof.
  unfold toEndpoints, endpoints_of. rewrite (fill_subsets_fmap subset_of) by apply toSubset_spec.
  go_simpl. by rewrite indexIP_spec.
Qed.

Lemma copySubset_spec eps : copySubset eps = Ret eps.
Proof.
  unfold copySubset. rewrite !go_fill_fmap. go_simpl.
  rewrite !fmap_id_ext by (by intros []). by destruct eps.
Qed.

(** What the conversion of a pod returns and leaves. *)
Lemma ToPod_report (skip : bool) (h : ApiHeap) l p :
  h !! l = Some (ApiPod p) →
  ToPod skip (VApi l) h =
    (Ret (VPod (pod_of p), if skip && terminating p then Some errPodTerminating else None),
     <[l := ApiPod (if skip then p else zero_Pod)]> h).
Proof.
  intros Hl. unfold ToPod, terminating. rewrite Hl. destruct skip; simpl; [|done].
  destruct (om_DeletionTimestamp (ap_Meta p)) as [t|]; [|done]. by destruct (IsZero t).
Qed.

(** * Properties *)

(** Converting a service never indexes out of range, and yields exactly the API object's
    fields: the key ["name.namespace"], its ports or the one sentinel port -1 when it has none, and
    the external IPs followed by the host of every load balancer ingress, in order. The API object
    is left as it was with [skipCleanup] and cleared without it. *)
Theorem toService_functional skip (svc : api_Service) :
  ∃ s, toService skip svc = Ret (s, if skip then svc else zero_Service) ∧
    svc_Index s = om_Name (as_Meta svc) +:+ "." +:+ om_Namespace (as_Meta svc) ∧
    svc_ExternalIPs s = as_ExternalIPs svc ++ (ingress_host <$> as_Ingress svc) ∧
    svc_Ports s ≠ [] ∧
    (as_Ports svc ≠ [] → svc_Ports s = as_Ports svc) ∧
    (as_Ports svc = [] → sp_Port <$> svc_Ports s = [-1]%Z).
Proof.
  rewrite toService_ok. eexists. split; [done|]. simpl.
  repeat split; destruct (as_Ports svc); naive_solver.
Qed.

(** Converting an endpoints object never indexes out of range; the reverse index of the result
    lists exactly the IPs of all its addresses, in order and with repetitions, and every subset
    keeps its addresses and has at least one port. *)
Theorem toEndpoints_functional skip (e : api_Endpoints) :
  ∃ e', toEndpoints skip e = Ret (e', if skip then e else zero_Endpoints) ∧
    eps_Index e' = om_Name (ae_Meta e) +:+ "." +:+ om_Namespace (ae_Meta e) ∧
    eps_IndexIP e' = concat ((λ sub, ea_IP <$> es_Addresses sub) <$> eps_Subsets e') ∧
    length (eps_Subsets e') = length (ae_Subsets e) ∧
    (∀ i sub, eps_Subsets e' !! i = Some sub →
       es_Ports sub ≠ [] ∧
       ∃ asub, ae_Subsets e !! i = Some asub ∧
         es_Addresses sub = toAddress <$> au_Addresses asub ∧
         (au_Ports asub ≠ [] → es_Ports sub = toPort <$> au_Ports asub)).
Proof.
  rewrite toEndpoints_ok. eexists. split; [done|]. simpl. split_and!.
  - done.
  - rewrite <- list_fmap_compose. f_equal. apply list_fmap_ext. intros _ eps _. simpl.
    by rewrite <- list_fmap_compose.
  - apply length_fmap.
  - intros i sub. rewrite list_lookup_fmap_Some. intros (asub & -> & Hi). simpl.
    split; [by destruct (au_Ports asub)|]. exists asub. split_and!; [done|done|].
    by destruct (au_Ports asub).
Qed.

(** A deep copy of an endpoints object never indexes out of range and is equal to it. *)
Theorem DeepCopyEndpoints_id (e : Endpoints) : DeepCopyEndpoints e = Ret e.
Proof.
  unfold DeepCopyEndpoints. rewrite (fill_subsets_fmap id) by apply copySubset_spec.
  go_simpl. rewrite go_copy_full by apply length_replicate.
  rewrite fmap_id_ext by done. by destruct e.
Qed.

(** Without [skipCleanup], the conversion of a pod never reports that it is terminating,
    because it reads the deletion timestamp of the object it has just cleared; with it, it reports
    exactly the terminating pods. *)
Theorem ToPod_terminating (skip : bool) (h : ApiHeap) l p :
  h !! l = Some (ApiPod p) →
  (ToPod skip (VApi l) h).1 =
    Ret (VPod (mkPod (om_ResourceVersion (ap_Meta p)) (ap_PodIP p) (om_Name (ap_Meta p))
                (om_Namespace (ap_Meta p))),
         if skip && terminating p then Some errPodTerminating else None).
Proof. intros Hl. by rewrite (ToPod_report skip h l p Hl). Qed.

Definition dying_pod : api_Pod :=
  mkApiPod (mkMeta "web-0" "default" "7" (Some 1%Z) ∅) "10.0.0.7".

Lemma ToPod_terminating_witness :
  (ToPod false (VApi 1) {[1%positive := ApiPod dying_pod]}).1
    = Ret (VPod (mkPod "7" "10.0.0.7" "web-0" "default"), None) ∧
  terminating dying_pod = true.
Proof.
  split; [|reflexivity].
  rewrite (ToPod_terminating false {[1%positive := ApiPod dying_pod]} 1 dying_pod);
    [reflexivity|apply lookup_singleton_eq].
Defined.
