(* ===== verification/Cache.v ===== *)
(** The interface of client-go's [cache.Indexer] that the informers write and the controller reads.

    client-go is not part of the repository: [CacheLib] is what the program calls, [CacheLaws] what
    client-go documents of it (a store of objects by key, and named indices over them), and
    [SimpleCache] a concrete store with these laws, which the witnesses use. *)
From stdpp Require Import prelude strings gmap list.
From S2P Require Import Prelude GoStd Object.

(** [cache.IndexFunc] and [cache.Indexers]. *)
Definition IndexFunc : Type := any → list string * option go_error.
Definition Indexers : Type := list (string * IndexFunc).

Definition find_index (name : string) (ixs : Indexers) : option IndexFunc :=
  snd <$> List.find (λ p, (p.1 =? name)%string) ixs.

(** The key client-go documents for an object: ["namespace/name"], or ["name"] when there is no
    namespace; the key a tombstone carries is its own. *)
Definition MetaNamespaceKey (namespace name : string) : string :=
  if (namespace =? "")%string then name else namespace +:+ "/" +:+ name.

Definition documented_key (obj : any) : option string :=
  match obj with
  | VPod p => Some (MetaNamespaceKey (GetNamespace p) (GetName p))
  | VService s => Some (MetaNamespaceKey (GetNamespace s) (GetName s))
  | VEndpoints e => Some (MetaNamespaceKey (GetNamespace e) (GetName e))
  | VNamespace n => Some (MetaNamespaceKey (om_Namespace (an_Meta n)) (om_Name (an_Meta n)))
  | VTombstone k => Some k
  | _ => None
  end.

Class CacheLib (Store : Type) := {
  NewIndexer : Indexers → Store;
  cache_Get : Store → any → option any * option go_error;
  cache_Add : Store → any → Store * option go_error;
  cache_Update : Store → any → Store * option go_error;
  cache_Delete : Store → any → Store * option go_error;
  cache_List : Store → list any;
  cache_ByIndex : Store → string → string → list any * option go_error;
}.

Class CacheLaws (Store : Type) `{CacheLib Store} := {
  (** The objects of a store by key, and its indices. *)
  contents : Store → gmap string any;
  indexers : Store → Indexers;
  contents_new ixs : contents (NewIndexer ixs) = ∅;
  indexers_new ixs : indexers (NewIndexer ixs) = ixs;
  get_law s obj k : documented_key obj = Some k → cache_Get s obj = (contents s !! k, None);
  add_law s obj k : documented_key obj = Some k →
    (cache_Add s obj).2 = None ∧ contents (cache_Add s obj).1 = <[k := obj]> (contents s);
  update_law s obj k : documented_key obj = Some k →
    (cache_Update s obj).2 = None ∧ contents (cache_Update s obj).1 = <[k := obj]> (contents s);
  delete_law s obj k : documented_key obj = Some k →
    (cache_Delete s obj).2 = None ∧ contents (cache_Delete s obj).1 = delete k (contents s);
  indexers_stable s obj :
    indexers (cache_Add s obj).1 = indexers s ∧ indexers (cache_Update s obj).1 = indexers s ∧
    indexers (cache_Delete s obj).1 = indexers s;
  list_law s : cache_List s ≡ₚ (map_to_list (contents s)).*2;
  by_index_law s name f v : find_index name (indexers s) = Some f →
    (cache_ByIndex s name v).2 = None ∧
    (cache_ByIndex s name v).1 ≡ₚ filter (λ obj, v ∈ (f obj).1) (cache_List s);
}.

(** * A concrete store *)

Module SimpleCache.
Record t := mk { objs : gmap string any; ixs : Indexers }.

Definition put (s : t) (obj : any) : t * option go_error :=
  match documented_key obj with
  | Some k => (mk (<[k := obj]> (objs s)) (ixs s), None)
  | None => (s, Some (errMsg "object has no meta"))
  end.

Definition remove (s : t) (obj : any) : t * option go_error :=
  match documented_key obj with
  | Some k => (mk (delete k (objs s)) (ixs s), None)
  | None => (s, Some (errMsg "object has no meta"))
  end.

Definition get (s : t) (obj : any) : option any * option go_error :=
  match documented_key obj with
  | Some k => (objs s !! k, None)
  | None => (None, Some (errMsg "object has no meta"))
  end.

Definition list_all (s : t) : list any := (map_to_list (objs s)).*2.

Definition by_index (s : t) (name v : string) : list any * option go_error :=
  match find_index name (ixs s) with
  | Some f => (filter (λ obj, v ∈ (f obj).1) (list_all s), None)
  | None => ([], Some (errMsg "Index does not exist"))
  end.

#[global] Instance lib : CacheLib t := {|
  NewIndexer ixs := mk ∅ ixs;
  cache_Get := get; cache_Add := put; cache_Update := put; cache_Delete := remove;
  cache_List := list_all; cache_ByIndex := by_index;
|}.

#[global] Program Instance laws : CacheLaws t := {| contents := objs; indexers := ixs |}.
Next Obligation. done. Qed.
Next Obligation. done. Qed.
Next Obligation. intros s obj k Hk. cbn. unfold get. by rewrite Hk. Qed.
Next Obligation. intros s obj k Hk. cbn. unfold put. by rewrite Hk. Qed.
Next Obligation. intros s obj k Hk. cbn. unfold put. by rewrite Hk. Qed.
Next Obligation. intros s obj k Hk. cbn. unfold remove. by rewrite Hk. Qed.
Next Obligation.
  intros s obj. cbn. unfold put, remove. by destruct (documented_key obj).
Qed.
Next Obligation. done. Qed.
Next Obligation. intros s name f v Hf. cbn. unfold by_index. by rewrite Hf. Qed.
End SimpleCache.
