(* ===== verification/Informer.v ===== *)
(** The informer's processor (src/object/informer.go): how the deltas of a watched kind of object
    become updates of the cache and calls of the event handler.

    The state is the heap of API objects, the cache and the handler's own state. A delta holds
    what client-go put in it: a pointer to an API object, or a tombstone with the key of an object
    whose deletion was missed. *)
From stdpp Require Import prelude strings gmap list.
From S2P Require Import Prelude GoStd Object Cache.

Inductive DeltaType : Type := Added | Updated | Deleted | Sync | OtherDelta (name : string).

Record Delta := mkDelta { d_Type : DeltaType; d_Object : any }.

(** [cache.ResourceEventHandler], over the handler's state. *)
Record ResourceEventHandler (H : Type) := mkHandler {
  OnAdd : any → GoM H unit;
  OnUpdate : any → any → GoM H unit;
  OnDelete : any → GoM H unit;
}.
Arguments mkHandler {H} _ _ _.
Arguments OnAdd {H} _ _.
Arguments OnUpdate {H} _ _ _.
Arguments OnDelete {H} _ _.

Section Processor.
Context {Store H : Type} `{CacheLib Store}.

Record pstate := mkPstate { ps_heap : ApiHeap; ps_store : Store; ps_h : H }.

(** Calls that work on one part of the state. *)
Definition on_heap {A} (m : GoM ApiHeap A) : GoM pstate A := λ s,
  let '(o, h') := m (ps_heap s) in (o, mkPstate h' (ps_store s) (ps_h s)).
Definition on_handler {A} (m : GoM H A) : GoM pstate A := λ s,
  let '(o, h') := m (ps_h s) in (o, mkPstate (ps_heap s) (ps_store s) h').
(** A cache operation that fails with [err] makes the processor return it. *)
Definition on_store (f : Store → Store * option go_error) : GoM pstate unit := λ s,
  let '(st', err) := f (ps_store s) in
  let s' := mkPstate (ps_heap s) st' (ps_h s) in
  match err with None => (Ret tt, s') | Some e => (Throw e, s') end.

(** [recordLatency] reads the API objects and the cache, and changes the handler's state. *)
Definition Recorder : Type := any → ApiHeap → Store → GoM H unit.
Definition run_recorder (r : Recorder) (obj : any) : GoM pstate unit := λ s,
  on_handler (r obj (ps_heap s) (ps_store s)) s.

Variable convert : ToFunc.
Variable recordLatency : option Recorder.
Variable h : ResourceEventHandler H.

Definition latency (obj : any) : GoM pstate unit :=
  match recordLatency with Some r => run_recorder r obj | None => mret tt end.

(** Put a converted object in the cache and tell the handler. *)
Definition cache_upsert (obj : any) : GoM pstate unit :=
  '(old, gerr) ← gets (λ s, cache_Get (ps_store s) obj);
  match old, gerr with
  | Some old, None =>
      on_store (λ st, cache_Update st obj) ≫= λ _, on_handler (OnUpdate h old obj)
  | _, _ =>
      on_store (λ st, cache_Add st obj) ≫= λ _, on_handler (OnAdd h obj)
  end.

(** Take an object out of the cache and tell the handler. *)
Definition cache_remove (obj : any) : GoM pstate unit :=
  on_store (λ st, cache_Delete st obj) ≫= λ _, on_handler (OnDelete h obj).

(** The body of the loop over the deltas. *)
Definition process_delta (d : Delta) : GoM pstate unit :=
  match d_Type d with
  | Sync | Added | Updated =>
      '(obj, err) ← on_heap (convert (d_Object d));
      match err with
      | Some e => throw e
      | None => cache_upsert obj ≫= λ _, latency (d_Object d)
      end
  | Deleted =>
      let ok := match d_Object d with VTombstone _ => true | _ => false end in
      (if ok then mret (d_Object d)
       else
         '(obj, err) ← on_heap (convert (d_Object d));
         match err with
         | Some e => if decide (e = errPodTerminating) then mret obj else throw e
         | None => mret obj
         end) ≫= λ obj,
      cache_remove obj ≫= λ _,
      if ok then mret tt else latency (d_Object d)
  | OtherDelta _ => mret tt
  end.

(** The [ProcessFunc] that [DefaultProcessor(convert, recordLatency)(clientState, h)] returns. *)
Definition DefaultProcessor (deltas : list Delta) : GoM pstate unit :=
  go_for process_delta deltas.
End Processor.
Arguments pstate : clear implicits.
Arguments mkPstate {Store H} _ _ _.

(** [NewIndexerInformer]: the store it makes, and what it gives client-go to process the deltas. *)
Definition ProcessorBuilder (Store H : Type) : Type :=
  ResourceEventHandler H → list Delta → GoM (pstate Store H) unit.
Definition NewIndexerInformer {Store H} `{CacheLib Store} (h : ResourceEventHandler H)
    (indexers : Indexers) (builder : ProcessorBuilder Store H) :
    Store * (list Delta → GoM (pstate Store H) unit) :=
  (NewIndexer indexers, builder h).

(** * The abstract cache *)

(** What one delta does to the objects by key: the last write wins, a deletion removes. *)
Inductive change : Type := Upsert (k : string) (v : any) | Remove (k : string).

Definition apply_change (m : gmap string any) (c : change) : gmap string any :=
  match c with Upsert k v => <[k := v]> m | Remove k => delete k m end.

(** A delta of the kind [convert] handles, with the change it stands for on the heap [h]. *)
Definition delta_change (convert : ToFunc) (h : ApiHeap) (d : Delta) : option change :=
  match d_Type d, d_Object d with
  | Deleted, VTombstone k => Some (Remove k)
  | Deleted, VApi _ =>
      match (convert (d_Object d) h).1 with
      | Ret (obj, err) =>
          if bool_decide (err = None ∨ err = Some errPodTerminating)
          then Remove <$> documented_key obj else None
      | _ => None
      end
  | (Sync | Added | Updated), VApi _ =>
      match (convert (d_Object d) h).1 with
      | Ret (obj, None) => (λ k, Upsert k obj) <$> documented_key obj
      | _ => None
      end
  | _, _ => None
  end.

(** The types of delta that put an object in the cache. *)
Definition is_upsert (t : DeltaType) : bool :=
  match t with Sync | Added | Updated => true | _ => false end.

(** The pointer a delta holds. *)
Definition delta_ptr (d : Delta) : option positive :=
  match d_Object d with VApi l => Some l | _ => None end.

(** A conversion that reads and writes only the object it converts. *)
Definition local_convert (convert : ToFunc) : Prop :=
  ∀ l h,
    (∀ h2, h2 !! l = h !! l → (convert (VApi l) h2).1 = (convert (VApi l) h).1) ∧
    (∀ l', l' ≠ l → (convert (VApi l) h).2 !! l' = h !! l').

(** A handler that always returns. *)
Definition total_call {S} (m : GoM S unit) : Prop := ∀ s, is_ret (m s).1 = true.
Definition total_handler {H} (h : ResourceEventHandler H) : Prop :=
  (∀ o, total_call (OnAdd h o)) ∧ (∀ o n, total_call (OnUpdate h o n)) ∧
  (∀ o, total_call (OnDelete h o)).
Definition total_recorder {Store H} (r : option (Recorder (Store:=Store) (H:=H))) : Prop :=
  ∀ rec o hp st, r = Some rec → total_call (rec o hp st).

(** The same, for the objects a cache holds: [good k v] says that [v] may be stored under [k]. A
    handler returns when its update concerns two objects that may be under one key; a recorder
    returns when the object it is told of was just converted; a conversion yields objects that may
    be stored. *)
Definition typed_handler {H} (good : string → any → Prop) (h : ResourceEventHandler H) : Prop :=
  (∀ o, total_call (OnAdd h o)) ∧
  (∀ k o n, good k o → good k n → total_call (OnUpdate h o n)) ∧
  (∀ o, total_call (OnDelete h o)).
Definition typed_recorder {Store H} (convert : ToFunc)
    (r : option (Recorder (Store:=Store) (H:=H))) : Prop :=
  ∀ rec l hp hp' st obj err, r = Some rec →
    (convert (VApi l) hp).1 = Ret (obj, err) → err = None ∨ err = Some errPodTerminating →
    hp' !! l = (convert (VApi l) hp).2 !! l → total_call (rec (VApi l) hp' st).
Definition typed_convert (convert : ToFunc) (good : string → any → Prop) : Prop :=
  ∀ l hp obj err k, (convert (VApi l) hp).1 = Ret (obj, err) → documented_key obj = Some k → good k obj.

(** How a handler reacts to what is stored, seen through a view [A] of its state; a recorder is silent
    when it leaves that view alone. *)
Record reaction (A : Type) := mkReaction {
  re_add : A → A;
  re_update : any → any → A → A;
  re_delete : A → A;
}.
Arguments mkReaction {A} _ _ _.
Arguments re_add {A} _ _.
Arguments re_update {A} _ _ _ _.
Arguments re_delete {A} _ _.

Definition reacts {H A} (good : string → any → Prop) (h : ResourceEventHandler H) (view : H → A)
    (re : reaction A) : Prop :=
  (∀ o s, view (OnAdd h o s).2 = re_add re (view s)) ∧
  (∀ k o n s, good k o → good k n → view (OnUpdate h o n s).2 = re_update re o n (view s)) ∧
  (∀ o s, view (OnDelete h o s).2 = re_delete re (view s)).
Definition silent {Store H A} (r : option (Recorder (Store:=Store) (H:=H))) (view : H → A) : Prop :=
  ∀ rec o hp st s, r = Some rec → view (rec o hp st s).2 = view s.

(** The reaction to a change of a cache with these contents, and to changes in order. *)
Definition change_reaction {A} (re : reaction A) (m : gmap string any) (c : change) (a : A) : A :=
  match c with
  | Upsert k v => match m !! k with Some old => re_update re old v a | None => re_add re a end
  | Remove _ => re_delete re a
  end.
Fixpoint changes_reaction {A} (re : reaction A) (m : gmap string any) (cs : list change) (a : A) : A :=
  match cs with
  | [] => a
  | c :: cs => changes_reaction re (apply_change m c) cs (change_reaction re m c a)
  end.

(** A conversion that never panics, and succeeds only on a pointer to an API object, with an object
    that has a key. *)
Definition total_convert (convert : ToFunc) : Prop :=
  ∀ obj h, ∃ o err, (convert obj h).1 = Ret (o, err) ∧
    (err = None ∨ err = Some errPodTerminating →
     ∃ l k, obj = VApi l ∧ documented_key o = Some k).

(** * Facts *)

Lemma total_call_run {S} (m : GoM S unit) s : total_call m → ∃ s', m s = (Ret tt, s').
Proof. intros H. specialize (H s). destruct (m s) as [[[]|e|] s']; by eauto. Qed.

(** The three conversions are local. *)
Ltac solve_local conv :=
  let l := fresh "l" in let h := fresh "h" in
  intros l h; split;
    [intros h2 Heq; unfold conv; rewrite Heq|intros l' Hne; unfold conv];
    destruct (h !! l) as [[]|]; try done;
    repeat case_match; try done; cbn [fst snd]; by rewrite lookup_insert_ne.

Lemma ToPod_local skip : local_convert (ToPod skip).
Proof. solve_local ToPod. Qed.
Lemma ToService_local skip : local_convert (ToService skip).
Proof. solve_local ToService. Qed.
Lemma ToEndpoints_local skip : local_convert (ToEndpoints skip).
Proof. solve_local ToEndpoints. Qed.
#[export] Hint Resolve ToPod_local ToService_local ToEndpoints_local : gocall.

(** They never panic, and what they yield has a key. *)
Ltac solve_total conv :=
  let h := fresh "h" in
  intros [| | | | |l| |] h; unfold conv;
    try (destruct (h !! l) as [[]|]; rewrite ?toService_ok, ?toEndpoints_ok);
    do 2 eexists; (split; [reflexivity|]); intros [|]; try done; by do 2 eexists.

Lemma ToPod_total skip : total_convert (ToPod skip).
Proof. solve_total ToPod. Qed.
Lemma ToService_total skip : total_convert (ToService skip).
Proof. solve_total ToService. Qed.
Lemma ToEndpoints_total skip : total_convert (ToEndpoints skip).
Proof. solve_total ToEndpoints. Qed.
#[export] Hint Resolve ToPod_total ToService_total ToEndpoints_total : gocall.

(** A view that sees nothing. *)
Definition nothing {H} (_ : H) : unit := tt.
Lemma reacts_nothing {H} good (h : ResourceEventHandler H) :
  reacts good h nothing (mkReaction id (λ _ _, id) id).
Proof. by split_and!. Qed.
Lemma silent_nothing {Store H} (r : option (Recorder (Store:=Store) (H:=H))) : silent r nothing.
Proof. done. Qed.

Section ProcessorFacts.
Context {Store H : Type} `{CacheLaws Store}.
Variable convert : ToFunc.
Variable good : string → any → Prop.
Variable rec : option (Recorder (Store:=Store) (H:=H)).
Variable h : ResourceEventHandler H.
Hypothesis Hlocal : local_convert convert.
Hypothesis Hgood : typed_convert convert good.
Hypothesis Hh : typed_handler good h.
Hypothesis Hrec : typed_recorder convert rec.
Context {A : Type}.
Variable view : H → A.
Variable re : reaction A.
Hypothesis Hre : reacts good h view re.
Hypothesis Hsilent : silent rec view.
Implicit Types (s : pstate Store H) (d : Delta).

(** Every object is one that may be under its key. *)
Definition typed s : Prop := map_Forall good (contents (ps_store s)).

(** The part of the state the refinement looks at. *)
Definition same_store s s' : Prop :=
  contents (ps_store s') = contents (ps_store s) ∧
  indexers (ps_store s') = indexers (ps_store s) ∧ ps_heap s' = ps_heap s.

Lemma on_handler_total m s :
  total_call m →
  ∃ s', on_handler m s = (Ret tt, s') ∧ same_store s s' ∧ ps_h s' = (m (ps_h s)).2.
Proof.
  intros [h' Hm]%(total_call_run m (ps_h s)). unfold on_handler. rewrite Hm.
  eexists. split; [done|]. by split_and!.
Qed.

Lemma latency_total l hp obj err s :
  (convert (VApi l) hp).1 = Ret (obj, err) → err = None ∨ err = Some errPodTerminating →
  ps_heap s !! l = (convert (VApi l) hp).2 !! l →
  ∃ s', latency rec (VApi l) s = (Ret tt, s') ∧ same_store s s' ∧ view (ps_h s') = view (ps_h s).
Proof.
  intros Hc He Hl. unfold latency. destruct rec as [r|] eqn:Hr.
  - destruct (on_handler_total (r (VApi l) (ps_heap s) (ps_store s)) s) as (s' & Hs & Hst & Hh');
      [by eapply Hrec|]. exists s'. split; [exact Hs|]. split; [done|]. rewrite Hh'. by apply Hsilent.
  - eexists. split; [done|]. by split_and!.
Qed.

(** The heap a conversion leaves differs only at the pointer converted. *)
Lemma on_heap_local l s a :
  (convert (VApi l) (ps_heap s)).1 = Ret a →
  ∃ s', on_heap (convert (VApi l)) s = (Ret a, s') ∧ ps_store s' = ps_store s ∧ ps_h s' = ps_h s ∧
    ps_heap s' = (convert (VApi l) (ps_heap s)).2 ∧
    ∀ l', Some l ≠ Some l' → ps_heap s' !! l' = ps_heap s !! l'.
Proof.
  intros Ha. unfold on_heap. destruct (convert (VApi l) (ps_heap s)) as [o hp] eqn:E.
  simpl in *. subst o. eexists. split_and!; [done..|]. intros l' Hne. simpl.
  destruct (Hlocal l (ps_heap s)) as [_ Hl]. rewrite E in Hl. apply Hl. congruence.
Qed.

Lemma upsert_step obj k s :
  documented_key obj = Some k → good k obj → typed s →
  ∃ s', cache_upsert h obj s = (Ret tt, s') ∧
    contents (ps_store s') = <[k := obj]> (contents (ps_store s)) ∧
    indexers (ps_store s') = indexers (ps_store s) ∧ ps_heap s' = ps_heap s ∧
    view (ps_h s') =
      change_reaction re (contents (ps_store s)) (Upsert k obj) (view (ps_h s)).
Proof.
  intros Hk Hg Ht. destruct Hh as (Hadd & Hupd & _). destruct Hre as (Hra & Hru & _). simpl. unfold cache_upsert. go_simpl.
  rewrite (get_law _ _ _ Hk).
  destruct (add_law (ps_store s) obj k Hk) as [Ha1 Ha2].
  destruct (update_law (ps_store s) obj k Hk) as [Hu1 Hu2].
  destruct (indexers_stable (ps_store s) obj) as (Hia & Hiu & _).
  destruct (contents (ps_store s) !! k) as [old|] eqn:Hold; unfold on_store; go_simpl.
  - destruct (cache_Update (ps_store s) obj) as [st e]. simpl in *. subst e.
    destruct (on_handler_total (OnUpdate h old obj) (mkPstate (ps_heap s) st (ps_h s)))
      as (s' & -> & (Hc & Hi & Hp) & Hv); [by apply (Hupd k); [apply (Ht k old Hold)|]|].
    exists s'. simpl in *. split_and!; [congruence..|]. rewrite Hv.
    by apply (Hru k); [apply (Ht k old Hold)|].
  - destruct (cache_Add (ps_store s) obj) as [st e]. simpl in *. subst e.
    destruct (on_handler_total (OnAdd h obj) (mkPstate (ps_heap s) st (ps_h s)))
      as (s' & -> & (Hc & Hi & Hp) & Hv); [by apply Hadd|].
    exists s'. simpl in *. split_and!; [congruence..|]. rewrite Hv. apply Hra.
Qed.

Lemma remove_step obj k s :
  documented_key obj = Some k →
  ∃ s', cache_remove h obj s = (Ret tt, s') ∧
    contents (ps_store s') = delete k (contents (ps_store s)) ∧
    indexers (ps_store s') = indexers (ps_store s) ∧ ps_heap s' = ps_heap s ∧
    view (ps_h s') = re_delete re (view (ps_h s)).
Proof.
  intros Hk. destruct Hh as (_ & _ & Hdel). destruct Hre as (_ & _ & Hrd).
  destruct (delete_law (ps_store s) obj k Hk) as [Hd1 Hd2].
  destruct (indexers_stable (ps_store s) obj) as (_ & _ & Hid).
  unfold cache_remove, on_store. go_simpl.
  destruct (cache_Delete (ps_store s) obj) as [st e]. simpl in *. subst e.
  destruct (on_handler_total (OnDelete h obj) (mkPstate (ps_heap s) st (ps_h s)))
    as (s' & -> & (Hc & Hi & Hp) & Hv); [by apply Hdel|].
  exists s'. simpl in *. split_and!; [congruence..|]. rewrite Hv. apply Hrd.
Qed.

(** What a step that makes the change [c] leaves: the contents with that change, the same indices,
    the reaction to it, and the heap of [s0] outside the object [d] points to. *)
Definition step_ok d s0 (c : change) (r : outcome unit * pstate Store H) : Prop :=
  ∃ s', r = (Ret tt, s') ∧ contents (ps_store s') = apply_change (contents (ps_store s0)) c ∧
    indexers (ps_store s') = indexers (ps_store s0) ∧
    view (ps_h s') = change_reaction re (contents (ps_store s0)) c (view (ps_h s0)) ∧
    ∀ l, delta_ptr d ≠ Some l → ps_heap s' !! l = ps_heap s0 !! l.

Lemma upsert_delta l obj k s t :
  (convert (VApi l) (ps_heap s)).1 = Ret (obj, None) → documented_key obj = Some k →
  is_upsert t = true → typed s →
  step_ok (mkDelta t (VApi l)) s (Upsert k obj)
    (process_delta convert rec h (mkDelta t (VApi l)) s).
Proof.
  intros Hconv Hk Ht Htyped.
  destruct (on_heap_local l s _ Hconv) as (s1 & Hs1 & Hst & Hhd & Hh1 & Hhp).
  assert (Ht1 : typed s1) by (unfold typed; by rewrite Hst).
  destruct (upsert_step obj k s1 Hk (Hgood _ _ _ _ _ Hconv Hk) Ht1) as (s2 & Hs2 & Hc & Hi & Hp2 & Hv2).
  destruct (latency_total l _ _ _ s2 Hconv) as (s3 & Hs3 & (Hc3 & Hi3 & Hp3) & Hv3);
    [by left|by rewrite Hp2, Hh1|].
  exists s3. split; [|split_and!; [simpl; congruence|congruence| |]].
  - destruct t; try discriminate Ht; unfold process_delta; simpl; go_simpl; by rewrite Hs1, Hs2.
  - by rewrite Hv3, Hv2, Hst, Hhd.
  - intros l' Hne. rewrite Hp3, Hp2. by apply Hhp.
Qed.

Lemma remove_delta l obj err k s :
  (convert (VApi l) (ps_heap s)).1 = Ret (obj, err) → documented_key obj = Some k →
  err = None ∨ err = Some errPodTerminating →
  step_ok (mkDelta Deleted (VApi l)) s (Remove k)
    (process_delta convert rec h (mkDelta Deleted (VApi l)) s).
Proof.
  intros Hconv Hk He.
  destruct (on_heap_local l s _ Hconv) as (s1 & Hs1 & Hst & Hhd & Hh1 & Hhp).
  destruct (remove_step obj k s1 Hk) as (s2 & Hs2 & Hc & Hi & Hp2 & Hv2).
  destruct (latency_total l _ _ _ s2 Hconv He) as (s3 & Hs3 & (Hc3 & Hi3 & Hp3) & Hv3);
    [by rewrite Hp2, Hh1|].
  exists s3. split; [|split_and!; [simpl; congruence|congruence| |]].
  - unfold process_delta; simpl; go_simpl. rewrite Hs1.
    destruct He as [-> | ->]; rewrite ?decide_True by done; by rewrite Hs2.
  - by rewrite Hv3, Hv2, Hhd.
  - intros l' Hne. rewrite Hp3, Hp2. by apply Hhp.
Qed.

Lemma tombstone_delta k s :
  step_ok (mkDelta Deleted (VTombstone k)) s (Remove k)
    (process_delta convert rec h (mkDelta Deleted (VTombstone k)) s).
Proof.
  destruct (remove_step (VTombstone k) k s eq_refl) as (s2 & Hs2 & Hc & Hi & Hp2 & Hv2).
  exists s2. split; [|split_and!; [done..|by intros; rewrite Hp2]].
  unfold process_delta; simpl; go_simpl. by rewrite Hs2.
Qed.

(** One delta that stands for a change makes that change, and touches only its object. *)
Lemma process_delta_change d c s :
  delta_change convert (ps_heap s) d = Some c → typed s →
  step_ok d s c (process_delta convert rec h d s).
Proof.
  destruct d as [t o]. unfold delta_change; simpl. intros Hc Ht.
  destruct t; destruct o as [| | | | |l|k|]; try discriminate Hc;
    try (destruct (convert (VApi l) (ps_heap s)).1 as [[obj err]| |] eqn:E;
           try discriminate Hc).
  all: try (destruct err; [discriminate Hc|];
            destruct (documented_key obj) eqn:Hk; simplify_eq/=;
            by apply upsert_delta).
  - case_bool_decide as He; [|discriminate Hc].
    destruct (documented_key obj) eqn:Hk; simplify_eq/=. by eapply remove_delta.
  - simplify_eq/=. apply tombstone_delta.
Qed.

(** The change a delta stands for keeps the cache typed. *)
Lemma change_typed hp d c m :
  delta_change convert hp d = Some c → map_Forall good m → map_Forall good (apply_change m c).
Proof.
  destruct d as [t o]. unfold delta_change; simpl. intros Hc Hm.
  destruct t; destruct o as [| | | | |l|k|]; try discriminate Hc;
    try (destruct (convert (VApi l) hp).1 as [[obj err]| |] eqn:E; try discriminate Hc).
  all: try (destruct err; [discriminate Hc|]).
  all: try (destruct (documented_key obj) as [k|] eqn:Hk; try (by case_bool_decide);
            try discriminate Hc).
  all: try case_bool_decide; simplify_eq/=; try (by apply map_Forall_delete).
  all: apply map_Forall_insert_2; [by eapply Hgood|done].
Qed.

Lemma delta_change_local d hp1 hp2 :
  (∀ l, delta_ptr d = Some l → hp1 !! l = hp2 !! l) →
  delta_change convert hp1 d = delta_change convert hp2 d.
Proof.
  destruct d as [t o]. unfold delta_ptr, delta_change; simpl. intros Heq.
  destruct o as [| | | | |l|k|]; try done.
  destruct (Hlocal l hp2) as [Hl _]. rewrite (Hl hp1) by (by apply Heq). done.
Qed.

(** A list of deltas of distinct objects makes its changes in order. *)
Lemma process_changes ds cs s :
  NoDup (omap delta_ptr ds) → typed s →
  mapM (delta_change convert (ps_heap s)) ds = Some cs →
  ∃ s', DefaultProcessor convert rec h ds s = (Ret tt, s') ∧ typed s' ∧
    contents (ps_store s') = foldl apply_change (contents (ps_store s)) cs ∧
    indexers (ps_store s') = indexers (ps_store s) ∧
    view (ps_h s') = changes_reaction re (contents (ps_store s)) cs (view (ps_h s)).
Proof.
  revert cs s. induction ds as [|d ds IH]; intros cs s Hnd Ht Hcs.
  - injection Hcs as <-. by exists s.
  - apply mapM_Some in Hcs. apply Forall2_cons_inv_l in Hcs as (c & cs' & Hc & Hcs & ->).
    destruct (process_delta_change d c s Hc Ht) as (s1 & Hs1 & Hm & Hi & Hv & Hp).
    destruct (IH cs' s1) as (s2 & Hs2 & Ht2 & Hm2 & Hi2 & Hv2).
    + simpl in Hnd. destruct (delta_ptr d); [by apply NoDup_cons in Hnd as []|done].
    + unfold typed. rewrite Hm. by eapply change_typed.
    + apply mapM_Some in Hcs. rewrite <- Hcs. apply mapM_ext_in.
      intros d' Hin. apply delta_change_local. intros l Hl. apply Hp. intros Hd.
      simpl in Hnd. rewrite Hd in Hnd. apply NoDup_cons in Hnd as [Hnin _].
      apply Hnin. apply list_elem_of_omap. by exists d'.
    + exists s2. split_and!; [|done|by rewrite Hm2, Hm|congruence|by rewrite Hv2, Hm, Hv].
      unfold DefaultProcessor in *. simpl. go_simpl. by rewrite Hs1.
Qed.

(** Whatever the deltas are, processing them never panics, and it keeps the cache typed and
    indexed. *)
Hypothesis Htotal : total_convert convert.

Definition typed_ix (ixs : Indexers) s : Prop := typed s ∧ indexers (ps_store s) = ixs.

Lemma step_ok_safe ixs d s c r :
  typed_ix ixs s → map_Forall good (apply_change (contents (ps_store s)) c) → step_ok d s c r → typed_ix ixs r.2 ∧ r.1 ≠ Panic.
Proof.
  intros [_ Hi] Hm (s' & -> & Hc & Hi' & _ & _). split; [|done]. split; [|simpl; congruence].
  unfold typed. simpl. by rewrite Hc.
Qed.

(** A conversion that fails ends the processing before the cache is touched. *)
Lemma convert_fails ixs (f : any * option go_error → GoM (pstate Store H) unit) obj s o e :
  typed_ix ixs s → (convert obj (ps_heap s)).1 = Ret (o, Some e) →
  (∀ s, f (o, Some e) s = (Throw e, s)) →
  typed_ix ixs ((on_heap (convert obj) ≫= f) s).2 ∧ ((on_heap (convert obj) ≫= f) s).1 ≠ Panic.
Proof.
  intros Ht Hc Hf. unfold mbind, gom_bind, on_heap.
  destruct (convert obj (ps_heap s)) as [r hp]. simpl in Hc. subst r. by rewrite Hf.
Qed.

Lemma process_delta_safe ixs d : safe (typed_ix ixs) (process_delta convert rec h d).
Proof.
  intros s Ht. pose proof Ht as [Hty _]. destruct d as [t obj].
  destruct (Htotal obj (ps_heap s)) as (o & err & Hconv & Hok).
  destruct t; try (by split).
  3:{ assert (Hno : (∃ k, obj = VTombstone k) ∨ ∀ k, obj ≠ VTombstone k)
        by (destruct obj; naive_solver).
      destruct Hno as [[k ->]|Hno].
      { eapply step_ok_safe; [exact Ht| |apply tombstone_delta]. by apply map_Forall_delete. }
      destruct (decide (err = None ∨ err = Some errPodTerminating)) as [He|He].
      - destruct (Hok He) as (l & k & -> & Hk).
        eapply step_ok_safe; [exact Ht| |by eapply remove_delta]. by apply map_Forall_delete.
      - destruct err as [e|]; [|by destruct He; left]. unfold process_delta; simpl.
        assert ((match obj with VTombstone _ => true | _ => false end) = false) as ->
          by (destruct obj; try done; by edestruct Hno).
        rewrite gom_bind_assoc. eapply convert_fails; [done..|]. intros s'. go_simpl.
        rewrite decide_False; [done|]. intros ->. apply He. by right. }
  all: destruct err as [e|]; [by eapply convert_fails|].
  all: destruct (Hok (or_introl eq_refl)) as (l & k & -> & Hk).
  all: eapply step_ok_safe; [exact Ht| |by eapply upsert_delta].
  all: apply map_Forall_insert_2; [by eapply Hgood|done].
Qed.

Lemma process_safe ixs ds : safe (typed_ix ixs) (DefaultProcessor convert rec h ds).
Proof. apply safe_for. intros d _. apply process_delta_safe. Qed.
End ProcessorFacts.

(** A conversion that fails ends the processing at once: the deltas after it are not looked at,
    the cache and the handler's state are as before. *)
Lemma process_convert_error {Store H} `{CacheLib Store} convert
    (rec : option (Recorder (Store:=Store) (H:=H))) (h : ResourceEventHandler H)
    t l ds s obj e hp :
  is_upsert t = true →
  convert (VApi l) (ps_heap s) = (Ret (obj, Some e), hp) →
  DefaultProcessor convert rec h (mkDelta t (VApi l) :: ds) s
    = (Throw e, mkPstate hp (ps_store s) (ps_h s)).
Proof.
  intros Ht Hc. unfold DefaultProcessor. go_simpl. unfold process_delta, on_heap.
  destruct t; try discriminate Ht; simpl; go_simpl; by rewrite Hc.
Qed.

(** A handler and a store for the witnesses. *)
Definition no_handler : ResourceEventHandler unit :=
  mkHandler (λ _, mret tt) (λ _ _, mret tt) (λ _, mret tt).

Lemma no_handler_total : total_handler no_handler.
Proof. by repeat split. Qed.

Lemma no_recorder_total {Store H} : total_recorder (Store:=Store) (H:=H) None.
Proof. by intros ????. Qed.
#[export] Hint Resolve no_handler_total no_recorder_total : gocall.

(** * Properties *)

(** C31: processing refines the abstract cache. For any of the conversions, handlers that return,
    and deltas of distinct objects that each stand for a change (an object of the watched kind, or a
    tombstone), the processor returns no error and the cache then holds exactly what the sequence of
    changes leaves: an added, updated or synced object under its key, last write first, and nothing
    under the key of a deleted one. The indices are kept. *)
Theorem DefaultProcessor_refines {Store H} `{CacheLaws Store} convert
    (rec : option (Recorder (Store:=Store) (H:=H))) (h : ResourceEventHandler H)
    (ds : list Delta) (cs : list change) (s : pstate Store H) :
  local_convert convert → total_handler h → total_recorder rec →
  NoDup (omap delta_ptr ds) →
  mapM (delta_change convert (ps_heap s)) ds = Some cs →
  ∃ s', DefaultProcessor convert rec h ds s = (Ret tt, s') ∧
    contents (ps_store s') = foldl apply_change (contents (ps_store s)) cs ∧
    indexers (ps_store s') = indexers (ps_store s).
Proof.
  intros Hl (Ha & Hu & Hd) Hr Hnd Hcs.
  assert (Hh : typed_handler (λ _ _, True) h) by (split; [exact Ha|]; split; [auto|exact Hd]).
  assert (Hrec : typed_recorder convert rec) by (intros r l hp hp' st obj err Hrec _ _ _; by apply Hr).
  assert (Hc : typed_convert convert (λ _ _, True)) by done.
  destruct (process_changes _ _ _ _ Hl Hc Hh Hrec _ _ (reacts_nothing _ _) (silent_nothing _) ds cs s Hnd)
    as (s' & ? & _ & ? & ? & _); [done|done|]. by exists s'.
Qed.

Definition example_api_service (name ip : string) : api_object :=
  ApiService (mkApiService (mkMeta name "test1" "1" None ∅) ip "ClusterIP" ""
    [mkServicePort "http" "TCP" 80] [] []).

Definition example_service (name ip : string) : Service :=
  mkService "1" name "test1" (name +:+ ".test1") ip "ClusterIP" ""
    [mkServicePort "http" "TCP" 80] [].

Definition example_state : pstate SimpleCache.t unit :=
  mkPstate {[1%positive := example_api_service "service1" "1.2.3.4";
             2%positive := example_api_service "service2" "5.6.7.8";
             3%positive := example_api_service "service1" "1.2.3.5"]} (NewIndexer []) tt.

Definition example_deltas : list Delta :=
  [mkDelta Added (VApi 1); mkDelta Added (VApi 2); mkDelta Updated (VApi 3);
   mkDelta Deleted (VTombstone "test1/service2")].

Lemma DefaultProcessor_refines_witness :
  ∃ s', DefaultProcessor (ToService false) None no_handler example_deltas example_state
          = (Ret tt, s') ∧
    contents (ps_store s') = {["test1/service1" := VService (example_service "service1" "1.2.3.5")]}
    ∧ indexers (ps_store s') = [].
Proof.
  destruct (DefaultProcessor_refines (ToService false) None no_handler example_deltas
    [Upsert "test1/service1" (VService (example_service "service1" "1.2.3.4"));
     Upsert "test1/service2" (VService (example_service "service2" "5.6.7.8"));
     Upsert "test1/service1" (VService (example_service "service1" "1.2.3.5"));
     Remove "test1/service2"] example_state) as (s' & Hr & Hc & Hi).
  - apply ToService_local.
  - apply no_handler_total.
  - apply no_recorder_total.
  - apply (bool_decide_unpack _). vm_compute. exact I.
  - vm_compute. reflexivity.
  - exists s'. split; [exact Hr|]. split; [|exact Hi]. rewrite Hc. vm_compute. reflexivity.
Defined.

(** An update of a terminating pod ends the processing of its deltas. With [skipCleanup], the
    conversion reports a terminating pod as an error, and the processor returns that error, so no
    later delta is processed, whatever it is: the cache stays as it was, and the pod a following
    deletion would remove stays in it. *)
Theorem terminating_update_drops_rest {Store H} `{CacheLib Store}
    (rec : option (Recorder (Store:=Store) (H:=H))) (h : ResourceEventHandler H)
    t l p ds (s : pstate Store H) :
  is_upsert t = true → ps_heap s !! l = Some (ApiPod p) → terminating p = true →
  ∃ s', DefaultProcessor (ToPod true) rec h (mkDelta t (VApi l) :: ds) s
          = (Throw errPodTerminating, s') ∧
    ps_store s' = ps_store s ∧ ps_h s' = ps_h s.
Proof.
  intros Ht Hl Hp. pose proof (ToPod_report true (ps_heap s) l p Hl) as Hc. rewrite Hp in Hc.
  rewrite (process_convert_error _ _ _ _ _ _ _ _ _ _ Ht Hc). by eexists.
Qed.

Definition example_pod_state : pstate SimpleCache.t unit :=
  mkPstate {[1%positive := ApiPod dying_pod]}
    (cache_Add (NewIndexer []) (VPod (mkPod "6" "10.0.0.7" "web-0" "default"))).1 tt.

Lemma terminating_update_drops_rest_witness :
  ∃ s', DefaultProcessor (ToPod true) None no_handler
          [mkDelta Updated (VApi 1); mkDelta Deleted (VTombstone "default/web-0")] example_pod_state
          = (Throw errPodTerminating, s') ∧
    cache_List (ps_store s') = [VPod (mkPod "6" "10.0.0.7" "web-0" "default")].
Proof.
  destruct (terminating_update_drops_rest (Store:=SimpleCache.t) None no_handler Updated 1
    dying_pod [mkDelta Deleted (VTombstone "default/web-0")] example_pod_state)
    as (s' & Hr & Hs & _); [reflexivity|vm_compute; reflexivity|reflexivity|].
  exists s'. split; [exact Hr|]. rewrite Hs. vm_compute. reflexivity.
Defined.
