(* ===== verification/Controller.v ===== *)
(** The controller (controller.go, watch.go, ready.go): the caches of services, pods, endpoints and
    namespaces, the queries over them that the plugin makes (the Go interface [dnsController]), the
    event handlers that keep the time of the last change, and stopping.

    The program's functions that take a [*dnsControl] take a [dnsControl] here. The cache of pods or
    of endpoints does not exist when it is not wanted; a query of it then panics, as calling a
    method of a nil interface does in Go. Queries read one state of the caches: a query that reads
    them several times sees no update in between. *)
From stdpp Require Import prelude strings gmap sets list.
From S2P Require Import Prelude GoStd Object Cache Informer.

(** * The interface the plugin uses *)

(** [dnsController]: the queries. [GetNamespaceByName] gives None for its error. *)
Record dnsController := mkController {
  ServiceList : outcome (list Service);
  EndpointsList : outcome (list Endpoints);
  SvcIndex : string → outcome (list Service);
  SvcIndexReverse : string → outcome (list Service);
  PodIndex : string → outcome (list Pod);
  EpIndex : string → outcome (list Endpoints);
  EpIndexReverse : string → outcome (list Endpoints);
  GetNamespaceByName : string → outcome (option api_Namespace);
  HasSynced : bool;
  Modified : Z;
}.

(** What the caches hold: None for a cache that does not exist. *)
Record snapshot := mkSnapshot {
  sn_services : list Service;
  sn_pods : option (list Pod);
  sn_endpoints : option (list Endpoints);
  sn_namespaces : list api_Namespace;
}.

Definition svc_ips (s : Service) : list string := svc_ClusterIP s :: svc_ExternalIPs s.
Definition ns_name (n : api_Namespace) : string := om_Name (an_Meta n).

(** A query that finds exactly [l], in some order; it panics when there is no such cache. *)
Definition finds {A} (o : outcome (list A)) (l : option (list A)) : Prop :=
  match l with
  | Some l => ∃ l', o = Ret l' ∧ l' ≡ₚ l
  | None => o = Panic
  end.

(** The contract of the interface: what each query answers about the caches. *)
Class Implements (c : dnsController) (sn : snapshot) : Prop := {
  impl_services : finds (ServiceList c) (Some (sn_services sn));
  impl_endpoints : finds (EndpointsList c) (sn_endpoints sn);
  impl_svc_index idx :
    finds (SvcIndex c idx) (Some (filter (λ s, svc_Index s = idx) (sn_services sn)));
  impl_svc_reverse ip :
    finds (SvcIndexReverse c ip) (Some (filter (λ s, ip ∈ svc_ips s) (sn_services sn)));
  impl_pod_index ip :
    finds (PodIndex c ip) (filter (λ p, pod_PodIP p = ip) <$> sn_pods sn);
  impl_ep_index idx :
    finds (EpIndex c idx) (filter (λ e, eps_Index e = idx) <$> sn_endpoints sn);
  impl_ep_reverse ip :
    finds (EpIndexReverse c ip) (filter (λ e, ip ∈ eps_IndexIP e) <$> sn_endpoints sn);
  impl_namespace name :
    ∃ r, GetNamespaceByName c name = Ret r ∧
      (∀ n, r = Some n → n ∈ sn_namespaces sn ∧ ns_name n = name) ∧
      (r = None → ∀ n, n ∈ sn_namespaces sn → ns_name n ≠ name);
}.

(** A controller that answers from a fixed state of the caches, for concrete examples. *)
Definition static (sn : snapshot) : dnsController :=
  let with_cache {A} (l : option (list A)) (f : list A → list A) : outcome (list A) :=
    match l with Some l => Ret (f l) | None => Panic end in
  mkController
    (Ret (sn_services sn))
    (with_cache (sn_endpoints sn) id)
    (λ idx, Ret (filter (λ s, svc_Index s = idx) (sn_services sn)))
    (λ ip, Ret (filter (λ s, ip ∈ svc_ips s) (sn_services sn)))
    (λ ip, with_cache (sn_pods sn) (filter (λ p, pod_PodIP p = ip)))
    (λ idx, with_cache (sn_endpoints sn) (filter (λ e, eps_Index e = idx)))
    (λ ip, with_cache (sn_endpoints sn) (filter (λ e, ip ∈ eps_IndexIP e)))
    (λ name, Ret (List.find (λ ns, (name =? ns_name ns)%string) (sn_namespaces sn)))
    true 0.

(** * Index functions *)

Definition podIPIndex : string := "PodIP".
Definition svcNameNamespaceIndex : string := "NameNamespace".
Definition svcIPIndex : string := "ServiceIP".
Definition epNameNamespaceIndex : string := "EndpointNameNamespace".
Definition epIPIndex : string := "EndpointsIP".

Definition podIPIndexFunc : IndexFunc := λ obj,
  match obj with VPod p => ([pod_PodIP p], None) | _ => ([], Some errObj) end.

Definition svcIPIndexFunc : IndexFunc := λ obj,
  match obj with
  | VService svc =>
      match svc_ExternalIPs svc with
      | [] => ([svc_ClusterIP svc], None)
      | ips => ([svc_ClusterIP svc] ++ ips, None)
      end
  | _ => ([], Some errObj)
  end.

Definition svcNameNamespaceIndexFunc : IndexFunc := λ obj,
  match obj with VService s => ([svc_Index s], None) | _ => ([], Some errObj) end.

Definition epNameNamespaceIndexFunc : IndexFunc := λ obj,
  match obj with VEndpoints s => ([eps_Index s], None) | _ => ([], Some errObj) end.

Definition epIPIndexFunc : IndexFunc := λ obj,
  match obj with VEndpoints ep => (eps_IndexIP ep, None) | _ => ([], Some errObj) end.

(** * The controller *)

(** [labels.Selector] by what it prints. *)
Record dnsControlOpts := mkOpts {
  initPodCache : bool;
  initEndpointsCache : bool;
  ignoreEmptyService : bool;
  selector : option string;
  namespaceSelector : option string;
  o_zones : list string;
  o_endpointNameMode : bool;
  skipAPIObjectsCleanup : bool;
}.

Record dnsControl (Store : Type) := mkDnsControl {
  modified : Z;
  svcLister : Store;
  podLister : option Store;
  epLister : option Store;
  nsLister : Store;
  svcSynced : bool;
  podSynced : option bool; (* None: no such controller *)
  epSynced : option bool;
  nsSynced : bool;
  shutdown : bool;
  stopCh_closed : bool;
}.
Arguments modified {Store} _.
Arguments svcLister {Store} _.
Arguments podLister {Store} _.
Arguments epLister {Store} _.
Arguments nsLister {Store} _.
Arguments svcSynced {Store} _.
Arguments podSynced {Store} _.
Arguments epSynced {Store} _.
Arguments nsSynced {Store} _.
Arguments shutdown {Store} _.
Arguments stopCh_closed {Store} _.
Arguments mkDnsControl {Store} _ _ _ _ _ _ _ _ _ _ _.

Definition svcIndexers : Indexers :=
  [(svcNameNamespaceIndex, svcNameNamespaceIndexFunc); (svcIPIndex, svcIPIndexFunc)].
Definition podIndexers : Indexers := [(podIPIndex, podIPIndexFunc)].
Definition epIndexers : Indexers :=
  [(epNameNamespaceIndex, epNameNamespaceIndexFunc); (epIPIndex, epIPIndexFunc)].

Section Controller.
Context {Store : Type} `{CacheLib Store}.
Implicit Types (dns : dnsControl Store).

Definition newdnsController (opts : dnsControlOpts) : dnsControl Store :=
  mkDnsControl 0 (NewIndexer svcIndexers)
    (if initPodCache opts then Some (NewIndexer podIndexers) else None)
    (if initEndpointsCache opts then Some (NewIndexer epIndexers) else None)
    (NewIndexer [])
    false
    (if initPodCache opts then Some false else None)
    (if initEndpointsCache opts then Some false else None)
    false false false.

(** The method call [lister.f] on an interface that can be nil. *)
Definition on_lister {A} (l : option Store) (f : Store → A) : outcome A :=
  match l with Some st => Ret (f st) | None => Panic end.

(** [for _, o := range os { s, ok := o.( *T); if !ok { continue }; l = append(l, s) }] *)
Definition keep {A} (typed : any → option A) (os : list any) : list A := omap typed os.

Definition as_service (o : any) : option Service :=
  match o with VService s => Some s | _ => None end.
Definition as_endpoints (o : any) : option Endpoints :=
  match o with VEndpoints e => Some e | _ => None end.
Definition as_pod (o : any) : option Pod := match o with VPod p => Some p | _ => None end.
Definition as_namespace (o : any) : option api_Namespace :=
  match o with VNamespace n => Some n | _ => None end.

(** [os, err := lister.ByIndex(name, v); if err != nil { return nil }], then the loop. *)
Definition by_index {A} (typed : any → option A) (l : option Store) (name v : string) :
    outcome (list A) :=
  '(os, err) ← on_lister l (λ st, cache_ByIndex st name v);
  mret match err with Some _ => [] | None => keep typed os end.

Definition ctl_ServiceList dns : outcome (list Service) :=
  os ← on_lister (Some (svcLister dns)) cache_List; mret (keep as_service os).
Definition ctl_EndpointsList dns : outcome (list Endpoints) :=
  os ← on_lister (epLister dns) cache_List; mret (keep as_endpoints os).
Definition ctl_PodIndex dns (ip : string) : outcome (list Pod) :=
  by_index as_pod (podLister dns) podIPIndex ip.
Definition ctl_SvcIndex dns (idx : string) : outcome (list Service) :=
  by_index as_service (Some (svcLister dns)) svcNameNamespaceIndex idx.
Definition ctl_SvcIndexReverse dns (ip : string) : outcome (list Service) :=
  by_index as_service (Some (svcLister dns)) svcIPIndex ip.
Definition ctl_EpIndex dns (idx : string) : outcome (list Endpoints) :=
  by_index as_endpoints (epLister dns) epNameNamespaceIndex idx.
Definition ctl_EpIndexReverse dns (ip : string) : outcome (list Endpoints) :=
  by_index as_endpoints (epLister dns) epIPIndex ip.

(** The loop returns the first namespace of that name. *)
Definition ctl_GetNamespaceByName dns (name : string) : outcome (option api_Namespace) :=
  os ← on_lister (Some (nsLister dns)) cache_List;
  mret (List.find (λ ns, (name =? ns_name ns)%string) (keep as_namespace os)).

(** [a && b && c && d]; a controller that does not exist counts as synced. *)
Definition ctl_HasSynced dns : bool :=
  let a := svcSynced dns in
  let b := default true (epSynced dns) in
  let c := default true (podSynced dns) in
  let d := nsSynced dns in
  a && b && c && d.

(** The time of the last change. *)
Definition ctl_Modified dns : Z := modified dns.

(** A node of the cluster, by a call of the API server; the plugin never makes it. *)
Definition ctl_GetNodeByName {Node} (Nodes_Get : string → Node + go_error) dns (name : string) :
    Node + go_error := Nodes_Get name.

(** The controllers [Run] starts. *)
Inductive kind : Type := KService | KEndpoints | KPod | KNamespace.
Definition ctl_Run dns : list kind :=
  [KService] ++ (if epSynced dns is Some _ then [KEndpoints] else [])
  ++ (if podSynced dns is Some _ then [KPod] else []) ++ [KNamespace].

(** The controller as the plugin sees it. *)
Definition controller_of dns : dnsController :=
  mkController (ctl_ServiceList dns) (ctl_EndpointsList dns) (ctl_SvcIndex dns)
    (ctl_SvcIndexReverse dns) (ctl_PodIndex dns) (ctl_EpIndex dns) (ctl_EpIndexReverse dns)
    (ctl_GetNamespaceByName dns) (ctl_HasSynced dns) (ctl_Modified dns).

(** [getServices]: the services an endpoints object belongs to. *)
Definition getServices dns (endpoints : api_Endpoints) : outcome (list Service) :=
  ctl_SvcIndex dns
    (EndpointsKey (om_Name (ae_Meta endpoints)) (om_Namespace (ae_Meta endpoints))).

(** [Stop]: closing a closed channel panics. *)
Definition Stop : GoM (dnsControl Store) (option go_error) := λ dns,
  if negb (shutdown dns) then
    if stopCh_closed dns then (Panic, dns)
    else (Ret None,
          mkDnsControl (modified dns) (svcLister dns) (podLister dns) (epLister dns)
            (nsLister dns) (svcSynced dns) (podSynced dns) (epSynced dns) (nsSynced dns) true true)
  else (Ret (Some (errMsg "shutdown already in progress")), dns).
End Controller.

(** * Changes *)

(** [for i, x := range a { y := b[i]; if !same(x, y) { return false } }; return true] *)
Fixpoint range_same {A} (same : A → A → outcome bool) (i : nat) (a b : list A) : outcome bool :=
  match a with
  | [] => Ret true
  | x :: a' =>
      y ← go_index b i;
      r ← same x y;
      if (r : bool) then range_same same (S i) a' b else Ret false
  end.

Definition same_address (aaddr baddr : EndpointAddress) : outcome bool :=
  if negb (ea_IP aaddr =? ea_IP baddr)%string then Ret false
  else if negb (ea_Hostname aaddr =? ea_Hostname baddr)%string then Ret false
  else Ret true.

Definition same_port (aport bport : EndpointPort) : outcome bool :=
  if negb (ep_Name aport =? ep_Name bport)%string then Ret false
  else if negb (ep_Port aport =? ep_Port bport)%Z then Ret false
  else if negb (ep_Protocol aport =? ep_Protocol bport)%string then Ret false
  else Ret true.

Definition subsetsEquivalent (sa sb : EndpointSubset) : outcome bool :=
  if negb (length (es_Addresses sa) =? length (es_Addresses sb))%nat then Ret false
  else if negb (length (es_Ports sa) =? length (es_Ports sb))%nat then Ret false
  else
    r ← range_same same_address 0 (es_Addresses sa) (es_Addresses sb);
    if (r : bool) then range_same same_port 0 (es_Ports sa) (es_Ports sb) else Ret false.

(** None is the nil pointer. *)
Definition endpointsEquivalent (a b : option Endpoints) : outcome bool :=
  match a, b with
  | Some a, Some b =>
      if negb (length (eps_Subsets a) =? length (eps_Subsets b))%nat then Ret false
      else range_same subsetsEquivalent 0 (eps_Subsets a) (eps_Subsets b)
  | _, _ => Ret false
  end.

(** The handler's state: [modified], and how many times the clock was read. *)
Record ctl_clock := mkClock { c_modified : Z; c_reads : nat }.

Section Handlers.
(** [time.Now().Unix()] at each reading, and the API objects at the time of the event. *)
Variable now : nat → Z.
Variable heap : ApiHeap.

Definition updateModifed : GoM ctl_clock unit := λ c,
  (Ret tt, mkClock (now (c_reads c)) (S (c_reads c))).

(** [obj.(meta.Object).GetResourceVersion()]: None when the assertion fails. *)
Definition resource_version (o : any) : option string :=
  match o with
  | VPod p => Some (GetResourceVersion p)
  | VService s => Some (GetResourceVersion s)
  | VEndpoints e => Some (GetResourceVersion e)
  | VNamespace n => Some (om_ResourceVersion (an_Meta n))
  | VApi l =>
      match heap !! l with
      | Some (ApiPod p) => Some (om_ResourceVersion (ap_Meta p))
      | Some (ApiService s) => Some (om_ResourceVersion (as_Meta s))
      | Some (ApiEndpoints e) => Some (om_ResourceVersion (ae_Meta e))
      | Some (ApiNamespace n) => Some (om_ResourceVersion (an_Meta n))
      | None => None
      end
  | VNil | VTombstone _ | VOther _ => None
  end.

Definition same_version (oldObj newObj : any) : outcome bool :=
  match resource_version oldObj, resource_version newObj with
  | Some a, Some b => Ret (a =? b)%string
  | _, _ => Panic
  end.

Definition is_nil (o : any) : bool := match o with VNil => true | _ => false end.

Definition detectChanges (oldObj newObj : any) : GoM ctl_clock unit :=
  identical ← lift_outcome
    (if negb (is_nil newObj) && negb (is_nil oldObj) then same_version oldObj newObj
     else Ret false);
  if (identical : bool) then mret tt
  else
    let obj := if is_nil newObj then oldObj else newObj in
    match obj with
    | VService _ | VPod _ => updateModifed
    | VEndpoints _ =>
        match oldObj, newObj with
        | VEndpoints o, VEndpoints n =>
            equiv ← lift_outcome (endpointsEquivalent (Some o) (Some n));
            if (equiv : bool) then mret tt else updateModifed
        | _, _ => panic (* a type assertion fails *)
        end
    | _ => mret tt (* a warning is logged *)
    end.

Definition Add (obj : any) : GoM ctl_clock unit := updateModifed.
Definition Delete (obj : any) : GoM ctl_clock unit := updateModifed.
Definition Update (oldObj newObj : any) : GoM ctl_clock unit := detectChanges oldObj newObj.

(** The handler [newdnsController] gives the informers. *)
Definition controller_handler : ResourceEventHandler ctl_clock := mkHandler Add Update Delete.
End Handlers.

(** * What is listed and watched *)

Record ListOptions := mkListOptions { lo_LabelSelector : string; lo_FieldSelector : string }.

Definition set_label (s : option string) (o : ListOptions) : ListOptions :=
  match s with Some l => mkListOptions l (lo_FieldSelector o) | None => o end.

Definition live_pods : string := "status.phase!=Succeeded,status.phase!=Failed,status.phase!=Unknown".

Definition set_live (o : ListOptions) : ListOptions :=
  let f := lo_FieldSelector o in
  let f := if (0 <? String.length f)%nat then f +:+ "," else f in
  mkListOptions (lo_LabelSelector o) (f +:+ live_pods).

(** The list and watch functions, given the client's call for the kind of object. *)
Section ListWatch.
Context {R : Type}.
Definition serviceListFunc (list : ListOptions → R) (s : option string) (o : ListOptions) : R :=
  list (set_label s o).
Definition podListFunc (list : ListOptions → R) (s : option string) (o : ListOptions) : R :=
  list (set_live (set_label s o)).
Definition endpointsListFunc (list : ListOptions → R) (s : option string) (o : ListOptions) : R :=
  list (set_label s o).
Definition namespaceListFunc (list : ListOptions → R) (s : option string) (o : ListOptions) : R :=
  list (set_label s o).
Definition serviceWatchFunc (watch : ListOptions → R) (s : option string) (o : ListOptions) : R :=
  watch (set_label s o).
Definition podWatchFunc (watch : ListOptions → R) (s : option string) (o : ListOptions) : R :=
  watch (set_live (set_label s o)).
Definition endpointsWatchFunc (watch : ListOptions → R) (s : option string) (o : ListOptions) : R :=
  watch (set_label s o).
Definition namespaceWatchFunc (watch : ListOptions → R) (s : option string) (o : ListOptions) : R :=
  watch (set_label s o).
End ListWatch.

(** [Ready]: the plugin is ready when the caches have synced. *)
Definition Ready (c : dnsController) : bool := HasSynced c.

(** * Specifications *)

(** What the caches hold, when every object is of the kind of its cache. *)
Definition typed_cache {Store A} `{CacheLib Store} (typed : any → option A) (st : Store) : list A :=
  keep typed (cache_List st).

Definition snapshot_of {Store} `{CacheLib Store} (dns : dnsControl Store) : snapshot :=
  mkSnapshot (typed_cache as_service (svcLister dns)) (typed_cache as_pod <$> podLister dns)
    (typed_cache as_endpoints <$> epLister dns) (typed_cache as_namespace (nsLister dns)).

(** The caches have the indices they were created with. *)
Definition indexed {Store} `{CacheLaws Store} (dns : dnsControl Store) : Prop :=
  indexers (svcLister dns) = svcIndexers ∧
  (∀ st, podLister dns = Some st → indexers st = podIndexers) ∧
  (∀ st, epLister dns = Some st → indexers st = epIndexers).

(** What [endpointsEquivalent] compares of an endpoints object. *)
Definition address_view (a : EndpointAddress) : string * string := (ea_IP a, ea_Hostname a).
Definition port_view (p : EndpointPort) : string * Z * string := (ep_Name p, ep_Port p, ep_Protocol p).
Definition subset_view (s : EndpointSubset) : list (string * string) * list (string * Z * string) :=
  (address_view <$> es_Addresses s, port_view <$> es_Ports s).
Definition endpoints_view (e : Endpoints) : list (list (string * string) * list (string * Z * string)) :=
  subset_view <$> eps_Subsets e.

(** Two objects of the same kind of cache, and whether the change of the one into the other counts. *)
Definition same_kind_update (oldObj newObj : any) (counts : bool) : Prop :=
  match oldObj, newObj with
  | VService o, VService n => counts = negb (svc_Version o =? svc_Version n)%string
  | VPod o, VPod n => counts = negb (pod_Version o =? pod_Version n)%string
  | VEndpoints o, VEndpoints n =>
      counts = negb (eps_Version o =? eps_Version n)%string
               && bool_decide (endpoints_view o ≠ endpoints_view n)
  | VNamespace _, VNamespace _ => counts = false
  | _, _ => False
  end.

(** [n] calls of Stop: what each returned. *)
Fixpoint stops {Store} (n : nat) : GoM (dnsControl Store) (list (option go_error)) :=
  match n with
  | O => mret []
  | S n => r ← Stop; rs ← stops n; mret (r :: rs)
  end.

(** * Facts *)

(** The loop over two slices of the same length decides [same] pointwise, without a panic. *)
Lemma range_same_spec {A B} `{EqDecision B} (view : A → B) (same : A → A → outcome bool)
    (pre a b : list A) :
  (∀ x y, same x y = Ret (bool_decide (view x = view y))) →
  length a = length b →
  range_same same (length pre) a (pre ++ b) = Ret (bool_decide (view <$> a = view <$> b)).
Proof.
  intros Hs. revert pre b. induction a as [|x a IH]; intros pre [|y b] Hlen; try done.
  simpl in Hlen. cbn [range_same].
  rewrite (go_index_lookup _ _ y) by (by apply list_lookup_middle). go_simpl. rewrite Hs.
  case_bool_decide as Hxy.
  - replace (pre ++ y :: b) with ((pre ++ [y]) ++ b) by (by rewrite <- app_assoc).
    replace (S (length pre)) with (length (pre ++ [y])) by (rewrite length_app; simpl; lia).
    rewrite IH by lia. f_equal. apply bool_decide_ext. rewrite !fmap_cons. split; congruence.
  - f_equal. symmetry. apply bool_decide_eq_false. rewrite !fmap_cons. congruence.
Qed.

Lemma range_same_0 {A B} `{EqDecision B} (view : A → B) same (a b : list A) :
  (∀ x y, same x y = Ret (bool_decide (view x = view y))) → length a = length b →
  range_same same 0 a b = Ret (bool_decide (view <$> a = view <$> b)).
Proof. apply (range_same_spec view same []). Qed.

Ltac decide_view :=
  repeat match goal with
    | |- context [(?x =? ?y)%string] => destruct (String.eqb_spec x y); simpl
    | |- context [(?x =? ?y)%Z] => destruct (Z.eqb_spec x y); simpl
    end;
  symmetry; f_equal; (apply bool_decide_eq_true || apply bool_decide_eq_false); congruence.

Lemma same_address_spec x y : same_address x y = Ret (bool_decide (address_view x = address_view y)).
Proof. unfold same_address, address_view. destruct x, y; simpl. decide_view. Qed.

Lemma same_port_spec x y : same_port x y = Ret (bool_decide (port_view x = port_view y)).
Proof. unfold same_port, port_view. destruct x, y; simpl. decide_view. Qed.

Lemma fmap_length_ne {A B} (f : A → B) (l1 l2 : list A) :
  length l1 ≠ length l2 → f <$> l1 ≠ f <$> l2.
Proof. intros Hl Heq. apply Hl. by rewrite <- (length_fmap f l1), Heq, length_fmap. Qed.

Lemma subsetsEquivalent_spec sa sb :
  subsetsEquivalent sa sb = Ret (bool_decide (subset_view sa = subset_view sb)).
Proof.
  unfold subsetsEquivalent, subset_view.
  destruct (Nat.eqb_spec (length (es_Addresses sa)) (length (es_Addresses sb))) as [Ha|Ha]; simpl.
  2:{ symmetry; f_equal; apply bool_decide_eq_false.
      intros [= Heq _]. by apply (fmap_length_ne address_view) in Ha. }
  destruct (Nat.eqb_spec (length (es_Ports sa)) (length (es_Ports sb))) as [Hp|Hp]; simpl.
  2:{ symmetry; f_equal; apply bool_decide_eq_false.
      intros [= _ Heq]. by apply (fmap_length_ne port_view) in Hp. }
  rewrite (range_same_0 address_view) by (done || apply same_address_spec). go_simpl.
  case_bool_decide as He; [|symmetry; f_equal; apply bool_decide_eq_false; congruence].
  rewrite (range_same_0 port_view) by (done || apply same_port_spec).
  f_equal. apply bool_decide_ext. split; congruence.
Qed.

Lemma endpointsEquivalent_spec a b :
  endpointsEquivalent (Some a) (Some b) = Ret (bool_decide (endpoints_view a = endpoints_view b)).
Proof.
  unfold endpointsEquivalent, endpoints_view.
  destruct (Nat.eqb_spec (length (eps_Subsets a)) (length (eps_Subsets b))) as [Hs|Hs]; simpl.
  - apply (range_same_0 subset_view); [apply subsetsEquivalent_spec|done].
  - symmetry; f_equal; apply bool_decide_eq_false. by apply fmap_length_ne.
Qed.

Lemma omap_permutation {A B} (f : A → option B) (l1 l2 : list A) :
  l1 ≡ₚ l2 → omap f l1 ≡ₚ omap f l2.
Proof. by intros ->. Qed.

Lemma keep_cons {A} (typed : any → option A) o os :
  keep typed (o :: os) =
    match typed o with Some a => a :: keep typed os | None => keep typed os end.
Proof. done. Qed.

(** Filtering objects by an index value and keeping the typed ones is keeping the typed ones whose
    index values contain it. *)
Lemma keep_filter {A} (typed : any → option A) (f : IndexFunc) (P : A → Prop) `{∀ a, Decision (P a)}
    (v : string) (os : list any) :
  (∀ o a, typed o = Some a → v ∈ (f o).1 ↔ P a) →
  keep typed (filter (λ o, v ∈ (f o).1) os) = filter P (keep typed os).
Proof.
  intros Hf. induction os as [|o os IH]; [done|]. rewrite filter_cons, keep_cons.
  destruct (typed o) as [a|] eqn:Ha.
  - rewrite filter_cons. destruct (decide (v ∈ (f o).1)) as [Hv|Hv].
    + rewrite decide_True by (by apply (Hf o)). by rewrite keep_cons, Ha, IH.
    + rewrite decide_False by (by rewrite <- (Hf o)). done.
  - destruct (decide (v ∈ (f o).1)); [|done]. by rewrite keep_cons, Ha.
Qed.

Lemma find_namespace_spec (l : list api_Namespace) name :
  let r := List.find (λ ns, (name =? ns_name ns)%string) l in
  (∀ n, r = Some n → n ∈ l ∧ ns_name n = name) ∧
  (r = None → ∀ n, n ∈ l → ns_name n ≠ name).
Proof.
  simpl. split.
  - intros n [Hin Hn]%List.find_some. split; [by apply list_elem_of_In|].
    by apply String.eqb_eq in Hn.
  - intros Hn n Hin%list_elem_of_In. pose proof (List.find_none _ _ Hn _ Hin) as Hne.
    simpl in Hne. apply String.eqb_neq in Hne. congruence.
Qed.

#[export] Instance static_implements (sn : snapshot) : Implements (static sn) sn.
Proof.
  constructor; simpl.
  all: try (intros; by eexists).
  - destruct (sn_endpoints sn); [by eexists|done].
  - intros ip. destruct (sn_pods sn); [by eexists|done].
  - intros ip. destruct (sn_endpoints sn); [by eexists|done].
  - intros ip. destruct (sn_endpoints sn); [by eexists|done].
  - intros name. eexists. split; [done|]. apply find_namespace_spec.
Qed.

(** Caches with the same objects: a store lists them in any order, and a contract that is kept over
    one order is kept over every other. *)
#[export] Instance snapshot_equiv : Equiv snapshot := λ a b,
  sn_services a ≡ₚ sn_services b ∧
  option_Forall2 Permutation (sn_pods a) (sn_pods b) ∧
  option_Forall2 Permutation (sn_endpoints a) (sn_endpoints b) ∧
  sn_namespaces a ≡ₚ sn_namespaces b.

#[export] Instance snapshot_equivalence : Equivalence (≡@{snapshot}).
Proof.
  split.
  - intros a. by split_and!.
  - intros a b (? & ? & ? & ?). by split_and!; symmetry.
  - intros a b c (? & ? & ? & ?) (? & ? & ? & ?). by split_and!; etrans.
Qed.

Lemma finds_permutation {A} (o : outcome (list A)) (l l' : option (list A)) :
  option_Forall2 Permutation l l' → finds o l → finds o l'.
Proof. intros [x y Hp|] Hf; [|done]. destruct Hf as (z & -> & Hz). exists z. split; [done|by etrans]. Qed.

Lemma finds_filter {A} (P : A → Prop) `{∀ a, Decision (P a)} o (l l' : option (list A)) :
  option_Forall2 Permutation l l' → finds o (filter P <$> l) → finds o (filter P <$> l').
Proof.
  intros Hp. apply finds_permutation. destruct Hp as [x y Hxy|]; simpl; constructor.
  by apply filter_permutation.
Qed.

Lemma implements_equiv c (a b : snapshot) : a ≡ b → Implements c a → Implements c b.
Proof.
  intros (Hs & Hp & He & Hn) [].
  constructor; try (by eapply finds_permutation); try (intros; by eapply finds_filter).
  - by eapply finds_permutation; [constructor|].
  - intros idx. eapply (finds_filter _ _ (Some _) (Some _)); [by constructor|apply impl_svc_index0].
  - intros ip. eapply (finds_filter _ _ (Some _) (Some _)); [by constructor|apply impl_svc_reverse0].
  - intros name. destruct (impl_namespace0 name) as (r & Hr & Hsome & Hnone). exists r.
    split_and!; [done| |]; setoid_rewrite <- Hn; done.
Qed.

#[export] Instance implements_proper c : Proper ((≡) ==> (↔)) (Implements c).
Proof. intros a b Hab. by split; apply implements_equiv. Qed.

Section ControllerFacts.
Context {Store : Type} `{CacheLaws Store}.

Lemma by_index_finds {A} (typed : any → option A) (f : IndexFunc) (P : A → Prop)
    `{∀ a, Decision (P a)} (l : option Store) name v :
  (∀ st, l = Some st → find_index name (indexers st) = Some f) →
  (∀ o a, typed o = Some a → v ∈ (f o).1 ↔ P a) →
  finds (by_index typed l name v) (filter P <$> (typed_cache typed <$> l)).
Proof.
  intros Hix Hf. destruct l as [st|]; [|done]. simpl.
  destruct (by_index_law st name f v (Hix st eq_refl)) as [He Hp].
  unfold by_index, on_lister. go_simpl.
  destruct (cache_ByIndex st name v) as [os err]. simpl in *. subst err.
  eexists. split; [done|]. unfold typed_cache. rewrite <- (keep_filter typed f P v) by done.
  by apply omap_permutation.
Qed.

(** The controller keeps the contract of the interface. *)
Lemma controller_implements (dns : dnsControl Store) :
  indexed dns → Implements (controller_of dns) (snapshot_of dns).
Proof.
  intros (Hs & Hp & He). constructor; simpl.
  - by eexists.
  - unfold ctl_EndpointsList. destruct (epLister dns); simpl; [by eexists|done].
  - intros idx. apply (by_index_finds as_service svcNameNamespaceIndexFunc _ (Some _)).
    + intros st [= <-]. by rewrite Hs.
    + intros [] ? [= ->]; simpl. rewrite list_elem_of_singleton. naive_solver.
  - intros ip. apply (by_index_finds as_service svcIPIndexFunc _ (Some _)).
    + intros st [= <-]. by rewrite Hs.
    + intros [] sv [= ->]; simpl. unfold svc_ips. by destruct (svc_ExternalIPs sv).
  - intros ip. apply (by_index_finds as_pod podIPIndexFunc).
    + intros st Hst. by rewrite (Hp st Hst).
    + intros [] ? [= ->]; simpl. rewrite list_elem_of_singleton. naive_solver.
  - intros idx. apply (by_index_finds as_endpoints epNameNamespaceIndexFunc).
    + intros st Hst. by rewrite (He st Hst).
    + intros [] ? [= ->]; simpl. rewrite list_elem_of_singleton. naive_solver.
  - intros ip. apply (by_index_finds as_endpoints epIPIndexFunc).
    + intros st Hst. by rewrite (He st Hst).
    + by intros [] ? [= ->].
  - intros name. eexists. split; [done|]. apply find_namespace_spec.
Qed.
End ControllerFacts.

Lemma detectChanges_effect (now : nat → Z) heap (c : ctl_clock) (oldObj newObj : any) (counts : bool) :
  same_kind_update oldObj newObj counts →
  detectChanges now heap oldObj newObj c =
    (Ret tt, if counts then mkClock (now (c_reads c)) (S (c_reads c)) else c).
Proof.
  unfold same_kind_update. destruct oldObj as [|o|o|o|o|l|k|x], newObj as [|n|n|n|n|l'|k'|x']; try done; intros ->;
    unfold detectChanges, same_version; simpl; go_simpl.
  - by destruct (pod_Version o =? pod_Version n)%string.
  - by destruct (svc_Version o =? svc_Version n)%string.
  - destruct (eps_Version o =? eps_Version n)%string; [done|]. simpl.
    change (if negb _ then _ else _) with (endpointsEquivalent (Some o) (Some n)).
    rewrite endpointsEquivalent_spec, bool_decide_not.
    by destruct (bool_decide (endpoints_view o = endpoints_view n)).
  - by destruct (om_ResourceVersion (an_Meta o) =? om_ResourceVersion (an_Meta n))%string.
Qed.

(** Two objects of one kind of cache. *)
Lemma detectChanges_total now heap oldObj newObj counts :
  same_kind_update oldObj newObj counts → total_call (detectChanges now heap oldObj newObj).
Proof. intros Hk c. by rewrite (detectChanges_effect _ _ _ _ _ counts). Qed.

Section LifecycleFacts.
Context {Store : Type} `{CacheLaws Store}.

(** A new controller has its indices, and its caches are empty. *)
Lemma new_indexed opts : indexed (newdnsController (Store:=Store) opts).
Proof.
  unfold indexed, newdnsController; simpl. split_and!; [apply indexers_new| |];
    intros st; case_match; intros [= <-]; apply indexers_new.
Qed.

Lemma stops_after (dns : dnsControl Store) n :
  shutdown dns = true →
  stops n dns = (Ret (replicate n (Some (errMsg "shutdown already in progress"))), dns).
Proof.
  intros Hd. induction n as [|n IH]; [done|]. simpl. go_simpl.
  unfold Stop at 1. rewrite Hd. simpl. by rewrite IH.
Qed.
End LifecycleFacts.

(** * Properties *)

(** The controller implements the interface the plugin is written against: every query answers
    with exactly the cached objects it is about, in some order — the service, endpoints and pod
    indices those whose index value is the one asked, the reverse indices those that have the IP
    among their cluster and external IPs or their addresses — [GetNamespaceByName] finds a cached
    namespace of that name exactly when there is one, and a query of a cache that was not created
    panics. *)
Theorem controller_refines {Store} `{CacheLaws Store} (dns : dnsControl Store) :
  indexed dns → Implements (controller_of dns) (snapshot_of dns).
Proof. apply controller_implements. Qed.

Definition example_control : dnsControl SimpleCache.t :=
  mkDnsControl 0
    (cache_Add (NewIndexer svcIndexers) (VService (example_service "service1" "1.2.3.4"))).1
    None None
    (cache_Add (NewIndexer [])
       (VNamespace (mkApiNamespace (mkMeta "test1" "" "1" None ∅)))).1
    true None None true false false.

Lemma controller_refines_witness :
  indexed example_control ∧
  finds (SvcIndex (controller_of example_control) "service1.test1")
    (Some [example_service "service1" "1.2.3.4"]).
Proof.
  assert (Hix : indexed example_control) by (split_and!; [reflexivity|discriminate|discriminate]).
  split; [exact Hix|]. exact (impl_svc_index (Implements:=controller_refines _ Hix) "service1.test1").
Defined.

(** Comparing two endpoints objects never indexes out of range, and decides whether they have
    the same subsets, each with the same addresses (IP and host name) and the same ports (name,
    number and protocol) in the same order. The node name and the target of an address are not
    compared. *)
Theorem endpointsEquivalent_decides (a b : option Endpoints) :
  endpointsEquivalent a b =
    Ret (match a, b with
         | Some a, Some b => bool_decide (endpoints_view a = endpoints_view b)
         | _, _ => false
         end).
Proof. destruct a, b; try done. apply endpointsEquivalent_spec. Qed.

(** What an update event does. For two objects of the caches of the same kind, the update
    handler never panics; it sets the time of the last change to now when the resource version
    changed and the object is a service, a pod, or endpoints that are not equivalent, and otherwise
    leaves it (the updates of namespaces are not tracked). *)
Theorem detectChanges_spec (now : nat → Z) heap (c : ctl_clock) (oldObj newObj : any) (counts : bool) :
  same_kind_update oldObj newObj counts →
  detectChanges now heap oldObj newObj c =
    (Ret tt, if counts then mkClock (now (c_reads c)) (S (c_reads c)) else c).
Proof. apply detectChanges_effect. Qed.

Lemma detectChanges_spec_witness :
  detectChanges (λ _, 42%Z) ∅ (VPod (mkPod "1" "10.0.0.7" "web-0" "default"))
    (VPod (mkPod "2" "10.0.0.8" "web-0" "default")) (mkClock 0 0) = (Ret tt, mkClock 42 1).
Proof.
  exact (detectChanges_spec (λ _, 42%Z) ∅ (mkClock 0 0) (VPod (mkPod "1" "10.0.0.7" "web-0" "default"))
    (VPod (mkPod "2" "10.0.0.8" "web-0" "default")) true eq_refl).
Defined.

(** Stopping. However often a new controller is stopped, no call panics (the channel is closed
    once): the first call succeeds, every later one returns the error, and the channel ends closed. *)
Theorem Stop_once {Store} `{CacheLib Store} opts (n : nat) :
  ∃ dns', stops (S n) (newdnsController (Store:=Store) opts) =
    (Ret (None :: replicate n (Some (errMsg "shutdown already in progress"))), dns') ∧
    stopCh_closed dns' = true ∧ shutdown dns' = true.
Proof.
  cbn [stops]. unfold Stop at 1. unfold newdnsController. go_simpl. simpl.
  rewrite stops_after by done. by eexists.
Qed.
