(* ===== verification/Deps.v ===== *)
(** What the plugin calls of CoreDNS and of the DNS library.

    Neither is part of the repository: [DnsLib] is the functions called, [DnsLaws] what their
    documentation says of them, [SimpleDns] concrete functions with these laws, which the witnesses
    use. The records are those of the libraries, with the fields the program uses. *)
From stdpp Require Import prelude strings list.
From Stdlib Require Import Ascii.
From S2P Require Import Prelude GoStd.

(** * Package dns *)

Definition TypeA : Z := 1.
Definition TypeNS : Z := 2.
Definition TypeCNAME : Z := 5.
Definition TypeSOA : Z := 6.
Definition TypePTR : Z := 12.
Definition TypeMX : Z := 15.
Definition TypeTXT : Z := 16.
Definition TypeAAAA : Z := 28.
Definition TypeSRV : Z := 33.
Definition TypeIXFR : Z := 251.
Definition TypeAXFR : Z := 252.
Definition ClassINET : Z := 1.

Definition RcodeSuccess : Z := 0.
Definition RcodeServerFailure : Z := 2.
Definition RcodeNameError : Z := 3.
Definition RcodeRefused : Z := 5.

Record RR_Header := mkHdr { h_Name : string; h_Rrtype : Z; h_Class : Z; h_Ttl : Z }.

(** A resource record: the two kinds the program makes, and any other with its data. *)
Inductive RR : Type :=
| RR_A (hdr : RR_Header) (a : net.IP)
| RR_AAAA (hdr : RR_Header) (aaaa : net.IP)
| RR_other (hdr : RR_Header) (data : string).

Definition Header (rr : RR) : RR_Header :=
  match rr with RR_A h _ | RR_AAAA h _ | RR_other h _ => h end.

(** * Package request: what the accessors of a request return *)

Record Request := mkRequest {
  rq_Name : string;  (* the lower-case query name *)
  rq_QName : string; (* the query name *)
  rq_QType : Z;
  rq_IP : string;    (* of the client *)
  rq_Zone : string;
}.

(** * Package msg *)

Record msg_Service := mkMsg {
  ms_Host : string; ms_Port : Z; ms_Priority : Z; ms_Weight : Z; ms_Text : string;
  ms_TTL : Z; ms_Key : string;
}.

#[export] Instance msg_Service_eq_dec : EqDecision msg_Service.
Proof. solve_decision. Defined.

(** * The functions *)

Class DnsLib := {
  (** dnsutil.TrimZone, whose error every caller drops. *)
  TrimZone : string → string → string;
  SplitDomainName : string → list string;
  IsReverse : string → Z;
  ExtractAddressFromReverse : string → string;
  msg_Path : string → string → string;
  (** msg.Service.HostType, by the host. *)
  HostType : string → Z;
  (** plugin.Zones(zones).Matches(name) *)
  Zones_Matches : list string → string → string;
}.

(** A label of a domain name with nothing to escape. *)
Definition plain_char (c : ascii) : bool := negb (Ascii.eqb c "."%char || Ascii.eqb c "\"%char).
Definition plain_label (s : string) : Prop :=
  s ≠ "" ∧ forallb plain_char (String.list_ascii_of_string s) = true.

#[export] Instance plain_label_dec s : Decision (plain_label s).
Proof. unfold plain_label. apply _. Defined.

(** [l] in front of [zone]. *)
Definition qualify (l : list string) (zone : string) : string :=
  strings.Join l "." +:+ "." +:+ zone.

(** A zone as CoreDNS normalizes it, the root excepted: labels and a final dot. *)
Definition normal_zone (zone : string) : Prop :=
  ∃ l, l ≠ [] ∧ Forall plain_label l ∧ zone = strings.Join l "." +:+ ".".

Class DnsLaws `{DnsLib} := {
  (** TrimZone removes the zone and the dot before it. *)
  TrimZone_qualify l zone :
    l ≠ [] → Forall plain_label l → normal_zone zone →
    TrimZone (qualify l zone) zone = strings.Join l ".";
  TrimZone_apex zone : normal_zone zone → TrimZone zone zone = "";
  (** SplitDomainName splits a name into its labels. *)
  SplitDomainName_join l :
    l ≠ [] → Forall plain_label l → SplitDomainName (strings.Join l ".") = l;
  (** The type of a host: A for an IPv4 address, AAAA for an IPv6 one, otherwise CNAME. *)
  HostType_spec h :
    HostType h = if decide (net.ParseIP h = []) then TypeCNAME
                 else if decide (net.To4 (net.ParseIP h) = []) then TypeAAAA else TypeA;
}.

(** * Concrete functions *)

Module SimpleDns.
(** The pieces of [s] between dots. *)
Fixpoint split_dot (s : string) : list string :=
  match s with
  | EmptyString => [""]
  | String c s' =>
      if Ascii.eqb c "."%char then "" :: split_dot s'
      else match split_dot s' with
           | h :: t => String c h :: t
           | [] => [String c ""]
           end
  end.

Definition drop_empty_last (l : list string) : list string :=
  match last l with Some "" => removelast l | _ => l end.

Definition split (s : string) : list string := drop_empty_last (split_dot s).

Definition trim_zone (q z : string) : string :=
  if (String.length q <=? String.length z)%nat then ""
  else String.substring 0 (String.length q - String.length z - 1) q.

Definition ends_with (s suffix : string) : bool :=
  (String.length suffix <=? String.length s)%nat
  && (String.substring (String.length s - String.length suffix) (String.length suffix) s =? suffix)%string.

Definition is_reverse (s : string) : Z :=
  if ends_with s ".in-addr.arpa." then 1 else if ends_with s ".ip6.arpa." then 2 else 0.

Definition extract_address (s : string) : string :=
  if ends_with s ".in-addr.arpa." then strings.Join (rev (split (trim_zone s "in-addr.arpa."))) "."
  else "".

Definition path (s prefix : string) : string :=
  strings.Join ("" :: prefix :: rev (split s)) "/".

Definition host_type (h : string) : Z :=
  if decide (net.ParseIP h = []) then TypeCNAME
  else if decide (net.To4 (net.ParseIP h) = []) then TypeAAAA else TypeA.

Definition matches (zones : list string) (name : string) : string :=
  foldl (λ best z,
    if ends_with ("." +:+ strings.ToLower name) ("." +:+ z)
       && (String.length best <? String.length z)%nat
    then z else best) "" zones.

#[global] Instance lib : DnsLib := {|
  TrimZone := trim_zone; SplitDomainName := split; IsReverse := is_reverse;
  ExtractAddressFromReverse := extract_address; msg_Path := path; HostType := host_type;
  Zones_Matches := matches;
|}.

Lemma split_dot_plain s r :
  forallb plain_char (String.list_ascii_of_string s) = true →
  split_dot (s +:+ "." +:+ r) = s :: split_dot r ∧ split_dot s = [s].
Proof.
  induction s as [|c s IH]; intros Hp; [done|].
  simpl in Hp. apply andb_true_iff in Hp as [Hc Hs].
  assert (Hdot : Ascii.eqb c "."%char = false).
  { unfold plain_char in Hc. by destruct (Ascii.eqb c "."%char). }
  destruct (IH Hs) as [IH1 IH2]. simpl. rewrite Hdot. split.
  - change (split_dot (s +:+ String "." r)) with (split_dot (s +:+ "." +:+ r)).
    by rewrite IH1.
  - by rewrite IH2.
Qed.

Lemma split_dot_join l :
  l ≠ [] → Forall plain_label l → split_dot (strings.Join l ".") = l.
Proof.
  intros Hne Hl. unfold strings.Join. induction Hl as [|x l [_ Hx] Hl IH]; [done|].
  destruct l as [|y l].
  - simpl. by apply split_dot_plain.
  - change (String.concat "." (x :: y :: l))
      with (x +:+ "." +:+ String.concat "." (y :: l)).
    rewrite (proj1 (split_dot_plain x _ Hx)). by rewrite IH.
Qed.

Lemma split_join l :
  l ≠ [] → Forall plain_label l → split (strings.Join l ".") = l.
Proof.
  intros Hne Hl. unfold split. rewrite split_dot_join by done. unfold drop_empty_last.
  destruct (last l) as [x|] eqn:Hx; [|done].
  apply last_Some_elem_of in Hx. rewrite Forall_forall in Hl.
  destruct (Hl x Hx) as [Hx0 _]. by destruct x.
Qed.

Lemma substring_app a b : String.substring 0 (String.length a) (a +:+ b) = a.
Proof. induction a as [|c a IH]; simpl; [by destruct b|]. f_equal. exact IH. Qed.

#[global] Instance laws : DnsLaws.
Proof.
  constructor.
  - intros l zone _ _ _. cbn. unfold trim_zone, qualify.
    rewrite !string_length_app. simpl.
    destruct (Nat.leb_spec (String.length (strings.Join l ".") + S (String.length zone))
                (String.length zone)); [lia|].
    replace (_ - _ - 1)%nat with (String.length (strings.Join l ".")) by lia.
    apply substring_app.
  - intros zone _. cbn. unfold trim_zone. by rewrite Nat.leb_refl.
  - apply split_join.
  - done.
Qed.
End SimpleDns.
