(* ===== verification/Kubernetes.v ===== *)
(** The plugin's configuration (the struct [Kubernetes] of kubernetes.go without the chaos maps,
    which Chaos.v holds) and which namespaces it exposes (namespace.go). *)
From stdpp Require Import prelude strings gmap sets list.
From S2P Require Import Prelude GoStd Object Cache Controller Deps.

(** * Constants *)

Definition podModeDisabled : string := "disabled".
Definition podModeVerified : string := "verified".
Definition podModeInsecure : string := "insecure".
Definition DNSSchemaVersion : string := "1.1.0".
Definition SvcLabel : string := "svc".
Definition PodLabel : string := "pod".
Definition defaultTTL : Z := 5.
Definition coredns : string := "c".

(** [api.ClusterIPNone] and [api.ServiceTypeExternalName] of the Kubernetes API. *)
Definition ClusterIPNone : string := "None".
Definition ServiceTypeExternalName : string := "ExternalName".

(** [IsNameError]: the errors that mean the name does not exist. *)
Definition IsNameError (err : option go_error) : bool :=
  bool_decide (err = Some errNoItems) || bool_decide (err = Some errNsNotExposed)
  || bool_decide (err = Some errInvalidRequest).

(** * Configuration *)

Record Kubernetes := mkKubernetes {
  Zones : list string;
  APIConn : dnsController;
  Namespaces : gset string;
  podMode : string;
  endpointNameMode : bool;
  ttl : Z;
  opts : dnsControlOpts;
  primaryZoneIndex : nat;
  localIPs : list net.IP;
  autoPathSearch : list string;
  TransferTo : list string;
  grpcPort : Z;
}.

(** * Namespaces *)

Definition filteredNamespaceExists (k : Kubernetes) (namespace : string) : outcome bool :=
  ns ← GetNamespaceByName (APIConn k) namespace;
  mret match ns with
       | None => false
       | Some ns => (ns_name ns =? namespace)%string
       end.

Definition configuredNamespace (k : Kubernetes) (namespace : string) : bool :=
  let ok := bool_decide (namespace ∈ Namespaces k) in
  if (0 <? size (Namespaces k))%nat && negb ok then false else true.

Definition namespaceExposed (k : Kubernetes) (namespace : string) : outcome bool :=
  and_call (configuredNamespace k namespace) (filteredNamespaceExists k namespace).

(** The namespaces the configuration and the caches expose. *)
Definition exposed (k : Kubernetes) (sn : snapshot) (namespace : string) : Prop :=
  (Namespaces k = ∅ ∨ namespace ∈ Namespaces k) ∧
  namespace ∈ ns_name <$> sn_namespaces sn.

#[export] Instance exposed_dec k sn ns : Decision (exposed k sn ns).
Proof. unfold exposed. apply _. Defined.

(** * Facts *)

Lemma configuredNamespace_spec k ns :
  configuredNamespace k ns = bool_decide (Namespaces k = ∅ ∨ ns ∈ Namespaces k).
Proof.
  unfold configuredNamespace. symmetry.
  destruct (decide (Namespaces k = ∅)) as [->|Hne].
  - rewrite size_empty. simpl. apply bool_decide_eq_true. by left.
  - assert ((0 <? size (Namespaces k))%nat = true) as Hs.
    { apply Nat.ltb_lt. assert (size (Namespaces k) ≠ 0) by (by rewrite size_non_empty_iff, leibniz_equiv_iff). lia. }
    rewrite Hs. simpl. destruct (decide (ns ∈ Namespaces k)) as [Hin|Hin].
    + rewrite (bool_decide_eq_true_2 (ns ∈ _)) by done. simpl. apply bool_decide_eq_true. by right.
    + rewrite (bool_decide_eq_false_2 (ns ∈ _)) by done. simpl. apply bool_decide_eq_false. tauto.
Qed.

Lemma namespaceExposed_spec k sn ns :
  Implements (APIConn k) sn → namespaceExposed k ns = Ret (bool_decide (exposed k sn ns)).
Proof.
  intros Himpl. unfold namespaceExposed, filteredNamespaceExists.
  rewrite configuredNamespace_spec. unfold exposed. case_bool_decide as Hc; go_simpl.
  2:{ f_equal. symmetry. apply bool_decide_eq_false. tauto. }
  destruct (impl_namespace (Implements:=Himpl) ns) as (r & -> & Hsome & Hnone). f_equal. symmetry.
  destruct r as [n|].
  - destruct (Hsome n eq_refl) as [Hin Hn]. rewrite Hn, String.eqb_refl.
    apply bool_decide_eq_true. split; [done|]. apply list_elem_of_fmap. eauto.
  - apply bool_decide_eq_false. intros [_ (n & Hn & Hin)%list_elem_of_fmap].
    by apply (Hnone eq_refl n).
Qed.

#[export] Hint Resolve namespaceExposed_spec : gocall.
