(* ===== verification/Parse.v ===== *)
(** Reading a query name (parse.go): which service, pod or endpoint of which namespace is asked.

    [parseRequest] walks the labels of the name from the right, as the code does, indexing the slice
    of labels; an index out of range or the first byte of an empty label is a panic. *)
From stdpp Require Import prelude strings list.
From Stdlib Require Import Ascii.
From S2P Require Import Prelude GoStd Object Controller Deps Kubernetes.

Record recordRequest := mkRecordRequest {
  r_port : string;
  r_protocol : string;
  r_endpoint : string;
  r_service : string;
  r_namespace : string;
  r_podOrSvc : string;
}.

#[export] Instance recordRequest_eq_dec : EqDecision recordRequest.
Proof. solve_decision. Defined.

Definition zero_request : recordRequest := mkRecordRequest "" "" "" "" "" "".

(** [s[0] != '_'] panics on the empty string. *)
Definition stripUnderscore (s : string) : outcome string :=
  match s with
  | EmptyString => Panic
  | String c s' => Ret (if Ascii.eqb c "_"%char then s' else s)
  end.

Section Parse.
Context `{DnsLib}.

Definition parseRequest (name zone : string) : outcome (recordRequest * option go_error) :=
  let base := TrimZone name zone in
  if (base =? "")%string || (base =? SvcLabel)%string || (base =? PodLabel)%string then
    Ret (zero_request, None)
  else
    let segs := SplitDomainName base in
    let seg (i : Z) := go_index segs (Z.to_nat i) in
    let last := (Z.of_nat (length segs) - 1)%Z in
    if (last <? 0)%Z then Ret (mkRecordRequest "*" "*" "" "" "" "", None)
    else
      podOrSvc ← seg last;
      let r := mkRecordRequest "*" "*" "" "" "" podOrSvc in
      if negb (podOrSvc =? PodLabel)%string && negb (podOrSvc =? SvcLabel)%string then
        Ret (r, Some errInvalidRequest)
      else
        let last := (last - 1)%Z in
        if (last <? 0)%Z then Ret (r, None)
        else
          namespace ← seg last;
          let r := mkRecordRequest "*" "*" "" "" namespace podOrSvc in
          let last := (last - 1)%Z in
          if (last <? 0)%Z then Ret (r, None)
          else
            service ← seg last;
            let r := mkRecordRequest "*" "*" "" service namespace podOrSvc in
            let last := (last - 1)%Z in
            if (last <? 0)%Z then Ret (r, None)
            else if (last =? 0)%Z then
              endpoint ← seg last;
              Ret (mkRecordRequest "*" "*" endpoint service namespace podOrSvc, None)
            else if (last =? 1)%Z then
              l1 ← seg last;
              protocol ← stripUnderscore l1;
              l0 ← seg (last - 1)%Z;
              port ← stripUnderscore l0;
              Ret (mkRecordRequest port protocol "" service namespace podOrSvc, None)
            else Ret (r, Some errInvalidRequest).
End Parse.

(** [String]: the fields joined with dots. *)
Definition recordRequest_String (r : recordRequest) : string :=
  r_port r +:+ "." +:+ r_protocol r +:+ "." +:+ r_endpoint r +:+ "." +:+ r_service r
  +:+ "." +:+ r_namespace r +:+ "." +:+ r_podOrSvc r.

(** * Specifications *)

Definition is_type (t : string) : Prop := t = PodLabel ∨ t = SvcLabel.

#[export] Instance is_type_dec t : Decision (is_type t).
Proof. unfold is_type. apply _. Defined.

(** A label with one leading underscore stands for the rest of it, and one without for itself. *)
Inductive unmarked : string → string → Prop :=
| unmarked_underscore p : unmarked ("_" +:+ p) p
| unmarked_plain c p : c ≠ "_"%char → unmarked (String c p) (String c p).

(** The label lists that are requests, and the request each one is. *)
Inductive label_form : list string → recordRequest → Prop :=
| form_type t :
    is_type t → label_form [t] (mkRecordRequest "*" "*" "" "" "" t)
| form_namespace ns t :
    is_type t → label_form [ns; t] (mkRecordRequest "*" "*" "" "" ns t)
| form_service s ns t :
    is_type t → label_form [s; ns; t] (mkRecordRequest "*" "*" "" s ns t)
| form_endpoint e s ns t :
    is_type t → label_form [e; s; ns; t] (mkRecordRequest "*" "*" e s ns t)
| form_port l0 l1 port protocol s ns t :
    is_type t → unmarked l0 port → unmarked l1 protocol →
    label_form [l0; l1; s; ns; t] (mkRecordRequest port protocol "" s ns t).

(** The label lists on which the parser panics: a port or protocol label is empty. *)
Inductive label_panic : list string → Prop :=
| panic_port l0 l1 s ns t : is_type t → l0 = "" ∨ l1 = "" → label_panic [l0; l1; s; ns; t].

(** The labels that ask for a request. *)
Definition labels_of (r : recordRequest) : list string :=
  if negb (r_endpoint r =? "")%string then
    [r_endpoint r; r_service r; r_namespace r; r_podOrSvc r]
  else if (r_port r =? "*")%string && (r_protocol r =? "*")%string then
    [r_service r; r_namespace r; r_podOrSvc r]
  else ["_" +:+ r_port r; "_" +:+ r_protocol r; r_service r; r_namespace r; r_podOrSvc r].

Definition plain_text (s : string) : Prop :=
  forallb plain_char (String.list_ascii_of_string s) = true.

(** A request that names a service or a pod: an endpoint excludes a port and a protocol. *)
Record printable (r : recordRequest) : Prop := {
  pr_type : is_type (r_podOrSvc r);
  pr_namespace : plain_label (r_namespace r);
  pr_service : plain_label (r_service r);
  pr_endpoint : r_endpoint r = "" ∨
    (plain_label (r_endpoint r) ∧ r_port r = "*" ∧ r_protocol r = "*");
  pr_port : plain_text (r_port r);
  pr_protocol : plain_text (r_protocol r);
}.

(** * Facts *)

Section ParseFacts.
Context `{DnsLib}.

(** What the parser does with the labels of a name that is not an apex. *)
Definition parse_labels (segs : list string) : outcome (recordRequest * option go_error) :=
  match reverse segs with
  | [] => Ret (mkRecordRequest "*" "*" "" "" "" "", None)
  | t :: rest =>
      if negb (t =? PodLabel)%string && negb (t =? SvcLabel)%string then
        Ret (mkRecordRequest "*" "*" "" "" "" t, Some errInvalidRequest)
      else
        match rest with
        | [] => Ret (mkRecordRequest "*" "*" "" "" "" t, None)
        | [ns] => Ret (mkRecordRequest "*" "*" "" "" ns t, None)
        | [ns; s] => Ret (mkRecordRequest "*" "*" "" s ns t, None)
        | [ns; s; e] => Ret (mkRecordRequest "*" "*" e s ns t, None)
        | [ns; s; l1; l0] =>
            protocol ← stripUnderscore l1;
            port ← stripUnderscore l0;
            Ret (mkRecordRequest port protocol "" s ns t, None)
        | ns :: s :: _ => Ret (mkRecordRequest "*" "*" "" s ns t, Some errInvalidRequest)
        end
  end.

Definition apex (base : string) : bool :=
  (base =? "")%string || (base =? SvcLabel)%string || (base =? PodLabel)%string.

(** Indexing the labels from the right. *)
Lemma seg_reverse (l : list string) (i : nat) (z : Z) :
  i < length l → z = (Z.of_nat (length l) - 1 - Z.of_nat i)%Z →
  go_index (reverse l) (Z.to_nat z) = go_index l i.
Proof.
  intros Hi ->. unfold go_index. rewrite reverse_lookup by lia.
  by replace (length l - S (Z.to_nat (Z.of_nat (length l) - 1 - Z.of_nat i))) with i by lia.
Qed.

Lemma parseRequest_labels name zone :
  parseRequest name zone =
    if apex (TrimZone name zone) then Ret (zero_request, None)
    else parse_labels (SplitDomainName (TrimZone name zone)).
Proof.
  unfold parseRequest, apex. destruct (_ || _ || _); [done|].
  rewrite <- (reverse_involutive (SplitDomainName _)).
  generalize (reverse (SplitDomainName (TrimZone name zone))) as l. intros l.
  unfold parse_labels. rewrite reverse_involutive, length_reverse.
  destruct l as [|t [|ns [|s [|e [|l0 [|x l]]]]]]; try done.
  set (L := t :: ns :: s :: e :: l0 :: x :: l).
  assert (6 ≤ Z.of_nat (length L))%Z as Hlen by (unfold L; simpl; lia).
  rewrite (seg_reverse L 0 (Z.of_nat (length L) - 1)), (seg_reverse L 1 (Z.of_nat (length L) - 1 - 1)),
    (seg_reverse L 2 (Z.of_nat (length L) - 1 - 1 - 1)) by lia.
  destruct (Z.ltb_spec (Z.of_nat (length L) - 1) 0); [lia|].
  destruct (Z.ltb_spec (Z.of_nat (length L) - 1 - 1) 0); [lia|].
  destruct (Z.ltb_spec (Z.of_nat (length L) - 1 - 1 - 1) 0); [lia|].
  destruct (Z.ltb_spec (Z.of_nat (length L) - 1 - 1 - 1 - 1) 0); [lia|].
  destruct (Z.eqb_spec (Z.of_nat (length L) - 1 - 1 - 1 - 1) 0); [lia|].
  destruct (Z.eqb_spec (Z.of_nat (length L) - 1 - 1 - 1 - 1) 1); [lia|].
  subst L. unfold go_index. simpl. go_simpl. by destruct (negb (t =? PodLabel)%string && _).
Qed.

Lemma is_type_spec t :
  negb (t =? PodLabel)%string && negb (t =? SvcLabel)%string = negb (bool_decide (is_type t)).
Proof.
  case_bool_decide as Ht; unfold is_type in Ht;
    destruct (String.eqb_spec t PodLabel), (String.eqb_spec t SvcLabel); naive_solver.
Qed.

Lemma label_form_length segs r : label_form segs r → 0 < length segs < 6.
Proof. destruct 1; simpl; lia. Qed.

Lemma label_panic_length segs : label_panic segs → length segs = 5.
Proof. by destruct 1. Qed.

(** Case analysis on labels counted from the right. *)
Ltac split_labels segs :=
  rewrite <- (reverse_involutive segs); generalize (reverse segs); clear segs; intros segs;
  unfold parse_labels; rewrite reverse_involutive;
  destruct segs as [|t [|ns [|s [|e [|l0 [|x l]]]]]];
  rewrite ?is_type_spec; try (case_bool_decide as Ht; simpl).

Lemma stripUnderscore_unmarked l p : stripUnderscore l = Ret p ↔ unmarked l p.
Proof.
  destruct l as [|c l]; simpl; [by split; [|inversion 1]|].
  destruct (Ascii.eqb_spec c "_") as [->|Hc]; split.
  - intros [= <-]. exact (unmarked_underscore l).
  - inversion 1; by simplify_eq.
  - intros [= <-]. by constructor.
  - inversion 1; by simplify_eq.
Qed.

(** What the parser answers on labels, by their form. *)
Lemma parse_labels_form segs r :
  segs ≠ [] → parse_labels segs = Ret (r, None) ↔ label_form segs r.
Proof.
  split_labels segs; intros Hne; try done.
  all: try (split; [intros [= <-]; by constructor|]; inversion 1; by subst).
  all: try (split; [done|]; inversion 1; by subst).
  - destruct (stripUnderscore e) as [pr| |] eqn:He; destruct (stripUnderscore l0) as [po| |] eqn:Hl;
      go_simpl; (split; [intros Hr; simplify_eq; constructor;
                         by try apply stripUnderscore_unmarked|]);
      inversion 1; repeat match goal with
        | Hu : unmarked _ _ |- _ => apply stripUnderscore_unmarked in Hu
        end; congruence.
  - split; [done|]. intros Hf%label_form_length. rewrite length_reverse in Hf. simpl in Hf. lia.
  - split; [done|]. intros Hf%label_form_length. rewrite length_reverse in Hf. simpl in Hf. lia.
Qed.

Lemma parse_labels_panic segs : parse_labels segs = Panic ↔ label_panic segs.
Proof.
  split_labels segs; try (split; [done|]; inversion 1; by subst).
  - split.
    + intros Hp. constructor; [done|]. destruct l0; [by left|]. destruct e; [by right|].
      discriminate Hp.
    + inversion 1 as [????? _ Hemp]; subst. destruct e; [done|]. by destruct Hemp as [->|].
  - split; [done|]. intros Hf%label_panic_length. rewrite length_reverse in Hf. simpl in Hf. lia.
  - split; [done|]. intros Hf%label_panic_length. rewrite length_reverse in Hf. simpl in Hf. lia.
Qed.

(** The parser throws nothing, and every error is [errInvalidRequest]. *)
Lemma parse_labels_cases segs :
  parse_labels segs = Panic ∨ (∃ r, parse_labels segs = Ret (r, None)) ∨
  ∃ r, parse_labels segs = Ret (r, Some errInvalidRequest).
Proof.
  split_labels segs; eauto.
  destruct e, l0; go_simpl; eauto.
Qed.
End ParseFacts.

Section PrintFacts.
Context `{DnsLaws}.

Lemma type_plain t : is_type t → plain_label t.
Proof. by intros [-> | ->]. Qed.

Lemma underscore_plain s : plain_text s → plain_label ("_" +:+ s).
Proof. by split. Qed.

Lemma labels_of_plain r : printable r → Forall plain_label (labels_of r).
Proof.
  intros [Ht Hn Hs He Hp Hq]. apply type_plain in Ht. unfold labels_of.
  destruct (String.eqb_spec (r_endpoint r) "") as [|Hne]; simpl.
  - destruct (_ && _); repeat (constructor; eauto using underscore_plain).
  - destruct He as [|(He & _ & _)]; [done|]. by rewrite !Forall_cons, Forall_nil.
Qed.

Lemma labels_of_form r : printable r → label_form (labels_of r) r.
Proof.
  intros [Ht Hn Hs He Hp Hq]. destruct r as [port protocol e s ns t]. unfold labels_of; simpl in *.
  destruct (String.eqb_spec e "") as [->|Hne]; simpl.
  - destruct (String.eqb_spec port "*") as [->|]; destruct (String.eqb_spec protocol "*") as [->|];
      simpl; (by constructor) || (apply form_port; [done|exact (unmarked_underscore _)..]).
  - destruct He as [|(He & -> & ->)]; [done|]. by constructor.
Qed.

Lemma labels_of_length r : 3 ≤ length (labels_of r).
Proof. unfold labels_of. repeat case_match; simpl; lia. Qed.

(** Two or more labels never make an apex. *)
Lemma join_not_apex l : 2 ≤ length l → Forall plain_label l → apex (strings.Join l ".") = false.
Proof.
  intros Hlen Hl. assert (Hne : l ≠ []) by (by destruct l; simpl in *; [lia|]).
  assert (Hlabel : ∀ t, plain_label t → strings.Join l "." ≠ t).
  { intros t Ht Heq. pose proof (SplitDomainName_join l Hne Hl) as Hs1.
    pose proof (SplitDomainName_join [t] ltac:(done) ltac:(by constructor)) as Hs2.
    simpl in Hs2. unfold strings.Join in Hs2. simpl in Hs2. rewrite Heq, Hs2 in Hs1. subst l.
    simpl in Hlen. lia. }
  assert (Hempty : strings.Join l "." ≠ "").
  { destruct l as [|x [|y l]]; simpl in Hlen; [lia|lia|].
    unfold strings.Join. by destruct x. }
  unfold apex. rewrite !orb_false_iff, !String.eqb_neq. split_and!; [done| |];
    apply Hlabel; apply type_plain; [by right|by left].
Qed.

(** Parsing the labels of a request. *)
Lemma parse_printed r zone :
  printable r → normal_zone zone →
  parseRequest (qualify (labels_of r) zone) zone = Ret (r, None).
Proof.
  intros Hr Hz. pose proof (labels_of_plain r Hr) as Hl. pose proof (labels_of_length r) as Hlen.
  assert (Hne : labels_of r ≠ []) by (by destruct (labels_of r); simpl in *; [lia|]).
  rewrite parseRequest_labels, TrimZone_qualify, join_not_apex, SplitDomainName_join
    by (done || lia).
  apply parse_labels_form; [done|]. by apply labels_of_form.
Qed.
End PrintFacts.

(** * Properties *)

(** C25: the parser's answer on every name below a zone. Whatever the libraries make of the name: when
    what is left of the zone is not an apex and has labels, the parser succeeds exactly on the five
    forms (type; namespace; service; endpoint; port and protocol with at most one underscore
    dropped), with the request each form is; it panics exactly when one of the two labels of the
    port form is empty; and on everything else it returns [errInvalidRequest]. An apex is the empty
    request. *)
Theorem parseRequest_complete `{DnsLib} name zone :
  let base := TrimZone name zone in
  let segs := SplitDomainName base in
  (apex base = true → parseRequest name zone = Ret (zero_request, None)) ∧
  (apex base = false → segs ≠ [] →
     (∀ r, parseRequest name zone = Ret (r, None) ↔ label_form segs r) ∧
     (parseRequest name zone = Panic ↔ label_panic segs) ∧
     ((∀ r, ¬ label_form segs r) → ¬ label_panic segs →
        ∃ r, parseRequest name zone = Ret (r, Some errInvalidRequest))).
Proof.
  simpl. rewrite parseRequest_labels. split; [by intros ->|]. intros -> Hne. split_and!.
  - intros r. by apply parse_labels_form.
  - apply parse_labels_panic.
  - intros Hr Hp. destruct (parse_labels_cases (SplitDomainName (TrimZone name zone)))
      as [Hx|[[r Hx]|Hx]]; [|by apply parse_labels_form in Hx; [destruct (Hr r)|]|done].
    by apply parse_labels_panic in Hx.
Qed.

Lemma parseRequest_complete_witness :
  parseRequest "1-2-3-4.webs.mynamespace.svc.inter.webs.tests." "inter.webs.tests."
    = Ret (mkRecordRequest "*" "*" "1-2-3-4" "webs" "mynamespace" "svc", None).
Proof.
  destruct (parseRequest_complete "1-2-3-4.webs.mynamespace.svc.inter.webs.tests."
    "inter.webs.tests.") as [_ Hp].
  destruct Hp as [Hr _]; [reflexivity|discriminate|].
  apply Hr. vm_compute. constructor. right. reflexivity.
Defined.

(** C26: parsing undoes printing. For a request that names a service or a pod (plain labels, and an
    endpoint excludes a port and a protocol), the name made of its labels below any normalized zone
    is parsed back to that very request. *)
Theorem parseRequest_print `{DnsLaws} r zone :
  printable r → normal_zone zone →
  parseRequest (qualify (labels_of r) zone) zone = Ret (r, None).
Proof. apply parse_printed. Qed.

Lemma parseRequest_print_witness :
  parseRequest "_http._tcp.webs.mynamespace.svc.inter.webs.tests." "inter.webs.tests."
    = Ret (mkRecordRequest "http" "tcp" "" "webs" "mynamespace" "svc", None).
Proof.
  apply (parseRequest_print (mkRecordRequest "http" "tcp" "" "webs" "mynamespace" "svc")
    "inter.webs.tests.").
  - constructor; [by right|by split|by split|by left|done|done].
  - exists ["inter"; "webs"; "tests"]. split; [done|]. split; [|done].
    repeat constructor; done.
Defined.
