(* ===== verification/Records.v ===== *)
(** Looking up names in the caches (kubernetes.go from [Records] on): services, endpoints and pods.

    The lookups are written over the interface [dnsController]; a call of it that panics makes the
    lookup panic. The loops keep the code's accumulators: the services found, the error, and the
    list of endpoints, which is fetched when first needed and again while it is nil. *)
From stdpp Require Import prelude strings gmap sets list.
From Stdlib Require Import Ascii.
From S2P Require Import Prelude GoStd Object Controller Deps Kubernetes Parse.

(** * Names *)

Definition wildcard (s : string) : bool := (s =? "*")%string || (s =? "any")%string.

Definition match_ (a b : string) : bool :=
  if wildcard a then true
  else if wildcard b then true
  else strings.EqualFold a b.

Definition endpointHostname (addr : EndpointAddress) (endpointNameMode : bool) : string :=
  if negb (ea_Hostname addr =? "")%string then ea_Hostname addr
  else if endpointNameMode && negb (ea_TargetRefName addr =? "")%string then ea_TargetRefName addr
  else if strings.Contains (ea_IP addr) "." then strings.Replace (ea_IP addr) "."%char "-"%char
  else if strings.Contains (ea_IP addr) ":" then strings.Replace (ea_IP addr) ":"%char "-"%char
  else "".

(** The IP a pod name stands for. *)
Definition pod_ip (podname : string) : string :=
  if (strings.Count podname "-"%char =? 3)%Z && negb (strings.Contains podname "--")
  then strings.Replace podname "-"%char "."%char
  else strings.Replace podname "-"%char ":"%char.

(** What a lookup returns: services and an error, which is nil for NODATA. *)
Abbreviation answer := (list msg_Service * option go_error)%type.

Section Lookup.
Context `{DnsLib}.
Variable k : Kubernetes.

Definition host_service (host : string) (port : Z) (key : string) : msg_Service :=
  mkMsg host port 0 0 "" (ttl k) key.

(** [!wildcard(ns) && !k.namespaceExposed(ns)] *)
Definition hidden (ns : string) : outcome bool :=
  and_call (negb (wildcard ns)) (call_not (namespaceExposed k ns)).

(** * Pods *)

(** The body of the loop over the pods with the IP. *)
Definition pod_step (r : recordRequest) (zonePath ip : string) (acc : answer) (p : Pod) :
    outcome answer :=
  skip ← and_call (wildcard (r_namespace r)) (call_not (namespaceExposed k (pod_Namespace p)));
  if (skip : bool) then mret acc
  else if (ip =? pod_PodIP p)%string && match_ (r_namespace r) (pod_Namespace p) then
    mret (acc.1 ++ [host_service ip 0
                      (strings.Join [zonePath; PodLabel; r_namespace r; r_service r] "/")], None)
  else mret acc.

Definition findPods (r : recordRequest) (zone : string) : outcome answer :=
  if (podMode k =? podModeDisabled)%string then mret ([], Some errNoItems)
  else
    let namespace := r_namespace r in
    h ← hidden namespace;
    if (h : bool) then mret ([], Some errNoItems)
    else
      let podname := r_service r in
      if (podname =? "")%string then
        known ← call_or (namespaceExposed k namespace) (wildcard namespace);
        mret ([], if (known : bool) then None else Some errNoItems)
      else
        let zonePath := msg_Path zone coredns in
        let ip := pod_ip podname in
        if (podMode k =? podModeInsecure)%string then
          h ← hidden namespace;
          if (h : bool) then mret ([], Some errNoItems)
          else if decide (net.ParseIP ip = []) then mret ([], Some errNoItems)
          else mret ([host_service ip 0
                        (strings.Join [zonePath; PodLabel; namespace; podname] "/")], None)
        else
          known ← and_call (wildcard podname && negb (wildcard namespace))
                    (namespaceExposed k namespace);
          let err := if (known : bool) then None else Some errNoItems in
          pods ← PodIndex (APIConn k) ip;
          go_fold (pod_step r zonePath ip) ([], err) pods.

(** * Services *)

(** The records of an endpoints object for a headless service or an endpoint query: the loops
    over its subsets, their addresses and their ports. *)
Definition port_step (r : recordRequest) (zonePath : string) (svc : Service)
    (addr : EndpointAddress) (acc : answer) (p : EndpointPort) : answer :=
  if negb (match_ (r_port r) (ep_Name p) && match_ (r_protocol r) (ep_Protocol p)) then acc
  else
    let s := host_service (ea_IP addr) (ep_Port p)
      (strings.Join [zonePath; SvcLabel; svc_Namespace svc; svc_Name svc;
                     endpointHostname addr (endpointNameMode k)] "/") in
    (acc.1 ++ [s], None).

Definition address_step (r : recordRequest) (zonePath : string) (svc : Service)
    (ports : list EndpointPort) (acc : answer) (addr : EndpointAddress) : answer :=
  if negb (r_endpoint r =? "")%string
     && negb (match_ (r_endpoint r) (endpointHostname addr (endpointNameMode k)))
  then acc
  else foldl (port_step r zonePath svc addr) acc ports.

Definition endpoints_step (r : recordRequest) (zonePath : string) (svc : Service)
    (acc : answer) (ep : Endpoints) : answer :=
  if negb (eps_Name ep =? svc_Name svc)%string
     || negb (eps_Namespace ep =? svc_Namespace svc)%string
  then acc
  else foldl (λ acc eps, foldl (address_step r zonePath svc (es_Ports eps)) acc (es_Addresses eps))
         acc (eps_Subsets ep).

(** The records of a service with a cluster IP: the loop over its ports. *)
Definition clusterip_step (r : recordRequest) (zonePath : string) (svc : Service)
    (acc : answer) (p : ServicePort) : answer :=
  if negb (match_ (r_port r) (sp_Name p) && match_ (r_protocol r) (sp_Protocol p)) then acc
  else
    let s := host_service (svc_ClusterIP svc) (sp_Port p)
      (strings.Join [zonePath; SvcLabel; svc_Namespace svc; svc_Name svc] "/") in
    (acc.1 ++ [s], None).

(** How many addresses a list of endpoints has. *)
Definition podsCount (eps : list Endpoints) : nat :=
  foldl (λ n ep, foldl (λ n sub, n + length (es_Addresses sub)) n (eps_Subsets ep)) 0 eps.

(** The body of the loop over the services. The state also holds [endpointsList]. *)
Definition service_step (r : recordRequest) (zonePath : string)
    (endpointsListFunc : outcome (list Endpoints)) (st : answer * list Endpoints) (svc : Service) :
    outcome (answer * list Endpoints) :=
  let '(acc, endpointsList) := st in
  if negb (match_ (r_namespace r) (svc_Namespace svc) && match_ (r_service r) (svc_Name svc)) then
    mret st
  else
    skip ← and_call (wildcard (r_namespace r)) (call_not (namespaceExposed k (svc_Namespace svc)));
    if (skip : bool) then mret st
    else
      empty ← and_call (ignoreEmptyService (opts k)
                        && negb (svc_ClusterIP svc =? ClusterIPNone)%string
                        && negb (svc_Type svc =? ServiceTypeExternalName)%string)
                ((λ l, (podsCount l =? 0)%nat) <$> endpointsListFunc);
      if (empty : bool) then mret st
      else if (svc_ClusterIP svc =? ClusterIPNone)%string || negb (r_endpoint r =? "")%string then
        endpointsList ← (match endpointsList with
                         | [] => endpointsListFunc
                         | _ => mret endpointsList
                         end);
        mret (foldl (endpoints_step r zonePath svc) acc endpointsList, endpointsList)
      else if (svc_Type svc =? ServiceTypeExternalName)%string then
        let s := host_service (svc_ExternalName svc) 0
          (strings.Join [zonePath; SvcLabel; svc_Namespace svc; svc_Name svc] "/") in
        if (HostType (ms_Host s) =? TypeCNAME)%Z then
          mret ((acc.1 ++ [s], None), endpointsList)
        else mret st
      else mret (foldl (clusterip_step r zonePath svc) acc (svc_Ports svc), endpointsList).

Definition findServices (r : recordRequest) (zone : string) : outcome answer :=
  h ← hidden (r_namespace r);
  if (h : bool) then mret ([], Some errNoItems)
  else if (r_service r =? "")%string then
    known ← call_or (namespaceExposed k (r_namespace r)) (wildcard (r_namespace r));
    mret ([], if (known : bool) then None else Some errNoItems)
  else
    known ← and_call (wildcard (r_service r) && negb (wildcard (r_namespace r)))
              (namespaceExposed k (r_namespace r));
    let err := if (known : bool) then None else Some errNoItems in
    let all := wildcard (r_service r) || wildcard (r_namespace r) in
    let idx := ServiceKey (r_service r) (r_namespace r) in
    serviceList ← (if all then ServiceList (APIConn k) else SvcIndex (APIConn k) idx);
    let endpointsListFunc :=
      if all then EndpointsList (APIConn k) else EpIndex (APIConn k) idx in
    let zonePath := msg_Path zone coredns in
    '(acc, _) ← go_fold (service_step r zonePath endpointsListFunc) (([], err), []) serviceList;
    mret acc.

(** * Records *)

Definition Records (state : Request) : outcome answer :=
  '(r, e) ← parseRequest (rq_Name state) (rq_Zone state);
  match e with
  | Some e => mret ([], Some e)
  | None =>
      if (r_podOrSvc r =? "")%string then mret ([], None)
      else if (0 <? IsReverse (rq_Name state))%Z then mret ([], Some errNoItems)
      else
        h ← hidden (r_namespace r);
        if (h : bool) then mret ([], Some errNsNotExposed)
        else if (r_podOrSvc r =? PodLabel)%string then findPods r (rq_Zone state)
        else findServices r (rq_Zone state)
  end.
End Lookup.

(** * Specifications *)

Section Specs.
Context `{DnsLib}.
Variable k : Kubernetes.
Variable sn : snapshot.

(** Adding what was found to an answer: finding something clears the error. *)
Definition extend (acc : answer) (new : list msg_Service) : answer :=
  (acc.1 ++ new, match new with [] => acc.2 | _ => None end).

Definition ports_found (r : recordRequest) (zonePath : string) (svc : Service)
    (addr : EndpointAddress) (ports : list EndpointPort) : list msg_Service :=
  (λ p, host_service k (ea_IP addr) (ep_Port p)
          (strings.Join [zonePath; SvcLabel; svc_Namespace svc; svc_Name svc;
                         endpointHostname addr (endpointNameMode k)] "/"))
  <$> filter (λ p, match_ (r_port r) (ep_Name p) && match_ (r_protocol r) (ep_Protocol p) = true)
        ports.

Definition wanted_address (r : recordRequest) (addr : EndpointAddress) : bool :=
  (r_endpoint r =? "")%string || match_ (r_endpoint r) (endpointHostname addr (endpointNameMode k)).

Definition endpoints_found (r : recordRequest) (zonePath : string) (svc : Service)
    (ep : Endpoints) : list msg_Service :=
  concat ((λ sub, concat ((λ addr, ports_found r zonePath svc addr (es_Ports sub))
                          <$> filter (λ addr, wanted_address r addr = true) (es_Addresses sub)))
          <$> eps_Subsets ep).

Definition belongs (svc : Service) (ep : Endpoints) : Prop :=
  eps_Name ep = svc_Name svc ∧ eps_Namespace ep = svc_Namespace svc.

#[export] Instance belongs_dec svc ep : Decision (belongs svc ep).
Proof. unfold belongs. apply _. Defined.

Definition clusterip_found (r : recordRequest) (zonePath : string) (svc : Service) :
    list msg_Service :=
  (λ p, host_service k (svc_ClusterIP svc) (sp_Port p)
          (strings.Join [zonePath; SvcLabel; svc_Namespace svc; svc_Name svc] "/"))
  <$> filter (λ p, match_ (r_port r) (sp_Name p) && match_ (r_protocol r) (sp_Protocol p) = true)
        (svc_Ports svc).

(** The records of one service, of whichever kind it is. *)
Definition service_found (r : recordRequest) (zonePath : string) (eps : list Endpoints)
    (svc : Service) : list msg_Service :=
  if (svc_ClusterIP svc =? ClusterIPNone)%string || negb (r_endpoint r =? "")%string then
    concat (endpoints_found r zonePath svc <$> filter (belongs svc) eps)
  else if (svc_Type svc =? ServiceTypeExternalName)%string then
    if (HostType (svc_ExternalName svc) =? TypeCNAME)%Z then
      [host_service k (svc_ExternalName svc) 0
         (strings.Join [zonePath; SvcLabel; svc_Namespace svc; svc_Name svc] "/")]
    else []
  else clusterip_found r zonePath svc.

(** The services a request selects. *)
Definition selected (r : recordRequest) (svc : Service) : Prop :=
  match_ (r_namespace r) (svc_Namespace svc) = true ∧
  match_ (r_service r) (svc_Name svc) = true ∧
  (wildcard (r_namespace r) = true → exposed k sn (svc_Namespace svc)).

#[export] Instance selected_dec r svc : Decision (selected r svc).
Proof.
  unfold selected. destruct (wildcard (r_namespace r)) eqn:Hw.
  - refine (cast_if (decide (match_ (r_namespace r) (svc_Namespace svc) = true ∧
      match_ (r_service r) (svc_Name svc) = true ∧ exposed k sn (svc_Namespace svc)))); naive_solver.
  - refine (cast_if (decide (match_ (r_namespace r) (svc_Namespace svc) = true ∧
      match_ (r_service r) (svc_Name svc) = true))); naive_solver.
Defined.

(** A service the option [ignore empty_service] does not hide. *)
Definition served (eps : list Endpoints) (svc : Service) : Prop :=
  ignoreEmptyService (opts k) = true → svc_ClusterIP svc ≠ ClusterIPNone →
  svc_Type svc ≠ ServiceTypeExternalName → podsCount eps ≠ 0.

#[export] Instance served_dec eps svc : Decision (served eps svc).
Proof. unfold served. apply _. Defined.

Definition services_found (r : recordRequest) (zonePath : string) (eps : list Endpoints)
    (svcs : list Service) : list msg_Service :=
  concat (service_found r zonePath eps <$> filter (λ svc, selected r svc ∧ served eps svc) svcs).

(** The answer when nothing was found: NODATA for [*.namespace], otherwise no such name. *)
Definition nothing_found (r : recordRequest) : option go_error :=
  if wildcard (r_service r) && negb (wildcard (r_namespace r)) then None else Some errNoItems.

Definition visible (r : recordRequest) : Prop :=
  wildcard (r_namespace r) = true ∨ exposed k sn (r_namespace r).

Definition services_answer (r : recordRequest) (zone : string) (svcs : list Service)
    (eps : list Endpoints) : answer :=
  if decide (visible r) then
    if (r_service r =? "")%string then ([], None)
    else extend ([], nothing_found r) (services_found r (msg_Path zone coredns) eps svcs)
  else ([], Some errNoItems).

(** The pods a request selects among those with its IP. *)
Definition pod_selected (r : recordRequest) (p : Pod) : Prop :=
  match_ (r_namespace r) (pod_Namespace p) = true ∧
  (wildcard (r_namespace r) = true → exposed k sn (pod_Namespace p)).

#[export] Instance pod_selected_dec r p : Decision (pod_selected r p).
Proof.
  unfold pod_selected. destruct (wildcard (r_namespace r)) eqn:Hw.
  - refine (cast_if (decide (match_ (r_namespace r) (pod_Namespace p) = true ∧
      exposed k sn (pod_Namespace p)))); naive_solver.
  - refine (cast_if (decide (match_ (r_namespace r) (pod_Namespace p) = true))); naive_solver.
Defined.

Definition pod_record (r : recordRequest) (zone : string) : msg_Service :=
  host_service k (pod_ip (r_service r)) 0
    (strings.Join [msg_Path zone coredns; PodLabel; r_namespace r; r_service r] "/").

(** The lookup of a pod name, with the pods of the cache. Every record is the same one: the
    address the name spells. *)
Definition pods_answer (r : recordRequest) (zone : string) (pods : list Pod) : answer :=
  if (podMode k =? podModeDisabled)%string then ([], Some errNoItems)
  else if decide (visible r) then
    if (r_service r =? "")%string then ([], None)
    else if (podMode k =? podModeInsecure)%string then
      if decide (net.ParseIP (pod_ip (r_service r)) = []) then ([], Some errNoItems)
      else ([pod_record r zone], None)
    else extend ([], nothing_found r)
           (replicate (length (filter (λ p, pod_PodIP p = pod_ip (r_service r) ∧ pod_selected r p) pods))
              (pod_record r zone))
  else ([], Some errNoItems).

(** Kubernetes object names: lower case, never a wildcard of the query language. A namespace
    also has no dot. *)
Definition object_name (s : string) : Prop := strings.ToLower s = s ∧ wildcard s = false.
Definition no_dot (s : string) : Prop := "."%char ∉ String.list_ascii_of_string s.

Record dns_names : Prop := {
  dn_services s : s ∈ sn_services sn →
    object_name (svc_Name s) ∧ object_name (svc_Namespace s) ∧ no_dot (svc_Namespace s) ∧
    svc_Index s = ServiceKey (svc_Name s) (svc_Namespace s);
  dn_endpoints l e : sn_endpoints sn = Some l → e ∈ l →
    no_dot (eps_Namespace e) ∧ eps_Index e = EndpointsKey (eps_Name e) (eps_Namespace e);
  dn_pods l p : sn_pods sn = Some l → p ∈ l → object_name (pod_Namespace p);
  dn_namespaces n : n ∈ sn_namespaces sn → no_dot (ns_name n);
}.

(** The same configuration over the caches of another controller. *)
Definition over (k : Kubernetes) (c : dnsController) : Kubernetes :=
  mkKubernetes (Zones k) c (Namespaces k) (podMode k) (endpointNameMode k) (ttl k) (opts k)
    (primaryZoneIndex k) (localIPs k) (autoPathSearch k) (TransferTo k) (grpcPort k).

(** An endpoints object, and the same object after an update that [endpointsEquivalent] takes for no
    change. *)
Definition unchanged (e1 e2 : Endpoints) : Prop :=
  eps_Name e1 = eps_Name e2 ∧ eps_Namespace e1 = eps_Namespace e2 ∧ eps_Index e1 = eps_Index e2 ∧
  endpointsEquivalent (Some e1) (Some e2) = Ret true.

(** Caches that differ by such updates of their endpoints only. *)
Record unchanged_endpoints (sn1 sn2 : snapshot) (l1 l2 : list Endpoints) : Prop := {
  ue_services : sn_services sn1 = sn_services sn2;
  ue_pods : sn_pods sn1 = sn_pods sn2;
  ue_namespaces : sn_namespaces sn1 = sn_namespaces sn2;
  ue_endpoints1 : sn_endpoints sn1 = Some l1;
  ue_endpoints2 : sn_endpoints sn2 = Some l2;
  ue_unchanged : Forall2 unchanged l1 l2;
}.

(** The namespaces of the services and pods are in lower case, as Kubernetes wants them. *)
Definition lower_namespaces : Prop :=
  (∀ svc, svc ∈ sn_services sn → strings.ToLower (svc_Namespace svc) = svc_Namespace svc) ∧
  ∀ l p, sn_pods sn = Some l → p ∈ l → strings.ToLower (pod_Namespace p) = pod_Namespace p.

(** The namespaces a request can reach into: the exposed ones, and one with the name of a wildcard,
    which [match] takes for every namespace asked that is not itself a wildcard. *)
Definition reaches (r : recordRequest) (ns : string) : Prop :=
  exposed k sn ns ∨ (wildcard ns = true ∧ wildcard (r_namespace r) = false).

Definition lower_request (r : recordRequest) : Prop :=
  strings.ToLower (r_service r) = r_service r ∧ strings.ToLower (r_namespace r) = r_namespace r.

(** A request for one service: neither its name nor its namespace is a wildcard. *)
Definition exact (r : recordRequest) : bool :=
  negb (wildcard (r_service r) || wildcard (r_namespace r)).

(** The reference lookup: scan every cached service, with its own endpoints. *)
Definition reference_records (r : recordRequest) (zonePath : string) (eps : list Endpoints) :
    list msg_Service :=
  concat (service_found r zonePath eps
          <$> filter (λ svc, selected r svc ∧ served (filter (belongs svc) eps) svc)
                (sn_services sn)).

Definition reference_answer (r : recordRequest) (zone : string) (eps : list Endpoints) : answer :=
  if decide (visible r) then
    if (r_service r =? "")%string then ([], None)
    else extend ([], nothing_found r) (reference_records r (msg_Path zone coredns) eps)
  else ([], Some errNoItems).

(** The same answer up to the order of the records. *)
Definition same_answer (a b : answer) : Prop := a.1 ≡ₚ b.1 ∧ a.2 = b.2.
End Specs.

(** The text of an IP address: dotted, or with colons; an address with exactly three colons has two
    of them together, as every IPv6 address has. *)
Definition text_without (c : ascii) (s : string) : Prop := c ∉ String.list_ascii_of_string s.

Definition v4_text (s : string) : Prop :=
  text_without "-" s ∧ text_without ":" s ∧ strings.Count s "."%char = 3%Z ∧
  strings.Contains s "." = true ∧ strings.Contains s ".." = false.
Definition v6_text (s : string) : Prop :=
  text_without "-" s ∧ strings.Contains s "." = false ∧ strings.Contains s ":" = true ∧
  (strings.Count s ":"%char = 3%Z → strings.Contains s "::" = true).

(** * Facts *)

Lemma extend_nil acc : extend acc [] = acc.
Proof. destruct acc. unfold extend. simpl. by rewrite app_nil_r. Qed.

Lemma extend_app acc a b : extend (extend acc a) b = extend acc (a ++ b).
Proof. unfold extend. simpl. rewrite app_assoc. f_equal. by destruct a, b. Qed.

(** A loop whose steps extend the answer extends it by everything they find. *)
Lemma foldl_extend {A} (step : answer → A → answer) (f : A → list msg_Service) (l : list A) acc :
  (∀ acc x, step acc x = extend acc (f x)) →
  foldl step acc l = extend acc (concat (f <$> l)).
Proof.
  intros Hs. revert acc. induction l as [|x l IH]; intros acc; simpl.
  - by rewrite extend_nil.
  - by rewrite Hs, IH, extend_app.
Qed.

Lemma concat_if_singleton {A B} (p : A → bool) (f : A → B) (l : list A) :
  concat ((λ x, if p x then [f x] else []) <$> l) = f <$> filter (λ x, p x = true) l.
Proof.
  induction l as [|x l IH]; [done|]. rewrite fmap_cons, concat_cons, IH, filter_cons.
  by destruct (p x).
Qed.

Lemma concat_if {A B} (p : A → bool) (f : A → list B) (l : list A) :
  concat ((λ x, if p x then f x else []) <$> l) = concat (f <$> filter (λ x, p x = true) l).
Proof.
  induction l as [|x l IH]; [done|]. rewrite fmap_cons, concat_cons, IH, filter_cons.
  by destruct (p x).
Qed.

Section LookupFacts.
Context `{DnsLib}.
Variable k : Kubernetes.
Implicit Types (r : recordRequest) (svc : Service).

Lemma port_step_extend r zp svc addr acc p :
  port_step k r zp svc addr acc p =
    extend acc (if match_ (r_port r) (ep_Name p) && match_ (r_protocol r) (ep_Protocol p)
                then [host_service k (ea_IP addr) (ep_Port p)
                        (strings.Join [zp; SvcLabel; svc_Namespace svc; svc_Name svc;
                           endpointHostname addr (endpointNameMode k)] "/")] else []).
Proof. unfold port_step. destruct (_ && _); simpl; [done|]. by rewrite extend_nil. Qed.

Lemma address_step_extend r zp svc ports acc addr :
  address_step k r zp svc ports acc addr =
    extend acc (if wanted_address k r addr then ports_found k r zp svc addr ports else []).
Proof.
  unfold address_step, wanted_address.
  rewrite (foldl_extend _ _ _ _ (port_step_extend r zp svc addr)), concat_if_singleton.
  destruct (r_endpoint r =? "")%string; simpl; [done|].
  destruct (match_ _ _); simpl; [done|]. by rewrite extend_nil.
Qed.

Lemma endpoints_step_extend r zp svc acc ep :
  endpoints_step k r zp svc acc ep =
    extend acc (if bool_decide (belongs svc ep) then endpoints_found k r zp svc ep else []).
Proof.
  unfold endpoints_step, belongs.
  destruct (String.eqb_spec (eps_Name ep) (svc_Name svc)) as [Hn|Hn]; simpl.
  2:{ rewrite bool_decide_eq_false_2 by tauto. by rewrite extend_nil. }
  destruct (String.eqb_spec (eps_Namespace ep) (svc_Namespace svc)) as [Hs|Hs]; simpl.
  2:{ rewrite bool_decide_eq_false_2 by tauto. by rewrite extend_nil. }
  rewrite bool_decide_eq_true_2 by done. unfold endpoints_found. apply foldl_extend.
  intros acc' sub. rewrite (foldl_extend _ _ _ _ (address_step_extend r zp svc (es_Ports sub))).
  by rewrite concat_if.
Qed.

Lemma foldl_endpoints r zp svc acc eps :
  foldl (endpoints_step k r zp svc) acc eps =
    extend acc (concat (endpoints_found k r zp svc <$> filter (belongs svc) eps)).
Proof.
  rewrite (foldl_extend _ _ _ _ (endpoints_step_extend r zp svc)), concat_if.
  repeat f_equal. apply list_filter_iff. intros ep. apply bool_decide_eq_true.
Qed.

Lemma foldl_clusterip r zp svc acc :
  foldl (clusterip_step k r zp svc) acc (svc_Ports svc) = extend acc (clusterip_found k r zp svc).
Proof.
  rewrite (foldl_extend _ (λ p, if match_ (r_port r) (sp_Name p) && match_ (r_protocol r) (sp_Protocol p)
    then [host_service k (svc_ClusterIP svc) (sp_Port p)
            (strings.Join [zp; SvcLabel; svc_Namespace svc; svc_Name svc] "/")] else [])).
  - by rewrite concat_if_singleton.
  - intros acc' p. unfold clusterip_step. destruct (_ && _); simpl; [done|]. by rewrite extend_nil.
Qed.

Lemma skip_spec sn ns ns' :
  Implements (APIConn k) sn →
  and_call (wildcard ns) (call_not (namespaceExposed k ns')) =
    Ret (wildcard ns && negb (bool_decide (exposed k sn ns'))).
Proof. intros Hi. rewrite (namespaceExposed_spec k sn) by done. by destruct (wildcard ns). Qed.

Lemma hidden_spec sn ns :
  Implements (APIConn k) sn →
  hidden k ns = Ret (negb (wildcard ns) && negb (bool_decide (exposed k sn ns))).
Proof.
  intros Hi. unfold hidden. rewrite (namespaceExposed_spec k sn) by done. by destruct (wildcard ns).
Qed.

Lemma selected_spec sn r svc :
  bool_decide (selected k sn r svc) =
    match_ (r_namespace r) (svc_Namespace svc) && match_ (r_service r) (svc_Name svc)
    && negb (wildcard (r_namespace r) && negb (bool_decide (exposed k sn (svc_Namespace svc)))).
Proof.
  case_bool_decide as Hs; unfold selected in Hs; case_bool_decide as He;
    destruct (match_ (r_namespace r) _), (match_ (r_service r) _), (wildcard (r_namespace r));
    naive_solver.
Qed.

Lemma served_spec eps svc :
  and_call (ignoreEmptyService (opts k) && negb (svc_ClusterIP svc =? ClusterIPNone)%string
            && negb (svc_Type svc =? ServiceTypeExternalName)%string)
           (Ret (podsCount eps =? 0)%nat)
  = Ret (negb (bool_decide (served k eps svc))).
Proof.
  case_bool_decide as Hs; unfold served in Hs; go_simpl.
  all: destruct (ignoreEmptyService (opts k)), (String.eqb_spec (svc_ClusterIP svc) ClusterIPNone),
    (String.eqb_spec (svc_Type svc) ServiceTypeExternalName); simpl; try done; try naive_solver.
  - f_equal. apply Nat.eqb_neq. by apply Hs.
  - f_equal. apply Nat.eqb_eq. apply dec_stable. intros Hc. by apply Hs.
Qed.

(** What a step of the service loop adds, when the endpoints can be listed. *)
Lemma service_step_extend sn r zp eps st svc :
  Implements (APIConn k) sn → st.2 = [] ∨ st.2 = eps →
  ∃ el, service_step k r zp (Ret eps) st svc =
      Ret (extend st.1 (if bool_decide (selected k sn r svc ∧ served k eps svc)
                        then service_found k r zp eps svc else []), el) ∧
    (el = [] ∨ el = eps).
Proof.
  intros Himpl Hst. destruct st as [acc el]; simpl in *. unfold service_step.
  rewrite bool_decide_and, selected_spec.
  destruct (match_ (r_namespace r) _ && match_ (r_service r) _); simpl;
    [|rewrite extend_nil; by eexists].
  rewrite (skip_spec sn) by done.
  destruct (wildcard (r_namespace r) && _); simpl; [rewrite extend_nil; by eexists|].
  rewrite served_spec. case_bool_decide as Hserved; simpl; [|rewrite extend_nil; by eexists].
  unfold service_found.
  destruct (_ || _); simpl.
  { exists eps. split; [|by right]. rewrite <- foldl_endpoints.
    destruct el as [|e el']; [done|]. by destruct Hst as [|<-]. }
  destruct (svc_Type svc =? ServiceTypeExternalName)%string; simpl.
  - destruct (HostType _ =? TypeCNAME)%Z; [by eexists|]. rewrite extend_nil. by eexists.
  - rewrite foldl_clusterip. by eexists.
Qed.

Lemma service_loop sn r zp eps svcs acc el :
  Implements (APIConn k) sn → el = [] ∨ el = eps →
  ∃ el', go_fold (service_step k r zp (Ret eps)) (acc, el) svcs =
    Ret (extend acc (services_found k sn r zp eps svcs), el').
Proof.
  intros Himpl. revert acc el. induction svcs as [|svc svcs IH]; intros acc el Hel.
  - exists el. unfold services_found. simpl. by rewrite extend_nil.
  - destruct (service_step_extend sn r zp eps (acc, el) svc Himpl Hel) as (el1 & Hs & Hel1).
    cbn [go_fold]. rewrite Hs. simpl. destruct (IH (extend acc
      (if bool_decide (selected k sn r svc ∧ served k eps svc)
       then service_found k r zp eps svc else [])) el1 Hel1) as (el2 & Hl).
    exists el2. go_simpl. rewrite Hl, extend_app. do 2 f_equal.
    unfold services_found. rewrite filter_cons. case_bool_decide as Hd.
    + by rewrite decide_True by done.
    + by rewrite decide_False by done.
Qed.

(** The lookup of services, given what its two queries return. *)
Lemma findServices_queries sn r zone svcs eps :
  Implements (APIConn k) sn →
  (if wildcard (r_service r) || wildcard (r_namespace r) then ServiceList (APIConn k)
   else SvcIndex (APIConn k) (ServiceKey (r_service r) (r_namespace r))) = Ret svcs →
  (if wildcard (r_service r) || wildcard (r_namespace r) then EndpointsList (APIConn k)
   else EpIndex (APIConn k) (ServiceKey (r_service r) (r_namespace r))) = Ret eps →
  findServices k r zone = Ret (services_answer k sn r zone svcs eps).
Proof.
  intros Himpl Hsvc Heps. unfold findServices, services_answer, visible, nothing_found.
  rewrite (hidden_spec sn), Hsvc, Heps, !(namespaceExposed_spec k sn) by done.
  destruct (wildcard (r_namespace r)) eqn:Hw.
  - rewrite decide_True by (by left). simpl. go_simpl.
    destruct (r_service r =? "")%string; [by case_bool_decide|].
    rewrite andb_false_r. simpl.
    destruct (service_loop sn r (msg_Path zone coredns) eps svcs ([], Some errNoItems) [] Himpl)
      as (el & ->); [by left|]. done.
  - case_bool_decide as He.
    + rewrite decide_True by (by right). simpl. go_simpl.
      destruct (r_service r =? "")%string; [done|].
      rewrite andb_true_r.
      destruct (service_loop sn r (msg_Path zone coredns) eps svcs
        ([], if wildcard (r_service r) then None else Some errNoItems) [] Himpl)
        as (el & Hl); [by left|]. by destruct (wildcard (r_service r)); simpl; rewrite Hl.
    + rewrite decide_False by (by intros [|]). done.
Qed.

Lemma pod_step_extend sn r zone acc p :
  Implements (APIConn k) sn →
  pod_step k r (msg_Path zone coredns) (pod_ip (r_service r)) acc p =
    Ret (extend acc (if bool_decide (pod_PodIP p = pod_ip (r_service r) ∧ pod_selected k sn r p)
                     then [pod_record k r zone] else [])).
Proof.
  intros Himpl. unfold pod_step. rewrite (skip_spec sn) by done. go_simpl.
  assert (Hsel : bool_decide (pod_selected k sn r p) =
    match_ (r_namespace r) (pod_Namespace p) &&
    negb (wildcard (r_namespace r) && negb (bool_decide (exposed k sn (pod_Namespace p))))).
  { case_bool_decide as Hs; unfold pod_selected in Hs; case_bool_decide as He;
      destruct (match_ _ _), (wildcard (r_namespace r)); naive_solver. }
  rewrite bool_decide_and, Hsel. destruct (wildcard (r_namespace r) && _); simpl.
  { by rewrite !andb_false_r, extend_nil. }
  rewrite andb_true_r. rewrite (bool_decide_ext _ (pod_ip (r_service r) = pod_PodIP p)) by done.
  destruct (String.eqb_spec (pod_ip (r_service r)) (pod_PodIP p)) as [Heq|Hne]; simpl.
  - rewrite bool_decide_eq_true_2 by done. simpl. destruct (match_ _ _); simpl; [done|].
    by rewrite extend_nil.
  - rewrite bool_decide_eq_false_2 by done. simpl. by rewrite extend_nil.
Qed.

Lemma pod_loop sn r zone acc pods :
  Implements (APIConn k) sn →
  go_fold (pod_step k r (msg_Path zone coredns) (pod_ip (r_service r))) acc pods =
    Ret (extend acc (replicate (length (filter (λ p, pod_PodIP p = pod_ip (r_service r) ∧
                                                pod_selected k sn r p) pods))
                       (pod_record k r zone))).
Proof.
  intros Himpl. revert acc. induction pods as [|p pods IH]; intros acc; simpl.
  - by rewrite extend_nil.
  - rewrite (pod_step_extend sn) by done. go_simpl. rewrite IH, extend_app, filter_cons.
    case_bool_decide as Hp.
    + by rewrite decide_True by done.
    + by rewrite decide_False by done.
Qed.

Lemma findPods_answer sn r zone pods :
  Implements (APIConn k) sn →
  podMode k = podModeDisabled ∨ podMode k = podModeInsecure ∨ sn_pods sn = Some pods →
  findPods k r zone = Ret (pods_answer k sn r zone pods).
Proof.
  intros Himpl Hpods. unfold findPods, pods_answer, visible, nothing_found.
  rewrite (hidden_spec sn), !(namespaceExposed_spec k sn) by done.
  destruct (String.eqb_spec (podMode k) podModeDisabled) as [|Hd]; [done|].
  destruct (decide (_ ∨ _)) as [Hv|Hv].
  2:{ destruct (wildcard (r_namespace r)) eqn:Hw; [by destruct Hv; left|].
      rewrite bool_decide_eq_false_2 by tauto. done. }
  assert (Hh : negb (wildcard (r_namespace r)) && negb (bool_decide (exposed k sn (r_namespace r)))
    = false) by (destruct (wildcard (r_namespace r)) eqn:Hw; [done|]; simpl;
      rewrite bool_decide_eq_true_2 by naive_solver; done).
  rewrite Hh. go_simpl. destruct (r_service r =? "")%string.
  { destruct (wildcard (r_namespace r)); [by case_bool_decide|].
    destruct (bool_decide _); [done|]. discriminate Hh. }
  destruct (String.eqb_spec (podMode k) podModeInsecure) as [|Hi].
  { by destruct (decide _). }
  destruct Hpods as [|[|Hpods]]; [done|done|].
  pose proof (impl_pod_index (Implements:=Himpl) (pod_ip (r_service r))) as Hq.
  rewrite Hpods in Hq. destruct Hq as (l & -> & Hl).
  assert (Hlen : length (filter (λ p, pod_PodIP p = pod_ip (r_service r) ∧ pod_selected k sn r p) l)
    = length (filter (λ p, pod_PodIP p = pod_ip (r_service r) ∧ pod_selected k sn r p) pods)).
  { apply Permutation_length. rewrite Hl, list_filter_filter. erewrite list_filter_iff; [done|].
    naive_solver. }
  destruct (wildcard (r_namespace r)).
  - rewrite andb_false_r. go_simpl. by rewrite (pod_loop sn), Hlen.
  - apply negb_false_iff in Hh. rewrite Hh, andb_true_r. go_simpl.
    destruct (wildcard (r_service r)); by rewrite (pod_loop sn), Hlen.
Qed.
End LookupFacts.

Section ScanFacts.
Context `{DnsLib}.
Variable k : Kubernetes.
Variable sn : snapshot.
Variable eps : list Endpoints.
Hypothesis Himpl : Implements (APIConn k) sn.
Hypothesis Hnames : dns_names sn.
Hypothesis Heps : sn_endpoints sn = Some eps.
Implicit Types (r : recordRequest) (svc : Service).

Lemma same_answer_extend e a b : a ≡ₚ b → same_answer (extend ([], e) a) (extend ([], e) b).
Proof.
  intros Hp. split; [done|]. simpl. destruct a, b; try done.
  - by apply Permutation_nil_cons in Hp.
  - symmetry in Hp. by apply Permutation_nil_cons in Hp.
Qed.

(** The records of a service depend on its own endpoints only, up to their order. *)
Lemma service_found_own r zp l1 l2 svc :
  filter (belongs svc) l1 ≡ₚ filter (belongs svc) l2 →
  service_found k r zp l1 svc ≡ₚ service_found k r zp l2 svc.
Proof.
  intros Hp. unfold service_found. destruct (_ || _); [|done].
  by apply concat_fmap_permutation.
Qed.

Lemma podsCount_sum l n :
  foldl (λ n ep, foldl (λ n sub, n + length (es_Addresses sub)) n (eps_Subsets ep)) n l =
    n + length (concat (es_Addresses <$> concat (eps_Subsets <$> l))).
Proof.
  assert (Hin : ∀ subs n, foldl (λ n sub, n + length (es_Addresses sub)) n subs
                 = n + length (concat (es_Addresses <$> subs))).
  { induction subs as [|s subs IH]; intros m; [simpl; lia|].
    cbn [foldl]. rewrite IH, fmap_cons, concat_cons, length_app. lia. }
  revert n. induction l as [|e l IH]; intros n; [simpl; lia|].
  cbn [foldl]. rewrite IH, Hin, fmap_cons, concat_cons, fmap_app, concat_app, length_app. lia.
Qed.

Lemma podsCount_permutation l1 l2 : l1 ≡ₚ l2 → podsCount l1 = podsCount l2.
Proof.
  intros Hp. unfold podsCount. rewrite !podsCount_sum. f_equal.
  apply Permutation_length. by do 2 apply concat_fmap_permutation.
Qed.

(** Matching a name that is not a wildcard is equality, for names in lower case. *)
Lemma match_exact (a b : string) :
  strings.ToLower a = a → wildcard a = false → strings.ToLower b = b → wildcard b = false →
  match_ a b = (a =? b)%string.
Proof.
  intros Ha Hw Hb Hwb. unfold match_. by rewrite Hw, Hwb, EqualFold_lower.
Qed.

(** The index of services holds, for an exact request, the services it selects. *)
Lemma index_selected r svc :
  exact r = true → lower_request r → visible k sn r → no_dot (r_namespace r) →
  svc ∈ sn_services sn →
  svc_Index svc = ServiceKey (r_service r) (r_namespace r) ↔ selected k sn r svc.
Proof.
  unfold exact. intros He%negb_true_iff [Hls Hln] Hv Hnd Hin.
  apply orb_false_iff in He as [Hws Hwn].
  destruct (dn_services sn Hnames svc Hin) as ([? ?] & [? ?] & Hdot & ->).
  unfold selected. rewrite Hwn, !match_exact by done. rewrite !String.eqb_eq.
  unfold ServiceKey. split.
  - intros [-> ->]%key_inj; done.
  - by intros (-> & -> & _).
Qed.

Lemma visible_no_dot r : exact r = true → visible k sn r → no_dot (r_namespace r).
Proof.
  unfold exact. intros He%negb_true_iff Hv. apply orb_false_iff in He as [_ Hwn].
  destruct Hv as [Hw|[_ (n & -> & Hn)%list_elem_of_fmap]]; [congruence|].
  by apply (dn_namespaces sn Hnames).
Qed.

(** The index of endpoints holds those that belong to the service selected. *)
Lemma index_belongs r svc e :
  exact r = true → lower_request r → visible k sn r → svc ∈ sn_services sn →
  selected k sn r svc → e ∈ eps →
  eps_Index e = ServiceKey (r_service r) (r_namespace r) ↔ belongs svc e.
Proof.
  intros Hex Hl Hv Hin Hs He. pose proof (visible_no_dot r Hex Hv) as Hnd.
  pose proof (proj2 (index_selected r svc Hex Hl Hv Hnd Hin) Hs) as Hix.
  destruct (dn_services sn Hnames svc Hin) as (_ & _ & Hdot & Hkey).
  destruct (dn_endpoints sn Hnames eps e Heps He) as [Hde ->].
  rewrite <- Hix, Hkey. unfold belongs, EndpointsKey, ServiceKey. split.
  - by intros [-> ->]%key_inj.
  - by intros [-> ->].
Qed.

(** With the objects of the index for an exact request, the lookup finds what the scan finds. *)
Lemma exact_scan r zp svcs eps' :
  exact r = true → lower_request r → visible k sn r →
  svcs ≡ₚ filter (λ s, svc_Index s = ServiceKey (r_service r) (r_namespace r)) (sn_services sn) →
  eps' ≡ₚ filter (λ e, eps_Index e = ServiceKey (r_service r) (r_namespace r)) eps →
  services_found k sn r zp eps' svcs ≡ₚ reference_records k sn r zp eps.
Proof.
  intros Hex Hl Hv Hsvcs Heps'. unfold services_found, reference_records.
  pose proof (visible_no_dot r Hex Hv) as Hnd.
  rewrite (concat_fmap_permutation _ _ _ (filter_permutation _ _ _ Hsvcs)).
  rewrite list_filter_filter.
  assert (Hown : ∀ svc, svc ∈ sn_services sn → selected k sn r svc →
    eps' ≡ₚ filter (belongs svc) eps).
  { intros svc Hin Hs. rewrite Heps'. erewrite filter_iff_in; [done|]. intros e He.
    by apply (index_belongs r). }
  rewrite (filter_iff_in _ (λ svc, selected k sn r svc ∧ served k (filter (belongs svc) eps) svc)).
  - apply concat_fmap_perm_ext. intros svc [[Hs _] Hin]%list_elem_of_filter.
    apply service_found_own. rewrite (Hown svc) by done. by rewrite list_filter_filter_l.
  - intros svc Hin. rewrite (index_selected r svc) by done.
    assert (Hserved : selected k sn r svc →
      served k eps' svc ↔ served k (filter (belongs svc) eps) svc).
    { intros Hs. unfold served. by rewrite (podsCount_permutation _ _ (Hown svc Hin Hs)). }
    naive_solver.
Qed.

(** A request with a wildcard scans; it finds what the reference finds unless empty services are
    to be left out. *)
Lemma wildcard_scan r zp svcs eps' :
  ignoreEmptyService (opts k) = false → svcs ≡ₚ sn_services sn → eps' ≡ₚ eps →
  services_found k sn r zp eps' svcs ≡ₚ reference_records k sn r zp eps.
Proof.
  intros Hign Hsvcs Heps'. unfold services_found, reference_records.
  rewrite (concat_fmap_permutation _ _ _ (filter_permutation _ _ _ Hsvcs)).
  rewrite (filter_iff_in _ (λ svc, selected k sn r svc ∧ served k (filter (belongs svc) eps) svc)).
  - apply concat_fmap_perm_ext. intros svc _. apply service_found_own. by rewrite Heps'.
  - intros svc _. unfold served. rewrite Hign. naive_solver.
Qed.

(** What the two queries of a lookup return. *)
Lemma queries r :
  ∃ svcs eps',
    (if wildcard (r_service r) || wildcard (r_namespace r) then ServiceList (APIConn k)
     else SvcIndex (APIConn k) (ServiceKey (r_service r) (r_namespace r))) = Ret svcs ∧
    (if wildcard (r_service r) || wildcard (r_namespace r) then EndpointsList (APIConn k)
     else EpIndex (APIConn k) (ServiceKey (r_service r) (r_namespace r))) = Ret eps' ∧
    if exact r then
      svcs ≡ₚ filter (λ s, svc_Index s = ServiceKey (r_service r) (r_namespace r)) (sn_services sn) ∧
      eps' ≡ₚ filter (λ e, eps_Index e = ServiceKey (r_service r) (r_namespace r)) eps
    else svcs ≡ₚ sn_services sn ∧ eps' ≡ₚ eps.
Proof.
  unfold exact. destruct (wildcard _ || wildcard _); simpl.
  - destruct (impl_services (Implements:=Himpl)) as (svcs & -> & ?).
    pose proof (impl_endpoints (Implements:=Himpl)) as He. rewrite Heps in He.
    destruct He as (eps' & -> & ?). eauto 10.
  - destruct (impl_svc_index (Implements:=Himpl) (ServiceKey (r_service r) (r_namespace r)))
      as (svcs & -> & ?).
    pose proof (impl_ep_index (Implements:=Himpl) (ServiceKey (r_service r) (r_namespace r))) as He.
    rewrite Heps in He. destruct He as (eps' & -> & ?). eauto 10.
Qed.

Lemma findServices_scan r zone :
  lower_request r → ignoreEmptyService (opts k) = false ∨ exact r = true →
  ∃ a, findServices k r zone = Ret a ∧ same_answer a (reference_answer k sn r zone eps).
Proof.
  intros Hl Hok. destruct (queries r) as (svcs & eps' & Hs & He & Hp).
  eexists. split; [by eapply findServices_queries|].
  unfold services_answer, reference_answer. destruct (decide (visible k sn r)) as [Hv|]; [|done].
  destruct (r_service r =? "")%string; [done|]. apply same_answer_extend.
  destruct (exact r) eqn:Hex.
  - destruct Hp. by apply exact_scan.
  - destruct Hp, Hok as [|]; [|done]. by apply wildcard_scan.
Qed.

End ScanFacts.

Section ExposedFacts.
Context `{DnsLib}.
Variable k : Kubernetes.
Variable sn : snapshot.
Variable eps : list Endpoints.
Hypothesis Himpl : Implements (APIConn k) sn.
Hypothesis Hlow : lower_namespaces sn.
Hypothesis Heps : sn_endpoints sn = Some eps.
Implicit Types (r : recordRequest) (svc : Service).

(** A namespace that matches the one asked, and is exposed when that is a wildcard, is within reach. *)
Lemma match_reaches r ns :
  lower_request r → visible k sn r → strings.ToLower ns = ns →
  match_ (r_namespace r) ns = true → (wildcard (r_namespace r) = true → exposed k sn ns) →
  reaches k sn r ns.
Proof.
  intros [_ Hl] Hv Hns Hm Hw. destruct (wildcard (r_namespace r)) eqn:Hwn; [left; by apply Hw|].
  destruct (wildcard ns) eqn:Hwns; [by right|]. left.
  rewrite match_exact in Hm by done. apply String.eqb_eq in Hm. rewrite <- Hm.
  destruct Hv as [|]; [congruence|done].
Qed.

(** Every record of a service lookup is of a service of a namespace within reach. *)
Lemma findServices_reaches r zone a s :
  lower_request r → findServices k r zone = Ret a → s ∈ a.1 →
  visible k sn r ∧ ∃ svc eps', svc ∈ sn_services sn ∧ eps' ⊆ eps ∧
    reaches k sn r (svc_Namespace svc) ∧
    s ∈ service_found k r (msg_Path zone coredns) eps' svc.
Proof.
  intros Hl. destruct (queries k sn eps Himpl Heps r) as (svcs & eps' & Hs & He & Hp).
  rewrite (findServices_queries k sn r zone svcs eps') by done. intros [= <-].
  unfold services_answer. destruct (decide (visible k sn r)) as [Hv|];
    [|by intros ?%not_elem_of_nil]. destruct (r_service r =? "")%string;
    [by intros ?%not_elem_of_nil|]. unfold services_found. simpl.
  intros (svc & Hsvc & Hin)%elem_of_concat_fmap. split; [done|].
  apply list_elem_of_filter in Hsvc as [[Hsel _] Hsvc].
  assert (svc ∈ sn_services sn ∧ eps' ⊆ eps) as [Hsvcs Hsub].
  { destruct (exact r); destruct Hp as [Hp1 Hp2]; rewrite Hp1 in Hsvc.
    - apply list_elem_of_filter in Hsvc as [_ Hsvc]. split; [done|]. intros e.
      rewrite Hp2. by intros [_ ?]%list_elem_of_filter.
    - split; [done|]. intros e. by rewrite Hp2. }
  exists svc, eps'. split_and!; [done..| |done].
  destruct Hsel as (Hm & _ & Hw). apply match_reaches; try done. by apply Hlow.
Qed.

Lemma findPods_reaches r zone pods a s :
  lower_request r →
  podMode k = podModeDisabled ∨ podMode k = podModeInsecure ∨ sn_pods sn = Some pods →
  findPods k r zone = Ret a → s ∈ a.1 →
  visible k sn r ∧ podMode k ≠ podModeDisabled ∧
  (podMode k = podModeInsecure ∧ ms_Host s = pod_ip (r_service r) ∨
   ∃ p, p ∈ pods ∧ ms_Host s = pod_PodIP p ∧ reaches k sn r (pod_Namespace p)).
Proof.
  intros Hl Hpods. rewrite (findPods_answer k sn r zone pods) by done. intros [= <-].
  unfold pods_answer. destruct (String.eqb_spec (podMode k) podModeDisabled) as [|Hd];
    [by intros ?%not_elem_of_nil|]. destruct (decide _) as [Hv|];
    [|by intros ?%not_elem_of_nil]. destruct (r_service r =? "")%string;
    [by intros ?%not_elem_of_nil|].
  destruct (String.eqb_spec (podMode k) podModeInsecure) as [Hi|Hi].
  { destruct (decide _); simpl; [by intros ?%not_elem_of_nil|].
    intros ->%list_elem_of_singleton. by auto. }
  intros Hin%elem_of_replicate. simpl in Hin. destruct Hin as [-> Hlen].
  split_and!; [done..|]. right.
  destruct (filter _ pods) as [|p l] eqn:Hf; [done|].
  assert (Hp : p ∈ filter (λ p, pod_PodIP p = pod_ip (r_service r) ∧ pod_selected k sn r p) pods)
    by (rewrite Hf; by left).
  apply list_elem_of_filter in Hp as [[Hip [Hm Hw]] Hp].
  exists p. split_and!; [done..|]. destruct Hpods as [|[|Hpods]]; [done|done|].
  apply match_reaches; try done. by apply (proj2 Hlow pods).
Qed.
End ExposedFacts.

(** * Pod names *)

Lemma Contains_dashes s c :
  text_without "-" s →
  strings.Contains (strings.Replace s c "-"%char) "--" = strings.Contains s (String c (String c "")).
Proof.
  intros Hd. unfold strings.Replace.
  rewrite <- (Contains_map (λ x, if Ascii.eqb x c then "-"%char else x) (String c (String c "")) s).
  - simpl. by rewrite Ascii.eqb_refl.
  - intros x y Hx Hy. simpl in Hx. assert (x = c) as -> by set_solver.
    rewrite Ascii.eqb_refl. destruct (Ascii.eqb_spec y c) as [->|Hne]; [done|].
    intros <-. by destruct Hd.
Qed.

Lemma pod_ip_v4 s : v4_text s → pod_ip (strings.Replace s "."%char "-"%char) = s.
Proof.
  intros (Hd & Hc & Hn & _ & Hdd). unfold pod_ip.
  rewrite Count_Replace, Hn, Contains_dashes, Hdd by done. simpl. by apply Replace_inverse.
Qed.

Lemma pod_ip_v6 s : v6_text s → pod_ip (strings.Replace s ":"%char "-"%char) = s.
Proof.
  intros (Hd & _ & _ & Hn). unfold pod_ip. rewrite Count_Replace, Contains_dashes by done.
  destruct (Z.eqb_spec (strings.Count s ":"%char) 3) as [H3|]; [rewrite (Hn H3)|]; simpl;
    by apply Replace_inverse.
Qed.

(** * What changes of endpoints can change *)

Lemma fmap_view_ext {A B C} (v : A → B) (f g : A → C) (l1 l2 : list A) :
  (∀ x y, v x = v y → f x = g y) → v <$> l1 = v <$> l2 → f <$> l1 = g <$> l2.
Proof.
  intros Hf. revert l2. induction l1 as [|x l1 IH]; intros [|y l2] Hv; try done.
  rewrite !fmap_cons in Hv. injection Hv as Hx Hl. rewrite !fmap_cons. f_equal; [by apply Hf|].
  by apply IH.
Qed.

Lemma endpointHostname_view a b :
  address_view a = address_view b → endpointHostname a false = endpointHostname b false.
Proof. unfold address_view, endpointHostname. intros [= -> ->]. done. Qed.

Section ViewFacts.
Context `{DnsLib}.
Variable k : Kubernetes.
Hypothesis Hmode : endpointNameMode k = false.

Lemma ports_found_view r zp svc a b l1 l2 :
  address_view a = address_view b → port_view <$> l1 = port_view <$> l2 →
  ports_found k r zp svc a l1 = ports_found k r zp svc b l2.
Proof.
  intros Ha Hp. unfold ports_found. rewrite !Hmode, (endpointHostname_view a b Ha).
  injection Ha as -> _. rewrite <- !concat_if_singleton. f_equal.
  eapply fmap_view_ext; [|exact Hp]. intros x y [= Hn Hnum Hproto]. by rewrite Hn, Hnum, Hproto.
Qed.

Lemma endpoints_found_view r zp svc e1 e2 :
  endpoints_view e1 = endpoints_view e2 →
  endpoints_found k r zp svc e1 = endpoints_found k r zp svc e2.
Proof.
  intros Hv. unfold endpoints_found. f_equal. eapply fmap_view_ext; [|exact Hv].
  intros s1 s2 [= Ha Hp]. rewrite <- !concat_if. f_equal. eapply fmap_view_ext; [|exact Ha].
  intros a b Hab. unfold wanted_address.
  rewrite Hmode, (endpointHostname_view a b Hab), (ports_found_view r zp svc a b _ _ Hab Hp). done.
Qed.
End ViewFacts.

Section UnchangedFacts.
Context `{DnsLib}.
Variable k : Kubernetes.
Variables sn1 sn2 : snapshot.
Variables l1 l2 : list Endpoints.
Variables c1 c2 : dnsController.
Hypothesis Hmode : endpointNameMode k = false.
Hypothesis Himpl1 : Implements c1 sn1.
Hypothesis Himpl2 : Implements c2 sn2.
Hypothesis Hun : unchanged_endpoints sn1 sn2 l1 l2.
Implicit Types (r : recordRequest) (svc : Service).

(** Lists of endpoints that are, in some order, the same but for such updates. *)
Definition same_endpoints (a b : list Endpoints) : Prop :=
  ∃ a' b', a ≡ₚ a' ∧ b ≡ₚ b' ∧ Forall2 unchanged a' b'.

Lemma unchanged_filter (P : Endpoints → Prop) `{∀ e, Decision (P e)} (a b : list Endpoints) :
  (∀ e1 e2, unchanged e1 e2 → P e1 ↔ P e2) →
  Forall2 unchanged a b → Forall2 unchanged (filter P a) (filter P b).
Proof.
  intros HP. induction 1 as [|e1 e2 a b He _ IH]; [constructor|]. rewrite !filter_cons.
  specialize (HP e1 e2 He). repeat case_decide; try tauto; by constructor.
Qed.

Lemma same_endpoints_filter (P : Endpoints → Prop) `{∀ e, Decision (P e)} (a b : list Endpoints) :
  (∀ e1 e2, unchanged e1 e2 → P e1 ↔ P e2) →
  same_endpoints a b → same_endpoints (filter P a) (filter P b).
Proof.
  intros HP (a' & b' & Ha & Hb & Hf). exists (filter P a'), (filter P b').
  rewrite Ha, Hb. split_and!; [done..|]. by apply unchanged_filter.
Qed.

Lemma unchanged_view e1 e2 : unchanged e1 e2 → endpoints_view e1 = endpoints_view e2.
Proof.
  intros (_ & _ & _ & He). rewrite endpointsEquivalent_spec in He.
  by injection He as ?%bool_decide_eq_true.
Qed.

Lemma view_addresses e1 e2 :
  endpoints_view e1 = endpoints_view e2 →
  length (concat (es_Addresses <$> eps_Subsets e1)) = length (concat (es_Addresses <$> eps_Subsets e2)).
Proof.
  unfold endpoints_view. generalize (eps_Subsets e1), (eps_Subsets e2).
  induction l as [|x l IH]; intros [|y l'] Hv; try done.
  rewrite !fmap_cons in Hv. injection Hv as Ha _ Hl.
  rewrite !fmap_cons, !concat_cons, !length_app, (IH l' Hl). f_equal.
  apply (f_equal length) in Ha. by rewrite !length_fmap in Ha.
Qed.

Lemma podsCount_same a b : same_endpoints a b → podsCount a = podsCount b.
Proof.
  intros (a' & b' & Ha & Hb & Hf). rewrite (podsCount_permutation _ _ Ha), (podsCount_permutation _ _ Hb).
  unfold podsCount. rewrite !podsCount_sum. f_equal. clear a b Ha Hb.
  induction Hf as [|e1 e2 a b He _ IH]; [done|].
  rewrite !fmap_cons, !concat_cons, !fmap_app, !concat_app, !length_app, IH.
  by rewrite (view_addresses e1 e2) by (by apply unchanged_view).
Qed.

Lemma service_found_same r zp svc a b :
  same_endpoints a b → service_found k r zp a svc ≡ₚ service_found k r zp b svc.
Proof.
  intros Hab. unfold service_found. destruct (_ || _); [|done].
  apply (same_endpoints_filter (belongs svc)) in Hab as (a' & b' & -> & -> & Hf).
  - clear Hun. induction Hf as [|e1 e2 a' b' He _ IH]; [done|]. rewrite !fmap_cons, !concat_cons, IH.
    by rewrite (endpoints_found_view k Hmode r zp svc e1 e2) by (by apply unchanged_view).
  - intros e1 e2 (Hn & Hns & _). unfold belongs. by rewrite Hn, Hns.
Qed.

Lemma exposed_same c c' ns : exposed (over k c) sn1 ns ↔ exposed (over k c') sn2 ns.
Proof. unfold exposed. simpl. by rewrite (ue_namespaces _ _ _ _ Hun). Qed.

Lemma visible_same c c' r : visible (over k c) sn1 r ↔ visible (over k c') sn2 r.
Proof. unfold visible. by rewrite (exposed_same c c'). Qed.

Lemma services_answer_same r zone svcs1 svcs2 a b :
  svcs1 ≡ₚ svcs2 → same_endpoints a b →
  same_answer (services_answer (over k c1) sn1 r zone svcs1 a)
              (services_answer (over k c2) sn2 r zone svcs2 b).
Proof.
  intros Hs Hab. unfold services_answer. pose proof (visible_same c1 c2 r).
  repeat case_decide; try tauto; [|done]. destruct (r_service r =? "")%string; [done|].
  apply same_answer_extend. unfold services_found.
  rewrite (concat_fmap_permutation _ _ _ (filter_permutation _ _ _ Hs)).
  rewrite (filter_iff_in _ (λ svc, selected (over k c2) sn2 r svc ∧ served (over k c2) b svc)).
  - apply concat_fmap_perm_ext. intros svc _.
    change (service_found k r (msg_Path zone coredns) a svc ≡ₚ
            service_found k r (msg_Path zone coredns) b svc). by apply service_found_same.
  - intros svc _. unfold selected, served. rewrite (exposed_same c1 c2), (podsCount_same a b) by done.
    done.
Qed.

Lemma findServices_same r zone :
  ∃ a1 a2, findServices (over k c1) r zone = Ret a1 ∧ findServices (over k c2) r zone = Ret a2 ∧
    same_answer a1 a2.
Proof.
  destruct (queries (over k c1) sn1 l1 Himpl1 (ue_endpoints1 _ _ _ _ Hun) r)
    as (svcs1 & eps1 & Hs1 & He1 & Hp1).
  destruct (queries (over k c2) sn2 l2 Himpl2 (ue_endpoints2 _ _ _ _ Hun) r)
    as (svcs2 & eps2 & Hs2 & He2 & Hp2).
  do 2 eexists. split_and!; [by eapply findServices_queries..|].
  rewrite (ue_services _ _ _ _ Hun) in Hp1. pose proof (ue_unchanged _ _ _ _ Hun) as Hf.
  destruct (exact r); destruct Hp1 as [Hp1 Hq1], Hp2 as [Hp2 Hq2].
  - apply services_answer_same; [by rewrite Hp1, Hp2|].
    do 2 eexists. split_and!; [exact Hq1|exact Hq2|].
    apply unchanged_filter; [|done]. by intros e1 e2 (_ & _ & -> & _).
  - apply services_answer_same; [by rewrite Hp1, Hp2|]. by exists l1, l2.
Qed.

Lemma findPods_same r zone pods :
  podMode k = podModeDisabled ∨ podMode k = podModeInsecure ∨ sn_pods sn1 = Some pods →
  ∃ a, findPods (over k c1) r zone = Ret a ∧ findPods (over k c2) r zone = Ret a.
Proof.
  intros Hpods. exists (pods_answer (over k c1) sn1 r zone pods).
  split; [by apply findPods_answer|]. rewrite (findPods_answer _ sn2 r zone pods) by
    (done || by rewrite <- (ue_pods _ _ _ _ Hun)). f_equal. symmetry.
  unfold pods_answer. pose proof (visible_same c1 c2 r). simpl.
  destruct (podMode k =? podModeDisabled)%string; [done|].
  destruct (decide (visible (over k c1) sn1 r)), (decide (visible (over k c2) sn2 r)); try tauto.
  destruct (r_service r =? "")%string; [done|].
  destruct (podMode k =? podModeInsecure)%string; [done|]. f_equal.
  change (pod_record (over k c1) r zone) with (pod_record (over k c2) r zone). f_equal. f_equal.
  apply filter_iff_in. intros p _. unfold pod_selected. by rewrite (exposed_same c1 c2).
Qed.
End UnchangedFacts.

(** * Examples *)

Definition ex_meta (name ns : string) : ObjectMeta := mkMeta name ns "1" None ∅.
Definition ex_service (name ns ip : string) : Service :=
  mkService "1" name ns (ServiceKey name ns) ip "ClusterIP" "" [mkServicePort "http" "tcp" 80] [].
Definition ex_endpoints (name ns ip host target : string) : Endpoints :=
  mkEndpoints "1" name ns (EndpointsKey name ns) [ip]
    [mkSubset [mkAddress ip host "node1" target] [mkEndpointPort 80 "http" "tcp"]].
Definition ex_pod (name ns ip : string) : Pod := mkPod "1" ip name ns.

(** A service with a cluster IP, a headless one, and one in a namespace that is not exposed. *)
Definition ex_snapshot : snapshot :=
  mkSnapshot
    [ex_service "svc1" "testns" "10.0.0.1"; ex_service "hdls1" "testns" "None";
     ex_service "svc1" "unexposedns" "10.0.0.2"]
    (Some [ex_pod "web-0" "testns" "10.240.0.1"; ex_pod "db-0" "unexposedns" "10.240.0.2"])
    (Some [ex_endpoints "hdls1" "testns" "172.0.0.2" "" "web-0";
           ex_endpoints "svc1" "testns" "172.0.0.1" "ep1a" ""])
    [mkApiNamespace (ex_meta "testns" "")].

Definition ex_opts : dnsControlOpts := mkOpts true true false None None ["cluster.local."] false false.
Definition ex_kubernetes (sn : snapshot) (mode : string) : Kubernetes :=
  mkKubernetes ["cluster.local."] (static sn) ∅ mode false 5 ex_opts 0 [[127;0;0;1]%Z] [] [] 0.

(** [no_dot] as a test. *)
Definition no_dotb (s : string) : bool := negb (existsb (Ascii.eqb ".") (String.list_ascii_of_string s)).
Lemma no_dotb_spec s : no_dotb s = true → no_dot s.
Proof.
  unfold no_dotb, no_dot. intros Hs%negb_true_iff Hin.
  pose proof (proj1 (existsb_false_forall _ _) Hs _ Hin) as He. by rewrite Ascii.eqb_refl in He.
Qed.

Definition dns_namesb (sn : snapshot) : bool :=
  let name s := (strings.ToLower s =? s)%string && negb (wildcard s) in
  forallb (λ s, name (svc_Name s) && name (svc_Namespace s) && no_dotb (svc_Namespace s)
                && (svc_Index s =? ServiceKey (svc_Name s) (svc_Namespace s))%string) (sn_services sn)
  && forallb (λ e, no_dotb (eps_Namespace e)
                   && (eps_Index e =? EndpointsKey (eps_Name e) (eps_Namespace e))%string)
       (default [] (sn_endpoints sn))
  && forallb (λ p, name (pod_Namespace p)) (default [] (sn_pods sn))
  && forallb (λ n, no_dotb (ns_name n)) (sn_namespaces sn).

Lemma dns_namesb_spec sn : dns_namesb sn = true → dns_names sn.
Proof.
  unfold dns_namesb, object_name. rewrite !andb_true_iff, !forallb_forall.
  intros (((Hs & He) & Hp) & Hn). constructor.
  - intros s Hin%list_elem_of_In. specialize (Hs s Hin). go_bool.
    destruct Hs as [[[[? ?] [? ?]] ?] ?]. repeat split; auto using no_dotb_spec.
  - intros l e Hl Hin%list_elem_of_In. rewrite Hl in He. specialize (He e Hin). go_bool.
    destruct He. split; auto using no_dotb_spec.
  - intros l p Hl Hin%list_elem_of_In. rewrite Hl in Hp. specialize (Hp p Hin). by go_bool.
  - intros n Hin%list_elem_of_In. apply no_dotb_spec. by apply Hn.
Qed.

Lemma ex_snapshot_names : dns_names ex_snapshot.
Proof. by apply dns_namesb_spec. Qed.

(** The query for a name that a request prints as, answered by the scans. *)
Lemma Records_scan `{DnsLaws} k sn state r eps pods :
  Implements (APIConn k) sn → dns_names sn → sn_endpoints sn = Some eps →
  podMode k = podModeDisabled ∨ podMode k = podModeInsecure ∨ sn_pods sn = Some pods →
  ignoreEmptyService (opts k) = false ∨ exact r = true →
  printable r → lower_request r → normal_zone (rq_Zone state) →
  rq_Name state = qualify (labels_of r) (rq_Zone state) → (IsReverse (rq_Name state) <= 0)%Z →
  ∃ a, Records k state = Ret a ∧
    same_answer a
      (if decide (visible k sn r) then
         if (r_podOrSvc r =? PodLabel)%string then pods_answer k sn r (rq_Zone state) pods
         else reference_answer k sn r (rq_Zone state) eps
       else ([], Some errNsNotExposed)).
Proof.
  intros Himpl Hnames Heps Hpods Hok Hr Hl Hz Hname Hrev. unfold Records.
  rewrite Hname, (parse_printed r) by done. rewrite Hname in Hrev. go_simpl.
  destruct Hr as [Ht _ _ _ _ _]. destruct (String.eqb_spec (r_podOrSvc r) "") as [He|].
  { rewrite He in Ht. by destruct Ht. }
  destruct (Z.ltb_spec 0 (IsReverse (qualify (labels_of r) (rq_Zone state)))); [lia|].
  rewrite (hidden_spec k sn) by done. go_simpl.
  assert (Hfound : ∃ a,
    (if (r_podOrSvc r =? PodLabel)%string then findPods k r (rq_Zone state)
     else findServices k r (rq_Zone state)) = Ret a ∧
    same_answer a (if (r_podOrSvc r =? PodLabel)%string then pods_answer k sn r (rq_Zone state) pods
                   else reference_answer k sn r (rq_Zone state) eps)).
  { destruct (r_podOrSvc r =? PodLabel)%string.
    - rewrite (findPods_answer k sn r _ pods) by done. by eexists.
    - by apply (findServices_scan k sn eps). }
  destruct (decide (visible k sn r)) as [[Hw|He]|Hv].
  - by rewrite Hw.
  - rewrite bool_decide_eq_true_2 by done. by rewrite andb_false_r.
  - rewrite bool_decide_eq_false_2 by (intros ?; apply Hv; by right).
    destruct (wildcard (r_namespace r)) eqn:Hw; [by destruct Hv; left|]. by eexists.
Qed.

(** * Properties *)

(** What a service lookup answers. For any controller that keeps the contract of the interface,
    objects with names as Kubernetes allows and a request in lower case, the lookup returns, up to
    the order of the records, what a scan of every cached service with its own endpoints gives:
    nothing and [errNoItems] when the namespace is not exposed; nothing when no service is named;
    otherwise the records of every selected service that is served, and when there are none NODATA
    for a wildcard service in a named namespace and [errNoItems] elsewhere. In particular the two
    indices used for a request without wildcards find what the scan finds. Empty services are left
    out as the option asks when the request has no wildcard. *)
Theorem findServices_reference `{DnsLib} k sn r zone eps :
  Implements (APIConn k) sn → dns_names sn → sn_endpoints sn = Some eps → lower_request r →
  ignoreEmptyService (opts k) = false ∨ exact r = true →
  ∃ a, findServices k r zone = Ret a ∧ same_answer a (reference_answer k sn r zone eps).
Proof. intros. by apply findServices_scan. Qed.

Lemma findServices_reference_witness :
  let r := mkRecordRequest "http" "tcp" "" "*" "testns" "svc" in
  ∃ a, findServices (ex_kubernetes ex_snapshot podModeDisabled) r "cluster.local." = Ret a ∧
    same_answer a ([mkMsg "10.0.0.1" 80 0 0 "" 5 "/c/local/cluster/svc/testns/svc1";
                    mkMsg "172.0.0.2" 80 0 0 "" 5 "/c/local/cluster/svc/testns/hdls1/172-0-0-2"], None).
Proof.
  exact (findServices_reference (ex_kubernetes ex_snapshot podModeDisabled) ex_snapshot
    (mkRecordRequest "http" "tcp" "" "*" "testns" "svc") "cluster.local." _
    (static_implements ex_snapshot) ex_snapshot_names eq_refl (conj eq_refl eq_refl) (or_introl eq_refl)).
Defined.

(** What a pod lookup answers, in each mode: nothing and [errNoItems] when pods are disabled or
    the namespace is not exposed; nothing when no pod is named; in insecure mode the address the
    name spells, if it is one, whether or not such a pod exists; in verified mode that address once
    for each cached pod that has it, in the namespace asked or, for a wildcard, in an exposed one. *)
Theorem findPods_spec `{DnsLib} k sn r zone pods :
  Implements (APIConn k) sn →
  podMode k = podModeDisabled ∨ podMode k = podModeInsecure ∨ sn_pods sn = Some pods →
  findPods k r zone = Ret (pods_answer k sn r zone pods).
Proof. apply findPods_answer. Qed.

Lemma findPods_spec_witness :
  findPods (ex_kubernetes ex_snapshot podModeVerified)
    (mkRecordRequest "*" "*" "" "10-240-0-1" "testns" "pod") "cluster.local."
    = Ret ([mkMsg "10.240.0.1" 0 0 0 "" 5 "/c/local/cluster/pod/testns/10-240-0-1"], None).
Proof.
  exact (findPods_spec (ex_kubernetes ex_snapshot podModeVerified) ex_snapshot
    (mkRecordRequest "*" "*" "" "10-240-0-1" "testns" "pod") "cluster.local." _
    (static_implements ex_snapshot) (or_intror (or_intror eq_refl))).
Defined.

(** C13: what namespaces a lookup can reach into. Whatever the query, wildcards included, the
    namespace asked is a wildcard or exposed, and every record of an answer is that of a cached
    service or, for a pod name, the address of a cached pod, of an exposed namespace, with one
    exception: a namespace whose own name is a wildcard ([any]) can be reached, exposed or not, by a
    query that asks for an exposed namespace by name, since [match] takes it for the one asked
    ([any_namespace_leaks] is such a query). In insecure mode a pod name is answered with the
    address it spells. *)
Theorem Records_exposed `{DnsLib} k sn state r a eps pods :
  Implements (APIConn k) sn → lower_namespaces sn → sn_endpoints sn = Some eps →
  podMode k = podModeDisabled ∨ podMode k = podModeInsecure ∨ sn_pods sn = Some pods →
  parseRequest (rq_Name state) (rq_Zone state) = Ret (r, None) → lower_request r →
  Records k state = Ret a → ∀ s, s ∈ a.1 →
  visible k sn r ∧
  if (r_podOrSvc r =? PodLabel)%string then
    podMode k ≠ podModeDisabled ∧
    (podMode k = podModeInsecure ∧ ms_Host s = pod_ip (r_service r) ∨
     ∃ p, p ∈ pods ∧ ms_Host s = pod_PodIP p ∧ reaches k sn r (pod_Namespace p))
  else
    ∃ svc eps', svc ∈ sn_services sn ∧ eps' ⊆ eps ∧ reaches k sn r (svc_Namespace svc) ∧
      s ∈ service_found k r (msg_Path (rq_Zone state) coredns) eps' svc.
Proof.
  intros Himpl Hlow Heps Hpods Hr Hl Ha s Hs. unfold Records in Ha. rewrite Hr in Ha. go_simpl.
  destruct (r_podOrSvc r =? "")%string; [injection Ha as <-; by apply not_elem_of_nil in Hs|].
  destruct (0 <? IsReverse (rq_Name state))%Z; [injection Ha as <-; by apply not_elem_of_nil in Hs|].
  rewrite (hidden_spec k sn) in Ha by done.
  destruct (negb _ && _); [injection Ha as <-; by apply not_elem_of_nil in Hs|].
  destruct (r_podOrSvc r =? PodLabel)%string.
  - by apply (findPods_reaches k sn Himpl Hlow r (rq_Zone state) pods a s Hl Hpods Ha Hs).
  - by apply (findServices_reaches k sn eps Himpl Hlow Heps r (rq_Zone state) a s Hl Ha Hs).
Qed.

(** A cluster with a namespace [any] that is not exposed, beside an exposed one. *)
Definition ex_any_snapshot : snapshot :=
  mkSnapshot [ex_service "secret" "any" "10.0.0.3"; ex_service "svc1" "testns" "10.0.0.1";
              ex_service "svc1" "hidden" "10.0.0.2"] (Some []) (Some [])
    [mkApiNamespace (ex_meta "testns" ""); mkApiNamespace (ex_meta "any" "")].

Lemma Records_exposed_witness :
  ∃ a s, Records (ex_kubernetes ex_any_snapshot podModeVerified)
           (mkRequest "*.testns.svc.cluster.local." "*.testns.svc.cluster.local." TypeA "10.0.0.9"
              "cluster.local.") = Ret a ∧
    s ∈ a.1 ∧ ms_Host s = "10.0.0.3" ∧
    ∃ svc, svc ∈ sn_services ex_any_snapshot ∧
      reaches (ex_kubernetes ex_any_snapshot podModeVerified) ex_any_snapshot
        (mkRecordRequest "*" "*" "" "*" "testns" "svc") (svc_Namespace svc).
Proof.
  set (secret := mkMsg "10.0.0.3" 80 0 0 "" 5 "/c/local/cluster/svc/any/secret").
  set (web := mkMsg "10.0.0.1" 80 0 0 "" 5 "/c/local/cluster/svc/testns/svc1").
  exists ([secret; web], None), secret.
  assert (Ha : Records (ex_kubernetes ex_any_snapshot podModeVerified)
    (mkRequest "*.testns.svc.cluster.local." "*.testns.svc.cluster.local." TypeA "10.0.0.9"
       "cluster.local.") = Ret ([secret; web], None)) by (vm_compute; reflexivity).
  split; [exact Ha|]. split; [left|]. split; [reflexivity|].
  assert (Hlow : lower_namespaces ex_any_snapshot).
  { split; [|by intros l p [= <-] ?%not_elem_of_nil].
    intros svc. unfold ex_any_snapshot. simpl. rewrite !elem_of_cons.
    intros [->|[->|[->|?%not_elem_of_nil]]]; done. }
  destruct (Records_exposed (H:=SimpleDns.lib) (ex_kubernetes ex_any_snapshot podModeVerified)
    ex_any_snapshot
    (mkRequest "*.testns.svc.cluster.local." "*.testns.svc.cluster.local." TypeA "10.0.0.9" "cluster.local.")
    (mkRecordRequest "*" "*" "" "*" "testns" "svc") _ _ _ (static_implements ex_any_snapshot)
    Hlow eq_refl (or_intror (or_intror eq_refl)) eq_refl (conj eq_refl eq_refl) Ha secret
    (list_elem_of_here _ _)) as [_ (svc & eps' & Hin & _ & He & _)]. by exists svc.
Defined.

(** C16: looking up the name of a service or a pod, end to end. For a request that names one (plain
    labels in lower case, not a reverse name), the query made of its labels below the zone is
    answered by the pod lookup or, up to the order of the records, by the scan of the services; a
    namespace that is not exposed is the error [errNsNotExposed]. Nothing panics on the way. *)
Theorem Records_lookup `{DnsLaws} k sn state r eps pods :
  Implements (APIConn k) sn → dns_names sn → sn_endpoints sn = Some eps →
  podMode k = podModeDisabled ∨ podMode k = podModeInsecure ∨ sn_pods sn = Some pods →
  ignoreEmptyService (opts k) = false ∨ exact r = true →
  printable r → lower_request r → normal_zone (rq_Zone state) →
  rq_Name state = qualify (labels_of r) (rq_Zone state) → (IsReverse (rq_Name state) <= 0)%Z →
  ∃ a, Records k state = Ret a ∧
    same_answer a
      (if decide (visible k sn r) then
         if (r_podOrSvc r =? PodLabel)%string then pods_answer k sn r (rq_Zone state) pods
         else reference_answer k sn r (rq_Zone state) eps
       else ([], Some errNsNotExposed)).
Proof. apply Records_scan. Qed.

Lemma Records_lookup_witness :
  ∃ a, Records (ex_kubernetes ex_snapshot podModeDisabled)
         (mkRequest "ep1a.svc1.testns.svc.cluster.local." "ep1a.svc1.testns.svc.cluster.local."
            TypeA "10.0.0.9" "cluster.local.") = Ret a ∧
    same_answer a ([mkMsg "172.0.0.1" 80 0 0 "" 5 "/c/local/cluster/svc/testns/svc1/ep1a"], None).
Proof.
  destruct (Records_lookup (ex_kubernetes ex_snapshot podModeDisabled) ex_snapshot
    (mkRequest "ep1a.svc1.testns.svc.cluster.local." "ep1a.svc1.testns.svc.cluster.local."
       TypeA "10.0.0.9" "cluster.local.") (mkRecordRequest "*" "*" "ep1a" "svc1" "testns" "svc")
    _ [] (static_implements ex_snapshot) ex_snapshot_names eq_refl (or_introl eq_refl) (or_introl eq_refl))
    as (a & Ha & Hs).
  - constructor; [by right|by split|by split|right; by repeat split|done|done].
  - by split.
  - exists ["cluster"; "local"]. split; [done|]. split; [|done]. repeat constructor; done.
  - reflexivity.
  - by vm_compute.
  - exists a. split; [exact Ha|exact Hs].
Defined.

(** C36: a pod name or an endpoint name stands for its address. The name the plugin gives an address
    that has no host name, when pod names are not used, is read back by the pod lookup as the same
    address, for a dotted IPv4 address and for an IPv6 address. *)
Theorem pod_name_roundtrip (addr : EndpointAddress) :
  ea_Hostname addr = "" → v4_text (ea_IP addr) ∨ v6_text (ea_IP addr) →
  pod_ip (endpointHostname addr false) = ea_IP addr.
Proof.
  intros Hh Hip. unfold endpointHostname. rewrite Hh. simpl. destruct Hip as [Hip|Hip].
  - pose proof Hip as (_ & _ & _ & -> & _). by apply pod_ip_v4.
  - pose proof Hip as (_ & -> & -> & _). by apply pod_ip_v6.
Qed.

Lemma pod_name_roundtrip_witness :
  pod_ip (endpointHostname (mkAddress "10.240.0.1" "" "node1" "web-0") false) = "10.240.0.1" ∧
  pod_ip (endpointHostname (mkAddress "1234:abcd::2" "" "node1" "") false) = "1234:abcd::2".
Proof.
  split.
  - apply (pod_name_roundtrip (mkAddress "10.240.0.1" "" "node1" "web-0")); [reflexivity|left].
    split_and!; try reflexivity; intros Hin; vm_compute in Hin; set_solver.
  - apply (pod_name_roundtrip (mkAddress "1234:abcd::2" "" "node1" "")); [reflexivity|right].
    split_and!; try reflexivity; intros Hin; vm_compute in Hin; set_solver.
Defined.

(** C37: endpoints that count as unchanged answer alike, when endpoints are named by address
    ([endpoint_pod_names] not set). With the same configuration over two states of the caches that
    differ in endpoints objects only, each the same object with an update that
    [endpointsEquivalent] takes for no change, every query has the same answer, up to the order of
    its records. So not moving the serial of the zone for such an update hides no change of the
    answers. With [endpoint_pod_names] this is false: [equivalent_endpoints_differ]. *)
Theorem equivalent_endpoints_answer `{DnsLib} k sn1 sn2 l1 l2 c1 c2 pods state a1 :
  endpointNameMode k = false → Implements c1 sn1 → Implements c2 sn2 →
  unchanged_endpoints sn1 sn2 l1 l2 →
  podMode k = podModeDisabled ∨ podMode k = podModeInsecure ∨ sn_pods sn1 = Some pods →
  Records (over k c1) state = Ret a1 →
  ∃ a2, Records (over k c2) state = Ret a2 ∧ same_answer a1 a2.
Proof.
  intros Hm Hi1 Hi2 Hun Hpods. unfold Records.
  destruct (parseRequest _ _) as [[r [e|]]| |]; go_simpl; [by intros [= <-]; eexists| |done|done].
  destruct (r_podOrSvc r =? "")%string; [by intros [= <-]; eexists|].
  destruct (0 <? IsReverse (rq_Name state))%Z; [by intros [= <-]; eexists|].
  rewrite (hidden_spec (over k c1) sn1), (hidden_spec (over k c2) sn2) by done. go_simpl.
  rewrite (bool_decide_ext _ _ (exposed_same k sn1 sn2 l1 l2 Hun c1 c2 (r_namespace r))).
  destruct (negb _ && _); [by intros [= <-]; eexists|].
  destruct (r_podOrSvc r =? PodLabel)%string.
  - destruct (findPods_same k sn1 sn2 l1 l2 c1 c2 Hi1 Hi2 Hun r (rq_Zone state) pods Hpods)
      as (a & -> & ->). intros [= <-]. by exists a.
  - destruct (findServices_same k sn1 sn2 l1 l2 c1 c2 Hm Hi1 Hi2 Hun r (rq_Zone state))
      as (b1 & b2 & -> & -> & Hs). intros [= <-]. by exists b2.
Qed.

(** The endpoints of the headless service of [ex_snapshot], before and after an update. *)
Definition ex_targets (target : string) : snapshot :=
  mkSnapshot (sn_services ex_snapshot) (sn_pods ex_snapshot)
    (Some [ex_endpoints "hdls1" "testns" "172.0.0.2" "" target]) (sn_namespaces ex_snapshot).

Definition ex_headless_request : Request :=
  mkRequest "hdls1.testns.svc.cluster.local." "hdls1.testns.svc.cluster.local." TypeA "10.0.0.9"
    "cluster.local.".

Lemma equivalent_endpoints_answer_witness :
  ∃ a, Records (ex_kubernetes (ex_targets "web-1") podModeVerified) ex_headless_request = Ret a ∧
    same_answer ([mkMsg "172.0.0.2" 80 0 0 "" 5 "/c/local/cluster/svc/testns/hdls1/172-0-0-2"], None) a.
Proof.
  apply (equivalent_endpoints_answer (ex_kubernetes (ex_targets "web-0") podModeVerified)
    (ex_targets "web-0") (ex_targets "web-1")
    [ex_endpoints "hdls1" "testns" "172.0.0.2" "" "web-0"]
    [ex_endpoints "hdls1" "testns" "172.0.0.2" "" "web-1"]
    (static (ex_targets "web-0")) (static (ex_targets "web-1"))
    (default [] (sn_pods ex_snapshot)) ex_headless_request); try reflexivity.
  - apply static_implements.
  - apply static_implements.
  - constructor; try reflexivity. repeat constructor.
  - right. right. reflexivity.
Defined.

(** * Behaviours worth knowing *)

(** With [endpoint_pod_names], a query is answered differently after an update that
    [endpointsEquivalent] takes for no change. *)
Theorem equivalent_endpoints_differ :
  let k sn := mkKubernetes ["cluster.local."] (static sn) ∅ podModeDisabled true 5 ex_opts 0 [] [] [] 0 in
  let record key := mkMsg "172.0.0.2" 80 0 0 "" 5 key in
  endpointsEquivalent (Some (ex_endpoints "hdls1" "testns" "172.0.0.2" "" "web-0"))
                      (Some (ex_endpoints "hdls1" "testns" "172.0.0.2" "" "web-1")) = Ret true ∧
  Records (k (ex_targets "web-0")) ex_headless_request =
    Ret ([record "/c/local/cluster/svc/testns/hdls1/web-0"], None) ∧
  Records (k (ex_targets "web-1")) ex_headless_request =
    Ret ([record "/c/local/cluster/svc/testns/hdls1/web-1"], None).
Proof. split_and!; vm_compute; reflexivity. Qed.

(** A service in a namespace called [any] answers the wildcard queries of every other namespace,
    and it is not asked whether that namespace is exposed. *)
Theorem any_namespace_leaks :
  let sn := mkSnapshot [ex_service "secret" "any" "10.0.0.3"] (Some []) (Some [])
              [mkApiNamespace (ex_meta "testns" ""); mkApiNamespace (ex_meta "any" "")] in
  let k := mkKubernetes ["cluster.local."] (static sn) {[ "testns" ]} podModeDisabled false 5 ex_opts
             0 [] [] [] 0 in
  ¬ exposed k sn "any" ∧
  findServices k (mkRecordRequest "*" "*" "" "*" "testns" "svc") "cluster.local." =
    Ret ([mkMsg "10.0.0.3" 80 0 0 "" 5 "/c/local/cluster/svc/any/secret"], None).
Proof.
  split; [|vm_compute; reflexivity].
  intros [[He|He] _]; [|set_solver]. assert ("testns" ∈ (∅ : gset string)) by (rewrite <- He; set_solver).
  set_solver.
Qed.

(** Without the cache of endpoints (the directive [noendpoints]), a lookup of a headless service
    panics. *)
Theorem noendpoints_panics :
  let sn := mkSnapshot [ex_service "hdls1" "testns" "None"] None None
              [mkApiNamespace (ex_meta "testns" "")] in
  findServices (ex_kubernetes sn podModeDisabled)
    (mkRecordRequest "*" "*" "" "hdls1" "testns" "svc") "cluster.local." = Panic.
Proof. vm_compute. reflexivity. Qed.

(** [ignore empty_service] hides a service without endpoints from a request that names it, and not
    from a wildcard request, as long as any service has an endpoint. *)
Theorem empty_service_wildcard :
  let sn := mkSnapshot [ex_service "empty" "testns" "10.0.0.4"] None
              (Some [ex_endpoints "other" "testns" "172.0.0.9" "" ""])
              [mkApiNamespace (ex_meta "testns" "")] in
  let k := mkKubernetes ["cluster.local."] (static sn) ∅ podModeDisabled false 5
             (mkOpts true true true None None ["cluster.local."] false false) 0 [] [] [] 0 in
  findServices k (mkRecordRequest "*" "*" "" "empty" "testns" "svc") "cluster.local."
    = Ret ([], Some errNoItems) ∧
  findServices k (mkRecordRequest "*" "*" "" "*" "testns" "svc") "cluster.local."
    = Ret ([mkMsg "10.0.0.4" 80 0 0 "" 5 "/c/local/cluster/svc/testns/empty"], None).
Proof. split; vm_compute; reflexivity. Qed.
