(* ===== verification/Backend.v ===== *)
(** The lookups for the other parts of CoreDNS: the names of the server itself (ns.go), [Services]
    (kubernetes.go), reverse lookups (reverse.go), external addresses (external.go), search paths
    (autopath.go) and metadata (metadata.go). *)
From stdpp Require Import prelude strings gmap sets list.
From Stdlib Require Import Ascii.
From S2P Require Import Prelude GoStd Object Controller Deps Kubernetes Parse Records.

Definition defaultNSName : string := "ns.dns.".

Definition isDefaultNS (name zone : string) : bool :=
  (strings.Index name defaultNSName =? 0)%Z
  && (strings.Index name zone =? Z.of_nat (String.length defaultNSName))%Z.

(** [net.IP.IsLoopback] is not needed here: [localIPs] is what [boundIPs] returned. *)

Section Backend.
Context `{DnsLib}.
Variable k : Kubernetes.

(** * The names of the server (ns.go) *)

(** [svcNames] and [svcIPs], which grow together. *)
Abbreviation named := (list string * list net.IP)%type.

Definition add_named (acc : named) (name : string) (ip : net.IP) : named :=
  (acc.1 ++ [name], acc.2 ++ [ip]).

(** The body of the loop over the services of an endpoints object. *)
Definition ns_service_step (external : bool) (zone : string) (endpoint : Endpoints)
    (acc : named) (svc : Service) : named :=
  if external then
    let svcName := strings.Join [svc_Name svc; svc_Namespace svc; zone] "." in
    foldl (λ acc exIP, add_named acc svcName (net.ParseIP exIP)) acc (svc_ExternalIPs svc)
  else
    let svcName := strings.Join [svc_Name svc; svc_Namespace svc; SvcLabel; zone] "." in
    if (svc_ClusterIP svc =? ClusterIPNone)%string then
      foldl (λ acc s,
        foldl (λ acc a, add_named acc (endpointHostname a (endpointNameMode k) +:+ "." +:+ svcName)
                          (net.ParseIP (ea_IP a))) acc (es_Addresses s))
        acc (eps_Subsets endpoint)
    else add_named acc svcName (net.ParseIP (svc_ClusterIP svc)).

Definition ns_endpoint_step (external : bool) (zone : string) (acc : named) (endpoint : Endpoints) :
    outcome named :=
  svcs ← SvcIndex (APIConn k) (ServiceKey (eps_Name endpoint) (eps_Namespace endpoint));
  mret (foldl (ns_service_step external zone endpoint) acc svcs).

Definition ns_ip_step (external : bool) (zone : string) (acc : named) (localIP : net.IP) :
    outcome named :=
  endpoints ← EpIndexReverse (APIConn k) (net.IP_String localIP);
  go_fold (ns_endpoint_step external zone) acc endpoints.

(** The record of a name and an address. *)
Definition ns_rr (name : string) (ip : net.IP) : RR :=
  if decide (net.To4 ip = []) then RR_AAAA (mkHdr name TypeAAAA ClassINET 0) ip
  else RR_A (mkHdr name TypeA ClassINET 0) ip.

(** [for i, ip := range svcIPs { ... rrs[i] = rr }] *)
Fixpoint ns_rrs (svcNames : list string) (i : nat) (svcIPs : list net.IP) (rrs : list RR) :
    outcome (list RR) :=
  match svcIPs with
  | [] => Ret rrs
  | ip :: svcIPs' =>
      name ← go_index svcNames i;
      rrs' ← go_set rrs i (ns_rr name ip);
      ns_rrs svcNames (S i) svcIPs' rrs'
  end.

Definition nil_rr : RR := RR_other (mkHdr "" 0 0 0) "".

Definition nsAddrs (external : bool) (zone : string) : outcome (list RR) :=
  '(svcNames, svcIPs) ← go_fold (ns_ip_step external zone) ([], []) (localIPs k);
  '(svcNames, svcIPs) ←
    (if (length svcIPs =? 0)%nat then
       svcIPs ← go_fill [] id (localIPs k);
       svcNames ← go_fill "" (λ _, defaultNSName +:+ zone) (localIPs k);
       mret (svcNames, svcIPs)
     else mret (svcNames, svcIPs));
  ns_rrs svcNames 0 svcIPs (replicate (length svcIPs) nil_rr).

(** * Services (kubernetes.go) *)

Definition text_service (host text key : string) (ttl : Z) : msg_Service :=
  mkMsg host 0 0 0 text ttl key.

(** The services made of the server's own records: of the types wanted, under the key of each
    record's name or of the query. The type assertion on a record of type A always holds. *)
Definition ns_services (want : Z → bool) (key : RR → string) (nss : list RR) : list msg_Service :=
  foldl (λ svcs ns,
    match ns with
    | RR_A h ip =>
        if want TypeA then svcs ++ [text_service (net.IP_String ip) "" (key ns) (ttl k)] else svcs
    | RR_AAAA h ip =>
        if want TypeAAAA then svcs ++ [text_service (net.IP_String ip) "" (key ns) (ttl k)] else svcs
    | RR_other _ _ => svcs
    end) [] nss.

Definition Services (state : Request) : outcome answer :=
  if (rq_QType state =? TypeTXT)%Z then
    let t := TrimZone (rq_Name state) (rq_Zone state) in
    let segs := SplitDomainName t in
    if negb (length segs =? 1)%nat then mret ([], None)
    else
      s0 ← go_index segs 0;
      if negb (s0 =? "dns-version")%string then mret ([], None)
      else mret ([text_service "" DNSSchemaVersion (msg_Path (rq_QName state) coredns) 28800], None)
  else if (rq_QType state =? TypeNS)%Z then
    nss ← nsAddrs false (rq_Zone state);
    mret (ns_services (λ _, true) (λ ns, msg_Path (h_Name (Header ns)) coredns) nss, None)
  else if isDefaultNS (rq_Name state) (rq_Zone state) then
    nss ← nsAddrs false (rq_Zone state);
    mret (ns_services (λ t, (rq_QType state =? t)%Z) (λ _, msg_Path (rq_QName state) coredns) nss, None)
  else
    '(s, e) ← Records k state;
    if negb (rq_QType state =? TypeSRV)%Z then mret (s, e)
    else mret (foldl (λ internal svc,
                 if negb (HostType (ms_Host svc) =? TypeCNAME)%Z then internal ++ [svc]
                 else internal) [] s, e).

(** * Reverse lookups (reverse.go) *)

(** [k.Zones[k.primaryZoneIndex]] *)
Definition primaryZone : outcome string := go_index (Zones k) (primaryZoneIndex k).

(** [len(k.Namespaces) > 0 && !k.namespaceExposed(ns)] *)
Definition reverse_hidden (ns : string) : outcome bool :=
  and_call (0 <? size (Namespaces k))%nat (call_not (namespaceExposed k ns)).

Definition host_only (host : string) : msg_Service := mkMsg host 0 0 0 "" (ttl k) "".

(** The first loop returns at its first service that is not hidden. *)
Fixpoint reverse_services (svcs : list Service) : outcome (option msg_Service) :=
  match svcs with
  | [] => Ret None
  | service :: svcs' =>
      h ← reverse_hidden (svc_Namespace service);
      if (h : bool) then reverse_services svcs'
      else
        zone ← primaryZone;
        mret (Some (host_only (strings.Join [svc_Name service; svc_Namespace service; SvcLabel; zone] ".")))
  end.

Definition reverse_address_step (ip : string) (ep : Endpoints) (svcs : list msg_Service)
    (addr : EndpointAddress) : outcome (list msg_Service) :=
  if (ea_IP addr =? ip)%string then
    zone ← primaryZone;
    mret (svcs ++ [host_only (strings.Join
           [endpointHostname addr (endpointNameMode k); eps_Name ep; eps_Namespace ep; SvcLabel; zone] ".")])
  else mret svcs.

Definition reverse_endpoint_step (ip : string) (svcs : list msg_Service) (ep : Endpoints) :
    outcome (list msg_Service) :=
  h ← reverse_hidden (eps_Namespace ep);
  if (h : bool) then mret svcs
  else go_fold (λ svcs eps, go_fold (reverse_address_step ip ep) svcs (es_Addresses eps))
         svcs (eps_Subsets ep).

Definition serviceRecordForIP (ip : string) : outcome (list msg_Service) :=
  svcs ← SvcIndexReverse (APIConn k) ip;
  first ← reverse_services svcs;
  match first with
  | Some s => mret [s]
  | None =>
      eps ← EpIndexReverse (APIConn k) ip;
      go_fold (reverse_endpoint_step ip) [] eps
  end.

Definition Reverse (state : Request) : outcome answer :=
  let ip := ExtractAddressFromReverse (rq_Name state) in
  if (ip =? "")%string then
    '(_, e) ← Records k state; mret ([], e)
  else
    records ← serviceRecordForIP ip;
    if (length records =? 0)%nat then mret (records, Some errNoItems)
    else mret (records, None).

(** * External addresses (external.go) *)

(** The loops over the external addresses and the ports of a service. *)
Definition external_step (namespace service port protocol zonePath : string)
    (acc : list msg_Service * Z) (svc : Service) : list msg_Service * Z :=
  if negb (namespace =? svc_Namespace svc)%string then acc
  else if negb (service =? svc_Name svc)%string then acc
  else
    foldl (λ acc ip,
      foldl (λ acc p,
        if negb (match_ port (sp_Name p) && match_ protocol (sp_Protocol p)) then acc
        else (acc.1 ++ [host_service k ip (sp_Port p)
                (strings.Join [zonePath; svc_Namespace svc; svc_Name svc] "/")], RcodeSuccess))
        acc (svc_Ports svc)) acc (svc_ExternalIPs svc).

Definition External (state : Request) : outcome (list msg_Service * Z) :=
  let base := TrimZone (rq_Name state) (rq_Zone state) in
  let segs := SplitDomainName base in
  let seg (i : Z) := if (i <? 0)%Z then Panic else go_index segs (Z.to_nat i) in
  let last := (Z.of_nat (length segs) - 1)%Z in
  if (last <? 0)%Z then mret ([], RcodeServerFailure)
  else
    namespace ← seg last;
    exp ← namespaceExposed k namespace;
    if negb exp then mret ([], RcodeNameError)
    else
      let last := (last - 1)%Z in
      if (last <? 0)%Z then mret ([], RcodeSuccess)
      else
        service ← seg last;
        let last := (last - 1)%Z in
        '(port, protocol, last) ←
          (if (last =? 1)%Z then
             l1 ← seg last; protocol ← stripUnderscore l1;
             l0 ← seg (last - 1)%Z; port ← stripUnderscore l0;
             mret (port, protocol, (last - 2)%Z)
           else mret ("*", "*", last));
        if negb (last =? -1)%Z then mret ([], RcodeNameError)
        else
          serviceList ← SvcIndex (APIConn k) (ServiceKey service namespace);
          let zonePath := msg_Path (rq_Zone state) coredns in
          mret (foldl (external_step namespace service port protocol zonePath)
                  ([], RcodeNameError) serviceList).

Definition ExternalAddress (state : Request) : outcome (list RR) := nsAddrs true (rq_Zone state).

(** * Search paths (autopath.go) *)

Definition podWithIP (ip : string) : outcome (option Pod) :=
  if negb (podMode k =? podModeVerified)%string then mret None
  else
    ps ← PodIndex (APIConn k) ip;
    match ps with [] => mret None | p :: _ => mret (Some p) end.

(** The search path; the nil slice is the empty list. *)
Definition AutoPath (state : Request) : outcome (list string) :=
  let zone := Zones_Matches (Zones k) (rq_Name state) in
  if (zone =? "")%string then mret []
  else if negb (initPodCache (opts k)) then mret []
  else
    pod ← podWithIP (rq_IP state);
    match pod with
    | None => mret []
    | Some pod =>
        let search :=
          if (zone =? ".")%string then [pod_Namespace pod +:+ ".svc."; "svc."; "."]
          else [pod_Namespace pod +:+ ".svc." +:+ zone; "svc." +:+ zone; zone] in
        mret (search ++ autoPathSearch k ++ [""])
    end.

(** * Metadata (metadata.go) *)

(** The values set, in order. [errInvalidRequest] is the only error of the parser. *)
Definition Metadata (state : Request) : outcome (list (string * string)) :=
  pod ← podWithIP (rq_IP state);
  let client := match pod with
                | Some pod => [("kubernetes/client-namespace", pod_Namespace pod);
                               ("kubernetes/client-pod-name", pod_Name pod)]
                | None => []
                end in
  let zone := Zones_Matches (Zones k) (rq_Name state) in
  if (zone =? "")%string then mret client
  else
    '(r, err) ← parseRequest (rq_Name state) zone;
    match err with
    | Some _ => mret (client ++ [("kubernetes/parse-error", "invalid query name")])
    | None => mret (client ++ [("kubernetes/port-name", r_port r);
                               ("kubernetes/protocol", r_protocol r);
                               ("kubernetes/endpoint", r_endpoint r);
                               ("kubernetes/service", r_service r);
                               ("kubernetes/namespace", r_namespace r);
                               ("kubernetes/kind", r_podOrSvc r)])
    end.
End Backend.

(** * Specifications *)

Section BackendSpecs.
Context `{DnsLib}.
Variable k : Kubernetes.
Variable sn : snapshot.

(** The names and addresses a service gives to an endpoints object of the server. *)
Definition ns_service_found (external : bool) (zone : string) (ep : Endpoints) (svc : Service) :
    list (string * net.IP) :=
  if external then
    (λ ip, (strings.Join [svc_Name svc; svc_Namespace svc; zone] ".", net.ParseIP ip))
    <$> svc_ExternalIPs svc
  else if (svc_ClusterIP svc =? ClusterIPNone)%string then
    concat ((λ s, (λ a, (endpointHostname a (endpointNameMode k) +:+ "." +:+
                           strings.Join [svc_Name svc; svc_Namespace svc; SvcLabel; zone] ".",
                         net.ParseIP (ea_IP a))) <$> es_Addresses s) <$> eps_Subsets ep)
  else [(strings.Join [svc_Name svc; svc_Namespace svc; SvcLabel; zone] ".",
         net.ParseIP (svc_ClusterIP svc))].

(** Those of every service of every endpoints object that has one of the local addresses. *)
Definition ns_found (external : bool) (zone : string) (eps : list Endpoints) :
    list (string * net.IP) :=
  concat ((λ localIP,
    concat ((λ ep,
      concat (ns_service_found external zone ep <$>
        filter (λ s, svc_Index s = ServiceKey (eps_Name ep) (eps_Namespace ep)) (sn_services sn)))
    <$> filter (λ e, net.IP_String localIP ∈ eps_IndexIP e) eps))
  <$> localIPs k).

Definition ns_default (zone : string) : list (string * net.IP) :=
  (λ ip, (defaultNSName +:+ zone, ip)) <$> localIPs k.

Definition ns_record (p : string * net.IP) : RR := ns_rr p.1 p.2.

(** A namespace reverse lookups show: any, when the configuration lists none. *)
Definition reverse_shown (ns : string) : Prop := Namespaces k = ∅ ∨ exposed k sn ns.

#[export] Instance reverse_shown_dec ns : Decision (reverse_shown ns).
Proof. unfold reverse_shown. apply _. Defined.

Definition service_domain (zone : string) (svc : Service) : string :=
  strings.Join [svc_Name svc; svc_Namespace svc; SvcLabel; zone] ".".

(** The records of the endpoints that have an address. *)
Definition reverse_addresses (zone ip : string) (ep : Endpoints) : list msg_Service :=
  concat ((λ sub,
    (λ addr, host_only k (strings.Join [endpointHostname addr (endpointNameMode k); eps_Name ep;
                                        eps_Namespace ep; SvcLabel; zone] "."))
    <$> filter (λ addr, ea_IP addr = ip) (es_Addresses sub)) <$> eps_Subsets ep).

Definition reverse_found (zone ip : string) (eps : list Endpoints) : list msg_Service :=
  concat (reverse_addresses zone ip
          <$> filter (λ e, ip ∈ eps_IndexIP e ∧ reverse_shown (eps_Namespace e)) eps).

(** The records of a service's external addresses. *)
Definition external_found (port protocol zonePath : string) (svc : Service) : list msg_Service :=
  concat ((λ ip,
    (λ p, host_service k ip (sp_Port p)
            (strings.Join [zonePath; svc_Namespace svc; svc_Name svc] "/"))
    <$> filter (λ p, match_ port (sp_Name p) && match_ protocol (sp_Protocol p) = true) (svc_Ports svc))
  <$> svc_ExternalIPs svc).

Definition external_reference (port protocol service namespace zonePath : string) : list msg_Service :=
  concat (external_found port protocol zonePath
          <$> filter (λ s, svc_Name s = service ∧ svc_Namespace s = namespace) (sn_services sn)).

(** The labels of an external name: the service, and the port and protocol it asks for. *)
Inductive external_form : list string → string → string → string → string → Prop :=
| ext_service service namespace : external_form [service; namespace] "*" "*" service namespace
| ext_port l0 l1 port protocol service namespace :
    stripUnderscore l0 = Ret port → stripUnderscore l1 = Ret protocol →
    external_form [l0; l1; service; namespace] port protocol service namespace.
End BackendSpecs.

(** * Facts *)

Section NsFacts.
Context `{DnsLib}.
Variable k : Kubernetes.

Definition add_all (acc : list string * list net.IP) (l : list (string * net.IP)) :
    list string * list net.IP := (acc.1 ++ l.*1, acc.2 ++ l.*2).

Lemma add_all_nil acc : add_all acc [] = acc.
Proof. destruct acc. unfold add_all. simpl. by rewrite !app_nil_r. Qed.
Lemma add_all_app acc f g : add_all (add_all acc f) g = add_all acc (f ++ g).
Proof. unfold add_all. simpl. by rewrite !fmap_app, !app_assoc. Qed.

Lemma foldl_add_all {A} (step : list string * list net.IP → A → list string * list net.IP)
    (f : A → list (string * net.IP)) l acc :
  (∀ acc x, step acc x = add_all acc (f x)) → foldl step acc l = add_all acc (concat (f <$> l)).
Proof.
  intros Hs. revert acc. induction l as [|x l IH]; intros acc; simpl; [by rewrite add_all_nil|].
  by rewrite Hs, IH, add_all_app.
Qed.

Lemma ns_service_step_found external zone ep acc svc :
  ns_service_step k external zone ep acc svc =
    add_all acc (ns_service_found k external zone ep svc).
Proof.
  unfold ns_service_step, ns_service_found. destruct external.
  - rewrite (foldl_add_all _ (λ ip, [(strings.Join [svc_Name svc; svc_Namespace svc; zone] ".",
      net.ParseIP ip)])) by done. by rewrite concat_fmap_singleton.
  - destruct (svc_ClusterIP svc =? ClusterIPNone)%string; [|done].
    apply foldl_add_all. intros acc' s.
    rewrite (foldl_add_all _ (λ a, [(endpointHostname a (endpointNameMode k) +:+ "." +:+
      strings.Join [svc_Name svc; svc_Namespace svc; SvcLabel; zone] ".", net.ParseIP (ea_IP a))]))
      by done. by rewrite concat_fmap_singleton.
Qed.

Lemma ns_rrs_zip names i ips rrs :
  length rrs = i + length ips → length names = i + length ips →
  ns_rrs names i ips rrs = Ret (take i rrs ++ zip_with ns_rr (drop i names) ips).
Proof.
  revert i rrs. induction ips as [|ip ips IH]; intros i rrs Hr Hn; simpl in *.
  - rewrite take_ge by lia. by rewrite drop_ge, app_nil_r by lia.
  - destruct (lookup_lt_is_Some_2 names i ltac:(lia)) as [name Hname].
    rewrite (go_index_lookup _ _ name) by done. go_simpl. unfold go_set.
    rewrite decide_True by lia. rewrite IH by (rewrite ?length_insert; lia).
    rewrite (drop_S names name i) by exact Hname. f_equal. simpl.
    rewrite (take_S_r _ _ (ns_rr name ip)) by (apply list_lookup_insert_eq; lia).
    rewrite take_insert_ge by lia. by rewrite <- app_assoc.
Qed.

Lemma zip_pairs (l : list (string * net.IP)) : zip_with ns_rr l.*1 l.*2 = ns_record <$> l.
Proof. induction l as [|[name ip] l IH]; [done|]. rewrite !fmap_cons. cbn [zip_with fst snd]. by rewrite IH. Qed.

Lemma ns_loop sn external zone eps :
  Implements (APIConn k) sn → sn_endpoints sn = Some eps →
  ∃ l, go_fold (ns_ip_step k external zone) ([], []) (localIPs k) = Ret (l.*1, l.*2) ∧
    l ≡ₚ ns_found k sn external zone eps.
Proof.
  intros Himpl Heps.
  destruct (go_fold_collect add_all (ns_ip_step k external zone)
    (λ localIP, concat ((λ ep,
      concat (ns_service_found k external zone ep <$>
        filter (λ s, svc_Index s = ServiceKey (eps_Name ep) (eps_Namespace ep)) (sn_services sn)))
    <$> filter (λ e, net.IP_String localIP ∈ eps_IndexIP e) eps)) (localIPs k) ([], [])
    add_all_nil add_all_app) as (l & Hl & Hp).
  - intros acc localIP _. unfold ns_ip_step.
    pose proof (impl_ep_reverse (Implements:=Himpl) (net.IP_String localIP)) as Hq.
    rewrite Heps in Hq. destruct Hq as (l & -> & Hl). go_simpl.
    destruct (go_fold_collect add_all (ns_endpoint_step k external zone)
      (λ ep, concat (ns_service_found k external zone ep <$>
        filter (λ s, svc_Index s = ServiceKey (eps_Name ep) (eps_Namespace ep)) (sn_services sn)))
      l acc add_all_nil add_all_app) as (f & Hf & Hfp).
    + intros acc' ep _. unfold ns_endpoint_step.
      destruct (impl_svc_index (Implements:=Himpl) (ServiceKey (eps_Name ep) (eps_Namespace ep)))
        as (svcs & -> & Hsvcs). go_simpl.
      rewrite (foldl_add_all _ _ svcs acc' (ns_service_step_found external zone ep)).
      eexists. split; [done|]. by apply concat_fmap_permutation.
    + exists f. split; [exact Hf|]. rewrite Hfp. by apply concat_fmap_permutation.
  - exists l. split; [|done]. by rewrite Hl.
Qed.

(** The server's own records: never a panic, never an index out of range. *)
Lemma nsAddrs_run sn external zone eps :
  Implements (APIConn k) sn → sn_endpoints sn = Some eps →
  ∃ l, l ≡ₚ ns_found k sn external zone eps ∧
    nsAddrs k external zone =
      Ret (ns_record <$> match l with [] => ns_default k zone | _ => l end).
Proof.
  intros Himpl Heps. destruct (ns_loop sn external zone eps Himpl Heps) as (l & Hl & Hp).
  exists l. split; [done|]. unfold nsAddrs. rewrite Hl. go_simpl. rewrite length_fmap.
  destruct l as [|p l].
  - simpl. rewrite !go_fill_fmap. go_simpl.
    rewrite ns_rrs_zip by (rewrite ?length_replicate, !length_fmap; reflexivity). simpl. f_equal.
    rewrite drop_0. rewrite <- zip_pairs. unfold ns_default.
    by rewrite <- !list_fmap_compose.
  - cbn [length Nat.eqb]. rewrite ns_rrs_zip by (rewrite ?length_replicate, !length_fmap; reflexivity).
    exact (f_equal Ret (zip_pairs (p :: l))).
Qed.
End NsFacts.

Section ReverseFacts.
Context `{DnsLib}.
Variable k : Kubernetes.
Variable sn : snapshot.
Hypothesis Himpl : Implements (APIConn k) sn.
Variable zone : string.
Hypothesis Hzone : Zones k !! primaryZoneIndex k = Some zone.

Lemma reverse_hidden_spec ns :
  reverse_hidden k ns = Ret (negb (bool_decide (reverse_shown k sn ns))).
Proof.
  unfold reverse_hidden. rewrite (namespaceExposed_spec k sn) by done.
  destruct (decide (Namespaces k = ∅)) as [He|He].
  - rewrite (bool_decide_eq_true_2 (reverse_shown _ _ _)) by (by left). by rewrite He, size_empty.
  - destruct (Nat.ltb_spec 0 (size (Namespaces k))) as [Hs|Hs].
    + assert (Hb : bool_decide (exposed k sn ns) = bool_decide (reverse_shown k sn ns))
        by (apply bool_decide_ext; unfold reverse_shown; tauto). by rewrite Hb.
    + assert (size (Namespaces k) = 0) as H0%size_empty_inv by lia.
      by apply leibniz_equiv_iff in H0.
Qed.

Lemma primaryZone_spec : primaryZone k = Ret zone.
Proof. unfold primaryZone. by apply go_index_lookup. Qed.

(** The first loop finds the first service that is shown. *)
Lemma reverse_services_spec svcs :
  reverse_services k svcs =
    Ret ((λ svc, host_only k (service_domain zone svc))
         <$> List.find (λ svc, bool_decide (reverse_shown k sn (svc_Namespace svc))) svcs).
Proof.
  induction svcs as [|svc svcs IH]; [done|]. simpl. rewrite reverse_hidden_spec, primaryZone_spec.
  case_bool_decide; simpl; [done|exact IH].
Qed.

Lemma reverse_addresses_spec ip ep acc :
  go_fold (λ svcs eps, go_fold (reverse_address_step k ip ep) svcs (es_Addresses eps)) acc
    (eps_Subsets ep) = Ret (acc ++ reverse_addresses k zone ip ep).
Proof.
  assert (Haddr : ∀ l acc, go_fold (reverse_address_step k ip ep) acc l =
    Ret (acc ++ ((λ addr, host_only k (strings.Join [endpointHostname addr (endpointNameMode k);
      eps_Name ep; eps_Namespace ep; SvcLabel; zone] ".")) <$> filter (λ addr, ea_IP addr = ip) l))).
  { induction l as [|addr l IH]; intros acc'; [by rewrite app_nil_r|].
    cbn [go_fold]. rewrite filter_cons.
    destruct (decide (ea_IP addr = ip)) as [He|He].
    - replace (reverse_address_step k ip ep acc' addr) with (Ret (acc' ++ [host_only k (strings.Join
        [endpointHostname addr (endpointNameMode k); eps_Name ep; eps_Namespace ep; SvcLabel; zone] ".")]));
        [go_simpl; by rewrite IH, <- app_assoc|].
      unfold reverse_address_step. by rewrite primaryZone_spec, (proj2 (String.eqb_eq _ _) He).
    - replace (reverse_address_step k ip ep acc' addr) with (Ret acc'); [apply IH|].
      unfold reverse_address_step. by rewrite (proj2 (String.eqb_neq _ _) He). }
  unfold reverse_addresses. revert acc. induction (eps_Subsets ep) as [|sub subs IH]; intros acc.
  - by rewrite app_nil_r.
  - cbn [go_fold]. rewrite Haddr. go_simpl. rewrite IH. simpl. by rewrite <- app_assoc.
Qed.

Lemma reverse_endpoints_spec ip eps acc :
  go_fold (reverse_endpoint_step k ip) acc eps =
    Ret (acc ++ concat (reverse_addresses k zone ip
                        <$> filter (λ e, reverse_shown k sn (eps_Namespace e)) eps)).
Proof.
  revert acc. induction eps as [|ep eps IH]; intros acc; [by rewrite app_nil_r|].
  cbn [go_fold]. rewrite filter_cons.
  replace (reverse_endpoint_step k ip acc ep) with
    (Ret (acc ++ if decide (reverse_shown k sn (eps_Namespace ep))
                 then reverse_addresses k zone ip ep else [])).
  - go_simpl. rewrite IH. case_decide; simpl; by rewrite <- app_assoc.
  - unfold reverse_endpoint_step. rewrite reverse_hidden_spec.
    destruct (decide (reverse_shown k sn (eps_Namespace ep))) as [Hs|Hs].
    + rewrite bool_decide_eq_true_2 by done. go_simpl. by rewrite reverse_addresses_spec.
    + rewrite bool_decide_eq_false_2 by done. by rewrite app_nil_r.
Qed.

(** The record of an address: that of a service that has it, or those of its endpoints. *)
Lemma serviceRecordForIP_spec ip eps :
  sn_endpoints sn = Some eps →
  ∃ l, serviceRecordForIP k ip = Ret l ∧
    ((∃ svc, svc ∈ sn_services sn ∧ ip ∈ svc_ips svc ∧ reverse_shown k sn (svc_Namespace svc) ∧
        l = [host_only k (service_domain zone svc)]) ∨
     (∀ svc, svc ∈ sn_services sn → ip ∈ svc_ips svc → ¬ reverse_shown k sn (svc_Namespace svc)) ∧
     l ≡ₚ reverse_found k sn zone ip eps).
Proof.
  intros Heps. unfold serviceRecordForIP.
  destruct (impl_svc_reverse (Implements:=Himpl) ip) as (svcs & -> & Hsvcs). go_simpl.
  rewrite reverse_services_spec. destruct (List.find _ svcs) as [svc|] eqn:Hf; go_simpl.
  - apply List.find_some in Hf as [Hin%list_elem_of_In Hs%bool_decide_eq_true].
    rewrite Hsvcs in Hin. apply list_elem_of_filter in Hin as [Hip Hin].
    eexists. split; [done|]. left. by exists svc.
  - pose proof (impl_ep_reverse (Implements:=Himpl) ip) as Hq. rewrite Heps in Hq.
    destruct Hq as (l & -> & Hl). rewrite reverse_endpoints_spec. eexists. split; [done|]. right.
    split.
    + intros svc Hin Hip Hs. pose proof (List.find_none _ _ Hf svc) as Hn. simpl in Hn.
      rewrite bool_decide_eq_true_2 in Hn by done. discriminate Hn.
      apply list_elem_of_In. rewrite Hsvcs. by apply list_elem_of_filter.
    + simpl. unfold reverse_found. apply concat_fmap_permutation. rewrite Hl, list_filter_filter.
      erewrite list_filter_iff; [done|]. intros e. simpl. tauto.
Qed.
End ReverseFacts.

Section ExternalFacts.
Context `{DnsLib}.
Variable k : Kubernetes.

(** Records found, and the code: success when there are any. *)
Definition found_code (acc : list msg_Service * Z) (l : list msg_Service) : list msg_Service * Z :=
  (acc.1 ++ l, if decide (l = []) then acc.2 else RcodeSuccess).

Lemma found_code_nil acc : found_code acc [] = acc.
Proof. destruct acc. unfold found_code. simpl. by rewrite app_nil_r. Qed.

Lemma found_code_app acc f g : found_code (found_code acc f) g = found_code acc (f ++ g).
Proof. unfold found_code. simpl. rewrite app_assoc. f_equal. by destruct f, g. Qed.

Lemma foldl_found {A} (step : list msg_Service * Z → A → list msg_Service * Z)
    (f : A → list msg_Service) l acc :
  (∀ acc x, step acc x = found_code acc (f x)) → foldl step acc l = found_code acc (concat (f <$> l)).
Proof.
  intros Hs. revert acc. induction l as [|x l IH]; intros acc; simpl; [by rewrite found_code_nil|].
  by rewrite Hs, IH, found_code_app.
Qed.

Lemma external_step_found namespace service port protocol zp acc svc :
  external_step k namespace service port protocol zp acc svc =
    found_code acc (if bool_decide (svc_Name svc = service ∧ svc_Namespace svc = namespace)
                    then external_found k port protocol zp svc else []).
Proof.
  unfold external_step.
  destruct (String.eqb_spec namespace (svc_Namespace svc)) as [->|Hns]; simpl.
  2:{ rewrite bool_decide_eq_false_2 by (intros [_ ?]; congruence). by rewrite found_code_nil. }
  destruct (String.eqb_spec service (svc_Name svc)) as [->|Hn]; simpl.
  2:{ rewrite bool_decide_eq_false_2 by (intros [? _]; congruence). by rewrite found_code_nil. }
  rewrite bool_decide_eq_true_2 by done. unfold external_found. apply foldl_found. intros acc' ip.
  rewrite (foldl_found _ (λ p, if match_ port (sp_Name p) && match_ protocol (sp_Protocol p)
    then [host_service k ip (sp_Port p)
            (strings.Join [zp; svc_Namespace svc; svc_Name svc] "/")] else [])).
  - by rewrite concat_if_singleton.
  - intros acc'' p. destruct (_ && _); simpl; [done|]. by rewrite found_code_nil.
Qed.

Lemma External_run sn state port protocol service namespace :
  Implements (APIConn k) sn → dns_names sn →
  external_form (SplitDomainName (TrimZone (rq_Name state) (rq_Zone state)))
    port protocol service namespace →
  exposed k sn namespace →
  ∃ l, External k state = Ret (found_code ([], RcodeNameError) l) ∧
    l ≡ₚ external_reference k sn port protocol service namespace (msg_Path (rq_Zone state) coredns).
Proof.
  intros Himpl Hnames Hform Hexp.
  assert (Hexp' : namespaceExposed k namespace = Ret true).
  { rewrite (namespaceExposed_spec k sn) by done. by rewrite bool_decide_eq_true_2. }
  set (zp := msg_Path (rq_Zone state) coredns).
  destruct (impl_svc_index (Implements:=Himpl) (ServiceKey service namespace)) as (svcs & Hq & Hsvcs).
  exists (concat (external_found k port protocol zp <$>
    filter (λ s, svc_Name s = service ∧ svc_Namespace s = namespace) svcs)). split.
  - assert (Hfil : filter (λ s, svc_Name s = service ∧ svc_Namespace s = namespace) svcs =
      filter (λ s, bool_decide (svc_Name s = service ∧ svc_Namespace s = namespace) = true) svcs)
      by (apply list_filter_iff; intros; symmetry; apply bool_decide_eq_true).
    rewrite Hfil, <- concat_if, <- (foldl_found _ _ _ _ (external_step_found namespace service port protocol zp)).
    unfold External. destruct Hform as [service namespace|l0 l1 port protocol service namespace H0 H1];
      unfold go_index; simpl; go_simpl; rewrite Hexp'; go_simpl; rewrite ?H0, ?H1; go_simpl; by rewrite Hq.
  - unfold external_reference. apply concat_fmap_permutation. rewrite Hsvcs, list_filter_filter.
    erewrite filter_iff_in; [done|]. intros s Hs. split; [tauto|]. intros [<- <-]. split; [done|].
    by destruct (dn_services sn Hnames s Hs) as (_ & _ & _ & ->).
Qed.
End ExternalFacts.

(** * Examples *)

(** The server's own service in front of the pod at the local address, and a headless one. *)
Definition ex_dns_snapshot : snapshot :=
  mkSnapshot
    [ex_service "dns-service" "kube-system" "10.0.0.111"; ex_service "hdls-dns" "kube-system" "None";
     mkService "1" "web" "testns" (ServiceKey "web" "testns") "10.0.0.3" "ClusterIP" ""
       [mkServicePort "http" "tcp" 80; mkServicePort "https" "tcp" 443] ["1.2.3.4"]]
    (Some [ex_pod "web-0" "testns" "10.240.0.1"])
    (Some [ex_endpoints "dns-service" "kube-system" "10.244.0.20" "" "";
           ex_endpoints "hdls-dns" "kube-system" "10.244.0.20" "" ""])
    [mkApiNamespace (ex_meta "testns" ""); mkApiNamespace (ex_meta "kube-system" "")].

Definition ex_dns_kubernetes : Kubernetes :=
  mkKubernetes ["cluster.local."] (static ex_dns_snapshot) ∅ podModeVerified false 5 ex_opts 0
    [net.IPv4 10 244 0 20] ["example.org."] [] 0.

Lemma ex_dns_names : dns_names ex_dns_snapshot.
Proof. by apply dns_namesb_spec. Qed.

(** * Properties *)

(** C33: the names of the server itself. The records are, up to order, those of every service of every
    endpoints object that has one of the local addresses: the service's own address or, for a
    headless one, the addresses of the endpoints, or its external addresses; each under the name
    of the service, as AAAA exactly when the address is no IPv4 address. When there are none, the
    local addresses under [ns.dns.zone]. No loop indexes out of range. *)
Theorem nsAddrs_spec `{DnsLib} k sn external zone eps :
  Implements (APIConn k) sn → sn_endpoints sn = Some eps →
  ∃ l, l ≡ₚ ns_found k sn external zone eps ∧
    nsAddrs k external zone =
      Ret (ns_record <$> match l with [] => ns_default k zone | _ => l end).
Proof. apply nsAddrs_run. Qed.

Lemma nsAddrs_spec_witness :
  ∃ l, l ≡ₚ [("dns-service.kube-system.svc.cluster.local.", net.IPv4 10 0 0 111);
             ("10-244-0-20.hdls-dns.kube-system.svc.cluster.local.", net.IPv4 10 244 0 20)] ∧
    nsAddrs ex_dns_kubernetes false "cluster.local." =
      Ret (ns_record <$> match l with [] => ns_default ex_dns_kubernetes "cluster.local." | _ => l end).
Proof.
  exact (nsAddrs_spec ex_dns_kubernetes ex_dns_snapshot false "cluster.local." _
    (static_implements ex_dns_snapshot) eq_refl).
Defined.

(** C32: what a reverse lookup answers. For an address, it is either the one record of a service that
    has the address among its cluster and external ones and that the configured namespaces show, or,
    when no such service exists, the records of every endpoint address equal to it, up to order;
    nothing found is [errNoItems]. Nothing panics when the primary zone exists. *)
Theorem Reverse_spec `{DnsLib} k sn state zone eps :
  Implements (APIConn k) sn → sn_endpoints sn = Some eps →
  Zones k !! primaryZoneIndex k = Some zone →
  let ip := ExtractAddressFromReverse (rq_Name state) in
  ip ≠ "" →
  ∃ l, Reverse k state = Ret (l, if decide (l = []) then Some errNoItems else None) ∧
    ((∃ svc, svc ∈ sn_services sn ∧ ip ∈ svc_ips svc ∧ reverse_shown k sn (svc_Namespace svc) ∧
        l = [host_only k (service_domain zone svc)]) ∨
     (∀ svc, svc ∈ sn_services sn → ip ∈ svc_ips svc → ¬ reverse_shown k sn (svc_Namespace svc)) ∧
     l ≡ₚ reverse_found k sn zone ip eps).
Proof.
  intros Himpl Heps Hzone ip Hip.
  destruct (serviceRecordForIP_spec k sn Himpl zone Hzone ip eps Heps) as (l & Hl & Hspec).
  exists l. split; [|exact Hspec]. unfold Reverse. fold ip.
  rewrite (proj2 (String.eqb_neq _ _) Hip), Hl. go_simpl. by destruct l.
Qed.

Lemma Reverse_spec_witness :
  ∃ l, Reverse ex_dns_kubernetes
         (mkRequest "20.0.244.10.in-addr.arpa." "20.0.244.10.in-addr.arpa." TypePTR "" "in-addr.arpa.")
       = Ret (l, if decide (l = []) then Some errNoItems else None) ∧
    l ≡ₚ [mkMsg "10-244-0-20.dns-service.kube-system.svc.cluster.local." 0 0 0 "" 5 "";
          mkMsg "10-244-0-20.hdls-dns.kube-system.svc.cluster.local." 0 0 0 "" 5 ""].
Proof.
  destruct (Reverse_spec ex_dns_kubernetes ex_dns_snapshot
    (mkRequest "20.0.244.10.in-addr.arpa." "20.0.244.10.in-addr.arpa." TypePTR "" "in-addr.arpa.")
    "cluster.local." _ (static_implements ex_dns_snapshot) eq_refl eq_refl) as (l & Hl & Hs).
  - vm_compute. discriminate.
  - exists l. split; [exact Hl|]. destruct Hs as [(svc & Hin & Hip & _)|[_ Hp]]; [|exact Hp].
    exfalso. vm_compute in Hip. simpl in Hin.
    repeat (apply elem_of_cons in Hin as [->|Hin]; [vm_compute in Hip; set_solver|]).
    by apply not_elem_of_nil in Hin.
Defined.

(** C34: external names. A name with a service and its namespace, with or without a port and protocol,
    in an exposed namespace: the answer has, up to order, one record for each external address and
    each matching port of the service with exactly that name and namespace, and the code is success
    when there is one and name error otherwise. *)
Theorem External_spec `{DnsLib} k sn state port protocol service namespace :
  Implements (APIConn k) sn → dns_names sn →
  external_form (SplitDomainName (TrimZone (rq_Name state) (rq_Zone state)))
    port protocol service namespace →
  exposed k sn namespace →
  ∃ l, External k state = Ret (l, if decide (l = []) then RcodeNameError else RcodeSuccess) ∧
    l ≡ₚ external_reference k sn port protocol service namespace (msg_Path (rq_Zone state) coredns).
Proof.
  intros Himpl Hnames Hform Hexp.
  destruct (External_run k sn state port protocol service namespace Himpl Hnames Hform Hexp)
    as (l & Hl & Hp).
  exists l. split; [|done]. by rewrite Hl.
Qed.

Lemma External_spec_witness :
  ∃ l, External ex_dns_kubernetes
         (mkRequest "_http._tcp.web.testns.example.com." "_http._tcp.web.testns.example.com." TypeSRV ""
            "example.com.") = Ret (l, if decide (l = []) then RcodeNameError else RcodeSuccess) ∧
    l ≡ₚ [mkMsg "1.2.3.4" 80 0 0 "" 5 "/c/com/example/testns/web"].
Proof.
  destruct (External_spec ex_dns_kubernetes ex_dns_snapshot
    (mkRequest "_http._tcp.web.testns.example.com." "_http._tcp.web.testns.example.com." TypeSRV ""
       "example.com.") "http" "tcp" "web" "testns" (static_implements ex_dns_snapshot) ex_dns_names)
    as (l & Hl & Hp).
  - vm_compute. by constructor.
  - vm_compute. by split; [left|left].
  - exists l. split; [exact Hl|exact Hp].
Defined.

(** C35: the search path of a client. When the query is in a zone, pods are cached and verified, and a
    cached pod has the client's address, it starts with the namespace of such a pod, the services
    and the zone, followed by the configured path and the final marker; otherwise it is empty, so
    that the query is not autocompleted. Nothing panics when the pod cache exists. *)
Theorem AutoPath_spec `{DnsLib} k sn state pods :
  Implements (APIConn k) sn → sn_pods sn = Some pods →
  let zone := Zones_Matches (Zones k) (rq_Name state) in
  let path pod :=
    (if (zone =? ".")%string then [pod_Namespace pod +:+ ".svc."; "svc."; "."]
     else [pod_Namespace pod +:+ ".svc." +:+ zone; "svc." +:+ zone; zone])
    ++ autoPathSearch k ++ [""] in
  ∃ l, AutoPath k state = Ret l ∧
    ((l = [] ∧ (zone = "" ∨ initPodCache (opts k) = false ∨ podMode k ≠ podModeVerified ∨
                ∀ pod, pod ∈ pods → pod_PodIP pod ≠ rq_IP state)) ∨
     zone ≠ "" ∧ initPodCache (opts k) = true ∧ podMode k = podModeVerified ∧
     ∃ pod, pod ∈ pods ∧ pod_PodIP pod = rq_IP state ∧ l = path pod).
Proof.
  intros Himpl Hpods zone path. unfold AutoPath, podWithIP. fold zone.
  destruct (String.eqb_spec zone "") as [Hz|Hz]; [by eauto 10|].
  destruct (initPodCache (opts k)) eqn:Hi; simpl; [|by eauto 10].
  destruct (String.eqb_spec (podMode k) podModeVerified) as [Hm|Hm]; simpl; [|by eauto 10].
  pose proof (impl_pod_index (Implements:=Himpl) (rq_IP state)) as Hq. rewrite Hpods in Hq.
  destruct Hq as (l & -> & Hl). go_simpl. destruct l as [|pod l].
  - eexists. split; [done|]. left. split; [done|]. do 3 right. intros pod Hin Hip.
    apply Permutation_nil_l in Hl.
    assert (pod ∈ filter (λ p, pod_PodIP p = rq_IP state) pods) as Hf by by apply list_elem_of_filter.
    rewrite <- Hl in Hf. by apply not_elem_of_nil in Hf.
  - eexists. split; [done|]. right.
    assert (pod ∈ filter (λ p, pod_PodIP p = rq_IP state) pods) as Hf by (rewrite <- Hl; by left).
    apply list_elem_of_filter in Hf as [Hip Hin]. do 3 (split; [done|]). by exists pod.
Qed.

Lemma AutoPath_spec_witness :
  AutoPath ex_dns_kubernetes
    (mkRequest "google.com.testns.svc.cluster.local." "" TypeA "10.240.0.1" "cluster.local.") =
  Ret ["testns.svc.cluster.local."; "svc.cluster.local."; "cluster.local."; "example.org."; ""].
Proof.
  destruct (AutoPath_spec ex_dns_kubernetes ex_dns_snapshot
    (mkRequest "google.com.testns.svc.cluster.local." "" TypeA "10.240.0.1" "cluster.local.")
    _ (static_implements ex_dns_snapshot) eq_refl) as (l & -> & Hl).
  destruct Hl as [[_ Hl]|(_ & _ & _ & pod & Hin & _ & ->)].
  - exfalso. vm_compute in Hl. destruct Hl as [|[|[Hl|Hl]]]; [discriminate|discriminate|by apply Hl|].
    eapply Hl; [by left|reflexivity].
  - apply list_elem_of_singleton in Hin as ->. vm_compute. reflexivity.
Defined.

(** * Behaviours worth knowing *)

(** With a namespace filter by labels, which leaves [Namespaces] empty, a service of a namespace that
    is not exposed is still found by reverse lookup, though its name is not answered. *)
Theorem reverse_leaks_filtered :
  let sn := mkSnapshot [ex_service "secret" "hidden" "10.0.0.9"] (Some []) (Some [])
              [mkApiNamespace (ex_meta "testns" "")] in
  let k := ex_kubernetes sn podModeDisabled in
  Reverse k (mkRequest "9.0.0.10.in-addr.arpa." "" TypePTR "" "in-addr.arpa.") =
    Ret ([mkMsg "secret.hidden.svc.cluster.local." 0 0 0 "" 5 ""], None) ∧
  Records k (mkRequest "secret.hidden.svc.cluster.local." "" TypeA "" "cluster.local.") =
    Ret ([], Some errNsNotExposed).
Proof. vm_compute. by split. Qed.

(** The server names itself [ns.dns.zone], and does not recognize that name in a zone that occurs
    earlier in it, such as the root or [dns.]. *)
Theorem default_ns_not_recognized :
  isDefaultNS (defaultNSName +:+ "cluster.local.") "cluster.local." = true ∧
  isDefaultNS (defaultNSName +:+ "dns.") "dns." = false ∧
  isDefaultNS defaultNSName "." = false.
Proof. by vm_compute. Qed.
