(* ===== verification/Xfr.v ===== *)
(** Zone transfers (xfr.go): who may transfer the zone, the records of the zone in order, how they are
    cut into messages, and the weight of the SRV records.

    The channel between [Transfer] and [transfer] carries the records in order and is read to its
    end before anything else happens, so it is a list; so are the envelopes sent. *)
From stdpp Require Import prelude strings gmap sets list.
From Stdlib Require Import Ascii SpecFloat.
From S2P Require Import Prelude GoStd Object Controller Deps Kubernetes Parse Records.

Definition transferLength : Z := 2000.

(** [api.ServiceTypeClusterIP] and its like. *)
Definition ServiceTypeClusterIP : string := "ClusterIP".
Definition ServiceTypeNodePort : string := "NodePort".
Definition ServiceTypeLoadBalancer : string := "LoadBalancer".

(** What is called of CoreDNS and of the DNS library for it. *)
Class XfrLib := {
  msg_Domain : string → string;
  NewA : msg_Service → string → net.IP → RR;
  NewAAAA : msg_Service → string → net.IP → RR;
  NewCNAME : msg_Service → string → string → RR;
  NewSRV : msg_Service → string → Z → RR;
  (** The size of a record in a message. *)
  dns_Len : RR → Z;
}.

(** [net.SplitHostPort]: the host and the port, None for an error. *)
Fixpoint last_colon (s : string) (i : nat) (last : option nat) : option nat :=
  match s with
  | EmptyString => last
  | String c s' => last_colon s' (S i) (if Ascii.eqb c ":"%char then Some i else last)
  end.

Definition str_drop (n : nat) (s : string) : string := String.substring n (String.length s - n) s.

Definition SplitHostPort (hostport : string) : option (string * string) :=
  match last_colon hostport 0 None with
  | None => None
  | Some i =>
      let checked (host : string) (j k : nat) :=
        if strings.Contains (str_drop j hostport) "[" then None
        else if strings.Contains (str_drop k hostport) "]" then None
        else Some (host, str_drop (S i) hostport) in
      if String.prefix "[" hostport then
        let end_ := strings.Index hostport "]" in
        if (end_ <? 0)%Z then None
        else if (end_ + 1 =? Z.of_nat (String.length hostport))%Z then None
        else if (end_ + 1 =? Z.of_nat i)%Z then
          checked (String.substring 1 (Z.to_nat end_ - 1) hostport) 1 (Z.to_nat end_ + 1)
        else None
      else
        let host := String.substring 0 i hostport in
        if strings.Contains host ":" then None else checked host 0 0
  end.

Section Weight.
(** What converting an infinite float to [uint16] gives: Go leaves it to the machine. *)
Variable uint16_of_inf : Z.

(** [math.Floor] and then [uint16(...)], of a float that is not negative. *)
Definition uint16_floor (f : spec_float) : Z :=
  match f with
  | S754_finite false m e => (Z.shiftl (Zpos m) e mod 65536)%Z
  | S754_infinity _ => uint16_of_inf
  | _ => 0%Z
  end.

(** The loop over the services made for the addresses, each of weight and priority 0. *)
Definition weight_step (w : gmap Z Z) (serv : msg_Service) : gmap Z Z :=
  let weight := if negb (ms_Weight serv =? 0)%Z then ms_Weight serv else 100%Z in
  match w !! ms_Priority serv with
  | None => <[ms_Priority serv := weight]> w
  | Some x => <[ms_Priority serv := (x + weight)%Z]> w
  end.

Definition calcSRVWeight (numservices : nat) : Z :=
  let services := foldl (λ l _, l ++ [mkMsg "" 0 0 0 "" 0 ""]) [] (seq 0 numservices) in
  let w := foldl weight_step ∅ services in
  let weight := uint16_floor
    (SFmul prec emax
       (SFdiv prec emax (float_of_Z 100) (float_of_Z (default 0%Z (w !! 0%Z)))) (float_of_Z 100)) in
  if (weight =? 0)%Z then 1%Z else weight.
End Weight.

Section Transfer.
Context `{DnsLib} `{XfrLib}.
Variable uint16_of_inf : Z.
Variable k : Kubernetes.

Definition Serial : Z := Modified (APIConn k) mod 2 ^ 32.
Definition MinTTL : Z := ttl k.

(** Some [true] returns from the loop. *)
Fixpoint transferAllowed (to : list string) (remote : string) : bool :=
  match to with
  | [] => false
  | t :: to' =>
      if (t =? "*")%string then true
      else match SplitHostPort t with
           | None => transferAllowed to' remote
           | Some (host, _) => if (host =? remote)%string then true else transferAllowed to' remote
           end
  end.

(** The records sent and the name of the record. *)
Definition emitAddressRecord (message : msg_Service) : list RR * string :=
  let ip := net.ParseIP (ms_Host message) in
  let dnsType := HostType (ms_Host message) in
  if (dnsType =? TypeA)%Z then
    let arec := NewA message (msg_Domain (ms_Key message)) ip in ([arec], h_Name (Header arec))
  else if (dnsType =? TypeAAAA)%Z then
    let arec := NewAAAA message (msg_Domain (ms_Key message)) ip in ([arec], h_Name (Header arec))
  else ([], "").

(** [strings.Join(append(svcBase, ToLower("_"+protocol), ToLower("_"+name)), "/")] *)
Definition srv_key (svcBase : list string) (protocol name : string) : string :=
  strings.Join (svcBase ++ [strings.ToLower ("_" +:+ protocol); strings.ToLower ("_" +:+ name)]) "/".

(** The SRV records of a port of a service with a cluster IP. *)
Definition clusterip_port (svcBase : list string) (host : string) (c : list RR) (p : ServicePort) :
    list RR :=
  let s := host_service k host (sp_Port p) (strings.Join svcBase "/") in
  let c := c ++ [NewSRV s (msg_Domain (ms_Key s)) 100] in
  if (sp_Name p =? "")%string then c
  else
    let s := host_service k host (sp_Port p) (srv_key svcBase (sp_Protocol p) (sp_Name p)) in
    c ++ [NewSRV s (msg_Domain (ms_Key s)) 100].

(** The SRV record of a port of an endpoint. *)
Definition endpoint_port (svcBase : list string) (host : string) (srvWeight : Z) (c : list RR)
    (p : EndpointPort) : list RR :=
  if (ep_Name p =? "")%string then c
  else
    let s := host_service k host (ep_Port p) (srv_key svcBase (ep_Protocol p) (ep_Name p)) in
    c ++ [NewSRV s (msg_Domain (ms_Key s)) srvWeight].

Definition endpoint_address (svcBase : list string) (srvWeight : Z) (ports : list EndpointPort)
    (c : list RR) (addr : EndpointAddress) : list RR :=
  let '(rs, _) := emitAddressRecord (host_service k (ea_IP addr) 0 (strings.Join svcBase "/")) in
  let c := c ++ rs in
  let '(rs, host) := emitAddressRecord (host_service k (ea_IP addr) 0
    (strings.Join (svcBase ++ [endpointHostname addr (endpointNameMode k)]) "/")) in
  let c := c ++ rs in
  foldl (endpoint_port svcBase host srvWeight) c ports.

Definition transfer_endpoints (svc : Service) (svcBase : list string) (c : list RR) (ep : Endpoints) :
    list RR :=
  if negb (eps_Name ep =? svc_Name svc)%string
     || negb (eps_Namespace ep =? svc_Namespace svc)%string
  then c
  else
    foldl (λ c eps,
      foldl (endpoint_address svcBase (calcSRVWeight uint16_of_inf (length (es_Addresses eps)))
               (es_Ports eps)) c (es_Addresses eps)) c (eps_Subsets ep).

(** The body of the loop over the services. *)
Definition transfer_service (zonePath : string) (c : list RR) (svc : Service) : outcome (list RR) :=
  exp ← namespaceExposed k (svc_Namespace svc);
  if negb exp then mret c
  else
    let svcBase := [zonePath; SvcLabel; svc_Namespace svc; svc_Name svc] in
    if (svc_Type svc =? ServiceTypeClusterIP)%string || (svc_Type svc =? ServiceTypeNodePort)%string
       || (svc_Type svc =? ServiceTypeLoadBalancer)%string
    then
      if decide (net.ParseIP (svc_ClusterIP svc) = []) then
        endpointsList ← EpIndex (APIConn k) (svc_Name svc +:+ "." +:+ svc_Namespace svc);
        mret (foldl (transfer_endpoints svc svcBase) c endpointsList)
      else
        let '(rs, host) :=
          emitAddressRecord (host_service k (svc_ClusterIP svc) 0 (strings.Join svcBase "/")) in
        mret (foldl (clusterip_port svcBase host) (c ++ rs) (svc_Ports svc))
    else if (svc_Type svc =? ServiceTypeExternalName)%string then
      let s := host_service k (svc_ExternalName svc) 0 (strings.Join svcBase "/") in
      if (HostType (ms_Host s) =? TypeCNAME)%Z then
        mret (c ++ [NewCNAME s (msg_Domain (ms_Key s)) (ms_Host s)])
      else mret c
    else mret c.

Definition transfer (zone : string) : outcome (list RR) :=
  let zonePath := msg_Path zone "coredns" in
  serviceList ← ServiceList (APIConn k);
  go_fold (transfer_service zonePath) [] serviceList.

(** [records[j:i]] *)
Definition go_slice (l : list RR) (j i : nat) : list RR := take (i - j) (drop j l).

(** The goroutine that sends the envelopes: [rest] is what is left of [records], at index [i]. *)
Fixpoint send_loop (records rest : list RR) (i j : nat) (l : Z) (sent : list (list RR)) :
    list (list RR) * nat :=
  match rest with
  | [] => (sent, j)
  | r :: rest' =>
      let l := (l + dns_Len r)%Z in
      if (transferLength <? l)%Z then
        send_loop records rest' (S i) i 0 (sent ++ [go_slice records j i])
      else send_loop records rest' (S i) j l sent
  end.

Definition envelopes (records : list RR) : list (list RR) :=
  let '(sent, j) := send_loop records records 0 0 0 [] in
  if (j <? length records)%nat then sent ++ [drop j records] else sent.

(** The result of [plugin.SOA], from CoreDNS. *)
Variable SOA : Request → outcome (list RR * option go_error).

(** The reply code, and the envelopes given to the writer when it is taken over. *)
Definition Transfer (state : Request) : outcome (Z * option (list (list RR))) :=
  if negb (transferAllowed (TransferTo k) (rq_IP state)) then mret (RcodeRefused, None)
  else
    records ← transfer (rq_Zone state);
    if (length records =? 0)%nat then mret (RcodeServerFailure, None)
    else
      '(soa, err) ← SOA state;
      match err with
      | Some _ => mret (RcodeServerFailure, None)
      | None => mret (RcodeSuccess, Some (envelopes (soa ++ records ++ soa)))
      end.
End Transfer.

(** * Specifications *)

Section XfrSpecs.
Context `{DnsLib} `{XfrLib}.
Variable uint16_of_inf : Z.
Variable k : Kubernetes.
Variable sn : snapshot.

Definition clusterip_port_rrs (svcBase : list string) (host : string) (p : ServicePort) : list RR :=
  let srv key := NewSRV (host_service k host (sp_Port p) key) (msg_Domain key) 100 in
  srv (strings.Join svcBase "/")
  :: (if (sp_Name p =? "")%string then [] else [srv (srv_key svcBase (sp_Protocol p) (sp_Name p))]).

Definition endpoint_port_rrs (svcBase : list string) (host : string) (weight : Z) (p : EndpointPort) :
    list RR :=
  if (ep_Name p =? "")%string then []
  else [NewSRV (host_service k host (ep_Port p) (srv_key svcBase (ep_Protocol p) (ep_Name p)))
          (msg_Domain (srv_key svcBase (ep_Protocol p) (ep_Name p))) weight].

Definition endpoint_address_rrs (svcBase : list string) (weight : Z) (ports : list EndpointPort)
    (addr : EndpointAddress) : list RR :=
  let named := emitAddressRecord (host_service k (ea_IP addr) 0
    (strings.Join (svcBase ++ [endpointHostname addr (endpointNameMode k)]) "/")) in
  (emitAddressRecord (host_service k (ea_IP addr) 0 (strings.Join svcBase "/"))).1
  ++ named.1 ++ concat (endpoint_port_rrs svcBase named.2 weight <$> ports).

Definition endpoints_rrs (svcBase : list string) (ep : Endpoints) : list RR :=
  concat ((λ sub, concat (endpoint_address_rrs svcBase
                            (calcSRVWeight uint16_of_inf (length (es_Addresses sub))) (es_Ports sub)
                          <$> es_Addresses sub)) <$> eps_Subsets ep).

(** The records of a service. *)
Definition service_rrs (zonePath : string) (eps : list Endpoints) (svc : Service) : list RR :=
  let svcBase := [zonePath; SvcLabel; svc_Namespace svc; svc_Name svc] in
  let key := strings.Join svcBase "/" in
  if decide (svc_Type svc ∈ [ServiceTypeClusterIP; ServiceTypeNodePort; ServiceTypeLoadBalancer]) then
    if decide (net.ParseIP (svc_ClusterIP svc) = []) then
      concat (endpoints_rrs svcBase <$> filter (belongs svc) eps)
    else
      let own := emitAddressRecord (host_service k (svc_ClusterIP svc) 0 key) in
      own.1 ++ concat (clusterip_port_rrs svcBase own.2 <$> svc_Ports svc)
  else if decide (svc_Type svc = ServiceTypeExternalName ∧ HostType (svc_ExternalName svc) = TypeCNAME)
  then [NewCNAME (host_service k (svc_ExternalName svc) 0 key) (msg_Domain key) (svc_ExternalName svc)]
  else [].

(** The records of the zone: those of every service of an exposed namespace. *)
Definition zone_rrs (zonePath : string) (eps : list Endpoints) : list RR :=
  concat (service_rrs zonePath eps
          <$> filter (λ svc, exposed k sn (svc_Namespace svc)) (sn_services sn)).
End XfrSpecs.

(** * Facts *)

Section EnvelopeFacts.
Context `{XfrLib}.

Definition total (l : list RR) : Z := foldr (λ r n, dns_Len r + n)%Z 0%Z l.

Lemma total_app a b : total (a ++ b) = (total a + total b)%Z.
Proof. induction a as [|x a IH]; simpl; [done|]. rewrite IH. lia. Qed.

(** A message whose records after the first fit. *)
Definition fits (l : list RR) : Prop := (total (drop 1 l) <= transferLength)%Z.

(** The state of the sending loop: what was sent, and what is counted of the message being filled. *)
Record sending (records : list RR) (i j : nat) (l : Z) (sent : list (list RR)) : Prop := {
  snd_sent : concat sent = take j records;
  snd_fits : Forall fits sent;
  snd_le : j ≤ i ≤ length records;
  snd_count : (total (drop 1 (go_slice records j i)) <= l)%Z;
  snd_bound : (l <= transferLength)%Z;
}.

Lemma go_slice_S records r i j :
  j ≤ i → records !! i = Some r → go_slice records j (S i) = go_slice records j i ++ [r].
Proof.
  intros Hji Hr. unfold go_slice. replace (S i - j) with (S (i - j)) by lia.
  rewrite (take_S_r _ _ r); [done|]. rewrite lookup_drop. by replace (j + (i - j)) with i by lia.
Qed.

Lemma total_drop_app l r :
  (0 <= dns_Len r)%Z → (total (drop 1 (l ++ [r])) <= total (drop 1 l) + dns_Len r)%Z.
Proof.
  intros Hr. destruct l as [|x l]; simpl; [lia|]. rewrite !drop_0, total_app. simpl. lia.
Qed.

Lemma send_loop_spec records rest i j l sent :
  (∀ r, 0 <= dns_Len r)%Z → rest = drop i records → sending records i j l sent →
  let '(sent', j') := send_loop records rest i j l sent in
  ∃ l', sending records (length records) j' l' sent'.
Proof.
  intros Hlen. revert i j l sent. induction rest as [|r rest IH]; intros i j l sent Hrest Hs.
  - simpl. exists l. destruct Hs as [H1 H2 H3 H4 H5].
    assert (length records ≤ i) by (apply drop_nil_inv; done || by rewrite <- Hrest).
    replace i with (length records) in * by lia. by constructor.
  - assert (Hr : records !! i = Some r).
    { rewrite <- (Nat.add_0_r i), <- lookup_drop, <- Hrest. done. }
    assert (Hrest' : rest = drop (S i) records).
    { rewrite <- Nat.add_1_r, <- drop_drop, <- Hrest. simpl. by rewrite drop_0. }
    pose proof (lookup_lt_Some _ _ _ Hr) as Hi. simpl.
    destruct Hs as [H1 H2 H3 H4 H5]. destruct (Z.ltb_spec transferLength (l + dns_Len r)).
    + apply IH; [done|]. constructor.
      * rewrite concat_app, H1. simpl. rewrite app_nil_r. unfold go_slice.
        rewrite <- (take_drop j (take i records)), take_take, Nat.min_l by lia.
        by rewrite skipn_firstn_comm.
      * apply Forall_app. split; [done|]. repeat constructor. unfold fits. lia.
      * lia.
      * rewrite (go_slice_S _ r) by (lia || done). unfold go_slice. rewrite Nat.sub_diag. simpl. lia.
      * unfold transferLength. lia.
    + apply IH; [done|]. constructor; [done|done|lia| |lia].
      rewrite (go_slice_S _ r) by (lia || done).
      pose proof (total_drop_app (go_slice records j i) r (Hlen r)). lia.
Qed.

(** Nothing is lost, nothing is sent twice, the order is kept, and the messages fit. *)
Lemma envelopes_spec records :
  (∀ r, 0 <= dns_Len r)%Z → concat (envelopes records) = records ∧ Forall fits (envelopes records).
Proof.
  intros Hlen. unfold envelopes.
  pose proof (send_loop_spec records records 0 0 0 [] Hlen) as Hs.
  destruct (send_loop records records 0 0 0 []) as [sent j].
  destruct Hs as (l & [H1 H2 H3 H4 H5]); [by rewrite drop_0| |].
  { constructor; [done|done|lia| |]; unfold go_slice, transferLength; simpl; lia. }
  assert (Hslice : go_slice records j (length records) = drop j records).
  { unfold go_slice. apply take_ge. rewrite length_drop. lia. }
  destruct (Nat.ltb_spec j (length records)).
  - rewrite concat_app, H1. simpl. rewrite app_nil_r, take_drop. split; [done|].
    apply Forall_app. split; [done|]. repeat constructor. unfold fits. rewrite <- Hslice. lia.
  - split; [|done]. rewrite H1. by apply take_ge.
Qed.
End EnvelopeFacts.

Section TransferFacts.
Context `{DnsLib} `{XfrLib}.
Variable uint16_of_inf : Z.
Variable k : Kubernetes.
Variable sn : snapshot.
Hypothesis Himpl : Implements (APIConn k) sn.
Variable eps : list Endpoints.
Hypothesis Heps : sn_endpoints sn = Some eps.

Lemma transfer_endpoints_rrs svc svcBase c ep :
  transfer_endpoints uint16_of_inf k svc svcBase c ep =
    c ++ (if bool_decide (belongs svc ep) then endpoints_rrs uint16_of_inf k svcBase ep else []).
Proof.
  unfold transfer_endpoints, belongs.
  destruct (String.eqb_spec (eps_Name ep) (svc_Name svc)) as [Hn|Hn]; simpl.
  2:{ rewrite bool_decide_eq_false_2 by tauto. by rewrite app_nil_r. }
  destruct (String.eqb_spec (eps_Namespace ep) (svc_Namespace svc)) as [Hs|Hs]; simpl.
  2:{ rewrite bool_decide_eq_false_2 by tauto. by rewrite app_nil_r. }
  rewrite bool_decide_eq_true_2 by done. unfold endpoints_rrs. apply foldl_emit. intros c1 sub.
  apply foldl_emit. intros c2 addr. unfold endpoint_address, endpoint_address_rrs.
  destruct (emitAddressRecord _) as [rs1 h1]. destruct (emitAddressRecord _) as [rs2 h2]. simpl.
  rewrite (foldl_emit _ (endpoint_port_rrs k svcBase h2
    (calcSRVWeight uint16_of_inf (length (es_Addresses sub))))); [by rewrite <- !app_assoc|].
  intros c3 p. unfold endpoint_port, endpoint_port_rrs.
  destruct (ep_Name p =? "")%string; [by rewrite app_nil_r|done].
Qed.

Lemma clusterip_ports_rrs svcBase host c ports :
  foldl (clusterip_port k svcBase host) c ports =
    c ++ concat (clusterip_port_rrs k svcBase host <$> ports).
Proof.
  apply foldl_emit. intros c1 p. unfold clusterip_port, clusterip_port_rrs.
  destruct (sp_Name p =? "")%string; [done|]. by rewrite <- app_assoc.
Qed.

Lemma cluster_types svc :
  (svc_Type svc =? ServiceTypeClusterIP)%string || (svc_Type svc =? ServiceTypeNodePort)%string
    || (svc_Type svc =? ServiceTypeLoadBalancer)%string =
  bool_decide (svc_Type svc ∈ [ServiceTypeClusterIP; ServiceTypeNodePort; ServiceTypeLoadBalancer]).
Proof.
  symmetry. case_bool_decide as Ht.
  - symmetry. rewrite !orb_true_iff, !String.eqb_eq. set_solver.
  - symmetry. rewrite !orb_false_iff, !String.eqb_neq. set_solver.
Qed.

(** What a service adds to the transfer, up to the order of its endpoints objects. *)
Lemma transfer_service_rrs zp c svc :
  svc_Index svc = ServiceKey (svc_Name svc) (svc_Namespace svc) →
  (∀ e, e ∈ eps → eps_Index e = EndpointsKey (eps_Name e) (eps_Namespace e)) →
  ∃ f, transfer_service uint16_of_inf k zp c svc = Ret (c ++ f) ∧
    f ≡ₚ if bool_decide (exposed k sn (svc_Namespace svc))
         then service_rrs uint16_of_inf k zp eps svc else [].
Proof.
  intros Hidx Hkeys. unfold transfer_service. rewrite (namespaceExposed_spec k sn) by done.
  case_bool_decide as Hexp; go_simpl.
  2:{ exists []. simpl. by rewrite app_nil_r. }
  rewrite cluster_types. unfold service_rrs.
  destruct (decide (svc_Type svc ∈ _)) as [Ht|Ht].
  - rewrite bool_decide_eq_true_2 by done.
    destruct (decide (net.ParseIP (svc_ClusterIP svc) = [])) as [Hip|Hip].
    + pose proof (impl_ep_index (Implements:=Himpl) (svc_Name svc +:+ "." +:+ svc_Namespace svc)) as Hq.
      rewrite Heps in Hq. destruct Hq as (l & -> & Hl). go_simpl.
      rewrite (foldl_emit _ _ l c (transfer_endpoints_rrs svc _)), concat_if.
      eexists. split; [done|]. apply concat_fmap_permutation. rewrite Hl, list_filter_filter.
      erewrite filter_iff_in; [done|]. intros e He. rewrite bool_decide_eq_true.
      split; [tauto|]. intros Hb. split; [done|]. rewrite (Hkeys e He). by destruct Hb as [-> ->].
    + destruct (emitAddressRecord _) as [rs host]. simpl. rewrite clusterip_ports_rrs, <- app_assoc.
      by eexists.
  - rewrite bool_decide_eq_false_2 by done. simpl.
    destruct (String.eqb_spec (svc_Type svc) ServiceTypeExternalName) as [He|He].
    + destruct (Z.eqb_spec (HostType (svc_ExternalName svc)) TypeCNAME) as [Hh|Hh].
      * rewrite decide_True by done. by eexists.
      * rewrite decide_False by tauto. exists []. by rewrite app_nil_r.
    + rewrite decide_False by tauto. exists []. by rewrite app_nil_r.
Qed.

Lemma transfer_zone zone :
  dns_names sn →
  ∃ l, transfer uint16_of_inf k zone = Ret l ∧
    l ≡ₚ zone_rrs uint16_of_inf k sn (msg_Path zone "coredns") eps.
Proof.
  intros Hnames. unfold transfer.
  destruct (impl_services (Implements:=Himpl)) as (svcs & -> & Hsvcs). go_simpl.
  destruct (go_fold_collect (λ c f, c ++ f)
    (transfer_service uint16_of_inf k (msg_Path zone "coredns"))
    (λ svc, if bool_decide (exposed k sn (svc_Namespace svc))
            then service_rrs uint16_of_inf k (msg_Path zone "coredns") eps svc else []) svcs [])
    as (l & Hl & Hp).
  - apply app_nil_r.
  - intros. by rewrite app_assoc.
  - intros c svc Hin. apply transfer_service_rrs.
    + apply (dn_services sn Hnames). by rewrite <- Hsvcs.
    + intros e He. by apply (dn_endpoints sn Hnames eps).
  - exists l. split; [exact Hl|]. rewrite Hp, concat_if. unfold zone_rrs.
    apply concat_fmap_permutation. rewrite Hsvcs. erewrite list_filter_iff; [done|].
    intros svc. apply bool_decide_eq_true.
Qed.

Lemma transferAllowed_spec to remote :
  transferAllowed to remote = true ↔
    ∃ t, t ∈ to ∧ (t = "*" ∨ ∃ port, SplitHostPort t = Some (remote, port)).
Proof.
  induction to as [|t to IH]; simpl.
  - split; [done|]. by intros (? & ?%not_elem_of_nil & _).
  - setoid_rewrite elem_of_cons. destruct (String.eqb_spec t "*") as [->|Ht]; [naive_solver|].
    destruct (SplitHostPort t) as [[host port]|] eqn:Hs; [|rewrite IH; naive_solver].
    destruct (String.eqb_spec host remote) as [->|Hh]; [naive_solver|]. rewrite IH. naive_solver.
Qed.
End TransferFacts.

Section WeightFacts.
Variable uint16_of_inf : Z.

Lemma weight_services n :
  foldl (λ l (_ : nat), l ++ [mkMsg "" 0 0 0 "" 0 ""]) [] (seq 0 n) =
    replicate n (mkMsg "" 0 0 0 "" 0 "").
Proof.
  rewrite (foldl_emit _ (λ _, [mkMsg "" 0 0 0 "" 0 ""])) by done.
  rewrite concat_fmap_singleton, app_nil_l. generalize 0 at 1.
  induction n as [|n IH]; intros i; [done|]. simpl. by rewrite IH.
Qed.

Lemma weight_map n (w : gmap Z Z) x :
  w !! 0%Z = Some x →
  foldl weight_step w (replicate n (mkMsg "" 0 0 0 "" 0 "")) !! 0%Z = Some (x + 100 * Z.of_nat n)%Z.
Proof.
  revert w x. induction n as [|n IH]; intros w x Hw; simpl foldl; [rewrite Hw; f_equal; lia|].
  unfold weight_step at 2. simpl. rewrite Hw. rewrite (IH _ (x + 100)%Z).
  - f_equal. lia.
  - apply lookup_insert_eq.
Qed.

(** The weight by the number of addresses, once the map is summed. *)
Definition weight_of (n : nat) : Z :=
  let weight := uint16_floor uint16_of_inf
    (SFmul 53 1024 (SFdiv 53 1024 (float_of_Z 100) (float_of_Z (100 * Z.of_nat n))) (float_of_Z 100)) in
  if (weight =? 0)%Z then 1%Z else weight.

Lemma calcSRVWeight_of n : 0 < n → calcSRVWeight uint16_of_inf n = weight_of n.
Proof.
  intros Hn. unfold calcSRVWeight, weight_of. rewrite weight_services.
  assert (Hw : foldl weight_step ∅ (replicate n (mkMsg "" 0 0 0 "" 0 "")) !! 0%Z
    = Some (100 * Z.of_nat n)%Z); [|by rewrite Hw].
  destruct n as [|n]; [lia|]. simpl replicate. cbn [foldl].
  rewrite (weight_map n _ 100%Z) by reflexivity. f_equal. lia.
Qed.

Lemma weight_of_checked :
  forallb (λ n, (weight_of n =? Z.max 1 (100 / Z.of_nat n))%Z) (seq 1 1000) = true.
Proof. vm_compute. reflexivity. Qed.
End WeightFacts.

Example SplitHostPort_v4 : SplitHostPort "10.0.0.1:53" = Some ("10.0.0.1", "53").
Proof. reflexivity. Qed.
Example SplitHostPort_v6 : SplitHostPort "[fe80::1]:53" = Some ("fe80::1", "53").
Proof. reflexivity. Qed.
Example SplitHostPort_bad : SplitHostPort <$> ["10.0.0.1"; "fe80::1:53"; "[::1]"; "a:b:c"] = [None; None; None; None].
Proof. reflexivity. Qed.
Example calcSRVWeight_small : calcSRVWeight 0 <$> [1; 2; 3; 7; 99; 100; 101; 150] = [100; 50; 33; 14; 1; 1; 1; 1]%Z.
Proof. vm_compute. reflexivity. Qed.

Module SimpleXfr.
(** Records with the name given; every record takes 900 bytes. *)
#[global] Instance lib : XfrLib := {|
  msg_Domain key := key;
  NewA s name ip := RR_A (mkHdr name TypeA ClassINET (ms_TTL s)) ip;
  NewAAAA s name ip := RR_AAAA (mkHdr name TypeAAAA ClassINET (ms_TTL s)) ip;
  NewCNAME s name target := RR_other (mkHdr name TypeCNAME ClassINET (ms_TTL s)) target;
  NewSRV s name weight := RR_other (mkHdr name TypeSRV ClassINET (ms_TTL s)) (ms_Host s);
  dns_Len _ := 900%Z;
|}.
End SimpleXfr.

Definition ex_soa : RR := RR_other (mkHdr "cluster.local." TypeSOA ClassINET 5) "soa".
Definition ex_xfr_snapshot : snapshot :=
  mkSnapshot [ex_service "svc1" "testns" "10.0.0.1"; ex_service "hidden" "other" "10.0.0.2"]
    None (Some []) [mkApiNamespace (ex_meta "testns" "")].
Definition ex_xfr (to : list string) : Kubernetes :=
  mkKubernetes ["cluster.local."] (static ex_xfr_snapshot) ∅ podModeDisabled false 5 ex_opts 0 [] [] to 0.
Definition ex_xfr_request : Request :=
  mkRequest "cluster.local." "cluster.local." TypeAXFR "10.9.8.7" "cluster.local.".

(** * Properties *)

(** C27: zone transfers. A client that no entry of the list allows ([*] or its own address) is refused
    and gets nothing. Otherwise the records are, up to the order of the services, exactly those of
    every service of an exposed namespace; when there are none, or the start of authority cannot be
    had, the transfer fails; and otherwise the messages sent contain the start of authority, these
    records and the start of authority again, each once and in this order, and in every message the
    records after the first fit in [transferLength]. *)
Theorem Transfer_spec `{DnsLib} `{XfrLib} u k sn SOA state eps soa err :
  Implements (APIConn k) sn → dns_names sn → sn_endpoints sn = Some eps → (∀ r, 0 <= dns_Len r)%Z →
  SOA state = Ret (soa, err) →
  (Transfer u k SOA state = Ret (RcodeRefused, None) ∧
   ∀ t, t ∈ TransferTo k → t ≠ "*" ∧ ∀ port, SplitHostPort t ≠ Some (rq_IP state, port)) ∨
  ∃ l, l ≡ₚ zone_rrs u k sn (msg_Path (rq_Zone state) "coredns") eps ∧
    (∃ t, t ∈ TransferTo k ∧ (t = "*" ∨ ∃ port, SplitHostPort t = Some (rq_IP state, port))) ∧
    if decide (l = [] ∨ err ≠ None) then
      Transfer u k SOA state = Ret (RcodeServerFailure, None)
    else ∃ es, Transfer u k SOA state = Ret (RcodeSuccess, Some es) ∧
      concat es = soa ++ l ++ soa ∧ Forall fits es.
Proof.
  intros Himpl Hnames Heps Hlen Hsoa. unfold Transfer.
  destruct (transferAllowed (TransferTo k) (rq_IP state)) eqn:Hto; simpl.
  - right. apply transferAllowed_spec in Hto.
    destruct (transfer_zone u k sn Himpl eps Heps (rq_Zone state) Hnames) as (l & Hl & Hp).
    exists l. split; [done|]. split; [done|]. rewrite Hl. go_simpl.
    rewrite Hsoa. destruct (decide (l = [] ∨ err ≠ None)) as [Hd|Hd].
    + destruct l as [|r l]; [done|]. simpl. destruct err; [done|]. by destruct Hd.
    + destruct l as [|r l]; [by destruct Hd; left|]. simpl.
      destruct err; [by destruct Hd; right|].
      eexists. split; [done|]. by apply envelopes_spec.
  - left. split; [done|]. intros t Ht.
    assert (¬ ∃ t, t ∈ TransferTo k ∧ (t = "*" ∨ ∃ port, SplitHostPort t = Some (rq_IP state, port))) as Hno
      by (rewrite <- transferAllowed_spec; congruence).
    naive_solver.
Qed.

Lemma Transfer_spec_witness :
  ∃ es, Transfer 0 (ex_xfr ["10.9.8.7:53"]) (λ _, Ret ([ex_soa], None)) ex_xfr_request =
      Ret (RcodeSuccess, Some es) ∧ length (concat es) = 5.
Proof.
  destruct (Transfer_spec 0 (ex_xfr ["10.9.8.7:53"]) ex_xfr_snapshot (λ _, Ret ([ex_soa], None))
    ex_xfr_request [] [ex_soa] None (static_implements ex_xfr_snapshot)) as [[_ Hno]|(l & Hp & _ & Hl)].
  - apply dns_namesb_spec. reflexivity.
  - reflexivity.
  - intros r. vm_compute. discriminate.
  - reflexivity.
  - exfalso. destruct (Hno "10.9.8.7:53") as [_ Hn]; [by left|]. by apply (Hn "53").
  - apply Permutation_length in Hp. change (length _) with (length l) in Hp at 1.
    assert (Hlen : length l = 3) by (rewrite Hp; vm_compute; reflexivity).
    destruct (decide _) as [[->|He]|_]; [discriminate Hlen|by destruct He|].
    destruct Hl as (es & He & Hc & _). exists es. split; [exact He|].
    rewrite Hc, !length_app, Hlen. reflexivity.
Defined.

(** C38: the weight of SRV records. For up to a thousand addresses, which is what the API server keeps
    in one endpoints object, the floating-point computation gives exactly a hundred divided by the
    number of addresses, rounded down, and at least one. *)
Theorem calcSRVWeight_exact (u : Z) (n : nat) :
  1 ≤ n ≤ 1000 → calcSRVWeight u n = Z.max 1 (100 / Z.of_nat n).
Proof.
  intros Hn. rewrite calcSRVWeight_of by lia. apply Z.eqb_eq.
  pose proof (weight_of_checked u) as Hc. rewrite forallb_forall in Hc. apply Hc.
  apply in_seq. lia.
Qed.

Lemma calcSRVWeight_exact_witness : calcSRVWeight 0 37 = 2%Z.
Proof. exact (calcSRVWeight_exact 0 37 ltac:(lia)). Defined.
