(* ===== verification/Chaos.v ===== *)
(** DNS chaos (chaos.go, grpc_server.go, and the chaos parts of setup.go and kubernetes.go): which
    pods are under chaos, setting and cancelling it by requests, finding the pod behind a source
    address, and the answers such a pod gets.

    The three maps of the plugin are shared by every copy of its struct, and the [*PodInfo] values
    by two of the maps and by the callers of [getChaosPod]: they are locations of a store here, and
    every call runs on the one [world]. The clock, the cluster and the random source are asked one
    after the other; their replies are the functions of [Env], by how many came before. *)
From stdpp Require Import prelude strings gmap sets list.
From Stdlib Require Import Ascii.
From S2P Require Import Prelude GoStd Object Deps.

(** * Constants *)

Definition ScopeInner : string := "inner".
Definition ScopeOuter : string := "outer".
Definition ScopeAll : string := "all".
Definition ActionError : string := "error".
Definition ActionRandom : string := "random".

(** [time.Second], in nanoseconds. *)
Definition Second : Z := 1000000000.

(** * Data *)

(** The messages of the service (pb/dns.pb.go). *)
Record pb_Pod := mkPbPod { pb_Namespace : string; pb_Name : string }.
Record SetDNSChaosRequest := mkSet {
  set_Name : string;
  set_Pods : list pb_Pod;
  set_Action : string;
  set_Scope : string;
  set_Selector : string;
  set_Patterns : list string;
}.
Record CancelDNSChaosRequest := mkCancel { cancel_Name : string }.
Record DNSChaosResponse := mkResponse { resp_Result : bool; resp_Msg : string }.

#[export] Instance pb_Pod_eq_dec : EqDecision pb_Pod.
Proof. solve_decision. Defined.

(** A rule of the selector, an [interface{}]: a bool or anything else. *)
Inductive rule : Type := RBool (b : bool) | ROther.

(** The trie selector of tidb-tools, which the repository imports: creating one, inserting the rule
    [true] for a pattern and the empty table name (the trie is changed even when an error is
    returned), and the rules that match a name. *)
Class SelectorLib (Sel : Type) := {
  NewTrieSelector : Sel;
  selector_Insert : Sel → string → Sel * option go_error;
  selector_Match : Sel → string → list rule;
}.

(** What its documentation says of a trie with only such rules: the rules returned are those of
    the patterns that match. *)
Class SelectorLaws (Sel : Type) `{SelectorLib Sel} := {
  sel_patterns : Sel → list string;
  pattern_matches : string → string → bool;
  sel_new : sel_patterns NewTrieSelector = [];
  sel_insert s p : (selector_Insert s p).2 = None →
    sel_patterns (selector_Insert s p).1 ≡ₚ p :: sel_patterns s;
  sel_match_all s name r : r ∈ selector_Match s name → r = RBool true;
  sel_match s name :
    selector_Match s name = [] ↔ ∀ p, p ∈ sel_patterns s → pattern_matches p name = false;
}.

(** [PodInfo]; None is the nil selector, times are in nanoseconds, 0 the zero time. *)
Record PodInfo (Sel : Type) := mkPodInfo {
  pi_Namespace : string;
  pi_Name : string;
  pi_Action : string;
  pi_Scope : string;
  pi_Selector : option Sel;
  pi_IP : string;
  pi_LastUpdateTime : Z;
}.
Arguments mkPodInfo {Sel} _ _ _ _ _ _ _.
Arguments pi_Namespace {Sel} _.
Arguments pi_Name {Sel} _.
Arguments pi_Action {Sel} _.
Arguments pi_Scope {Sel} _.
Arguments pi_Selector {Sel} _.
Arguments pi_IP {Sel} _.
Arguments pi_LastUpdateTime {Sel} _.

(** What is asked of the outside: [time.Now] in nanoseconds; the client of the API server, None when
    [Pods] gives a nil interface, and what its [Get] returns; [rand.Intn]. *)
Record Env := mkEnv {
  time_Now : nat → Z;
  Client_Pods : nat → string → option (string → api_Pod + go_error);
  rand_Intn : nat → Z → Z;
}.

(** A reply the plugin writes: [SetReply], authoritative, with answers and extra records. *)
Record dns_Msg := mkDnsMsg { m_Authoritative : bool; m_Answer : list RR; m_Extra : list RR }.

Record world (Sel : Type) := mkWorld {
  store : gmap positive (PodInfo Sel);
  next : positive; (* the next location *)
  chaosMap : gmap string SetDNSChaosRequest;
  podMap : gmap string (gmap string positive);
  ipPodMap : gmap string positive;
  asked : nat; (* how many replies came from outside *)
  written : list dns_Msg;
}.
Arguments mkWorld {Sel} _ _ _ _ _ _ _.
Arguments store {Sel} _.
Arguments next {Sel} _.
Arguments chaosMap {Sel} _.
Arguments podMap {Sel} _.
Arguments ipPodMap {Sel} _.
Arguments asked {Sel} _.
Arguments written {Sel} _.

(** The world of a plugin [New] has made. *)
Definition new_world {Sel} : world Sel := mkWorld ∅ 1 ∅ ∅ ∅ 0 [].

(** * Primitive steps *)

Section Primitives.
Context {Sel : Type}.
Variable env : Env.
Abbreviation W := (world Sel).

Definition set_store (f : gmap positive (PodInfo Sel) → gmap positive (PodInfo Sel)) (w : W) : W :=
  mkWorld (f (store w)) (next w) (chaosMap w) (podMap w) (ipPodMap w) (asked w) (written w).
Definition set_chaosMap (f : gmap string SetDNSChaosRequest → gmap string SetDNSChaosRequest)
    (w : W) : W :=
  mkWorld (store w) (next w) (f (chaosMap w)) (podMap w) (ipPodMap w) (asked w) (written w).
Definition set_podMap (f : gmap string (gmap string positive) → gmap string (gmap string positive))
    (w : W) : W :=
  mkWorld (store w) (next w) (chaosMap w) (f (podMap w)) (ipPodMap w) (asked w) (written w).
Definition set_ipPodMap (f : gmap string positive → gmap string positive) (w : W) : W :=
  mkWorld (store w) (next w) (chaosMap w) (podMap w) (f (ipPodMap w)) (asked w) (written w).

Definition ask {A} (reply : nat → A) : GoM W A := λ w,
  (Ret (reply (asked w)),
   mkWorld (store w) (next w) (chaosMap w) (podMap w) (ipPodMap w) (asked w + 1) (written w)).

Definition now : GoM W Z := ask (time_Now env).

Definition WriteMsg (m : dns_Msg) : GoM W unit := modify (λ w,
  mkWorld (store w) (next w) (chaosMap w) (podMap w) (ipPodMap w) (asked w) (written w ++ [m])).

(** [*p]: a nil or dangling pointer is a panic. *)
Definition deref (l : positive) : GoM W (PodInfo Sel) := λ w,
  match store w !! l with Some p => (Ret p, w) | None => (Panic, w) end.

(** [p.f = v] *)
Definition assign (l : positive) (f : PodInfo Sel → PodInfo Sel) : GoM W unit :=
  modify (set_store (alter f l)).

(** [&PodInfo{...}] *)
Definition alloc (p : PodInfo Sel) : GoM W positive := λ w,
  (Ret (next w),
   mkWorld (<[next w := p]> (store w)) (Pos.succ (next w)) (chaosMap w) (podMap w) (ipPodMap w)
     (asked w) (written w)).

(** [m[ns][name]], nil when either is missing. *)
Definition pod_at (w : W) (ns name : string) : option positive :=
  m ← podMap w !! ns; m !! name.

(** [m[ns][name] = p]: writing to a nil map is a panic. *)
Definition put_pod (ns name : string) (l : positive) : GoM W unit := λ w,
  match podMap w !! ns with
  | Some m => (Ret tt, set_podMap <[ns := <[name := l]> m]> w)
  | None => (Panic, w)
  end.

(** [delete(m[ns], name)]: deleting from a nil map does nothing. *)
Definition delete_pod (ns name : string) (w : W) : W := set_podMap (alter (delete name) ns) w.

(** [if _, ok := m[ns]; !ok { m[ns] = make(...) }] *)
Definition ensure_ns (ns : string) (w : W) : W :=
  match podMap w !! ns with
  | Some _ => w
  | None => set_podMap <[ns := ∅]> w
  end.

(** [pod.Status.PodIP] of a pod that may be nil. *)
Definition status_ip (pod : option api_Pod) : GoM W string :=
  match pod with Some p => mret (ap_PodIP p) | None => panic end.
End Primitives.

(** * Operations *)

Section Operations.
Context {Sel : Type} `{SelectorLib Sel}.
Variable env : Env.
Abbreviation W := (world Sel).

(** The pod and the error: both nil when there is no client. *)
Definition getPodFromCluster (namespace name : string) : GoM W (option api_Pod * option go_error) :=
  pods ← ask (λ n, Client_Pods env n namespace);
  mret match pods with
       | None => (None, None)
       | Some get => match get name with inl p => (Some p, None) | inr e => (None, Some e) end
       end.

Definition IsOverdue (p : PodInfo Sel) : GoM W bool :=
  t ← now env; mret (10 * Second <? t - pi_LastUpdateTime p)%Z.

Definition set_ip (ip : string) (p : PodInfo Sel) : PodInfo Sel :=
  mkPodInfo (pi_Namespace p) (pi_Name p) (pi_Action p) (pi_Scope p) (pi_Selector p) ip
    (pi_LastUpdateTime p).
Definition set_time (t : Z) (p : PodInfo Sel) : PodInfo Sel :=
  mkPodInfo (pi_Namespace p) (pi_Name p) (pi_Action p) (pi_Scope p) (pi_Selector p) (pi_IP p) t.

Definition getChaosPod (ip : string) : GoM W (option positive * option go_error) :=
  podInfo ← gets (λ w, ipPodMap w !! ip);
  match podInfo with
  | None => mret (None, None)
  | Some l =>
      p ← deref l;
      overdue ← IsOverdue p;
      if (overdue : bool) then
        '(v1Pod, err) ← getPodFromCluster (pi_Namespace p) (pi_Name p);
        match err with
        | Some e => mret (None, Some e)
        | None =>
            podIP ← status_ip v1Pod;
            p ← deref l;
            if negb (podIP =? pi_IP p)%string then
              _ ← assign l (set_ip podIP);
              t ← now env;
              _ ← assign l (set_time t);
              p ← deref l;
              _ ← modify (set_ipPodMap (delete (pi_IP p)));
              _ ← modify (set_ipPodMap <[podIP := l]>);
              mret (Some l, None)
            else mret (Some l, None)
        end
      else mret (Some l, None)
  end.

(** [needChaos]; None is the nil pointer. Calling a method of the nil selector is a panic. *)
Definition needChaos (podInfo : option (PodInfo Sel)) (name : string) : outcome bool :=
  match podInfo with
  | None => Ret false
  | Some p =>
      if (pi_Scope p =? ScopeAll)%string then Ret true
      else match pi_Selector p with
           | None => Panic
           | Some sel =>
               match selector_Match sel name with
               | [] => Ret false
               | RBool m :: _ => Ret m
               | ROther :: _ => Ret false
               end
           end
  end.

(** ** Answers *)

(** [for i := 0; i < n; i++ { nums = append(nums, byte(rand.Intn(255))) }] *)
Fixpoint random_bytes (n : nat) (nums : list Z) : GoM W (list Z) :=
  match n with
  | O => mret nums
  | S n =>
      r ← ask (λ i, rand_Intn env i 255);
      random_bytes n (nums ++ [(r mod 256)%Z])
  end.

Definition getRandomIPv4 : GoM W net.IP :=
  nums ← random_bytes 4 [];
  n0 ← lift_outcome (go_index nums 0);
  n1 ← lift_outcome (go_index nums 1);
  n2 ← lift_outcome (go_index nums 2);
  n3 ← lift_outcome (go_index nums 3);
  mret (net.IPv4 n0 n1 n2 n3).

Definition zero_hdr : RR_Header := mkHdr "" 0 0 0.
Definition a (zone : string) (ttl : Z) (ips : list net.IP) : outcome (list RR) :=
  go_fill (RR_other zero_hdr "") (λ ip, RR_A (mkHdr zone TypeA ClassINET ttl) ip) ips.
Definition aaaa (zone : string) (ttl : Z) (ips : list net.IP) : outcome (list RR) :=
  go_fill (RR_other zero_hdr "") (λ ip, RR_AAAA (mkHdr zone TypeAAAA ClassINET ttl) ip) ips.

Definition chaos_ipv6 : net.IP := [32; 1; 13; 184; 0; 0; 0; 0; 0; 0; 1; 35; 0; 18; 0; 1]%Z.

(** The reply code and the error; the message goes to the writer. *)
Definition chaosDNS (state : Request) (podInfo : PodInfo Sel) : GoM W (Z * option go_error) :=
  if (pi_Action podInfo =? ActionError)%string then
    mret (RcodeServerFailure, Some (errMsg "dns chaos error"))
  else
    let qname := rq_Name state in
    answers ←
      (if (rq_QType state =? TypeA)%Z then
         ip ← getRandomIPv4; lift_outcome (a qname 10 [ip])
       else if (rq_QType state =? TypeAAAA)%Z then lift_outcome (aaaa qname 10 [chaos_ipv6])
       else mret []);
    if (length answers =? 0)%nat then mret (RcodeServerFailure, None)
    else
      _ ← WriteMsg (mkDnsMsg true answers []);
      mret (RcodeSuccess, None).

(** ** Requests *)

(** [selector.Insert(pattern, "", true, trieselector.Insert)] *)
Definition insert_pattern (sel : Sel) (pattern : string) : outcome Sel :=
  match selector_Insert sel pattern with
  | (sel', None) => Ret sel'
  | (_, Some e) => Throw e
  end.

(** The body of the loop over the patterns. *)
Definition add_pattern (sel : Sel) (pattern : string) : outcome Sel :=
  sel ← insert_pattern sel pattern;
  if negb (strings.Contains pattern "*") then insert_pattern sel (pattern +:+ ".")
  else mret sel.

(** The body of the loop over the pods. *)
Definition set_pod (req : SetDNSChaosRequest) (scope : string) (sel : Sel) (pod : pb_Pod) :
    GoM W unit :=
  let namespace := pb_Namespace pod in
  let name := pb_Name pod in
  '(v1Pod, err) ← getPodFromCluster namespace name;
  match err with
  | Some e => throw e
  | None =>
      _ ← modify (ensure_ns namespace);
      old ← gets (λ w, pod_at w namespace name);
      _ ← match old with
          | Some l =>
              _ ← modify (delete_pod namespace name);
              oldPod ← deref l;
              modify (set_ipPodMap (delete (pi_IP oldPod)))
          | None => mret tt
          end;
      podIP ← status_ip v1Pod;
      t ← now env;
      l ← alloc (mkPodInfo namespace name (set_Action req) scope (Some sel) podIP t);
      _ ← put_pod namespace name l;
      podIP ← status_ip v1Pod;
      modify (set_ipPodMap <[podIP := l]>)
  end.

Definition request_scope (req : SetDNSChaosRequest) : string :=
  if (length (set_Patterns req) =? 0)%nat then ScopeAll else "".

Definition SetDNSChaos (req : SetDNSChaosRequest) : GoM W DNSChaosResponse :=
  _ ← modify (set_chaosMap <[set_Name req := req]>);
  let scope := request_scope req in
  sel ← lift_outcome (go_fold add_pattern NewTrieSelector (set_Patterns req));
  _ ← go_for (set_pod req scope sel) (set_Pods req);
  mret (mkResponse true "").

(** The body of the loop over the pods of the request that is cancelled. *)
Definition cancel_pod (pod : pb_Pod) : GoM W unit :=
  let namespace := pb_Namespace pod in
  let name := pb_Name pod in
  podInfo ← gets (λ w, pod_at w namespace name);
  match podInfo with
  | Some l =>
      _ ← modify (delete_pod namespace name);
      p ← deref l;
      modify (set_ipPodMap (delete (pi_IP p)))
  | None => mret tt
  end.

(** The order in which [range] visits a map. *)
Variable range : ∀ {A}, gmap string A → list (string * A).

Definition shouldDeleteNs (m : gmap string (gmap string positive)) : list string :=
  foldl (λ l '(namespace, pods), if (size pods =? 0)%nat then l ++ [namespace] else l) [] (range m).

Definition CancelDNSChaos (req : CancelDNSChaosRequest) : GoM W DNSChaosResponse :=
  found ← gets (λ w, chaosMap w !! cancel_Name req);
  match found with
  | None => mret (mkResponse true "")
  | Some set =>
      _ ← go_for cancel_pod (set_Pods set);
      shouldDelete ← gets (λ w, shouldDeleteNs (podMap w));
      _ ← go_for (λ namespace, modify (set_podMap (delete namespace))) shouldDelete;
      _ ← modify (set_chaosMap (delete (cancel_Name req)));
      mret (mkResponse true "")
  end.

(** ** Configuration *)

(** A pod of the directive [chaos ACTION SCOPE PODS...]: [namespace.name], split at the first dot. *)
Fixpoint split_first_dot (s : string) : option (string * string) :=
  match s with
  | EmptyString => None
  | String c s' =>
      if Ascii.eqb c "."%char then Some ("", s')
      else match split_first_dot s' with Some (x, y) => Some (String c x, y) | None => None end
  end.

(** The body of the loop over the pods of the directive; [ArgErr] is the error of [c.ArgErr()]. *)
Definition stanza_pod (ArgErr : go_error) (action scope arg : string) : GoM W unit :=
  match split_first_dot arg with
  | None => throw ArgErr
  | Some (namespace, name) =>
      _ ← modify (ensure_ns namespace);
      l ← alloc (mkPodInfo namespace name action scope None "" 0);
      put_pod namespace name l
  end.

Definition stanza_chaos (ArgErr : go_error) (args : list string) : GoM W unit :=
  match args with
  | action :: scope :: p :: pods => go_for (stanza_pod ArgErr action scope) (p :: pods)
  | _ => throw ArgErr
  end.

(** The loop of [InitKubeCache] that finds the addresses of those pods. *)
Definition init_pod (l : positive) : GoM W unit :=
  p ← deref l;
  '(pod, err) ← getPodFromCluster (pi_Namespace p) (pi_Name p);
  match err with
  | Some e => throw e
  | None =>
      podIP ← status_ip pod;
      _ ← assign l (set_ip podIP);
      t ← now env;
      _ ← assign l (set_time t);
      podIP ← status_ip pod;
      modify (set_ipPodMap <[podIP := l]>)
  end.

Definition init_chaos_pods : GoM W unit :=
  m ← gets podMap;
  go_for (λ '(_, pods), go_for (λ '(_, l), init_pod l) (range pods)) (range m).
End Operations.

(** * Specifications *)

Section Specs.
Context {Sel : Type}.
Abbreviation W := (world Sel).

(** What is known of a pod under chaos. *)
Definition info (w : W) (ns name : string) : option (PodInfo Sel) :=
  l ← pod_at w ns name; store w !! l.

(** What a query from an address finds: the entry the index by address leads to. *)
Definition by_address (w : W) (ip : string) : option (PodInfo Sel) :=
  l ← ipPodMap w !! ip; store w !! l.

(** The index by address after these entries are made, one after the other, for pods that may have
    entries already: each is found at its address, and nothing is found any more at the address of
    the entry it replaces. *)
Fixpoint indexed_after (entries : string → string → option (PodInfo Sel))
    (index : string → option (PodInfo Sel)) (news : list (PodInfo Sel)) :
    string → option (PodInfo Sel) :=
  match news with
  | [] => index
  | p :: news =>
      indexed_after
        (λ ns name, if decide (ns = pi_Namespace p ∧ name = pi_Name p) then Some p else entries ns name)
        (λ ip, if decide (ip = pi_IP p) then Some p
               else if decide (pi_IP <$> entries (pi_Namespace p) (pi_Name p) = Some ip) then None
               else index ip)
        news
  end.

(** The addresses of the entries of these pods. *)
Definition addresses_of (w : W) (pods : list pb_Pod) : list string :=
  omap (λ pod, pi_IP <$> info w (pb_Namespace pod) (pb_Name pod)) pods.

(** The pointers of the maps are good, and a pod is stored under its own name. *)
Record wf (w : W) : Prop := {
  wf_store l : is_Some (store w !! l) → (l < next w)%positive;
  wf_pods ns name l : pod_at w ns name = Some l →
    ∃ p, store w !! l = Some p ∧ pi_Namespace p = ns ∧ pi_Name p = name;
  wf_ips ip l : ipPodMap w !! ip = Some l → is_Some (store w !! l);
}.

(** The index by address is exact: an address leads to a pod under chaos that has it. *)
Definition exact_index (w : W) : Prop :=
  ∀ ip l, ipPodMap w !! ip = Some l →
    ∃ p, store w !! l = Some p ∧ pi_IP p = ip ∧ pod_at w (pi_Namespace p) (pi_Name p) = Some l.

(** A pod no longer under chaos. *)
Definition forget (ns name : string) (w : W) : W :=
  match pod_at w ns name with
  | None => w
  | Some l =>
      match store w !! l with
      | Some p => set_ipPodMap (delete (pi_IP p)) (delete_pod ns name w)
      | None => delete_pod ns name w
      end
  end.

(** A pod newly under chaos. *)
Definition install (p : PodInfo Sel) (w : W) : W :=
  mkWorld (<[next w := p]> (store w)) (Pos.succ (next w)) (chaosMap w)
    (<[pi_Namespace p := <[pi_Name p := next w]> (default ∅ (podMap w !! pi_Namespace p))]> (podMap w))
    (<[pi_IP p := next w]> (ipPodMap w)) (asked w) (written w).

(** A pod of the configuration is put under chaos without an address. *)
Definition configured_pod (p : PodInfo Sel) (w : W) : W :=
  set_ipPodMap (λ _, ipPodMap w) (install p (ensure_ns (pi_Namespace p) w)).

(** One reply from outside was used. *)
Definition tick (w : W) : W :=
  mkWorld (store w) (next w) (chaosMap w) (podMap w) (ipPodMap w) (asked w + 1) (written w).
End Specs.

Section RequestSpecs.
Context {Sel : Type}.
Variable env : Env.
Abbreviation W := (world Sel).
Implicit Types (w : W).

(** What the cluster replies to the [n]th question. *)
Definition cluster_reply (n : nat) (ns name : string) : option api_Pod * option go_error :=
  match Client_Pods env n ns with
  | None => (None, None)
  | Some get => match get name with inl p => (Some p, None) | inr e => (None, Some e) end
  end.

(** The entry a request makes for a pod. *)
Definition new_info (req : SetDNSChaosRequest) (scope : string) (sel : Sel) (pod : pb_Pod)
    (v1Pod : api_Pod) (t : Z) : PodInfo Sel :=
  mkPodInfo (pb_Namespace pod) (pb_Name pod) (set_Action req) scope (Some sel) (ap_PodIP v1Pod) t.

(** Between [w] and [w'] the entry was made for the pod, with the address the cluster gave for it
    then. *)
Definition made (req : SetDNSChaosRequest) (scope : string) (sel : Sel) w w' (pod : pb_Pod)
    (p : PodInfo Sel) : Prop :=
  ∃ n v1Pod, (asked w ≤ n ∧ n + 1 < asked w') ∧
    cluster_reply n (pb_Namespace pod) (pb_Name pod) = (Some v1Pod, None) ∧
    p = new_info req scope sel pod v1Pod (time_Now env (n + 1)).

(** Between [w] and [w'] the pod was put under the chaos of the request. *)
Definition set_by (req : SetDNSChaosRequest) (scope : string) (sel : Sel) w w' (pod : pb_Pod) : Prop :=
  ∃ p, made req scope sel w w' pod p ∧ info w' (pb_Namespace pod) (pb_Name pod) = Some p.

(** Exactly these pods were, in this order: every one has an entry, the other entries are as before,
    and the index by address is what the entries made leave. *)
Record set_exactly (req : SetDNSChaosRequest) (scope : string) (sel : Sel) w w' (pods : list pb_Pod) :
    Prop := {
  se_set pod : pod ∈ pods → set_by req scope sel w w' pod;
  se_other ns name : mkPbPod ns name ∉ pods → info w' ns name = info w ns name;
  se_index : ∃ news, Forall2 (made req scope sel w w') pods news ∧
    ∀ ip, by_address w' ip = indexed_after (info w) (by_address w) news ip;
}.

(** What a call may not break. *)
Record kept w w' : Prop := {
  kept_wf : wf w → wf w';
  kept_exact : wf w → exact_index w → exact_index w';
  kept_asked : asked w ≤ asked w';
}.

(** How the loop over the pods of a request ends: every pod is set; or an error of the cluster for
    one pod, the pods before it being set; or a panic, when there is no client. *)
Inductive pods_set (req : SetDNSChaosRequest) (scope : string) (sel : Sel) w w' :
    list pb_Pod → outcome unit → Prop :=
| all_set pods :
    set_exactly req scope sel w w' pods → pods_set req scope sel w w' pods (Ret tt)
| cluster_failed pre pod post n e :
    set_exactly req scope sel w w' pre →
    (cluster_reply n (pb_Namespace pod) (pb_Name pod)).2 = Some e →
    pods_set req scope sel w w' (pre ++ pod :: post) (Throw e)
| no_client pre pod post n :
    cluster_reply n (pb_Namespace pod) (pb_Name pod) = (None, None) →
    pods_set req scope sel w w' (pre ++ pod :: post) Panic.

(** Between [w] and [w'] the cluster has given the address to this pod and to no other pod of the
    request, and no other pod of the request had an entry with it. *)
Record own_address_of (req : SetDNSChaosRequest) w w' (pod : pb_Pod) (ip : string) : Prop := {
  oa_pod n v : asked w ≤ n < asked w' →
    cluster_reply n (pb_Namespace pod) (pb_Name pod) = (Some v, None) → ap_PodIP v = ip;
  oa_others pod' n v : pod' ∈ set_Pods req → pod' ≠ pod → asked w ≤ n < asked w' →
    cluster_reply n (pb_Namespace pod') (pb_Name pod') = (Some v, None) → ap_PodIP v ≠ ip;
  oa_before pod' : pod' ∈ set_Pods req → pod' ≠ pod →
    pi_IP <$> info w (pb_Namespace pod') (pb_Name pod') ≠ Some ip;
}.

(** Every pod of the list out of chaos. *)
Definition forget_all (pods : list pb_Pod) w : W :=
  foldl (λ w pod, forget (pb_Namespace pod) (pb_Name pod) w) w pods.
End RequestSpecs.

Section OperationSpecs.
Context {Sel : Type} `{SelectorLib Sel}.
Variable env : Env.
Variable range : ∀ {A}, gmap string A → list (string * A).
Abbreviation W := (world Sel).
Implicit Types (w : W).

(** The entry at [l] has a new address, found at time [t], and is indexed by it; [n] replies have
    been used. The entry of its old address, if there is one, stays. *)
Definition moved (l : positive) (ip : string) (t : Z) (n : nat) w : W :=
  mkWorld (alter (λ p, set_time t (set_ip ip p)) l (store w)) (next w) (chaosMap w) (podMap w)
    (<[ip := l]> (ipPodMap w)) n (written w).

(** What happens to the chaos of the plugin: requests, queries, and at the start the pods of the
    configuration and the search for their addresses. *)
Inductive op : Type :=
| OpSet (req : SetDNSChaosRequest)
| OpCancel (req : CancelDNSChaosRequest)
| OpQuery (state : Request)
| OpStanza (ArgErr : go_error) (args : list string)
| OpInit.

(** The chaos of a query: the parts of [ServeDNS] that are in chaos.go. *)
Definition chaos_query (state : Request) : GoM W unit :=
  '(chaosPod, _) ← getChaosPod env (rq_IP state);
  podInfo ← match chaosPod with Some l => p ← deref l; mret (Some p) | None => mret None end;
  chaos ← lift_outcome (needChaos podInfo (rq_QName state));
  match podInfo with
  | Some p => if (chaos : bool) then chaosDNS env state p ≫= λ _, mret tt else mret tt
  | None => mret tt
  end.

Definition run_op (o : op) : GoM W unit :=
  match o with
  | OpSet req => SetDNSChaos env req ≫= λ _, mret tt
  | OpCancel req => CancelDNSChaos (@range) req ≫= λ _, mret tt
  | OpQuery state => chaos_query state
  | OpStanza ArgErr args => stanza_chaos ArgErr args
  | OpInit => init_chaos_pods env (@range)
  end.

(** The operations that [ok] allows. *)
Inductive chaos_step (ok : op → Prop) : W → W → Prop :=
| step_op o w : ok o → chaos_step ok w (run_op o w).2.

Definition reachable (ok : op → Prop) w : Prop := rtc (chaos_step ok) new_world w.

(** The entry a query finds has no selector, and its scope asks for one. *)
Definition lacks_selector (state : Request) w : Prop :=
  ∃ l p, (getChaosPod env (rq_IP state) w).1 = Ret (Some l, None) ∧ store w !! l = Some p ∧
    pi_Selector p = None ∧ pi_Scope p ≠ ScopeAll.

(** The scope of a directive [chaos] with pods is [all]. *)
Definition scoped_all (args : list string) : Prop :=
  match args with _ :: scope :: _ :: _ => scope = ScopeAll | _ => True end.

(** Every entry without a selector has the scope [all]. *)
Definition selectors_sound w : Prop :=
  ∀ l p, store w !! l = Some p → pi_Selector p = None → pi_Scope p = ScopeAll.

(** The client of the cluster is there. *)
Definition client_ready : Prop := ∀ n ns, is_Some (Client_Pods env n ns).
End OperationSpecs.

(** The patterns a request inserts for one of its patterns. *)
Definition expand (pattern : string) : list string :=
  pattern :: (if strings.Contains pattern "*" then [] else [pattern +:+ "."]).

(** Whether a request is about a name: it has no pattern, or one of them matches. *)
Definition covers `{SelectorLaws Sel} (req : SetDNSChaosRequest) (name : string) : bool :=
  (length (set_Patterns req) =? 0)%nat
  || existsb (λ p, pattern_matches p name) (concat (expand <$> set_Patterns req)).

(** * Facts *)

Lemma map_alter_twice {A} (f g : A → A) (l : positive) (m : gmap positive A) :
  alter (λ p, f (g p)) l m = alter f l (alter g l m).
Proof.
  apply map_eq. intros l'. destruct (decide (l = l')) as [->|Hne].
  - rewrite !lookup_alter_eq. by destruct (m !! l').
  - by rewrite !lookup_alter_ne.
Qed.

Section MapFacts.
Context {Sel : Type}.
Abbreviation W := (world Sel).
Implicit Types (w : W) (ns name : string).

Lemma pod_at_ensure w ns ns' name : pod_at (ensure_ns ns w) ns' name = pod_at w ns' name.
Proof.
  unfold pod_at, ensure_ns. destruct (podMap w !! ns) as [m|] eqn:Hm; [done|]. simpl.
  destruct (decide (ns = ns')) as [->|Hne].
  - rewrite lookup_insert_eq, Hm. simpl. apply lookup_empty.
  - by rewrite lookup_insert_ne.
Qed.

Lemma pod_at_delete w ns name ns' name' :
  pod_at (delete_pod ns name w) ns' name' =
    if decide (ns' = ns ∧ name' = name) then None else pod_at w ns' name'.
Proof.
  unfold pod_at, delete_pod. simpl. destruct (decide (ns = ns')) as [->|Hne].
  - rewrite lookup_alter_eq. destruct (podMap w !! ns') as [m|]; simpl.
    2: by case_decide.
    destruct (decide (name' = name)) as [->|Hne'].
    + rewrite lookup_delete_eq. by rewrite decide_True.
    + rewrite lookup_delete_ne by done. by rewrite decide_False by tauto.
  - rewrite lookup_alter_ne by done. rewrite decide_False by (intros [? _]; congruence). done.
Qed.

Lemma forget_store ns name w : store (forget ns name w) = store w.
Proof. unfold forget. repeat case_match; done. Qed.
Lemma forget_next ns name w : next (forget ns name w) = next w.
Proof. unfold forget. repeat case_match; done. Qed.
Lemma forget_chaosMap ns name w : chaosMap (forget ns name w) = chaosMap w.
Proof. unfold forget. repeat case_match; done. Qed.
Lemma forget_asked ns name w : asked (forget ns name w) = asked w.
Proof. unfold forget. repeat case_match; done. Qed.
Lemma forget_ips ns name w ip l :
  ipPodMap (forget ns name w) !! ip = Some l → ipPodMap w !! ip = Some l.
Proof. unfold forget. repeat case_match; try done. simpl. by intros [_ ?]%lookup_delete_Some. Qed.

Lemma pod_at_forget ns name w ns' name' :
  pod_at (forget ns name w) ns' name' =
    if decide (ns' = ns ∧ name' = name) then None else pod_at w ns' name'.
Proof.
  assert (Hset : ∀ f, pod_at (set_ipPodMap f (delete_pod ns name w)) ns' name'
                      = pod_at (delete_pod ns name w) ns' name') by done.
  unfold forget. destruct (pod_at w ns name) as [l|] eqn:Hl.
  - case_match; rewrite ?Hset; apply pod_at_delete.
  - case_decide as Hd; [|done]. by destruct Hd as [-> ->].
Qed.

Lemma pod_at_install p w ns name :
  pod_at (install p w) ns name =
    if decide (ns = pi_Namespace p ∧ name = pi_Name p) then Some (next w) else pod_at w ns name.
Proof.
  unfold pod_at, install. simpl. destruct (decide (ns = pi_Namespace p)) as [->|Hne].
  - rewrite lookup_insert_eq. simpl. destruct (decide (name = pi_Name p)) as [->|Hne].
    + rewrite lookup_insert_eq. by rewrite decide_True.
    + rewrite lookup_insert_ne by done. rewrite decide_False by tauto.
      destruct (podMap w !! pi_Namespace p); [done|]. simpl. apply lookup_empty.
  - rewrite lookup_insert_ne by done. by rewrite decide_False by tauto.
Qed.

Lemma info_forget ns name w ns' name' :
  info (forget ns name w) ns' name' =
    if decide (ns' = ns ∧ name' = name) then None else info w ns' name'.
Proof. unfold info. rewrite pod_at_forget, forget_store. by case_decide. Qed.

Lemma info_install p w ns name :
  wf w → info (install p w) ns name =
    if decide (ns = pi_Namespace p ∧ name = pi_Name p) then Some p else info w ns name.
Proof.
  intros Hw. unfold info. rewrite pod_at_install. case_decide as Hd; simpl.
  - by rewrite lookup_insert_eq.
  - destruct (pod_at w ns name) as [l|] eqn:Hl; [|done]. simpl. apply lookup_insert_ne.
    destruct (wf_pods w Hw ns name l Hl) as (q & Hq & _).
    pose proof (wf_store w Hw l (mk_is_Some _ _ Hq)). lia.
Qed.

(** ** The invariants *)

Lemma wf_new : wf (Sel:=Sel) new_world.
Proof.
  constructor.
  - intros l [p Hp]. simpl in Hp. by rewrite lookup_empty in Hp.
  - intros ns name l. unfold pod_at. simpl. by rewrite lookup_empty.
  - intros ip l. simpl. by rewrite lookup_empty.
Qed.

(** Only the store and the two maps matter. *)
Lemma by_address_ext w w' ip : store w' = store w → ipPodMap w' = ipPodMap w → by_address w' ip = by_address w ip.
Proof. unfold by_address. by intros -> ->. Qed.

Lemma by_address_forget ns name w ip :
  wf w → by_address (forget ns name w) ip =
    if decide (pi_IP <$> info w ns name = Some ip) then None else by_address w ip.
Proof.
  intros Hw. unfold by_address at 1, forget, info.
  destruct (pod_at w ns name) as [l|] eqn:Hl; simpl; [|done].
  destruct (wf_pods w Hw ns name l Hl) as (p & -> & _). simpl. case_decide as Hd.
  - injection Hd as <-. by rewrite lookup_delete_eq.
  - rewrite lookup_delete_ne; [done|]. intros Heq. apply Hd. by rewrite Heq.
Qed.

Lemma by_address_install p w ip :
  wf w → by_address (install p w) ip = if decide (ip = pi_IP p) then Some p else by_address w ip.
Proof.
  intros Hw. unfold by_address. simpl. case_decide as Hd.
  - by rewrite Hd, lookup_insert_eq; simpl; rewrite lookup_insert_eq.
  - rewrite lookup_insert_ne by done. destruct (ipPodMap w !! ip) as [l|] eqn:Hl; [|done]. simpl.
    pose proof (wf_store w Hw l (wf_ips w Hw ip l Hl)). by rewrite lookup_insert_ne by lia.
Qed.

Lemma indexed_after_ext (e1 e2 : string → string → option (PodInfo Sel)) (i1 i2 : string → option (PodInfo Sel))
    (news : list (PodInfo Sel)) ip :
  (∀ ns name, e1 ns name = e2 ns name) → (∀ ip, i1 ip = i2 ip) →
  indexed_after e1 i1 news ip = indexed_after e2 i2 news ip.
Proof.
  revert e1 e2 i1 i2. induction news as [|p news IH]; intros e1 e2 i1 i2 He Hi; [apply Hi|].
  simpl. apply IH; intros; [by rewrite He|by rewrite He, Hi].
Qed.

Lemma wf_ext w w' :
  store w' = store w → next w' = next w → (∀ ns name, pod_at w' ns name = pod_at w ns name) →
  ipPodMap w' = ipPodMap w → wf w → wf w'.
Proof.
  intros Hs Hn Hp Hi [H1 H2 H3].
  constructor; [intros l|intros ns name l|intros ip l]; rewrite ?Hs, ?Hn, ?Hp, ?Hi;
    [apply H1|apply H2|apply H3].
Qed.

Lemma exact_ext w w' :
  store w' = store w → (∀ ns name, pod_at w' ns name = pod_at w ns name) →
  ipPodMap w' = ipPodMap w → exact_index w → exact_index w'.
Proof.
  intros Hs Hp Hi H ip l. rewrite Hi, Hs. intros (p & ? & ? & ?)%H. exists p. by rewrite Hp.
Qed.

Lemma wf_forget ns name w : wf w → wf (forget ns name w).
Proof.
  intros [H1 H2 H3]. constructor; rewrite ?forget_store, ?forget_next; [done| |].
  - intros ns' name' l. rewrite pod_at_forget. case_decide; [done|]. apply H2.
  - intros ip l Hl%forget_ips. by eapply H3.
Qed.

Lemma exact_forget ns name w : wf w → exact_index w → exact_index (forget ns name w).
Proof.
  intros Hw He ip l Hl. rewrite forget_store.
  destruct (He ip l) as (p & Hp & Hip & Hat); [by eapply forget_ips|].
  exists p. split_and!; [done..|]. rewrite pod_at_forget. case_decide as Hd; [|done].
  destruct Hd as [<- <-]. exfalso. unfold forget in Hl. rewrite Hat, Hp in Hl. simpl in Hl.
  rewrite Hip in Hl. by rewrite lookup_delete_eq in Hl.
Qed.

Lemma wf_install p w : wf w → wf (install p w).
Proof.
  intros Hw. constructor; simpl.
  - intros l [q Hq]. apply lookup_insert_Some in Hq as [[<- _]|[_ Hq]]; [lia|].
    pose proof (wf_store w Hw l (mk_is_Some _ _ Hq)). lia.
  - intros ns name l. rewrite pod_at_install. case_decide as Hd.
    + intros [= <-]. destruct Hd as [-> ->]. exists p. by rewrite lookup_insert_eq.
    + intros Hl. destruct (wf_pods w Hw ns name l Hl) as (q & Hq & ?).
      pose proof (wf_store w Hw l (mk_is_Some _ _ Hq)). exists q.
      by rewrite lookup_insert_ne by lia.
  - intros ip l Hl. apply lookup_insert_Some in Hl as [[_ <-]|[_ Hl]].
    + rewrite lookup_insert_eq. by eexists.
    + destruct (wf_ips w Hw ip l Hl) as [q Hq]. pose proof (wf_store w Hw l (mk_is_Some _ _ Hq)).
      rewrite lookup_insert_ne by lia. by eexists.
Qed.

Lemma exact_install p w :
  wf w → pod_at w (pi_Namespace p) (pi_Name p) = None → exact_index w → exact_index (install p w).
Proof.
  intros Hw Hnone He ip l Hl. simpl in Hl. apply lookup_insert_Some in Hl as [[<- <-]|[Hne Hl]].
  - exists p. simpl. rewrite lookup_insert_eq, pod_at_install, decide_True by done. done.
  - destruct (He ip l Hl) as (q & Hq & Hip & Hat).
    pose proof (wf_store w Hw l (mk_is_Some _ _ Hq)). exists q. simpl.
    rewrite lookup_insert_ne by lia. split_and!; [done..|]. rewrite pod_at_install.
    case_decide as Hd; [|done]. destruct Hd as [H1 H2]. congruence.
Qed.
End MapFacts.

Section RunFacts.
Context {Sel : Type} `{SelectorLib Sel}.
Variable env : Env.
Abbreviation W := (world Sel).
Implicit Types (w : W).

Lemma getPodFromCluster_run ns name w :
  getPodFromCluster env ns name w = (Ret (cluster_reply env (asked w) ns name), tick w).
Proof. done. Qed.

Lemma wf_tick w : wf w → wf (tick w).
Proof. by apply wf_ext. Qed.
Lemma exact_tick w : exact_index w → exact_index (tick w).
Proof. by apply exact_ext. Qed.

Lemma wf_ensure ns w : wf w → wf (ensure_ns ns w).
Proof.
  apply wf_ext; [| |intros; apply pod_at_ensure|]; unfold ensure_ns; by case_match.
Qed.
Lemma exact_ensure ns w : exact_index w → exact_index (ensure_ns ns w).
Proof.
  apply exact_ext; [|intros; apply pod_at_ensure|]; unfold ensure_ns; by case_match.
Qed.
Lemma info_ensure ns w ns' name' : info (ensure_ns ns w) ns' name' = info w ns' name'.
Proof. unfold info. rewrite pod_at_ensure. unfold ensure_ns. by case_match. Qed.

Lemma pod_at_store w ns name l :
  wf w → pod_at w ns name = Some l → ∃ p, store w !! l = Some p.
Proof. intros Hw Hl. destruct (wf_pods w Hw ns name l Hl) as (p & ? & _). by exists p. Qed.

(** The three statements that remove a pod: those of [set_pod], and of [cancel_pod]. *)
Lemma forget_run ns name w l :
  wf w → pod_at w ns name = Some l →
  (modify (delete_pod ns name) ≫= λ _, deref l ≫= λ p, modify (set_ipPodMap (delete (pi_IP p)))) w
  = (Ret tt, forget ns name w).
Proof.
  intros Hw Hl. destruct (pod_at_store w ns name l Hw Hl) as [p Hp].
  unfold forget. rewrite Hl, Hp. go_simpl. unfold deref. simpl. by rewrite Hp.
Qed.

Lemma cancel_pod_run pod w :
  wf w → cancel_pod pod w = (Ret tt, forget (pb_Namespace pod) (pb_Name pod) w).
Proof.
  intros Hw. unfold cancel_pod. destruct (pod_at w (pb_Namespace pod) (pb_Name pod)) as [l|] eqn:Hl.
  - rewrite <- (forget_run _ _ w l) by done. go_simpl. by rewrite Hl.
  - unfold forget. rewrite Hl. go_simpl. by rewrite Hl.
Qed.

(** The world in which the new entry of a pod is made. *)
Definition cleared (pod : pb_Pod) (w : W) : W :=
  forget (pb_Namespace pod) (pb_Name pod) (ensure_ns (pb_Namespace pod) (tick w)).

Lemma ensured ns w : is_Some (podMap (ensure_ns ns w) !! ns).
Proof.
  unfold ensure_ns. destruct (podMap w !! ns) as [m|] eqn:Hm; [by rewrite Hm|]. simpl.
  by rewrite lookup_insert_eq.
Qed.

Lemma forget_podMap ns name w ns' :
  is_Some (podMap w !! ns') → is_Some (podMap (forget ns name w) !! ns').
Proof.
  intros Hs. unfold forget. repeat case_match; try done; simpl; by apply lookup_alter_is_Some.
Qed.

Lemma put_pod_run ns name l w m :
  podMap w !! ns = Some m →
  put_pod ns name l w = (Ret tt, set_podMap <[ns := <[name := l]> m]> w).
Proof. unfold put_pod. by intros ->. Qed.

Lemma set_pod_run req scope sel pod w :
  wf w →
  set_pod env req scope sel pod w =
    match cluster_reply env (asked w) (pb_Namespace pod) (pb_Name pod) with
    | (_, Some e) => (Throw e, tick w)
    | (None, None) => (Panic, cleared pod w)
    | (Some v1Pod, None) =>
        (Ret tt, install (new_info req scope sel pod v1Pod (time_Now env (asked w + 1)))
                   (tick (cleared pod w)))
    end.
Proof.
  intros Hw. unfold set_pod.
  set (ns := pb_Namespace pod). set (name := pb_Name pod).
  assert (Hwe : wf (ensure_ns ns (tick w))) by by apply wf_ensure, wf_tick.
  assert (Hrem : (match pod_at (ensure_ns ns (tick w)) ns name with
                  | Some l => modify (delete_pod ns name) ≫= λ _, deref l ≫= λ oldPod,
                                modify (set_ipPodMap (delete (pi_IP oldPod)))
                  | None => mret tt
                  end) (ensure_ns ns (tick w)) = (Ret tt, cleared pod w)).
  { destruct (pod_at _ ns name) as [l|] eqn:Hl; [by apply forget_run|].
    unfold cleared, forget. fold ns name. by rewrite Hl. }
  go_step getPodFromCluster_run.
  destruct (cluster_reply env (asked w) ns name) as [[v1Pod|] [e|]] eqn:Hrep; try done.
  all: do 2 go_step; go_step Hrem.
  2: done.
  do 3 go_step.
  assert (Hns : is_Some (podMap (cleared pod w) !! ns)) by apply forget_podMap, ensured.
  destruct Hns as [m Hm]. erewrite gom_bind_ret by (apply put_pod_run; exact Hm).
  unfold install, new_info. cbn -[lookup insert]. fold ns name. rewrite Hm.
  assert (Hasked : asked (cleared pod w) = asked w + 1).
  { unfold cleared. rewrite forget_asked. unfold ensure_ns. destruct (podMap (tick w) !! pb_Namespace pod); reflexivity. }
  rewrite Hasked. reflexivity.
Qed.

Lemma cleared_asked pod w : asked (cleared pod w) = asked w + 1.
Proof.
  unfold cleared. rewrite forget_asked. unfold ensure_ns.
  destruct (podMap (tick w) !! pb_Namespace pod); reflexivity.
Qed.

Lemma cleared_chaosMap pod w : chaosMap (cleared pod w) = chaosMap w.
Proof.
  unfold cleared. rewrite forget_chaosMap. unfold ensure_ns.
  destruct (podMap (tick w) !! pb_Namespace pod); reflexivity.
Qed.

Lemma cleared_wf pod w : wf w → wf (cleared pod w).
Proof. intros Hw. by apply wf_forget, wf_ensure, wf_tick. Qed.

Lemma cleared_exact pod w : wf w → exact_index w → exact_index (cleared pod w).
Proof.
  intros Hw He. apply exact_forget; [by apply wf_ensure, wf_tick|by apply exact_ensure, exact_tick].
Qed.

Lemma cleared_info pod w ns name :
  info (cleared pod w) ns name =
    if decide (ns = pb_Namespace pod ∧ name = pb_Name pod) then None else info w ns name.
Proof. unfold cleared. by rewrite info_forget, info_ensure. Qed.

Lemma cleared_pod_at pod w : pod_at (cleared pod w) (pb_Namespace pod) (pb_Name pod) = None.
Proof. unfold cleared. rewrite pod_at_forget. by rewrite decide_True. Qed.

Lemma kept_tick w : kept w (tick w).
Proof. constructor; [apply wf_tick|intros _; apply exact_tick|simpl; lia]. Qed.

Lemma kept_trans w1 w2 w3 : kept w1 w2 → kept w2 w3 → kept w1 w3.
Proof. intros [] []. constructor; [auto|auto|lia]. Qed.

Lemma kept_cleared pod w : kept w (cleared pod w).
Proof.
  constructor; [apply cleared_wf|apply cleared_exact|rewrite cleared_asked; lia].
Qed.

Lemma kept_set pod w p :
  pi_Namespace p = pb_Namespace pod → pi_Name p = pb_Name pod →
  kept w (install p (tick (cleared pod w))).
Proof.
  intros Hns Hn. constructor.
  - intros Hw. by apply wf_install, wf_tick, cleared_wf.
  - intros Hw He. apply exact_install; [by apply wf_tick, cleared_wf| |by apply exact_tick, cleared_exact].
    rewrite Hns, Hn. apply cleared_pod_at.
  - simpl. rewrite cleared_asked. lia.
Qed.

Lemma made_within req scope sel w1 w2 w1' w2' pod p :
  asked w1' ≤ asked w1 → asked w2 ≤ asked w2' →
  made env req scope sel w1 w2 pod p → made env req scope sel w1' w2' pod p.
Proof. intros H1 H2 (n & v & [Hn1 Hn2] & Hr & Hp). exists n, v. split_and!; [lia|lia|done..]. Qed.

Lemma by_address_cleared pod w ip :
  wf w → by_address (cleared pod w) ip =
    if decide (pi_IP <$> info w (pb_Namespace pod) (pb_Name pod) = Some ip) then None
    else by_address w ip.
Proof.
  intros Hw. unfold cleared. rewrite by_address_forget by by apply wf_ensure, wf_tick.
  rewrite info_ensure. change (info (tick w)) with (info w). case_decide; [done|].
  apply by_address_ext; unfold ensure_ns; by case_match.
Qed.

(** No pod set. *)
Lemma set_exactly_nil req scope sel w w' :
  (∀ ns name, info w' ns name = info w ns name) → (∀ ip, by_address w' ip = by_address w ip) →
  set_exactly env req scope sel w w' [].
Proof.
  intros Hi Hb. constructor; [by intros ? ?%not_elem_of_nil|done|]. by exists [].
Qed.

(** A loop of which the first pod was set. *)
Lemma set_exactly_cons req scope sel w1 w2 w3 pod p pods :
  asked w1 ≤ asked w2 ≤ asked w3 → made env req scope sel w1 w2 pod p →
  (∀ ns name, info w2 ns name =
     if decide (ns = pi_Namespace p ∧ name = pi_Name p) then Some p else info w1 ns name) →
  (∀ ip, by_address w2 ip = indexed_after (info w1) (by_address w1) [p] ip) →
  set_exactly env req scope sel w2 w3 pods → set_exactly env req scope sel w1 w3 (pod :: pods).
Proof.
  intros [Hle1 Hle2] Hmade Hinfo Hby [Hset Hoth (news & Hnews & Hix)].
  assert (Hkey : pi_Namespace p = pb_Namespace pod ∧ pi_Name p = pb_Name pod)
    by by destruct Hmade as (n & v & _ & _ & ->).
  destruct Hkey as [Hkns Hkn]. constructor.
  - intros q Hq. destruct (decide (q ∈ pods)) as [Hin|Hin].
    + destruct (Hset q Hin) as (pq & Hpq & Hi). exists pq. split; [|done]. by eapply made_within; [..|exact Hpq].
    + apply elem_of_cons in Hq as [->|]; [|done]. exists p. split; [by eapply made_within; [..|exact Hmade]|].
      rewrite Hoth by by destruct pod. rewrite Hinfo. by rewrite decide_True by by rewrite Hkns, Hkn.
  - intros ns name [Hne Hnin]%not_elem_of_cons. rewrite Hoth, Hinfo by done.
    rewrite decide_False; [done|]. rewrite Hkns, Hkn. intros [-> ->]. by destruct pod.
  - exists (p :: news). split.
    + constructor; [by eapply made_within; [..|exact Hmade]|].
      eapply Forall2_impl; [exact Hnews|]. intros q pq. by apply made_within.
    + intros ip. rewrite Hix. simpl. apply indexed_after_ext; [exact Hinfo|exact Hby].
Qed.

(** Only the entries, the index and the clock of the first world matter. *)
Lemma set_exactly_start req scope sel w0 w w' pods :
  asked w = asked w0 → (∀ ns name, info w ns name = info w0 ns name) →
  (∀ ip, by_address w ip = by_address w0 ip) →
  set_exactly env req scope sel w0 w' pods → set_exactly env req scope sel w w' pods.
Proof.
  intros Ha Hi Hb.
  assert (Hm : ∀ pod p, made env req scope sel w0 w' pod p → made env req scope sel w w' pod p)
    by (intros pod p; apply made_within; [by rewrite Ha|done]).
  intros [Hset Hoth (news & Hnews & Hix)]. constructor.
  - intros pod (p & Hp & Hip)%Hset. exists p. split; [by apply Hm|done].
  - intros ns name Hn. by rewrite Hoth, Hi.
  - exists news. split; [by eapply Forall2_impl|]. intros ip. rewrite Hix.
    by apply indexed_after_ext; symmetry.
Qed.

Lemma pods_set_start req scope sel w0 w w' pods o :
  asked w = asked w0 → (∀ ns name, info w ns name = info w0 ns name) →
  (∀ ip, by_address w ip = by_address w0 ip) →
  pods_set env req scope sel w0 w' pods o → pods_set env req scope sel w w' pods o.
Proof.
  intros Ha Hi Hb. destruct 1 as [pods H1|pre pod post n e H1 H2|pre pod post n H1].
  - by apply all_set, (set_exactly_start req scope sel w0).
  - by eapply cluster_failed; [by apply (set_exactly_start req scope sel w0)|].
  - by eapply no_client.
Qed.

Lemma pods_set_cons req scope sel w1 w2 w3 pod p pods o :
  asked w1 ≤ asked w2 ≤ asked w3 → made env req scope sel w1 w2 pod p →
  (∀ ns name, info w2 ns name =
     if decide (ns = pi_Namespace p ∧ name = pi_Name p) then Some p else info w1 ns name) →
  (∀ ip, by_address w2 ip = indexed_after (info w1) (by_address w1) [p] ip) →
  pods_set env req scope sel w2 w3 pods o → pods_set env req scope sel w1 w3 (pod :: pods) o.
Proof.
  intros Hle Hmade Hinfo Hby [pods' H1|pre q post n e H1 H2|pre q post n H1].
  - apply all_set. by eapply set_exactly_cons.
  - apply (cluster_failed _ _ _ _ _ _ (pod :: pre) q post n e); [by eapply set_exactly_cons|done].
  - by apply (no_client _ _ _ _ _ _ (pod :: pre) q post n).
Qed.

Lemma set_pods_run req scope sel pods w :
  wf w →
  let r := go_for (set_pod env req scope sel) pods w in
  kept w r.2 ∧ chaosMap r.2 = chaosMap w ∧ pods_set env req scope sel w r.2 pods r.1.
Proof.
  revert w. induction pods as [|pod pods IH]; intros w Hw; simpl.
  { split_and!; [by constructor|done|]. by apply all_set, set_exactly_nil. }
  destruct (cluster_reply env (asked w) (pb_Namespace pod) (pb_Name pod)) as [[v1Pod|] [e|]] eqn:Hrep.
  all: pose proof (set_pod_run req scope sel pod w Hw) as Hrun; rewrite Hrep in Hrun.
  - rewrite (gom_bind_throw _ _ _ _ _ Hrun). split_and!; [apply kept_tick|done|].
    apply (cluster_failed _ _ _ _ _ _ [] pod pods (asked w)); [by apply set_exactly_nil|by rewrite Hrep].
  - rewrite (gom_bind_ret _ _ _ _ _ Hrun).
    set (p := new_info req scope sel pod v1Pod (time_Now env (asked w + 1))).
    assert (Hk : kept w (install p (tick (cleared pod w)))) by by apply kept_set.
    assert (Hwt : wf (tick (cleared pod w))) by by apply wf_tick, cleared_wf.
    destruct (IH _ (kept_wf _ _ Hk Hw)) as (Hk2 & Hm2 & Hp2). split_and!.
    + by eapply kept_trans.
    + rewrite Hm2. simpl. apply cleared_chaosMap.
    + eapply (pods_set_cons _ _ _ _ _ _ _ p); [| | | |exact Hp2].
      * split; [apply (kept_asked _ _ Hk)|apply (kept_asked _ _ Hk2)].
      * exists (asked w), v1Pod. split_and!; [lia| |done..]. simpl. rewrite cleared_asked. lia.
      * intros ns name. rewrite info_install by done. case_decide as Hd; [done|].
        change (info (tick (cleared pod w)) ns name) with (info (cleared pod w) ns name).
        rewrite cleared_info. by rewrite decide_False.
      * intros ip. rewrite by_address_install by done. simpl. case_decide; [done|].
        exact (by_address_cleared pod w ip Hw).
  - rewrite (gom_bind_throw _ _ _ _ _ Hrun). split_and!; [apply kept_tick|done|].
    apply (cluster_failed _ _ _ _ _ _ [] pod pods (asked w)); [by apply set_exactly_nil|by rewrite Hrep].
  - rewrite (gom_bind_panic _ _ _ _ Hrun). split_and!; [apply kept_cleared|apply cleared_chaosMap|].
    by apply (no_client _ _ _ _ _ _ [] pod pods (asked w)).
Qed.
End RunFacts.

Section RequestFacts.
Context {Sel : Type} `{SelectorLib Sel}.
Variable env : Env.
Variable range : ∀ {A}, gmap string A → list (string * A).
Hypothesis range_map : ∀ A (m : gmap string A), range m ≡ₚ map_to_list m.
Abbreviation W := (world Sel).
Implicit Types (w : W).

Lemma add_pattern_no_panic sel p : add_pattern sel p ≠ Panic.
Proof.
  unfold add_pattern, insert_pattern. go_simpl. intros Hx. repeat case_match; discriminate.
Qed.

Lemma build_no_panic sel pats : go_fold add_pattern sel pats ≠ Panic.
Proof.
  revert sel. induction pats as [|p pats IH]; intros sel; [done|]. simpl.
  pose proof (add_pattern_no_panic sel p). destruct (add_pattern sel p); simpl; done.
Qed.

(** A request, on every outcome. *)
Lemma SetDNSChaos_run req w :
  wf w →
  let r := SetDNSChaos env req w in
  kept w r.2 ∧ chaosMap r.2 = <[set_Name req := req]> (chaosMap w) ∧
  match go_fold add_pattern NewTrieSelector (set_Patterns req) with
  | Ret sel => ∃ o, pods_set env req (request_scope req) sel w r.2 (set_Pods req) o ∧
      r.1 = ((λ _, mkResponse true "") <$> o)
  | Throw e => r.1 = Throw e ∧ r.2 = set_chaosMap <[set_Name req := req]> w
  | Panic => False
  end.
Proof.
  intros Hw. simpl. unfold SetDNSChaos. go_step.
  set (w0 := set_chaosMap <[set_Name req := req]> w).
  assert (Hw0 : wf w0) by (by apply (wf_ext w)).
  assert (Hk : kept w w0).
  { constructor; [by apply wf_ext|intros _; by apply exact_ext|done]. }
  pose proof (build_no_panic NewTrieSelector (set_Patterns req)) as Hnp.
  destruct (go_fold add_pattern NewTrieSelector (set_Patterns req)) as [sel|e|] eqn:Hsel; [| |done].
  2:{ erewrite gom_bind_throw by reflexivity. by split_and!. }
  go_step.
  destruct (set_pods_run env req (request_scope req) sel (set_Pods req) w0 Hw0) as (Hk2 & Hm & Hp).
  assert (Hpw : pods_set env req (request_scope req) sel w
    (go_for (set_pod env req (request_scope req) sel) (set_Pods req) w0).2 (set_Pods req)
    (go_for (set_pod env req (request_scope req) sel) (set_Pods req) w0).1)
    by (by apply (pods_set_start env req _ sel w0 w)).
  clear Hp. unfold mbind, gom_bind.
  destruct (go_for _ _ w0) as [o w1]. simpl in *.
  destruct o as [[]|e|]; simpl; (split_and!; [by eapply kept_trans|done|]); by eexists.
Qed.

(** The pod of an entry. *)
Definition pod_of (p : PodInfo Sel) : pb_Pod := mkPbPod (pi_Namespace p) (pi_Name p).

(** What is found at an address that only the entries of one pod have. *)
Lemma indexed_after_own (entries : string → string → option (PodInfo Sel))
    (index : string → option (PodInfo Sel)) (news : list (PodInfo Sel)) pod ip :
  (∀ q, q ∈ news → pod_of q = pod → pi_IP q = ip) →
  (∀ q, q ∈ news → pod_of q ≠ pod →
     pi_IP q ≠ ip ∧ pi_IP <$> entries (pi_Namespace q) (pi_Name q) ≠ Some ip) →
  (∃ p, p ∈ news ∧ pod_of p = pod ∧ indexed_after entries index news ip = Some p) ∨
  ((∀ q, q ∈ news → pod_of q ≠ pod) ∧ indexed_after entries index news ip = index ip).
Proof.
  revert entries index. induction news as [|p news IH]; intros entries index Hown Hother.
  { right. split; [|done]. by intros q ?%not_elem_of_nil. }
  set (entries' := λ ns name, if decide (ns = pi_Namespace p ∧ name = pi_Name p) then Some p else entries ns name).
  set (index' := λ ip, if decide (ip = pi_IP p) then Some p
    else if decide (pi_IP <$> entries (pi_Namespace p) (pi_Name p) = Some ip) then None else index ip).
  destruct (IH entries' index') as [(q & Hq & Hpod & Hi)|[Hnone Hi]].
  - intros q Hq. apply Hown. by right.
  - intros q Hq Hne. destruct (Hother q) as [Hip He]; [by right|done|]. split; [done|].
    unfold entries'. case_decide as Hd; [|done]. destruct Hd as [Hns Hn].
    destruct (Hother p) as [Hp _]; [by left| |by intros [= ?]]. unfold pod_of in *. congruence.
  - left. exists q. split; [by right|done].
  - assert (Hstep : indexed_after entries index (p :: news) ip = index' ip) by exact Hi.
    destruct (decide (pod_of p = pod)) as [Heq|Hne].
    + left. exists p. split; [by left|]. split; [done|]. rewrite Hstep. unfold index'.
      rewrite decide_True; [done|]. symmetry. apply Hown; [by left|done].
    + right. split; [by intros q [->|Hq]%elem_of_cons; [|apply Hnone]|]. rewrite Hstep. unfold index'.
      destruct (Hother p) as [Hp He]; [by left|done|]. by rewrite !decide_False.
Qed.

(** A request that succeeded: at the address of a pod of its own its entry is found. *)
Lemma set_found req w pod ip :
  let r := SetDNSChaos env req w in
  wf w → r.1 = Ret (mkResponse true "") → pod ∈ set_Pods req → own_address_of env req w r.2 pod ip →
  ∃ sel l p, go_fold add_pattern NewTrieSelector (set_Patterns req) = Ret sel ∧
    ipPodMap r.2 !! ip = Some l ∧ store r.2 !! l = Some p ∧
    made env req (request_scope req) sel w r.2 pod p.
Proof.
  intros r Hw Hok Hin [Hpod Hothers Hbefore]. destruct (SetDNSChaos_run req w Hw) as (_ & _ & Hr).
  fold r in Hr. rewrite Hok in Hr.
  destruct (go_fold add_pattern NewTrieSelector (set_Patterns req)) as [sel|e|]; [|by destruct Hr|done].
  destruct Hr as (o & Ho & Hres). destruct Ho as [pods [_ _ (news & Hnews & Hix)]| |]; [|discriminate..].
  assert (Hmade : ∀ q, q ∈ news → pod_of q ∈ pods ∧ made env req (request_scope req) sel w r.2 (pod_of q) q).
  { intros q (i & Hi)%list_elem_of_lookup. destruct (Forall2_lookup_r _ _ _ _ _ Hnews Hi) as (pod' & Hi' & Hm).
    assert (Heq : pod_of q = pod') by (destruct Hm as (n & v & _ & _ & ->); by destruct pod').
    rewrite Heq. split; [by eapply list_elem_of_lookup_2|done]. }
  destruct (indexed_after_own (info w) (by_address w) news pod ip) as [(p & Hp & Heq & Hi)|[Hnone _]].
  - intros q Hq Heq. destruct (Hmade q Hq) as [_ (n & v & Hn & Hv & Hqe)]. rewrite Heq in Hv, Hqe.
    rewrite Hqe. apply (Hpod n); [lia|done].
  - intros q Hq Hne. destruct (Hmade q Hq) as [Hqin (n & v & Hn & Hv & Hqe)]. split.
    + rewrite Hqe. apply (Hothers (pod_of q) n); [done|done|lia|done].
    + exact (Hbefore (pod_of q) Hqin Hne).
  - rewrite <- Hix in Hi. apply bind_Some in Hi as (l & Hl & Hstore). exists sel, l, p.
    split_and!; [done..|]. destruct (Hmade p Hp) as [_ Hm]. by rewrite Heq in Hm.
  - apply list_elem_of_lookup in Hin as [i Hi].
    destruct (Forall2_lookup_l _ _ _ _ _ Hnews Hi) as (q & Hq & Hm).
    destruct (Hnone q); [by eapply list_elem_of_lookup_2|].
    destruct Hm as (n & v & _ & _ & ->). by destruct pod.
Qed.

(** ** Cancelling *)

Lemma forget_all_run pods w : wf w → go_for cancel_pod pods w = (Ret tt, forget_all pods w).
Proof.
  revert w. induction pods as [|pod pods IH]; intros w Hw; [done|]. simpl.
  erewrite gom_bind_ret by (by apply cancel_pod_run). apply IH. by apply wf_forget.
Qed.

Lemma forget_all_kept pods w : kept w (forget_all pods w).
Proof.
  revert w. induction pods as [|pod pods IH]; intros w; [by constructor|].
  eapply kept_trans; [|apply IH]. constructor;
    [apply wf_forget|apply exact_forget|by rewrite forget_asked].
Qed.

Lemma forget_all_chaosMap pods w : chaosMap (forget_all pods w) = chaosMap w.
Proof.
  revert w. induction pods as [|pod pods IH]; intros w; [done|]. simpl.
  by rewrite IH, forget_chaosMap.
Qed.

Lemma forget_all_store pods w : store (forget_all pods w) = store w.
Proof.
  revert w. induction pods as [|pod pods IH]; intros w; [done|]. simpl. by rewrite IH, forget_store.
Qed.

Lemma forget_index ns name w ip :
  wf w → ipPodMap (forget ns name w) !! ip =
    if decide (pi_IP <$> info w ns name = Some ip) then None else ipPodMap w !! ip.
Proof.
  intros Hw. unfold forget, info. destruct (pod_at w ns name) as [l|] eqn:Hl; simpl; [|done].
  destruct (wf_pods w Hw ns name l Hl) as (p & -> & _). simpl. case_decide as Hd.
  - injection Hd as <-. by rewrite lookup_delete_eq.
  - rewrite lookup_delete_ne; [done|]. intros Heq. apply Hd. by rewrite Heq.
Qed.

(** The index loses exactly the addresses of the entries. *)
Lemma forget_all_index pods w ip :
  wf w → ipPodMap (forget_all pods w) !! ip =
    if decide (ip ∈ addresses_of w pods) then None else ipPodMap w !! ip.
Proof.
  unfold addresses_of. revert w. induction pods as [|pod pods IH]; intros w Hw; [done|]. simpl.
  rewrite IH, forget_index by (done || by apply wf_forget).
  set (a := pi_IP <$> info w (pb_Namespace pod) (pb_Name pod)).
  assert (Hrest : a ≠ Some ip →
    ip ∈ omap (λ q, pi_IP <$> info (forget (pb_Namespace pod) (pb_Name pod) w) (pb_Namespace q) (pb_Name q)) pods
    ↔ ip ∈ omap (λ q, pi_IP <$> info w (pb_Namespace q) (pb_Name q)) pods).
  { intros Ha. rewrite !list_elem_of_omap. apply exist_proper. intros q. rewrite info_forget.
    case_decide as Hd; [|done]. destruct Hd as [-> ->]. fold a. naive_solver. }
  destruct (decide (a = Some ip)) as [Ha|Ha].
  - rewrite Ha. rewrite (decide_True (P:=ip ∈ ip :: _)) by by left. by case_decide.
  - specialize (Hrest Ha). destruct a as [ip'|]; [|by apply decide_ext].
    apply decide_ext. rewrite Hrest, elem_of_cons. naive_solver.
Qed.

Lemma forget_all_info pods w ns name :
  info (forget_all pods w) ns name =
    if decide (mkPbPod ns name ∈ pods) then None else info w ns name.
Proof.
  revert w. induction pods as [|[ns' name'] pods IH]; intros w.
  - by rewrite decide_False by apply not_elem_of_nil.
  - simpl. rewrite IH, info_forget. simpl.
    destruct (decide (mkPbPod ns name ∈ pods)) as [Hin|Hin].
    + by rewrite decide_True by (by right).
    + destruct (decide (ns = ns' ∧ name = name')) as [[-> ->]|Hne].
      * by rewrite decide_True by (by left).
      * rewrite decide_False; [done|]. intros [[= -> ->]|?]%elem_of_cons; tauto.
Qed.

Lemma shouldDeleteNs_spec m ns : ns ∈ shouldDeleteNs (@range) m ↔ m !! ns = Some ∅.
Proof.
  unfold shouldDeleteNs.
  assert (Hl : ∀ l acc, ns ∈ foldl (λ acc '(n, pods), if (size pods =? 0)%nat then acc ++ [n] else acc)
      acc l ↔ ns ∈ acc ∨ (ns, ∅) ∈ (l : list (string * gmap string positive))).
  { induction l as [|[n pods] l IH]; intros acc; simpl.
    - rewrite elem_of_nil. tauto.
    - rewrite IH, elem_of_cons. destruct (Nat.eqb_spec (size pods) 0) as [Hs|Hs].
      + apply map_size_empty_inv in Hs as ->. rewrite elem_of_app, list_elem_of_singleton.
        naive_solver.
      + split; [naive_solver|]. intros [|[[= <- <-]|]]; [naive_solver| |naive_solver].
        by rewrite map_size_empty in Hs. }
  rewrite Hl, elem_of_nil, (range_map _ m), elem_of_map_to_list. tauto.
Qed.

(** Removing namespaces. *)
Lemma drop_namespaces_run l w :
  ∃ m, go_for (λ namespace, modify (set_podMap (delete namespace))) l w =
      (Ret tt, set_podMap (λ _, m) w) ∧
    (∀ ns, ns ∈ l → m !! ns = None) ∧ (∀ ns, ns ∉ l → m !! ns = podMap w !! ns).
Proof.
  revert w. induction l as [|ns l IH]; intros w; simpl.
  - exists (podMap w). split; [by destruct w|]. split; [|done]. by intros ? ?%not_elem_of_nil.
  - go_step. destruct (IH (set_podMap (delete ns) w)) as (m & -> & Hin & Hout).
    exists m. split; [done|]. split.
    + intros ns' [->|]%elem_of_cons; [|by apply Hin].
      destruct (decide (ns ∈ l)) as [|Hn]; [by apply Hin|]. rewrite (Hout ns Hn).
      apply lookup_delete_eq.
    + intros ns' [Hne Hn]%not_elem_of_cons. rewrite (Hout ns' Hn). by apply lookup_delete_ne.
Qed.

(** The namespaces without pods are dropped: no pod is, and nothing else changes. *)
Lemma CancelDNSChaos_eq req w set :
  wf w → chaosMap w !! cancel_Name req = Some set →
  ∃ m, CancelDNSChaos (@range) req w =
      (Ret (mkResponse true ""),
       set_chaosMap (delete (cancel_Name req)) (set_podMap (λ _, m) (forget_all (set_Pods set) w))) ∧
    (∀ ns name, (m !! ns ≫= λ pods, pods !! name) = pod_at (forget_all (set_Pods set) w) ns name) ∧
    (∀ ns pods, m !! ns = Some pods → pods ≠ ∅).
Proof.
  intros Hw Hset. unfold CancelDNSChaos. go_step. rewrite Hset.
  erewrite gom_bind_ret by (by apply forget_all_run). go_step.
  set (w1 := forget_all (set_Pods set) w).
  destruct (drop_namespaces_run (shouldDeleteNs (@range) (podMap w1)) w1)
    as (m & Hrun & Hin & Hout).
  erewrite gom_bind_ret by exact Hrun. go_step. exists m. split; [done|].
  split; intros ns; destruct (decide (ns ∈ shouldDeleteNs (@range) (podMap w1))) as [Hns|Hns].
  - intros name. rewrite (Hin ns Hns). apply shouldDeleteNs_spec in Hns. unfold pod_at. rewrite Hns.
    simpl. by rewrite lookup_empty.
  - intros name. by rewrite (Hout ns Hns).
  - intros pods. by rewrite (Hin ns Hns).
  - intros pods Hp ->. rewrite (Hout ns Hns) in Hp. by apply Hns, shouldDeleteNs_spec.
Qed.

Lemma CancelDNSChaos_run req w set :
  wf w → chaosMap w !! cancel_Name req = Some set →
  let r := CancelDNSChaos (@range) req w in
  r.1 = Ret (mkResponse true "") ∧ kept w r.2 ∧
  chaosMap r.2 = delete (cancel_Name req) (chaosMap w) ∧
  (∀ ns name, info r.2 ns name =
     if decide (mkPbPod ns name ∈ set_Pods set) then None else info w ns name) ∧
  (∀ ns m, podMap r.2 !! ns = Some m → m ≠ ∅).
Proof.
  intros Hw Hset. destruct (CancelDNSChaos_eq req w set Hw Hset) as (m & -> & Hat & Hne). simpl.
  split_and!; [done| |by rewrite forget_all_chaosMap| |done].
  - eapply kept_trans; [apply (forget_all_kept (set_Pods set))|]. constructor; [| |done].
    + by apply wf_ext.
    + intros _. by apply exact_ext.
  - intros ns name. rewrite <- (forget_all_info (set_Pods set)). unfold info. by rewrite <- Hat.
Qed.

Lemma CancelDNSChaos_index req w set :
  wf w → chaosMap w !! cancel_Name req = Some set →
  store (CancelDNSChaos (@range) req w).2 = store w ∧
  ∀ ip, ipPodMap (CancelDNSChaos (@range) req w).2 !! ip =
    if decide (ip ∈ addresses_of w (set_Pods set)) then None else ipPodMap w !! ip.
Proof.
  intros Hw Hset. destruct (CancelDNSChaos_eq req w set Hw Hset) as (m & -> & _).
  split; [apply forget_all_store|]. intros ip. by apply forget_all_index.
Qed.
End RequestFacts.

Section QueryFacts.
Context {Sel : Type} `{SelectorLib Sel}.
Variable env : Env.
Abbreviation W := (world Sel).
Implicit Types (w : W).

Lemma wf_moved l ip t n w : wf w → is_Some (store w !! l) → wf (moved l ip t n w).
Proof.
  intros Hw Hl. constructor; simpl.
  - intros l' Hl'. apply (wf_store w Hw). by eapply lookup_alter_is_Some.
  - intros ns name l' Hl'. destruct (wf_pods w Hw ns name l' Hl') as (p & Hp & Hns & Hn).
    destruct (decide (l = l')) as [->|Hne].
    + rewrite lookup_alter_eq, Hp. by eexists.
    + rewrite lookup_alter_ne by done. by exists p.
  - intros ip' l' [[_ <-]|[_ Hl']]%lookup_insert_Some; apply lookup_alter_is_Some; [done|].
    by eapply wf_ips.
Qed.

(** The update of an entry whose pod has moved. *)
Lemma move_run {A} l podIP p (k : GoM W A) w :
  store w !! l = Some p →
  (assign l (set_ip podIP) ≫= λ _, now env ≫= λ t, assign l (set_time t) ≫= λ _,
   deref l ≫= λ p, modify (set_ipPodMap (delete (pi_IP p))) ≫= λ _,
   modify (set_ipPodMap <[podIP := l]>) ≫= λ _, k) w =
  k (moved l podIP (time_Now env (asked w)) (asked w + 1) w).
Proof.
  intros Hp. do 3 go_step.
  erewrite gom_bind_ret.
  2:{ unfold deref. cbn [store set_store].
      rewrite !lookup_alter_eq. cbn [store set_store]. rewrite Hp. reflexivity. }
  do 2 go_step. f_equal. unfold moved, set_ipPodMap, set_store.
  cbn [store next chaosMap podMap ipPodMap asked written pi_IP set_time set_ip].
  by rewrite insert_delete_eq, <- map_alter_twice.
Qed.

(** Finding the pod behind an address, branch by branch. *)
Lemma getChaosPod_run ip w :
  getChaosPod env ip w =
    match ipPodMap w !! ip with
    | None => (Ret (None, None), w)
    | Some l =>
        match store w !! l with
        | None => (Panic, w)
        | Some p =>
            if (10 * Second <? time_Now env (asked w) - pi_LastUpdateTime p)%Z then
              match cluster_reply env (asked w + 1) (pi_Namespace p) (pi_Name p) with
              | (_, Some e) => (Ret (None, Some e), tick (tick w))
              | (None, None) => (Panic, tick (tick w))
              | (Some v1Pod, None) =>
                  (Ret (Some l, None),
                   if (ap_PodIP v1Pod =? pi_IP p)%string then tick (tick w)
                   else moved l (ap_PodIP v1Pod) (time_Now env (asked w + 2)) (asked w + 3) w)
              end
            else (Ret (Some l, None), tick w)
        end
    end.
Proof.
  unfold getChaosPod. go_step. destruct (ipPodMap w !! ip) as [l|]; [|done].
  destruct (store w !! l) as [p|] eqn:Hp.
  2:{ apply gom_bind_panic. unfold deref. by rewrite Hp. }
  assert (Hd : ∀ w', store w' = store w → deref l w' = (Ret p, w'))
    by (intros w' Hs; unfold deref; by rewrite Hs, Hp).
  go_step Hd. go_step.
  destruct (10 * Second <? _)%Z; [|done]. go_step getPodFromCluster_run.
  change (asked (tick w)) with (asked w + 1).
  destruct (cluster_reply env _ _ _) as [[v1Pod|] [e|]]; try done.
  go_step. go_step Hd.
  destruct (ap_PodIP v1Pod =? pi_IP p)%string; [done|]. cbn [negb].
  rewrite (move_run l _ p) by exact Hp. unfold mret, gom_ret, moved, tick.
  cbn [store next chaosMap podMap ipPodMap asked written]. by rewrite <- !Nat.add_assoc.
Qed.

Lemma init_pod_run l p w :
  store w !! l = Some p →
  init_pod env l w =
    match cluster_reply env (asked w) (pi_Namespace p) (pi_Name p) with
    | (_, Some e) => (Throw e, tick w)
    | (None, None) => (Panic, tick w)
    | (Some v1Pod, None) =>
        (Ret tt, moved l (ap_PodIP v1Pod) (time_Now env (asked w + 1)) (asked w + 2) w)
    end.
Proof.
  intros Hp. unfold init_pod. erewrite gom_bind_ret.
  2:{ unfold deref. rewrite Hp. reflexivity. }
  go_step getPodFromCluster_run.
  destruct (cluster_reply env _ _ _) as [[v1Pod|] [e|]]; try done.
  do 5 go_step. unfold modify, moved, set_ipPodMap, set_store, tick.
  cbn [store next chaosMap podMap ipPodMap asked written].
  rewrite <- map_alter_twice, <- !Nat.add_assoc. done.
Qed.

Lemma cluster_reply_ready n ns name : client_ready env → cluster_reply env n ns name ≠ (None, None).
Proof.
  intros Hr. unfold cluster_reply. destruct (Hr n ns) as [get ->]. by destruct (get name).
Qed.

Lemma wf_getChaosPod ip w : wf w → wf (getChaosPod env ip w).2.
Proof.
  intros Hw. rewrite getChaosPod_run. repeat case_match; simpl; auto using wf_tick.
  apply wf_moved; [done|by eexists].
Qed.
End QueryFacts.

(** ** Nothing panics *)

Section SafeFacts.
Context {Sel : Type} `{SelectorLib Sel}.
Variable env : Env.
Variable range : ∀ {A}, gmap string A → list (string * A).
Hypothesis range_map : ∀ A (m : gmap string A), range m ≡ₚ map_to_list m.
Hypothesis ready : client_ready env.
Abbreviation W := (world Sel).
Implicit Types (w : W).

Lemma stanza_pod_run e action scope arg w :
  stanza_pod e action scope arg w =
    match split_first_dot arg with
    | None => (Throw e, w)
    | Some (ns, name) => (Ret tt, configured_pod (mkPodInfo ns name action scope None "" 0) w)
    end.
Proof.
  unfold stanza_pod. destruct (split_first_dot arg) as [[ns name]|]; [|done].
  do 2 go_step. destruct (ensured ns w) as [m Hm]. unfold put_pod. cbn [podMap].
  rewrite Hm. unfold configured_pod, install, set_ipPodMap, set_podMap. cbn -[lookup insert ensure_ns].
  rewrite Hm. do 2 f_equal. unfold ensure_ns. by case_match.
Qed.

Lemma wf_configured p w : wf w → wf (configured_pod p w).
Proof.
  intros Hw. pose proof (wf_install p _ (wf_ensure (pi_Namespace p) w Hw)) as [H1 H2 H3].
  constructor; [exact H1|exact H2|]. intros ip l Hl. simpl in *.
  destruct (wf_ips w Hw ip l Hl) as [q Hq].
  assert (Hs : store (ensure_ns (pi_Namespace p) w) = store w) by (unfold ensure_ns; by case_match).
  rewrite Hs, lookup_insert_is_Some.
  destruct (decide (next (ensure_ns (pi_Namespace p) w) = l)); [by left|right].
  split; [done|by eexists].
Qed.

Lemma info_configured p w ns name :
  wf w → info (configured_pod p w) ns name =
    if decide (ns = pi_Namespace p ∧ name = pi_Name p) then Some p else info w ns name.
Proof.
  intros Hw. rewrite <- (info_ensure (pi_Namespace p) w).
  exact (info_install p _ ns name (wf_ensure _ _ Hw)).
Qed.

Lemma stanza_pod_safe e action scope arg : safe wf (stanza_pod (Sel:=Sel) e action scope arg).
Proof.
  intros w Hw. rewrite stanza_pod_run. destruct (split_first_dot arg) as [[ns name]|]; [|done].
  split; [|done]. by apply wf_configured.
Qed.

Lemma init_pod_safe w0 l :
  is_Some (store w0 !! l) →
  safe (λ w, wf w ∧ ∀ l, is_Some (store w0 !! l) → is_Some (store w !! l)) (init_pod env l).
Proof.
  intros Hl w [Hw Hs]. destruct (Hs l Hl) as [p Hp]. rewrite (init_pod_run env l p w Hp).
  pose proof (cluster_reply_ready env (asked w) (pi_Namespace p) (pi_Name p) ready).
  destruct (cluster_reply env _ _ _) as [[v1Pod|] [e|]]; try done; simpl.
  - split; [|done]. split; [by apply wf_tick|done].
  - split; [|done]. split; [apply wf_moved; [done|by eexists]|].
    intros l' Hl'. apply lookup_alter_is_Some. by apply Hs.
  - split; [|done]. split; [by apply wf_tick|done].
Qed.

Lemma init_chaos_pods_safe : safe wf (init_chaos_pods (Sel:=Sel) env (@range)).
Proof.
  intros w Hw. unfold init_chaos_pods. go_step.
  assert (Hloop : safe (λ w', wf w' ∧ ∀ l, is_Some (store w !! l) → is_Some (store w' !! l))
    (go_for (λ '(_, pods), go_for (λ '(_, l), init_pod env l) (range pods)) (range (podMap w)))).
  { apply safe_for. intros [ns pods] Hpods. apply safe_for. intros [name l] Hl.
    apply init_pod_safe. rewrite range_map in Hpods, Hl.
    apply elem_of_map_to_list in Hpods, Hl.
    destruct (wf_pods w Hw ns name l) as (p & Hp & _); [|by eexists].
    unfold pod_at. by rewrite Hpods. }
  by destruct (Hloop w (conj Hw (λ l Hl, Hl))) as [[? _] ?].
Qed.

Lemma stanza_safe e args : safe wf (stanza_chaos (Sel:=Sel) e args).
Proof.
  unfold stanza_chaos. destruct args as [|action [|scope [|p pods]]]; try by intros w Hw.
  apply safe_for. intros. apply stanza_pod_safe.
Qed.

Lemma pods_set_ready req scope sel w w' pods o :
  pods_set env req scope sel w w' pods o → o ≠ Panic.
Proof.
  destruct 1 as [| |pre pod post n Hn]; [done|done|].
  by destruct (cluster_reply_ready env n (pb_Namespace pod) (pb_Name pod) ready).
Qed.

Lemma SetDNSChaos_safe req : safe wf (SetDNSChaos (Sel:=Sel) env req).
Proof.
  intros w Hw. destruct (SetDNSChaos_run env req w Hw) as (Hk & _ & Hr).
  split; [by apply Hk|]. destruct (go_fold _ _ _) as [sel|e|]; [| |done].
  - destruct Hr as (o & Ho%pods_set_ready & ->). by destruct o.
  - by destruct Hr as [-> _].
Qed.

Lemma CancelDNSChaos_safe req : safe wf (CancelDNSChaos (Sel:=Sel) (@range) req).
Proof.
  intros w Hw. destruct (chaosMap w !! cancel_Name req) as [set|] eqn:Hset.
  - destruct (CancelDNSChaos_run (@range) range_map req w set Hw Hset) as (-> & Hk & _).
    split; [by apply Hk|done].
  - unfold CancelDNSChaos. go_step. by rewrite Hset.
Qed.

Lemma getChaosPod_safe ip : safe wf (getChaosPod (Sel:=Sel) env ip).
Proof.
  intros w Hw. split; [by apply wf_getChaosPod|]. rewrite getChaosPod_run.
  destruct (ipPodMap w !! ip) as [l|] eqn:Hl; [|done].
  destruct (wf_ips w Hw ip l Hl) as [p ->].
  destruct (10 * Second <? _)%Z; [|done].
  pose proof (cluster_reply_ready env (asked w + 1) (pi_Namespace p) (pi_Name p) ready).
  by destruct (cluster_reply env _ _ _) as [[v1Pod|] [e|]].
Qed.

(** An answer of the chaos writes a message at most. *)
Lemma chaosDNS_maps state p w :
  let r := chaosDNS (Sel:=Sel) env state p w in
  r.1 ≠ Panic ∧ store r.2 = store w ∧ next r.2 = next w ∧ podMap r.2 = podMap w ∧ ipPodMap r.2 = ipPodMap w.
Proof.
  simpl. unfold chaosDNS, getRandomIPv4. destruct (pi_Action p =? ActionError)%string; [done|].
  destruct (rq_QType state =? TypeA)%Z; [|by destruct (rq_QType state =? TypeAAAA)%Z].
  cbn [random_bytes]. by repeat go_step.
Qed.

(** What the query finds is an entry of before, with the same scope and selector. *)
Lemma getChaosPod_found ip w l err w1 :
  wf w → getChaosPod (Sel:=Sel) env ip w = (Ret (Some l, err), w1) →
  err = None ∧ ∃ p p1, store w !! l = Some p ∧ store w1 !! l = Some p1 ∧
    pi_Scope p1 = pi_Scope p ∧ pi_Selector p1 = pi_Selector p.
Proof.
  intros Hw. rewrite getChaosPod_run. destruct (ipPodMap w !! ip) as [l'|] eqn:Hl; [|done].
  destruct (wf_ips w Hw ip l' Hl) as [p Hp]. rewrite Hp.
  destruct (10 * Second <? _)%Z; [|intros [= -> <- <-]; split; [done|by exists p, p]].
  destruct (cluster_reply env _ _ _) as [[v1Pod|] [e|]]; try done. intros [= -> <- <-]. split; [done|].
  destruct (ap_PodIP v1Pod =? pi_IP p)%string; [by exists p, p|].
  eexists p, _. split; [done|]. split; [simpl; by rewrite lookup_alter_eq, Hp|done].
Qed.

(** The chaos of a query panics exactly when the entry lacks the selector it needs. *)
Lemma chaos_query_run state w :
  wf w → wf (chaos_query env state w).2 ∧
  ((chaos_query env state w).1 = Panic ↔ lacks_selector env state w).
Proof.
  intros Hw. pose proof (wf_getChaosPod env (rq_IP state) w Hw) as Hw1.
  pose proof (proj2 (getChaosPod_safe (rq_IP state) w Hw)) as Hsafe. unfold chaos_query, lacks_selector.
  destruct (getChaosPod env (rq_IP state) w) as [[[[l|] err]|e|] w1] eqn:Hg; simpl in Hw1, Hsafe;
    [| | |done].
  2: rewrite (gom_bind_ret _ _ _ _ _ Hg). 3: rewrite (gom_bind_throw _ _ _ _ _ Hg).
  2, 3: split; [exact Hw1|split; [discriminate|by intros (l' & p & [=] & _)]].
  rewrite (gom_bind_ret _ _ _ _ _ Hg).
  destruct (getChaosPod_found _ _ _ _ _ Hw Hg) as (-> & p & p1 & Hp & Hp1 & Hscope & Hsel).
  erewrite gom_bind_ret by (erewrite gom_bind_ret; [reflexivity|unfold deref; by rewrite Hp1]).
  unfold needChaos. rewrite Hscope, Hsel. unfold mbind, gom_bind, lift_outcome. simpl.
  assert (Hout : ∀ b : bool, let r := (if b then chaosDNS env state p1 ≫= λ _, mret tt else mret tt) w1 in
    wf r.2 ∧ r.1 ≠ Panic).
  { intros []; [|done]. destruct (chaosDNS_maps state p1 w1) as (Hnp & Hs & Hn & Hpm & Him).
    unfold mbind, gom_bind. destruct (chaosDNS env state p1 w1) as [[|e|] w2]; simpl in *; try done.
    all: split; [|done]; revert Hw1; apply wf_ext; try done; intros; unfold pod_at; by rewrite Hpm. }
  assert (Hnot : ∀ P : Prop, (∃ l' p', Ret (Some l, None) = Ret (Some l', None : option go_error) ∧
    store w !! l' = Some p' ∧ pi_Selector p' = None ∧ pi_Scope p' ≠ ScopeAll) →
    (pi_Selector p = None ∧ pi_Scope p ≠ ScopeAll → P) → P).
  { intros P (l' & p' & [= <-] & Hp' & Hnone & Hne) HP. rewrite Hp in Hp'. injection Hp' as <-. by apply HP. }
  destruct (String.eqb_spec (pi_Scope p) ScopeAll) as [Hall|Hall].
  - destruct (Hout true) as [H1 H2]. split; [exact H1|]. split; [done|]. intros Hl. apply (Hnot _ Hl). naive_solver.
  - destruct (pi_Selector p) as [sel|] eqn:Hs; [|split; [done|]; split; [|done]; by exists l, p].
    destruct (match selector_Match sel (rq_QName state) with
      [] => Ret false | RBool m :: _ => Ret m | ROther :: _ => Ret false end) as [b|e|] eqn:Hb;
      [|by repeat case_match..].
    destruct (Hout b) as [H1 H2]. split; [exact H1|]. split; [done|]. intros Hl. apply (Hnot _ Hl). naive_solver.
Qed.

Lemma run_op_wf o w : wf w → wf (run_op (Sel:=Sel) env (@range) o w).2.
Proof.
  destruct o as [req|req|state|e args|]; simpl.
  - apply (safe_bind wf); [apply SetDNSChaos_safe|]. intros _. apply safe_ret.
  - apply (safe_bind wf); [apply CancelDNSChaos_safe|]. intros _. apply safe_ret.
  - apply chaos_query_run.
  - apply stanza_safe.
  - apply init_chaos_pods_safe.
Qed.

Lemma run_op_panic o w :
  wf w → (run_op (Sel:=Sel) env (@range) o w).1 = Panic ↔ ∃ state, o = OpQuery state ∧ lacks_selector env state w.
Proof.
  intros Hw. assert (Hsafe : ∀ m : GoM W unit, safe wf m → (∀ state, o ≠ OpQuery state) →
    (m w).1 = Panic ↔ ∃ state, o = OpQuery state ∧ lacks_selector env state w).
  { intros m Hm Ho. split; [by intros Hp; destruct (Hm w Hw)|]. intros (state & -> & _). by destruct (Ho state). }
  destruct o as [req|req|state|e args|]; simpl.
  - apply Hsafe; [|done]. apply safe_bind; [apply SetDNSChaos_safe|]. intros _. apply safe_ret.
  - apply Hsafe; [|done]. apply safe_bind; [apply CancelDNSChaos_safe|]. intros _. apply safe_ret.
  - rewrite (proj2 (chaos_query_run state w Hw)). naive_solver.
  - apply Hsafe; [apply stanza_safe|done].
  - apply Hsafe; [apply init_chaos_pods_safe|done].
Qed.
(** ** Entries and their selectors *)

Abbreviation sound := (λ w : W, wf w ∧ selectors_sound w).

Lemma sound_ext w w' : store w' = store w → selectors_sound w → selectors_sound w'.
Proof. unfold selectors_sound. by intros ->. Qed.

Lemma sound_insert w w' l p :
  store w' = <[l := p]> (store w) → (pi_Selector p = None → pi_Scope p = ScopeAll) →
  selectors_sound w → selectors_sound w'.
Proof. intros Hs Hp Hw l' q. rewrite Hs. intros [[_ <-]|[_ Hq]]%lookup_insert_Some; [done|by eapply Hw]. Qed.

Lemma sound_moved l ip tm n w : selectors_sound w → selectors_sound (moved l ip tm n w).
Proof.
  intros Hw l' q. simpl. destruct (decide (l = l')) as [->|Hne].
  - rewrite lookup_alter_eq. intros (p & Hp & ->)%fmap_Some. simpl. by apply (Hw l').
  - rewrite lookup_alter_ne by done. by apply Hw.
Qed.

Lemma store_cleared pod w : store (cleared pod w) = store w.
Proof. unfold cleared. rewrite forget_store. unfold ensure_ns. by case_match. Qed.

Lemma set_sound req : preserves sound (SetDNSChaos env req).
Proof.
  apply preserves_bind.
  { apply preserves_modify. intros w [Hw Hs]. split; [revert Hw; by apply wf_ext|exact Hs]. }
  intros _. apply preserves_bind; [intros w Hw; exact Hw|]. intros sel.
  apply preserves_bind; [|intros; apply preserves_ret]. apply preserves_for. intros pod _ w [Hw Hs].
  rewrite (set_pod_run env req _ sel pod w Hw).
  pose proof (cluster_reply_ready env (asked w) (pb_Namespace pod) (pb_Name pod) ready).
  destruct (cluster_reply env _ _ _) as [[v1Pod|] [e|]]; try done; simpl.
  1, 3: by split; [apply wf_tick|].
  split; [by apply wf_install, wf_tick, cleared_wf|].
  by eapply (sound_insert w); [simpl; by rewrite store_cleared|..].
Qed.

Lemma cancel_sound req : preserves sound (CancelDNSChaos (@range) req).
Proof.
  intros w [Hw Hs]. split; [by apply CancelDNSChaos_safe|]. revert Hs. apply sound_ext.
  destruct (chaosMap w !! cancel_Name req) as [set|] eqn:Hset.
  - by apply (CancelDNSChaos_index (@range) range_map req w set).
  - unfold CancelDNSChaos. go_step. by rewrite Hset.
Qed.

Lemma query_sound state : preserves sound (chaos_query env state).
Proof.
  intros w [Hw Hs]. split; [by apply chaos_query_run|].
  assert (Hs1 : selectors_sound (getChaosPod env (rq_IP state) w).2).
  { rewrite getChaosPod_run. repeat case_match; simpl; try done. by apply sound_moved. }
  revert Hs1. unfold chaos_query, mbind at 1, gom_bind at 1.
  destruct (getChaosPod env (rq_IP state) w) as [[[l err]|e|] w1]; simpl; intros Hs1; try exact Hs1.
  destruct l as [l|]; [|exact Hs1]. unfold mbind, gom_bind, deref, lift_outcome.
  destruct (store w1 !! l) as [p|]; [|exact Hs1]. unfold mret at 1, gom_ret at 1. cbv beta iota.
  destruct (needChaos (Some p) (rq_QName state)) as [b|e|]; try exact Hs1. destruct b; [|exact Hs1].
  revert Hs1. apply sound_ext. pose proof (chaosDNS_maps state p w1) as (_ & Hst & _).
  by destruct (chaosDNS env state p w1) as [[|e|] w2].
Qed.

Lemma stanza_sound e args : scoped_all args → preserves sound (stanza_chaos (Sel:=Sel) e args).
Proof.
  intros Hall. unfold stanza_chaos. destruct args as [|action [|scope [|p pods]]]; try by intros w Hw.
  simpl in Hall. apply preserves_for. intros arg _ w [Hw Hs]. rewrite stanza_pod_run.
  destruct (split_first_dot arg) as [[ns name]|]; [|done]. split; [by apply wf_configured|].
  eapply (sound_insert (ensure_ns ns w)); [done|done|]. revert Hs. apply sound_ext.
  unfold ensure_ns. by case_match.
Qed.

Lemma init_sound : preserves sound (init_chaos_pods (Sel:=Sel) env (@range)).
Proof.
  intros w [Hw Hs]. split; [by apply init_chaos_pods_safe|]. revert Hs.
  apply (preserves_bind selectors_sound); [apply preserves_gets|]. intros m.
  apply preserves_for. intros [_ pods] _. apply preserves_for. intros [_ l] _ w' Hs.
  destruct (store w' !! l) as [p|] eqn:Hp.
  2:{ unfold init_pod. rewrite (gom_bind_panic _ _ _ w'); [done|]. unfold deref. by rewrite Hp. }
  rewrite (init_pod_run env l p w' Hp). repeat case_match; simpl; try done. by apply sound_moved.
Qed.

Lemma run_op_sound o :
  (∀ e args, o = OpStanza e args → scoped_all args) → preserves sound (run_op (Sel:=Sel) env (@range) o).
Proof.
  intros Ho. destruct o as [req|req|state|e args|]; simpl.
  - apply preserves_bind; [apply set_sound|]. intros. apply preserves_ret.
  - apply preserves_bind; [apply cancel_sound|]. intros. apply preserves_ret.
  - apply query_sound.
  - by eapply stanza_sound, Ho.
  - apply init_sound.
Qed.

(** What the allowed operations keep holds in every state they reach. *)
Lemma reachable_keeps (I : W → Prop) ok w :
  I new_world → (∀ o, ok o → preserves I (run_op env (@range) o)) →
  reachable (Sel:=Sel) env (@range) ok w → I w.
Proof.
  intros Hnew Hok Hr. unfold reachable in Hr. revert Hnew. revert Hr. generalize (new_world (Sel:=Sel)). intros w0 Hr Hnew.
  induction Hr as [|w1 w2 w3 [o w' Ho] _ IH]; [done|]. by apply IH, Hok.
Qed.

Lemma sound_new : sound new_world.
Proof. split; [apply wf_new|]. intros l p. simpl. by rewrite lookup_empty. Qed.

Lemma sound_no_lack state w : wf w → selectors_sound w → ¬ lacks_selector env state w.
Proof. intros Hw Hs (l & p & _ & Hp & Hnone & Hne). by apply Hne, (Hs l p). Qed.
End SafeFacts.

(** ** Selectors *)

Section SelectorFacts.
Context {Sel : Type} `{SelectorLaws Sel}.

Lemma insert_pattern_ret sel p sel' :
  insert_pattern sel p = Ret sel' → sel_patterns sel' ≡ₚ p :: sel_patterns sel.
Proof.
  unfold insert_pattern. pose proof (sel_insert sel p) as Hi.
  destruct (selector_Insert sel p) as [s' [e|]]; [done|]. intros [= <-]. by apply Hi.
Qed.

Lemma add_pattern_ret sel p sel' :
  add_pattern sel p = Ret sel' → sel_patterns sel' ≡ₚ expand p ++ sel_patterns sel.
Proof.
  unfold add_pattern, expand. go_simpl.
  destruct (insert_pattern sel p) as [s1| |] eqn:H1; try done.
  apply insert_pattern_ret in H1. destruct (strings.Contains p "*"); simpl.
  - by intros [= <-].
  - intros ->%insert_pattern_ret. rewrite H1. apply Permutation_swap.
Qed.

Lemma build_ret sel pats sel' :
  go_fold add_pattern sel pats = Ret sel' →
  sel_patterns sel' ≡ₚ concat (expand <$> pats) ++ sel_patterns sel.
Proof.
  revert sel. induction pats as [|p pats IH]; intros sel.
  - by intros [= <-].
  - cbn [go_fold]. intros Hf. destruct (add_pattern sel p) as [s1| |] eqn:H1; try done.
    apply add_pattern_ret in H1. apply IH in Hf. rewrite Hf, H1, fmap_cons, concat_cons.
    rewrite app_assoc. apply Permutation_app_tail, Permutation_app_comm.
Qed.

Lemma built_match pats sel name :
  go_fold add_pattern NewTrieSelector pats = Ret sel →
  match selector_Match sel name with [] => false | RBool m :: _ => m | ROther :: _ => false end
  = existsb (λ p, pattern_matches p name) (concat (expand <$> pats)).
Proof.
  intros Hb%build_ret. rewrite sel_new, app_nil_r in Hb.
  destruct (selector_Match sel name) as [|r l] eqn:Hm.
  - symmetry. apply existsb_false_forall. intros p Hp. apply (proj1 (sel_match sel name) Hm).
    by rewrite Hb.
  - assert (r = RBool true) as -> by (apply (sel_match_all sel name); rewrite Hm; by left).
    symmetry. apply not_false_iff_true. rewrite existsb_false_forall. intros Hall.
    assert (selector_Match sel name = []) as Hnil; [|by rewrite Hm in Hnil].
    apply sel_match. intros p. rewrite Hb. apply Hall.
Qed.

Lemma needChaos_new_info req sel pod v1Pod t name :
  go_fold add_pattern NewTrieSelector (set_Patterns req) = Ret sel →
  needChaos (Some (new_info req (request_scope req) sel pod v1Pod t)) name = Ret (covers req name).
Proof.
  intros Hsel. unfold needChaos, covers. simpl. unfold request_scope.
  destruct (length (set_Patterns req) =? 0)%nat; [done|].
  rewrite <- (built_match _ sel name Hsel). simpl.
  by destruct (selector_Match sel name) as [|[m|] l].
Qed.
End SelectorFacts.

(** ** Answers *)

Section AnswerFacts.
Context {Sel : Type} `{SelectorLib Sel}.
Variable env : Env.
Hypothesis rand_law : ∀ n k, (0 < k)%Z → (0 <= rand_Intn env n k < k)%Z.
Abbreviation W := (world Sel).
Implicit Types (w : W).

Definition ticks (n : nat) w : W :=
  mkWorld (store w) (next w) (chaosMap w) (podMap w) (ipPodMap w) (asked w + n) (written w).

Lemma random_bytes_run n nums w :
  random_bytes env n nums w =
    (Ret (nums ++ ((λ i, rand_Intn env (asked w + i) 255 mod 256)%Z <$> seq 0 n)), ticks n w).
Proof.
  revert nums w. induction n as [|n IH]; intros nums w.
  - unfold ticks. rewrite Nat.add_0_r. simpl. rewrite app_nil_r. by destruct w.
  - cbn [random_bytes]. go_step. rewrite IH. unfold ticks. simpl.
    rewrite <- seq_shift, <- list_fmap_compose, <- app_assoc, Nat.add_0_r. simpl.
    replace (asked w + 1 + n)%nat with (asked w + S n)%nat by lia.
    do 4 f_equal. apply list_fmap_ext. intros i x _. simpl.
    by replace (asked w + 1 + x)%nat with (asked w + S x)%nat by lia.
Qed.

Lemma rand_byte n : (rand_Intn env n 255 mod 256 = rand_Intn env n 255)%Z.
Proof. pose proof (rand_law n 255 ltac:(lia)). apply Z.mod_small. lia. Qed.

Lemma getRandomIPv4_run w :
  let r i := rand_Intn env (asked w + i) 255 in
  getRandomIPv4 env w = (Ret (net.IPv4 (r 0) (r 1) (r 2) (r 3)), ticks 4 w).
Proof.
  simpl. unfold getRandomIPv4. erewrite gom_bind_ret by apply random_bytes_run.
  simpl fmap. do 4 go_step. by rewrite !rand_byte.
Qed.
End AnswerFacts.

(** * Concrete outsides *)

Module SimpleSelector.
(** Patterns are kept in a list; a pattern ends in a star or matches itself; a pattern already
    there is refused. *)
Definition matches (p name : string) : bool :=
  if String.prefix "*" (String.substring (String.length p - 1) 1 p)
  then String.prefix (String.substring 0 (String.length p - 1) p) name
  else (p =? name)%string.

Definition insert (l : list string) (p : string) : list string * option go_error :=
  if decide (p ∈ l) then (l, Some (errMsg "already exists")) else (p :: l, None).

#[global] Instance lib : SelectorLib (list string) := {|
  NewTrieSelector := [];
  selector_Insert := insert;
  selector_Match l name := (λ _, RBool true) <$> filter (λ p, matches p name = true) l;
|}.

#[global] Program Instance laws : SelectorLaws (list string) := {|
  sel_patterns l := l; pattern_matches := matches;
|}.
Next Obligation. done. Qed.
Next Obligation. intros s p. simpl. unfold insert. by case_decide. Qed.
Next Obligation. intros s name r. simpl. by intros (p & -> & _)%list_elem_of_fmap. Qed.
Next Obligation.
  intros s name. simpl. split.
  - intros Hnil%fmap_nil_inv p Hp. destruct (matches p name) eqn:Hm; [|done].
    assert (Hin : p ∈ filter (λ p, matches p name = true) s) by by apply list_elem_of_filter.
    rewrite Hnil in Hin. by apply not_elem_of_nil in Hin.
  - intros Hall. destruct (filter _ s) as [|p l] eqn:Hf; [done|]. exfalso.
    assert (Hin : p ∈ filter (λ p, matches p name = true) s) by (rewrite Hf; by left).
    apply list_elem_of_filter in Hin as [Hm Hin]. by rewrite (Hall p Hin) in Hm.
Qed.
End SimpleSelector.

(** A cluster whose pods all exist, and have the address [ip] before the reply [k] and [ip'] from
    then on; the clock advances eleven seconds with each reply. *)
Definition ex_env (ip ip' : string) (k : nat) : Env :=
  mkEnv (λ n, (Z.of_nat n * 11 * Second)%Z)
    (λ n _, Some (λ name, inl (mkApiPod (mkMeta name "" "1" None ∅) (if (n <? k)%nat then ip else ip'))))
    (λ n _, Z.of_nat n).

Definition ex_set : SetDNSChaosRequest :=
  mkSet "chaos1" [mkPbPod "busybox" "busybox-0"] ActionError "" "" ["google.com"; "chaos-mesh.*"].
Definition ex_world : world (list string) := (SetDNSChaos (ex_env "10.0.0.1" "10.0.0.2" 9) ex_set new_world).2.
Definition ex_range A (m : gmap string A) : list (string * A) := map_to_list m.

(** The world in which that pod has moved to the second address, and a query from the first one has
    found it out. *)
Definition ex_moving : Env := ex_env "10.0.0.1" "10.0.0.2" 3.
Definition moved_world : world (list string) :=
  (getChaosPod ex_moving "10.0.0.1" (SetDNSChaos ex_moving ex_set new_world).2).2.

Lemma ex_world_wf : wf ex_world.
Proof. apply (SetDNSChaos_run (ex_env "10.0.0.1" "10.0.0.2" 9) ex_set new_world wf_new), wf_new. Qed.

Lemma ex_ready ip ip' k : client_ready (ex_env ip ip' k).
Proof. intros n ns. by eexists. Qed.

Lemma ex_range_map A (m : gmap string A) : ex_range A m ≡ₚ map_to_list m.
Proof. done. Qed.

(** * Properties *)

(** C3: the maps of the chaos stay well-formed, and what panics is known. In every state that requests
    to set and to cancel chaos, queries, and the pods of the configuration can reach, in any order
    and whatever the cluster, the clock and the selector reply, errors included, as long as the
    cluster's client is there: no pointer of the maps dangles, and every pod is stored under its own
    namespace and name. No request and nothing at the start panics; a query (from the look up of its
    address to the answer of the chaos) panics exactly when the entry it finds has no selector and
    its scope is not [all]; and when every directive [chaos] has the scope [all], no operation
    panics at all. *)
Theorem chaos_reachable_safe {Sel} `{SelectorLib Sel} env
    (range : ∀ A, gmap string A → list (string * A)) ok (w : world Sel) :
  (∀ A (m : gmap string A), range A m ≡ₚ map_to_list m) → client_ready env →
  reachable env range ok w →
  wf w ∧
  (∀ o, (run_op env range o w).1 = Panic ↔ ∃ state, o = OpQuery state ∧ lacks_selector env state w) ∧
  ((∀ e args, ok (OpStanza e args) → scoped_all args) → ∀ o, (run_op env range o w).1 ≠ Panic).
Proof.
  intros Hrange Hready Hw.
  assert (Hwf : wf w).
  { apply (reachable_keeps env range wf ok w wf_new); [|done]. intros o _ w' Hw'. by apply run_op_wf. }
  split; [done|]. split; [intros o; by apply run_op_panic|]. intros Hall o Hp.
  apply run_op_panic in Hp as (state & _ & Hl); [|done..].
  apply (sound_no_lack env state w Hwf); [|done].
  apply (reachable_keeps env range _ ok w sound_new); [|done]. intros o' Ho'. apply run_op_sound; [done..|].
  intros e args ->. by eapply Hall.
Qed.

Lemma chaos_reachable_safe_witness :
  let env := ex_env "10.0.0.1" "10.0.0.2" 9 in
  let query := mkRequest "google.com." "google.com." TypeA "10.0.0.1" "" in
  wf ex_world ∧ (run_op env ex_range (OpQuery query) ex_world).1 ≠ Panic ∧
  ∀ e, let w := (run_op env ex_range OpInit (run_op env ex_range
                   (OpStanza e ["error"; "inner"; "busybox.busybox-0"]) (new_world (Sel:=list string))).2).2 in
    (run_op env ex_range (OpQuery query) w).1 = Panic.
Proof.
  intros env query. destruct (chaos_reachable_safe env ex_range (λ o, o = OpSet ex_set) ex_world) as (Hw & _ & Hs).
  - exact ex_range_map.
  - apply ex_ready.
  - apply rtc_once. exact (step_op env _ _ (OpSet ex_set) new_world eq_refl).
  - split; [exact Hw|]. split; [apply Hs; by intros e args [=]|]. intros e w.
    apply (chaos_reachable_safe env ex_range (λ _, True) w ex_range_map (ex_ready _ _ _)).
    + eapply rtc_l; [by apply (step_op env _ _ (OpStanza e ["error"; "inner"; "busybox.busybox-0"]))|].
      apply rtc_once. by apply (step_op env _ _ OpInit).
    + exists query. split; [done|]. eexists 1%positive, _. split; [vm_compute; reflexivity|].
      split; [vm_compute; reflexivity|]. split; [reflexivity|]. vm_compute. discriminate.
Defined.

(** C14: what setting chaos does, on every outcome. The request is recorded under its name whatever
    happens. A pattern the selector refuses ends the request with that error, and nothing else
    changed. Otherwise the pods are set in order, each entry with the action of the request, the
    scope [all] exactly when there are no patterns, the selector built from the patterns and the
    address the cluster gave during the request; an error of the cluster ends the request, the pods
    before it being set; the entries of all other pods are untouched; and what a query from any
    address finds is known exactly: of the pods set, in order, each is found at its address and is
    not found any more at that of the entry it replaces, and all else is found as before. *)
Theorem SetDNSChaos_spec {Sel} `{SelectorLib Sel} env req (w : world Sel) :
  wf w →
  let r := SetDNSChaos env req w in
  chaosMap r.2 = <[set_Name req := req]> (chaosMap w) ∧
  match go_fold add_pattern NewTrieSelector (set_Patterns req) with
  | Ret sel => ∃ o, pods_set env req (request_scope req) sel w r.2 (set_Pods req) o ∧
      r.1 = ((λ _, mkResponse true "") <$> o)
  | Throw e => r.1 = Throw e ∧ r.2 = set_chaosMap <[set_Name req := req]> w
  | Panic => False
  end.
Proof. intros Hw. by apply SetDNSChaos_run. Qed.

Lemma SetDNSChaos_spec_witness :
  chaosMap ex_world = {[ "chaos1" := ex_set ]} ∧
  (∃ t, by_address ex_world "10.0.0.1" =
     Some (new_info ex_set "" ["chaos-mesh.*"; "google.com."; "google.com"] (mkPbPod "busybox" "busybox-0")
       (mkApiPod (mkMeta "busybox-0" "" "1" None ∅) "10.0.0.1") t)) ∧
  ∃ o, pods_set (ex_env "10.0.0.1" "10.0.0.2" 9) ex_set "" ["chaos-mesh.*"; "google.com."; "google.com"]
         new_world ex_world (set_Pods ex_set) o ∧ o = Ret tt.
Proof.
  destruct (SetDNSChaos_spec (ex_env "10.0.0.1" "10.0.0.2" 9) ex_set (new_world (Sel:=list string)) wf_new)
    as (Hm & o & Ho & Hr).
  split; [exact Hm|]. split; [|exists o; split; [exact Ho|]; by destruct o as [[]| |]].
  assert (Hok : o = Ret tt) by (by destruct o as [[]| |]). clear Hr Hm. rewrite Hok in Ho.
  inversion Ho as [pods [_ _ (news & Hnews & Hix)]| |].
  inversion Hnews as [|pod p ? ? (n & v & [_ Hn] & Hv & ->) Hnil]. inversion Hnil. subst news.
  assert (Hlt : n + 1 < 2) by exact Hn. assert (n = 0) as -> by lia. injection Hv as <-.
  destruct l'; [|done]. eexists. exact (Hix "10.0.0.1").
Defined.

(** C15: what cancelling does. It always succeeds. A name that was never set changes nothing. Otherwise
    exactly the pods of the recorded request lose their entries, every other entry is untouched, the
    request is forgotten and no namespace without pods is left; and the index by address loses
    exactly the addresses these entries have: queries from them find nothing any more, and queries
    from any other address find what they found, that is also from an address such a pod has left. *)
Theorem CancelDNSChaos_spec {Sel} `{SelectorLib Sel} (range : ∀ A, gmap string A → list (string * A))
    req (w : world Sel) :
  (∀ A (m : gmap string A), range A m ≡ₚ map_to_list m) → wf w →
  let r := CancelDNSChaos range req w in
  r.1 = Ret (mkResponse true "") ∧
  match chaosMap w !! cancel_Name req with
  | None => r.2 = w
  | Some set =>
      chaosMap r.2 = delete (cancel_Name req) (chaosMap w) ∧
      (∀ ns name, info r.2 ns name =
         if decide (mkPbPod ns name ∈ set_Pods set) then None else info w ns name) ∧
      (∀ ns m, podMap r.2 !! ns = Some m → m ≠ ∅) ∧
      ∀ ip, by_address r.2 ip =
        if decide (ip ∈ addresses_of w (set_Pods set)) then None else by_address w ip
  end.
Proof.
  intros Hrange Hw. simpl. destruct (chaosMap w !! cancel_Name req) as [set|] eqn:Hset.
  - destruct (CancelDNSChaos_run range Hrange req w set Hw Hset) as (? & _ & ? & ? & ?).
    destruct (CancelDNSChaos_index range Hrange req w set Hw Hset) as [Hs Hi].
    split_and!; [done..|]. intros ip. unfold by_address. rewrite Hs, Hi. by case_decide.
  - unfold CancelDNSChaos. go_step. by rewrite Hset.
Qed.

Lemma CancelDNSChaos_spec_witness :
  (CancelDNSChaos ex_range (mkCancel "chaos1") ex_world).1 = Ret (mkResponse true "") ∧
  info (CancelDNSChaos ex_range (mkCancel "chaos1") ex_world).2 "busybox" "busybox-0" = None ∧
  by_address ex_world "10.0.0.1" ≠ None ∧
  by_address (CancelDNSChaos ex_range (mkCancel "chaos1") ex_world).2 "10.0.0.1" = None.
Proof.
  destruct (CancelDNSChaos_spec ex_range (mkCancel "chaos1") ex_world ex_range_map ex_world_wf)
    as [Hr Hm].
  split; [exact Hr|].
  assert (Hset : chaosMap ex_world !! cancel_Name (mkCancel "chaos1") = Some ex_set)
    by (vm_compute; reflexivity).
  rewrite Hset in Hm. destruct Hm as (_ & Hi & _ & Hby). rewrite Hi, Hby.
  split; [vm_compute; reflexivity|]. split; [vm_compute; discriminate|]. vm_compute. reflexivity.
Defined.

(** C4: cancelling undoes setting. When none of the pods of a request was under chaos, setting it (even
    when it failed half way) and cancelling it leave every entry and every other recorded request
    as before; and when the index of addresses was exact, no address leads to one of these pods. *)
Theorem set_cancel_roundtrip {Sel} `{SelectorLib Sel} env
    (range : ∀ A, gmap string A → list (string * A)) req (w : world Sel) :
  (∀ A (m : gmap string A), range A m ≡ₚ map_to_list m) → wf w →
  (∀ pod, pod ∈ set_Pods req → info w (pb_Namespace pod) (pb_Name pod) = None) →
  let s := SetDNSChaos env req w in
  let c := CancelDNSChaos range (mkCancel (set_Name req)) s.2 in
  s.1 ≠ Panic →
  c.1 = Ret (mkResponse true "") ∧
  (∀ ns name, info c.2 ns name = info w ns name) ∧
  chaosMap c.2 = delete (set_Name req) (chaosMap w) ∧
  (exact_index w → ∀ ip l p, ipPodMap c.2 !! ip = Some l → store c.2 !! l = Some p →
     mkPbPod (pi_Namespace p) (pi_Name p) ∉ set_Pods req).
Proof.
  intros Hrange Hw Hnone s c Hs. destruct (SetDNSChaos_run env req w Hw) as (Hk & Hm & Hr).
  fold s in Hk, Hm, Hr.
  destruct (CancelDNSChaos_run range Hrange (mkCancel (set_Name req)) s.2 req (kept_wf _ _ Hk Hw))
    as (Hc & Hk2 & Hm2 & Hi & _); [by rewrite Hm; apply lookup_insert_eq|].
  fold c in Hc, Hk2, Hm2, Hi.
  assert (Hin : ∀ ns name, mkPbPod ns name ∈ set_Pods req → info w ns name = None)
    by (intros ns name Hp; by apply (Hnone (mkPbPod ns name))).
  assert (Hout : ∀ ns name, mkPbPod ns name ∉ set_Pods req → info s.2 ns name = info w ns name).
  { intros ns name Hn. destruct (go_fold _ _ _) as [sel|e|]; [|by destruct Hr as [_ ->]|done].
    destruct Hr as (o & Ho & Ho2). destruct Ho as [pods Ho|pre pod post n e Ho|].
    - by apply (se_other _ _ _ _ _ _ _ Ho).
    - apply (se_other _ _ _ _ _ _ _ Ho). intros Hpre. apply Hn. apply elem_of_app. by left.
    - by rewrite Ho2 in Hs. }
  assert (Hinfo : ∀ ns name, info c.2 ns name = info w ns name).
  { intros ns name. rewrite Hi. case_decide as Hd; [by rewrite Hin|by apply Hout]. }
  split_and!; [done..| |].
  - rewrite Hm2, Hm. apply delete_insert_eq.
  - intros He ip l p Hl Hp Hpod.
    destruct (kept_exact _ _ Hk2 (kept_wf _ _ Hk Hw) (kept_exact _ _ Hk Hw He) ip l Hl)
      as (q & Hq & _ & Hat). rewrite Hp in Hq. injection Hq as <-.
    specialize (Hinfo (pi_Namespace p) (pi_Name p)). rewrite Hin in Hinfo by done.
    unfold info in Hinfo. rewrite Hat in Hinfo. simpl in Hinfo. congruence.
Qed.

Lemma set_cancel_roundtrip_witness :
  info ex_world "busybox" "busybox-0" ≠ None ∧
  ∀ ns name, info (CancelDNSChaos ex_range (mkCancel "chaos1") ex_world).2 ns name = None.
Proof.
  split; [vm_compute; discriminate|]. intros ns name.
  destruct (set_cancel_roundtrip (ex_env "10.0.0.1" "10.0.0.2" 9) ex_range ex_set
    (new_world (Sel:=list string)) ex_range_map wf_new) as (_ & Hi & _).
  - intros pod Hpod. apply list_elem_of_singleton in Hpod as ->. vm_compute. reflexivity.
  - vm_compute. discriminate.
  - etransitivity; [exact (Hi ns name)|]. unfold info, pod_at. simpl. by rewrite lookup_empty.
Defined.

(** C17: requests keep the index of addresses exact. If every address of the index leads to a pod under
    chaos with that address, then so it is after a request to set or to cancel chaos, on every
    outcome, also when a pod is set again and its address has changed since. *)
Theorem requests_keep_index_exact {Sel} `{SelectorLib Sel} env
    (range : ∀ A, gmap string A → list (string * A)) (w : world Sel) sreq creq :
  (∀ A (m : gmap string A), range A m ≡ₚ map_to_list m) → wf w → exact_index w →
  exact_index (SetDNSChaos env sreq w).2 ∧ exact_index (CancelDNSChaos range creq w).2.
Proof.
  intros Hrange Hw He. split.
  - destruct (SetDNSChaos_run env sreq w Hw) as (Hk & _). by apply Hk.
  - destruct (chaosMap w !! cancel_Name creq) as [set|] eqn:Hset.
    + destruct (CancelDNSChaos_run range Hrange creq w set Hw Hset) as (_ & Hk & _). by apply Hk.
    + unfold CancelDNSChaos. go_step. by rewrite Hset.
Qed.

Lemma requests_keep_index_exact_witness :
  ipPodMap ex_world !! "10.0.0.1" = Some 1%positive ∧ exact_index ex_world.
Proof.
  split; [vm_compute; reflexivity|].
  apply (requests_keep_index_exact (ex_env "10.0.0.1" "10.0.0.2" 9) ex_range new_world ex_set
    (mkCancel "chaos1") ex_range_map wf_new).
  intros ip l. simpl. by rewrite lookup_empty.
Defined.

(** C18: which queries of a pod get chaos. For a pod set by a request, with the selector built from its
    patterns, a query needs chaos exactly when the request has no pattern or one of them matches
    the name, or the pattern with a final dot does when it has no star; no other field of the
    request matters, and a pod that is not under chaos never needs it. *)
Theorem needChaos_patterns {Sel} `{SelectorLaws Sel} req sel pod v1Pod t name :
  go_fold add_pattern NewTrieSelector (set_Patterns req) = Ret sel →
  needChaos (Some (new_info req (request_scope req) sel pod v1Pod t)) name = Ret (covers req name) ∧
  needChaos (Sel:=Sel) None name = Ret false.
Proof.
  intros Hsel. split; [by apply needChaos_new_info|done].
Qed.

Lemma needChaos_patterns_witness :
  let p := new_info ex_set (request_scope ex_set) ["chaos-mesh.*"; "google.com."; "google.com"]
             (mkPbPod "busybox" "busybox-0") zero_Pod 0 in
  needChaos (Some p) "google.com." = Ret true ∧ needChaos (Some p) "example.org." = Ret false.
Proof.
  split.
  - exact (proj1 (needChaos_patterns ex_set ["chaos-mesh.*"; "google.com."; "google.com"]
      (mkPbPod "busybox" "busybox-0") zero_Pod 0 "google.com." eq_refl)).
  - exact (proj1 (needChaos_patterns ex_set ["chaos-mesh.*"; "google.com."; "google.com"]
      (mkPbPod "busybox" "busybox-0") zero_Pod 0 "example.org." eq_refl)).
Defined.

(** C22: finding the pod behind a source address, on every branch. An address that is not indexed: no
    pod, and nothing is asked. An entry at most ten seconds old is returned as it is. An older one
    is checked with the cluster: an error is returned and no pod; the same address returns the pod,
    whose time is not renewed; a new address is stored with the time and indexed. The other
    entries of the index are untouched: that of the old address stays too. *)
Theorem getChaosPod_spec {Sel} `{SelectorLib Sel} env ip (w : world Sel) :
  wf w →
  getChaosPod env ip w =
    match ipPodMap w !! ip ≫= λ l, (l,.) <$> store w !! l with
    | None => (Ret (None, None), w)
    | Some (l, p) =>
        if bool_decide (time_Now env (asked w) - pi_LastUpdateTime p <= 10 * Second)%Z then
          (Ret (Some l, None), tick w)
        else
          match cluster_reply env (asked w + 1) (pi_Namespace p) (pi_Name p) with
          | (_, Some e) => (Ret (None, Some e), tick (tick w))
          | (None, None) => (Panic, tick (tick w))
          | (Some v1Pod, None) =>
              (Ret (Some l, None),
               if (ap_PodIP v1Pod =? pi_IP p)%string then tick (tick w)
               else moved l (ap_PodIP v1Pod) (time_Now env (asked w + 2)) (asked w + 3) w)
          end
    end.
Proof.
  intros Hw. rewrite getChaosPod_run. destruct (ipPodMap w !! ip) as [l|] eqn:Hl; [|done].
  destruct (wf_ips w Hw ip l Hl) as [p Hp]. simpl. rewrite Hp. simpl.
  case_bool_decide as Ht; destruct (Z.ltb_spec (10 * Second) (time_Now env (asked w) - pi_LastUpdateTime p));
    done || lia.
Qed.

Lemma getChaosPod_spec_witness :
  let w := (SetDNSChaos ex_moving ex_set new_world).2 in
  getChaosPod ex_moving "10.0.0.1" w =
    (Ret (Some 1%positive, None), moved 1 "10.0.0.2" (44 * Second) 5 w).
Proof.
  intros w. assert (Hw : wf w).
  { apply (SetDNSChaos_run ex_moving ex_set new_world wf_new), wf_new. }
  rewrite (getChaosPod_spec ex_moving "10.0.0.1" w Hw). vm_compute. reflexivity.
Defined.

(** C23: the answers under chaos. The action [error] gives SERVFAIL with an error and nothing is
    written. Any other action writes, for an A query, one authoritative message with one A record
    of the query name and a random IPv4 address, for an AAAA query one with a fixed IPv6 address,
    and returns success; for every other type it gives SERVFAIL and nothing is written. This is less
    than the README, pb/dns.proto and the comment of [ActionRandom] say, a random address for a DNS
    request, and chaos.go:70 has it as a TODO. The maps are untouched. The octets of the address come from [rand.Intn(255)]: each is between 0 and 254,
    so no byte conversion loses anything. *)
Theorem chaosDNS_spec {Sel} `{SelectorLib Sel} env state p (w : world Sel) :
  (∀ n k, (0 < k)%Z → (0 <= rand_Intn env n k < k)%Z) →
  let r i := rand_Intn env (asked w + i) 255 in
  let reply rr w := mkWorld (store w) (next w) (chaosMap w) (podMap w) (ipPodMap w) (asked w)
                      (written w ++ [mkDnsMsg true [rr] []]) in
  chaosDNS env state p w =
    (if (pi_Action p =? ActionError)%string then
       (Ret (RcodeServerFailure, Some (errMsg "dns chaos error")), w)
     else if (rq_QType state =? TypeA)%Z then
       (Ret (RcodeSuccess, None),
        reply (RR_A (mkHdr (rq_Name state) TypeA ClassINET 10) (net.IPv4 (r 0) (r 1) (r 2) (r 3)))
          (ticks 4 w))
     else if (rq_QType state =? TypeAAAA)%Z then
       (Ret (RcodeSuccess, None),
        reply (RR_AAAA (mkHdr (rq_Name state) TypeAAAA ClassINET 10) chaos_ipv6) w)
     else (Ret (RcodeServerFailure, None), w)) ∧
  ∀ i, (0 <= r i <= 254)%Z.
Proof.
  intros Hrand. simpl. split.
  2:{ intros i. pose proof (Hrand (asked w + i) 255%Z ltac:(lia)). lia. }
  unfold chaosDNS. destruct (pi_Action p =? ActionError)%string; [done|].
  destruct (rq_QType state =? TypeA)%Z.
  - pose proof (getRandomIPv4_run env Hrand w) as Hr. simpl in Hr.
    erewrite gom_bind_ret by (erewrite gom_bind_ret by exact Hr; reflexivity). done.
  - by destruct (rq_QType state =? TypeAAAA)%Z.
Qed.

Lemma chaosDNS_spec_witness :
  let p := new_info (mkSet "r" [] ActionRandom "" "" []) ScopeAll [] (mkPbPod "ns" "pod") zero_Pod 0 in
  chaosDNS (mkEnv (λ _, 0%Z) (λ _ _, None) (λ n k, (Z.of_nat n mod k)%Z))
    (mkRequest "a.org." "a.org." TypeA "10.0.0.1" ".") p (new_world (Sel:=list string)) =
  (Ret (RcodeSuccess, None),
   mkWorld ∅ 1 ∅ ∅ ∅ 4
     [mkDnsMsg true [RR_A (mkHdr "a.org." TypeA ClassINET 10) (net.IPv4 0 1 2 3)] []]).
Proof.
  intros p. rewrite (proj1 (chaosDNS_spec (mkEnv (λ _, 0%Z) (λ _ _, None) (λ n k, (Z.of_nat n mod k)%Z))
    (mkRequest "a.org." "a.org." TypeA "10.0.0.1" ".") p (new_world (Sel:=list string))
    (λ n k Hk, Z.mod_pos_bound (Z.of_nat n) k Hk))). reflexivity.
Defined.

(** * Behaviours worth knowing *)

(** When a pod under chaos is found at a new address, the index keeps its old address: the key that
    is deleted is the new one, because the entry's address is assigned before. The index is no
    longer exact, and after the chaos is cancelled queries from the old address, which may by then
    belong to another pod, still get the error of the chaos. *)
Theorem old_address_keeps_chaos :
  let w := (CancelDNSChaos ex_range (mkCancel "chaos1") moved_world).2 in
  ipPodMap moved_world !! "10.0.0.1" = Some 1%positive ∧
  (pi_IP <$> store moved_world !! 1%positive) = Some "10.0.0.2" ∧
  info w "busybox" "busybox-0" = None ∧
  (getChaosPod ex_moving "10.0.0.1" w).1 = Ret (Some 1%positive, None) ∧
  needChaos (store w !! 1%positive) "google.com." = Ret true.
Proof. vm_compute. repeat split. Qed.

(** A pod of the Corefile with the scope [inner] or [outer] has no selector: a query from it panics. *)
Theorem corefile_scope_panics :
  let env := ex_env "10.0.0.1" "10.0.0.1" 0 in
  let w := ((stanza_chaos (errMsg "Wrong argument count") ["error"; "inner"; "busybox.busybox-0"] ≫= λ _,
             init_chaos_pods (Sel:=list string) env ex_range) new_world).2 in
  ipPodMap w !! "10.0.0.1" = Some 1%positive ∧
  needChaos (store w !! 1%positive) "google.com." = Panic.
Proof. vm_compute. by split. Qed.

(** Setting a chaos again under the same name with other pods leaves the first pods under chaos, and
    cancelling it does not reach them. *)
Theorem set_again_leaks :
  let env := ex_env "10.0.0.1" "10.0.0.1" 0 in
  let second := mkSet "chaos1" [mkPbPod "busybox" "busybox-1"] ActionError "" "" [] in
  let w := ((SetDNSChaos env ex_set ≫= λ _, SetDNSChaos env second ≫= λ _,
             CancelDNSChaos ex_range (mkCancel "chaos1")) (new_world (Sel:=list string))).2 in
  chaosMap w = ∅ ∧ is_Some (info w "busybox" "busybox-0").
Proof. vm_compute. split; [done|by eexists]. Qed.
