(* ===== verification/Setup.v ===== *)
(** The configuration (setup.go) and the start of the plugin: [ParseStanza] from the directives of
    the Corefile to a [Config] and the pods under chaos, [InitKubeCache], [setup], the gRPC server's
    port (grpc_server.go) and the local addresses (local.go).

    Caddy, which holds the tokens of the Corefile, CoreDNS and client-go are not part of the
    repository. [CaddyLib] is what the program calls of them and [CaddyLaws] what reading a Corefile
    with Caddy's dispenser means: a stanza has arguments and directives, a directive a name and
    arguments. [SimpleCaddy] is a concrete dispenser with these laws. Error messages follow the
    formats of the code, with [%q] as plain quotes. *)
From stdpp Require Import prelude strings gmap sets list pretty.
From Stdlib Require Import Ascii.
From S2P Require Import Prelude GoStd Object Cache Controller Deps Kubernetes Chaos.

(** * What the configuration calls *)

Class CaddyLib := {
  caddy : Type;
  LabelSelector : Type;
  fall_F : Type;
  (** The dispenser: [Next] moves to the next stanza, [NextBlock] to the next directive of the
      stanza, [Val] is its name and [RemainingArgs] the arguments not read yet. *)
  Next : caddy → bool * caddy;
  NextBlock : caddy → bool * caddy;
  Val : caddy → string;
  RemainingArgs : caddy → list string * caddy;
  ServerBlockKeys : list string;
  ArgErr : caddy → go_error;
  Errf : caddy → string → go_error;
  (** CoreDNS: [plugin.ErrOnce], [parse.Transfer(c, false)], [plugin.Host(h).Normalize()],
      [plugin.Zones(zs).Normalize()] and [F.SetZonesFromArgs]. *)
  ErrOnce : go_error;
  parse_Transfer : caddy → (list string * list string * option go_error) * caddy;
  Host_Normalize : string → string;
  Zones_Normalize : list string → list string;
  zero_F : fall_F;
  SetZonesFromArgs : list string → fall_F → fall_F;
  (** [dns.ClientConfigFromFile("/etc/resolv.conf")]: the search path, None on an error. *)
  resolv_conf : option (list string);
  (** [meta.ParseToLabelSelector] *)
  ParseToLabelSelector : string → LabelSelector + go_error;
}.

(** * The configuration *)

(** The fields of the struct [Kubernetes] that the Corefile determines. *)
Record Config `{CaddyLib} := mkConfig {
  c_Zones : list string;
  c_APIServerList : list string;
  c_APICertAuth : string;
  c_APIClientCert : string;
  c_APIClientKey : string;
  c_ClientConfig : option (string * string);  (* the path and the context of the directive kubeconfig *)
  c_Namespaces : gset string;
  c_podMode : string;
  c_endpointNameMode : bool;
  c_Fall : fall_F;
  c_ttl : Z;
  c_labelSelector : option LabelSelector;  (* this and the next are of opts *)
  c_namespaceLabelSelector : option LabelSelector;
  c_initEndpointsCache : bool;  (* this and the next are of opts *)
  c_ignoreEmptyService : bool;
  c_primaryZoneIndex : Z;
  c_autoPathSearch : list string;
  c_TransferTo : list string;
  c_grpcPort : Z;
}.
Arguments mkConfig {_} _ _ _ _ _ _ _ _ _ _ _ _ _ _ _ _ _ _ _.

Section Setters.
Context `{CaddyLib}.

Definition set_Zones (v : list string) (k : Config) : Config :=
  mkConfig v (c_APIServerList k) (c_APICertAuth k) (c_APIClientCert k) (c_APIClientKey k)
    (c_ClientConfig k) (c_Namespaces k) (c_podMode k) (c_endpointNameMode k) (c_Fall k) (c_ttl k)
    (c_labelSelector k) (c_namespaceLabelSelector k) (c_initEndpointsCache k)
    (c_ignoreEmptyService k) (c_primaryZoneIndex k) (c_autoPathSearch k) (c_TransferTo k)
    (c_grpcPort k).
Definition set_APIServerList (v : list string) (k : Config) : Config :=
  mkConfig (c_Zones k) v (c_APICertAuth k) (c_APIClientCert k) (c_APIClientKey k)
    (c_ClientConfig k) (c_Namespaces k) (c_podMode k) (c_endpointNameMode k) (c_Fall k) (c_ttl k)
    (c_labelSelector k) (c_namespaceLabelSelector k) (c_initEndpointsCache k)
    (c_ignoreEmptyService k) (c_primaryZoneIndex k) (c_autoPathSearch k) (c_TransferTo k)
    (c_grpcPort k).
Definition set_APICertAuth (v : string) (k : Config) : Config :=
  mkConfig (c_Zones k) (c_APIServerList k) v (c_APIClientCert k) (c_APIClientKey k)
    (c_ClientConfig k) (c_Namespaces k) (c_podMode k) (c_endpointNameMode k) (c_Fall k) (c_ttl k)
    (c_labelSelector k) (c_namespaceLabelSelector k) (c_initEndpointsCache k)
    (c_ignoreEmptyService k) (c_primaryZoneIndex k) (c_autoPathSearch k) (c_TransferTo k)
    (c_grpcPort k).
Definition set_APIClientCert (v : string) (k : Config) : Config :=
  mkConfig (c_Zones k) (c_APIServerList k) (c_APICertAuth k) v (c_APIClientKey k)
    (c_ClientConfig k) (c_Namespaces k) (c_podMode k) (c_endpointNameMode k) (c_Fall k) (c_ttl k)
    (c_labelSelector k) (c_namespaceLabelSelector k) (c_initEndpointsCache k)
    (c_ignoreEmptyService k) (c_primaryZoneIndex k) (c_autoPathSearch k) (c_TransferTo k)
    (c_grpcPort k).
Definition set_APIClientKey (v : string) (k : Config) : Config :=
  mkConfig (c_Zones k) (c_APIServerList k) (c_APICertAuth k) (c_APIClientCert k) v
    (c_ClientConfig k) (c_Namespaces k) (c_podMode k) (c_endpointNameMode k) (c_Fall k) (c_ttl k)
    (c_labelSelector k) (c_namespaceLabelSelector k) (c_initEndpointsCache k)
    (c_ignoreEmptyService k) (c_primaryZoneIndex k) (c_autoPathSearch k) (c_TransferTo k)
    (c_grpcPort k).
Definition set_ClientConfig (v : option (string * string)) (k : Config) : Config :=
  mkConfig (c_Zones k) (c_APIServerList k) (c_APICertAuth k) (c_APIClientCert k)
    (c_APIClientKey k) v (c_Namespaces k) (c_podMode k) (c_endpointNameMode k) (c_Fall k)
    (c_ttl k) (c_labelSelector k) (c_namespaceLabelSelector k) (c_initEndpointsCache k)
    (c_ignoreEmptyService k) (c_primaryZoneIndex k) (c_autoPathSearch k) (c_TransferTo k)
    (c_grpcPort k).
Definition set_Namespaces (v : gset string) (k : Config) : Config :=
  mkConfig (c_Zones k) (c_APIServerList k) (c_APICertAuth k) (c_APIClientCert k)
    (c_APIClientKey k) (c_ClientConfig k) v (c_podMode k) (c_endpointNameMode k) (c_Fall k)
    (c_ttl k) (c_labelSelector k) (c_namespaceLabelSelector k) (c_initEndpointsCache k)
    (c_ignoreEmptyService k) (c_primaryZoneIndex k) (c_autoPathSearch k) (c_TransferTo k)
    (c_grpcPort k).
Definition set_podMode (v : string) (k : Config) : Config :=
  mkConfig (c_Zones k) (c_APIServerList k) (c_APICertAuth k) (c_APIClientCert k)
    (c_APIClientKey k) (c_ClientConfig k) (c_Namespaces k) v (c_endpointNameMode k) (c_Fall k)
    (c_ttl k) (c_labelSelector k) (c_namespaceLabelSelector k) (c_initEndpointsCache k)
    (c_ignoreEmptyService k) (c_primaryZoneIndex k) (c_autoPathSearch k) (c_TransferTo k)
    (c_grpcPort k).
Definition set_endpointNameMode (v : bool) (k : Config) : Config :=
  mkConfig (c_Zones k) (c_APIServerList k) (c_APICertAuth k) (c_APIClientCert k)
    (c_APIClientKey k) (c_ClientConfig k) (c_Namespaces k) (c_podMode k) v (c_Fall k) (c_ttl k)
    (c_labelSelector k) (c_namespaceLabelSelector k) (c_initEndpointsCache k)
    (c_ignoreEmptyService k) (c_primaryZoneIndex k) (c_autoPathSearch k) (c_TransferTo k)
    (c_grpcPort k).
Definition set_Fall (v : fall_F) (k : Config) : Config :=
  mkConfig (c_Zones k) (c_APIServerList k) (c_APICertAuth k) (c_APIClientCert k)
    (c_APIClientKey k) (c_ClientConfig k) (c_Namespaces k) (c_podMode k) (c_endpointNameMode k) v
    (c_ttl k) (c_labelSelector k) (c_namespaceLabelSelector k) (c_initEndpointsCache k)
    (c_ignoreEmptyService k) (c_primaryZoneIndex k) (c_autoPathSearch k) (c_TransferTo k)
    (c_grpcPort k).
Definition set_ttl (v : Z) (k : Config) : Config :=
  mkConfig (c_Zones k) (c_APIServerList k) (c_APICertAuth k) (c_APIClientCert k)
    (c_APIClientKey k) (c_ClientConfig k) (c_Namespaces k) (c_podMode k) (c_endpointNameMode k)
    (c_Fall k) v (c_labelSelector k) (c_namespaceLabelSelector k) (c_initEndpointsCache k)
    (c_ignoreEmptyService k) (c_primaryZoneIndex k) (c_autoPathSearch k) (c_TransferTo k)
    (c_grpcPort k).
Definition set_labelSelector (v : option LabelSelector) (k : Config) : Config :=
  mkConfig (c_Zones k) (c_APIServerList k) (c_APICertAuth k) (c_APIClientCert k)
    (c_APIClientKey k) (c_ClientConfig k) (c_Namespaces k) (c_podMode k) (c_endpointNameMode k)
    (c_Fall k) (c_ttl k) v (c_namespaceLabelSelector k) (c_initEndpointsCache k)
    (c_ignoreEmptyService k) (c_primaryZoneIndex k) (c_autoPathSearch k) (c_TransferTo k)
    (c_grpcPort k).
Definition set_namespaceLabelSelector (v : option LabelSelector) (k : Config) : Config :=
  mkConfig (c_Zones k) (c_APIServerList k) (c_APICertAuth k) (c_APIClientCert k)
    (c_APIClientKey k) (c_ClientConfig k) (c_Namespaces k) (c_podMode k) (c_endpointNameMode k)
    (c_Fall k) (c_ttl k) (c_labelSelector k) v (c_initEndpointsCache k) (c_ignoreEmptyService k)
    (c_primaryZoneIndex k) (c_autoPathSearch k) (c_TransferTo k) (c_grpcPort k).
Definition set_initEndpointsCache (v : bool) (k : Config) : Config :=
  mkConfig (c_Zones k) (c_APIServerList k) (c_APICertAuth k) (c_APIClientCert k)
    (c_APIClientKey k) (c_ClientConfig k) (c_Namespaces k) (c_podMode k) (c_endpointNameMode k)
    (c_Fall k) (c_ttl k) (c_labelSelector k) (c_namespaceLabelSelector k) v
    (c_ignoreEmptyService k) (c_primaryZoneIndex k) (c_autoPathSearch k) (c_TransferTo k)
    (c_grpcPort k).
Definition set_ignoreEmptyService (v : bool) (k : Config) : Config :=
  mkConfig (c_Zones k) (c_APIServerList k) (c_APICertAuth k) (c_APIClientCert k)
    (c_APIClientKey k) (c_ClientConfig k) (c_Namespaces k) (c_podMode k) (c_endpointNameMode k)
    (c_Fall k) (c_ttl k) (c_labelSelector k) (c_namespaceLabelSelector k) (c_initEndpointsCache k)
    v (c_primaryZoneIndex k) (c_autoPathSearch k) (c_TransferTo k) (c_grpcPort k).
Definition set_primaryZoneIndex (v : Z) (k : Config) : Config :=
  mkConfig (c_Zones k) (c_APIServerList k) (c_APICertAuth k) (c_APIClientCert k)
    (c_APIClientKey k) (c_ClientConfig k) (c_Namespaces k) (c_podMode k) (c_endpointNameMode k)
    (c_Fall k) (c_ttl k) (c_labelSelector k) (c_namespaceLabelSelector k) (c_initEndpointsCache k)
    (c_ignoreEmptyService k) v (c_autoPathSearch k) (c_TransferTo k) (c_grpcPort k).
Definition set_autoPathSearch (v : list string) (k : Config) : Config :=
  mkConfig (c_Zones k) (c_APIServerList k) (c_APICertAuth k) (c_APIClientCert k)
    (c_APIClientKey k) (c_ClientConfig k) (c_Namespaces k) (c_podMode k) (c_endpointNameMode k)
    (c_Fall k) (c_ttl k) (c_labelSelector k) (c_namespaceLabelSelector k) (c_initEndpointsCache k)
    (c_ignoreEmptyService k) (c_primaryZoneIndex k) v (c_TransferTo k) (c_grpcPort k).
Definition set_TransferTo (v : list string) (k : Config) : Config :=
  mkConfig (c_Zones k) (c_APIServerList k) (c_APICertAuth k) (c_APIClientCert k)
    (c_APIClientKey k) (c_ClientConfig k) (c_Namespaces k) (c_podMode k) (c_endpointNameMode k)
    (c_Fall k) (c_ttl k) (c_labelSelector k) (c_namespaceLabelSelector k) (c_initEndpointsCache k)
    (c_ignoreEmptyService k) (c_primaryZoneIndex k) (c_autoPathSearch k) v (c_grpcPort k).
Definition set_grpcPort (v : Z) (k : Config) : Config :=
  mkConfig (c_Zones k) (c_APIServerList k) (c_APICertAuth k) (c_APIClientCert k)
    (c_APIClientKey k) (c_ClientConfig k) (c_Namespaces k) (c_podMode k) (c_endpointNameMode k)
    (c_Fall k) (c_ttl k) (c_labelSelector k) (c_namespaceLabelSelector k) (c_initEndpointsCache k)
    (c_ignoreEmptyService k) (c_primaryZoneIndex k) (c_autoPathSearch k) (c_TransferTo k) v.

(** [New]: the fields that do not start as zero, before the options of [ParseStanza]. *)
Definition New (zones : list string) : Config :=
  mkConfig zones [] "" "" "" None ∅ podModeDisabled false zero_F defaultTTL None None false false 0
    [] [] 0.
End Setters.

(** * Parsing a stanza *)

(** [err.Error()] *)
Definition error_text (e : go_error) : string :=
  match e with
  | errNoItems => "no items found"
  | errNsNotExposed => "namespace is not exposed"
  | errInvalidRequest => "invalid query name"
  | errPodTerminating => "pod terminating"
  | errObj => "obj was not of the correct type"
  | errMsg m => m
  end.

Section Parse.
Context `{DnsLib} `{CaddyLib} {Sel : Type}.

(** The dispenser, the plugin being configured, and its chaos maps. *)
Record parsing := mkParsing { at_ : caddy; cf : Config; chaos : world Sel }.
Abbreviation P := (GoM parsing).

Definition call {A} (f : caddy → A * caddy) : P A := λ s,
  let '(a, c) := f (at_ s) in (Ret a, mkParsing c (cf s) (chaos s)).
Definition configure (f : Config → Config) : P unit :=
  modify (λ s, mkParsing (at_ s) (f (cf s)) (chaos s)).
Definition on_world {A} (m : GoM (world Sel) A) : P A := λ s,
  let '(o, w) := m (chaos s) in (o, mkParsing (at_ s) (cf s) w).
Definition argErr {A} : P A := λ s, (Throw (ArgErr (at_ s)), s).
Definition errf {A} (m : string) : P A := λ s, (Throw (Errf (at_ s) m), s).

(** The body of the loop over the directives. *)
Definition endpoint_pod_names : P unit :=
  args ← call RemainingArgs;
  if (0 <? length args)%nat then argErr else configure (set_endpointNameMode true).

Definition pods_mode : P unit :=
  args ← call RemainingArgs;
  match args with
  | [a] =>
      if (a =? podModeDisabled)%string || (a =? podModeInsecure)%string
         || (a =? podModeVerified)%string
      then configure (set_podMode a)
      else throw (errMsg ("wrong value for pods: " +:+ a
                          +:+ ",  must be one of: disabled, verified, insecure"))
  | _ => argErr
  end.

Definition add_namespace (a : string) : P unit :=
  k8s ← gets cf; configure (set_Namespaces ({[a]} ∪ c_Namespaces k8s)).

Definition namespaces : P unit :=
  args ← call RemainingArgs;
  if (0 <? length args)%nat then go_for add_namespace args else argErr.

Definition endpoint : P unit :=
  args ← call RemainingArgs;
  if (0 <? length args)%nat then configure (set_APIServerList args) else argErr.

Definition tls : P unit :=
  args ← call RemainingArgs;
  match args with
  | [cert; key; ca] =>
      _ ← configure (set_APIClientCert cert);
      _ ← configure (set_APIClientKey key);
      configure (set_APICertAuth ca)
  | _ => argErr
  end.

(** The directives [labels] and [namespace_labels]; [what] names the value in the error. *)
Definition label_selector (what : string) (assign : option LabelSelector → Config → Config) : P unit :=
  args ← call RemainingArgs;
  if (0 <? length args)%nat then
    let labelSelectorString := strings.Join args " " in
    match ParseToLabelSelector labelSelectorString with
    | inr err => throw (errMsg ("unable to parse " +:+ what +:+ " selector value: '"
                                +:+ labelSelectorString +:+ "': " +:+ error_text err))
    | inl ls => configure (assign (Some ls))
    end
  else argErr.

Definition fall_through : P unit :=
  args ← call RemainingArgs;
  k8s ← gets cf;
  configure (set_Fall (SetZonesFromArgs args (c_Fall k8s))).

Definition ttl_directive : P unit :=
  args ← call RemainingArgs;
  match args with
  | [] => argErr
  | a :: _ =>
      match strconv.Atoi a with
      | inr err => throw err
      | inl t =>
          if (t <? 0)%Z || (3600 <? t)%Z
          then errf ("ttl must be in range [0, 3600]: " +:+ pretty t)
          else configure (set_ttl (t mod 2 ^ 32))
      end
  end.

Definition transfer_directive : P unit :=
  '(tos, froms, err) ← call parse_Transfer;
  match err with
  | Some e => throw e
  | None =>
      if negb (length froms =? 0)%nat
      then errf "transfer from is not supported with this plugin"
      else configure (set_TransferTo tos)
  end.

Definition noendpoints : P unit :=
  args ← call RemainingArgs;
  if negb (length args =? 0)%nat then argErr else configure (set_initEndpointsCache false).

(** Without an argument nothing happens. *)
Definition ignore_directive : P unit :=
  args ← call RemainingArgs;
  match args with
  | [] => mret tt
  | ignore :: _ =>
      if (ignore =? "empty_service")%string then configure (set_ignoreEmptyService true)
      else throw (errMsg ("unable to parse ignore value: '" +:+ ignore +:+ "'"))
  end.

Definition kubeconfig : P unit :=
  args ← call RemainingArgs;
  match args with
  | [path; context] => configure (set_ClientConfig (Some (path, context)))
  | _ => argErr
  end.

(** With another number of arguments nothing happens. *)
Definition grpcport : P unit :=
  args ← call RemainingArgs;
  match args with
  | [a] =>
      match strconv.Atoi a with
      | inr err => throw err
      | inl port => configure (set_grpcPort port)
      end
  | _ => mret tt
  end.

Definition chaos_directive : P unit :=
  args ← call RemainingArgs;
  err ← gets (λ s, ArgErr (at_ s));
  on_world (stanza_chaos err args).

Definition unknown_property (name : string) : P unit :=
  errf ("unknown property '" +:+ name +:+ "'").

(** The switch on the name of the directive. *)
Definition directive : P unit :=
  name ← gets (λ s, Val (at_ s));
  if (name =? "endpoint_pod_names")%string then endpoint_pod_names
  else if (name =? "pods")%string then pods_mode
  else if (name =? "namespaces")%string then namespaces
  else if (name =? "endpoint")%string then endpoint
  else if (name =? "tls")%string then tls
  else if (name =? "labels")%string then label_selector "label" set_labelSelector
  else if (name =? "namespace_labels")%string then
    label_selector "namespace_label" set_namespaceLabelSelector
  else if (name =? "fallthrough")%string then fall_through
  else if (name =? "ttl")%string then ttl_directive
  else if (name =? "transfer")%string then transfer_directive
  else if (name =? "noendpoints")%string then noendpoints
  else if (name =? "ignore")%string then ignore_directive
  else if (name =? "kubeconfig")%string then kubeconfig
  else if (name =? "grpcport")%string then grpcport
  else if (name =? "chaos")%string then chaos_directive
  else unknown_property name.

(** The loop over the directives: [for c.NextBlock()]. None when the fuel does not suffice. *)
Fixpoint stanza_loop (fuel : nat) : P (option unit) :=
  match fuel with
  | O => mret None
  | S fuel =>
      more ← call NextBlock;
      if (more : bool) then _ ← directive; stanza_loop fuel else mret (Some tt)
  end.

(** [for i, z := range k8s.Zones { if IsReverse(z) > 0 { continue }; ...; break }] *)
Fixpoint first_forward (i : Z) (zones : list string) : option Z :=
  match zones with
  | [] => None
  | z :: zones' => if (0 <? IsReverse z)%Z then first_forward (i + 1) zones' else Some i
  end.

Definition searchFromResolvConf : list string :=
  match resolv_conf with None => [] | Some search => Zones_Normalize search end.

(** Both ways to select namespaces are an error. *)
Definition check_selection : P (option unit) :=
  k8s ← gets cf;
  if negb (size (c_Namespaces k8s) =? 0)%nat
     && match c_namespaceLabelSelector k8s with Some _ => true | None => false end
  then errf "namespaces and namespace_labels cannot both be set"
  else mret (Some tt).

Definition ParseStanza (fuel : nat) : P (option unit) :=
  _ ← modify (λ s, mkParsing (at_ s) (New [""]) new_world);
  _ ← configure (set_autoPathSearch searchFromResolvConf);
  _ ← configure (set_initEndpointsCache true);
  _ ← configure (set_ignoreEmptyService false);
  zones ← call RemainingArgs;
  _ ← configure (set_Zones (Host_Normalize <$> (if negb (length zones =? 0)%nat then zones
                                          else ServerBlockKeys)));
  _ ← configure (set_primaryZoneIndex (-1));
  k8s ← gets cf;
  _ ← match first_forward 0 (c_Zones k8s) with
      | Some i => configure (set_primaryZoneIndex i)
      | None => mret tt
      end;
  k8s ← gets cf;
  if (c_primaryZoneIndex k8s =? -1)%Z
  then throw (errMsg "non-reverse zone name must be used")
  else
    done ← stanza_loop fuel;
    match done with
    | None => mret None
    | Some _ =>
        check_selection
    end.

(** The loop over the stanzas, [i] of which were read: whether there is a plugin, None when the fuel
    does not suffice. *)
Fixpoint parse_loop (fuel : nat) (i : Z) (k8s : bool) (body_fuel : nat) : P (option bool) :=
  match fuel with
  | O => mret None
  | S fuel =>
      more ← call Next;
      if (more : bool) then
        if (0 <? i)%Z then throw ErrOnce
        else
          done ← ParseStanza body_fuel;
          match done with
          | None => mret None
          | Some _ => parse_loop fuel (i + 1) true body_fuel
          end
      else mret (Some k8s)
  end.

Definition kubernetesParse (fuel : nat) : P (option bool) := parse_loop fuel 0 false fuel.
End Parse.
Arguments parsing {_} Sel.
Arguments mkParsing {_ Sel} _ _ _.
Arguments at_ {_ Sel} _.
Arguments cf {_ Sel} _.
Arguments chaos {_ Sel} _.

(** * Starting the plugin *)

(** What the start calls of client-go, and of the network. *)
Class ClientLib `{CaddyLib} := {
  rest_Config : Type;
  (** The configuration that a kubeconfig file and a context give, that a server, a certificate
      authority, a certificate and a key give, and [rest.InClusterConfig]. *)
  load_kubeconfig : string * string → rest_Config + go_error;
  load_server : string → string → string → string → rest_Config + go_error;
  InClusterConfig : rest_Config + go_error;
  set_ContentType : string → rest_Config → rest_Config;
  (** The error of [kubernetes.NewForConfig]. *)
  NewForConfig : rest_Config → option go_error;
  LabelSelectorAsSelector : LabelSelector → string + go_error;
  LabelSelector_String : LabelSelector → string;
  (** The error of [net.Listen] on an address. *)
  net_Listen : string → option go_error;
  plugin_Error : string → go_error → go_error;
}.

Definition pluginName : string := "k8s_dns_chaos".

(** [fmt.Sprintf("%q", err)], for a text with nothing to escape. *)
Definition quoted (e : go_error) : string :=
  let q := String (ascii_of_nat 34) "" in q +:+ error_text e +:+ q.

Section Start.
Context `{ClientLib} {Sel : Type} {Store : Type} `{CacheLib Store}.
Context `{DnsLib}.
Variable env : Env.
Variable range : ∀ {A}, gmap string A → list (string * A).
Abbreviation P := (GoM (parsing Sel)).

Definition protobuf : string := "application/vnd.kubernetes.protobuf".

Definition getClientConfig (k : Config) : rest_Config + go_error :=
  match c_ClientConfig k with
  | Some config => load_kubeconfig config
  | None =>
      match c_APIServerList k with
      | [] =>
          match InClusterConfig with
          | inr err => inr err
          | inl cc => inl (set_ContentType protobuf cc)
          end
      | server :: _ =>
          let given s := if (0 <? String.length s)%nat then s else "" in
          match load_server server (given (c_APICertAuth k)) (given (c_APIClientCert k))
                  (given (c_APIClientKey k)) with
          | inr err => inr err
          | inl cc => inl (set_ContentType protobuf cc)
          end
      end
  end.

(** The selector of a label selector that may be nil. *)
Definition make_selector (ls : option LabelSelector) : P (option string) :=
  match ls with
  | None => mret None
  | Some ls =>
      match LabelSelectorAsSelector ls with
      | inr err => throw (errMsg ("unable to create Selector for LabelSelector '"
                                  +:+ LabelSelector_String ls +:+ "': " +:+ quoted err))
      | inl sel => mret (Some sel)
      end
  end.

(** The controller and its options. *)
Definition InitKubeCache : P (dnsControl Store * dnsControlOpts) :=
  k8s ← gets cf;
  match getClientConfig k8s with
  | inr err => throw err
  | inl config =>
      match NewForConfig config with
      | Some err => throw (errMsg ("failed to create kubernetes notification controller: "
                                   +:+ quoted err))
      | None =>
          sel ← make_selector (c_labelSelector k8s);
          nsel ← make_selector (c_namespaceLabelSelector k8s);
          let opts := mkOpts (c_podMode k8s =? podModeVerified)%string (c_initEndpointsCache k8s)
                        (c_ignoreEmptyService k8s) sel nsel (c_Zones k8s)
                        (c_endpointNameMode k8s) false in
          let APIConn := newdnsController opts in
          _ ← on_world (init_chaos_pods env (@range));
          mret (APIConn, opts)
      end
  end.

(** [CreateGRPCServer]: the address listened on. The receiver is a copy, so the default port is not
    stored. *)
Definition CreateGRPCServer : P string :=
  k8s ← gets cf;
  let port := if (c_grpcPort k8s =? 0)%Z then 9288%Z else c_grpcPort k8s in
  let address := ":" +:+ pretty port in
  match net_Listen address with
  | Some err => throw err
  | None => mret address
  end.

(** [if err != nil { return plugin.Error(pluginName, err) }] *)
Definition named {A} (m : P A) : P A := λ s,
  match m s with
  | (Throw e, s') => (Throw (plugin_Error pluginName e), s')
  | r => r
  end.

(** [setup]: the controller, its options and the address of the gRPC server; None when the fuel does
    not suffice. Without a stanza the plugin is nil. *)
Definition setup (fuel : nat) : P (option (dnsControl Store * dnsControlOpts * string)) :=
  parsed ← named (kubernetesParse fuel);
  match parsed with
  | None => mret None
  | Some false => panic
  | Some true =>
      '(dns, opts) ← named InitKubeCache;
      address ← named CreateGRPCServer;
      mret (Some (dns, opts, address))
  end.

(** The plugin that is then registered, with the local addresses of the start-up hook. *)
Definition plugin_of (k : Config) (dns : dnsControl Store) (opts : dnsControlOpts)
    (localIPs : list net.IP) : Kubernetes :=
  mkKubernetes (c_Zones k) (controller_of dns) (c_Namespaces k) (c_podMode k)
    (c_endpointNameMode k) (c_ttl k) opts (Z.to_nat (c_primaryZoneIndex k)) localIPs
    (c_autoPathSearch k) (c_TransferTo k) (c_grpcPort k).
End Start.

(** * Waiting for the caches *)

(** The hook of [RegisterKubeCache] for the shutdown; that for the start is in Plugin.v. *)
Definition shutdown_hook {Store} : GoM (dnsControl Store) (option go_error) := Stop.

(** * Local addresses *)

(** The body of the loop over the hosts. *)
Definition bound_ip (ips : list net.IP) (host : string) : list net.IP :=
  let ip := net.ParseCIDR host in
  let ip4 := net.To4 ip in
  if negb (bool_decide (ip4 = [])) && negb (net.IsLoopback ip4) then ips ++ [ip4]
  else
    let ip6 := net.To16 ip in
    if negb (bool_decide (ip6 = [])) && negb (net.IsLoopback ip6) then ips ++ [ip6]
    else ips.

(** [boundIPs], of the hosts of the server block (None when nil) and the addresses of the machine's
    interfaces. *)
Definition boundIPs (ListenHosts : option (list string))
    (InterfaceAddrs : list string + go_error) : outcome (list net.IP) :=
  all ← match ListenHosts with
        | None => Ret true
        | Some [] => Panic
        | Some (h :: _) => Ret (h =? "")%string
        end;
  if (all : bool) then
    match InterfaceAddrs with
    | inr _ => Ret []
    | inl addrs => Ret (foldl bound_ip [] addrs)
    end
  else Ret (foldl bound_ip [] (default [] ListenHosts)).

(** * What reading a Corefile means *)

(** A directive is a name and arguments, a stanza arguments and directives. *)
Definition Directive : Type := string * list string.
Definition Stanza : Type := list string * list Directive.

(** The documented forms of the directive [transfer]: a direction and addresses. *)
Definition transfer_documented (args : list string) : Prop :=
  ∃ direction address addresses,
    direction ∈ ["to"; "from"] ∧ args = direction :: address :: addresses.

Class CaddyLaws `{CaddyLib} := {
  (** The dispenser is between stanzas, these being left; it is before the arguments of a stanza or
      directive, the directives and stanzas after being left; it is between directives. *)
  stanzas : caddy → list Stanza → Prop;
  arguments : caddy → list string → list Directive → list Stanza → Prop;
  block : caddy → list Directive → list Stanza → Prop;
  Next_end c : stanzas c [] → (Next c).1 = false;
  Next_stanza c args ds ss : stanzas c ((args, ds) :: ss) →
    ∃ c', Next c = (true, c') ∧ arguments c' args ds ss;
  NextBlock_end c ss : block c [] ss → ∃ c', NextBlock c = (false, c') ∧ stanzas c' ss;
  NextBlock_more c name args ds ss : block c ((name, args) :: ds) ss →
    ∃ c', NextBlock c = (true, c') ∧ Val c' = name ∧ arguments c' args ds ss;
  RemainingArgs_all c args ds ss : arguments c args ds ss →
    ∃ c', RemainingArgs c = (args, c') ∧ block c' ds ss;
  (** What [parse.Transfer] makes of the arguments of a documented form: the addresses of the two
      directions, the arguments being read, or an error. *)
  read_transfer : list string → option (list string * list string);
  parse_Transfer_documented c args ds ss : arguments c args ds ss → transfer_documented args →
    match read_transfer args with
    | Some r => ∃ c', parse_Transfer c = (r, None, c') ∧ block c' ds ss
    | None => ∃ r e c', parse_Transfer c = (r, Some e, c')
    end;
}.

(** * Specifications *)

Section Spec.
Context `{DnsLib} `{CaddyLaws} {Sel : Type}.
Implicit Types (ds : list Directive) (args : list string) (w : world Sel).

(** The arguments of the directives of a name, in order, and those of the last one. *)
Definition args_of (name : string) ds : list (list string) :=
  omap (λ d, if (d.1 =? name)%string then Some d.2 else None) ds.
Definition last_of (name : string) ds : option (list string) := last (args_of name ds).

(** The directives [transfer] have the documented forms: what others do is up to CoreDNS. *)
Definition documented ds : Prop := ∀ args, args ∈ args_of "transfer" ds → transfer_documented args.

(** The directives that are accepted. *)
Inductive well_formed : string → list string → Prop :=
| ok_endpoint_pod_names : well_formed "endpoint_pod_names" []
| ok_pods mode :
    mode ∈ [podModeDisabled; podModeInsecure; podModeVerified] → well_formed "pods" [mode]
| ok_namespaces a args : well_formed "namespaces" (a :: args)
| ok_endpoint a args : well_formed "endpoint" (a :: args)
| ok_tls cert key ca : well_formed "tls" [cert; key; ca]
| ok_labels a args ls :
    ParseToLabelSelector (strings.Join (a :: args) " ") = inl ls → well_formed "labels" (a :: args)
| ok_namespace_labels a args ls :
    ParseToLabelSelector (strings.Join (a :: args) " ") = inl ls →
    well_formed "namespace_labels" (a :: args)
| ok_fallthrough args : well_formed "fallthrough" args
| ok_ttl a args t :
    strconv.Atoi a = inl t → (0 <= t <= 3600)%Z → well_formed "ttl" (a :: args)
| ok_transfer args tos : read_transfer args = Some (tos, []) → well_formed "transfer" args
| ok_noendpoints : well_formed "noendpoints" []
| ok_ignore_nothing : well_formed "ignore" []
| ok_ignore args : well_formed "ignore" ("empty_service" :: args)
| ok_kubeconfig path context : well_formed "kubeconfig" [path; context]
| ok_grpcport a port : strconv.Atoi a = inl port → well_formed "grpcport" [a]
| ok_grpcport_ignored args : length args ≠ 1 → well_formed "grpcport" args
| ok_chaos action scope p pods :
    Forall (λ a, "."%char ∈ String.list_ascii_of_string a) (p :: pods) →
    well_formed "chaos" (action :: scope :: p :: pods).

(** The zones and directives that are accepted. *)
Record accepted (zones : list string) ds : Prop := {
  acc_zone : ∃ z, z ∈ zones ∧ (IsReverse z <= 0)%Z;
  acc_directives : Forall (λ d, well_formed d.1 d.2) ds;
  acc_selection : args_of "namespaces" ds = [] ∨ args_of "namespace_labels" ds = [];
}.

(** The selector of the last directive of a name. *)
Definition last_selector (name : string) ds : option LabelSelector :=
  args ← last_of name ds;
  match ParseToLabelSelector (strings.Join args " ") with inl ls => Some ls | inr _ => None end.

(** The configuration of zones, the first forward one at [i], and directives: what each field is. *)
Definition describe (zones : list string) (i : Z) ds : Config :=
  let tls_file n := default "" (last_of "tls" ds ≫= λ args, args !! n) in
  let number args := match args with
                     | a :: _ => match strconv.Atoi a with inl t => Some t | inr _ => None end
                     | [] => None
                     end in
  {| c_Zones := zones;
     c_APIServerList := default [] (last_of "endpoint" ds);
     c_APIClientCert := tls_file 0;
     c_APIClientKey := tls_file 1;
     c_APICertAuth := tls_file 2;
     c_ClientConfig := args ← last_of "kubeconfig" ds; path ← args !! 0; context ← args !! 1;
                       Some (path, context);
     c_Namespaces := list_to_set (concat (args_of "namespaces" ds));
     c_podMode := default podModeDisabled (last_of "pods" ds ≫= head);
     c_endpointNameMode := negb (length (args_of "endpoint_pod_names" ds) =? 0)%nat;
     c_Fall := foldl (λ f args, SetZonesFromArgs args f) zero_F (args_of "fallthrough" ds);
     c_ttl := default defaultTTL (last_of "ttl" ds ≫= number);
     c_labelSelector := last_selector "labels" ds;
     c_namespaceLabelSelector := last_selector "namespace_labels" ds;
     c_initEndpointsCache := (length (args_of "noendpoints" ds) =? 0)%nat;
     c_ignoreEmptyService := existsb (λ args, negb (length args =? 0)%nat) (args_of "ignore" ds);
     c_primaryZoneIndex := i;
     c_autoPathSearch := searchFromResolvConf;
     c_TransferTo := default [] (last_of "transfer" ds ≫= λ args, fst <$> read_transfer args);
     c_grpcPort := default 0%Z (last (filter (λ args, length args = 1) (args_of "grpcport" ds))
                              ≫= number) |}.

(** A pod of a directive [chaos]. *)
Definition chaos_pod (action scope arg : string) : option (PodInfo Sel) :=
  '(ns, name) ← split_first_dot arg; Some (mkPodInfo ns name action scope None "" 0%Z).

(** The pods under chaos: those of the directives [chaos], in order. *)
Definition chaos_pods ds : list (PodInfo Sel) :=
  concat ((λ args,
    match args with
    | action :: scope :: pods =>
        omap (chaos_pod action scope) pods
    | _ => []
    end) <$> args_of "chaos" ds).

(** A pod is under the chaos of the last of them with its name. *)
Definition entry_of (ps : list (PodInfo Sel)) (ns name : string) : option (PodInfo Sel) :=
  last (filter (λ p, pi_Namespace p = ns ∧ pi_Name p = name) ps).

(** Exactly these pods are under chaos, without an address. *)
Record pods_are (ps : list (PodInfo Sel)) w : Prop := {
  pa_wf : wf w;
  pa_info ns name : info w ns name = entry_of ps ns name;
  pa_ips : ipPodMap w = ∅;
  pa_requests : chaosMap w = ∅;
}.

Definition chaos_described ds w : Prop := pods_are (chaos_pods ds) w.
End Spec.

Section StartSpec.
Context `{ClientLib} {Sel : Type}.
Variable env : Env.
Implicit Types (ds : list Directive).

(** A pod named by a directive [chaos]. *)
Definition configured ds (ns name : string) : Prop :=
  is_Some (entry_of (Sel:=Sel) (chaos_pods ds) ns name).

(** The API server answers a question for a pod of the configuration with neither pod nor error. *)
Definition unanswered ds : Prop :=
  ∃ n ns name, configured ds ns name ∧ cluster_reply env n ns name = (None, None).

(** Why the start fails: the client's configuration, the client, a selector, or the error of the API
    server for a pod of the configuration. *)
Inductive start_error ds (k : Config) : go_error → Prop :=
| err_config e : getClientConfig k = inr e → start_error ds k e
| err_client config e m :
    getClientConfig k = inl config → NewForConfig config = Some e → start_error ds k (errMsg m)
| err_selector ls e m :
    c_labelSelector k = Some ls ∨ c_namespaceLabelSelector k = Some ls →
    LabelSelectorAsSelector ls = inr e → start_error ds k (errMsg m)
| err_pod n ns name e :
    configured ds ns name → (cluster_reply env n ns name).2 = Some e → start_error ds k e.

(** What the options of the controller are. *)
Record options_of (k : Config) (opts : dnsControlOpts) : Prop := {
  oo_pods : initPodCache opts = bool_decide (c_podMode k = podModeVerified);
  oo_endpoints : initEndpointsCache opts = c_initEndpointsCache k;
  oo_ignore : ignoreEmptyService opts = c_ignoreEmptyService k;
  oo_zones : o_zones opts = c_Zones k;
  oo_names : o_endpointNameMode opts = c_endpointNameMode k;
  oo_selector : inl <$> selector opts = LabelSelectorAsSelector <$> c_labelSelector k;
  oo_namespaces : inl <$> namespaceSelector opts = LabelSelectorAsSelector <$> c_namespaceLabelSelector k;
}.
End StartSpec.

(** The address a host contributes: of the form ["address/bits"], not a loopback address, in four
    bytes when it has such a form. *)
Definition local_form (host : string) : option net.IP :=
  let ip := net.ParseCIDR host in
  if decide (ip = []) then None
  else if net.IsLoopback ip then None
  else Some (if decide (net.To4 ip = []) then ip else net.To4 ip).

(** * A concrete dispenser and client *)

Module SimpleCaddy.
Record t := mk { left : list Stanza; inner : list Directive; pending : list string; name : string }.

Definition next_stanza (c : t) : bool * t :=
  match left c with
  | (args, ds) :: ss => (true, mk ss ds args "")
  | [] => (false, c)
  end.
Definition next_block (c : t) : bool * t :=
  match inner c with
  | (n, args) :: ds => (true, mk (left c) ds args n)
  | [] => (false, c)
  end.
Definition consume (c : t) : t := mk (left c) (inner c) [] (name c).
Definition read_to (args : list string) : option (list string * list string) :=
  match args with
  | "to" :: tos => Some (tos, [])
  | _ => None
  end.

#[export] Instance lib : CaddyLib := {|
  caddy := t; LabelSelector := string; fall_F := list string;
  Next := next_stanza; NextBlock := next_block; Val := name; RemainingArgs c := (pending c, consume c);
  ServerBlockKeys := ["cluster.local."];
  ArgErr c := errMsg ("wrong argument count after " +:+ name c);
  Errf c m := errMsg m;
  ErrOnce := errMsg "once per server block";
  parse_Transfer c :=
    match read_to (pending c) with
    | Some r => (r, None, consume c)
    | None => ([], [], Some (errMsg ("wrong argument of " +:+ name c)), consume c)
    end;
  Host_Normalize h := h; Zones_Normalize zs := zs;
  zero_F := []; SetZonesFromArgs zones _ := zones; resolv_conf := None;
  ParseToLabelSelector s := inl s;
|}.

#[export, refine] Instance laws : CaddyLaws := {|
  stanzas c ss := left c = ss;
  arguments c args ds ss := pending c = args ∧ inner c = ds ∧ left c = ss;
  block c ds ss := inner c = ds ∧ left c = ss;
  read_transfer := read_to;
|}.
Proof.
  - intros [] ?; by simplify_eq/=.
  - intros [] args ds ss ?; simplify_eq/=. by eexists.
  - intros [] ss [? ?]; simplify_eq/=. by eexists.
  - intros [] n args ds ss [? ?]; simplify_eq/=. by eexists.
  - intros [] args ds ss (? & ? & ?); simplify_eq/=. by eexists.
  - intros [] args ds ss (? & ? & ?) _; simplify_eq/=. destruct (read_to args); by do 3 eexists.
Defined.

#[export] Instance client : ClientLib := {|
  rest_Config := string; load_kubeconfig p := inl p.1; load_server s _ _ _ := inl s;
  InClusterConfig := inl "cluster"; set_ContentType t c := c; NewForConfig c := None;
  LabelSelectorAsSelector s := inl s; LabelSelector_String s := s; net_Listen a := None;
  plugin_Error n e := e;
|}.
End SimpleCaddy.

(** * Facts *)

Section DirectiveFacts.
Context `{DnsLib} `{CaddyLaws} {Sel : Type}.
Implicit Types (s : parsing Sel) (ds pre : list Directive) (args : list string).

(** The directive [name], after the directives [pre]: it is accepted and described together with
    them, or it is refused. *)
Definition directive_runs (m : GoM (parsing Sel) unit) (name : string) : Prop :=
  ∀ s args ds ss pre zones i,
    arguments (at_ s) args ds ss → cf s = describe zones i pre → chaos_described pre (chaos s) →
    (well_formed name args ∧ ∃ s', m s = (Ret tt, s') ∧ block (at_ s') ds ss ∧
       cf s' = describe zones i (pre ++ [(name, args)]) ∧
       chaos_described (pre ++ [(name, args)]) (chaos s')) ∨
    (¬ well_formed name args ∧ ∃ e s', m s = (Throw e, s')).

Lemma args_of_snoc n pre name args :
  args_of n (pre ++ [(name, args)]) = args_of n pre ++ (if (name =? n)%string then [args] else []).
Proof. unfold args_of. rewrite omap_app. simpl. by destruct (name =? n)%string. Qed.

Lemma last_of_snoc n pre name args :
  last_of n (pre ++ [(name, args)]) = if (name =? n)%string then Some args else last_of n pre.
Proof.
  unfold last_of. rewrite args_of_snoc. destruct (name =? n)%string; [apply last_snoc|].
  by rewrite app_nil_r.
Qed.

Lemma chaos_described_other pre name args w :
  name ≠ "chaos" → chaos_described pre w → chaos_described (Sel:=Sel) (pre ++ [(name, args)]) w.
Proof.
  intros Hne. unfold chaos_described, chaos_pods. rewrite args_of_snoc.
  destruct (String.eqb_spec name "chaos"); [done|]. by rewrite app_nil_r.
Qed.

(** Reading the arguments of a directive. *)
Lemma read_args s args ds ss :
  arguments (at_ s) args ds ss →
  ∃ c', call RemainingArgs s = (Ret args, mkParsing c' (cf s) (chaos s)) ∧ block c' ds ss.
Proof.
  intros (c' & Hr & Hb)%RemainingArgs_all. exists c'. split; [|done]. unfold call. by rewrite Hr.
Qed.

(** The cases of a directive: the description with one directive more, and a refusal. *)
Ltac described :=
  unfold describe, last_selector; rewrite !last_of_snoc, !args_of_snoc; simpl;
  rewrite ?app_nil_r; cbv [set_APIServerList set_APICertAuth set_APIClientCert set_APIClientKey
    set_ClientConfig set_Namespaces set_podMode set_endpointNameMode set_Fall set_ttl
    set_labelSelector set_namespaceLabelSelector set_initEndpointsCache set_ignoreEmptyService
    set_TransferTo set_grpcPort]; simpl; try (f_equal; []); try done.
Ltac accept c' :=
  left; split; [by econstructor|]; eexists; split; [reflexivity|]; split; [done|];
  split; [|by apply chaos_described_other]; simpl.
Ltac refuse := right; split; [by inversion 1|]; by do 2 eexists.
Tactic Notation "start" reference(m) :=
  intros s args ds ss pre zones i (c' & Hr & Hb)%read_args Hcf Hch;
  unfold m; erewrite (gom_bind_ret _ _ _ _ _ Hr); clear Hr; go_simpl; rewrite ?Hcf.

Lemma endpoint_pod_names_runs : directive_runs endpoint_pod_names "endpoint_pod_names".
Proof.
  start endpoint_pod_names. destruct args; simpl; [|refuse]. accept c'. described.
  by rewrite length_app, Nat.add_comm.
Qed.

Lemma pods_mode_runs : directive_runs pods_mode "pods".
Proof.
  start pods_mode. destruct args as [|a [|]]; [refuse| |refuse].
  destruct ((_ || _) || _) eqn:Hm; go_bool.
  - left. split; [constructor; rewrite !elem_of_cons; naive_solver|]. eexists. split; [reflexivity|].
    split; [done|]. split; [|by apply chaos_described_other]. simpl. described.
  - right. split; [|by do 2 eexists]. intros Hwf.
    assert (a ∈ [podModeDisabled; podModeInsecure; podModeVerified]) as Hin by by inversion Hwf.
    rewrite !elem_of_cons, elem_of_nil in Hin. naive_solver.
Qed.

Lemma endpoint_runs : directive_runs endpoint "endpoint".
Proof. start endpoint. destruct args; simpl; [refuse|]. accept c'. described. Qed.

Lemma tls_runs : directive_runs tls "tls".
Proof.
  start tls. destruct args as [|cert [|key [|ca [|]]]]; try refuse. accept c'. described.
Qed.

Lemma kubeconfig_runs : directive_runs kubeconfig "kubeconfig".
Proof.
  start kubeconfig. destruct args as [|path [|context [|]]]; try refuse. accept c'.
  described.
Qed.

Lemma fall_through_runs : directive_runs fall_through "fallthrough".
Proof. start fall_through. accept c'. described. by rewrite foldl_app. Qed.

Lemma noendpoints_runs : directive_runs noendpoints "noendpoints".
Proof.
  start noendpoints. destruct args; simpl; [|refuse]. accept c'. described.
  by rewrite length_app, Nat.add_comm.
Qed.

Lemma add_namespaces l s :
  go_for add_namespace l s =
    (Ret tt, mkParsing (at_ s) (set_Namespaces (c_Namespaces (cf s) ∪ list_to_set l) (cf s)) (chaos s)).
Proof.
  revert s. induction l as [|a l IH]; intros s; simpl.
  - rewrite union_empty_r_L. by destruct s as [c [] w].
  - go_step. rewrite IH. simpl. unfold set_Namespaces. simpl. do 3 f_equal. set_solver.
Qed.

Lemma namespaces_runs : directive_runs namespaces "namespaces".
Proof.
  start namespaces. destruct args as [|a args]; cbn [length Nat.ltb Nat.leb]; [refuse|].
  rewrite add_namespaces. accept c'. described.
  by rewrite concat_app, list_to_set_app_L; simpl; rewrite ?app_nil_r.
Qed.

Lemma labels_runs : directive_runs (label_selector "label" set_labelSelector) "labels".
Proof.
  start label_selector. destruct args as [|a args]; cbn [length Nat.ltb Nat.leb]; [refuse|].
  destruct (ParseToLabelSelector _) as [ls|e] eqn:Hls.
  - accept c'. described. simpl in Hls. by rewrite Hls.
  - right. split; [inversion 1; congruence|]. by do 2 eexists.
Qed.

Lemma namespace_labels_runs :
  directive_runs (label_selector "namespace_label" set_namespaceLabelSelector) "namespace_labels".
Proof.
  start label_selector. destruct args as [|a args]; cbn [length Nat.ltb Nat.leb]; [refuse|].
  destruct (ParseToLabelSelector _) as [ls|e] eqn:Hls.
  - accept c'. described. simpl in Hls. by rewrite Hls.
  - right. split; [inversion 1; congruence|]. by do 2 eexists.
Qed.

Lemma ttl_runs : directive_runs ttl_directive "ttl".
Proof.
  start ttl_directive. destruct args as [|a args]; [refuse|].
  destruct (strconv.Atoi a) as [t|e] eqn:Ht.
  2:{ right. split; [inversion 1; congruence|]. by do 2 eexists. }
  assert (Hrange : well_formed "ttl" (a :: args) → (0 <= t <= 3600)%Z).
  { inversion 1; subst. match goal with Ha : strconv.Atoi a = inl ?x |- _ =>
      replace x with t in * by congruence end. done. }
  destruct (Z.ltb_spec t 0); cbn [orb]; [right; split; [by intros ?%Hrange; lia|by do 2 eexists]|].
  destruct (Z.ltb_spec 3600 t); [right; split; [by intros ?%Hrange; lia|by do 2 eexists]|].
  accept c'. rewrite Z.mod_small by lia. described. by rewrite Ht.
Qed.

Lemma ignore_runs : directive_runs ignore_directive "ignore".
Proof.
  start ignore_directive. destruct args as [|a args].
  - accept c'. described. by rewrite existsb_app, orb_false_r.
  - destruct (String.eqb_spec a "empty_service") as [->|Hne].
    + accept c'. described. by rewrite existsb_app, orb_true_r.
    + right. split; [by inversion 1|]. by do 2 eexists.
Qed.

Lemma grpcport_runs : directive_runs grpcport "grpcport".
Proof.
  start grpcport. destruct args as [|a [|b args]].
  - left. split; [by apply ok_grpcport_ignored|]. eexists. split; [reflexivity|]. split; [done|].
    split; [|by apply chaos_described_other]. simpl. described.
    by rewrite filter_app, app_nil_r.
  - destruct (strconv.Atoi a) as [t|e] eqn:Ht.
    + accept c'. described. rewrite filter_app, filter_cons_True by done.
      rewrite filter_nil, last_snoc. simpl. by rewrite Ht.
    + right. split; [inversion 1; simplify_eq/=; congruence|]. by do 2 eexists.
  - left. split; [by apply ok_grpcport_ignored|]. eexists. split; [reflexivity|]. split; [done|].
    split; [|by apply chaos_described_other]. simpl. described.
    by rewrite filter_app, app_nil_r.
Qed.

(** The directive [transfer] in a documented form. *)
Lemma transfer_runs s args ds ss pre zones i :
  transfer_documented args →
  arguments (at_ s) args ds ss → cf s = describe zones i pre → chaos_described pre (chaos s) →
  (well_formed "transfer" args ∧ ∃ s', transfer_directive s = (Ret tt, s') ∧ block (at_ s') ds ss ∧
     cf s' = describe zones i (pre ++ [("transfer", args)]) ∧
     chaos_described (pre ++ [("transfer", args)]) (chaos s')) ∨
  (¬ well_formed "transfer" args ∧ ∃ e s', transfer_directive s = (Throw e, s')).
Proof.
  intros Hdoc Ha Hcf Hch. pose proof (parse_Transfer_documented _ _ _ _ Ha Hdoc) as Hp.
  unfold transfer_directive, call. go_simpl. destruct (read_transfer args) as [[tos froms]|] eqn:Hread.
  2:{ destruct Hp as ([tos froms] & e & c' & ->). right.
      split; [inversion 1; simplify_eq/=; congruence|]. by do 2 eexists. }
  destruct Hp as (c' & -> & Hb). destruct froms as [|f froms]; simpl.
  - accept c'. rewrite Hcf. described. by rewrite Hread.
  - right. split; [inversion 1; simplify_eq/=; congruence|]. by do 2 eexists.
Qed.

Lemma split_first_dot_none a : split_first_dot a = None ↔ "."%char ∉ String.list_ascii_of_string a.
Proof.
  induction a as [|c a IH]; simpl; [split; [by intros _ ?%not_elem_of_nil|done]|].
  rewrite not_elem_of_cons. destruct (Ascii.eqb_spec c "."%char) as [->|Hne].
  - naive_solver.
  - destruct (split_first_dot a) as [[x y]|]; naive_solver.
Qed.

Lemma pods_are_snoc ps p (w : world Sel) : pods_are ps w → pods_are (ps ++ [p]) (configured_pod p w).
Proof.
  intros [Hw Hi Hips Hreq]. constructor.
  - by apply wf_configured.
  - intros ns name. rewrite info_configured, Hi by done. unfold entry_of. rewrite filter_app.
    case_decide as Hd.
    + rewrite filter_cons_True by naive_solver. by rewrite filter_nil, last_snoc.
    + rewrite filter_cons_False by naive_solver. by rewrite filter_nil, app_nil_r.
  - done.
  - revert Hreq. unfold configured_pod, ensure_ns. simpl. by case_match.
Qed.

(** The loop over the pods of a directive [chaos]. *)
Lemma stanza_pods_run e action scope l ps (w : world Sel) :
  pods_are ps w →
  (Forall (λ a, "."%char ∈ String.list_ascii_of_string a) l ∧
     ∃ w', go_for (stanza_pod e action scope) l w = (Ret tt, w') ∧
       pods_are (ps ++ omap (chaos_pod action scope) l) w') ∨
  (¬ Forall (λ a, "."%char ∈ String.list_ascii_of_string a) l ∧
     ∃ w', go_for (stanza_pod e action scope) l w = (Throw e, w')).
Proof.
  revert ps w. induction l as [|a l IH]; intros ps w Hw.
  { left. split; [done|]. exists w. simpl. by rewrite app_nil_r. }
  cbn [go_for]. pose proof (stanza_pod_run e action scope a w) as Hrun.
  pose proof (split_first_dot_none a) as Hdot. rewrite Forall_cons.
  destruct (split_first_dot a) as [[ns name]|] eqn:Hs.
  - rewrite (gom_bind_ret _ _ _ _ _ Hrun).
    assert (Ha : "."%char ∈ String.list_ascii_of_string a).
    { destruct (decide ("."%char ∈ String.list_ascii_of_string a)); [done|naive_solver]. }
    destruct (IH _ _ (pods_are_snoc ps (mkPodInfo ns name action scope None "" 0%Z) w Hw))
      as [(Hl & w' & -> & Hw')|(Hl & w' & ->)]; [left|right].
    + split; [done|]. exists w'. split; [done|]. rewrite <- app_assoc in Hw'. simpl in Hw' |- *.
      assert (chaos_pod (Sel:=Sel) action scope a = Some (mkPodInfo ns name action scope None "" 0%Z))
        as -> by (unfold chaos_pod; by rewrite Hs). done.
    + split; [tauto|]. by exists w'.
  - right. split; [naive_solver|]. exists w. by rewrite (gom_bind_throw _ _ _ _ _ Hrun).
Qed.

Lemma chaos_runs : directive_runs chaos_directive "chaos".
Proof.
  start chaos_directive. unfold on_world. simpl. rewrite <- Hcf.
  destruct args as [|action [|scope [|p pods]]]; try refuse. unfold stanza_chaos.
  destruct (stanza_pods_run (ArgErr c') action scope (p :: pods) _ _ Hch)
    as [(Hl & w' & -> & Hw')|(Hl & w' & ->)]; [left|right].
  - split; [by constructor|]. eexists. split; [reflexivity|]. split; [done|]. simpl. split.
    + rewrite Hcf. described.
    + unfold chaos_described, chaos_pods. rewrite args_of_snoc. simpl.
      rewrite fmap_app, concat_app. simpl. by rewrite app_nil_r.
  - split; [by inversion 1|]. by do 2 eexists.
Qed.

(** The next name of the switch. *)
Ltac next_name L :=
  match goal with |- context [(?n =? ?x)%string] =>
    destruct (String.eqb_spec n x) as [->|]; [by eapply L; auto|] end.

(** Every directive, whatever its name. *)
Lemma directive_run s name args ds ss pre zones i :
  (name = "transfer" → transfer_documented args) →
  Val (at_ s) = name → arguments (at_ s) args ds ss → cf s = describe zones i pre →
  chaos_described pre (chaos s) →
  (well_formed name args ∧ ∃ s', directive s = (Ret tt, s') ∧ block (at_ s') ds ss ∧
     cf s' = describe zones i (pre ++ [(name, args)]) ∧
     chaos_described (pre ++ [(name, args)]) (chaos s')) ∨
  (¬ well_formed name args ∧ ∃ e s', directive s = (Throw e, s')).
Proof.
  intros Hdoc Hn Ha Hcf Hch. unfold directive. go_step. rewrite Hn.
  next_name endpoint_pod_names_runs. next_name pods_mode_runs. next_name namespaces_runs.
  next_name endpoint_runs. next_name tls_runs. next_name labels_runs.
  next_name namespace_labels_runs. next_name fall_through_runs. next_name ttl_runs.
  next_name transfer_runs. next_name noendpoints_runs. next_name ignore_runs.
  next_name kubeconfig_runs. next_name grpcport_runs. next_name chaos_runs.
  right. split; [by inversion 1|]. by do 2 eexists.
Qed.

Lemma documented_cons name args ds :
  documented ((name, args) :: ds) →
  (name = "transfer" → transfer_documented args) ∧ documented ds.
Proof.
  unfold documented, args_of. intros Hd. split.
  - intros ->. apply Hd. simpl. by left.
  - intros args' Hin. apply Hd. simpl. destruct (name =? _)%string; [by right|done].
Qed.

Lemma stanza_loop_run fuel s ds ss pre zones i :
  block (at_ s) ds ss → documented ds → length ds < fuel → cf s = describe zones i pre →
  chaos_described pre (chaos s) →
  (Forall (λ d, well_formed d.1 d.2) ds ∧ ∃ s', stanza_loop fuel s = (Ret (Some tt), s') ∧
     stanzas (at_ s') ss ∧ cf s' = describe zones i (pre ++ ds) ∧
     chaos_described (pre ++ ds) (chaos s')) ∨
  (¬ Forall (λ d, well_formed d.1 d.2) ds ∧ ∃ e s', stanza_loop fuel s = (Throw e, s')).
Proof.
  revert s ds pre. induction fuel as [|fuel IH]; intros s ds pre Hb Hdoc Hlen Hcf Hch; [lia|].
  cbn [stanza_loop]. destruct ds as [|[name args] ds].
  - destruct (NextBlock_end _ _ Hb) as (c' & Hn & Hss). left. split; [done|].
    rewrite app_nil_r. exists (mkParsing c' (cf s) (chaos s)). split; [|done].
    unfold call. go_simpl. by rewrite Hn.
  - destruct (NextBlock_more _ _ _ _ _ Hb) as (c' & Hn & Hv & Ha).
    assert (Hrun : call NextBlock s = (Ret true, mkParsing c' (cf s) (chaos s)))
      by (unfold call; by rewrite Hn).
    rewrite (gom_bind_ret _ _ _ _ _ Hrun). simpl in Hlen. rewrite Forall_cons.
    destruct (documented_cons _ _ _ Hdoc) as [Hdoc1 Hdoc2].
    destruct (directive_run (mkParsing c' (cf s) (chaos s)) name args ds ss pre zones i Hdoc1 Hv Ha
      Hcf Hch)
      as [(Hwf & s' & Hd & Hb' & Hcf' & Hch')|(Hwf & e & s' & Hd)].
    + rewrite (gom_bind_ret _ _ _ _ _ Hd).
      destruct (IH s' ds _ Hb' Hdoc2 ltac:(lia) Hcf' Hch') as [(Hf & s'' & -> & Hrest)|(Hf & e & s'' & ->)].
      * left. split; [done|]. exists s''. by rewrite <- app_assoc in Hrest.
      * right. split; [tauto|]. by do 2 eexists.
    + right. split; [tauto|]. exists e, s'. by rewrite (gom_bind_throw _ _ _ _ _ Hd).
Qed.

(** Where the first forward zone is. *)
Definition forward_at (zones : list string) (i : Z) : Prop :=
  (0 <= i)%Z ∧ (∃ z, zones !! Z.to_nat i = Some z ∧ (IsReverse z <= 0)%Z) ∧
  ∀ j z, (j < Z.to_nat i)%nat → zones !! j = Some z → (0 < IsReverse z)%Z.

Lemma first_forward_spec zones k :
  match first_forward k zones with
  | Some i => (k <= i)%Z ∧ forward_at zones (i - k)
  | None => ∀ z, z ∈ zones → (0 < IsReverse z)%Z
  end.
Proof.
  revert k. induction zones as [|z zones IH]; intros k; simpl; [by intros z ?%not_elem_of_nil|].
  destruct (Z.ltb_spec 0 (IsReverse z)) as [Hz|Hz].
  - specialize (IH (k + 1)%Z). destruct (first_forward (k + 1) zones) as [i|].
    + destruct IH as (Hle & H0i & (z' & Hz' & Hr) & Hbefore). split; [lia|].
      assert (Hn : Z.to_nat (i - k) = S (Z.to_nat (i - (k + 1)))) by lia.
      split; [lia|]. rewrite Hn. split; [by exists z'|]. intros [|j] y Hj Hy; simplify_eq/=; [done|].
      apply (Hbefore j); [lia|done].
    + intros y [->|Hy]%elem_of_cons; [done|by apply IH].
  - split; [lia|]. rewrite Z.sub_diag. split; [done|]. split; [by exists z|]. simpl. lia.
Qed.

(** The two ways to select namespaces, by what the directives set. *)
Lemma selection_set zones i ds :
  Forall (λ d, well_formed d.1 d.2) ds →
  negb (size (c_Namespaces (describe zones i ds)) =? 0)%nat
    && match c_namespaceLabelSelector (describe zones i ds) with Some _ => true | None => false end
  = negb (bool_decide (args_of "namespaces" ds = [] ∨ args_of "namespace_labels" ds = [])).
Proof.
  intros Hf.
  assert (Hin : ∀ name args, args ∈ args_of name ds → well_formed name args).
  { intros name args ([n a] & Ha & Hd)%list_elem_of_omap. simpl in Hd.
    destruct (String.eqb_spec n name) as [->|]; simplify_eq. rewrite Forall_forall in Hf.
    exact (Hf _ Ha). }
  simpl. assert (Hns : (size (list_to_set (C:=gset string) (concat (args_of "namespaces" ds))) =? 0)%nat
      = bool_decide (args_of "namespaces" ds = [])).
  { specialize (Hin "namespaces"). destruct (args_of "namespaces" ds) as [|args l]; [done|].
    specialize (Hin args ltac:(by left)). inversion Hin; subst. simpl.
    apply Nat.eqb_neq. rewrite size_non_empty_iff. set_solver. }
  assert (Hls : match last_selector "namespace_labels" ds with Some _ => true | None => false end
      = negb (bool_decide (args_of "namespace_labels" ds = []))).
  { unfold last_selector, last_of. specialize (Hin "namespace_labels").
    destruct (args_of "namespace_labels" ds) as [|args' l] using rev_ind; [done|].
    rewrite last_snoc. simpl. specialize (Hin args' ltac:(set_solver)). inversion Hin as [| | | | | |?? ls Hls| | | | | | | | | |].
    subst. rewrite Hls. by rewrite bool_decide_eq_false_2 by by destruct l. }
  rewrite Hns, Hls, bool_decide_or. by repeat case_bool_decide.
Qed.

Lemma ParseStanza_run fuel s args ds ss :
  arguments (at_ s) args ds ss → documented ds → length ds < fuel →
  let zones := Host_Normalize <$> (if negb (length args =? 0)%nat then args else ServerBlockKeys) in
  (accepted zones ds ∧ ∃ s' i, ParseStanza fuel s = (Ret (Some tt), s') ∧ stanzas (at_ s') ss ∧
     forward_at zones i ∧ cf s' = describe zones i ds ∧ chaos_described ds (chaos s')) ∨
  (¬ accepted zones ds ∧ ∃ e s', ParseStanza fuel s = (Throw e, s')).
Proof.
  intros (c' & Hr & Hb)%RemainingArgs_all Hdoc Hlen zones. unfold ParseStanza, check_selection. do 4 go_step.
  erewrite gom_bind_ret by (unfold call; cbn [at_]; rewrite Hr; reflexivity).
  do 3 go_step. cbn [cf c_Zones set_Zones set_primaryZoneIndex]. fold zones.
  pose proof (first_forward_spec zones 0) as Hi. destruct (first_forward 0 zones) as [i|].
  2:{ right. split; [intros [(z & Hz & Hle) _ _]; specialize (Hi z Hz); lia|]. by do 2 eexists. }
  rewrite Z.sub_0_r in Hi. destruct Hi as [Hi0 Hi]. do 2 go_step. cbn [cf set_primaryZoneIndex c_primaryZoneIndex].
  destruct (Z.eqb_spec i (-1)); [lia|].
  match goal with |- context [(stanza_loop fuel ≫= _) ?S] => set (s0 := S) end.
  assert (Hcf : cf s0 = describe zones i []) by reflexivity.
  assert (Hch : chaos_described [] (chaos s0)) by (constructor; [apply wf_new|done..]).
  destruct (stanza_loop_run fuel s0 ds ss [] zones i Hb Hdoc Hlen Hcf Hch)
    as [(Hf & s' & Hl & Hss & Hcf' & Hch')|(Hf & e & s' & Hl)].
  - rewrite (gom_bind_ret _ _ _ _ _ Hl). go_step. rewrite Hcf', selection_set by done.
    case_bool_decide as Hsel; simpl.
    + left. split; [constructor; [|done|done]|by exists s', i].
      destruct Hi as (_ & (z & Hz & Hle) & _). exists z. split; [by eapply list_elem_of_lookup_2|done].
    + right. split; [by intros [_ _ ?]|]. by do 2 eexists.
  - right. split; [by intros [_ ? _]|]. exists e, s'. by rewrite (gom_bind_throw _ _ _ _ _ Hl).
Qed.
End DirectiveFacts.

Section InitFacts.
Context {Sel : Type}.
Variable env : Env.
Variable range : ∀ {A}, gmap string A → list (string * A).
Hypothesis range_map : ∀ A (m : gmap string A), range m ≡ₚ map_to_list m.
Implicit Types (w : world Sel) (l : positive).

(** The address of the entry [l], which was [p], was found. *)
Definition found l (p : PodInfo Sel) w : Prop :=
  ∃ n v1Pod t, cluster_reply env n (pi_Namespace p) (pi_Name p) = (Some v1Pod, None) ∧
    store w !! l = Some (set_time t (set_ip (ap_PodIP v1Pod) p)) ∧
    is_Some (ipPodMap w !! ap_PodIP v1Pod).

(** Between [w] and [w'] the addresses of the entries [done] were found, and indexed. *)
Record searched w (done : list positive) w' : Prop := {
  se_wf : wf w';
  se_pods : podMap w' = podMap w;
  se_rest l : l ∉ done → store w' !! l = store w !! l;
  se_found l p : l ∈ done → store w !! l = Some p → found l p w';
  se_ips ip l : ipPodMap w' !! ip = Some l → l ∈ done ∧ (pi_IP <$> store w' !! l) = Some ip;
}.

(** The entries in the order they are visited, each once. *)
Definition visited w : list positive :=
  range (podMap w) ≫= λ '(_, pods), (range pods).*2.

Lemma init_chaos_pods_visited w :
  init_chaos_pods env (@range) w = go_for (init_pod env) (visited w) w.
Proof.
  unfold init_chaos_pods. go_step. unfold visited. rewrite <- go_for_bind.
  apply go_for_ext. intros [ns pods] w'. rewrite <- go_for_fmap. apply go_for_ext. by intros [].
Qed.

Lemma visited_spec w l : l ∈ visited w ↔ ∃ ns name, pod_at w ns name = Some l.
Proof.
  unfold visited. rewrite list_elem_of_bind. split.
  - intros ([ns pods] & Hl & Hp). rewrite range_map, elem_of_map_to_list in Hp.
    apply list_elem_of_fmap in Hl as ([name l'] & -> & Hl).
    rewrite range_map, elem_of_map_to_list in Hl. exists ns, name. unfold pod_at. by rewrite Hp.
  - intros (ns & name & Hl). unfold pod_at in Hl.
    destruct (podMap w !! ns) as [pods|] eqn:Hp; [|done]. simpl in Hl. exists (ns, pods). split.
    + apply list_elem_of_fmap. exists (name, l). by rewrite range_map, elem_of_map_to_list.
    + by rewrite range_map, elem_of_map_to_list.
Qed.

Lemma visited_once w : wf w → NoDup (visited w).
Proof.
  intros Hw.
  assert (Hat : ∀ ns pods name l, (ns, pods) ∈ range (podMap w) → (name, l) ∈ range pods →
    pod_at w ns name = Some l).
  { intros ns pods name l. rewrite !range_map, !elem_of_map_to_list. unfold pod_at. by intros ->. }
  assert (Hinj : ∀ ns name ns' name' l, pod_at w ns name = Some l → pod_at w ns' name' = Some l →
    ns = ns' ∧ name = name').
  { intros ns name ns' name' l (p & Hp & <- & <-)%(wf_pods w Hw) (q & Hq & <- & <-)%(wf_pods w Hw).
    by simplify_eq. }
  apply NoDup_bind.
  - intros [ns pods] [ns' pods'] l Hp Hp' ([name l1] & -> & Hl)%list_elem_of_fmap
      ([name' l2] & Heq & Hl')%list_elem_of_fmap. simpl in Heq. subst l2.
    destruct (Hinj ns name ns' name' l1) as [<- _]; [by eapply Hat..|].
    rewrite range_map, elem_of_map_to_list in Hp, Hp'. by simplify_eq.
  - intros [ns pods] Hp. apply NoDup_fmap_2_strong.
    + intros [name l] [name' l'] Hl Hl' Heq. simpl in Heq. subst l'.
      destruct (Hinj ns name ns name' l) as [_ <-]; [by eapply Hat..|done].
    + rewrite range_map. apply NoDup_map_to_list.
  - rewrite range_map. apply NoDup_map_to_list.
Qed.

(** One address found. *)
Lemma searched_step w done w' l p v1Pod n t k :
  searched w done w' → l ∉ done → store w !! l = Some p →
  cluster_reply env n (pi_Namespace p) (pi_Name p) = (Some v1Pod, None) →
  searched w (done ++ [l]) (moved l (ap_PodIP v1Pod) t k w').
Proof.
  intros [Hw Hpods Hrest Hfound Hips] Hl Hp Hr.
  assert (Hp' : store w' !! l = Some p) by by rewrite Hrest.
  constructor; simpl.
  - apply wf_moved; [done|by eexists].
  - done.
  - intros l' Hl'. rewrite elem_of_app, list_elem_of_singleton in Hl'.
    rewrite lookup_alter_ne by naive_solver. apply Hrest. tauto.
  - intros l' p' Hl' Hs. apply elem_of_app in Hl' as [Hl'|Hl'%list_elem_of_singleton].
    + destruct (Hfound l' p' Hl' Hs) as (m & v & t' & Hc & Hst & Hi). exists m, v, t'.
      split_and!; [done| |]; simpl.
      * by rewrite lookup_alter_ne by naive_solver.
      * apply lookup_insert_is_Some'. by right.
    + subst l'. simplify_eq. exists n, v1Pod, t. split_and!; [done| |]; simpl.
      * by rewrite lookup_alter_eq, Hp'.
      * apply lookup_insert_is_Some'. by left.
  - intros ip l' [[<- <-]|[Hne Hi]]%lookup_insert_Some.
    + split; [set_solver|]. by rewrite lookup_alter_eq, Hp'.
    + destruct (Hips ip l' Hi) as [Hd Hs]. split; [set_solver|].
      by rewrite lookup_alter_ne by naive_solver.
Qed.

Lemma init_loop L w done w' :
  searched w done w' → NoDup (done ++ L) → (∀ l, l ∈ L → is_Some (store w !! l)) →
  match go_for (init_pod env) L w' with
  | (Ret _, w'') => searched w (done ++ L) w''
  | (Throw e, _) => ∃ l p n, l ∈ L ∧ store w !! l = Some p ∧
      (cluster_reply env n (pi_Namespace p) (pi_Name p)).2 = Some e
  | (Panic, _) => ∃ l p n, l ∈ L ∧ store w !! l = Some p ∧
      cluster_reply env n (pi_Namespace p) (pi_Name p) = (None, None)
  end.
Proof.
  revert done w'. induction L as [|l L IH]; intros done w' Hs Hnd HL.
  { simpl. by rewrite app_nil_r. }
  assert (Hl : l ∉ done) by (apply NoDup_app in Hnd as (_ & Hd & _); set_solver).
  destruct (HL l) as [p Hp]; [by left|].
  pose proof (init_pod_run env l p w') as Hrun. rewrite (se_rest _ _ _ Hs l Hl) in Hrun.
  specialize (Hrun Hp). cbn [go_for].
  destruct (cluster_reply env (asked w') (pi_Namespace p) (pi_Name p)) as [[v1Pod|] [e|]] eqn:Hr.
  - rewrite (gom_bind_throw _ _ _ _ _ Hrun). exists l, p, (asked w'). rewrite Hr.
    split; [by left|done].
  - rewrite (gom_bind_ret _ _ _ _ _ Hrun).
    specialize (IH (done ++ [l]) _ (searched_step _ _ _ _ _ _ _
      (time_Now env (asked w' + 1)) (asked w' + 2) Hs Hl Hp Hr)).
    rewrite <- app_assoc in IH. specialize (IH Hnd). cbn [app] in IH.
    assert (HL' : ∀ l', l' ∈ L → is_Some (store w !! l')) by (intros l' Hl'; apply HL; by right).
    specialize (IH HL'). destruct (go_for (init_pod env) L _) as [[[]|e|] w'']; [done| |].
    + destruct IH as (l' & p' & n & Hin & Hrest). exists l', p', n. split; [by right|done].
    + destruct IH as (l' & p' & n & Hin & Hrest). exists l', p', n. split; [by right|done].
  - rewrite (gom_bind_throw _ _ _ _ _ Hrun). exists l, p, (asked w'). rewrite Hr.
    split; [by left|done].
  - rewrite (gom_bind_panic _ _ _ _ Hrun). exists l, p, (asked w'). split; [by left|done].
Qed.

(** The search for the addresses of the pods of the configuration. *)
Lemma init_chaos_pods_run w :
  wf w → ipPodMap w = ∅ →
  match init_chaos_pods env (@range) w with
  | (Ret _, w') => searched w (visited w) w'
  | (Throw e, _) => ∃ n ns name p, info w ns name = Some p ∧
      (cluster_reply env n (pi_Namespace p) (pi_Name p)).2 = Some e
  | (Panic, _) => ∃ n ns name p, info w ns name = Some p ∧
      cluster_reply env n (pi_Namespace p) (pi_Name p) = (None, None)
  end.
Proof.
  intros Hw Hips. rewrite init_chaos_pods_visited.
  assert (Hs : searched w [] w).
  { constructor; try done; [by intros ?? ?%not_elem_of_nil|]. intros ip l. by rewrite Hips. }
  assert (HL : ∀ l, l ∈ visited w → is_Some (store w !! l))
    by (intros l (ns & name & Hl)%visited_spec; by eapply pod_at_store).
  assert (Hinfo : ∀ l p, l ∈ visited w → store w !! l = Some p → ∃ ns name, info w ns name = Some p).
  { intros l p (ns & name & Hl)%visited_spec Hp. exists ns, name. unfold info. by rewrite Hl. }
  pose proof (init_loop (visited w) w [] w Hs (visited_once w Hw) HL) as Hrun.
  destruct (go_for (init_pod env) (visited w) w) as [[[]|e|] w']; simpl in Hrun; [done| |].
  - destruct Hrun as (l & p & n & Hin & Hp & Hr). destruct (Hinfo l p Hin Hp) as (ns & name & Hi).
    by exists n, ns, name, p.
  - destruct Hrun as (l & p & n & Hin & Hp & Hr). destruct (Hinfo l p Hin Hp) as (ns & name & Hi).
    by exists n, ns, name, p.
Qed.

(** After the search the index by address is exact. *)
Lemma searched_exact w w' : wf w → searched w (visited w) w' → exact_index w'.
Proof.
  intros Hw Hs ip l Hl. destruct (se_ips _ _ _ Hs ip l Hl) as [(ns & name & Hat)%visited_spec Hip].
  destruct (store w' !! l) as [p'|] eqn:Hp'; [|done]. simplify_eq/=. exists p'. split_and!; [done..|].
  assert (Hat' : pod_at w' ns name = Some l) by (unfold pod_at in *; by rewrite (se_pods _ _ _ Hs)).
  destruct (wf_pods w' (se_wf _ _ _ Hs) ns name l Hat') as (q & Hq & <- & <-). by simplify_eq.
Qed.

(** After the search every pod has the address the cluster gave for it. *)
Lemma searched_info w w' ns name p :
  wf w → searched w (visited w) w' → info w ns name = Some p →
  ∃ n v1Pod t, cluster_reply env n ns name = (Some v1Pod, None) ∧
    info w' ns name = Some (set_time t (set_ip (ap_PodIP v1Pod) p)) ∧
    is_Some (ipPodMap w' !! ap_PodIP v1Pod).
Proof.
  intros Hw Hs Hi. unfold info in Hi. destruct (pod_at w ns name) as [l|] eqn:Hl; [|done].
  simpl in Hi. destruct (wf_pods w Hw ns name l Hl) as (q & Hq & <- & <-). simplify_eq.
  destruct (se_found _ _ _ Hs l p) as (n & v1Pod & t & Hr & Hst & Hip); [|done|].
  { apply visited_spec. by do 2 eexists. }
  exists n, v1Pod, t. split_and!; [done| |done]. unfold info, pod_at in *.
  rewrite (se_pods _ _ _ Hs). rewrite Hl. simpl. exact Hst.
Qed.
End InitFacts.

Lemma entry_of_name {Sel} (ps : list (PodInfo Sel)) ns name p :
  entry_of ps ns name = Some p → pi_Namespace p = ns ∧ pi_Name p = name.
Proof. unfold entry_of. intros Hp%last_Some_elem_of. by apply list_elem_of_filter in Hp as [? _]. Qed.

Lemma entry_no_selector {Sel} ds ns name (p : PodInfo Sel) :
  entry_of (chaos_pods ds) ns name = Some p → pi_Selector p = None.
Proof.
  unfold entry_of. intros Hp%last_Some_elem_of. apply list_elem_of_filter in Hp as [_ Hp].
  unfold chaos_pods in Hp. apply elem_of_concat_fmap in Hp as (args & _ & Hp).
  destruct args as [|action [|scope pods]]; [by apply not_elem_of_nil in Hp..|].
  apply list_elem_of_omap in Hp as (a & _ & Hp). unfold chaos_pod in Hp.
  destruct (split_first_dot a) as [[x y]|]; by simplify_eq/=.
Qed.

Lemma make_selector_run `{ClientLib} {Sel} (ls : option LabelSelector) (s : parsing Sel) :
  (∃ sel, inl <$> sel = LabelSelectorAsSelector <$> ls ∧ make_selector ls s = (Ret sel, s)) ∨
  (∃ l e m, ls = Some l ∧ LabelSelectorAsSelector l = inr e ∧
     make_selector ls s = (Throw (errMsg m), s)).
Proof.
  unfold make_selector. destruct ls as [l|]; [|left; by exists None].
  destruct (LabelSelectorAsSelector l) as [sel|e] eqn:Hl.
  - left. exists (Some sel). split; [|done]. simpl. by rewrite Hl.
  - right. exists l, e. eexists. by split_and!.
Qed.

(** Without a selector only the scope [all] decides. *)
Lemma needChaos_entry {Sel} `{SelectorLib Sel} ds ns name (p : PodInfo Sel) t ip qname :
  entry_of (chaos_pods ds) ns name = Some p →
  needChaos (Some (set_time t (set_ip ip p))) qname =
    if decide (pi_Scope p = ScopeAll) then Ret true else Panic.
Proof.
  intros Hsel%entry_no_selector. simpl. case_decide as Hscope; [by rewrite Hscope|]. rewrite Hsel.
  apply String.eqb_neq in Hscope. by rewrite Hscope.
Qed.

(** What a plugin that has started has indexed: pods of the configuration, with the address the cluster gave. *)
Lemma started_entry {Sel} `{SelectorLib Sel} env (range : ∀ A, gmap string A → list (string * A))
    (Hrange : ∀ A (m : gmap string A), range A m ≡ₚ map_to_list m) ds (w w' : world Sel) ip l :
  chaos_described ds w → searched env w (visited range w) w' → ipPodMap w' !! ip = Some l →
  ∃ (p : PodInfo Sel) n v1Pod t,
    entry_of (chaos_pods ds) (pi_Namespace p) (pi_Name p) = Some p ∧
    cluster_reply env n (pi_Namespace p) (pi_Name p) = (Some v1Pod, None) ∧
    store w' !! l = Some (set_time t (set_ip (ap_PodIP v1Pod) p)).
Proof.
  intros [Hw Hi Hips _] Hs Hl.
  destruct (se_ips _ _ _ _ Hs ip l Hl) as [Hv _].
  destruct (proj1 (visited_spec range Hrange w l) Hv) as (ns & name & Hat).
  destruct (wf_pods w Hw ns name l Hat) as (p & Hp & Hns & Hname).
  destruct (se_found _ _ _ _ Hs l p Hv Hp) as (n & v1Pod & t & Hr & Hst & _).
  exists p, n, v1Pod, t. split; [|by split]. rewrite Hns, Hname, <- Hi. unfold info. by rewrite Hat.
Qed.

(** The chaos of a plugin that has started. *)
Lemma started_chaos {Sel} `{SelectorLib Sel} env (range : ∀ A, gmap string A → list (string * A))
    (Hrange : ∀ A (m : gmap string A), range A m ≡ₚ map_to_list m) ds (w w' : world Sel) :
  chaos_described ds w → searched env w (visited range w) w' →
  wf w' ∧ exact_index w' ∧
  (∀ ns name p, entry_of (chaos_pods ds) ns name = Some p →
     ∃ n v1Pod t, cluster_reply env n ns name = (Some v1Pod, None) ∧
       info w' ns name = Some (set_time t (set_ip (ap_PodIP v1Pod) p)) ∧
       is_Some (ipPodMap w' !! ap_PodIP v1Pod)) ∧
  (∀ ip l qname, ipPodMap w' !! ip = Some l →
     ∃ p : PodInfo Sel, entry_of (chaos_pods ds) (pi_Namespace p) (pi_Name p) = Some p ∧
       needChaos (store w' !! l) qname = if decide (pi_Scope p = ScopeAll) then Ret true else Panic).
Proof.
  intros Hch Hs. pose proof Hch as [Hw Hi Hips _]. split; [by apply (se_wf _ _ _ _ Hs)|].
  split; [by apply (searched_exact env range Hrange w)|]. split.
  - intros ns name p Hp. rewrite <- Hi in Hp. by apply (searched_info env range Hrange w).
  - intros ip l qname Hl.
    destruct (started_entry env range Hrange ds w w' ip l Hch Hs Hl) as (p & n & v1Pod & t & He & _ & Hst).
    exists p. split; [done|]. rewrite Hst. by apply needChaos_entry with ds (pi_Namespace p) (pi_Name p).
Qed.

(** An address in four bytes. *)
Lemma To4_length ip : length ip = 16 → net.To4 ip ≠ [] → length (net.To4 ip) = 4.
Proof.
  intros Hlen. unfold net.To4. rewrite decide_False by (by rewrite Hlen).
  case_decide; [|done]. intros _. by rewrite length_drop, Hlen.
Qed.

Lemma To4_again ip : length ip = 16 → net.To4 ip ≠ [] → net.To4 (net.To4 ip) = net.To4 ip.
Proof.
  intros Hlen Hne. unfold net.To4 at 1. by rewrite decide_True by by apply To4_length.
Qed.

Lemma bound_ip_spec ips host :
  bound_ip ips host = ips ++ match local_form host with Some ip => [ip] | None => [] end.
Proof.
  unfold bound_ip, local_form. destruct (ParseCIDR_length host) as [->|Hlen]; [by rewrite app_nil_r|].
  set (ip := net.ParseCIDR host) in *.
  rewrite (decide_False (P:=ip = [])) by (intros ->; by simpl in Hlen).
  assert (H16 : net.To16 ip = ip) by (unfold net.To16; by rewrite decide_False, decide_True by (by rewrite Hlen)).
  rewrite H16, (bool_decide_eq_false_2 (ip = [])) by (intros Hnil; rewrite Hnil in Hlen; by simpl in Hlen).
  destruct (decide (net.To4 ip = [])) as [H4|H4].
  - rewrite H4. simpl. destruct (net.IsLoopback ip); simpl; by rewrite ?app_nil_r.
  - rewrite bool_decide_eq_false_2 by done. simpl.
    assert (Hloop : net.IsLoopback (net.To4 ip) = net.IsLoopback ip).
    { unfold net.IsLoopback. rewrite To4_again by done. by destruct (net.To4 ip). }
    rewrite Hloop. destruct (net.IsLoopback ip); simpl; by rewrite ?app_nil_r.
Qed.

Lemma bound_ips_spec hosts ips : foldl bound_ip ips hosts = ips ++ omap local_form hosts.
Proof.
  revert ips. induction hosts as [|h hosts IH]; intros ips; simpl; [by rewrite app_nil_r|].
  rewrite IH, bound_ip_spec, <- app_assoc. by destruct (local_form h).
Qed.

(** Parsing the Corefile, on every outcome. *)
Lemma kubernetesParse_run `{DnsLib} `{CaddyLaws} {Sel : Type} fuel (s : parsing Sel) sts :
  stanzas (at_ s) sts →
  1 ≤ fuel → (∀ args ds ss, sts = (args, ds) :: ss → documented ds ∧ length ds + 2 ≤ fuel) →
  let '(o, s') := kubernetesParse fuel s in
  match sts with
  | [] => o = Ret (Some false)
  | (args, ds) :: ss =>
      let zones := Host_Normalize <$>
                     (if negb (length args =? 0)%nat then args else ServerBlockKeys) in
      match o with
      | Ret r => r = Some true ∧ ss = [] ∧ accepted zones ds ∧ chaos_described ds (chaos s') ∧
                 ∃ i, forward_at zones i ∧ cf s' = describe zones i ds
      | Throw e => ¬ accepted zones ds ∨ (ss ≠ [] ∧ e = ErrOnce)
      | Panic => False
      end
  end.
Proof.
  intros Hs Hpos Hfuel. unfold kubernetesParse. destruct fuel as [|[|fuel]]; [lia| |].
  - destruct sts as [|[args ds] ss]; [|destruct (Hfuel args ds ss eq_refl); lia].
    cbn [parse_loop]. unfold call. go_simpl. pose proof (Next_end _ Hs) as Hn.
    destruct (Next (at_ s)) as [[] c']; [done|]. done.
  - destruct sts as [|[args ds] ss].
    { cbn [parse_loop]. unfold call. go_simpl. pose proof (Next_end _ Hs) as Hn.
      destruct (Next (at_ s)) as [[] c']; [done|]. done. }
    destruct (Hfuel args ds ss eq_refl) as [Hdoc Hlen]. destruct (Next_stanza _ _ _ _ Hs) as (c' & Hn & Ha).
    set (body := S (S fuel)) in *. unfold body at 1. cbn [parse_loop].
    assert (Hrun : call Next s = (Ret true, mkParsing c' (cf s) (chaos s)))
      by (unfold call; by rewrite Hn).
    rewrite (gom_bind_ret _ _ _ _ _ Hrun). cbn [Z.ltb Z.compare].
    destruct (ParseStanza_run body (mkParsing c' (cf s) (chaos s)) args ds ss Ha Hdoc ltac:(lia))
      as [(Hacc & s' & i & Hp & Hss & Hi & Hcf & Hch)|(Hacc & e & s' & Hp)].
    + rewrite (gom_bind_ret _ _ _ _ _ Hp). unfold call. go_simpl.
      destruct ss as [|[args' ds'] ss].
      * pose proof (Next_end _ Hss) as Hn'. destruct (Next (at_ s')) as [[] c2]; [done|].
        split_and!; [done..|]. by exists i.
      * destruct (Next_stanza _ _ _ _ Hss) as (c2 & -> & _). simpl. by right.
    + rewrite (gom_bind_throw _ _ _ _ _ Hp). by left.
Qed.

(** Starting the caches, on every outcome. *)
Lemma InitKubeCache_run `{ClientLib} {Sel Store : Type} `{CacheLib Store} `{SelectorLib Sel} env
    (range : ∀ A, gmap string A → list (string * A)) (s : parsing Sel) ds :
  (∀ A (m : gmap string A), range A m ≡ₚ map_to_list m) → chaos_described ds (chaos s) →
  let '(o, s') := InitKubeCache (Store:=Store) env range s in
  match o with
  | Ret (dns, opts) =>
      dns = newdnsController opts ∧ options_of (cf s) opts ∧ cf s' = cf s ∧
      searched env (chaos s) (visited range (chaos s)) (chaos s')
  | Throw e => start_error (Sel:=Sel) env ds (cf s) e
  | Panic => unanswered (Sel:=Sel) env ds
  end.
Proof.
  intros Hrange Hch. unfold InitKubeCache. go_step.
  destruct (getClientConfig (cf s)) as [config|e] eqn:Hc; [|by apply err_config].
  destruct (NewForConfig config) as [e|] eqn:Hn; [by eapply err_client|].
  destruct (make_selector_run (c_labelSelector (cf s)) s) as [(sel & Hsel & Hs)|(ls & e & m & Hls & Hs & Hr)].
  2:{ rewrite (gom_bind_throw _ _ _ _ _ Hr). eapply err_selector; [by left|done]. }
  rewrite (gom_bind_ret _ _ _ _ _ Hs).
  destruct (make_selector_run (c_namespaceLabelSelector (cf s)) s)
    as [(nsel & Hnsel & Hns)|(ls & e & m & Hls & Hns & Hr)].
  2:{ rewrite (gom_bind_throw _ _ _ _ _ Hr). eapply err_selector; [by right|done]. }
  rewrite (gom_bind_ret _ _ _ _ _ Hns).
  pose proof (init_chaos_pods_run env range Hrange (chaos s) (pa_wf _ _ Hch) (pa_ips _ _ Hch)) as Hrun.
  unfold on_world. unfold mbind, gom_bind, mret, gom_ret.
  destruct (init_chaos_pods env range (chaos s)) as [[[]|e|] w'].
  - split; [done|]. split; [|split; [done|]].
    + constructor; try done. simpl.
      case_bool_decide; [by apply String.eqb_eq|by apply String.eqb_neq].
    + done.
  - destruct Hrun as (n & ns & name & p & Hi & Hr). rewrite (pa_info _ _ Hch) in Hi.
    destruct (entry_of_name _ _ _ _ Hi) as [<- <-]. by eapply err_pod; [eexists|].
  - destruct Hrun as (n & ns & name & p & Hi & Hr). rewrite (pa_info _ _ Hch) in Hi.
    destruct (entry_of_name _ _ _ _ Hi) as [<- <-]. exists n, (pi_Namespace p), (pi_Name p).
    split; [by eexists|done].
Qed.

(** * Examples *)

#[local] Existing Instances SimpleCaddy.lib SimpleCaddy.laws SimpleCaddy.client SimpleDns.lib
  SimpleCache.lib SimpleSelector.lib.

Definition ex_directives : list Directive :=
  [("pods", ["verified"]); ("namespaces", ["default"; "busybox"]); ("ttl", ["30"]);
   ("chaos", ["error"; "all"; "busybox.busybox-0"]); ("transfer", ["to"; "*"])].
Lemma ex_documented : documented ex_directives.
Proof. intros args ->%list_elem_of_singleton. exists "to", "*", []. split; [by left|done]. Qed.

Definition ex_parsing : parsing (list string) :=
  mkParsing (SimpleCaddy.mk [(["1.10.in-addr.arpa."; "cluster.local."], ex_directives)] [] [] "")
    (New []) new_world.

Definition ex_pod : PodInfo (list string) :=
  mkPodInfo "busybox" "busybox-0" "error" "all" None "" 0%Z.
Definition ex_parsed : parsing (list string) :=
  mkParsing (SimpleCaddy.mk [] [] [] "") (New ["cluster.local."]) (configured_pod ex_pod new_world).

Lemma ex_parsed_described : chaos_described ex_directives (chaos ex_parsed).
Proof. apply (pods_are_snoc [] ex_pod). constructor; [apply wf_new|done..]. Qed.

(** * Properties *)



(** C30: starting the caches. [InitKubeCache] fails for the reasons of [start_error] and panics only
    when the API server answers for a pod of the configuration with neither a pod nor an error;
    otherwise the controller is a new one with the options of the configuration
    (the pod cache exactly for verified pods), every pod of the directives [chaos] has the address
    the cluster gave for it and is found by it, the index by address is exact, and the configured
    scope decides what a query from such an address does: with the scope [all] it needs chaos; with
    any other scope [needChaos] panics, because the entry has no selector. *)
Theorem InitKubeCache_spec `{ClientLib} {Sel Store : Type} `{CacheLib Store} `{SelectorLib Sel} env
    (range : ∀ A, gmap string A → list (string * A)) (s : parsing Sel) ds :
  (∀ A (m : gmap string A), range A m ≡ₚ map_to_list m) → chaos_described ds (chaos s) →
  let '(o, s') := InitKubeCache (Store:=Store) env range s in
  match o with
  | Ret (dns, opts) =>
      dns = newdnsController opts ∧ options_of (cf s) opts ∧ cf s' = cf s ∧
      wf (chaos s') ∧ exact_index (chaos s') ∧
      (∀ ns name p, entry_of (chaos_pods ds) ns name = Some p →
         ∃ n v1Pod t, cluster_reply env n ns name = (Some v1Pod, None) ∧
           info (chaos s') ns name = Some (set_time t (set_ip (ap_PodIP v1Pod) p)) ∧
           is_Some (ipPodMap (chaos s') !! ap_PodIP v1Pod)) ∧
      (∀ ip l qname, ipPodMap (chaos s') !! ip = Some l →
         ∃ p : PodInfo Sel, entry_of (chaos_pods ds) (pi_Namespace p) (pi_Name p) = Some p ∧
           needChaos (store (chaos s') !! l) qname =
             if decide (pi_Scope p = ScopeAll) then Ret true else Panic)
  | Throw e => start_error (Sel:=Sel) env ds (cf s) e
  | Panic => unanswered (Sel:=Sel) env ds
  end.
Proof.
  intros Hrange Hch. pose proof (InitKubeCache_run (Store:=Store) env range s ds Hrange Hch) as Hrun.
  destruct (InitKubeCache env range s) as [[[dns opts]|e|] s']; [|done..].
  destruct Hrun as (-> & Ho & Hc & Hs). do 3 (split; [done|]).
  by apply (started_chaos env range Hrange ds (chaos s)).
Qed.

Lemma InitKubeCache_spec_witness :
  let s' := (InitKubeCache (Store:=SimpleCache.t) (ex_env "10.0.0.1" "10.0.0.1" 0) ex_range ex_parsed).2 in
  exact_index (chaos s') ∧ ∃ ip, is_Some (ipPodMap (chaos s') !! ip).
Proof.
  pose proof (InitKubeCache_spec (Store:=SimpleCache.t) (ex_env "10.0.0.1" "10.0.0.1" 0) ex_range
    ex_parsed ex_directives ex_range_map ex_parsed_described) as Hi.
  destruct (InitKubeCache _ _ ex_parsed) as [o s'] eqn:He. simpl.
  assert (Ho : is_ret o = true) by (change o with (o, s').1; rewrite <- He; vm_compute; done).
  destruct o as [[dns opts]|e|]; [|done|done].
  destruct Hi as (_ & _ & _ & _ & Hex & Hinfo & _). split; [exact Hex|].
  destruct (Hinfo "busybox" "busybox-0" ex_pod) as (n & v1Pod & t & _ & _ & Hip); [reflexivity|].
  by exists (ap_PodIP v1Pod).
Defined.

(** The local addresses. They are the addresses, not loopback, of the hosts of the server block or,
    when it has none or the first is empty, of the machine's interfaces; each is four or sixteen
    bytes. Only hosts with a prefix length count: hosts that are plain addresses, which is how the
    directive [bind] gives them, contribute nothing. An empty list of hosts that is not nil is a
    panic. *)
Theorem boundIPs_spec ListenHosts InterfaceAddrs :
  let hosts := match ListenHosts with
               | Some (h :: hs) => if (h =? "")%string then InterfaceAddrs else inl (h :: hs)
               | _ => InterfaceAddrs
               end in
  (boundIPs ListenHosts InterfaceAddrs =
     if decide (ListenHosts = Some []) then Panic
     else Ret match hosts with inl l => omap local_form l | inr _ => [] end) ∧
  (∀ host ip, local_form host = Some ip →
     net.IsLoopback ip = false ∧ (length ip = 4 ∨ length ip = 16) ∧
     "/"%char ∈ String.list_ascii_of_string host).
Proof.
  split.
  - unfold boundIPs. destruct ListenHosts as [[|h hs]|]; simpl; [done| |].
    + destruct (h =? "")%string; simpl.
      * destruct InterfaceAddrs; [|done]. by rewrite bound_ips_spec.
      * f_equal. exact (bound_ips_spec (h :: hs) []).
    + destruct InterfaceAddrs; [|done]. by rewrite bound_ips_spec.
  - intros host ip. unfold local_form. case_decide as Hne; [done|].
    destruct (ParseCIDR_length host) as [|Hlen]; [done|].
    destruct (net.IsLoopback _) eqn:Hloop; [done|]. intros [= <-]. split_and!.
    + case_decide; [done|]. unfold net.IsLoopback in *. rewrite To4_again by done.
      by destruct (net.To4 _).
    + case_decide as H4; [by right|left]. by apply To4_length.
    + destruct (decide ("/"%char ∈ String.list_ascii_of_string host)); [done|].
      by rewrite ParseCIDR_plain in Hne.
Qed.

Lemma boundIPs_spec_witness :
  net.IsLoopback [10; 0; 0; 7]%Z = false ∧
  boundIPs None (inl ["127.0.0.1/8"; "10.0.0.7/24"; "fe80::1/64"; "::1/128"])
    = Ret [[10; 0; 0; 7]; [254; 128; 0; 0; 0; 0; 0; 0; 0; 0; 0; 0; 0; 0; 0; 1]]%Z ∧
  boundIPs (Some ["10.0.0.7"]) (inl []) = Ret [].
Proof.
  split; [|split].
  - apply (proj2 (boundIPs_spec None (inl [])) "10.0.0.7/24" [10; 0; 0; 7]%Z). vm_compute. reflexivity.
  - vm_compute. reflexivity.
  - vm_compute. reflexivity.
Defined.
