(* ===== verification/Metrics.v ===== *)
(** The programming latency (metrics.go): how long it took a change of a headless service's endpoints
    to reach the plugin.

    An observation of the histogram is its label and its duration in seconds, a float. The processor of the endpoints
    (Informer.v) calls [dns_recordDNSProgrammingLatency] with the API object of each delta, after
    the conversion (Object.v), which clears that object unless it is told not to.
    [durationSinceFunc] is [time.Since]; the clock is read once for each observation, and its readings
    are a parameter. *)
From stdpp Require Import prelude strings gmap list.
From Stdlib Require Import SpecFloat.
From S2P Require Import Prelude GoStd GoTime Object Cache Informer Controller Kubernetes.

Definition EndpointsLastChangeTriggerTime : string := "endpoints.kubernetes.io/last-change-trigger-time".

Definition observation : Type := string * spec_float.

(** The time of the annotation, the zero time without one or when it does not parse. *)
Definition lastChangeTriggerTime (endpoints : api_Endpoints) : Time :=
  match om_Annotations (ae_Meta endpoints) !! EndpointsLastChangeTriggerTime with
  | None => 0%Z
  | Some stringVal => default 0%Z (time.Parse_RFC3339Nano stringVal)
  end.

(** [recordDNSProgrammingLatency]: the observations made, the clock showing [now]. The annotations are read before the
    endpoints are compared with nil. *)
Definition recordDNSProgrammingLatency (now : Time) (svcs : list Service)
    (endpoints : option api_Endpoints) : outcome (list observation) :=
  match endpoints with
  | None => Panic
  | Some e =>
      let t := lastChangeTriggerTime e in
      let isHeadless := match svcs with
                        | [s] => (svc_ClusterIP s =? ClusterIPNone)%string
                        | _ => false
                        end in
      if negb isHeadless || IsZero t then Ret []
      else Ret [("headless_with_selector", time.Seconds (time.Sub now t))]
  end.

Section Record.
Context {Store C : Type} `{CacheLib Store}.
Variable time_Now : nat → Time.
Variable dns : dnsControl Store.

(** The method of the controller: the services are looked up by the key of the endpoints. *)
Definition dns_recordDNSProgrammingLatency (now : Time) (obj : any) (heap : ApiHeap) :
    outcome (list observation) :=
  match obj with
  | VApi l =>
      match heap !! l with
      | Some (ApiEndpoints e) =>
          svcs ← getServices dns e; recordDNSProgrammingLatency now svcs (Some e)
      | _ => Panic
      end
  | _ => Panic
  end.

(** The same for the processor, whose state has the observations made beside the handler's. *)
Definition recorder : Recorder (Store:=Store) (H:=C * list observation) := λ obj heap _ s,
  match dns_recordDNSProgrammingLatency (time_Now (length s.2)) obj heap with
  | Ret obs => (Ret tt, (s.1, s.2 ++ obs))
  | Throw e => (Throw e, s)
  | Panic => (Panic, s)
  end.

(** A handler that leaves the observations alone. *)
Definition beside (m : GoM C unit) : GoM (C * list observation) unit := λ s,
  let '(o, c) := m s.1 in (o, (c, s.2)).
Definition handler_beside (h : ResourceEventHandler C) : ResourceEventHandler (C * list observation) :=
  mkHandler (λ o, beside (OnAdd h o)) (λ o n, beside (OnUpdate h o n)) (λ o, beside (OnDelete h o)).

(** The processor of the endpoints that [newdnsController] makes. *)
Definition endpointsProcessor (skipAPIObjectsCleanup : bool) (h : ResourceEventHandler C)
    (deltas : list Delta) : GoM (pstate Store (C * list observation)) unit :=
  DefaultProcessor (ToEndpoints skipAPIObjectsCleanup) (Some recorder) (handler_beside h) deltas.
End Record.

(** * Facts *)

Section Facts.
Context {Store C : Type} `{CacheLib Store}.
Variable time_Now : nat → Time.
Variable dns : dnsControl Store.
Variable h : ResourceEventHandler C.
Abbreviation P := (pstate Store (C * list observation)).
Implicit Types (s : P) (obs : list observation).

(** The observations and the API objects. *)
Definition kept_by obs (heap : ApiHeap) s : Prop := (ps_h s).2 = obs ∧ ps_heap s = heap.

Lemma on_handler_kept obs heap (m : GoM C unit) :
  preserves (kept_by obs heap) (on_handler (Store:=Store) (beside m)).
Proof. intros s Hs. unfold on_handler, beside. by destruct (m (ps_h s).1) as [o c]. Qed.

Lemma on_store_kept obs heap f : preserves (kept_by obs heap) (on_store f).
Proof. intros s Hs. unfold on_store. by destruct (f (ps_store s)) as [st [e|]]. Qed.

Lemma upsert_kept obs heap obj : preserves (kept_by obs heap) (cache_upsert (handler_beside h) obj).
Proof.
  intros s Hs. unfold cache_upsert. go_step. destruct (cache_Get (ps_store s) obj) as [[old|] [e|]].
  all: revert s Hs; apply preserves_bind; [apply on_store_kept|]; intros; apply on_handler_kept.
Qed.

Lemma remove_kept obs heap obj : preserves (kept_by obs heap) (cache_remove (handler_beside h) obj).
Proof. apply preserves_bind; [apply on_store_kept|]. intros. apply on_handler_kept. Qed.

Lemma getServices_ret e : ∃ svcs, getServices dns e = Ret svcs.
Proof.
  unfold getServices, ctl_SvcIndex, by_index, on_lister. go_simpl.
  destruct (cache_ByIndex _ _ _) as [os err]. by eexists.
Qed.

(** A cleared object has no annotation. *)
Lemma record_cleared now svcs :
  recordDNSProgrammingLatency now svcs (Some zero_Endpoints) = Ret [].
Proof. simpl. by rewrite orb_true_r. Qed.

Lemma latency_cleared obs heap l :
  heap !! l = Some (ApiEndpoints zero_Endpoints) →
  preserves (kept_by obs heap)
    (latency (Some (recorder time_Now dns)) (VApi l)).
Proof.
  intros Hl s [Hobs Hheap]. unfold latency, run_recorder, on_handler, recorder.
  unfold dns_recordDNSProgrammingLatency. rewrite Hheap, Hl.
  destruct (getServices dns zero_Endpoints) as [svcs|e|]; go_simpl; [|by split..].
  rewrite record_cleared. split; [|done]. simpl. by rewrite app_nil_r.
Qed.

(** The conversion succeeds only on endpoints, which it clears. *)
Lemma convert_cleared obj heap r :
  (ToEndpoints false obj heap).1 = Ret r →
  r.2 ≠ None ∨ ∃ l, obj = VApi l ∧
    (ToEndpoints false obj heap).2 !! l = Some (ApiEndpoints zero_Endpoints).
Proof.
  unfold ToEndpoints. destruct obj; try (intros [= <-]; by left).
  destruct (heap !! _) as [[]|]; try (intros [= <-]; by left).
  rewrite toEndpoints_ok. intros _. right. eexists. split; [done|]. apply lookup_insert_eq.
Qed.

Lemma convert_errors obj heap r e :
  (ToEndpoints false obj heap).1 = Ret (r, Some e) → e ≠ errPodTerminating.
Proof.
  unfold ToEndpoints. destruct obj; try (by intros [= _ <-]).
  destruct (heap !! _) as [[]|]; try (by intros [= _ <-]). by rewrite toEndpoints_ok.
Qed.

(** One delta, and all of them. *)
Lemma delta_observes_nothing obs d :
  preserves (λ s, (ps_h s).2 = obs)
    (process_delta (ToEndpoints false) (Some (recorder time_Now dns))
       (handler_beside h) d).
Proof.
  destruct d as [t obj]. intros s Hobs. unfold process_delta. simpl.
  assert (Hconv : ∀ (f : any * option go_error → GoM P unit),
    (∀ o l heap, obj = VApi l → heap !! l = Some (ApiEndpoints zero_Endpoints) →
       preserves (kept_by obs heap) (f (o, None))) →
    (∀ o e, e ≠ errPodTerminating → preserves (λ s, (ps_h s).2 = obs) (f (o, Some e))) →
    (ps_h ((on_heap (ToEndpoints false obj) ≫= f) s).2).2 = obs).
  { intros f Hok Herr. unfold mbind, gom_bind, on_heap.
    pose proof (convert_cleared obj (ps_heap s)) as Hc. pose proof (convert_errors obj (ps_heap s)) as He.
    destruct (ToEndpoints false obj (ps_heap s)) as [[[o err]|e|] heap]; simpl in *; [|done..].
    destruct err as [e|].
    - apply Herr; [by eapply He|done].
    - destruct (Hc _ eq_refl) as [|(l & Ho & Hl)]; [done|]. by eapply Hok. }
  assert (Hup : (ps_h ((on_heap (ToEndpoints false obj) ≫= λ '(o, err),
      match err with
      | Some e => throw e
      | None => cache_upsert (handler_beside h) o ≫= λ _,
                  latency (Some (recorder time_Now dns)) obj
      end) s).2).2 = obs).
  { apply Hconv.
    - intros o l heap -> Hl. apply preserves_bind; [apply upsert_kept|]. intros _.
      by apply latency_cleared.
    - intros o e _. apply preserves_throw. }
  destruct t; try exact Hup; [|done].
  destruct (match obj with VTombstone _ => true | _ => false end).
  - apply (preserves_bind (kept_by obs (ps_heap s))); [apply preserves_ret| |by split].
    intros o. apply preserves_bind; [apply remove_kept|]. intros _. apply preserves_ret.
  - rewrite gom_bind_assoc. apply Hconv.
    + intros o l heap -> Hl. apply preserves_bind; [apply preserves_ret|]. intros o'.
      apply preserves_bind; [apply remove_kept|]. intros _. by apply latency_cleared.
    + intros o e He s' Hs'. by rewrite decide_False.
Qed.

(** ** Without the cleanup *)

Lemma beside_total (m : GoM C unit) : total_call m → total_call (beside m).
Proof. intros Hm s. unfold beside. specialize (Hm s.1). by destruct (m s.1) as [o c]. Qed.

Lemma upsert_returns `{!CacheLaws Store} obj k s :
  total_handler h → documented_key obj = Some k →
  ∃ s', cache_upsert (handler_beside h) obj s = (Ret tt, s') ∧ kept_by (ps_h s).2 (ps_heap s) s'.
Proof.
  intros (Ha & Hu & Hd) Hk.
  pose proof (upsert_kept (ps_h s).2 (ps_heap s) obj s (conj eq_refl eq_refl)) as Hkept.
  assert (Ht : typed_handler (λ _ _, True) (handler_beside h)).
  { split_and!; intros; by apply beside_total. }
  destruct (upsert_step (λ _ _, True) (handler_beside h) Ht nothing _ (reacts_nothing _ _) obj k s Hk I)
    as (s' & Hs & _); [by intros ???|].
  exists s'. split; [done|]. by rewrite Hs in Hkept.
Qed.

(** An endpoints object that is not cleared: it is converted and put in the cache, and then read. *)
Lemma uncleared_delta `{!CacheLaws Store} t l e s :
  is_upsert t = true → total_handler h → ps_heap s !! l = Some (ApiEndpoints e) →
  ∃ svcs, getServices dns e = Ret svcs ∧
    let r := endpointsProcessor time_Now dns true h [mkDelta t (VApi l)] s in
    r.1 = Ret tt ∧ ∃ obs, (ps_h r.2).2 = (ps_h s).2 ++ obs ∧
      recordDNSProgrammingLatency (time_Now (length (ps_h s).2)) svcs (Some e) = Ret obs.
Proof.
  intros Ht Hh Hl. destruct (getServices_ret e) as [svcs Hsvcs]. exists svcs. split; [done|].
  assert (Hconv : on_heap (ToEndpoints true (VApi l)) s = (Ret (VEndpoints (endpoints_of e), None), s)).
  { unfold on_heap, ToEndpoints. rewrite Hl, toEndpoints_ok, insert_id by done. by destruct s. }
  destruct (upsert_returns (VEndpoints (endpoints_of e)) _ s Hh eq_refl) as (s1 & Hs1 & Hobs & Hheap).
  assert (Hrun : ∃ obs, recordDNSProgrammingLatency (time_Now (length (ps_h s).2)) svcs (Some e) = Ret obs ∧
    latency (Some (recorder time_Now dns)) (VApi l) s1 =
      (Ret tt, mkPstate (ps_heap s1) (ps_store s1) ((ps_h s1).1, (ps_h s1).2 ++ obs))).
  { unfold latency, run_recorder, on_handler, recorder, dns_recordDNSProgrammingLatency.
    rewrite Hheap, Hl, Hsvcs, Hobs. go_simpl. unfold recordDNSProgrammingLatency.
    destruct (_ || IsZero _); by eexists. }
  destruct Hrun as (obs & Hrec & Hlat). unfold endpointsProcessor, DefaultProcessor.
  assert (Hd : process_delta (ToEndpoints true) (Some (recorder time_Now dns)) (handler_beside h)
    (mkDelta t (VApi l)) s = (Ret tt, mkPstate (ps_heap s1) (ps_store s1) ((ps_h s1).1, (ps_h s1).2 ++ obs))).
  { destruct t; try done; unfold process_delta; simpl; rewrite (gom_bind_ret _ _ _ _ _ Hconv);
      by rewrite (gom_bind_ret _ _ _ _ _ Hs1). }
  cbn [go_for]. rewrite (gom_bind_ret _ _ _ _ _ Hd). split; [done|]. exists obs. simpl. by rewrite Hobs.
Qed.
End Facts.

(** * Concrete endpoints *)

(** A headless service, and endpoints with the annotation. *)
Definition ex_service : Service :=
  mkService "1" "hdls" "testns" (ServiceKey "hdls" "testns") "None" "ClusterIP" "" [] [].
Definition ex_endpoints : api_Endpoints :=
  mkApiEndpoints (mkMeta "hdls" "testns" "1" None
    {[EndpointsLastChangeTriggerTime := "2024-02-29T12:30:15.5Z"]}) [].
Definition ex_heap : ApiHeap := {[1%positive := ApiEndpoints ex_endpoints]}.
Definition half_second : spec_float := S754_finite false (2 ^ 52) (-53).
Definition ex_handler : ResourceEventHandler unit :=
  mkHandler (λ _, mret tt) (λ _ _, mret tt) (λ _, mret tt).

(** * Properties *)

(** C39: with the default cleanup of API objects nothing is ever observed. The processor of the
    endpoints converts the object of a delta, which clears it in place, before it records the
    latency, which reads the annotation of the same object; so whatever the deltas, the cache, the
    services and the handler, the observations do not change. *)
Theorem cleanup_observes_nothing {Store C : Type} `{CacheLib Store}
    (time_Now : nat → Time) (dns : dnsControl Store)
    (h : ResourceEventHandler C) (deltas : list Delta) (s : pstate Store (C * list observation)) :
  (ps_h (endpointsProcessor time_Now dns false h deltas s).2).2 = (ps_h s).2.
Proof.
  apply (preserves_for (λ s', (ps_h s').2 = (ps_h s).2)); [|done].
  intros d _. apply delta_observes_nothing.
Qed.



(** * Behaviours worth knowing *)

(** The observation that is lost: a headless service, and endpoints with the annotation. Told not to
    clean up, as the repository's test is, the plugin makes it; as it is configured, it does not. *)
Example cleanup_loses_observation :
  let dns := mkDnsControl 0 (cache_Add (NewIndexer (CacheLib:=SimpleCache.lib) svcIndexers)
    (VService ex_service)).1 None None (NewIndexer []) false None None false false false in
  let run skip := (ps_h (endpointsProcessor (λ _, time.Date 2024 2 29 12 30 16 0) dns skip ex_handler
    [mkDelta Added (VApi 1)] (mkPstate ex_heap (NewIndexer epIndexers) (tt, []))).2).2 in
  run true = [("headless_with_selector", half_second)] ∧ run false = [].
Proof. vm_compute. by split. Qed.
