(* ===== verification/Cluster.v ===== *)
(** The watched cluster: the caches of the controller, the processors that write them (Informer.v,
    Metrics.v) and the queries that read them (Controller.v), composed as [newdnsController] composes
    them.

    The state is what the informers share: the heap of API objects, the controller with its caches,
    how often the clock was read, and the observations of the histogram. The informer of each kind
    runs its processor on its own cache; the informers interleave in any order, one batch of deltas
    at a time. client-go's own informer keeps the cache of namespaces: it is a parameter.

    The specification is a map of API objects by kind and key: what the API server said last. *)
From stdpp Require Import prelude strings gmap list relations.
From S2P Require Import Prelude GoStd Object Cache Informer Controller Deps Kubernetes Parse Records Metrics.

#[export] Instance kind_eq_dec : EqDecision kind.
Proof. solve_decision. Defined.

(** * client-go's informer *)

(** The objects of a cache of [cache.NewInformer] are the API objects themselves. *)
Definition keep_namespace : ToFunc := λ obj h,
  match obj with
  | VApi l =>
      match h !! l with
      | Some (ApiNamespace n) => (Ret (VNamespace n, None), h)
      | _ => (Ret (VNil, Some (errMsg "unexpected object")), h)
      end
  | _ => (Ret (VNil, Some (errMsg "unexpected object")), h)
  end.

Definition namespace_ok (k : string) (v : any) : Prop :=
  ∃ n, v = VNamespace n ∧ documented_key v = Some k.

(** The process function of [cache.NewInformer], with handlers that do nothing. *)
Class InformerLib (Store : Type) := NewInformer_process : ApiHeap → list Delta → Store → Store.

(** It mirrors the deltas in its store, and the store holds objects of the informer's type. *)
Class InformerLaws (Store : Type) `{CacheLaws Store, InformerLib Store} := {
  informer_changes heap ds cs st : mapM (delta_change keep_namespace heap) ds = Some cs →
    contents (NewInformer_process heap ds st) = foldl apply_change (contents st) cs;
  informer_typed heap ds st : map_Forall namespace_ok (contents st) →
    map_Forall namespace_ok (contents (NewInformer_process heap ds st));
}.

(** * The system *)

Section System.
Context {Store : Type} `{CacheLaws Store, InformerLib Store}.
(** The readings of the clock: for the observations, and in seconds for the serial. *)
Variable time_Now : nat → Time.
Variable now : nat → Z.
Variable options : dnsControlOpts.

Record system := mkSystem {
  sy_heap : ApiHeap;
  sy_dns : dnsControl Store;
  sy_reads : nat;
  sy_seen : list observation;
}.

Abbreviation processor := (GoM (pstate Store (ctl_clock * list observation)) unit).

(** Changes of one field of the controller. *)
Definition set_modified (t : Z) (dns : dnsControl Store) : dnsControl Store :=
  mkDnsControl t (svcLister dns) (podLister dns) (epLister dns) (nsLister dns) (svcSynced dns)
    (podSynced dns) (epSynced dns) (nsSynced dns) (shutdown dns) (stopCh_closed dns).
Definition set_svcLister (st : Store) (dns : dnsControl Store) : dnsControl Store :=
  mkDnsControl (modified dns) st (podLister dns) (epLister dns) (nsLister dns) (svcSynced dns)
    (podSynced dns) (epSynced dns) (nsSynced dns) (shutdown dns) (stopCh_closed dns).
Definition set_podLister (st : Store) (dns : dnsControl Store) : dnsControl Store :=
  mkDnsControl (modified dns) (svcLister dns) (Some st) (epLister dns) (nsLister dns) (svcSynced dns)
    (podSynced dns) (epSynced dns) (nsSynced dns) (shutdown dns) (stopCh_closed dns).
Definition set_epLister (st : Store) (dns : dnsControl Store) : dnsControl Store :=
  mkDnsControl (modified dns) (svcLister dns) (podLister dns) (Some st) (nsLister dns) (svcSynced dns)
    (podSynced dns) (epSynced dns) (nsSynced dns) (shutdown dns) (stopCh_closed dns).
Definition set_nsLister (st : Store) (dns : dnsControl Store) : dnsControl Store :=
  mkDnsControl (modified dns) (svcLister dns) (podLister dns) (epLister dns) st (svcSynced dns)
    (podSynced dns) (epSynced dns) (nsSynced dns) (shutdown dns) (stopCh_closed dns).

(** Run a processor on a cache; its handler changes [modified]. *)
Definition on_cache (st : Store) (put : Store → dnsControl Store → dnsControl Store)
    (proc : processor) : GoM system unit := λ s,
  let '(o, p) := proc (mkPstate (sy_heap s) st
                         (mkClock (modified (sy_dns s)) (sy_reads s), sy_seen s)) in
  (o, mkSystem (ps_heap p) (set_modified (c_modified (ps_h p).1) (put (ps_store p) (sy_dns s)))
        (c_reads (ps_h p).1) (ps_h p).2).

(** A batch of deltas reaches the informer of a kind, as [newdnsController] set it up. There is no
    informer of a kind whose cache is not wanted. *)
Definition deliver (k : kind) (ds : list Delta) : GoM system unit := λ s,
  let dns := sy_dns s in
  let skip := skipAPIObjectsCleanup options in
  let h := handler_beside (controller_handler now (sy_heap s)) in
  match k with
  | KService =>
      let '(_, process) := NewIndexerInformer h svcIndexers (DefaultProcessor (ToService skip) None) in
      on_cache (svcLister dns) set_svcLister (process ds) s
  | KPod =>
      match podLister dns with
      | Some st =>
          let '(_, process) := NewIndexerInformer h podIndexers (DefaultProcessor (ToPod skip) None) in
          on_cache st set_podLister (process ds) s
      | None => (Ret tt, s)
      end
  | KEndpoints =>
      match epLister dns with
      | Some st =>
          let '(_, process) :=
            NewIndexerInformer h epIndexers
              (DefaultProcessor (ToEndpoints skip) (Some (recorder time_Now dns))) in
          on_cache st set_epLister (process ds) s
      | None => (Ret tt, s)
      end
  | KNamespace =>
      (Ret tt, mkSystem (sy_heap s)
                 (set_nsLister (NewInformer_process (sy_heap s) ds (nsLister dns)) dns)
                 (sy_reads s) (sy_seen s))
  end.

(** The informer of a kind has delivered its first list. *)
Definition listed (k : kind) (dns : dnsControl Store) : dnsControl Store :=
  let set (k' : kind) (b : bool) := if decide (k = k') then true else b in
  mkDnsControl (modified dns) (svcLister dns) (podLister dns) (epLister dns) (nsLister dns)
    (set KService (svcSynced dns)) (set KPod <$> podSynced dns) (set KEndpoints <$> epSynced dns)
    (set KNamespace (nsSynced dns)) (shutdown dns) (stopCh_closed dns).

Definition set_heap (h : ApiHeap) (s : system) : system :=
  mkSystem h (sy_dns s) (sy_reads s) (sy_seen s).
Definition on_dns (f : dnsControl Store → dnsControl Store) (s : system) : system :=
  mkSystem (sy_heap s) (f (sy_dns s)) (sy_reads s) (sy_seen s).

Definition system_start : system := mkSystem ∅ (newdnsController options) 0 [].

(** What can happen: client-go decodes and drops API objects, delivers any deltas, and has listed a
    kind; the plugin stops. *)
Inductive system_step : system → system → Prop :=
| step_heap s h : system_step s (set_heap h s)
| step_deliver s k ds : system_step s (deliver k ds s).2
| step_listed s k : system_step s (on_dns (listed k) s)
| step_stop s : system_step s (on_dns (λ dns, (Stop dns).2) s).

(** * The cluster *)

(** What an API server tells of an object: it is there, it is gone (with its last state, or, when
    that was missed, its key). *)
Inductive notice : Type :=
| Put (t : DeltaType) (o : api_object)
| Gone (o : api_object)
| GoneKey (k : kind) (key : string).

Definition api_kind (o : api_object) : kind :=
  match o with
  | ApiPod _ => KPod | ApiService _ => KService
  | ApiEndpoints _ => KEndpoints | ApiNamespace _ => KNamespace
  end.
Definition api_meta (o : api_object) : ObjectMeta :=
  match o with
  | ApiPod p => ap_Meta p | ApiService s => as_Meta s
  | ApiEndpoints e => ae_Meta e | ApiNamespace n => an_Meta n
  end.
Definition api_key (o : api_object) : string :=
  MetaNamespaceKey (om_Namespace (api_meta o)) (om_Name (api_meta o)).

(** What the caches keep of an object. *)
Definition strip (o : api_object) : any :=
  match o with
  | ApiPod p => VPod (pod_of p)
  | ApiService s => VService (service_of s)
  | ApiEndpoints e => VEndpoints (endpoints_of e)
  | ApiNamespace n => VNamespace n
  end.

Definition notice_kind (n : notice) : kind :=
  match n with Put _ o | Gone o => api_kind o | GoneKey k _ => k end.

(** A notice the processor turns into a change: it is not one of a terminating pod when those are
    reported. *)
Definition deliverable (n : notice) : Prop :=
  match n with
  | Put t o =>
      is_upsert t = true ∧
      match o with ApiPod p => skipAPIObjectsCleanup options && terminating p = false | _ => True end
  | _ => True
  end.

(** The objects by kind and key, and what a notice does to them. *)
Definition cluster : Type := kind → gmap string api_object.
Definition no_cluster : cluster := λ _, ∅.

Definition notice_map (m : gmap string api_object) (n : notice) : gmap string api_object :=
  match n with
  | Put _ o => <[api_key o := o]> m
  | Gone o => delete (api_key o) m
  | GoneKey _ key => delete key m
  end.
Definition apply_notice (c : cluster) (n : notice) : cluster := λ k,
  if decide (k = notice_kind n) then notice_map (c k) n else c k.

(** client-go decodes the object of every notice afresh and queues a delta for it. *)
Fixpoint enqueue (ns : list notice) (h : ApiHeap) : list Delta * ApiHeap :=
  match ns with
  | [] => ([], h)
  | n :: ns =>
      let l := fresh (dom h) in
      let '(d, h) :=
        match n with
        | Put t o => (mkDelta t (VApi l), <[l := o]> h)
        | Gone o => (mkDelta Deleted (VApi l), <[l := o]> h)
        | GoneKey _ key => (mkDelta Deleted (VTombstone key), h)
        end in
      let '(ds, h) := enqueue ns h in (d :: ds, h)
  end.

(** What happens to the plugin: notices of objects of one kind, or the end of a first list. *)
Inductive event : Type := Notices (k : kind) (ns : list notice) | Listed (k : kind).

Definition handle_event (e : event) : GoM system unit := λ s,
  match e with
  | Notices k ns => let '(ds, h) := enqueue ns (sy_heap s) in deliver k ds (set_heap h s)
  | Listed k => (Ret tt, on_dns (listed k) s)
  end.
Definition run_history : list event → GoM system unit := go_for handle_event.

Definition event_notices (e : event) : list notice :=
  match e with Notices _ ns => ns | Listed _ => [] end.
Definition well_formed (e : event) : Prop :=
  match e with
  | Notices k ns => ∀ n, n ∈ ns → notice_kind n = k ∧ deliverable n
  | Listed _ => True
  end.

(** The cluster after a history. *)
Definition cluster_after (es : list event) : cluster :=
  foldl apply_notice no_cluster (es ≫= event_notices).

(** The time of the last change, and how often the clock was read; what a notice does to them. *)
Definition clock_of (s : system) : ctl_clock := mkClock (modified (sy_dns s)) (sy_reads s).
Definition bump (c : ctl_clock) : ctl_clock := mkClock (now (c_reads c)) (S (c_reads c)).

(** An update counts when the resource version differs, and for endpoints what [endpointsEquivalent]
    compares too. *)
Definition changed (oldObj newObj : any) : bool :=
  match oldObj, newObj with
  | VService o, VService n => negb (svc_Version o =? svc_Version n)%string
  | VPod o, VPod n => negb (pod_Version o =? pod_Version n)%string
  | VEndpoints o, VEndpoints n =>
      negb (eps_Version o =? eps_Version n)%string && bool_decide (endpoints_view o ≠ endpoints_view n)
  | _, _ => false
  end.
Definition notice_counts (m : gmap string api_object) (n : notice) : bool :=
  match n with
  | Put _ o => match m !! api_key o with Some old => changed (strip old) (strip o) | None => true end
  | _ => true
  end.
Fixpoint batch_clock (m : gmap string api_object) (ns : list notice) (c : ctl_clock) : ctl_clock :=
  match ns with
  | [] => c
  | n :: ns => batch_clock (notice_map m n) ns (if notice_counts m n then bump c else c)
  end.

(** How many of them count. *)
Fixpoint counted (m : gmap string api_object) (ns : list notice) : nat :=
  match ns with
  | [] => 0
  | n :: ns => (if notice_counts m n then 1 else 0) + counted (notice_map m n) ns
  end.

(** What the controller should hold of a cluster. *)
Definition stripped (c : cluster) (k : kind) : list any := strip <$> (map_to_list (c k)).*2.
Definition cluster_snapshot (c : cluster) : snapshot :=
  mkSnapshot (keep as_service (stripped c KService))
    (if initPodCache options then Some (keep as_pod (stripped c KPod)) else None)
    (if initEndpointsCache options then Some (keep as_endpoints (stripped c KEndpoints)) else None)
    (keep as_namespace (stripped c KNamespace)).

(** * The types of the caches *)

Definition pod_ok (k : string) (v : any) : Prop := ∃ p, v = VPod p ∧ documented_key v = Some k.
Definition service_ok (k : string) (v : any) : Prop :=
  ∃ s, v = VService s ∧ documented_key v = Some k ∧
    svc_Index s = ServiceKey (svc_Name s) (svc_Namespace s) ∧ svc_Ports s ≠ [].
Definition endpoints_ok (k : string) (v : any) : Prop :=
  ∃ e, v = VEndpoints e ∧ documented_key v = Some k ∧
    eps_Index e = EndpointsKey (eps_Name e) (eps_Namespace e) ∧
    eps_IndexIP e = concat ((λ sub, ea_IP <$> es_Addresses sub) <$> eps_Subsets e) ∧
    ∀ sub, sub ∈ eps_Subsets e → es_Ports sub ≠ [].

(** Every cache holds objects of its kind, under their keys and with their index fields, and has
    the indices it was created with. *)
Definition caches_ok (dns : dnsControl Store) : Prop :=
  indexed dns ∧
  map_Forall service_ok (contents (svcLister dns)) ∧
  (∀ st, podLister dns = Some st → map_Forall pod_ok (contents st)) ∧
  (∀ st, epLister dns = Some st → map_Forall endpoints_ok (contents st)) ∧
  map_Forall namespace_ok (contents (nsLister dns)).
End System.
Arguments system : clear implicits.

(** * Facts *)

(** The conversion and the type of the objects of a cache. *)
Definition convert_of (skip : bool) (k : kind) : ToFunc :=
  match k with
  | KService => ToService skip | KPod => ToPod skip | KEndpoints => ToEndpoints skip
  | KNamespace => keep_namespace
  end.
Definition good_of (k : kind) : string → any → Prop :=
  match k with
  | KService => service_ok | KPod => pod_ok | KEndpoints => endpoints_ok | KNamespace => namespace_ok
  end.

(** What a conversion makes of an object of its kind and leaves of it; it makes nothing of others. *)
Definition cleared (o : api_object) : api_object :=
  match o with
  | ApiPod _ => ApiPod zero_Pod | ApiService _ => ApiService zero_Service
  | ApiEndpoints _ => ApiEndpoints zero_Endpoints | ApiNamespace n => ApiNamespace n
  end.
Definition pod_error (skip : bool) (o : api_object) : option go_error :=
  match o with
  | ApiPod p => if skip && terminating p then Some errPodTerminating else None
  | _ => None
  end.

Lemma convert_report skip k h l o :
  h !! l = Some o → api_kind o = k →
  (convert_of skip k (VApi l) h).1 = Ret (strip o, pod_error skip o) ∧
  ∀ l', l' = l → (convert_of skip k (VApi l) h).2 !! l' = Some (if skip then o else cleared o).
Proof.
  intros Hl Hk. destruct o as [p|svc|e|n]; simpl in Hk; subst k; unfold convert_of.
  - rewrite (ToPod_report _ _ _ _ Hl). split; [done|]. intros ? ->. simpl.
    rewrite lookup_insert_eq. by destruct skip.
  - unfold ToService. rewrite Hl, toService_ok. split; [done|]. intros ? ->. simpl.
    rewrite lookup_insert_eq. by destruct skip.
  - unfold ToEndpoints. rewrite Hl, toEndpoints_ok. split; [done|]. intros ? ->. simpl.
    rewrite lookup_insert_eq. by destruct skip.
  - simpl. rewrite Hl. split; [done|]. intros ? ->. simpl. by destruct skip.
Qed.

(** A conversion yields an object with a key only from an object of its kind. *)
Lemma convert_origin skip k h l obj err :
  (convert_of skip k (VApi l) h).1 = Ret (obj, err) →
  (∃ o, h !! l = Some o ∧ api_kind o = k ∧ obj = strip o) ∨ (obj = VNil ∧ ∃ m, err = Some (errMsg m)).
Proof.
  intros Hc. destruct (h !! l) as [o|] eqn:Hl; [destruct (decide (api_kind o = k)) as [Hk|Hk]|].
  - left. destruct (convert_report skip k h l o Hl Hk) as [Hr _]. rewrite Hr in Hc.
    injection Hc as <- _. by exists o.
  - right. destruct k, o; try done; simpl in Hc; unfold ToService, ToPod, ToEndpoints in Hc;
      rewrite Hl in Hc; injection Hc as <- <-; eauto.
  - right. destruct k; simpl in Hc; unfold ToService, ToPod, ToEndpoints in Hc;
      rewrite Hl in Hc; injection Hc as <- <-; eauto.
Qed.

Lemma strip_key o : documented_key (strip o) = Some (api_key o).
Proof. by destruct o. Qed.

Lemma strip_good o : good_of (api_kind o) (api_key o) (strip o).
Proof.
  destruct o as [p|svc|e|n]; simpl.
  - by eexists.
  - eexists. split_and!; [done..|]. simpl. by destruct (as_Ports svc).
  - eexists. split_and!; [done..| |].
    + simpl. rewrite <- list_fmap_compose. f_equal. apply list_fmap_ext. intros _ eps _. simpl.
      by rewrite <- list_fmap_compose.
    + simpl. intros sub (asub & -> & _)%list_elem_of_fmap. simpl. by destruct (au_Ports asub).
  - by eexists.
Qed.

Lemma convert_typed skip k : typed_convert (convert_of skip k) (good_of k).
Proof.
  intros l hp obj err key Hc Hk.
  destruct (convert_origin _ _ _ _ _ _ Hc) as [(o & _ & <- & ->)|[-> _]]; [|done].
  rewrite strip_key in Hk. injection Hk as <-. apply strip_good.
Qed.

Lemma convert_local skip k : local_convert (convert_of skip k).
Proof.
  destruct k; simpl; auto with gocall. intros l h. split.
  - intros h2 Heq. simpl. rewrite Heq. by destruct (h !! l) as [[]|].
  - intros l' _. simpl. by destruct (h !! l) as [[]|].
Qed.

(** Two objects of a cache are of its kind. *)
Lemma good_update k key o n : k ≠ KNamespace →
  good_of k key o → good_of k key n → ∃ counts, same_kind_update o n counts.
Proof.
  destruct k; try done; intros _ Ho Hn; destruct Ho as (? & -> & _), Hn as (? & -> & _);
    by eexists.
Qed.

Lemma controller_handler_typed now heap k : k ≠ KNamespace →
  typed_handler (good_of k) (handler_beside (controller_handler now heap)).
Proof.
  intros Hk. assert (Hb : ∀ m : GoM ctl_clock unit, total_call m → total_call (beside m)).
  { intros m Hm [c obs]. unfold beside. simpl. specialize (Hm c). by destruct (m c) as [[]]. }
  split; [|split]; try (intros o; by apply Hb).
  intros key o n Ho Hn. apply Hb. destruct (good_update k key o n Hk Ho Hn) as [b Hs].
  by eapply detectChanges_total.
Qed.

(** The reaction of the clock. *)
Definition clock_reaction (now : nat → Z) : reaction ctl_clock :=
  mkReaction (bump now) (λ o n c, if changed o n then bump now c else c) (bump now).

Lemma same_kind_changed o n counts : same_kind_update o n counts → counts = changed o n.
Proof. by destruct o, n. Qed.

Lemma controller_handler_reacts now heap k : k ≠ KNamespace →
  reacts (good_of k) (handler_beside (controller_handler now heap)) fst (clock_reaction now).
Proof.
  intros Hk. split; [|split]; try (by intros o [c obs]).
  intros key o n [c obs] Ho Hn. destruct (good_update k key o n Hk Ho Hn) as [b Hs].
  simpl. unfold beside. simpl. unfold Update.
  rewrite (detectChanges_effect now heap c o n b Hs), (same_kind_changed o n b Hs). done.
Qed.

Lemma no_recorder_typed {Store H} convert : typed_recorder (Store:=Store) (H:=H) convert None.
Proof. by intros ????????. Qed.

Section SystemFacts.
Context {Store : Type} `{InformerLaws Store}.
Variable time_Now : nat → Time.
Variable now : nat → Z.
Variable options : dnsControlOpts.
Abbreviation skip := (skipAPIObjectsCleanup options).
Abbreviation deliver := (deliver time_Now now options).
Abbreviation hstate := (ctl_clock * list observation)%type.
Implicit Types (dns : dnsControl Store) (s : system Store).

(** The recorder is told of an endpoints object that was just converted. *)
Lemma recorder_typed dns :
  typed_recorder (Store:=Store) (H:=hstate) (convert_of skip KEndpoints)
    (Some (recorder time_Now dns)).
Proof.
  intros r l hp hp' st obj err [= <-] Hc Herr Hl [c obs].
  destruct (convert_origin _ _ _ _ _ _ Hc) as [(o & Ho & Hk & _)|[_ [m ->]]];
    [|by destruct Herr].
  destruct (convert_report skip KEndpoints hp l o Ho Hk) as [_ Hafter].
  rewrite (Hafter l eq_refl) in Hl. destruct o; try done. unfold recorder, dns_recordDNSProgrammingLatency.
  rewrite Hl. destruct skip; simpl.
  1: destruct (getServices_ret dns e) as [svcs ->].
  2: destruct (getServices_ret dns zero_Endpoints) as [svcs ->].
  all: go_simpl; unfold recordDNSProgrammingLatency; by destruct (_ || IsZero _).
Qed.

Lemma recorder_silent dns :
  silent (Some (recorder (Store:=Store) (C:=ctl_clock) time_Now dns)) fst.
Proof.
  intros r o hp st s [= <-]. unfold recorder. by destruct (dns_recordDNSProgrammingLatency _ _ _ _).
Qed.

(** The cache of a kind, and its informer. *)
Definition cache_of (k : kind) dns : option Store :=
  match k with
  | KService => Some (svcLister dns) | KPod => podLister dns
  | KEndpoints => epLister dns | KNamespace => Some (nsLister dns)
  end.
Definition put_cache (k : kind) (st : Store) : dnsControl Store → dnsControl Store :=
  match k with
  | KService => set_svcLister st | KPod => set_podLister st
  | KEndpoints => set_epLister st | KNamespace => set_nsLister st
  end.
Definition recorder_of (k : kind) dns : option (Recorder (Store:=Store) (H:=hstate)) :=
  match k with KEndpoints => Some (recorder time_Now dns) | _ => None end.
Definition indexers_of (k : kind) : Indexers :=
  match k with
  | KService => svcIndexers | KPod => podIndexers | KEndpoints => epIndexers | KNamespace => []
  end.

(** A cache of its kind, with its indices. *)
Definition cache_ok (k : kind) (st : Store) : Prop :=
  map_Forall (good_of k) (contents st) ∧ (k ≠ KNamespace → indexers st = indexers_of k).

Lemma caches_ok_iff dns :
  caches_ok dns ↔ ∀ k st, cache_of k dns = Some st → cache_ok k st.
Proof.
  unfold caches_ok, indexed, cache_ok. split.
  - intros ((Hs & Hp & He) & Hts & Htp & Hte & Htn) k st Hst.
    destruct k; simpl in *; simplify_eq; auto. split; [|done]. done.
  - intros Hall.
    destruct (Hall KService _ eq_refl) as [? Hi]. destruct (Hall KNamespace _ eq_refl) as [? _].
    split_and!; [by apply Hi| | |done| | |done]; intros st Hst.
    + by apply (Hall KPod st Hst).
    + by apply (Hall KEndpoints st Hst).
    + by apply (Hall KPod st Hst).
    + by apply (Hall KEndpoints st Hst).
Qed.

Lemma cache_of_put k k' st dns t : is_Some (cache_of k dns) →
  cache_of k' (set_modified t (put_cache k st dns)) =
    if decide (k' = k) then Some st else cache_of k' dns.
Proof. intros _. by destruct k, k'. Qed.

(** A processor of the program, on its cache: the kinds differ only in the cache, the conversion
    and the recorder. *)
Lemma deliver_cache k ds s : k ≠ KNamespace →
  deliver k ds s =
    match cache_of k (sy_dns s) with
    | Some st =>
        on_cache st (put_cache k)
          (DefaultProcessor (convert_of skip k) (recorder_of k (sy_dns s))
             (handler_beside (controller_handler now (sy_heap s))) ds) s
    | None => (Ret tt, s)
    end.
Proof. by destruct k. Qed.

Lemma recorder_of_typed k dns : typed_recorder (convert_of skip k) (recorder_of k dns).
Proof. destruct k; try apply no_recorder_typed. apply recorder_typed. Qed.

Lemma recorder_of_silent k dns : silent (recorder_of k dns) fst.
Proof. destruct k; try done. apply recorder_silent. Qed.

Lemma convert_total k : k ≠ KNamespace → total_convert (convert_of skip k).
Proof. destruct k; try done; intros _; simpl; auto with gocall. Qed.

(** Whatever the deltas, delivering them does not panic and keeps the caches. *)
Lemma deliver_safe k ds : safe (λ s, caches_ok (sy_dns s)) (deliver k ds).
Proof.
  intros s Hok. destruct (decide (k = KNamespace)) as [->|Hk].
  { unfold deliver; simpl. split; [|done]. rewrite caches_ok_iff in *. intros k st Hst.
    destruct (decide (k = KNamespace)) as [->|Hne]; [|apply Hok; by destruct k].
    injection Hst as <-. split; [|done]. apply informer_typed. apply (Hok KNamespace _ eq_refl). }
  rewrite deliver_cache by done. destruct (cache_of k (sy_dns s)) as [st|] eqn:Hst; [|by split].
  pose proof (proj1 (caches_ok_iff _) Hok k st Hst) as [Ht Hi]. specialize (Hi Hk).
  unfold on_cache.
  set (p0 := mkPstate _ _ _).
  destruct (process_safe (convert_of skip k) (good_of k) (recorder_of k (sy_dns s))
    (handler_beside (controller_handler now (sy_heap s))) (convert_local skip k)
    (convert_typed skip k) (controller_handler_typed _ _ k Hk) (recorder_of_typed k _) fst
    (clock_reaction now) (controller_handler_reacts _ _ k Hk) (recorder_of_silent k _)
    (convert_total k Hk) (indexers_of k) ds p0) as [[Hty Hix] Hp]; [by split|].
  destruct (DefaultProcessor _ _ _ ds p0) as [o p]. simpl in *. split; [|done].
  apply caches_ok_iff. intros k' st'. rewrite cache_of_put by done.
  case_decide as He; [subst k'; intros [= <-]; by split|]. by apply caches_ok_iff.
Qed.

Lemma start_ok : caches_ok (sy_dns (system_start (Store:=Store) options)).
Proof.
  split; [apply new_indexed|]. simpl. rewrite !contents_new.
  split_and!; try apply map_Forall_empty; intros st; case_match; intros [= <-];
    rewrite contents_new; apply map_Forall_empty.
Qed.

(** The steps that are not deliveries leave the caches alone. *)
Lemma step_ok_preserved s s' :
  system_step time_Now now options s s' → caches_ok (sy_dns s) → caches_ok (sy_dns s').
Proof.
  intros [s0 h|s0 k ds|s0 k|s0] Hok; try exact Hok.
  - by apply deliver_safe.
  - simpl. unfold Stop. destruct (sy_dns s0). by repeat case_match.
Qed.

Lemma reachable_ok s :
  rtc (system_step time_Now now options) (system_start options) s →
  caches_ok (sy_dns s).
Proof.
  intros Hr. pose proof start_ok as Hok. revert Hr Hok. generalize (system_start (Store:=Store) options).
  induction 1 as [|s1 s2 s3 Hs _ IH]; [done|]. intros Hok. apply IH. by eapply step_ok_preserved.
Qed.

(** Deltas that stand for changes make them, in the cache of their kind, and the clock reacts; the
    changes of namespaces are not dated. *)
Definition dated (k : kind) (cs : list change) dns (c : ctl_clock) : ctl_clock :=
  match cache_of k dns with
  | Some st => if decide (k = KNamespace) then c
               else changes_reaction (clock_reaction now) (contents st) cs c
  | None => c
  end.

Lemma deliver_changes k ds cs s :
  caches_ok (sy_dns s) → NoDup (omap delta_ptr ds) →
  mapM (delta_change (convert_of skip k) (sy_heap s)) ds = Some cs →
  ∃ s', deliver k ds s = (Ret tt, s') ∧
    (∀ k', contents <$> cache_of k' (sy_dns s') =
       (if decide (k' = k) then λ m, foldl apply_change m cs else id)
         <$> (contents <$> cache_of k' (sy_dns s))) ∧
    clock_of s' = dated k cs (sy_dns s) (clock_of s).
Proof.
  intros Hok Hnd Hcs. unfold dated. destruct (decide (k = KNamespace)) as [->|Hk].
  { eexists. split; [done|]. split; [|done]. intros k'. simpl.
    destruct k'; simpl; rewrite ?option_fmap_id; try done.
    f_equal. by apply informer_changes. }
  rewrite deliver_cache by done. destruct (cache_of k (sy_dns s)) as [st|] eqn:Hst.
  2:{ eexists. split; [done|]. split; [|done]. intros k'.
      case_decide; [by subst k'; rewrite Hst|]. by rewrite option_fmap_id. }
  pose proof (proj1 (caches_ok_iff _) Hok k st Hst) as [Ht _].
  unfold on_cache. set (p0 := mkPstate _ _ _).
  destruct (process_changes (convert_of skip k) (good_of k) (recorder_of k (sy_dns s))
    (handler_beside (controller_handler now (sy_heap s))) (convert_local skip k)
    (convert_typed skip k) (controller_handler_typed _ _ k Hk) (recorder_of_typed k _) fst
    (clock_reaction now) (controller_handler_reacts _ _ k Hk) (recorder_of_silent k _)
    ds cs p0 Hnd Ht Hcs) as (p & -> & _ & Hc & _ & Hv).
  eexists. split; [done|]. split.
  - intros k'. simpl. rewrite cache_of_put by done.
    case_decide as He; [subst k'; rewrite Hst; simpl; by rewrite Hc|by rewrite option_fmap_id].
  - unfold p0 in Hv. simpl in Hv. unfold clock_of. simpl. rewrite <- Hv. by destruct (ps_h p).1.
Qed.

(** The deltas queued for notices: new objects, and the changes the notices stand for. *)
Definition change_of (n : notice) : change :=
  match n with
  | Put _ o => Upsert (api_key o) (strip o)
  | Gone o => Remove (api_key o)
  | GoneKey _ key => Remove key
  end.

Lemma enqueue_ptrs ns h ds h' : enqueue ns h = (ds, h') →
  (∀ l, l ∈ omap delta_ptr ds → h !! l = None) ∧ NoDup (omap delta_ptr ds) ∧ h ⊆ h'.
Proof.
  revert h ds h'. induction ns as [|n ns IH]; intros h ds h' He; simpl in He.
  { injection He as <- <-. split_and!; [by intros ? ?%not_elem_of_nil|constructor|done]. }
  assert (Hfresh : h !! fresh (dom h) = None) by (apply not_elem_of_dom, is_fresh).
  assert (Hnew : ∀ t o, (∃ ds1, enqueue ns (<[fresh (dom h):=o]> h) = (ds1, h') ∧
      ds = mkDelta t (VApi (fresh (dom h))) :: ds1) →
    (∀ l, l ∈ omap delta_ptr ds → h !! l = None) ∧ NoDup (omap delta_ptr ds) ∧ h ⊆ h').
  { intros t o (ds1 & He1 & ->). destruct (IH _ _ _ He1) as (Hn & Hnd & Hsub). simpl.
    split_and!.
    - intros l [->|Hl]%elem_of_cons; [done|]. specialize (Hn l Hl).
      by apply lookup_insert_None in Hn as [? _].
    - apply NoDup_cons. split; [|done]. intros Hl%Hn. by rewrite lookup_insert_eq in Hl.
    - etrans; [by apply insert_subseteq|done]. }
  destruct n as [t o|o|k key].
  1,2: destruct (enqueue ns _) as [ds1 h1] eqn:He1; injection He as <- <-; eapply Hnew; by eexists.
  destruct (enqueue ns h) as [ds1 h1] eqn:He1. injection He as <- <-. by apply (IH h ds1 h1).
Qed.

(** On the heap it makes and on any larger one. *)
Lemma enqueue_changes k ns h ds h' hp : enqueue ns h = (ds, h') → h' ⊆ hp →
  (∀ n, n ∈ ns → notice_kind n = k ∧ deliverable options n) →
  mapM (delta_change (convert_of skip k) hp) ds = Some (change_of <$> ns).
Proof.
  revert h ds h'. induction ns as [|n ns IH]; intros h ds h' He Hsub Hwf; simpl in He.
  { by injection He as <- <-. }
  destruct (Hwf n) as [Hk Hd]; [by left|].
  assert (Hrest : ∀ h0 ds1, enqueue ns h0 = (ds1, h') →
    mapM (delta_change (convert_of skip k) hp) ds1 = Some (change_of <$> ns)).
  { intros h0 ds1 He1. apply (IH h0 ds1 h' He1 Hsub). intros ??. apply Hwf. by right. }
  assert (Hobj : ∀ h0 l o ds1, enqueue ns (<[l:=o]> h0) = (ds1, h') → hp !! l = Some o).
  { intros h0 l o ds1 He1. destruct (enqueue_ptrs _ _ _ _ He1) as (_ & _ & Hs).
    eapply lookup_weaken; [|exact Hsub]. eapply lookup_weaken; [apply lookup_insert_eq|done]. }
  rewrite fmap_cons. apply mapM_Some.
  destruct n as [t o|o|k' key]; simpl in Hk.
  - destruct (enqueue ns _) as [ds1 h1] eqn:He1; injection He as <- <-.
    constructor; [|by eapply mapM_Some, Hrest].
    destruct (convert_report skip k hp _ o (Hobj _ _ _ _ He1) Hk) as [Hr _].
    destruct Hd as [Ht Hd]. unfold delta_change. simpl. rewrite Hr.
    assert (pod_error skip o = None) as -> by (destruct o; try done; simpl; by rewrite Hd).
    rewrite strip_key. by destruct t.
  - destruct (enqueue ns _) as [ds1 h1] eqn:He1; injection He as <- <-.
    constructor; [|by eapply mapM_Some, Hrest].
    destruct (convert_report skip k hp _ o (Hobj _ _ _ _ He1) Hk) as [Hr _].
    unfold delta_change. simpl. rewrite Hr, strip_key.
    rewrite bool_decide_eq_true_2; [done|]. destruct o; simpl; try (by left). case_match; auto.
  - destruct (enqueue ns h) as [ds1 h1] eqn:He1. injection He as <- <-.
    constructor; [done|by eapply mapM_Some, Hrest].
Qed.

(** The caches hold the cluster [c], stripped. *)
Definition wanted (k : kind) : bool :=
  match k with
  | KPod => initPodCache options | KEndpoints => initEndpointsCache options | _ => true
  end.
Definition mirrors (c : cluster) dns : Prop :=
  ∀ k, contents <$> cache_of k dns = if wanted k then Some (strip <$> c k) else None.

Lemma start_mirrors : mirrors no_cluster (newdnsController (Store:=Store) options).
Proof.
  intros k. destruct k; simpl; repeat case_match; simpl; by rewrite ?contents_new, ?fmap_empty.
Qed.

Lemma changes_of_notices ns (m : gmap string api_object) :
  foldl apply_change (strip <$> m) (change_of <$> ns) = strip <$> foldl notice_map m ns.
Proof.
  revert m. induction ns as [|n ns IH]; intros m; [done|]. simpl. rewrite <- IH. f_equal.
  destruct n; simpl; by rewrite ?fmap_insert, ?fmap_delete.
Qed.

Lemma apply_notices_kind k ns (c : cluster) k' :
  (∀ n, n ∈ ns → notice_kind n = k) →
  foldl apply_notice c ns k' = if decide (k' = k) then foldl notice_map (c k') ns else c k'.
Proof.
  revert c. induction ns as [|n ns IH]; intros c Hk; simpl; [by case_decide|].
  rewrite IH by (intros; apply Hk; by right). unfold apply_notice. rewrite (Hk n) by (by left).
  by case_decide.
Qed.

Lemma dated_notices ns (m : gmap string api_object) c :
  changes_reaction (clock_reaction now) (strip <$> m) (change_of <$> ns) c = batch_clock now m ns c.
Proof.
  revert m c. induction ns as [|n ns IH]; intros m c; [done|]. cbn [batch_clock].
  rewrite <- IH. rewrite fmap_cons. cbn [changes_reaction]. f_equal.
  - apply (changes_of_notices [n] m).
  - destruct n as [t o| |]; simpl; try done. rewrite lookup_fmap. by destruct (m !! api_key o).
Qed.

(** The last notice that counts sets the time. *)
Lemma batch_clock_counted ns m c :
  batch_clock now m ns c =
    match counted m ns with
    | O => c
    | S n => mkClock (now (c_reads c + n)) (c_reads c + S n)
    end.
Proof.
  revert m c. induction ns as [|n ns IH]; intros m c; [done|]. simpl. rewrite IH.
  destruct (notice_counts m n); simpl; [|done].
  destruct (counted (notice_map m n) ns) as [|j]; simpl;
    unfold bump; by rewrite ?Nat.add_0_r, ?Nat.add_1_r, ?Nat.add_succ_r.
Qed.

Abbreviation handle_event := (handle_event time_Now now options).
Abbreviation run_history := (run_history time_Now now options).

Lemma listed_caches k k' dns : cache_of k (listed k' dns) = cache_of k dns.
Proof. by destruct k. Qed.

(** One event, and a history. *)
Lemma handle_mirrors c e s :
  well_formed options e → caches_ok (sy_dns s) → mirrors c (sy_dns s) →
  ∃ s', handle_event e s = (Ret tt, s') ∧ caches_ok (sy_dns s') ∧
    mirrors (foldl apply_notice c (event_notices e)) (sy_dns s').
Proof.
  intros Hwf Hok Hm. destruct e as [k ns|k]; simpl in *.
  2:{ eexists. split; [done|]. rewrite caches_ok_iff in *. unfold mirrors.
      split; intros k'; simpl; rewrite listed_caches; auto. }
  unfold Cluster.handle_event. destruct (enqueue ns (sy_heap s)) as [ds h] eqn:He.
  destruct (enqueue_ptrs _ _ _ _ He) as (_ & Hnd & _).
  pose proof (enqueue_changes k ns _ ds h h He (reflexivity _) Hwf) as Hcs.
  destruct (deliver_changes k ds _ (set_heap h s) Hok Hnd Hcs) as (s' & Hs' & Hc & _).
  exists s'. split; [done|]. split.
  { pose proof (deliver_safe k ds (set_heap h s) Hok) as [? _]. by rewrite Hs' in *. }
  intros k'. rewrite Hc, (apply_notices_kind k) by (intros; by apply Hwf). simpl. rewrite (Hm k').
  destruct (wanted k'); [|done]. simpl. case_decide as Hk; [subst k'|done].
  by rewrite changes_of_notices.
Qed.

Lemma notices_clock c k ns s :
  well_formed options (Notices k ns) → caches_ok (sy_dns s) → mirrors c (sy_dns s) →
  clock_of (handle_event (Notices k ns) s).2 =
    if wanted k && bool_decide (k ≠ KNamespace) then batch_clock now (c k) ns (clock_of s)
    else clock_of s.
Proof.
  intros Hwf Hok Hm. unfold Cluster.handle_event.
  destruct (enqueue ns (sy_heap s)) as [ds h] eqn:He.
  destruct (enqueue_ptrs _ _ _ _ He) as (_ & Hnd & _).
  pose proof (enqueue_changes k ns _ ds h h He (reflexivity _) Hwf) as Hcs.
  destruct (deliver_changes k ds _ (set_heap h s) Hok Hnd Hcs) as (s' & -> & _ & Hcl).
  cbn [snd]. rewrite Hcl. unfold dated. simpl. specialize (Hm k).
  destruct (cache_of k (sy_dns s)) as [st|]; simpl in Hm; destruct (wanted k); try done.
  injection Hm as ->. rewrite dated_notices. by destruct (decide (k = KNamespace)) as [->|Hk];
    [|rewrite bool_decide_eq_true_2].
Qed.

Lemma history_mirrors es c s :
  (∀ e, e ∈ es → well_formed options e) → caches_ok (sy_dns s) → mirrors c (sy_dns s) →
  ∃ s', run_history es s = (Ret tt, s') ∧ caches_ok (sy_dns s') ∧
    mirrors (foldl apply_notice c (es ≫= event_notices)) (sy_dns s').
Proof.
  revert c s. induction es as [|e es IH]; intros c s Hwf Hok Hm; [by eexists|].
  destruct (handle_mirrors c e s) as (s1 & Hs1 & Hok1 & Hm1); [apply Hwf; by left|done..|].
  destruct (IH _ s1 (λ e He, Hwf e (list_elem_of_further _ _ _ He)) Hok1 Hm1) as (s2 & Hs2 & Hok2 & Hm2).
  exists s2. split; [|split; [done|]].
  - unfold Cluster.run_history. cbn [go_for]. by rewrite (gom_bind_ret _ _ _ _ _ Hs1).
  - change ((e :: es) ≫= event_notices) with (event_notices e ++ (es ≫= event_notices)).
    by rewrite foldl_app.
Qed.

(** The objects of a cache that mirrors the cluster, in some order. *)
Lemma mirrored_list c dns k st :
  mirrors c dns → cache_of k dns = Some st → wanted k = true ∧ cache_List st ≡ₚ stripped c k.
Proof.
  intros Hm Hst. specialize (Hm k). rewrite Hst in Hm. simpl in Hm.
  destruct (wanted k); [|done]. injection Hm as Hm. split; [done|].
  rewrite list_law, Hm. unfold stripped. rewrite map_to_list_fmap, <- !list_fmap_compose. done.
Qed.

Lemma mirrored_none c dns k : mirrors c dns → cache_of k dns = None → wanted k = false.
Proof. intros Hm Hk. specialize (Hm k). rewrite Hk in Hm. simpl in Hm. by destruct (wanted k). Qed.

Lemma mirrored_cache {A} (typed : any → option A) c dns k :
  mirrors c dns →
  option_Forall2 Permutation (typed_cache typed <$> cache_of k dns)
    (if wanted k then Some (keep typed (stripped c k)) else None).
Proof.
  intros Hm. destruct (cache_of k dns) as [st|] eqn:Hst; simpl.
  - destruct (mirrored_list _ _ _ _ Hm Hst) as [-> Hl]. constructor. by apply omap_permutation.
  - rewrite (mirrored_none _ _ _ Hm Hst). constructor.
Qed.

Lemma mirrored_snapshot c dns :
  mirrors c dns → snapshot_of dns ≡ cluster_snapshot options c.
Proof.
  intros Hm.
  pose proof (mirrored_cache as_service c dns KService Hm) as Hs.
  pose proof (mirrored_cache as_namespace c dns KNamespace Hm) as Hn.
  inversion Hs; inversion Hn; subst. split_and!; [done| | |done].
  - apply (mirrored_cache as_pod c dns KPod Hm).
  - apply (mirrored_cache as_endpoints c dns KEndpoints Hm).
Qed.

(** The controller after a history, as the plugin sees it. *)
Lemma history_implements es :
  (∀ e, e ∈ es → well_formed options e) →
  ∃ s, run_history es (system_start options) = (Ret tt, s) ∧
    Implements (controller_of (sy_dns s)) (cluster_snapshot options (cluster_after es)).
Proof.
  intros Hwf.
  destruct (history_mirrors es no_cluster (system_start options) Hwf start_ok start_mirrors)
    as (s & Hs & Hok & Hm).
  exists s. split; [done|]. rewrite <- (mirrored_snapshot _ _ Hm).
  apply controller_implements, Hok.
Qed.

(** Which informers have listed: only a listing changes that. *)
Definition synced_of (k : kind) dns : bool :=
  match k with
  | KService => svcSynced dns | KPod => default true (podSynced dns)
  | KEndpoints => default true (epSynced dns) | KNamespace => nsSynced dns
  end.
Definition is_listing (k : kind) (e : event) : bool :=
  match e with Listed k' => bool_decide (k = k') | Notices _ _ => false end.
Definition listed_in (k : kind) (es : list event) : bool := existsb (is_listing k) es.

Lemma deliver_synced k' k ds s :
  synced_of k' (sy_dns (deliver k ds s).2) = synced_of k' (sy_dns s).
Proof.
  destruct (decide (k = KNamespace)) as [->|Hk]; [by destruct k'|]. rewrite deliver_cache by done.
  destruct (cache_of k (sy_dns s)) as [st|]; [|done]. unfold on_cache.
  destruct (DefaultProcessor _ _ _ ds _) as [o p]. by destruct k, k'.
Qed.

Lemma handle_synced k e s :
  synced_of k (sy_dns (handle_event e s).2) = synced_of k (sy_dns s) || is_listing k e.
Proof.
  destruct e as [k' ns|k']; simpl.
  - unfold Cluster.handle_event. destruct (enqueue ns (sy_heap s)) as [ds h].
    rewrite orb_false_r. apply (deliver_synced k k' ds (set_heap h s)).
  - destruct k, k'; simpl; rewrite ?orb_true_r, ?orb_false_r; try done;
      (by destruct (podSynced _)) || by destruct (epSynced _).
Qed.

Lemma run_synced k es s s' :
  run_history es s = (Ret tt, s') →
  synced_of k (sy_dns s') = synced_of k (sy_dns s) || listed_in k es.
Proof.
  revert s. induction es as [|e es IH]; intros s Hr.
  - injection Hr as ->. by rewrite orb_false_r.
  - pose proof (handle_synced k e s) as He.
    unfold Cluster.run_history in Hr, IH. cbn [go_for] in Hr. unfold mbind, gom_bind in Hr.
    destruct (handle_event e s) as [[[]|err|] s1]; try discriminate Hr.
    rewrite (IH s1 Hr). simpl in He. rewrite He. simpl. by rewrite <- orb_assoc.
Qed.

(** The controller is synced when every informer it runs has listed. *)
Lemma history_synced es s :
  run_history es (system_start options) = (Ret tt, s) →
  ctl_HasSynced (sy_dns s) =
    forallb (λ k, listed_in k es) (ctl_Run (newdnsController (Store:=Store) options)).
Proof.
  intros Hr.
  change (ctl_HasSynced (sy_dns s)) with
    (synced_of KService (sy_dns s) && synced_of KEndpoints (sy_dns s) && synced_of KPod (sy_dns s)
       && synced_of KNamespace (sy_dns s)).
  rewrite !(run_synced _ es _ _ Hr). simpl. unfold ctl_Run. simpl.
  destruct (initEndpointsCache options), (initPodCache options); simpl;
    by rewrite ?andb_true_r, ?andb_assoc.
Qed.
End SystemFacts.

(** * Names *)

(** Objects named as Kubernetes names them. *)
Definition k8s_name (o : api_object) : Prop :=
  match o with
  | ApiNamespace n => no_dot (om_Name (an_Meta n))
  | _ => object_name (om_Name (api_meta o)) ∧ object_name (om_Namespace (api_meta o)) ∧
         no_dot (om_Namespace (api_meta o))
  end.
Definition k8s_names (c : cluster) : Prop := ∀ k key o, c k !! key = Some o → k8s_name o.

Lemma kept_origin {A} (typed : any → option A) (c : cluster) k a :
  a ∈ keep typed (stripped c k) → ∃ key o, c k !! key = Some o ∧ typed (strip o) = Some a.
Proof.
  unfold keep, stripped. rewrite list_elem_of_omap.
  intros (x & (o & -> & ([key o'] & -> & Hin)%list_elem_of_fmap)%list_elem_of_fmap & Ht).
  apply elem_of_map_to_list in Hin. by exists key, o'.
Qed.

(** The index fields are right by construction, so the names are all that is asked. *)
Lemma cluster_names options c : k8s_names c → dns_names (cluster_snapshot options c).
Proof.
  intros Hc. constructor; simpl.
  - intros s (key & o & Ho%Hc & Ht)%kept_origin. destruct o; simplify_eq/=. naive_solver.
  - intros l e Hl He. destruct (initEndpointsCache options); simplify_eq.
    apply kept_origin in He as (key & o & Ho%Hc & Ht). destruct o; simplify_eq/=. naive_solver.
  - intros l p Hl Hp. destruct (initPodCache options); simplify_eq.
    apply kept_origin in Hp as (key & o & Ho%Hc & Ht). destruct o; simplify_eq/=. naive_solver.
  - intros n (key & o & Ho%Hc & Ht)%kept_origin. by destruct o; simplify_eq/=.
Qed.

(** The plugin with the queries of a controller. *)
Definition with_controller (k : Kubernetes) (ctl : dnsController) : Kubernetes :=
  mkKubernetes (Zones k) ctl (Namespaces k) (podMode k) (endpointNameMode k) (ttl k) (opts k)
    (primaryZoneIndex k) (localIPs k) (autoPathSearch k) (TransferTo k) (grpcPort k).

(** * An informer and a cluster for the witnesses *)

Module SimpleInformer.
Definition apply (heap : ApiHeap) (st : SimpleCache.t) (d : Delta) : SimpleCache.t :=
  match delta_change keep_namespace heap d with
  | Some c => SimpleCache.mk (apply_change (SimpleCache.objs st) c) (SimpleCache.ixs st)
  | None => st
  end.

#[global] Instance lib : InformerLib SimpleCache.t := λ heap ds st, foldl (apply heap) st ds.

#[global] Instance laws : InformerLaws SimpleCache.t.
Proof.
  split; unfold NewInformer_process, lib.
  - intros heap ds. induction ds as [|d ds IH]; intros cs st Hcs.
    + by injection Hcs as <-.
    + apply mapM_Some, Forall2_cons_inv_l in Hcs as (c & cs' & Hc & Hcs & ->). simpl.
      rewrite (IH cs') by (by apply mapM_Some). f_equal. unfold apply. by rewrite Hc.
  - intros heap ds. induction ds as [|d ds IH]; intros st Hst; [done|]. simpl. apply IH.
    unfold apply. destruct (delta_change keep_namespace heap d) as [c|] eqn:Hc; [|done].
    eapply (change_typed keep_namespace); [apply (convert_typed false KNamespace)|exact Hc|exact Hst].
Qed.
End SimpleInformer.

Definition ex_api_service (name ns ip : string) : api_object :=
  ApiService (mkApiService (ex_meta name ns) ip "ClusterIP" "" [mkServicePort "http" "TCP" 80] [] []).
Definition ex_api_endpoints (name ns ip : string) : api_object :=
  ApiEndpoints (mkApiEndpoints (ex_meta name ns)
    [mkApiSubset [mkApiAddress ip "" None None] [mkApiPort "http" 80 "TCP"]]).
Definition ex_api_namespace (name : string) : api_object :=
  ApiNamespace (mkApiNamespace (ex_meta name "")).

Definition ex_history : list event :=
  [Notices KNamespace [Put Sync (ex_api_namespace "testns")]; Listed KNamespace;
   Notices KService [Put Sync (ex_api_service "svc1" "testns" "10.0.0.1");
                     Put Sync (ex_api_service "gone" "testns" "10.0.0.2")];
   Notices KEndpoints [Put Sync (ex_api_endpoints "svc1" "testns" "172.0.0.1")];
   Listed KService;
   Notices KService [Put Updated (ex_api_service "svc1" "testns" "10.0.0.3");
                     GoneKey KService "testns/gone"];
   Listed KEndpoints; Listed KPod].

Definition well_formedb (options : dnsControlOpts) (e : event) : bool :=
  match e with
  | Notices k ns =>
      forallb (λ n, bool_decide (notice_kind n = k) &&
        match n with
        | Put t o => is_upsert t && match o with
                                    | ApiPod p => negb (skipAPIObjectsCleanup options && terminating p)
                                    | _ => true
                                    end
        | _ => true
        end) ns
  | Listed _ => true
  end.

Lemma well_formedb_spec options es :
  forallb (well_formedb options) es = true → ∀ e, e ∈ es → well_formed options e.
Proof.
  rewrite forallb_forall. intros Hall e He%list_elem_of_In. specialize (Hall e He).
  destruct e as [k ns|k]; [|done]. simpl in *. rewrite forallb_forall in Hall.
  intros n Hn%list_elem_of_In. specialize (Hall n Hn).
  apply andb_true_iff in Hall as [Hk%bool_decide_eq_true Hd]. split; [done|].
  destruct n as [t o| |]; [|done..]. apply andb_true_iff in Hd as [Ht Hp]. split; [done|].
  destruct o; try done. by apply negb_true_iff in Hp.
Qed.

(** The objects of a cluster are those of the notices. *)
Definition named (n : notice) : Prop := match n with Put _ o => k8s_name o | _ => True end.

Lemma notices_named ns (c : cluster) :
  k8s_names c → (∀ n, n ∈ ns → named n) → k8s_names (foldl apply_notice c ns).
Proof.
  revert c. induction ns as [|n ns IH]; intros c Hc Hns; [done|]. simpl. apply IH.
  - intros k key o. unfold apply_notice. case_decide; [|apply Hc].
    specialize (Hns n (list_elem_of_here _ _)). destruct n as [t o'|o'|k' key']; simpl in *.
    + intros [[_ <-]|[_ Ho]]%lookup_insert_Some; [done|by eapply Hc].
    + intros [_ Ho]%lookup_delete_Some. by eapply Hc.
    + intros [_ Ho]%lookup_delete_Some. by eapply Hc.
  - intros n' Hn'. apply Hns. by right.
Qed.

Lemma history_named es :
  (∀ n, n ∈ es ≫= event_notices → named n) → k8s_names (cluster_after es).
Proof. apply notices_named. intros k key o. unfold no_cluster. by rewrite lookup_empty. Qed.

Definition k8s_nameb (o : api_object) : bool :=
  let name s := (strings.ToLower s =? s)%string && negb (wildcard s) in
  match o with
  | ApiNamespace n => no_dotb (om_Name (an_Meta n))
  | _ => name (om_Name (api_meta o)) && name (om_Namespace (api_meta o))
         && no_dotb (om_Namespace (api_meta o))
  end.
Definition namedb (n : notice) : bool := match n with Put _ o => k8s_nameb o | _ => true end.

Lemma namedb_spec ns : forallb namedb ns = true → ∀ n, n ∈ ns → named n.
Proof.
  rewrite forallb_forall. intros Hall n Hn%list_elem_of_In. specialize (Hall n Hn).
  destruct n as [t o| |]; [|done..]. unfold namedb, k8s_nameb, named, k8s_name, object_name in *.
  destruct o; simpl in *; go_bool; try (by apply no_dotb_spec);
    destruct Hall as [[[? ?] [? ?]] ?]; auto using no_dotb_spec.
Qed.

(** * Properties *)

(** C10: the caches are typed, whatever happens. In every state the system can reach, through any
    batches of any deltas in any interleaving of the informers, any change of the API objects in the
    heap and stopping, each cache holds only objects of its kind, every one under its own key, with
    the index fields the queries rely on and at least one port, and the caches have the indices they
    were created with; and no batch of deltas, of whatever kind and content, makes a processor, a
    handler or the recorder of the latency panic: their type assertions hold. *)
Theorem caches_typed {Store : Type} `{InformerLaws Store} time_Now now options
    (s : system Store) :
  rtc (system_step time_Now now options) (system_start options) s →
  caches_ok (sy_dns s) ∧
  ∀ k ds, (deliver time_Now now options k ds s).1 ≠ Panic.
Proof.
  intros Hok%reachable_ok. split; [done|]. intros k ds. by apply deliver_safe.
Qed.

Lemma caches_typed_witness :
  let s := (deliver (λ _, 0%Z) (λ _, 0%Z) ex_opts KService
              [mkDelta Added (VApi 1); mkDelta Added (VOther "node")]
              (set_heap {[1%positive := ex_api_service "svc1" "testns" "10.0.0.1"]}
                 (system_start (Store:=SimpleCache.t) ex_opts))).2 in
  caches_ok (sy_dns s) ∧ size (contents (svcLister (sy_dns s))) = 1.
Proof.
  split; [|vm_compute; reflexivity].
  apply (caches_typed (λ _, 0%Z) (λ _, 0%Z) ex_opts).
  eapply rtc_l; [apply step_heap|]. eapply rtc_l; [apply step_deliver|]. apply rtc_refl.
Defined.

(** C9: the controller mirrors the cluster. Start the plugin and let its informers process any
    history of notices in batches, in any interleaving of the kinds: each an object put or gone, or
    only its key. No processor fails; the controller then keeps the contract of the plugin's
    interface over exactly the cluster the notices describe, the last state of every object that is
    not gone; and it is synced exactly when every informer that [Run] starts has delivered its first
    list. (Without the cleanup, an update of a terminating pod is excluded: it is an error.) *)
Theorem watch_refines {Store : Type} `{InformerLaws Store} time_Now now options es :
  (∀ e, e ∈ es → well_formed options e) →
  ∃ s : system Store,
    run_history time_Now now options es (system_start options) = (Ret tt, s) ∧
    Implements (controller_of (sy_dns s)) (cluster_snapshot options (cluster_after es)) ∧
    HasSynced (controller_of (sy_dns s)) =
      forallb (λ k, listed_in k es) (ctl_Run (newdnsController (Store:=Store) options)).
Proof.
  intros Hwf. destruct (history_implements time_Now now options es Hwf) as (s & Hs & Hi).
  exists s. split_and!; [done|done|]. by eapply history_synced.
Qed.

Lemma watch_refines_witness :
  ∃ s : system SimpleCache.t,
    run_history (λ _, 0%Z) (λ _, 0%Z) ex_opts ex_history (system_start ex_opts)
      = (Ret tt, s) ∧
    finds (SvcIndexReverse (controller_of (sy_dns s)) "10.0.0.3")
      (Some [service_of (mkApiService (ex_meta "svc1" "testns") "10.0.0.3" "ClusterIP" ""
               [mkServicePort "http" "TCP" 80] [] [])]) ∧
    finds (SvcIndexReverse (controller_of (sy_dns s)) "10.0.0.2") (Some []) ∧
    HasSynced (controller_of (sy_dns s)) = true.
Proof.
  destruct (watch_refines (Store:=SimpleCache.t) (λ _, 0%Z) (λ _, 0%Z) ex_opts ex_history)
    as (s & Hs & Hi & Hsync).
  - apply well_formedb_spec. vm_compute. reflexivity.
  - exists s. split; [exact Hs|]. split; [exact (impl_svc_reverse (Implements:=Hi) "10.0.0.3")|].
    split; [exact (impl_svc_reverse (Implements:=Hi) "10.0.0.2")|]. rewrite Hsync. reflexivity.
Defined.

(** C8: from the API server to the answer. After any history of well-named objects, the plugin whose
    controller processed it answers the query for the name of a service, an endpoint or a pod with
    what a scan of the cluster gives, up to the order of the records: the pods of that address, or
    the records of the services with their own endpoints, among the last states of the objects that
    are not gone; and with [errNsNotExposed] for a namespace that is not exposed. *)
Theorem cluster_answers {Store : Type} `{InformerLaws Store, DnsLaws} time_Now now
    k es state r :
  (∀ e, e ∈ es → well_formed (opts k) e) → (∀ n, n ∈ es ≫= event_notices → named n) →
  initEndpointsCache (opts k) = true →
  podMode k = podModeDisabled ∨ podMode k = podModeInsecure ∨ initPodCache (opts k) = true →
  ignoreEmptyService (opts k) = false ∨ exact r = true →
  printable r → lower_request r → normal_zone (rq_Zone state) →
  rq_Name state = qualify (labels_of r) (rq_Zone state) → (IsReverse (rq_Name state) <= 0)%Z →
  ∃ s : system Store,
    run_history time_Now now (opts k) es (system_start (opts k)) = (Ret tt, s) ∧
    let k' := with_controller k (controller_of (sy_dns s)) in
    let c := cluster_after es in
    let sn := cluster_snapshot (opts k) c in
    ∃ a, Records k' state = Ret a ∧
      same_answer a
        (if decide (visible k' sn r) then
           if (r_podOrSvc r =? PodLabel)%string
           then pods_answer k' sn r (rq_Zone state) (keep as_pod (stripped c KPod))
           else reference_answer k' sn r (rq_Zone state) (keep as_endpoints (stripped c KEndpoints))
         else ([], Some errNsNotExposed)).
Proof.
  intros Hwf Hnames Hep Hpod Hok Hr Hl Hz Hq Hrev.
  destruct (history_implements time_Now now (opts k) es Hwf) as (s & Hs & Hi).
  exists s. split; [done|]. simpl. apply Records_scan; try done.
  - by apply cluster_names, history_named.
  - simpl. by rewrite Hep.
  - destruct Hpod as [?|[?|Hp]]; [by left|by right; left|]. right. right. simpl. by rewrite Hp.
Qed.

Lemma cluster_answers_witness :
  ∃ s : system SimpleCache.t,
    run_history (λ _, 0%Z) (λ _, 0%Z) ex_opts ex_history (system_start ex_opts)
      = (Ret tt, s) ∧
    ∃ a, Records (with_controller (ex_kubernetes ex_snapshot podModeDisabled) (controller_of (sy_dns s)))
           (mkRequest "svc1.testns.svc.cluster.local." "svc1.testns.svc.cluster.local."
              TypeA "10.0.0.9" "cluster.local.") = Ret a ∧
      same_answer a ([mkMsg "10.0.0.3" 80 0 0 "" 5 "/c/local/cluster/svc/testns/svc1"], None).
Proof.
  destruct (cluster_answers (Store:=SimpleCache.t) (λ _, 0%Z) (λ _, 0%Z)
    (ex_kubernetes ex_snapshot podModeDisabled) ex_history
    (mkRequest "svc1.testns.svc.cluster.local." "svc1.testns.svc.cluster.local."
       TypeA "10.0.0.9" "cluster.local.") (mkRecordRequest "*" "*" "" "svc1" "testns" "svc"))
    as (s & Hs & a & Ha & Hsame).
  - apply well_formedb_spec. vm_compute. reflexivity.
  - apply namedb_spec. vm_compute. reflexivity.
  - reflexivity.
  - by left.
  - by left.
  - constructor; [by right|by split|by split|by left|done|done].
  - by split.
  - exists ["cluster"; "local"]. split; [done|]. split; [|done]. repeat constructor; done.
  - reflexivity.
  - by vm_compute.
  - exists s. split; [exact Hs|]. exists a. split; [exact Ha|].
    (* the namespaces do not depend on the controller *)
    exact Hsame.
Defined.

(** C24: the time of the last change follows the cluster. After any history, processing a batch of
    notices of services, pods or endpoints sets the time that [Modified] reports, the serial of the
    zone, to the clock's reading at the last notice that counts, and leaves it when none does. An
    object that was not there counts, as does one that is gone; an update counts when the resource
    version differs and, for endpoints, the addresses or ports that the answers are made of. *)
Theorem changes_dated {Store : Type} `{InformerLaws Store} time_Now now options es k ns
    (s : system Store) :
  (∀ e, e ∈ es → well_formed options e) →
  run_history time_Now now options es (system_start options) = (Ret tt, s) →
  well_formed options (Notices k ns) → wanted options k = true → k ≠ KNamespace →
  ∃ s', handle_event time_Now now options (Notices k ns) s = (Ret tt, s') ∧
    sy_reads s' = sy_reads s + counted (cluster_after es k) ns ∧
    Modified (controller_of (sy_dns s')) =
      match counted (cluster_after es k) ns with
      | O => Modified (controller_of (sy_dns s))
      | S n => now (sy_reads s + n)
      end.
Proof.
  intros Hwf Hrun Hns Hw Hk.
  destruct (history_mirrors time_Now now options es no_cluster (system_start options)
    Hwf (start_ok options) (start_mirrors options)) as (s1 & Hs1 & Hok & Hm).
  rewrite Hrun in Hs1. injection Hs1 as <-.
  destruct (handle_mirrors time_Now now options _ _ s Hns Hok Hm) as (s' & Hs' & _ & _).
  exists s'. split; [done|].
  pose proof (notices_clock time_Now now options _ k ns s Hns Hok Hm) as Hc.
  rewrite Hs', Hw, bool_decide_eq_true_2, batch_clock_counted in Hc by done. simpl in Hc.
  unfold cluster_after, clock_of in *. simpl in *.
  destruct (counted _ ns); injection Hc as Hc1 Hc2; split; [lia|done|lia|done].
Qed.

Lemma changes_dated_witness :
  let ns := [Put Updated (ex_api_service "svc1" "testns" "10.0.0.9");
             Gone (ex_api_service "svc1" "testns" "10.0.0.9")] in
  let run := run_history (λ _, 0%Z) Z.of_nat ex_opts ex_history
               (system_start (Store:=SimpleCache.t) ex_opts) in
  ∃ s', handle_event (λ _, 0%Z) Z.of_nat ex_opts (Notices KService ns) run.2 = (Ret tt, s') ∧
    Modified (controller_of (sy_dns s')) = Z.of_nat (sy_reads run.2).
Proof.
  intros ns run.
  destruct (changes_dated (Store:=SimpleCache.t) (λ _, 0%Z) Z.of_nat ex_opts ex_history
    KService ns run.2) as (s' & Hs & _ & Hm).
  - apply well_formedb_spec. vm_compute. reflexivity.
  - vm_compute. reflexivity.
  - apply (well_formedb_spec ex_opts [Notices KService ns]); [vm_compute; reflexivity|by left].
  - reflexivity.
  - discriminate.
  - exists s'. split; [exact Hs|]. rewrite Hm. vm_compute. reflexivity.
Defined.
