(* ===== verification/Startup.v ===== *)
(** The hook that waits for the caches when the server starts (setup.go), run together with the
    informers of Cluster.v, whose lists it waits for. *)
From stdpp Require Import prelude strings gmap sets list.
From S2P Require Import Prelude GoStd Object Cache Informer Controller Metrics Records Cluster.

(** * The start of the server *)

(** What wakes the hook of [RegisterKubeCache] that runs when the server starts: the ticker, every 100
    milliseconds, and the timeout, after 5 seconds; and what its informers, which [Run] started in a
    goroutine of their own, are told between. *)
Inductive wake : Type := Tick | Timeout.
Inductive occurrence : Type := Watch (e : event) | Wake (w : wake).

Section Startup.
Context {Store : Type} `{InformerLaws Store}.
Variable time_Now : nat → Time.
Variable now : nat → Z.
Variable options : dnsControlOpts.

(** The hook: what is left when it returns, and None when it has not returned. *)
Fixpoint startup_hook (os : list occurrence) : GoM (system Store) (option (list occurrence)) :=
  match os with
  | [] => mret None
  | Watch e :: os => _ ← handle_event time_Now now options e; startup_hook os
  | Wake Tick :: os =>
      synced ← gets (λ s, ctl_HasSynced (sy_dns s));
      if (synced : bool) then mret (Some os) else startup_hook os
  | Wake Timeout :: os => mret (Some os)
  end.

Definition events_of (os : list occurrence) : list event :=
  omap (λ o, match o with Watch e => Some e | Wake _ => None end) os.

(** Every informer [Run] starts has delivered its first list. *)
Definition all_listed (es : list event) : bool :=
  forallb (λ k, listed_in k es) (ctl_Run (newdnsController (Store:=Store) options)).

(** Whether a wake after these occurrences ends the hook. *)
Definition ends (pre : list occurrence) (w : wake) : bool :=
  match w with Timeout => true | Tick => all_listed (events_of pre) end.

(** None of the wakes ends it. *)
Definition still_waiting (os : list occurrence) : Prop :=
  ∀ pre w post, os = pre ++ Wake w :: post → ends pre w = false.
End Startup.

Section StartupFacts.
Context {Store : Type} `{InformerLaws Store}.
Variable time_Now : nat → Time.
Variable now : nat → Z.
Variable options : dnsControlOpts.
Abbreviation run es := (run_history time_Now now options es (system_start (Store:=Store) options)).
Abbreviation waiting := (still_waiting (Store:=Store) options).
Abbreviation wake_ends := (ends (Store:=Store) options).

Lemma waiting_nil : waiting [].
Proof. by intros [] w post. Qed.

Lemma waiting_watch pre e : waiting pre → waiting (pre ++ [Watch e]).
Proof.
  intros Hw pre' w post Heq. destruct post as [|o post] using rev_ind.
  - by apply app_inj_tail in Heq as [_ ?].
  - rewrite app_comm_cons, app_assoc in Heq. apply app_inj_tail in Heq as [-> _]. by eapply Hw.
Qed.

Lemma waiting_wake pre w : waiting pre → wake_ends pre w = false → waiting (pre ++ [Wake w]).
Proof.
  intros Hw He pre' w' post Heq. destruct post as [|o post] using rev_ind.
  - by apply app_inj_tail in Heq as [-> [= ->]].
  - rewrite app_comm_cons, app_assoc in Heq. apply app_inj_tail in Heq as [-> _]. by eapply Hw.
Qed.

Lemma events_of_app os os' : events_of (os ++ os') = events_of os ++ events_of os'.
Proof. apply omap_app. Qed.

Lemma run_app es e s s' :
  run es = (Ret tt, s) → handle_event time_Now now options e s = (Ret tt, s') →
  run (es ++ [e]) = (Ret tt, s').
Proof.
  intros Hes He. unfold run_history. rewrite go_for_app. rewrite (gom_bind_ret _ _ _ _ _ Hes).
  cbn [go_for]. by rewrite (gom_bind_ret _ _ _ _ _ He).
Qed.

(** The hook from a point on: what came before was processed and did not end it. *)
Lemma startup_run os pre s :
  (∀ e, e ∈ events_of (pre ++ os) → well_formed options e) → run (events_of pre) = (Ret tt, s) →
  waiting pre →
  ∃ r s', startup_hook time_Now now options os s = (Ret r, s') ∧
    match r with
    | Some rest => ∃ os' w, pre ++ os = os' ++ Wake w :: rest ∧ wake_ends os' w = true ∧ waiting os' ∧
        run (events_of os') = (Ret tt, s')
    | None => waiting (pre ++ os) ∧ run (events_of (pre ++ os)) = (Ret tt, s')
    end.
Proof.
  revert pre s. induction os as [|[e|w] os IH]; intros pre s Hwf Hrun Hw; cbn [startup_hook].
  - exists None, s. by rewrite app_nil_r.
  - rewrite cons_middle, app_assoc in Hwf |- *.
    destruct (history_mirrors time_Now now options (events_of pre) no_cluster (system_start options))
      as (s0 & Hs0 & Hok & Hm); [|apply start_ok|apply start_mirrors|].
    { intros e' He'. apply Hwf. rewrite !events_of_app. set_solver. }
    rewrite Hrun in Hs0. injection Hs0 as <-.
    edestruct (handle_mirrors time_Now now options) as (s1 & Hs1 & _); [|exact Hok|exact Hm|].
    { apply (Hwf e). rewrite !events_of_app. simpl. set_solver. }
    rewrite (gom_bind_ret _ _ _ _ _ Hs1). apply IH; [done| |by apply waiting_watch].
    rewrite events_of_app. by eapply run_app.
  - destruct (wake_ends pre w) eqn:Hends.
    + exists (Some os), s. split; [|by exists pre, w]. destruct w; [|done]. go_step.
      rewrite (history_synced time_Now now options _ _ Hrun). simpl in Hends. unfold all_listed in Hends.
      by rewrite Hends.
    + destruct w; [|done]. go_step. rewrite (history_synced time_Now now options _ _ Hrun).
      simpl in Hends. unfold all_listed in Hends. rewrite Hends.
      rewrite cons_middle, app_assoc in Hwf |- *. apply IH; [done| |by apply waiting_wake].
      by rewrite events_of_app, app_nil_r.
Qed.
End StartupFacts.

(** * Properties *)

(** C12: the hook returns, and when. Run the hook of [RegisterKubeCache] while the informers process any
    well-formed history, the wakes of its ticker and its timeout between the events in any way. No
    processor fails. The hook returns at the first wake that is the timeout or a tick after every
    informer [Run] starts has delivered its first list, and at no wake before; if there is such a
    wake, it has returned. The controller then answers over exactly the cluster of the events until
    then; so after a tick, the plugin serves with the complete first lists. *)
Theorem startup_returns {Store : Type} `{InformerLaws Store} time_Now now options os :
  (∀ e, e ∈ events_of os → well_formed options e) →
  ∃ r (s : system Store), startup_hook time_Now now options os (system_start options) = (Ret r, s) ∧
    match r with
    | Some rest => ∃ pre w, os = pre ++ Wake w :: rest ∧ ends (Store:=Store) options pre w = true ∧
        still_waiting (Store:=Store) options pre ∧
        run_history time_Now now options (events_of pre) (system_start options) = (Ret tt, s) ∧
        Implements (controller_of (sy_dns s)) (cluster_snapshot options (cluster_after (events_of pre))) ∧
        (w = Tick → HasSynced (controller_of (sy_dns s)) = true)
    | None => still_waiting (Store:=Store) options os
    end.
Proof.
  intros Hwf.
  destruct (startup_run time_Now now options os [] (system_start options)) as (r & s & Hs & Hr);
    [done|done|apply waiting_nil|].
  exists r, s. split; [done|]. destruct r as [rest|]; [|by destruct Hr].
  destruct Hr as (pre & w & Hos & He & Hw & Hrun). simpl in Hos. subst os. exists pre, w.
  split_and!; [done..| |].
  - destruct (history_implements time_Now now options (events_of pre)) as (s0 & Hs0 & Hi).
    { intros e Hin. apply Hwf. rewrite events_of_app. set_solver. }
    rewrite Hrun in Hs0. by injection Hs0 as <-.
  - intros ->. simpl. by rewrite (history_synced time_Now now options _ _ Hrun).
Qed.

Definition ex_occurrences : list occurrence :=
  Wake Tick :: (Watch <$> take 7 ex_history) ++ Wake Tick :: (Watch <$> drop 7 ex_history) ++
  [Wake Tick; Wake Timeout].

Lemma startup_returns_witness :
  ∃ s : system SimpleCache.t,
    startup_hook (λ _, 0%Z) (λ _, 0%Z) ex_opts ex_occurrences (system_start ex_opts)
      = (Ret (Some [Wake Timeout]), s) ∧
    Implements (controller_of (sy_dns s)) (cluster_snapshot ex_opts (cluster_after ex_history)).
Proof.
  destruct (startup_returns (Store:=SimpleCache.t) (λ _, 0%Z) (λ _, 0%Z) ex_opts ex_occurrences)
    as (r & s & Hs & Hr).
  - apply well_formedb_spec. vm_compute. reflexivity.
  - exists s.
    assert (Hrest : (startup_hook (λ _, 0%Z) (λ _, 0%Z) ex_opts ex_occurrences
      (system_start (Store:=SimpleCache.t) ex_opts)).1 = Ret (Some [Wake Timeout])) by (vm_compute; reflexivity).
    rewrite Hs in Hrest. injection Hrest as ->. split; [exact Hs|].
    destruct Hr as (pre & w & Hos & _ & _ & _ & Hi & _).
    assert (Hpre : pre = take 10 ex_occurrences).
    { change ex_occurrences with (take 10 ex_occurrences ++ [Wake Tick; Wake Timeout]) in Hos at 1.
      assert (Hlen : pre ++ [Wake w; Wake Timeout] = take 10 ex_occurrences ++ [Wake Tick; Wake Timeout])
        by done.
      apply app_inj_2 in Hlen as [Hlen _]; done. }
    subst pre. exact Hi.
Defined.
