(* ===== verification/ChaosLock.v ===== *)
(** Who may touch the maps of the chaos at the same time (the calls of Lock, RLock and their inverses
    in chaos.go and grpc_server.go).

    The gRPC server and the DNS server run the calls concurrently. A call is the sequence of what it
    does to its lock and to the maps; the calls run as threads, one action at a time in any order,
    and a lock blocks as [sync.RWMutex] says. The lock is a field of the struct [Kubernetes], and
    [SetDNSChaos], [CancelDNSChaos] and [getChaosPod] have that struct, not a pointer to it, as
    receiver: every call locks a copy of its own. [lock_of] says which lock a thread locks. *)
From stdpp Require Import prelude list relations.
From S2P Require Import Prelude.

Inductive act : Type := ALock | AUnlock | ARLock | ARUnlock | ARead | AWrite.

(** What each call does: [SetDNSChaos] and [CancelDNSChaos] work on the maps under the lock; a query
    reads them under the read lock and, when the pod has moved, writes them under the lock. *)
Definition set_acts : list act := [ALock; AWrite; AUnlock].
Definition cancel_acts : list act := [ALock; ARead; AWrite; AUnlock].
Definition query_acts (moved : bool) : list act :=
  [ARLock; ARead; ARUnlock] ++ if moved then [ALock; AWrite; AUnlock] else [].

(** What a thread holds. *)
Inductive mode : Type := MNone | MRead | MWrite.
#[export] Instance mode_eq_dec : EqDecision mode.
Proof. solve_decision. Defined.

Record mutex := mkMutex { writer : bool; readers : nat }.
Definition free : mutex := mkMutex false 0.

Record thread := mkThread { t_mode : mode; t_acts : list act }.

Record config := mkConfig { locks : nat → mutex; threads : list thread }.

Definition set_lock (n : nat) (m : mutex) (f : nat → mutex) : nat → mutex :=
  λ x, if decide (x = n) then m else f x.

Section Locks.
(** Which lock a thread's call locks. *)
Variable lock_of : nat → nat.

(** Thread [i] does its next action; [Lock] waits until nobody holds the lock, [RLock] until
    nobody holds it for writing. *)
Inductive lock_step : config → config → Prop :=
| do_lock c i r :
    threads c !! i = Some (mkThread MNone (ALock :: r)) → locks c (lock_of i) = free →
    lock_step c (mkConfig (set_lock (lock_of i) (mkMutex true 0) (locks c))
                   (<[i := mkThread MWrite r]> (threads c)))
| do_unlock c i r n :
    threads c !! i = Some (mkThread MWrite (AUnlock :: r)) → locks c (lock_of i) = mkMutex true n →
    lock_step c (mkConfig (set_lock (lock_of i) (mkMutex false n) (locks c))
                   (<[i := mkThread MNone r]> (threads c)))
| do_rlock c i r n :
    threads c !! i = Some (mkThread MNone (ARLock :: r)) → locks c (lock_of i) = mkMutex false n →
    lock_step c (mkConfig (set_lock (lock_of i) (mkMutex false (S n)) (locks c))
                   (<[i := mkThread MRead r]> (threads c)))
| do_runlock c i r b n :
    threads c !! i = Some (mkThread MRead (ARUnlock :: r)) →
    locks c (lock_of i) = mkMutex b (S n) →
    lock_step c (mkConfig (set_lock (lock_of i) (mkMutex b n) (locks c))
                   (<[i := mkThread MNone r]> (threads c)))
| do_access c i m a r :
    threads c !! i = Some (mkThread m (a :: r)) → a = ARead ∨ a = AWrite →
    lock_step c (mkConfig (locks c) (<[i := mkThread m r]> (threads c))).

(** The calls at their start. *)
Definition started (calls : list (list act)) : config :=
  mkConfig (λ _, free) (mkThread MNone <$> calls).

(** Two threads about to touch the maps, one of them to write: a data race. *)
Definition race (c : config) : Prop :=
  ∃ i j mi mj ri rj a, i ≠ j ∧ threads c !! i = Some (mkThread mi (AWrite :: ri)) ∧
    threads c !! j = Some (mkThread mj (a :: rj)) ∧ (a = AWrite ∨ a = ARead).
End Locks.

(** One lock for all calls, and the copy each call has. *)
Definition shared_lock (_ : nat) : nat := 0.
Definition copied_lock (i : nat) : nat := i.

(** A call that only touches the maps while it holds the lock as it needs. *)
Fixpoint disciplined (m : mode) (l : list act) : bool :=
  match l with
  | [] => bool_decide (m = MNone)
  | ALock :: r => bool_decide (m = MNone) && disciplined MWrite r
  | AUnlock :: r => bool_decide (m = MWrite) && disciplined MNone r
  | ARLock :: r => bool_decide (m = MNone) && disciplined MRead r
  | ARUnlock :: r => bool_decide (m = MRead) && disciplined MNone r
  | ARead :: r => bool_decide (m ≠ MNone) && disciplined m r
  | AWrite :: r => bool_decide (m = MWrite) && disciplined m r
  end.

(** The calls the plugin makes. *)
Definition plugin_calls (calls : list (list act)) : Prop :=
  ∀ l, l ∈ calls → l ∈ [set_acts; cancel_acts; query_acts false; query_acts true].

(** The actions that are left. *)
Definition acts_left (ts : list thread) : nat := foldr (λ t n, length (t_acts t) + n) 0 ts.
Definition remaining (c : config) : nat := acts_left (threads c).

(** Nothing is left to do, and nothing is held. *)
Definition finished (c : config) : Prop := ∀ i t, threads c !! i = Some t → t = mkThread MNone [].

(** * Facts *)

Definition count (m : mode) (ts : list thread) : nat := length (filter (λ t, t_mode t = m) ts).

Lemma count_insert m ts i t t' :
  ts !! i = Some t →
  count m (<[i := t']> ts) + (if decide (t_mode t = m) then 1 else 0) =
  count m ts + (if decide (t_mode t' = m) then 1 else 0).
Proof.
  revert i. induction ts as [|x ts IH]; intros [|i] Hi; simpl in Hi; [done|done| |].
  - injection Hi as ->. unfold count. simpl. rewrite !filter_cons.
    repeat case_decide; simpl; lia.
  - specialize (IH i Hi). unfold count in *. simpl. rewrite !filter_cons.
    destruct (decide (t_mode x = m)); simpl; lia.
Qed.

Lemma count_lookup m ts i t : ts !! i = Some t → t_mode t = m → 1 ≤ count m ts.
Proof.
  intros Hi Hm. unfold count.
  assert (Hin : t ∈ filter (λ t, t_mode t = m) ts)
    by (apply list_elem_of_filter; split; [done|by eapply list_elem_of_lookup_2]).
  destruct (filter _ ts); [by apply not_elem_of_nil in Hin|simpl; lia].
Qed.

(** Two threads in the same mode count twice. *)
Lemma count_two m ts i j t t' :
  i ≠ j → ts !! i = Some t → ts !! j = Some t' → t_mode t = m → t_mode t' = m → 2 ≤ count m ts.
Proof.
  intros Hij Hi Hj Hm Hm'.
  assert (Ho : ∃ o, o ≠ m) by (destruct m; [exists MRead|exists MNone|exists MNone]; done).
  destruct Ho as [o Ho]. pose proof (count_insert m ts i t (mkThread o []) Hi) as Hc. simpl in Hc.
  rewrite (decide_True (P:=t_mode t = m)), (decide_False (P:=o = m)) in Hc by done.
  pose proof (count_lookup m (<[i := mkThread o []]> ts) j t') as Hl.
  rewrite list_lookup_insert_ne in Hl by done. specialize (Hl Hj Hm'). lia.
Qed.

(** With one lock: it knows how many threads hold it, and every thread is disciplined. *)
Record locked (c : config) : Prop := {
  lk_writer : count MWrite (threads c) = Nat.b2n (writer (locks c 0));
  lk_readers : count MRead (threads c) = readers (locks c 0);
  lk_excl : writer (locks c 0) = true → readers (locks c 0) = 0;
  lk_disc i t : threads c !! i = Some t → disciplined (t_mode t) (t_acts t) = true;
}.

Lemma disc_insert c i t :
  (∀ i t, threads c !! i = Some t → disciplined (t_mode t) (t_acts t) = true) →
  disciplined (t_mode t) (t_acts t) = true →
  ∀ j t', <[i := t]> (threads c) !! j = Some t' → disciplined (t_mode t') (t_acts t') = true.
Proof.
  intros Hd Ht j t' Hj. destruct (decide (i = j)) as [<-|Hne].
  - apply list_lookup_insert_Some in Hj as [(_ & -> & _)|(? & _)]; done.
  - rewrite list_lookup_insert_ne in Hj by done. by eapply Hd.
Qed.

Lemma locked_step c c' : locked c → lock_step shared_lock c c' → locked c'.
Proof.
  intros [Hw Hr Hx Hd] Hs.
  destruct Hs as [c i r Hi Hl|c i r n Hi Hl|c i r n Hi Hl|c i r b n Hi Hl|c i m a r Hi Ha];
    pose proof (Hd _ _ Hi) as Hdi; simpl in Hdi;
    pose proof (λ t', count_insert MWrite _ _ _ t' Hi) as Hcw;
    pose proof (λ t', count_insert MRead _ _ _ t' Hi) as Hcr; simpl in Hcw, Hcr;
    unfold shared_lock in *; try rewrite Hl in *; simpl in *.
  - specialize (Hcw (mkThread MWrite r)). specialize (Hcr (mkThread MWrite r)). simpl in *.
    constructor; simpl; [lia|lia|done|]. by apply disc_insert.
  - specialize (Hcw (mkThread MNone r)). specialize (Hcr (mkThread MNone r)). simpl in *.
    constructor; simpl; [lia|lia|done|]. by apply disc_insert.
  - specialize (Hcw (mkThread MRead r)). specialize (Hcr (mkThread MRead r)). simpl in *.
    constructor; simpl; [lia|lia|done|]. by apply disc_insert.
  - specialize (Hcw (mkThread MNone r)). specialize (Hcr (mkThread MNone r)). simpl in *.
    constructor; simpl; [lia|lia|intros Hb; specialize (Hx Hb); lia|]. by apply disc_insert.
  - specialize (Hcw (mkThread m r)). specialize (Hcr (mkThread m r)). simpl in *.
    constructor; simpl; [lia|lia|done|]. apply disc_insert; [done|]. simpl.
    destruct Ha as [-> | ->]; by apply andb_true_iff in Hdi as [_ ?].
Qed.

Lemma locked_started calls :
  (∀ l, l ∈ calls → disciplined MNone l = true) → locked (started calls).
Proof.
  intros Hd.
  assert (Hc : ∀ m, m ≠ MNone → count m (mkThread MNone <$> calls) = 0).
  { intros m Hm. unfold count. clear Hd. induction calls as [|l calls IH]; [done|].
    rewrite fmap_cons, filter_cons. simpl. rewrite decide_False by congruence. exact IH. }
  constructor; simpl; [by apply Hc|by apply Hc|done|].
  intros i t Hi. rewrite list_lookup_fmap in Hi. destruct (calls !! i) as [l|] eqn:Hl; [|done].
  injection Hi as <-. apply Hd. by eapply list_elem_of_lookup_2.
Qed.

Lemma locked_no_race c : locked c → ¬ race c.
Proof.
  intros [Hw Hr Hx Hd] (i & j & mi & mj & ri & rj & a & Hij & Hi & Hj & Ha).
  pose proof (Hd _ _ Hi) as Hdi. pose proof (Hd _ _ Hj) as Hdj. simpl in *.
  apply andb_true_iff in Hdi as [->%bool_decide_eq_true _].
  pose proof (count_lookup MWrite _ _ _ Hi eq_refl) as H1.
  assert (Hwr : writer (locks c 0) = true) by (destruct (writer (locks c 0)); simpl in Hw; [done|lia]).
  specialize (Hx Hwr). rewrite Hwr in Hw. simpl in Hw.
  destruct mj.
  - destruct Ha as [-> | ->]; discriminate Hdj.
  - pose proof (count_lookup MRead _ _ _ Hj eq_refl). lia.
  - pose proof (count_two MWrite _ _ _ _ _ Hij Hi Hj eq_refl eq_refl). lia.
Qed.

(** * Progress *)

Lemma remaining_insert ts i m a r m' :
  ts !! i = Some (mkThread m (a :: r)) →
  acts_left ts = S (acts_left (<[i := mkThread m' r]> ts)).
Proof.
  revert i. induction ts as [|t ts IH]; intros [|i] Hi; simpl in Hi; try done.
  - injection Hi as ->. done.
  - simpl. rewrite (IH i Hi). lia.
Qed.

Lemma step_remaining lock_of c c' : lock_step lock_of c c' → remaining c = S (remaining c').
Proof. intros []; unfold remaining; simpl; eapply remaining_insert; eassumption. Qed.

Lemma lock_step_sn lock_of c : sn (lock_step lock_of) c.
Proof.
  assert (Hn : ∀ n c, remaining c < n → sn (lock_step lock_of) c);
    [|apply (Hn (S (remaining c))); lia].
  induction n as [|n IH]; intros c0 Hc; [lia|]. constructor. intros c' Hs. apply IH.
  apply step_remaining in Hs. lia.
Qed.

(** The thread that holds a lock can go on: it does not wait for anything. *)
Lemma holder_steps c i t :
  locked c → threads c !! i = Some t → t_mode t ≠ MNone → ∃ c', lock_step shared_lock c c'.
Proof.
  intros [Hw Hr Hx Hd] Hi Hm. pose proof (Hd i t Hi) as Hdi. destruct t as [m acts]. simpl in *.
  destruct acts as [|a r]; [by apply bool_decide_eq_true in Hdi|]. simpl in Hdi.
  pose proof (count_lookup m _ _ _ Hi eq_refl) as Hc. destruct (locks c 0) as [w n] eqn:Hl. simpl in *.
  destruct a; apply andb_true_iff in Hdi as [Ha%bool_decide_eq_true _]; try done; subst.
  - destruct w; simpl in Hw; [|lia]. eexists. by eapply do_unlock.
  - destruct (count MRead (threads c)) as [|n'] eqn:Hn; [lia|]. eexists.
    by eapply (do_runlock _ _ _ _ w n').
  - eexists. eapply do_access; [done|by left].
  - eexists. eapply do_access; [done|by right].
Qed.

Lemma count_holder m ts : count m ts ≠ 0 → ∃ i t, ts !! i = Some t ∧ t_mode t = m.
Proof.
  unfold count. destruct (filter _ ts) as [|t l] eqn:Hf; [done|]. intros _.
  assert (Ht : t ∈ filter (λ t, t_mode t = m) ts) by (rewrite Hf; by left).
  apply list_elem_of_filter in Ht as [Hm Hin]. apply list_elem_of_lookup_1 in Hin as [i Hi]. eauto.
Qed.

(** When nobody holds it, the lock is free. *)
Lemma nobody_holds c :
  locked c → (∀ i t, threads c !! i = Some t → t_mode t = MNone) → locks c 0 = free.
Proof.
  intros [Hw Hr _ _] Hno.
  assert (H0 : ∀ m, m ≠ MNone → count m (threads c) = 0).
  { intros m Hm. destruct (decide (count m (threads c) = 0)) as [|(i & t & Hi & Ht)%count_holder]; [done|].
    specialize (Hno i t Hi). congruence. }
  destruct (locks c 0) as [[] n]; simpl in *; rewrite (H0 MWrite) in Hw by done; [done|].
  by rewrite <- Hr, H0.
Qed.

(** No deadlock: as long as a call is not finished, one of the calls can go on. *)
Lemma shared_progress c i m a r :
  locked c → threads c !! i = Some (mkThread m (a :: r)) → ∃ c', lock_step shared_lock c c'.
Proof.
  intros Hc Hi.
  destruct (decide (Exists (λ t, t_mode t ≠ MNone) (threads c))) as [(t & Hin & Ht)%Exists_exists|Hno].
  - apply list_elem_of_lookup_1 in Hin as [j Hj]. by eapply holder_steps.
  - rewrite <- Forall_Exists_neg in Hno. rewrite Forall_lookup in Hno.
    assert (Hall : ∀ j t, threads c !! j = Some t → t_mode t = MNone).
    { intros j t Hj. specialize (Hno j t Hj). by destruct (decide (t_mode t = MNone)). }
    pose proof (nobody_holds c Hc Hall) as Hfree. pose proof (Hall i _ Hi) as Hm. simpl in Hm. subst m.
    pose proof (lk_disc c Hc i _ Hi) as Hd. simpl in Hd.
    destruct a; try discriminate Hd.
    + eexists. by eapply do_lock.
    + eexists. by eapply (do_rlock _ _ _ _ 0).
Qed.

(** With a lock of its own, a call's lock is as the call left it. *)
Definition own_mutex (m : mode) : mutex :=
  match m with MNone => free | MRead => mkMutex false 1 | MWrite => mkMutex true 0 end.
Record owned (c : config) : Prop := {
  ow_lock i t : threads c !! i = Some t → locks c i = own_mutex (t_mode t);
  ow_disc i t : threads c !! i = Some t → disciplined (t_mode t) (t_acts t) = true;
}.

Lemma owned_update c i m r mu :
  owned c → mu = own_mutex m → disciplined m r = true →
  owned (mkConfig (set_lock i mu (locks c)) (<[i := mkThread m r]> (threads c))).
Proof.
  intros [Hl Hd] -> Hr. constructor; simpl.
  - intros j t Hj. unfold set_lock. case_decide as He.
    + subst j. apply list_lookup_insert_Some in Hj as [(_ & <- & _)|[? _]]; done.
    + rewrite list_lookup_insert_ne in Hj by done. by apply Hl.
  - by apply disc_insert.
Qed.

Lemma owned_access c i m a r :
  owned c → threads c !! i = Some (mkThread m (a :: r)) → disciplined m r = true →
  owned (mkConfig (locks c) (<[i := mkThread m r]> (threads c))).
Proof.
  intros [Hl Hd] Hi Hr. constructor; simpl.
  - intros j t Hj. apply list_lookup_insert_Some in Hj as [(<- & <- & _)|[_ Hj]]; [|by apply Hl].
    by rewrite (Hl i _ Hi).
  - by apply disc_insert.
Qed.

Lemma owned_step c c' : owned c → lock_step copied_lock c c' → owned c'.
Proof.
  intros Ho Hs. destruct Hs as [c i r Hi Hl|c i r n Hi Hl|c i r n Hi Hl|c i r b n Hi Hl|c i m a r Hi Ha];
    pose proof (ow_disc c Ho i _ Hi) as Hdi; pose proof (ow_lock c Ho i _ Hi) as Hli;
    simpl in Hdi, Hli; unfold copied_lock, free in *; try rewrite Hl in Hli; simplify_eq/=.
  1-4: by apply owned_update.
  eapply owned_access; [done..|]. destruct Ha as [-> | ->]; by apply andb_true_iff in Hdi as [_ ?].
Qed.

Lemma started_lookup calls i t :
  threads (started calls) !! i = Some t → ∃ l, l ∈ calls ∧ t = mkThread MNone l.
Proof.
  simpl. rewrite list_lookup_fmap. destruct (calls !! i) as [l|] eqn:Hl; [|done].
  intros [= <-]. exists l. split; [by eapply list_elem_of_lookup_2|done].
Qed.

Lemma owned_started calls :
  (∀ l, l ∈ calls → disciplined MNone l = true) → owned (started calls).
Proof.
  intros Hd. constructor; intros i t (l & Hl & ->)%started_lookup; [done|by apply Hd].
Qed.

(** Nobody waits for anybody. *)
Lemma owned_steps c i m a r :
  owned c → threads c !! i = Some (mkThread m (a :: r)) →
  ∃ c' m', lock_step copied_lock c c' ∧ threads c' = <[i := mkThread m' r]> (threads c).
Proof.
  intros Ho Hi. pose proof (ow_disc c Ho i _ Hi) as Hd. pose proof (ow_lock c Ho i _ Hi) as Hl.
  simpl in *. destruct a; try (apply andb_true_iff in Hd as [Hm%bool_decide_eq_true _]); subst;
    do 2 eexists.
  - split; [by eapply do_lock|done].
  - split; [by eapply do_unlock|done].
  - split; [by eapply do_rlock|done].
  - split; [by eapply do_runlock|done].
  - split; [eapply do_access; [done|by left]|done].
  - split; [eapply do_access; [done|by right]|done].
Qed.

Lemma plugin_disciplined calls :
  plugin_calls calls → ∀ l, l ∈ calls → disciplined MNone l = true.
Proof.
  intros Hcalls l Hl%Hcalls.
  repeat (apply elem_of_cons in Hl as [->|Hl]; [reflexivity|]). by apply not_elem_of_nil in Hl.
Qed.

(** Steps that keep an invariant under which an unfinished configuration can go on: every run ends
    with all calls finished. *)
Section Finishing.
Variable lock_of : nat → nat.
Variable I : config → Prop.
Hypothesis Hstep : ∀ c c', I c → lock_step lock_of c c' → I c'.
Hypothesis Hgo : ∀ c i m a r, I c → threads c !! i = Some (mkThread m (a :: r)) →
  ∃ c', lock_step lock_of c c'.
Hypothesis Hdone : ∀ c i m, I c → threads c !! i = Some (mkThread m []) → m = MNone.

Lemma invariant_reachable c c' : I c → rtc (lock_step lock_of) c c' → I c'.
Proof. intros Hc Hr. induction Hr as [|c1 c2 c3 Hs _ IH]; [done|]. apply IH. by eapply Hstep. Qed.

Lemma finished_or_steps c : I c → finished c ∨ ∃ c', lock_step lock_of c c'.
Proof.
  intros Hc. destruct (decide (Exists (λ t, t_acts t ≠ []) (threads c))) as [He|Hno].
  - apply Exists_exists in He as ([m acts] & [i Hi]%list_elem_of_lookup_1 & Ha). right.
    destruct acts as [|a r]; [done|]. by eapply Hgo.
  - left. rewrite <- Forall_Exists_neg in Hno. rewrite Forall_lookup in Hno.
    intros i [m [|a r]] Hi; [by rewrite (Hdone c i m)|]. by destruct (Hno i _ Hi).
Qed.

Lemma nf_finished c : I c → nf (lock_step lock_of) c → finished c.
Proof. intros Hc Hnf. by destruct (finished_or_steps c Hc). Qed.

Lemma run_to_end c : I c → ∃ c', rtc (lock_step lock_of) c c' ∧ finished c'.
Proof.
  intros Hc. pose proof (lock_step_sn lock_of c) as Hsn. revert Hc.
  induction Hsn as [c _ IH]. intros Hc. destruct (finished_or_steps c Hc) as [Hf|[c1 Hs]].
  - exists c. by split; [apply rtc_refl|].
  - destruct (IH c1 Hs) as (c' & Hr & Hf); [by eapply Hstep|]. exists c'. split; [by eapply rtc_l|done].
Qed.
End Finishing.

Lemma locked_done c i m : locked c → threads c !! i = Some (mkThread m []) → m = MNone.
Proof. intros Hc Hi. pose proof (lk_disc c Hc i _ Hi) as Hd. by apply bool_decide_eq_true in Hd. Qed.

Lemma owned_done c i m : owned c → threads c !! i = Some (mkThread m []) → m = MNone.
Proof. intros Hc Hi. pose proof (ow_disc c Hc i _ Hi) as Hd. by apply bool_decide_eq_true in Hd. Qed.

Lemma owned_progress c i m a r :
  owned c → threads c !! i = Some (mkThread m (a :: r)) → ∃ c', lock_step copied_lock c c'.
Proof. intros Hc Hi. destruct (owned_steps c i m a r Hc Hi) as (c' & _ & Hs & _). by exists c'. Qed.

(** * Properties *)

(** C19: the lock would be enough, and a copy of it is not. If the calls shared one lock, no data race
    on the maps could be reached from any number of calls to set, to cancel and of queries. *)
Theorem shared_lock_no_race (calls : list (list act)) (c : config) :
  plugin_calls calls →
  rtc (lock_step shared_lock) (started calls) c → ¬ race c.
Proof.
  intros Hcalls Hr. apply locked_no_race. eapply (invariant_reachable _ _ locked_step); [|exact Hr].
  by apply locked_started, plugin_disciplined.
Qed.

Lemma shared_lock_no_race_witness : ¬ race (started [set_acts; query_acts true]).
Proof.
  apply (shared_lock_no_race [set_acts; query_acts true]); [|apply rtc_refl].
  intros l Hl. apply elem_of_cons in Hl as [->|Hl]; [left|].
  apply list_elem_of_singleton in Hl as ->. do 3 right. left.
Defined.

(** C20: the calls as they are race. With the copy of the lock that every call has, because its receiver
    is a struct and not a pointer, a request to set chaos and a query from a pod both reach their
    access of the maps at once, and so do a request to set and one to cancel. *)
Theorem copied_lock_races :
  (∃ c, rtc (lock_step copied_lock) (started [set_acts; query_acts false]) c ∧ race c) ∧
  (∃ c, rtc (lock_step copied_lock) (started [set_acts; cancel_acts]) c ∧ race c).
Proof.
  split; eexists.
  - split.
    + eapply rtc_l; [by apply (do_lock _ _ 0)|]. eapply rtc_l; [by apply (do_rlock _ _ 1)|].
      apply rtc_refl.
    + exists 0, 1. do 5 eexists. split; [done|]. split; [reflexivity|]. split; [reflexivity|by right].
  - split.
    + eapply rtc_l; [by apply (do_lock _ _ 0)|]. eapply rtc_l; [by apply (do_lock _ _ 1)|].
      apply rtc_refl.
    + exists 0, 1. do 5 eexists. split; [done|]. split; [reflexivity|]. split; [reflexivity|by right].
Qed.

(** C21: no deadlock. Let any number of calls to set and to cancel and of queries run, all on one lock
    or each on its own copy. From every configuration they can reach the calls can all be finished,
    with nothing held, and every run that cannot go on has finished them: whatever the order, no call
    waits forever for a lock. *)
Theorem calls_finish lock_of (calls : list (list act)) (c : config) :
  plugin_calls calls → lock_of = shared_lock ∨ lock_of = copied_lock →
  rtc (lock_step lock_of) (started calls) c →
  (∃ c', rtc (lock_step lock_of) c c' ∧ finished c') ∧
  ∀ c', rtc (lock_step lock_of) c c' → nf (lock_step lock_of) c' → finished c'.
Proof.
  intros Hd [-> | ->] Hr; pose proof (plugin_disciplined _ Hd) as Hdis.
  - pose proof (invariant_reachable _ _ locked_step _ _ (locked_started _ Hdis) Hr) as Hc. split.
    + by apply (run_to_end _ _ locked_step shared_progress locked_done).
    + intros c' Hr'. apply (nf_finished _ _ shared_progress locked_done).
      by eapply (invariant_reachable _ _ locked_step).
  - pose proof (invariant_reachable _ _ owned_step _ _ (owned_started _ Hdis) Hr) as Hc. split.
    + by apply (run_to_end _ _ owned_step owned_progress owned_done).
    + intros c' Hr'. apply (nf_finished _ _ owned_progress owned_done).
      by eapply (invariant_reachable _ _ owned_step).
Qed.

Lemma calls_finish_witness :
  ∃ c, rtc (lock_step shared_lock) (started [set_acts; cancel_acts; query_acts true]) c ∧ finished c.
Proof.
  apply (calls_finish shared_lock [set_acts; cancel_acts; query_acts true]
    (started [set_acts; cancel_acts; query_acts true])).
  - intros l Hl. apply elem_of_cons in Hl as [->|Hl]; [left|].
    apply elem_of_cons in Hl as [->|Hl]; [right; left|].
    apply list_elem_of_singleton in Hl as ->. do 3 right. left.
  - by left.
  - apply rtc_refl.
Defined.
