(* ===== verification/ChaosPool.v ===== *)
(** The calls of the chaos running at the same time (chaos.go, grpc_server.go), if their lock were
    one lock. It is not: [SetDNSChaos], [CancelDNSChaos] and [getChaosPod] have a struct as receiver,
    so each call locks a copy, which excludes nothing ([ChaosLock.copied_lock_races]). This file is
    about the calls as they would run with the one lock they are written for, and assumes
    throughout that a part that holds the lock is not interrupted.

    A call is cut at its lock operations. [SetDNSChaos] and [CancelDNSChaos] hold the lock from their
    first statement to their return: each is one section. [getChaosPod] is up to four: the look up
    under the read lock; the question to the cluster; the comparison of the address; the update under
    the lock. Between two sections of a call any number of sections of other calls may run. The parts
    of [getChaosPod] that hold no lock are steps too, and the comparison reads the address of an entry
    that another query may be writing: with one lock that would still be a data race
    ([unlocked_read_races]), of which the model has the two orders and not a torn read. *)
From stdpp Require Import prelude strings gmap sets list relations pretty.
From S2P Require Import Prelude GoStd Object Deps Chaos.

(** * Calls and their sections *)

(** The calls, and what they return. *)
Inductive call : Type :=
| KSet (req : SetDNSChaosRequest)
| KCancel (req : CancelDNSChaosRequest)
| KQuery (ip : string).

Inductive reply : Type :=
| ReplyDNS (r : DNSChaosResponse)
| ReplyPod (podInfo : option positive) (err : option go_error)
| ReplyAnswer (rcode : Z) (err : option go_error).

(** The lock a section holds. *)
Inductive region : Type := Unlocked | ReadLocked | WriteLocked.

(** What is left of a call: its outcome, or a section, which ends in the rest of the call. *)
#[warnings="-register-all"]
Inductive proc (Sel : Type) : Type :=
| PDone (o : outcome reply)
| PSec (r : region) (s : GoM (world Sel) (proc Sel)).
Arguments PDone {Sel} _.
Arguments PSec {Sel} _ _.

(** After a section: a return or a panic in it ends the call. *)
Definition resume {Sel} (o : outcome (proc Sel)) : proc Sel :=
  match o with Ret p => p | Throw e => PDone (Throw e) | Panic => PDone Panic end.

Definition is_done {Sel} (p : proc Sel) : bool := match p with PDone _ => true | PSec _ _ => false end.

(** The next section, which leaves the rest of the call. *)
Definition section_run {Sel} (p : proc Sel) : GoM (world Sel) (proc Sel) :=
  match p with PDone _ => mret p | PSec _ s => s end.

(** The rest of the call with no other call in between. *)
Fixpoint alone {Sel} (p : proc Sel) : GoM (world Sel) reply :=
  match p with
  | PDone o => lift_outcome o
  | PSec _ s => λ w,
      match s w with
      | (Ret p', w') => alone p' w'
      | (Throw e, w') => (Throw e, w')
      | (Panic, w') => (Panic, w')
      end
  end.

Section Calls.
Context {Sel : Type} `{SelectorLib Sel}.
Variable env : Env.
Variable range : ∀ {A}, gmap string A → list (string * A).
Abbreviation W := (world Sel).

(** [k.Lock()] to [k.Unlock()] of [getChaosPod]. *)
Definition update_section (l : positive) (podIP : string) : proc Sel :=
  PSec WriteLocked (
    _ ← assign l (set_ip podIP);
    t ← now env;
    _ ← assign l (set_time t);
    p ← deref l;
    _ ← modify (set_ipPodMap (delete (pi_IP p)));
    _ ← modify (set_ipPodMap <[podIP := l]>);
    mret (PDone (Ret (ReplyPod (Some l) None)))).

(** [if v1Pod.Status.PodIP != podInfo.IP], which holds no lock: the address is read in one step, where
    the program has a data race with the update of another query. *)
Definition compare_section (l : positive) (v1Pod : option api_Pod) : proc Sel :=
  PSec Unlocked (
    podIP ← status_ip v1Pod;
    p ← deref l;
    mret (if negb (podIP =? pi_IP p)%string then update_section l podIP
          else PDone (Ret (ReplyPod (Some l) None)))).

Definition ask_section (l : positive) : proc Sel :=
  PSec Unlocked (
    p ← deref l;
    '(v1Pod, err) ← getPodFromCluster env (pi_Namespace p) (pi_Name p);
    mret match err with
         | Some e => PDone (Ret (ReplyPod None (Some e)))
         | None => compare_section l v1Pod
         end).

(** [getChaosPod], cut at its lock operations, for a lock that all calls share. *)
Definition query_sections (ip : string) : proc Sel :=
  PSec ReadLocked (
    podInfo ← gets (λ w, ipPodMap w !! ip);
    match podInfo with
    | None => mret (PDone (Ret (ReplyPod None None)))
    | Some l =>
        p ← deref l;
        overdue ← IsOverdue env p;
        mret (if (overdue : bool) then ask_section l else PDone (Ret (ReplyPod (Some l) None)))
    end).

(** Each call as the parts that a lock shared by all calls would keep from being interrupted. *)
Definition sections (k : call) : proc Sel :=
  match k with
  | KSet req => PSec WriteLocked (r ← SetDNSChaos env req; mret (PDone (Ret (ReplyDNS r))))
  | KCancel req =>
      PSec WriteLocked (r ← CancelDNSChaos (@range) req; mret (PDone (Ret (ReplyDNS r))))
  | KQuery ip => query_sections ip
  end.

(** The calls as [Chaos] has them, each without interruption. *)
Definition run_call (k : call) : GoM W reply :=
  match k with
  | KSet req => r ← SetDNSChaos env req; mret (ReplyDNS r)
  | KCancel req => r ← CancelDNSChaos (@range) req; mret (ReplyDNS r)
  | KQuery ip => '(l, err) ← getChaosPod env ip; mret (ReplyPod l err)
  end.
End Calls.

(** * Interleavings *)

Record thread (Sel : Type) := mkThread { th_call : call; th_rest : proc Sel }.
Arguments mkThread {Sel} _ _.
Arguments th_call {Sel} _.
Arguments th_rest {Sel} _.

Record pool (Sel : Type) := mkPool { p_world : world Sel; p_threads : list (thread Sel) }.
Arguments mkPool {Sel} _ _.
Arguments p_world {Sel} _.
Arguments p_threads {Sel} _.

Section Pools.
Context {Sel : Type}.
Abbreviation W := (world Sel).

(** Thread [i] runs its next section; None when it has none. *)
Definition pool_next (i : nat) (c : pool Sel) : option (pool Sel) :=
  t ← p_threads c !! i;
  match th_rest t with
  | PDone _ => None
  | PSec _ s =>
      let '(o, w) := s (p_world c) in
      Some (mkPool w (<[i := mkThread (th_call t) (resume o)]> (p_threads c)))
  end.

(** The threads whose sections run, one after the other. *)
Fixpoint pool_run (schedule : list nat) (c : pool Sel) : option (pool Sel) :=
  match schedule with
  | [] => Some c
  | i :: schedule => c' ← pool_next i c; pool_run schedule c'
  end.

Definition is_request (k : call) : bool := match k with KQuery _ => false | _ => true end.

(** The request a step of thread [i] carries out: the only section of a request is all of it. *)
Definition request_of (i : nat) (c : pool Sel) : list call :=
  match p_threads c !! i with
  | Some t => if is_request (th_call t) then [th_call t] else []
  | None => []
  end.

(** The requests carried out, in order. *)
Fixpoint carried_out (schedule : list nat) (c : pool Sel) : list call :=
  match schedule with
  | [] => []
  | i :: schedule =>
      match pool_next i c with
      | Some c' => request_of i c ++ carried_out schedule c'
      | None => []
      end
  end.

(** The requests not yet carried out. *)
Definition is_pending (t : thread Sel) : bool :=
  match th_rest t with PDone _ => false | PSec _ _ => is_request (th_call t) end.
Definition pending (ts : list (thread Sel)) : list call :=
  th_call <$> filter (λ t, is_pending t = true) ts.
End Pools.

Section Start.
Context {Sel : Type} `{SelectorLib Sel}.
Variable env : Env.
Variable range : ∀ {A}, gmap string A → list (string * A).

(** The calls on a world, none of them begun. *)
Definition pool_start (calls : list call) (w : world Sel) : pool Sel :=
  mkPool w ((λ k, mkThread k (sections env (@range) k)) <$> calls).
End Start.

(** * Specifications *)

(** What a caller is told is under chaos: the recorded requests, and for every pod what put it under
    chaos, a request or the directive of the Corefile with its action and scope. *)
Abbreviation pod_key := (string * string)%type.
Definition key_of (pod : pb_Pod) : pod_key := (pb_Namespace pod, pb_Name pod).

Inductive cause : Type :=
| ByRequest (req : SetDNSChaosRequest)
| ByCorefile (action scope : string).

Record spec := mkSpec {
  sp_requests : gmap string SetDNSChaosRequest;
  sp_under : gmap pod_key cause;
}.

(** The action, the scope and the selector of an entry. *)
Definition chaos_of {Sel} (p : PodInfo Sel) : string * string * option Sel :=
  (pi_Action p, pi_Scope p, pi_Selector p).

Section Spec.
Context {Sel : Type} `{SelectorLib Sel}.
Abbreviation W := (world Sel).
Implicit Types (s : spec) (w : W).

Definition put_under (c : cause) (pods : list pb_Pod) (m : gmap pod_key cause) : gmap pod_key cause :=
  foldr (λ pod, <[key_of pod := c]>) m pods.
Definition drop_under (pods : list pb_Pod) (m : gmap pod_key cause) : gmap pod_key cause :=
  foldr (λ pod, delete (key_of pod)) m pods.

(** One request, carried out at once. A pattern the selector refuses, or an error of the cluster for
    a pod, ends a request to set chaos: then only a prefix of its pods is under it. *)
Inductive spec_step : call → spec → spec → Prop :=
| spec_set req sel pods s :
    go_fold add_pattern NewTrieSelector (set_Patterns req) = Ret sel →
    pods `prefix_of` set_Pods req →
    spec_step (KSet req) s
      (mkSpec (<[set_Name req := req]> (sp_requests s))
         (put_under (ByRequest req) pods (sp_under s)))
| spec_refused req e s :
    go_fold add_pattern NewTrieSelector (set_Patterns req) = Throw e →
    spec_step (KSet req) s (mkSpec (<[set_Name req := req]> (sp_requests s)) (sp_under s))
| spec_cancel req set s :
    sp_requests s !! cancel_Name req = Some set →
    spec_step (KCancel req) s
      (mkSpec (delete (cancel_Name req) (sp_requests s)) (drop_under (set_Pods set) (sp_under s)))
| spec_unknown req s :
    sp_requests s !! cancel_Name req = None → spec_step (KCancel req) s s.

Inductive spec_run : list call → spec → spec → Prop :=
| spec_nil s : spec_run [] s s
| spec_cons k ks s s' s'' : spec_step k s s' → spec_run ks s' s'' → spec_run (k :: ks) s s''.

(** The chaos of an entry is that of its cause: the action of the request, the scope it has and the
    selector built from its patterns; or what the Corefile says, without a selector. *)
Definition caused (c : cause) (p : PodInfo Sel) : Prop :=
  match c with
  | ByRequest req => ∃ sel, go_fold add_pattern NewTrieSelector (set_Patterns req) = Ret sel ∧
      chaos_of p = (set_Action req, request_scope req, Some sel)
  | ByCorefile action scope => chaos_of p = (action, scope, None)
  end.

(** The maps say what the specification says. *)
Definition represents w s : Prop :=
  chaosMap w = sp_requests s ∧
  ∀ ns name, option_Forall2 caused (sp_under s !! (ns, name)) (info w ns name).

(** ** What every section keeps *)

(** The parts of an entry no call changes. *)
Definition fixed_part (p : PodInfo Sel) : string * string * (string * string * option Sel) :=
  (pi_Namespace p, pi_Name p, chaos_of p).

(** Every entry of [w] is there in [w'], the same but for its address and time. *)
Definition extends w w' : Prop :=
  ∀ l p, store w !! l = Some p → ∃ p', store w' !! l = Some p' ∧ fixed_part p' = fixed_part p.

(** An invariant that requests keep: it is about well-formed worlds, it does not look at the clock,
    the messages, the recorded requests and the namespaces without pods, and a pod may be
    forgotten, or set with the address the cluster gives. *)
Record stable (env : Env) (I : W → Prop) : Prop := {
  st_wf w : I w → wf w;
  st_ext w w' :
    store w' = store w → next w' = next w → (∀ ns name, pod_at w' ns name = pod_at w ns name) →
    ipPodMap w' = ipPodMap w → I w → I w';
  st_forget ns name w : I w → I (forget ns name w);
  st_install req scope sel pod v1Pod n t w :
    cluster_reply env n (pb_Namespace pod) (pb_Name pod) = (Some v1Pod, None) →
    pod_at w (pb_Namespace pod) (pb_Name pod) = None →
    I w → I (install (new_info req scope sel pod v1Pod t) w);
}.

(** The rest of a call is safe from [w] on: whatever the other calls have done before a section, as
    long as they keep [I] and the entries, the section keeps both too and does as [G] says, and the
    last section ends with an outcome as [E] says, of the states before and after that section. *)
Fixpoint proc_safe (I : W → Prop) (G : W → W → Prop) (E : W → outcome reply → W → Prop) (w : W)
    (p : proc Sel) : Prop :=
  match p with
  | PDone o => ∃ w0 w1, E w0 o w1
  | PSec _ s => ∀ w', extends w w' → I w' →
      I (s w').2 ∧ extends w' (s w').2 ∧ G w' (s w').2 ∧
      match (s w').1 with
      | Ret (PDone o) => E w' o (s w').2
      | Ret p' => proc_safe I G E (s w').2 p'
      | Throw e => E w' (Throw e) (s w').2
      | Panic => E w' Panic (s w').2
      end
  end.

(** It ends with an outcome as [T] says. *)
Definition ends (T : outcome reply → Prop) : W → outcome reply → W → Prop := λ _ o _, T o.
Definition no_panic : W → outcome reply → W → Prop := ends (λ o, o ≠ Panic).

(** What a section of a call does, as the specification sees it: a request is carried out, and a
    query changes nothing. *)
Definition guarantee (k : call) (w w' : W) : Prop :=
  ∀ s, represents w s →
    ∃ s', represents w' s' ∧ if is_request k then spec_step k s s' else s' = s.

(** A call that has [n] sections at most, whatever happens between them. *)
Fixpoint sections_left (n : nat) (p : proc Sel) : Prop :=
  match p, n with
  | PDone _, _ => True
  | PSec _ _, O => False
  | PSec _ s, S n => ∀ w, sections_left n (resume (s w).1)
  end.

Record pool_safe (I : W → Prop) (E : W → outcome reply → W → Prop) (c : pool Sel) : Prop := {
  ps_world : I (p_world c);
  ps_threads i t : p_threads c !! i = Some t →
    proc_safe I (guarantee (th_call t)) E (p_world c) (th_rest t);
  ps_requests i t : p_threads c !! i = Some t → is_request (th_call t) = true →
    sections_left 1 (th_rest t);
}.

(** ** Clusters whose pods keep their addresses *)

(** The cluster gives each pod the address of [addr]. *)
Definition steady (env : Env) (addr : string → string → string) : Prop :=
  ∀ n ns name v1Pod, cluster_reply env n ns name = (Some v1Pod, None) → ap_PodIP v1Pod = addr ns name.
Definition own_address (addr : string → string → string) : Prop :=
  ∀ ns name ns' name', addr ns name = addr ns' name' → ns = ns' ∧ name = name'.

(** The entries have those addresses, and the index by address is exactly that of the pods under
    chaos. *)
Record indexed (addr : string → string → string) (w : W) : Prop := {
  ix_wf : wf w;
  ix_addr l p : store w !! l = Some p → pi_IP p = addr (pi_Namespace p) (pi_Name p);
  ix_exact : exact_index w;
  ix_complete ns name l : pod_at w ns name = Some l → ipPodMap w !! addr ns name = Some l;
}.
End Spec.
Arguments spec_step Sel {_} _ _ _.
Arguments spec_run Sel {_} _ _ _.

(** * Facts *)

Section ExtendsFacts.
Context {Sel : Type}.
Abbreviation W := (world Sel).
Implicit Types (w : W).

Lemma extends_refl w : extends w w.
Proof. intros l p Hp. by exists p. Qed.

Lemma extends_trans w1 w2 w3 : extends w1 w2 → extends w2 w3 → extends w1 w3.
Proof.
  intros H1 H2 l p (p2 & Hp2 & <-)%H1. destruct (H2 l p2 Hp2) as (p3 & Hp3 & <-). by exists p3.
Qed.

Lemma extends_store w w' : store w' = store w → extends w w'.
Proof. intros Hs l p Hp. exists p. by rewrite Hs. Qed.

Lemma extends_install p w : wf w → extends w (install p w).
Proof.
  intros Hw l q Hq. exists q. split; [|done]. simpl.
  pose proof (wf_store w Hw l (mk_is_Some _ _ Hq)). by rewrite lookup_insert_ne by lia.
Qed.

Lemma extends_moved l ip t n w : extends w (moved l ip t n w).
Proof.
  intros l' p Hp. simpl. destruct (decide (l = l')) as [->|Hne].
  - rewrite lookup_alter_eq, Hp. by eexists.
  - rewrite lookup_alter_ne by done. by exists p.
Qed.

#[export] Instance extends_preorder : PreOrder (extends (Sel:=Sel)).
Proof. split; [exact extends_refl|exact extends_trans]. Qed.

(** ** Stable invariants *)

Lemma stable_wf env : stable env (wf (Sel:=Sel)).
Proof.
  constructor; [done|apply wf_ext|intros; by apply wf_forget|intros; by apply wf_install].
Qed.

Lemma stable_extends env (I : W → Prop) w0 : stable env I → stable env (λ w, I w ∧ extends w0 w).
Proof.
  intros [H1 H2 H3 H4]. constructor.
  - intros w [Hi _]. by apply H1.
  - intros w w' Hs Hn Hp Hm [Hi He]. split; [by eapply H2|].
    by etransitivity; [exact He|apply extends_store].
  - intros ns name w [Hi He]. split; [by apply H3|].
    by etransitivity; [exact He|apply extends_store, forget_store].
  - intros req scope sel pod v n t w Hr Hat [Hi He]. split; [by eapply H4|].
    etransitivity; [exact He|]. by apply extends_install, H1.
Qed.
End ExtendsFacts.

Section StableFacts.
Context {Sel : Type} `{SelectorLib Sel}.
Variable env : Env.
Variable range : ∀ {A}, gmap string A → list (string * A).
Hypothesis range_map : ∀ A (m : gmap string A), range m ≡ₚ map_to_list m.
Hypothesis ready : client_ready env.
Abbreviation W := (world Sel).
Implicit Types (w : W).

Section Invariant.
Variable I : W → Prop.
Hypothesis HI : stable env I.

Lemma stable_tick w : I w → I (tick w).
Proof. by apply (st_ext _ _ HI). Qed.

Lemma stable_cleared pod w : I w → I (cleared pod w).
Proof.
  intros Hw%stable_tick. apply (st_forget _ _ HI). revert Hw. apply (st_ext _ _ HI).
  1, 2, 4: unfold ensure_ns; by case_match.
  intros. apply pod_at_ensure.
Qed.

Lemma stable_set_pod req scope sel pod : safe I (set_pod env req scope sel pod).
Proof.
  intros w Hw. rewrite (set_pod_run env req scope sel pod w (st_wf _ _ HI w Hw)).
  pose proof (cluster_reply_ready env (asked w) (pb_Namespace pod) (pb_Name pod) ready) as Hr.
  destruct (cluster_reply env _ _ _) as [[v1Pod|] [e|]] eqn:Hrep; try done; simpl;
    (split; [|done]); try by apply stable_tick.
  apply (st_install _ _ HI _ _ _ _ _ (asked w)); [done|apply cleared_pod_at|].
  by apply stable_tick, stable_cleared.
Qed.

Lemma stable_set req : safe I (SetDNSChaos env req).
Proof.
  apply safe_bind.
  { intros w Hw. split; [|done]. revert Hw. by apply (st_ext _ _ HI). }
  intros _. apply safe_bind.
  { intros w Hw. split; [done|]. apply (build_no_panic NewTrieSelector). }
  intros sel. apply safe_bind; [|intros _; apply safe_ret].
  apply safe_for. intros pod _. apply stable_set_pod.
Qed.

Lemma stable_forget_all pods w : I w → I (forget_all pods w).
Proof.
  revert w. induction pods as [|pod pods IH]; intros w Hw; [done|]. simpl. apply IH.
  by apply (st_forget _ _ HI).
Qed.

Lemma stable_cancel req : safe I (CancelDNSChaos (@range) req).
Proof.
  intros w Hw. destruct (chaosMap w !! cancel_Name req) as [set|] eqn:Hset.
  - destruct (CancelDNSChaos_eq (@range) range_map req w set (st_wf _ _ HI w Hw) Hset)
      as (m & -> & Hat & _). split; [|done].
    apply (st_ext _ _ HI (forget_all (set_Pods set) w)); [done..|by apply stable_forget_all].
  - unfold CancelDNSChaos. go_step. by rewrite Hset.
Qed.

(** A request is one safe section. *)
Lemma request_safe {A} (m : GoM W A) (f : A → reply) (G : W → W → Prop) w0 :
  (∀ J, stable env J → safe J m) → (∀ w, wf w → G w (m w).2) →
  proc_safe I G no_panic w0 (PSec WriteLocked (r ← m; mret (PDone (Ret (f r))))).
Proof.
  intros Hm HG w _ Hw. destruct (Hm _ (stable_extends env I w HI) w) as [[Hi He] Hp]; [by split|].
  specialize (HG w (st_wf _ _ HI w Hw)).
  unfold mbind, gom_bind. by destruct (m w) as [[r|e|] w'].
Qed.
End Invariant.

(** ** The sections of a query *)

Lemma alone_next p p' w w' :
  section_run p w = (Ret p', w') → alone (Sel:=Sel) p w = alone p' w'.
Proof. destruct p as [o|r s]; simpl; [by intros [= <- <-]|by intros ->]. Qed.

Lemma lookup_none_run ip w :
  ipPodMap w !! ip = None →
  section_run (query_sections env ip) w = (Ret (PDone (Ret (ReplyPod None None))), w).
Proof. intros Hl. cbn [section_run query_sections]. go_step. by rewrite Hl. Qed.

Lemma lookup_run ip l p w :
  ipPodMap w !! ip = Some l → store w !! l = Some p →
  section_run (query_sections env ip) w =
    (Ret (if (10 * Second <? time_Now env (asked w) - pi_LastUpdateTime p)%Z then ask_section env l
          else PDone (Ret (ReplyPod (Some l) None))), tick w).
Proof.
  intros Hl Hp. cbn [section_run query_sections]. go_step. rewrite Hl.
  erewrite gom_bind_ret; [|unfold deref; by rewrite Hp]. by go_step.
Qed.

Lemma ask_run l p w :
  store w !! l = Some p →
  section_run (ask_section env l) w =
    (Ret match cluster_reply env (asked w) (pi_Namespace p) (pi_Name p) with
         | (_, Some e) => PDone (Ret (ReplyPod None (Some e)))
         | (v1Pod, None) => compare_section env l v1Pod
         end, tick w).
Proof.
  intros Hp. cbn [section_run ask_section]. erewrite gom_bind_ret; [|unfold deref; by rewrite Hp].
  go_step getPodFromCluster_run. by destruct (cluster_reply _ _ _ _) as [v [e|]].
Qed.

Lemma compare_run l p v1Pod w :
  store w !! l = Some p →
  section_run (compare_section env l (Some v1Pod)) w =
    (Ret (if (ap_PodIP v1Pod =? pi_IP p)%string then PDone (Ret (ReplyPod (Some l) None))
          else update_section env l (ap_PodIP v1Pod)), w).
Proof.
  intros Hp. cbn [section_run compare_section]. go_step.
  erewrite gom_bind_ret; [|unfold deref; by rewrite Hp].
  by destruct (ap_PodIP v1Pod =? pi_IP p)%string.
Qed.

Lemma update_run l podIP p w :
  store w !! l = Some p →
  section_run (update_section env l podIP) w =
    (Ret (PDone (Ret (ReplyPod (Some l) None))),
     moved l podIP (time_Now env (asked w)) (asked w + 1) w).
Proof. intros Hp. cbn [section_run update_section]. by rewrite (move_run env l podIP p _ w Hp). Qed.

(** Alone, the sections of a query do what [getChaosPod] does. *)
Lemma query_alone ip w :
  wf w →
  alone (query_sections env ip) w = (getChaosPod env ip ≫= λ '(l, err), mret (ReplyPod l err)) w.
Proof.
  intros Hw. unfold mbind, gom_bind. rewrite getChaosPod_run.
  destruct (ipPodMap w !! ip) as [l|] eqn:Hl; [|by rewrite (alone_next _ _ _ _ (lookup_none_run ip w Hl))].
  destruct (wf_ips w Hw ip l Hl) as [p Hp]. rewrite (alone_next _ _ _ _ (lookup_run ip l p w Hl Hp)), Hp.
  destruct (10 * Second <? _)%Z; [|done]. rewrite (alone_next _ _ _ _ (ask_run l p (tick w) Hp)).
  change (asked (tick w)) with (asked w + 1).
  destruct (cluster_reply env _ _ _) as [[v1Pod|] [e|]]; try done.
  rewrite (alone_next _ _ _ _ (compare_run l p v1Pod (tick (tick w)) Hp)).
  destruct (ap_PodIP v1Pod =? pi_IP p)%string; [done|].
  rewrite (alone_next _ _ _ _ (update_run l (ap_PodIP v1Pod) p (tick (tick w)) Hp)).
  unfold moved, tick. simpl. by rewrite <- !Nat.add_assoc.
Qed.

(** ** Queries are safe *)

Lemma ends_done (I : W → Prop) G T w (o : outcome reply) : T o → proc_safe I G (ends T) w (PDone o).
Proof. intros HT. by exists w, w. Qed.

Lemma section_safe (I : W → Prop) (G : W → W → Prop) T w0 p :
  is_done p = false →
  (∀ w, extends w0 w → I w → ∃ p' w', section_run p w = (Ret p', w') ∧ I w' ∧ extends w w' ∧
     G w w' ∧ proc_safe I G (ends T) w' p') → proc_safe I G (ends T) w0 p.
Proof.
  destruct p as [|r s]; [done|]. intros _ Hs w He Hw. destruct (Hs w He Hw) as (p' & w' & Hr & Hi & Hx & Hg & Hp).
  simpl in Hr. rewrite Hr. do 3 (split; [done|]). destruct p'; [by destruct Hp as (? & ? & ?)|done].
Qed.

Section QueryInvariant.
Variable I : W → Prop.
Variable G : W → W → Prop.
Variable T : outcome reply → Prop.
Hypothesis HI : stable env I.
Hypothesis HG : ∀ w w', wf w → extends w w' → chaosMap w' = chaosMap w → podMap w' = podMap w → G w w'.
Hypothesis update_safe : ∀ l p n v1Pod w, T (Ret (ReplyPod (Some l) None)) →
  I w → store w !! l = Some p →
  cluster_reply env n (pi_Namespace p) (pi_Name p) = (Some v1Pod, None) → ap_PodIP v1Pod ≠ pi_IP p →
  proc_safe I G (ends T) w (update_section env l (ap_PodIP v1Pod)).
Abbreviation query_ends := (proc_safe I G (ends T)).

(** [T] has what a query for the pod of an entry may be told: the entry, or an error of the cluster. *)
Definition replies (l : positive) (p : PodInfo Sel) : Prop :=
  T (Ret (ReplyPod (Some l) None)) ∧
  ∀ n e, (cluster_reply env n (pi_Namespace p) (pi_Name p)).2 = Some e → T (Ret (ReplyPod None (Some e))).

Lemma compare_safe l p n v1Pod w0 :
  T (Ret (ReplyPod (Some l) None)) → store w0 !! l = Some p →
  cluster_reply env n (pi_Namespace p) (pi_Name p) = (Some v1Pod, None) →
  query_ends w0 (compare_section env l (Some v1Pod)).
Proof.
  intros HT Hp Hr. apply section_safe; [done|]. intros w He Hw.
  destruct (He l p Hp) as (q & Hq & [= Hns Hn _ _ _]). rewrite <- Hns, <- Hn in Hr.
  do 2 eexists. split; [by apply (compare_run l q)|]. split; [done|]. split; [done|].
  split; [by apply HG; [apply (st_wf _ _ HI)|..]|].
  destruct (String.eqb_spec (ap_PodIP v1Pod) (pi_IP q)); [by apply ends_done|by eapply update_safe].
Qed.

Lemma ask_safe l p w0 : replies l p → store w0 !! l = Some p → query_ends w0 (ask_section env l).
Proof.
  intros [HT He'] Hp. apply section_safe; [done|]. intros w He Hw.
  destruct (He l p Hp) as (q & Hq & [= Hns Hn _ _ _]). rewrite <- Hns, <- Hn in He'.
  do 2 eexists. split; [by apply (ask_run l q)|].
  split; [by apply (stable_tick I HI)|]. split; [by apply extends_store|].
  split; [by apply HG; [apply (st_wf _ _ HI)|apply extends_store|..]|].
  pose proof (cluster_reply_ready env (asked w) (pi_Namespace q) (pi_Name q) ready).
  destruct (cluster_reply env _ _ _) as [v1Pod [e|]] eqn:Hr.
  - assert (Hd : T (Ret (ReplyPod None (Some e)))) by (apply (He' (asked w)); by rewrite Hr).
    by destruct v1Pod; apply ends_done.
  - destruct v1Pod as [v1Pod|]; [|done]. by eapply (compare_safe l q _ v1Pod (tick w) HT Hq).
Qed.

(** What follows the look up of an address that is indexed. *)
Lemma found_safe l p (overdue : bool) w0 :
  replies l p → store w0 !! l = Some p →
  query_ends w0 (if overdue then ask_section env l else PDone (Ret (ReplyPod (Some l) None))).
Proof. intros Hr Hp. destruct overdue; [by eapply ask_safe|by apply ends_done, Hr]. Qed.

Lemma query_safe ip w0 :
  T (Ret (ReplyPod None None)) → (∀ l p, replies l p) → query_ends w0 (query_sections env ip).
Proof.
  intros HT Hreplies. apply section_safe; [done|]. intros w _ Hw. destruct (ipPodMap w !! ip) as [l|] eqn:Hl.
  2:{ do 2 eexists. split; [by apply lookup_none_run|]. split; [done|]. split; [done|].
    split; [by apply HG; [apply (st_wf _ _ HI)|..]|by apply ends_done]. }
  destruct (wf_ips w (st_wf _ _ HI w Hw) ip l Hl) as [p Hp].
  do 2 eexists. split; [by apply (lookup_run ip l p)|].
  split; [by apply (stable_tick I HI)|]. split; [by apply extends_store|].
  split; [by apply HG; [apply (st_wf _ _ HI)|apply extends_store|..]|].
  by apply (found_safe l p).
Qed.

End QueryInvariant.

(** When pods may move: the update keeps the world well-formed. *)
Lemma update_safe_wf (G : W → W → Prop) T l p n v1Pod w :
  (∀ w w', wf w → extends w w' → chaosMap w' = chaosMap w → podMap w' = podMap w → G w w') →
  T (Ret (ReplyPod (Some l) None)) → wf w → store w !! l = Some p →
  cluster_reply env n (pi_Namespace p) (pi_Name p) = (Some v1Pod, None) → ap_PodIP v1Pod ≠ pi_IP p →
  proc_safe wf G (ends T) w (update_section env l (ap_PodIP v1Pod)).
Proof.
  intros HG HT _ Hp _ _. apply section_safe; [done|]. intros w' He Hw. destruct (He l p Hp) as (q & Hq & _).
  do 2 eexists. split; [by apply (update_run l _ q)|].
  split; [apply wf_moved; [done|by eexists]|]. split; [apply extends_moved|].
  split; [by apply HG; [|apply extends_moved|..]|by apply ends_done].
Qed.
End StableFacts.

(** ** The specification *)

Section SpecFacts.
Context {Sel : Type} `{SelectorLib Sel}.
Abbreviation W := (world Sel).
Implicit Types (s : spec) (w : W).

Lemma put_under_lookup (c : cause) (pods : list pb_Pod) (m : gmap pod_key cause) ns name :
  put_under c pods m !! (ns, name) =
    if decide (mkPbPod ns name ∈ pods) then Some c else m !! (ns, name).
Proof.
  induction pods as [|[ns' name'] pods IH].
  { by rewrite decide_False by apply not_elem_of_nil. }
  cbn [put_under foldr key_of pb_Namespace pb_Name]. fold (put_under c pods m).
  destruct (decide (mkPbPod ns name = mkPbPod ns' name')) as [[= -> ->]|Hne].
  - rewrite lookup_insert_eq, decide_True; [done|by left].
  - rewrite lookup_insert_ne by (intros [= -> ->]; done). rewrite IH.
    apply decide_ext. rewrite elem_of_cons. naive_solver.
Qed.

Lemma drop_under_lookup (pods : list pb_Pod) (m : gmap pod_key cause) ns name :
  drop_under pods m !! (ns, name) = if decide (mkPbPod ns name ∈ pods) then None else m !! (ns, name).
Proof.
  induction pods as [|[ns' name'] pods IH].
  { by rewrite decide_False by apply not_elem_of_nil. }
  cbn [drop_under foldr key_of pb_Namespace pb_Name]. fold (drop_under pods m).
  destruct (decide (mkPbPod ns name = mkPbPod ns' name')) as [[= -> ->]|Hne].
  - rewrite lookup_delete_eq, decide_True; [done|by left].
  - rewrite lookup_delete_ne by (intros [= -> ->]; done). rewrite IH.
    apply decide_ext. rewrite elem_of_cons. naive_solver.
Qed.

Lemma caused_fixed c (p p' : PodInfo Sel) : fixed_part p' = fixed_part p → caused c p → caused c p'.
Proof.
  unfold caused. intros Hf. assert (Heq : chaos_of p' = chaos_of p) by exact (f_equal snd Hf).
  by rewrite Heq.
Qed.

Lemma guarantee_query ip w w' :
  wf w → extends w w' → chaosMap w' = chaosMap w → podMap w' = podMap w →
  guarantee (Sel:=Sel) (KQuery ip) w w'.
Proof.
  intros Hw He Hc Hp s [Hs Hu]. exists s. split; [|done]. split; [by rewrite Hc|].
  intros ns name. specialize (Hu ns name). unfold info in *.
  assert (Hat : pod_at w' ns name = pod_at w ns name) by (unfold pod_at; by rewrite Hp). rewrite Hat.
  destruct (pod_at w ns name) as [l|] eqn:Hl; [|done]. simpl in *.
  destruct (wf_pods w Hw ns name l Hl) as (p & Hpl & _). rewrite Hpl in Hu.
  destruct (He l p Hpl) as (p' & -> & Hfix). inversion_clear Hu. constructor. by eapply caused_fixed.
Qed.

Lemma set_by_caused env req sel w w' (pods : list pb_Pod) s :
  go_fold add_pattern NewTrieSelector (set_Patterns req) = Ret sel →
  (∀ pod, pod ∈ pods → set_by env req (request_scope req) sel w w' pod) →
  (∀ ns name, mkPbPod ns name ∉ pods → info w' ns name = info w ns name) →
  (∀ ns name, option_Forall2 caused (sp_under s !! (ns, name)) (info w ns name)) →
  ∀ ns name, option_Forall2 caused (put_under (ByRequest req) pods (sp_under s) !! (ns, name))
    (info w' ns name).
Proof.
  intros Hsel Hin Hout Hu ns name. rewrite put_under_lookup. case_decide as Hd; [|by rewrite Hout].
  destruct (Hin _ Hd) as (p & (n & v & _ & _ & ->) & Hi). simpl in Hi. rewrite Hi. constructor. by exists sel.
Qed.

Lemma guarantee_set env req w :
  client_ready env → wf w → guarantee (Sel:=Sel) (KSet req) w (SetDNSChaos env req w).2.
Proof.
  intros Hready Hw s [Hs Hu]. destruct (SetDNSChaos_run env req w Hw) as (_ & Hm & Hr).
  rewrite Hs in Hm. destruct (go_fold _ _ _) as [sel|e|] eqn:Hf; [| |done].
  - destruct Hr as (o & Ho & _).
    assert (Hpre : ∃ pods, pods `prefix_of` set_Pods req ∧
      (∀ pod, pod ∈ pods → set_by env req (request_scope req) sel w (SetDNSChaos env req w).2 pod) ∧
      (∀ ns name, mkPbPod ns name ∉ pods →
         info (SetDNSChaos env req w).2 ns name = info w ns name)).
    { destruct Ho as [pods [H1 H2 _]|pre pod post n e [H1 H2 _] _|pre pod post n Hn].
      - by exists pods.
      - exists pre. split; [by apply prefix_app_r|done].
      - by destruct (cluster_reply_ready env n (pb_Namespace pod) (pb_Name pod) Hready). }
    destruct Hpre as (pods & Hpre & Hin & Hout). eexists. split; [|by apply (spec_set req sel pods)].
    split; [done|]. by apply (set_by_caused env req sel w).
  - destruct Hr as [_ Hr]. eexists. split; [|by eapply spec_refused]. split; [done|].
    intros ns name. rewrite Hr. apply Hu.
Qed.

Lemma guarantee_cancel (range : ∀ A, gmap string A → list (string * A)) req w :
  (∀ A (m : gmap string A), range A m ≡ₚ map_to_list m) → wf w →
  guarantee (Sel:=Sel) (KCancel req) w (CancelDNSChaos range req w).2.
Proof.
  intros Hrange Hw s [Hs Hu]. destruct (chaosMap w !! cancel_Name req) as [set|] eqn:Hset.
  - destruct (CancelDNSChaos_run range Hrange req w set Hw Hset) as (_ & _ & Hm & Hi & _).
    rewrite Hs in Hset, Hm. eexists. split; [|by apply spec_cancel]. split; [done|].
    intros ns name. simpl. rewrite drop_under_lookup, Hi. case_decide; [constructor|apply Hu].
  - exists s. split; [|apply spec_unknown; by rewrite <- Hs].
    unfold CancelDNSChaos. go_step. by rewrite Hset.
Qed.
End SpecFacts.

(** ** Interleavings *)

Section PoolFacts.
Context {Sel : Type} `{SelectorLib Sel}.
Abbreviation W := (world Sel).
Implicit Types (w : W) (c : pool Sel).

Lemma proc_safe_later (I : W → Prop) (G : W → W → Prop) E w w' p :
  extends w w' → proc_safe I G E w p → proc_safe I G E w' p.
Proof.
  destruct p as [o|r s]; [done|]. simpl. intros He Hs w2 He2 Hw2. apply Hs; [|done].
  by etransitivity.
Qed.

(** What a step is. *)
Lemma pool_next_Some i c c' :
  pool_next i c = Some c' →
  ∃ k r s, p_threads c !! i = Some (mkThread k (PSec r s)) ∧
    c' = mkPool (s (p_world c)).2 (<[i := mkThread k (resume (s (p_world c)).1)]> (p_threads c)).
Proof.
  unfold pool_next. destruct (p_threads c !! i) as [[k [o|r s]]|]; simpl; try done.
  destruct (s (p_world c)) as [o w] eqn:Hs. intros [= <-]. exists k, r, s. by rewrite Hs.
Qed.

(** After a section. *)
Lemma proc_safe_resume (I : W → Prop) (G : W → W → Prop) E r s w :
  I w → proc_safe I G E w (PSec r s) → proc_safe I G E (s w).2 (resume (s w).1).
Proof.
  intros Hw Hs. destruct (Hs w (extends_refl _) Hw) as (_ & _ & _ & Hr).
  destruct (s w).1 as [[o|r' s']|e|]; simpl in *; [by eexists _, _|exact Hr|by eexists _, _..].
Qed.

Lemma pool_safe_next (I : W → Prop) E i c c' :
  pool_safe I E c → pool_next i c = Some c' →
  pool_safe I E c' ∧ extends (p_world c) (p_world c') ∧
  ∃ t, p_threads c !! i = Some t ∧ guarantee (th_call t) (p_world c) (p_world c').
Proof.
  intros [Hw Ht Hreq] (k & r & s & Hi & ->)%pool_next_Some. simpl.
  destruct (Ht i _ Hi (p_world c) (extends_refl _) Hw) as (Hw' & He & HG & _).
  split; [|split; [done|by eexists]]. constructor; simpl; [done| |].
  - intros j t [(<- & <- & _)|[_ Hj]]%list_lookup_insert_Some.
    + simpl. by apply (proc_safe_resume I _ E r s), (Ht i _ Hi).
    + apply (proc_safe_later I _ E (p_world c)); [done|]. by eapply Ht.
  - intros j t [(<- & <- & _)|[_ Hj]]%list_lookup_insert_Some Hk; [|by eapply Hreq].
    simpl in *. pose proof (Hreq i _ Hi Hk (p_world c)) as Hd. simpl in Hd.
    by destruct (resume (s (p_world c)).1).
Qed.

Lemma pool_safe_run (I : W → Prop) E schedule c c' :
  pool_safe I E c → pool_run schedule c = Some c' → pool_safe I E c' ∧ extends (p_world c) (p_world c').
Proof.
  revert c. induction schedule as [|i schedule IH]; intros c Hc; simpl.
  - intros [= <-]. by split; [|apply extends_refl].
  - destruct (pool_next i c) as [c1|] eqn:Hn; [|done]. simpl. intros Hr.
    destruct (pool_safe_next I E i c c1 Hc Hn) as (Hc1 & He1 & _). destruct (IH c1 Hc1 Hr) as [Hc' He'].
    split; [done|]. by etransitivity.
Qed.
End PoolFacts.

Section StartFacts.
Context {Sel : Type} `{SelectorLib Sel}.
Variable env : Env.
Variable range : ∀ {A}, gmap string A → list (string * A).
Hypothesis range_map : ∀ A (m : gmap string A), range m ≡ₚ map_to_list m.
Hypothesis ready : client_ready env.
Abbreviation W := (world Sel).
Implicit Types (w : W) (c : pool Sel).

(** What is asked of the update of an entry whose pod has moved. *)
Definition update_ok (I : W → Prop) : Prop :=
  ∀ (G : W → W → Prop) T l p n v1Pod w,
    (∀ w w', wf w → extends w w' → chaosMap w' = chaosMap w → podMap w' = podMap w → G w w') →
    T (Ret (ReplyPod (Some l) None)) → I w → store w !! l = Some p →
    cluster_reply env n (pi_Namespace p) (pi_Name p) = (Some v1Pod, None) → ap_PodIP v1Pod ≠ pi_IP p →
    proc_safe I G (ends T) w (update_section env l (ap_PodIP v1Pod)).

Lemma call_safe (I : W → Prop) k w0 :
  stable env I → update_ok I → proc_safe I (guarantee k) no_panic w0 (sections env (@range) k).
Proof.
  intros HI Hup. destruct k as [req|req|ip]; simpl.
  - apply (request_safe env I HI); [intros J HJ; by apply stable_set|].
    intros w. by apply guarantee_set.
  - apply (request_safe env I HI); [intros J HJ; by apply (stable_cancel env)|].
    intros w. by apply guarantee_cancel.
  - apply (query_safe env ready I _ (λ o, o ≠ Panic)); [done|apply guarantee_query| |done|done].
    intros l p n v w. apply (Hup _ (λ o, o ≠ Panic)), guarantee_query.
Qed.

Lemma request_left k : is_request k = true → sections_left 1 (sections (Sel:=Sel) env (@range) k).
Proof.
  destruct k as [req|req|ip]; [| |done]; intros _ w; simpl; unfold mbind, gom_bind.
  - by destruct (SetDNSChaos env req w) as [[r|e|] w'].
  - by destruct (CancelDNSChaos (@range) req w) as [[r|e|] w'].
Qed.

Lemma sections_left_le n m (p : proc Sel) : n ≤ m → sections_left n p → sections_left m p.
Proof.
  revert m p. induction n as [|n IH]; intros m [o|r s] Hle Hp; try by destruct m.
  destruct m as [|m]; [lia|]. intros w. apply IH; [lia|]. apply Hp.
Qed.

(** A query has four sections at most. *)
Lemma query_left ip : sections_left (Sel:=Sel) 4 (query_sections env ip).
Proof.
  intros w. go_simpl. destruct (ipPodMap w !! ip) as [l|]; [|done]. unfold deref.
  destruct (store w !! l) as [p|]; [|done]. unfold IsOverdue, now, ask. go_simpl.
  destruct (10 * Second <? _)%Z; [|done].
  intros w2. go_simpl. unfold deref. destruct (store w2 !! l) as [p2|]; [|done].
  pose proof (getPodFromCluster_run env (pi_Namespace p2) (pi_Name p2) w2) as Hrun. rewrite Hrun.
  destruct (cluster_reply env (asked w2) (pi_Namespace p2) (pi_Name p2)) as [v1Pod [e|]]; [done|].
  intros w3. go_simpl. unfold status_ip, deref. destruct v1Pod as [v1Pod|]; [|done]. go_simpl.
  destruct (store w3 !! l) as [p3|]; [|done]. destruct (negb _); [|done].
  intros w4. unfold assign, deref, now, ask. go_simpl. by destruct (store w4 !! l) eqn:Hw4; simpl; rewrite !lookup_alter_eq, Hw4.
Qed.

Lemma call_left k : sections_left (Sel:=Sel) 4 (sections env (@range) k).
Proof.
  destruct (is_request k) eqn:Hk; [by apply (sections_left_le 1); [lia|apply request_left]|].
  destruct k; try done. apply query_left.
Qed.

Lemma start_safe (I : W → Prop) calls w :
  stable env I → update_ok I → I w → pool_safe I no_panic (pool_start env (@range) calls w).
Proof.
  intros HI Hup Hw. constructor; simpl; [done| |]; intros i t Hi;
    rewrite list_lookup_fmap in Hi; destruct (calls !! i) as [k|]; try done; injection Hi as <-; simpl.
  - by apply call_safe.
  - by apply request_left.
Qed.

(** ** The requests are carried out one after the other *)

Lemma represents_run (I : W → Prop) E schedule c c' s :
  pool_safe I E c → pool_run schedule c = Some c' → represents (p_world c) s →
  ∃ s', spec_run Sel (carried_out schedule c) s s' ∧ represents (p_world c') s'.
Proof.
  revert c s. induction schedule as [|i schedule IH]; intros c s Hc; simpl.
  { intros [= <-] Hs. exists s. split; [constructor|done]. }
  destruct (pool_next i c) as [c1|] eqn:Hn; [|done]. simpl. intros Hr Hs.
  destruct (pool_safe_next I E i c c1 Hc Hn) as (Hc1 & _ & t & Hi & HG).
  destruct (HG s Hs) as (s1 & Hs1 & Hstep). destruct (IH c1 s1 Hc1 Hr Hs1) as (s' & Hrun & Hs').
  exists s'. split; [|done]. unfold request_of. rewrite Hi.
  destruct (is_request (th_call t)); [by eapply spec_cons|by subst s1].
Qed.

Lemma pending_insert (ts : list (thread Sel)) i t t' :
  ts !! i = Some t →
  (if is_pending t' then [th_call t'] else []) ++ pending ts ≡ₚ
  (if is_pending t then [th_call t] else []) ++ pending (<[i := t']> ts).
Proof.
  revert i. induction ts as [|x ts IH]; intros [|i] Hi; simpl in Hi; try done.
  - injection Hi as ->. unfold pending. cbn [insert list_insert]. rewrite !filter_cons.
    destruct (is_pending t), (is_pending t'); cbn [fmap list_fmap]; simpl; try done.
    apply Permutation_swap.
  - specialize (IH i Hi). unfold pending in *. cbn [insert list_insert]. rewrite !filter_cons.
    destruct (is_pending x); simpl; [|done]. rewrite <- !Permutation_middle. by f_equiv.
Qed.

Lemma pending_next (I : W → Prop) E i c c' :
  pool_safe I E c → pool_next i c = Some c' →
  pending (p_threads c) ≡ₚ request_of i c ++ pending (p_threads c').
Proof.
  intros Hc (k & r & s & Hi & ->)%pool_next_Some. unfold request_of. rewrite Hi. simpl.
  pose proof (pending_insert (p_threads c) i _ (mkThread k (resume (s (p_world c)).1)) Hi) as Hp.
  pose proof (ps_requests I E c Hc i _ Hi) as Hl. unfold is_pending in Hp. simpl in Hp, Hl.
  destruct (is_request k); [specialize (Hl eq_refl (p_world c))|];
    destruct (resume (s (p_world c)).1); done.
Qed.

Lemma carried_out_pending (I : W → Prop) E schedule c c' :
  pool_safe I E c → pool_run schedule c = Some c' →
  pending (p_threads c) ≡ₚ carried_out schedule c ++ pending (p_threads c').
Proof.
  revert c. induction schedule as [|i schedule IH]; intros c Hc; simpl; [by intros [= <-]|].
  destruct (pool_next i c) as [c1|] eqn:Hn; [|done]. simpl. intros Hr.
  destruct (pool_safe_next I E i c c1 Hc Hn) as (Hc1 & _). rewrite (pending_next I E i c c1 Hc Hn).
  rewrite (IH c1 Hc1 Hr). by rewrite app_assoc.
Qed.

(** ** Every run ends *)

Lemma sum_insert (ns : list nat) i n : ns !! i = Some (S n) → sum_list ns = S (sum_list (<[i := n]> ns)).
Proof.
  revert i. induction ns as [|m ns IH]; intros [|i] Hi; simpl in Hi; try done.
  - by injection Hi as ->.
  - specialize (IH i Hi). simpl in *. change (list_insert i n ns) with (<[i := n]> ns). lia.
Qed.

Lemma run_bounded schedule c c' ns :
  Forall2 (λ n t, sections_left n (th_rest t)) ns (p_threads c) → pool_run schedule c = Some c' →
  length schedule ≤ sum_list ns.
Proof.
  revert c ns. induction schedule as [|i schedule IH]; intros c ns Hns; simpl; [lia|].
  destruct (pool_next i c) as [c1|] eqn:Hn; [|done]. simpl. intros Hr.
  apply pool_next_Some in Hn as (k & r & s & Hi & ->).
  destruct (Forall2_lookup_r _ _ _ _ _ Hns Hi) as ([|n] & Hni & Hleft); [done|].
  rewrite (sum_insert ns i n Hni). apply le_n_S. eapply IH; [|exact Hr]. simpl.
  apply Forall2_insert; [done|]. apply (Hleft (p_world c)).
Qed.

Lemma start_bounded schedule calls w c :
  pool_run schedule (pool_start (Sel:=Sel) env (@range) calls w) = Some c →
  length schedule ≤ 4 * length calls.
Proof.
  intros Hr. apply (run_bounded _ _ _ (replicate (length calls) 4)) in Hr.
  - rewrite sum_list_replicate in Hr. lia.
  - simpl. clear Hr. induction calls as [|k calls IH]; [constructor|]. constructor; [apply call_left|done].
Qed.

Lemma pending_start calls w :
  pending (p_threads (pool_start (Sel:=Sel) env (@range) calls w)) = filter (λ k, is_request k = true) calls.
Proof.
  unfold pending. simpl. induction calls as [|k calls IH]; [done|].
  rewrite fmap_cons, !filter_cons, <- IH. unfold is_pending. simpl. by destruct k.
Qed.
End StartFacts.

(** ** Pods that keep their addresses *)

Section SteadyFacts.
Context {Sel : Type} `{SelectorLib Sel}.
Variable env : Env.
Variable addr : string → string → string.
Hypothesis Hsteady : steady env addr.
Hypothesis Hown : own_address addr.
Abbreviation W := (world Sel).
Implicit Types (w : W).

Lemma indexed_forget ns name w : indexed addr w → indexed addr (forget ns name w).
Proof.
  intros [Hw Ha He Hc]. constructor.
  - by apply wf_forget.
  - intros l p. rewrite forget_store. apply Ha.
  - by apply exact_forget.
  - intros ns' name' l. rewrite pod_at_forget. case_decide as Hd; [done|]. intros Hl%Hc.
    unfold forget. destruct (pod_at w ns name) as [l0|] eqn:Hl0; [|done].
    destruct (wf_pods w Hw ns name l0 Hl0) as (p & Hp & <- & <-). rewrite Hp. simpl.
    rewrite lookup_delete_ne; [done|]. rewrite (Ha l0 p Hp). intros [<- <-]%Hown. by apply Hd.
Qed.

Lemma indexed_install p w :
  pi_IP p = addr (pi_Namespace p) (pi_Name p) → pod_at w (pi_Namespace p) (pi_Name p) = None →
  indexed addr w → indexed addr (install p w).
Proof.
  intros Hip Hat [Hw Ha He Hc]. constructor.
  - by apply wf_install.
  - intros l q. simpl. intros [[_ <-]|[_ Hq]]%lookup_insert_Some; [done|by eapply Ha].
  - by apply exact_install.
  - intros ns name l. rewrite pod_at_install. simpl. case_decide as Hd.
    + destruct Hd as [-> ->]. intros [= <-]. by rewrite Hip, lookup_insert_eq.
    + intros Hl%Hc. rewrite lookup_insert_ne; [done|]. rewrite Hip. intros [<- <-]%Hown. by apply Hd.
Qed.

Lemma stable_indexed : stable env (indexed (Sel:=Sel) addr).
Proof.
  constructor.
  - by intros w [Hw _ _ _].
  - intros w w' Hs Hn Hp Hi [Hw Ha He Hc]. constructor.
    + by apply (wf_ext w).
    + rewrite Hs. exact Ha.
    + by apply (exact_ext w).
    + intros ns name l. rewrite Hp, Hi. apply Hc.
  - intros ns name w. apply indexed_forget.
  - intros req scope sel pod v n t w Hr Hat. apply indexed_install; [|done].
    exact (Hsteady _ _ _ _ Hr).
Qed.

(** No pod moves, so no entry is updated. *)
Lemma update_ok_indexed : update_ok env (indexed (Sel:=Sel) addr).
Proof.
  intros G T l p n v w _ _ Hw Hp Hr []. rewrite (Hsteady _ _ _ _ Hr). symmetry. by apply (ix_addr addr w Hw l).
Qed.

Lemma indexed_lookup w ns name :
  indexed addr w → ipPodMap w !! addr ns name = pod_at w ns name.
Proof.
  intros [Hw Ha He Hc]. destruct (pod_at w ns name) as [l|] eqn:Hl; [by apply Hc|].
  destruct (ipPodMap w !! addr ns name) as [l|] eqn:Hi; [|done].
  destruct (He _ l Hi) as (p & Hp & Hip & Hat). rewrite (Ha l p Hp) in Hip.
  apply Hown in Hip as [Hns Hn]. congruence.
Qed.

(** What a query from the address of a pod is told, the maps being as they were. *)
Definition told w s ns name (r : outcome (option positive * option go_error)) : Prop :=
  match r with
  | Ret (Some l, None) =>
      ∃ p c, store w !! l = Some p ∧ sp_under s !! (ns, name) = Some c ∧ caused c p
  | Ret (None, None) => sp_under s !! (ns, name) = None
  | Ret (None, Some e) => ∃ n, (cluster_reply env n ns name).2 = Some e
  | _ => False
  end.

Lemma indexed_query w s ns name :
  indexed addr w → represents w s → client_ready env →
  ∃ r n, getChaosPod env (addr ns name) w = (r, ticks n w) ∧ told w s ns name r.
Proof.
  intros Hi [_ Hu] Hready. specialize (Hu ns name). unfold info in Hu.
  rewrite getChaosPod_run, (indexed_lookup w ns name Hi).
  destruct (pod_at w ns name) as [l|] eqn:Hl; simpl in Hu.
  2:{ inversion Hu as [|Hn]. exists (Ret (None, None)), 0. unfold ticks. rewrite Nat.add_0_r.
      by destruct w. }
  destruct (wf_pods w (ix_wf _ _ Hi) ns name l Hl) as (p & Hp & Hns & Hn). rewrite Hp in Hu |- *.
  inversion Hu as [c p' Hc Hs|]; subst p'.
  assert (Htold : told w s ns name (Ret (Some l, None))) by (by exists p, c).
  assert (H2 : tick (tick w) = ticks 2 w) by (unfold tick, ticks; simpl; by rewrite <- Nat.add_assoc).
  destruct (10 * Second <? _)%Z; [|by exists (Ret (Some l, None)), 1]. rewrite Hns, Hn.
  pose proof (cluster_reply_ready env (asked w + 1) ns name Hready).
  destruct (cluster_reply env (asked w + 1) ns name) as [v [e|]] eqn:Hr.
  - exists (Ret (None, Some e)), 2. split; [by destruct v; rewrite H2|]. exists (asked w + 1).
    by rewrite Hr.
  - destruct v as [v|]; [|done]. exists (Ret (Some l, None)), 2. split; [|done]. f_equal.
    rewrite (Hsteady _ _ _ _ Hr), (ix_addr _ _ Hi l p Hp), Hns, Hn, String.eqb_refl. done.
Qed.
End SteadyFacts.

(** The states an interleaving reaches when pods keep their addresses. *)
Lemma steady_run {Sel} `{SelectorLib Sel} env (range : ∀ A, gmap string A → list (string * A))
    (Hrange : ∀ A (m : gmap string A), range A m ≡ₚ map_to_list m) (Hready : client_ready env)
    addr (Hst : steady env addr) (Hown : own_address addr) calls (w : world Sel) s schedule c :
  indexed addr w → represents w s → pool_run schedule (pool_start env range calls w) = Some c →
  indexed addr (p_world c) ∧
  ∃ s', spec_run Sel (carried_out schedule (pool_start env range calls w)) s s' ∧
    represents (p_world c) s'.
Proof.
  intros Hi Hs Hr.
  pose proof (start_safe env range Hrange Hready (indexed addr) calls w (stable_indexed env addr Hst Hown)
    (update_ok_indexed env addr Hst) Hi) as Hsafe.
  destruct (pool_safe_run _ _ schedule _ c Hsafe Hr) as [Hc _].
  split; [by apply Hc|]. by eapply represents_run.
Qed.

Lemma update_ok_wf {Sel} env : update_ok env (wf (Sel:=Sel)).
Proof. intros G T l p n v w HG. by apply update_safe_wf. Qed.

(** * Concrete calls *)

(** One pod is under chaos; while a query from its first address asks for the new one, the chaos is
    cancelled. *)
Definition set_world : world (list string) := (SetDNSChaos ex_moving ex_set new_world).2.
Definition ex_calls : list call := [KQuery "10.0.0.1"; KCancel (mkCancel "chaos1")].
Definition ex_pool : pool (list string) := pool_start ex_moving (@ex_range) ex_calls set_world.

Lemma set_world_wf : wf set_world.
Proof. apply (SetDNSChaos_run ex_moving ex_set new_world wf_new), wf_new. Qed.

(** A cluster that gives every pod an address of its own. *)
Definition ex_addr (ns name : string) : string := pretty (Npos (encode (ns, name))).
Definition ex_steady : Env :=
  mkEnv (λ n, (Z.of_nat n * 11 * Second)%Z)
    (λ _ ns, Some (λ name, inl (mkApiPod (mkMeta name ns "1" None ∅) (ex_addr ns name))))
    (λ n _, Z.of_nat n).
Definition ex_requests : list call :=
  [KSet ex_set; KQuery (ex_addr "busybox" "busybox-0"); KCancel (mkCancel "chaos1")].

Lemma ex_addr_own : own_address ex_addr.
Proof.
  intros ns name ns' name' Heq. unfold ex_addr in Heq. apply (inj pretty) in Heq.
  injection Heq as Heq%(inj encode). by injection Heq.
Qed.

Lemma ex_steady_steady : steady ex_steady ex_addr.
Proof. intros n ns name v. unfold cluster_reply. simpl. by intros [= <-]. Qed.

Lemma ex_steady_ready : client_ready ex_steady.
Proof. intros n ns. by eexists. Qed.

Lemma new_world_indexed addr : indexed (Sel:=list string) addr new_world.
Proof.
  constructor; [apply wf_new|intros l p|intros ip l|intros ns name l; unfold pod_at]; simpl;
    by rewrite lookup_empty.
Qed.

Lemma new_represents : represents (Sel:=list string) new_world (mkSpec ∅ ∅).
Proof.
  split; [done|]. intros ns name. unfold info, pod_at. simpl. rewrite !lookup_empty. constructor.
Qed.

(** The world a schedule leaves. *)
Definition world_after (schedule : list nat) : option (world (list string)) :=
  p_world <$> pool_run schedule ex_pool.

(** The lock the next section of a thread holds. *)
Definition next_region (i : nat) (c : pool (list string)) : option region :=
  t ← p_threads c !! i; match th_rest t with PSec r _ => Some r | PDone _ => None end.

(** * Properties *)

(** A call cut into sections is the call. Run alone, from any well-formed world, the sections of a
    request or a query do what [SetDNSChaos], [CancelDNSChaos] and [getChaosPod] do: the same
    result, error or panic, and the same world. *)
Theorem sections_alone {Sel} `{SelectorLib Sel} env
    (range : ∀ A, gmap string A → list (string * A)) k (w : world Sel) :
  wf w → alone (sections env range k) w = run_call env range k w.
Proof.
  intros Hw. destruct k as [req|req|ip]; [| |by apply query_alone].
  - simpl. unfold mbind, gom_bind. by destruct (SetDNSChaos env req w) as [[r|e|] w'].
  - simpl. unfold mbind, gom_bind. by destruct (CancelDNSChaos range req w) as [[r|e|] w'].
Qed.

Lemma sections_alone_witness :
  alone (sections ex_moving ex_range (KQuery "10.0.0.1")) set_world =
    (Ret (ReplyPod (Some 1%positive) None), moved 1 "10.0.0.2" (44 * Second) 5 set_world).
Proof.
  rewrite (sections_alone ex_moving ex_range (KQuery "10.0.0.1") set_world set_world_wf).
  vm_compute. reflexivity.
Defined.

(** C7: if the lock were shared, no interleaving would break the maps. With sections that are not
    interrupted, which the copied locks of the program do not give, let any calls to set and to cancel
    chaos and queries run from a well-formed world, their sections in any order. In every state
    they reach the maps are well-formed, no call has panicked, and every entry that was there is
    still there, with the same pod, action, scope and selector: a pointer that a query holds
    without the lock, or has returned to [ServeDNS], stays good. And no run goes on forever: it has
    four sections at most for each call. *)
Theorem pool_stays_well_formed {Sel} `{SelectorLib Sel} env
    (range : ∀ A, gmap string A → list (string * A)) calls (w : world Sel) schedule c :
  (∀ A (m : gmap string A), range A m ≡ₚ map_to_list m) → client_ready env → wf w →
  pool_run schedule (pool_start env range calls w) = Some c →
  wf (p_world c) ∧ extends w (p_world c) ∧
  (∀ i t, p_threads c !! i = Some t → th_rest t ≠ PDone Panic) ∧
  length schedule ≤ 4 * length calls.
Proof.
  intros Hrange Hready Hw Hr.
  destruct (pool_safe_run wf no_panic schedule _ c
    (start_safe env range Hrange Hready wf calls w (stable_wf env) (update_ok_wf env) Hw) Hr)
    as [[Hc Ht _] He].
  split; [done|]. split; [done|]. split; [|by eapply start_bounded]. intros i t Hi Hp.
  specialize (Ht i t Hi). rewrite Hp in Ht. by destruct Ht as (? & ? & []).
Qed.

Lemma pool_stays_well_formed_witness :
  match pool_run [0; 0; 0; 1; 0] ex_pool with Some c => wf (p_world c) | None => False end.
Proof.
  destruct (pool_run [0; 0; 0; 1; 0] ex_pool) as [c|] eqn:Hc.
  - exact (proj1 (pool_stays_well_formed ex_moving ex_range ex_calls set_world [0; 0; 0; 1; 0] c
      ex_range_map (ex_ready _ _ _) set_world_wf Hc)).
  - assert (Hr : match pool_run [0; 0; 0; 1; 0] ex_pool with Some _ => true | None => false end = true)
      by (vm_compute; reflexivity). by rewrite Hc in Hr.
Defined.

(** C6: with one shared lock, requests would take effect one at a time. The program locks a copy per
    call and has no such lock ([copied_lock_races]); here each section is one step that nothing
    interrupts, and the address that [getChaosPod] compares without the lock is read in one step.
    Whatever the interleaving of the sections, and whatever the queries find out about addresses:
    the requests carried out, in the order they took the lock, are requests of the calls, each once,
    and the rest is still to come; and the recorded requests and the chaos of every pod are those
    that a machine which carries out the same requests in that order, each at once and with no query
    between, can have. *)
Theorem requests_serialize {Sel} `{SelectorLib Sel} env
    (range : ∀ A, gmap string A → list (string * A)) calls (w : world Sel) s schedule c :
  (∀ A (m : gmap string A), range A m ≡ₚ map_to_list m) → client_ready env → wf w → represents w s →
  let start := pool_start env range calls w in
  pool_run schedule start = Some c →
  filter (λ k, is_request k = true) calls ≡ₚ carried_out schedule start ++ pending (p_threads c) ∧
  ∃ s', spec_run Sel (carried_out schedule start) s s' ∧ represents (p_world c) s'.
Proof.
  intros Hrange Hready Hw Hs start Hr.
  pose proof (start_safe env range Hrange Hready wf calls w (stable_wf env) (update_ok_wf env) Hw) as Hsafe.
  split; [|by eapply represents_run].
  rewrite <- (pending_start env range calls w). by eapply carried_out_pending.
Qed.

Lemma requests_serialize_witness :
  let start := pool_start ex_steady ex_range ex_requests new_world in
  match pool_run [1; 0; 2] start with
  | Some c => ∃ s', spec_run (list string) [KSet ex_set; KCancel (mkCancel "chaos1")] (mkSpec ∅ ∅) s' ∧
      represents (p_world c) s'
  | None => False
  end.
Proof.
  intros start. destruct (pool_run [1; 0; 2] start) as [c|] eqn:Hc.
  - assert (Hl : carried_out [1; 0; 2] start = [KSet ex_set; KCancel (mkCancel "chaos1")])
      by (vm_compute; reflexivity).
    rewrite <- Hl. exact (proj2 (requests_serialize ex_steady ex_range ex_requests new_world
      (mkSpec ∅ ∅) [1; 0; 2] c ex_range_map ex_steady_ready wf_new new_represents Hc)).
  - assert (Hr : match pool_run [1; 0; 2] start with Some _ => true | None => false end = true)
      by (vm_compute; reflexivity). by rewrite Hc in Hr.
Defined.

(** * Behaviours worth knowing *)

(** The chaos of a cancelled pod comes back. A query from a pod that has moved looks it up, asks the
    cluster and compares the address; before it takes the lock again the chaos is cancelled; then
    the query indexes the pod by its new address. Nothing is recorded and no pod is under chaos, but
    queries from the new address get the error of the chaos from then on. In either order one after
    the other, the two calls leave the new address without chaos. *)
Theorem cancelled_pod_returns :
  (∃ w, world_after [0; 0; 0; 1; 0] = Some w ∧
    chaosMap w = ∅ ∧ podMap w = ∅ ∧ ipPodMap w !! "10.0.0.2" = Some 1%positive ∧
    needChaos (store w !! 1%positive) "google.com." = Ret true) ∧
  (∃ w, world_after [0; 0; 0; 0; 1] = Some w ∧ ipPodMap w !! "10.0.0.2" = None) ∧
  (∃ w, world_after [1; 0] = Some w ∧ ipPodMap w !! "10.0.0.2" = None).
Proof. split_and!; (eexists; split; [vm_compute; reflexivity|vm_compute; repeat split]). Qed.

(** The address of an entry is read without the lock. Two queries from a pod that has moved are both
    told its new address; the first is about to write it, holding the lock, while the second is
    about to read the entry to compare, holding none: and what the second one does depends on which
    comes first. One lock for all calls would not exclude this race. *)
Theorem unlocked_read_races :
  let start := pool_start ex_moving (@ex_range) [KQuery "10.0.0.1"; KQuery "10.0.0.1"] set_world in
  let before := [0; 1; 0; 1; 0] in
  (next_region 0 <$> pool_run before start) = Some (Some WriteLocked) ∧
  (next_region 1 <$> pool_run before start) = Some (Some Unlocked) ∧
  (next_region 1 <$> pool_run (before ++ [1]) start) = Some (Some WriteLocked) ∧
  (next_region 1 <$> pool_run (before ++ [0; 1]) start) = Some None.
Proof. vm_compute. repeat split. Qed.
