(* ===== verification/Handler.v ===== *)
(** Serving a query (handler.go): the pod behind the source address, the records, chaos or the answer.

    The parts of CoreDNS that do the work of a lookup with this plugin as their backend, the next
    plugin and the errors CoreDNS writes are parameters. *)
From stdpp Require Import prelude strings gmap sets list.
From S2P Require Import Prelude GoStd Object Controller Deps Kubernetes Parse Records Xfr Chaos ChaosPool.

(** The lookups of package plugin. *)
Inductive lookup_kind : Type :=
| LookupA | LookupAAAA | LookupTXT | LookupCNAME | LookupPTR | LookupMX | LookupSRV | LookupSOA
| LookupNS.

Section Handler.
Context {Sel : Type} `{SelectorLib Sel} `{DnsLib} `{XfrLib}.
Variable env : Env.
Variable uint16_of_inf : Z.
Variable k : Kubernetes.
Abbreviation W := (world Sel).

(** [plugin.A(ctx, &k, zone, state, ...)] and its like: records, extra records and an error. *)
Variable plugin_lookup : lookup_kind → string → Request → outcome (list RR * list RR * option go_error).
(** [plugin.NextOrFailure] and [plugin.BackendError], which write to the client themselves. *)
Variable NextOrFailure : GoM W (Z * option go_error).
Variable BackendError : string → Z → Request → GoM W (Z * option go_error).
(** [k.Fall.Through] *)
Variable Fall_Through : string → bool.
(** [tr.Out] and taking over the connection. *)
Variable Out : list (list RR) → GoM W unit.

Definition with_zone (state : Request) (zone : string) : Request :=
  mkRequest (rq_Name state) (rq_QName state) (rq_QType state) (rq_IP state) zone.

(** [state.NewWithQuestion(state.QName(), dns.TypeA)] with the zone of the state. *)
Definition fake_request (state : Request) : Request :=
  mkRequest (rq_Name state) (rq_QName state) TypeA (rq_IP state) (rq_Zone state).

(** [qname[len(qname)-len(zone):]] *)
Definition zone_of_query (qname zone : string) : outcome string :=
  if (String.length qname <? String.length zone)%nat then Panic
  else Ret (String.substring (String.length qname - String.length zone) (String.length zone) qname).

Definition SOA_of (zone : string) (state : Request) : outcome (list RR * option go_error) :=
  '(records, _, err) ← plugin_lookup LookupSOA zone state; mret (records, err).

(** The result of [Transfer] is dropped. *)
Definition transfer_query (state : Request) : GoM W unit :=
  '(_, sent) ← lift_outcome (Transfer uint16_of_inf k (SOA_of (rq_Zone state)) state);
  match sent with Some es => Out es | None => mret tt end.

(** Records, extra records, the zone of the query and the error. *)
Definition getRecords (state : Request) : GoM W (list RR * list RR * string * option go_error) :=
  let qname := rq_QName state in
  zone ← lift_outcome (zone_of_query qname (Zones_Matches (Zones k) qname));
  let state := with_zone state zone in
  let t := rq_QType state in
  (** The records of a lookup; those lookups that have extra records return them too. *)
  let plain kind := '(records, _, err) ← lift_outcome (plugin_lookup kind zone state);
                    mret (records, [], zone, err) in
  let full kind := '(records, extra, err) ← lift_outcome (plugin_lookup kind zone state);
                   mret (records, extra, zone, err) in
  if (t =? TypeAXFR)%Z || (t =? TypeIXFR)%Z then
    _ ← transfer_query state; mret ([], [], zone, None)
  else if (t =? TypeA)%Z then plain LookupA
  else if (t =? TypeAAAA)%Z then plain LookupAAAA
  else if (t =? TypeTXT)%Z then plain LookupTXT
  else if (t =? TypeCNAME)%Z then plain LookupCNAME
  else if (t =? TypePTR)%Z then plain LookupPTR
  else if (t =? TypeMX)%Z then full LookupMX
  else if (t =? TypeSRV)%Z then full LookupSRV
  else if (t =? TypeSOA)%Z then plain LookupSOA
  else if (t =? TypeNS)%Z && (rq_Name state =? zone)%string then full LookupNS
  else
    '(_, _, err) ← lift_outcome (plugin_lookup LookupA zone (fake_request state));
    mret ([], [], zone, err).

(** What is done with the records when there is no chaos. *)
Definition answer_records (state : Request) (records extra : list RR) (zone : string)
    (err : option go_error) : GoM W (Z * option go_error) :=
  if IsNameError err then
    if (String.length zone =? 0)%nat then NextOrFailure
    else if Fall_Through (rq_Name state) then NextOrFailure
    else if negb (HasSynced (APIConn k)) then BackendError zone RcodeServerFailure state
    else BackendError zone RcodeNameError state
  else
    match err with
    | Some e => mret (RcodeServerFailure, Some e)
    | None =>
        if (length records =? 0)%nat then BackendError zone RcodeSuccess state
        else
          _ ← WriteMsg (mkDnsMsg true ([] ++ records) ([] ++ extra));
          mret (RcodeSuccess, None)
    end.

Definition ServeDNS (state : Request) : GoM W (Z * option go_error) :=
  let sourceIP := rq_IP state in
  '(chaosPod, _) ← getChaosPod env sourceIP;
  '(records, extra, zone, err) ← getRecords state;
  podInfo ← match chaosPod with Some l => p ← deref l; mret (Some p) | None => mret None end;
  chaos ← lift_outcome (needChaos podInfo (rq_QName state));
  if (chaos : bool) then
    match podInfo with Some p => chaosDNS env state p | None => panic end
  else answer_records state records extra zone err.

(** Serving a query as if there were no chaos. *)
Definition plain_serve (state : Request) : GoM W (Z * option go_error) :=
  '(records, extra, zone, err) ← getRecords state;
  answer_records state records extra zone err.

Definition is_transfer (state : Request) : bool :=
  (rq_QType state =? TypeAXFR)%Z || (rq_QType state =? TypeIXFR)%Z.
End Handler.

(** * Facts *)

Section HandlerFacts.
Context {Sel : Type} `{SelectorLib Sel} `{DnsLib} `{XfrLib}.
Variable env : Env.
Variable u : Z.
Variable k : Kubernetes.
Abbreviation W := (world Sel).
Variable plugin_lookup : lookup_kind → string → Request → outcome (list RR * list RR * option go_error).
Variable NextOrFailure : GoM W (Z * option go_error).
Variable BackendError : string → Z → Request → GoM W (Z * option go_error).
Variable Fall_Through : string → bool.
Variable Out : list (list RR) → GoM W unit.
Implicit Types (w : W) (state : Request).

Abbreviation records_of := (getRecords u k plugin_lookup Out).
Abbreviation serve := (ServeDNS env u k plugin_lookup NextOrFailure BackendError Fall_Through Out).
Abbreviation plain := (plain_serve u k plugin_lookup NextOrFailure BackendError Fall_Through Out).
Abbreviation answer_with := (answer_records k NextOrFailure BackendError Fall_Through).

(** The records of a query that is no transfer are read without any effect. *)
Lemma getRecords_pure state : is_transfer state = false → pure_call (records_of state).
Proof.
  unfold is_transfer, getRecords. intros Ht. apply pure_bind; [apply pure_lift|]. intros zone.
  cbn [rq_QType with_zone]. rewrite Ht.
  assert (Hplain : ∀ kind, pure_call (S:=W)
    ('(records, _, err) ← lift_outcome (plugin_lookup kind zone (with_zone state zone));
     mret (records, [] : list RR, zone, err)))
    by (intros kind; apply pure_bind; [apply pure_lift|]; intros [[? ?] ?]; apply pure_ret).
  assert (Hfull : ∀ kind, pure_call (S:=W)
    ('(records, extra, err) ← lift_outcome (plugin_lookup kind zone (with_zone state zone));
     mret (records, extra, zone, err)))
    by (intros kind; apply pure_bind; [apply pure_lift|]; intros [[? ?] ?]; apply pure_ret).
  repeat (match goal with |- pure_call (if ?b then _ else _) => destruct b end;
          [apply Hplain || apply Hfull|]).
  apply pure_bind; [apply pure_lift|]. intros [[? ?] ?]. apply pure_ret.
Qed.

(** A query whose source address led to no pod, also when an error did. *)
Lemma ServeDNS_not_found state w err w1 :
  getChaosPod env (rq_IP state) w = (Ret (None, err), w1) → serve state w = plain state w1.
Proof.
  intros Hg. unfold ServeDNS, plain_serve. erewrite gom_bind_ret by exact Hg.
  unfold mbind, gom_bind. destruct (records_of state w1) as [[[[[records extra] zone] e]|e|] w']; done.
Qed.

(** A query whose source address led to a pod: what [needChaos] says decides. *)
Lemma ServeDNS_found state w l err w1 p :
  is_transfer state = false →
  getChaosPod env (rq_IP state) w = (Ret (Some l, err), w1) → store w1 !! l = Some p →
  is_ret (records_of state w1).1 = true →
  serve state w =
    match needChaos (Some p) (rq_QName state) with
    | Ret true => chaosDNS env state p w1
    | Ret false => plain state w1
    | Throw e => (Throw e, w1)
    | Panic => (Panic, w1)
    end.
Proof.
  intros Ht Hg Hp Hret. unfold ServeDNS, plain_serve. erewrite gom_bind_ret by exact Hg.
  destruct (getRecords_pure state Ht) as [o Ho]. rewrite Ho in Hret.
  destruct o as [[[[records extra] zone] e]|e|]; [|done..].
  erewrite gom_bind_ret by apply Ho. erewrite (gom_bind_ret (records_of state)) by apply Ho.
  erewrite gom_bind_ret.
  2:{ erewrite gom_bind_ret; [reflexivity|]. unfold deref. by rewrite Hp. }
  unfold mbind at 1, gom_bind at 1, lift_outcome at 1.
  by destruct (needChaos (Some p) (rq_QName state)) as [[]|e'|].
Qed.

(** A query from an address that is not indexed. *)
Lemma ServeDNS_unindexed state w : ipPodMap w !! rq_IP state = None → serve state w = plain state w.
Proof. intros Hip. apply (ServeDNS_not_found state w None). by rewrite getChaosPod_run, Hip. Qed.

(** A query from the address of a pod whose entry is fresh. *)
Lemma ServeDNS_fresh state w l p :
  is_transfer state = false →
  ipPodMap w !! rq_IP state = Some l → store w !! l = Some p →
  (time_Now env (asked w) - pi_LastUpdateTime p <= 10 * Second)%Z →
  is_ret (records_of state (tick w)).1 = true →
  serve state w =
    match needChaos (Some p) (rq_QName state) with
    | Ret true => chaosDNS env state p (tick w)
    | Ret false => plain state (tick w)
    | Throw e => (Throw e, tick w)
    | Panic => (Panic, tick w)
    end.
Proof.
  intros Ht Hip Hp Hfresh Hret. apply (ServeDNS_found state w l None); [done| |done|done].
  rewrite getChaosPod_run, Hip, Hp.
  by destruct (Z.ltb_spec (10 * Second) (time_Now env (asked w) - pi_LastUpdateTime p)); [lia|].
Qed.
End HandlerFacts.

(** ** From the cause of a chaos to the answer *)

(** The action of a chaos with this cause on a query for a name; None when the query is not covered.
    A directive of the Corefile whose scope is not [all] has no selector to ask. *)
Definition decision `{SelectorLaws Sel} (c : cause) (name : string) : outcome (option string) :=
  match c with
  | ByRequest req => Ret (if covers req name then Some (set_Action req) else None)
  | ByCorefile action scope => if (scope =? ScopeAll)%string then Ret (Some action) else Panic
  end.

(** The answer of a chaos with this action. *)
Definition action_answer {Sel} env (state : Request) (action : string) : GoM (world Sel) (Z * option go_error) :=
  chaosDNS env state (mkPodInfo "" "" action "" None "" 0).

(** The answer to a query from a pod that is under chaos for this cause, or for none. *)
Definition answer_by `{SelectorLaws Sel} `{DnsLib} `{XfrLib} env u k plugin_lookup NextOrFailure BackendError
    Fall_Through Out (under : option cause) (state : Request) : GoM (world Sel) (Z * option go_error) :=
  let plain := plain_serve u k plugin_lookup NextOrFailure BackendError Fall_Through Out state in
  match under with
  | None => plain
  | Some c =>
      match decision (Sel:=Sel) c (rq_QName state) with
      | Ret None => plain
      | Ret (Some action) => action_answer env state action
      | Throw e => throw e
      | Panic => panic
      end
  end.

Section CauseFacts.
Context {Sel : Type} `{SelectorLaws Sel}.

Lemma chaosDNS_action env state (p : PodInfo Sel) w :
  chaosDNS env state p w = action_answer env state (pi_Action p) w.
Proof. done. Qed.

Lemma caused_decision c (p : PodInfo Sel) name :
  caused c p →
  needChaos (Some p) name = ((λ a, if a is Some _ then true else false) <$> decision c name) ∧
  ∀ action, decision c name = Ret (Some action) → pi_Action p = action.
Proof.
  destruct c as [req|action scope]; simpl.
  - intros (sel & Hsel & [= Ha Hs Hsel']). rewrite Ha. split; [|by case_match; intros ? [= <-]].
    pose proof (needChaos_new_info req sel (mkPbPod "" "") zero_Pod 0 name Hsel) as Hn.
    unfold needChaos, new_info in *. cbn [pi_Scope pi_Selector] in Hn. rewrite Hs, Hsel', Hn.
    by destruct (covers req name).
  - intros [= Ha Hs Hsel]. unfold needChaos. rewrite Hs, Hsel, Ha.
    destruct (scope =? ScopeAll)%string; split; done || by intros ? [= <-].
Qed.
End CauseFacts.

(** * Properties *)

(** C2: chaos touches no one else. A query from an address that leads to no pod under chaos is served
    exactly as if there were no chaos, in its result, in what is written and in every map. *)
Theorem unaffected_source {Sel} `{SelectorLib Sel} `{DnsLib} `{XfrLib} env u k plugin_lookup
    NextOrFailure BackendError Fall_Through Out state (w : world Sel) :
  ipPodMap w !! rq_IP state = None →
  ServeDNS env u k plugin_lookup NextOrFailure BackendError Fall_Through Out state w =
  plain_serve u k plugin_lookup NextOrFailure BackendError Fall_Through Out state w.
Proof. apply ServeDNS_unindexed. Qed.

(** The plugin under concurrent requests, from the requests to the answer. If the lock were shared:
    let the cluster give every pod an address of its own that does not change, and let calls to set
    and to cancel chaos and queries interleave at their lock operations, from maps whose index by
    address is that of the pods under chaos. Then the index stays so; and a query from a pod (no zone transfer, whose lookup
    does not fail by itself) is answered by what the requests carried out so far, in their order,
    say of the pod: plainly when it is not under chaos or the chaos does not cover the name, and
    otherwise with the action of the request; a chaos of the Corefile covers every name when its
    scope is [all] and panics when it is not. Only when checking an old entry with the cluster fails
    is the query answered plainly whatever the requests. *)
Theorem served_as_requested {Sel} `{SelectorLaws Sel} `{DnsLib} `{XfrLib} env
    (range : ∀ A, gmap string A → list (string * A)) addr calls (w : world Sel) s schedule c u k
    plugin_lookup NextOrFailure BackendError Fall_Through Out state ns name :
  let start := pool_start env range calls w in
  let serve := ServeDNS env u k plugin_lookup NextOrFailure BackendError Fall_Through Out state in
  let plain := plain_serve u k plugin_lookup NextOrFailure BackendError Fall_Through Out state in
  (∀ A (m : gmap string A), range A m ≡ₚ map_to_list m) → client_ready env →
  steady env addr → own_address addr → indexed addr w → represents w s →
  pool_run schedule start = Some c →
  rq_IP state = addr ns name → is_transfer state = false →
  (∀ w : world Sel, is_ret (getRecords u k plugin_lookup Out state w).1 = true) →
  indexed addr (p_world c) ∧
  ∃ s' n, spec_run Sel (carried_out schedule start) s s' ∧
    (serve (p_world c) =
       answer_by env u k plugin_lookup NextOrFailure BackendError Fall_Through Out
         (sp_under s' !! (ns, name)) state (ticks n (p_world c)) ∨
     serve (p_world c) = plain (ticks n (p_world c)) ∧
       ∃ i e, (cluster_reply env i ns name).2 = Some e).
Proof.
  intros start serve plain Hrange Hready Hst Hown Hi Hs Hr Hip Ht Hret.
  destruct (steady_run env range Hrange Hready addr Hst Hown calls w s schedule c Hi Hs Hr)
    as (Hi' & s' & Hrun & Hs'). split; [done|]. exists s'.
  destruct (indexed_query env addr Hst Hown (p_world c) s' ns name Hi' Hs' Hready)
    as (r & n & Hg & Htold). rewrite <- Hip in Hg. exists n. split; [done|].
  destruct r as [[[l|] [e|]]|e|]; try done; simpl in Htold.
  - left. destruct Htold as (p & by_ & Hp & -> & Hc).
    destruct (caused_decision by_ p (rq_QName state) Hc) as [Hn Ha]. unfold serve, plain.
    erewrite ServeDNS_found by first [exact Ht|exact Hg|exact Hp|apply Hret]. rewrite Hn.
    unfold answer_by. destruct (decision by_ (rq_QName state)) as [[action|]|e|] eqn:Hd; [|done..].
    simpl. by rewrite chaosDNS_action, (Ha action).
  - right. destruct Htold as [i He]. split; [by eapply ServeDNS_not_found|by exists i, e].
  - left. rewrite Htold. by eapply ServeDNS_not_found.
Qed.

(** A plugin whose every lookup finds one address. *)
Definition ex_lookup (kind : lookup_kind) (zone : string) (state : Request) :
    outcome (list RR * list RR * option go_error) :=
  Ret ([RR_A (mkHdr (rq_Name state) TypeA ClassINET 5) (net.IPv4 10 0 0 1)], [], None).

Definition ex_query (ip name : string) : Request := mkRequest name name TypeA ip "".

Definition ex_serve (env : Env) (state : Request) : GoM (world (list string)) (Z * option go_error) :=
  ServeDNS env 0 (ex_kubernetes ex_snapshot podModeDisabled) ex_lookup (mret (RcodeRefused, None))
    (λ _ rcode _, mret (rcode, None)) (λ _, false) (λ _, mret tt) state.

Definition ex_plain (state : Request) : GoM (world (list string)) (Z * option go_error) :=
  plain_serve 0 (ex_kubernetes ex_snapshot podModeDisabled) ex_lookup (mret (RcodeRefused, None))
    (λ _ rcode _, mret (rcode, None)) (λ _, false) (λ _, mret tt) state.

Definition ex_answer_by (env : Env) (under : option cause) (state : Request) :
    GoM (world (list string)) (Z * option go_error) :=
  answer_by env 0 (ex_kubernetes ex_snapshot podModeDisabled) ex_lookup (mret (RcodeRefused, None))
    (λ _ rcode _, mret (rcode, None)) (λ _, false) (λ _, mret tt) under state.

Lemma served_as_requested_witness :
  let state := ex_query (ex_addr "busybox" "busybox-0") "google.com." in
  match pool_run [1; 0] (pool_start ex_steady ex_range ex_requests new_world) with
  | Some c => ∃ s' n, spec_run (list string) [KSet ex_set] (mkSpec ∅ ∅) s' ∧
      (ex_serve ex_steady state (p_world c) =
         ex_answer_by ex_steady (sp_under s' !! ("busybox", "busybox-0")) state (ticks n (p_world c)) ∨
       ex_serve ex_steady state (p_world c) = ex_plain state (ticks n (p_world c)) ∧
         ∃ i e, (cluster_reply ex_steady i "busybox" "busybox-0").2 = Some e)
  | None => False
  end.
Proof.
  intros state. set (start := pool_start ex_steady ex_range ex_requests new_world).
  destruct (pool_run [1; 0] start) as [c|] eqn:Hc.
  - assert (Hl : carried_out [1; 0] start = [KSet ex_set]) by (vm_compute; reflexivity).
    rewrite <- Hl. unfold ex_serve, ex_plain, ex_answer_by, start.
    exact (proj2 (served_as_requested ex_steady ex_range ex_addr ex_requests new_world (mkSpec ∅ ∅)
      [1; 0] c 0 (ex_kubernetes ex_snapshot podModeDisabled) ex_lookup (mret (RcodeRefused, None))
      (λ _ rcode _, mret (rcode, None)) (λ _, false) (λ _, mret tt) state "busybox" "busybox-0"
      ex_range_map ex_steady_ready ex_steady_steady ex_addr_own (new_world_indexed ex_addr)
      new_represents Hc eq_refl eq_refl (λ w, eq_refl))).
  - assert (Hr : match pool_run [1; 0] start with Some _ => true | None => false end = true)
      by (vm_compute; reflexivity). by rewrite Hc in Hr.
Defined.

Lemma unaffected_source_witness :
  ex_serve (ex_env "10.0.0.1" "10.0.0.2" 9) (ex_query "10.0.0.9" "svc1.testns.svc.cluster.local.") ex_world =
  (Ret (RcodeSuccess, None),
   mkWorld (store ex_world) (next ex_world) (chaosMap ex_world) (podMap ex_world) (ipPodMap ex_world)
     (asked ex_world)
     [mkDnsMsg true [RR_A (mkHdr "svc1.testns.svc.cluster.local." TypeA ClassINET 5) (net.IPv4 10 0 0 1)] []]).
Proof.
  unfold ex_serve. rewrite (unaffected_source (ex_env "10.0.0.1" "10.0.0.2" 9) 0
    (ex_kubernetes ex_snapshot podModeDisabled) ex_lookup (mret (RcodeRefused, None))
    (λ _ rcode _, mret (rcode, None)) (λ _, false) (λ _, mret tt)
    (ex_query "10.0.0.9" "svc1.testns.svc.cluster.local.") ex_world).
  - vm_compute. reflexivity.
  - vm_compute. reflexivity.
Defined.

(** C1: chaos from the request to the answer. After a request to set chaos that succeeded, a query
    (not a zone transfer) comes from the address the cluster gave for a pod of the request during
    it, when no other pod of the request has or had that address; all readings of the clock during
    the request are at most ten seconds old, and the lookup does not fail by itself. If the request
    covers the name of the query, the answer is that of the chaos with the action of the request,
    whatever records there are; with the action [error] it is SERVFAIL with an error and nothing is
    written. If the request does not cover it, the query is served as without chaos. That the pod
    is found by its address is not assumed: it is what setting the chaos does. *)
Theorem chaos_end_to_end {Sel} `{SelectorLaws Sel} `{DnsLib} `{XfrLib} env u k plugin_lookup
    NextOrFailure BackendError Fall_Through Out req state (w : world Sel) pod :
  let w1 := (SetDNSChaos env req w).2 in
  let serve := ServeDNS env u k plugin_lookup NextOrFailure BackendError Fall_Through Out in
  wf w → (SetDNSChaos env req w).1 = Ret (mkResponse true "") → pod ∈ set_Pods req →
  own_address_of env req w w1 pod (rq_IP state) →
  is_transfer state = false →
  (∀ n, asked w ≤ n < asked w1 → (time_Now env (asked w1) - time_Now env n <= 10 * Second)%Z) →
  is_ret (getRecords u k plugin_lookup Out state (tick w1)).1 = true →
  (covers req (rq_QName state) = true →
     serve state w1 = action_answer env state (set_Action req) (tick w1)) ∧
  (covers req (rq_QName state) = true → set_Action req = ActionError →
     serve state w1 = (Ret (RcodeServerFailure, Some (errMsg "dns chaos error")), tick w1)) ∧
  (covers req (rq_QName state) = false →
     serve state w1 =
       plain_serve u k plugin_lookup NextOrFailure BackendError Fall_Through Out state (tick w1)).
Proof.
  intros w1 serve Hw Hok Hin Hown Ht Hfresh Hret.
  destruct (set_found env req w pod _ Hw Hok Hin Hown) as (sel & l & p & Hsel & Hip & Hp & Hmade).
  fold w1 in Hip, Hp, Hmade. destruct Hmade as (n & v & Hn & _ & Hinfo).
  assert (Hneed : needChaos (Some p) (rq_QName state) = Ret (covers req (rq_QName state))).
  { rewrite Hinfo. by apply needChaos_new_info. }
  assert (Haction : pi_Action p = set_Action req) by (by rewrite Hinfo).
  assert (Hs : serve state w1 = if covers req (rq_QName state) then chaosDNS env state p (tick w1)
    else plain_serve u k plugin_lookup NextOrFailure BackendError Fall_Through Out state (tick w1)).
  { unfold serve. rewrite (ServeDNS_fresh _ _ _ _ _ _ _ _ _ _ l p), Hneed; [|done..| |done].
    - by destruct (covers req (rq_QName state)).
    - rewrite Hinfo. apply Hfresh. lia. }
  rewrite chaosDNS_action, Haction in Hs. split_and!; rewrite Hs; intros ->; [done| |done].
  intros Herr. unfold action_answer, chaosDNS. by rewrite Herr.
Qed.

Lemma chaos_end_to_end_witness :
  let env := ex_env "10.0.0.1" "10.0.0.2" 9 in
  let slow := mkEnv (λ n, (Z.of_nat n * Second)%Z) (Client_Pods env) (rand_Intn env) in
  let w1 := (SetDNSChaos slow ex_set (new_world (Sel:=list string))).2 in
  ex_serve slow (ex_query "10.0.0.1" "google.com.") w1 =
    (Ret (RcodeServerFailure, Some (errMsg "dns chaos error")), tick w1).
Proof.
  intros env slow w1. assert (Hasked : asked w1 = 2) by (vm_compute; reflexivity).
  destruct (chaos_end_to_end slow 0 (ex_kubernetes ex_snapshot podModeDisabled) ex_lookup
    (mret (RcodeRefused, None)) (λ _ rcode _, mret (rcode, None)) (λ _, false) (λ _, mret tt) ex_set
    (ex_query "10.0.0.1" "google.com.") (new_world (Sel:=list string)) (mkPbPod "busybox" "busybox-0"))
    as (_ & Hs & _).
  - apply wf_new.
  - vm_compute. reflexivity.
  - left.
  - fold w1. constructor.
    + rewrite Hasked. intros n v Hn. assert (n = 0 ∨ n = 1) as [-> | ->] by lia; by intros [= <-].
    + intros pod' n v Hin%list_elem_of_singleton. by intros [].
    + intros pod' Hin%list_elem_of_singleton. by intros [].
  - reflexivity.
  - fold w1. rewrite Hasked. intros n Hn. assert (n = 0 ∨ n = 1) as [-> | ->] by lia; vm_compute; discriminate.
  - vm_compute. reflexivity.
  - apply Hs; vm_compute; reflexivity.
Defined.
