(* ===== verification/Server.v ===== *)
(** Queries to the plugin while other calls run (handler.go with chaos.go and grpc_server.go).

    [ServeDNS] is cut at the lock operations of [getChaosPod] (see [ChaosPool]), and again between
    reading the records and answering: it runs in up to six sections, and between any two of them the
    requests that set and cancel chaos and other queries may run theirs. *)
From stdpp Require Import prelude strings gmap sets list relations.
From S2P Require Import Prelude GoStd Object Deps Kubernetes Parse Records Xfr Chaos ChaosPool Handler.

(** * The sections of a query *)

(** A call that is followed by more code of its caller, which is given its outcome. *)
Fixpoint followed_by {Sel} (p : proc Sel) (f : outcome reply → proc Sel) : proc Sel :=
  match p with
  | PDone o => f o
  | PSec r s => PSec r (λ w,
      match s w with
      | (Ret p', w') => (Ret (followed_by p' f), w')
      | (Throw e, w') => (Ret (f (Throw e)), w')
      | (Panic, w') => (Ret (f Panic), w')
      end)
  end.

(** The end of a call that answers a query. *)
Definition finish {Sel} (m : GoM (world Sel) (Z * option go_error)) : GoM (world Sel) (proc Sel) :=
  '(rcode, err) ← m; mret (PDone (Ret (ReplyAnswer rcode err))).

(** What a caller of the plugin has it do. *)
Inductive job : Type :=
| Call (k : call)
| Serve (state : Request).

Section Server.
Context {Sel : Type} `{SelectorLib Sel} `{DnsLib} `{XfrLib}.
Variable env : Env.
Variable range : ∀ {A}, gmap string A → list (string * A).
Variable uint16_of_inf : Z.
Variable k : Kubernetes.
Abbreviation W := (world Sel).
Variable plugin_lookup : lookup_kind → string → Request → outcome (list RR * list RR * option go_error).
Variable NextOrFailure : GoM W (Z * option go_error).
Variable BackendError : string → Z → Request → GoM W (Z * option go_error).
Variable Fall_Through : string → bool.
Variable Out : list (list RR) → GoM W unit.

(** [ServeDNS] from [needChaos] on; the entry of the pod is read without the lock. *)
Definition answer_pod (chaosPod : option positive) (state : Request)
    (found : list RR * list RR * string * option go_error) : GoM W (Z * option go_error) :=
  let '(records, extra, zone, err) := found in
  podInfo ← match chaosPod with Some l => p ← deref l; mret (Some p) | None => mret None end;
  chaos ← lift_outcome (needChaos podInfo (rq_QName state));
  if (chaos : bool) then
    match podInfo with Some p => chaosDNS env state p | None => panic end
  else answer_records k NextOrFailure BackendError Fall_Through state records extra zone err.

Definition answer_section (chaosPod : option positive) (state : Request)
    (found : list RR * list RR * string * option go_error) : proc Sel :=
  PSec Unlocked (finish (answer_pod chaosPod state found)).

Definition records_section (chaosPod : option positive) (state : Request) : proc Sel :=
  PSec Unlocked (
    found ← getRecords uint16_of_inf k plugin_lookup Out state;
    mret (answer_section chaosPod state found)).

(** [ServeDNS] after [getChaosPod], whose error is dropped. *)
Definition serve_rest (state : Request) (o : outcome reply) : proc Sel :=
  match o with
  | Ret (ReplyPod chaosPod _) => records_section chaosPod state
  | _ => PDone o
  end.

Definition serve_sections (state : Request) : proc Sel :=
  followed_by (query_sections env (rq_IP state)) (serve_rest state).

Definition job_sections (j : job) : proc Sel :=
  match j with Call c => sections env (@range) c | Serve state => serve_sections state end.

(** A query looks its address up as [getChaosPod] does. *)
Definition job_call (j : job) : call :=
  match j with Call c => c | Serve state => KQuery (rq_IP state) end.

(** The jobs on a world, none of them begun. *)
Definition server_start (jobs : list job) (w : W) : pool Sel :=
  mkPool w ((λ j, mkThread (job_call j) (job_sections j)) <$> jobs).
End Server.

(** * Specifications *)

(** Only messages are written and the clock and the random numbers are asked. *)
Record same_maps {Sel} (w w' : world Sel) : Prop := {
  sm_store : store w' = store w;
  sm_next : next w' = next w;
  sm_chaos : chaosMap w' = chaosMap w;
  sm_pods : podMap w' = podMap w;
  sm_ips : ipPodMap w' = ipPodMap w;
}.

(** Code that leaves the maps of the plugin alone. *)
Definition quiet {Sel A} (m : GoM (world Sel) A) : Prop := ∀ w0, preserves (same_maps w0) m.

(** A reply from the result of [ServeDNS], with the state it leaves. *)
Definition reply_of {Sel} (r : outcome (Z * option go_error) * world Sel) : outcome reply * world Sel :=
  ((λ '(rcode, err), ReplyAnswer rcode err) <$> r.1, r.2).

(** The last section of a query from a pod, from [w], with the reply and the state it leaves: the
    pod is answered by what [s] says of it; or plainly, when the cluster failed to say where it is. *)
Definition answered `{SelectorLaws Sel} `{DnsLib} `{XfrLib} env u k plugin_lookup NextOrFailure BackendError
    Fall_Through Out (s : spec) ns name state (w : world Sel) (o : outcome reply) (w' : world Sel) : Prop :=
  (o, w') = reply_of (answer_by env u k plugin_lookup NextOrFailure BackendError Fall_Through Out
                        (sp_under s !! (ns, name)) state w) ∨
  (o, w') = reply_of (plain_serve u k plugin_lookup NextOrFailure BackendError Fall_Through Out state w) ∧
    ∃ n e, (cluster_reply env n ns name).2 = Some e.

(** * Facts *)

(** ** Calls followed by more *)

Section ProcFacts.
Context {Sel : Type}.
Abbreviation W := (world Sel).
Implicit Types (w : W).

Lemma proc_induction (P : proc Sel → Prop) :
  (∀ o, P (PDone o)) →
  (∀ r s, (∀ w, match (s w).1 with Ret p' => P p' | _ => True end) → P (PSec r s)) → ∀ p, P p.
Proof.
  intros Hd Hs. fix IH 1. intros [o|r s]; [apply Hd|]. apply Hs. intros w.
  destruct (s w) as [[p'|e|] w']; simpl; [apply IH|done..].
Qed.

Lemma followed_alone p f w :
  alone (followed_by p f) w = let '(o, w') := alone p w in alone (f o) w'.
Proof.
  revert w. induction p as [o|r s IH] using proc_induction; intros w; [done|]. simpl.
  specialize (IH w). by destruct (s w) as [[p'|e|] w'].
Qed.

Lemma followed_left n m p f :
  sections_left n p → (∀ o, sections_left (Sel:=Sel) m (f o)) → sections_left (n + m) (followed_by p f).
Proof.
  revert p. induction n as [|n IH]; intros [o|r s] Hp Hf; try done; simpl.
  - apply Hf.
  - change (sections_left (S n + m) (f o)). apply (sections_left_le m); [lia|apply Hf].
  - intros w. specialize (Hp w). destruct (s w) as [[p'|e|] w']; simpl; [by apply IH|..].
    all: apply (sections_left_le m); [lia|apply Hf].
Qed.

(** What is safe stays so when what follows is safe for every outcome it ends with, and has a section
    of its own. *)
Lemma followed_safe (I : W → Prop) (G : W → W → Prop) E T p f w :
  proc_safe I G (ends T) w p → (∀ o, T o → is_done (f o) = false) →
  (∀ o w', T o → extends w w' → proc_safe I G E w' (f o)) → proc_safe I G E w (followed_by p f).
Proof.
  revert w. induction p as [o|r s IH] using proc_induction; intros w Hp Hd Hf.
  { destruct Hp as (w0 & w1 & HT). by apply Hf. }
  intros w' He Hw. destruct (Hp w' He Hw) as (Hi & Hx & HG & Hr). specialize (IH w').
  assert (Hf' : ∀ o w2, T o → extends (s w').2 w2 → proc_safe I G E w2 (f o)).
  { intros o w2 HT He2. apply Hf; [done|]. etransitivity; [exact He|]. by etransitivity. }
  assert (Hend : ∀ o, T o →
    match f o with PDone o' => E w' o' (s w').2 | PSec _ _ => proc_safe I G E (s w').2 (f o) end).
  { intros o HT. specialize (Hd o HT). specialize (Hf' o _ HT (extends_refl _)). by destruct (f o). }
  destruct (s w') as [[[o|r' s']|e|] w''] eqn:Hsw; cbn [fst snd] in *; rewrite ?Hsw; cbn [fst snd].
  - do 3 (split; [done|]). by apply Hend.
  - do 3 (split; [done|]). exact (IH w'' Hr Hd Hf').
  - do 3 (split; [done|]). by apply Hend.
  - do 3 (split; [done|]). by apply Hend.
Qed.
End ProcFacts.

(** ** Quiet code *)

Section QuietFacts.
Context {Sel : Type}.
Abbreviation W := (world Sel).
Implicit Types (w : W).

#[export] Instance same_maps_preorder : PreOrder (same_maps (Sel:=Sel)).
Proof. split; [by constructor|]. intros w1 w2 w3 [] []. constructor; congruence. Qed.

Lemma quiet_run {A} (m : GoM W A) w : quiet m → same_maps w (m w).2.
Proof. intros Hm. apply (Hm w w). done. Qed.

Lemma quiet_bind {A B} (m : GoM W A) (f : A → GoM W B) : quiet m → (∀ a, quiet (f a)) → quiet (m ≫= f).
Proof. intros Hm Hf w0. apply preserves_bind; [apply Hm|]. intros a. apply Hf. Qed.

Lemma quiet_pure {A} (m : GoM W A) : pure_call m → quiet m.
Proof. intros [o Ho] w0 w Hw. by rewrite Ho. Qed.

Lemma quiet_ret {A} (a : A) : quiet (Sel:=Sel) (mret a).
Proof. apply quiet_pure, pure_ret. Qed.

Lemma quiet_lift {A} (o : outcome A) : quiet (Sel:=Sel) (lift_outcome o).
Proof. apply quiet_pure, pure_lift. Qed.

Lemma quiet_panic {A} : quiet (Sel:=Sel) (panic (A:=A)).
Proof. intros w0. apply preserves_panic. Qed.

Lemma quiet_deref l : quiet (Sel:=Sel) (deref l).
Proof. intros w0 w Hw. unfold deref. by destruct (store w !! l). Qed.

Lemma quiet_write m : quiet (Sel:=Sel) (WriteMsg m).
Proof. intros w0 w [? ? ? ? ?]. by constructor. Qed.

Lemma quiet_random env n nums : quiet (Sel:=Sel) (random_bytes env n nums).
Proof. intros w0 w [? ? ? ? ?]. rewrite random_bytes_run. by constructor. Qed.
End QuietFacts.

#[export] Hint Resolve quiet_bind quiet_ret quiet_lift quiet_panic quiet_deref quiet_write quiet_random : gocall.

(** Code is quiet when its calls are. *)
Ltac quiet_tac :=
  repeat first
    [ progress intros
    | solve [auto with gocall]
    | match goal with
      | |- quiet (_ ≫= _) => apply quiet_bind
      | |- quiet (if ?b then _ else _) => destruct b
      | |- quiet (match ?x with _ => _ end) => destruct x
      end ].

Section ServeFacts.
Context {Sel : Type} `{SelectorLib Sel} `{DnsLib} `{XfrLib}.
Variable env : Env.
Variable u : Z.
Variable k : Kubernetes.
Abbreviation W := (world Sel).
Variable plugin_lookup : lookup_kind → string → Request → outcome (list RR * list RR * option go_error).
Variable NextOrFailure : GoM W (Z * option go_error).
Variable BackendError : string → Z → Request → GoM W (Z * option go_error).
Variable Fall_Through : string → bool.
Variable Out : list (list RR) → GoM W unit.
Hypothesis Next_quiet : quiet NextOrFailure.
Hypothesis Error_quiet : ∀ zone rcode state, quiet (BackendError zone rcode state).
Hypothesis Out_quiet : ∀ es, quiet (Out es).
Implicit Types (w : W) (state : Request).

Abbreviation records_of := (getRecords u k plugin_lookup Out).
Abbreviation plain := (plain_serve u k plugin_lookup NextOrFailure BackendError Fall_Through Out).
Abbreviation answer := (answer_pod env k NextOrFailure BackendError Fall_Through).

Lemma quiet_chaosDNS state p : quiet (chaosDNS (Sel:=Sel) env state p).
Proof. unfold chaosDNS, getRandomIPv4. quiet_tac. Qed.

Lemma quiet_records state : quiet (records_of state).
Proof. unfold getRecords, transfer_query. cbv zeta. quiet_tac. Qed.

Lemma quiet_answer_records state records extra zone err :
  quiet (answer_records k NextOrFailure BackendError Fall_Through state records extra zone err).
Proof. unfold answer_records. quiet_tac. Qed.

Lemma quiet_answer chaosPod state found : quiet (answer chaosPod state found).
Proof.
  destruct found as [[[records extra] zone] err]. unfold answer_pod.
  pose proof quiet_chaosDNS. pose proof quiet_answer_records. quiet_tac.
Qed.

(** ** The sections of a query *)

Lemma serve_whole state w :
  ServeDNS env u k plugin_lookup NextOrFailure BackendError Fall_Through Out state w =
  (getChaosPod env (rq_IP state) ≫= λ '(l, _), records_of state ≫= answer l state) w.
Proof.
  unfold ServeDNS, mbind, gom_bind. destruct (getChaosPod _ _ w) as [[[l e]|e|] w1]; [|done..].
  by destruct (records_of state w1) as [[[[[records extra] zone] err]|e'|] w2].
Qed.

(** Run alone, the sections of a query do what [ServeDNS] does. *)
Lemma serve_alone state w :
  wf w →
  alone (serve_sections env u k plugin_lookup NextOrFailure BackendError Fall_Through Out state) w =
  (ServeDNS env u k plugin_lookup NextOrFailure BackendError Fall_Through Out state ≫=
     λ '(rcode, err), mret (ReplyAnswer rcode err)) w.
Proof.
  intros Hw. unfold serve_sections. rewrite followed_alone, query_alone by done.
  unfold mbind, gom_bind. rewrite serve_whole. unfold mbind, gom_bind.
  destruct (getChaosPod _ _ w) as [[[l e]|e|] w1]; simpl; [|done..].
  unfold mbind, gom_bind. destruct (records_of state w1) as [[found|e'|] w2]; simpl; [|done..].
  unfold finish, mbind, gom_bind. by destruct (answer l state found w2) as [[[]|e'|] w3].
Qed.

Lemma serve_left state :
  sections_left 6 (serve_sections env u k plugin_lookup NextOrFailure BackendError Fall_Through Out state).
Proof.
  apply (followed_left 4 2); [apply query_left|]. intros [[]|e|]; try done. simpl. intros w.
  unfold mbind, gom_bind. destruct (records_of state w) as [[found|e|] w1]; simpl; [|done..].
  intros w2. unfold finish, mbind, gom_bind. by destruct (answer _ state found w2) as [[[]|e'|] w3].
Qed.

Section Invariant.
Variable I : W → Prop.
Hypothesis HI : stable env I.

(** A quiet section keeps every invariant and does what a query may do. *)
Lemma quiet_section ip w w' :
  I w → same_maps w w' → I w' ∧ extends w w' ∧ guarantee (KQuery ip) w w'.
Proof.
  intros Hw [Hs Hn Hc Hp Hi]. assert (He : extends w w') by by apply extends_store.
  split; [|split; [done|by apply guarantee_query; [apply (st_wf _ _ HI)|..]]].
  revert Hw. apply (st_ext _ _ HI); try done. intros ns name. unfold pod_at. by rewrite Hp.
Qed.

Lemma answer_safe E ip chaosPod state found w0 :
  (∀ w, extends w0 w → I w →
    let '(o, w') := reply_of (answer chaosPod state found w) in E w o w') →
  proc_safe I (guarantee (KQuery ip)) E w0
    (answer_section env k NextOrFailure BackendError Fall_Through chaosPod state found).
Proof.
  intros HE w He Hw. specialize (HE w He Hw).
  pose proof (quiet_section ip w _ Hw (quiet_run _ w (quiet_answer chaosPod state found))) as Hq.
  destruct Hq as (Hi & Hx & HG). unfold finish, mbind, gom_bind.
  by destruct (answer chaosPod state found w) as [[[]|e|] w'].
Qed.

Lemma records_safe E ip chaosPod state w0 :
  (∀ w, extends w0 w → I w →
    match records_of state w with
    | (Ret found, w') => ∀ w2, extends w' w2 → I w2 →
        let '(o, w3) := reply_of (answer chaosPod state found w2) in E w2 o w3
    | (Throw e, w') => E w (Throw e) w'
    | (Panic, w') => E w Panic w'
    end) →
  proc_safe I (guarantee (KQuery ip)) E w0
    (records_section env u k plugin_lookup NextOrFailure BackendError Fall_Through Out chaosPod state).
Proof.
  intros HE w He Hw. specialize (HE w He Hw).
  pose proof (quiet_section ip w _ Hw (quiet_run _ w (quiet_records state))) as Hq.
  unfold mbind, gom_bind. destruct (records_of state w) as [[found|e|] w']; cbn [fst snd] in *.
  all: destruct Hq as (Hi & Hx & HG); do 3 (split; [done|]); try exact HE.
  exact (answer_safe E ip chaosPod state found w' HE).
Qed.
End Invariant.
End ServeFacts.

(** ** One thread of a pool *)

Section ThreadFacts.
Context {Sel : Type} `{SelectorLib Sel}.
Abbreviation W := (world Sel).
Implicit Types (w : W) (c : pool Sel) (t : thread Sel).

Lemma pool_run_app before after c :
  pool_run (before ++ after) c = pool_run before c ≫= pool_run after.
Proof.
  revert c. induction before as [|i before IH]; intros c; [done|]. simpl.
  destruct (pool_next i c) as [c'|]; [apply IH|done].
Qed.

Lemma pool_next_other i j c c' : pool_next j c = Some c' → i ≠ j → p_threads c' !! i = p_threads c !! i.
Proof. intros (k & r & s & _ & ->)%pool_next_Some Hne. simpl. by rewrite list_lookup_insert_ne. Qed.

Lemma pool_next_run i t p' w' c c' :
  p_threads c !! i = Some t → section_run (th_rest t) (p_world c) = (Ret p', w') →
  pool_next i c = Some c' → p_world c' = w' ∧ p_threads c' !! i = Some (mkThread (th_call t) p').
Proof.
  intros Hi Hs (k & r & s & Hi' & ->)%pool_next_Some. rewrite Hi in Hi'. injection Hi' as ->.
  simpl in *. rewrite Hs. split; [done|]. apply list_lookup_insert_eq. by eapply lookup_lt_Some.
Qed.

(** A call that has ended runs no more. *)
Lemma done_stays schedule i t c c' :
  p_threads c !! i = Some t → is_done (th_rest t) = true → pool_run schedule c = Some c' →
  (i ∉ schedule) ∧ p_threads c' !! i = Some t.
Proof.
  intros Hi Hd. revert c Hi. induction schedule as [|j schedule IH]; intros c Hi; simpl.
  { intros [= <-]. split; [apply not_elem_of_nil|done]. }
  destruct (pool_next j c) as [c1|] eqn:Hn; [|done]. simpl. intros Hr. destruct (decide (i = j)) as [<-|Hne].
  - apply pool_next_Some in Hn as (k & r & s & Hi' & _). rewrite Hi in Hi'. by simplify_eq.
  - rewrite <- (pool_next_other i j c c1 Hn Hne) in Hi. destruct (IH c1 Hi Hr) as [Hni Hend].
    split; [|done]. by apply not_elem_of_cons.
Qed.

(** The first section of a call that ends. *)
Lemma first_section schedule i t t' c c' :
  p_threads c !! i = Some t → is_done (th_rest t) = false → pool_run schedule c = Some c' →
  p_threads c' !! i = Some t' → is_done (th_rest t') = true →
  ∃ before after c1, schedule = before ++ i :: after ∧ (i ∉ before) ∧ pool_run before c = Some c1 ∧
    p_threads c1 !! i = Some t ∧ pool_run (i :: after) c1 = Some c'.
Proof.
  intros Hi Hd. revert c Hi. induction schedule as [|j schedule IH]; intros c Hi Hr Hi' Hd'.
  { injection Hr as <-. rewrite Hi in Hi'. injection Hi' as <-. by rewrite Hd in Hd'. }
  destruct (decide (i = j)) as [<-|Hne].
  { exists [], schedule, c. split; [done|]. split; [apply not_elem_of_nil|done]. }
  simpl in Hr. destruct (pool_next j c) as [c1|] eqn:Hn; [|done]. simpl in Hr.
  rewrite <- (pool_next_other i j c c1 Hn Hne) in Hi.
  destruct (IH c1 Hi Hr Hi' Hd') as (before & after & c2 & -> & Hni & Hb & Hi2 & Hr2).
  exists (j :: before), after, c2. split; [done|]. split; [by apply not_elem_of_cons|].
  split; [|done]. simpl. by rewrite Hn.
Qed.

(** The last one, after which the outcome is as what is known of the call says. *)
Lemma last_section (I : W → Prop) E E' schedule i t t' o c c' :
  pool_safe I E c → p_threads c !! i = Some t → is_done (th_rest t) = false →
  proc_safe I (guarantee (th_call t)) E' (p_world c) (th_rest t) →
  pool_run schedule c = Some c' → p_threads c' !! i = Some t' → th_rest t' = PDone o →
  ∃ between after c1 c2, schedule = between ++ i :: after ∧ (i ∉ after) ∧
    pool_run between c = Some c1 ∧ pool_next i c1 = Some c2 ∧ E' (p_world c1) o (p_world c2).
Proof.
  revert t c. induction schedule as [|j schedule IH]; intros t c Hc Hi Hd Hsafe Hr Hi' Ho.
  { injection Hr as <-. rewrite Hi in Hi'. injection Hi' as <-. by rewrite Ho in Hd. }
  simpl in Hr. destruct (pool_next j c) as [c1|] eqn:Hn; [|done]. simpl in Hr.
  destruct (pool_safe_next I E j c c1 Hc Hn) as (Hc1 & He & _).
  assert (Hlater : ∀ t1, p_threads c1 !! i = Some t1 → is_done (th_rest t1) = false →
    proc_safe I (guarantee (th_call t1)) E' (p_world c1) (th_rest t1) →
    ∃ between after c2 c3, j :: schedule = between ++ i :: after ∧ (i ∉ after) ∧
      pool_run between c = Some c2 ∧ pool_next i c2 = Some c3 ∧ E' (p_world c2) o (p_world c3)).
  { intros t1 H1 H2 H3. destruct (IH t1 c1 Hc1 H1 H2 H3 Hr Hi' Ho)
      as (between & after & c2 & c3 & -> & Hni & Hb & Hn2 & HE).
    exists (j :: between), after, c2, c3. do 2 (split; [done|]). split; [|done]. simpl. by rewrite Hn. }
  destruct (decide (i = j)) as [<-|Hne].
  2:{ rewrite <- (pool_next_other i j c c1 Hn Hne) in Hi. apply (Hlater t); [done..|].
      by apply (proc_safe_later I _ E' (p_world c)). }
  pose proof Hn as (k & r & s & Hik & ->)%pool_next_Some. rewrite Hi in Hik. injection Hik as ->.
  pose proof (proc_safe_resume I _ E' r s (p_world c) (ps_world _ _ _ Hc) Hsafe) as Hres.
  destruct (Hsafe (p_world c) (extends_refl _) (ps_world _ _ _ Hc)) as (_ & _ & _ & HE).
  set (t1 := mkThread k (resume (s (p_world c)).1)) in *.
  assert (Hi1 : p_threads (mkPool (s (p_world c)).2 (<[i:=t1]> (p_threads c))) !! i = Some t1).
  { apply list_lookup_insert_eq. by eapply lookup_lt_Some. }
  destruct (is_done (th_rest t1)) eqn:Hd1; [|by apply (Hlater t1)].
  destruct (done_stays schedule i t1 _ c' Hi1 Hd1 Hr) as [Hni Hend]. rewrite Hi' in Hend.
  injection Hend as ->. exists [], schedule, c. eexists. do 2 (split; [done|]). split; [done|].
  split; [exact Hn|]. subst t1. cbn [th_rest p_world] in *.
  destruct (s (p_world c)).1 as [[o'|]|e|]; simpl in *; by simplify_eq.
Qed.
End ThreadFacts.

(** ** The jobs of a server *)

Section ServerFacts.
Context {Sel : Type} `{SelectorLaws Sel} `{DnsLib} `{XfrLib}.
Variable env : Env.
Variable range : ∀ {A}, gmap string A → list (string * A).
Hypothesis range_map : ∀ A (m : gmap string A), range m ≡ₚ map_to_list m.
Hypothesis ready : client_ready env.
Variable u : Z.
Variable k : Kubernetes.
Abbreviation W := (world Sel).
Variable plugin_lookup : lookup_kind → string → Request → outcome (list RR * list RR * option go_error).
Variable NextOrFailure : GoM W (Z * option go_error).
Variable BackendError : string → Z → Request → GoM W (Z * option go_error).
Variable Fall_Through : string → bool.
Variable Out : list (list RR) → GoM W unit.
Hypothesis Next_quiet : quiet NextOrFailure.
Hypothesis Error_quiet : ∀ zone rcode state, quiet (BackendError zone rcode state).
Hypothesis Out_quiet : ∀ es, quiet (Out es).
Implicit Types (w : W) (state : Request).

Abbreviation records_of := (getRecords u k plugin_lookup Out).
Abbreviation plain := (plain_serve u k plugin_lookup NextOrFailure BackendError Fall_Through Out).
Abbreviation answer := (answer_pod env k NextOrFailure BackendError Fall_Through).
Abbreviation answer_for := (answer_by env u k plugin_lookup NextOrFailure BackendError Fall_Through Out).
Abbreviation start := (server_start env (@range) u k plugin_lookup NextOrFailure BackendError Fall_Through Out).
Abbreviation serve_proc := (serve_sections env u k plugin_lookup NextOrFailure BackendError Fall_Through Out).

Lemma proc_safe_mono (I : W → Prop) G (E E' : W → outcome reply → W → Prop) p w :
  (∀ w o w', E w o w' → E' w o w') → proc_safe I G E w p → proc_safe I G E' w p.
Proof.
  intros HE. revert w. induction p as [o|r s IH] using proc_induction; intros w Hp.
  { destruct Hp as (w0 & w1 & Ho). exists w0, w1. by apply HE. }
  intros w' He Hw. destruct (Hp w' He Hw) as (Hi & Hx & HG & Hr). specialize (IH w').
  do 3 (split; [done|]). destruct (s w').1 as [[o|r' s']|e|]; [by apply HE|by apply IH|by apply HE..].
Qed.

(** Every job is safe, however it ends. *)
Lemma serve_safe (I : W → Prop) state w0 :
  stable env I → update_ok env I →
  proc_safe I (guarantee (KQuery (rq_IP state))) (λ _ _ _, True) w0 (serve_proc state).
Proof.
  intros HI Hup. apply (followed_safe I _ _ (λ o, ∃ l err, o = Ret (ReplyPod l err))).
  - apply (query_safe env ready I); [done|apply guarantee_query| |by do 2 eexists|].
    + intros l p n v w. apply (Hup _ (λ o, ∃ l err, o = Ret (ReplyPod l err))), guarantee_query.
    + intros l p. split; [by do 2 eexists|]. intros n e _. by do 2 eexists.
  - by intros o (l & err & ->).
  - intros o w' (l & err & ->) _. apply records_safe; try done. intros w _ _.
    destruct (records_of state w) as [[found|e|] w1]; [|done..]. intros w2 _ _.
    by destruct (reply_of _).
Qed.

Lemma server_safe (I : W → Prop) jobs w :
  stable env I → update_ok env I → I w → pool_safe I (λ _ _ _, True) (start jobs w).
Proof.
  intros HI Hup Hw. constructor; simpl; [done| |]; intros i t Hi;
    rewrite list_lookup_fmap in Hi; destruct (jobs !! i) as [[c|state]|]; try done;
    injection Hi as <-; simpl.
  - by eapply proc_safe_mono; [|by apply call_safe].
  - by apply serve_safe.
  - by apply request_left.
  - done.
Qed.

Lemma server_bounded schedule jobs w c :
  pool_run schedule (start jobs w) = Some c → length schedule ≤ 6 * length jobs.
Proof.
  intros Hr. apply (run_bounded _ _ _ (replicate (length jobs) 6)) in Hr.
  - rewrite sum_list_replicate in Hr. lia.
  - simpl. clear Hr. induction jobs as [|j jobs IH]; [constructor|]. constructor; [|done].
    destruct j as [c'|state]; [|apply serve_left]. apply (sections_left_le 4); [lia|apply call_left].
Qed.

(** ** What a query is told *)

(** The records are read before the answer, which does not depend on when. *)
Lemma records_before state found w1 w2 :
  is_transfer state = false → records_of state w1 = (Ret found, w2) →
  ∀ w, records_of state w = (Ret found, w).
Proof.
  intros Ht Hf. destruct (getRecords_pure u k plugin_lookup Out state Ht) as [o Ho].
  rewrite Ho in Hf. injection Hf as -> _. exact Ho.
Qed.

Lemma answer_none state found w :
  (∀ w, records_of state w = (Ret found, w)) → answer None state found w = plain state w.
Proof.
  intros Hf. unfold plain_serve. erewrite gom_bind_ret by apply Hf.
  by destruct found as [[[records extra] zone] err].
Qed.

Lemma answer_some state found l p by_ w :
  (∀ w, records_of state w = (Ret found, w)) → store w !! l = Some p → caused by_ p →
  answer (Some l) state found w = answer_for (Some by_) state w.
Proof.
  intros Hf Hp Hc. destruct (caused_decision by_ p (rq_QName state) Hc) as [Hn Ha].
  pose proof (answer_none state found w Hf) as Hplain.
  destruct found as [[[records extra] zone] err]. unfold answer_pod in *.
  erewrite gom_bind_ret by (erewrite gom_bind_ret; [reflexivity|unfold deref; by rewrite Hp]).
  rewrite Hn. unfold answer_by. destruct (decision by_ (rq_QName state)) as [[action|]|e|]; [|done..].
  change (chaosDNS env state p w = action_answer env state action w).
  by rewrite chaosDNS_action, (Ha action).
Qed.

Abbreviation answered_by :=
  (answered env u k plugin_lookup NextOrFailure BackendError Fall_Through Out).

(** A query that was told nothing of a pod, or that a pod is under chaos, is safe and answered so. *)
Lemma rest_answered (I : W → Prop) (E : W → outcome reply → W → Prop) under ip chaosPod state w0 :
  stable env I → is_transfer state = false → (∀ w, is_ret (records_of state w).1 = true) →
  match chaosPod with
  | Some l => ∃ p by_, store w0 !! l = Some p ∧ under = Some by_ ∧ caused by_ p
  | None => under = None
  end →
  (∀ w, let '(o, w') := reply_of (answer_for under state w) in E w o w') →
  proc_safe I (guarantee (KQuery ip)) E w0
    (records_section env u k plugin_lookup NextOrFailure BackendError Fall_Through Out chaosPod state).
Proof.
  intros HI Ht Hret Hpod HE. apply records_safe; try done. intros w He _. specialize (Hret w).
  destruct (records_of state w) as [[found|e|] w1] eqn:Hf; [|done..].
  pose proof (records_before state found w w1 Ht Hf) as Hfound.
  rewrite (Hfound w) in Hf. injection Hf as <-. intros w2 He2 _. specialize (HE w2).
  destruct chaosPod as [l|]; [|by rewrite Hpod in HE; rewrite (answer_none state found w2 Hfound)].
  destruct Hpod as (p & by_ & Hp & -> & Hc).
  destruct (He l p Hp) as (p1 & Hp1 & Hfix1). destruct (He2 l p1 Hp1) as (p2 & Hp2 & Hfix2).
  rewrite (answer_some state found l p2 by_ w2); [done..|].
  apply (caused_fixed by_ p1 p2 Hfix2). by apply (caused_fixed by_ p p1 Hfix1).
Qed.

Lemma followed_run (p p' : proc Sel) f w w' :
  is_done p = false → section_run p w = (Ret p', w') →
  section_run (followed_by p f) w = (Ret (followed_by p' f), w').
Proof. destruct p as [|r s]; [done|]. intros _ Hr. simpl in *. by rewrite Hr. Qed.

Section Steady.
Variable addr : string → string → string.
Hypothesis Hst : steady env addr.
Hypothesis Hown : own_address addr.

(** A query takes its answer from the state of its first section. *)
Lemma look_up_decides state ns name w s :
  indexed addr w → represents w s → rq_IP state = addr ns name → is_transfer state = false →
  (∀ w, is_ret (records_of state w).1 = true) →
  ∃ p' w', section_run (serve_proc state) w = (Ret p', w') ∧ is_done p' = false ∧
    proc_safe (indexed addr) (guarantee (KQuery (rq_IP state))) (answered_by s ns name state) w' p'.
Proof.
  intros Hi [_ Hu] Hip Ht Hret. specialize (Hu ns name). unfold info in Hu.
  pose proof (indexed_lookup addr Hown w ns name Hi) as Hl.
  pose proof (stable_indexed (Sel:=Sel) env addr Hst Hown) as HI.
  assert (Hby : ∀ w, let '(o, w') := reply_of (answer_for (sp_under s !! (ns, name)) state w) in
    answered_by s ns name state w o w').
  { intros w1. destruct (reply_of _) as [o w2] eqn:Hr. left. by rewrite Hr. }
  destruct (pod_at w ns name) as [l|] eqn:Hat; simpl in Hu.
  2:{ inversion Hu as [|Hn]. do 2 eexists. split; [|split].
    - apply followed_run; [done|]. apply lookup_none_run. by rewrite Hip.
    - done.
    - by eapply rest_answered. }
  destruct (wf_pods w (ix_wf _ _ Hi) ns name l Hat) as (p & Hp & Hns & Hn). rewrite Hp in Hu.
  inversion Hu as [by_ p' Hc Hs|]; subst p'.
  set (T := λ o, o = Ret (ReplyPod (Some l) None) ∨ ∃ e, o = Ret (ReplyPod None (Some e)) ∧
    ∃ n, (cluster_reply env n ns name).2 = Some e).
  do 2 eexists. split; [|split].
  - apply followed_run; [done|]. apply (lookup_run env _ l p); [by rewrite Hip|done].
  - by case_match.
  - apply (followed_safe _ _ _ T).
    + apply (found_safe env ready _ _ T HI (guarantee_query _)) with (p := p); [| |done].
      * intros l' p' n v w1. apply (update_ok_indexed env addr Hst _ T), guarantee_query.
      * split; [by left|]. rewrite Hns, Hn. intros n e He. right. by exists e; split; [|exists n].
    + by intros o [->|(e & -> & _)].
    + intros o w' [->|(e & -> & He)] Hext.
      * destruct (Hext l p Hp) as (p' & Hp' & Hfix). eapply rest_answered; try done.
        exists p', by_. by split_and!; [|rewrite Hs|eapply caused_fixed].
      * eapply (rest_answered _ _ None); try done. intros w1. destruct (reply_of _) as [o w2] eqn:Hr.
        right. split; [by rewrite <- Hr|]. destruct He as [n He]. by exists n, e.
Qed.
End Steady.
End ServerFacts.

(** * Concrete servers *)

(** A query from a pod, a request that puts it under chaos and one that cancels it. *)
Definition ex_state : Request := ex_query (ex_addr "busybox" "busybox-0") "google.com.".
Definition ex_jobs : list job := [Serve ex_state; Call (KSet ex_set); Call (KCancel (mkCancel "chaos1"))].
Definition ex_server : pool (list string) :=
  server_start ex_steady ex_range 0 (ex_kubernetes ex_snapshot podModeDisabled) ex_lookup
    (mret (RcodeRefused, None)) (λ _ rcode _, mret (rcode, None)) (λ _, false) (λ _, mret tt)
    ex_jobs new_world.
(** The chaos is cancelled after the query has looked its address up, and before it is answered. *)
Definition ex_late : list nat := [1; 0; 2; 0; 0; 0; 0].

(** The reply to the query. *)
Definition ex_reply (schedule : list nat) : option (outcome reply) :=
  c ← pool_run schedule ex_server; t ← p_threads c !! 0%nat;
  match th_rest t with PDone o => Some o | PSec _ _ => None end.

Lemma ex_reply_inv schedule o :
  ex_reply schedule = Some o →
  ∃ c t, pool_run schedule ex_server = Some c ∧ p_threads c !! 0%nat = Some t ∧ th_rest t = PDone o.
Proof.
  unfold ex_reply. intros (c & Hc & (t & Ht & Ho)%bind_Some)%bind_Some. exists c, t.
  split; [done|]. split; [done|]. destruct (th_rest t); by simplify_eq.
Qed.

(** * Properties *)

(** C5: queries are linearizable under two assumptions that the program does not make true by itself. One
    is a lock that all calls share: each section is one step that nothing interrupts, where the
    program locks a copy of the lock per call ([copied_lock_races]); so this is what the code does
    once its receivers are pointers. The other is that the cluster gives every pod an address of its
    own that does not change; then no query writes an address, and reading one without the lock, as
    [getChaosPod] does to compare it, is harmless as one step. Under these, let requests to set and to
    cancel chaos and queries to the plugin run at the same time, their sections in any order, the
    code outside the chaos leaving the maps alone. Then every query from a pod (no zone transfer, whose
    lookup does not fail by itself) that has been answered was answered as if it had been alone at
    one moment between its start and its reply, the one of its first section: by what the requests
    carried out before that moment say of the pod, whatever the requests and queries did while it
    was on its way. What it writes and the reply it gives are those of [ServeDNS] without chaos or of
    the action of the chaos, at its last section. Only when checking an old entry with the cluster
    fails is it answered plainly. And the server never runs on: it makes six steps at most for each
    job. *)
Theorem queries_linearize {Sel} `{SelectorLaws Sel} `{DnsLib} `{XfrLib} env
    (range : ∀ A, gmap string A → list (string * A)) addr jobs (w : world Sel) s schedule c u k
    plugin_lookup NextOrFailure BackendError Fall_Through Out i state ns name t o :
  let start := server_start env range u k plugin_lookup NextOrFailure BackendError Fall_Through Out jobs w in
  (∀ A (m : gmap string A), range A m ≡ₚ map_to_list m) → client_ready env →
  quiet NextOrFailure → (∀ zone rcode state, quiet (BackendError zone rcode state)) →
  (∀ es, quiet (Out es)) →
  steady env addr → own_address addr → indexed addr w → represents w s →
  jobs !! i = Some (Serve state) → rq_IP state = addr ns name → is_transfer state = false →
  (∀ w : world Sel, is_ret (getRecords u k plugin_lookup Out state w).1 = true) →
  pool_run schedule start = Some c → p_threads c !! i = Some t → th_rest t = PDone o →
  length schedule ≤ 6 * length jobs ∧
  ∃ before between after s' c1 c2,
    schedule = before ++ i :: between ++ i :: after ∧ (i ∉ before) ∧ (i ∉ after) ∧
    spec_run Sel (carried_out before start) s s' ∧
    pool_run (before ++ i :: between) start = Some c1 ∧ pool_next i c1 = Some c2 ∧
    answered env u k plugin_lookup NextOrFailure BackendError Fall_Through Out s' ns name state
      (p_world c1) o (p_world c2).
Proof.
  intros start Hrange Hready Hnext Herr Hout Hst Hown Hi Hs Hj Hip Ht Hret Hr Hthr Ho.
  split; [by eapply server_bounded|].
  pose proof (server_safe env range Hrange Hready u k plugin_lookup NextOrFailure BackendError
    Fall_Through Out Hnext Herr Hout (indexed addr) jobs w (stable_indexed env addr Hst Hown)
    (update_ok_indexed env addr Hst) Hi) as Hsafe. fold start in Hsafe.
  destruct (first_section schedule i (mkThread (KQuery (rq_IP state)) (serve_sections env u k
      plugin_lookup NextOrFailure BackendError Fall_Through Out state)) t start c)
    as (before & rest & c0 & -> & Hbefore & Hc0 & Hi0 & Hrest); [|done|done|done|by rewrite Ho|].
  { unfold start. simpl. by rewrite list_lookup_fmap, Hj. }
  destruct (pool_safe_run _ _ before _ c0 Hsafe Hc0) as [Hsafe0 _].
  destruct (represents_run _ _ before _ c0 s Hsafe Hc0 Hs) as (s' & Hrun & Hs').
  destruct (look_up_decides env Hready u k plugin_lookup NextOrFailure BackendError Fall_Through Out
    Hnext Herr Hout addr Hst Hown state ns name (p_world c0) s' (ps_world _ _ _ Hsafe0) Hs' Hip Ht Hret)
    as (p' & w' & Hsec & Hd' & Hsafe').
  simpl in Hrest. destruct (pool_next i c0) as [c0'|] eqn:Hn; [|done]. simpl in Hrest.
  destruct (pool_safe_next _ _ i c0 c0' Hsafe0 Hn) as (Hsafe1 & _).
  destruct (pool_next_run i _ p' w' c0 c0' Hi0 Hsec Hn) as [<- Hi1].
  destruct (last_section _ _ _ rest i _ t o c0' c Hsafe1 Hi1 Hd' Hsafe' Hrest Hthr Ho)
    as (between & after & c1 & c2 & -> & Hafter & Hb & Hn1 & Hans).
  exists before, between, after, s', c1, c2. do 4 (split; [done|]). split; [|done].
  rewrite pool_run_app, Hc0. simpl. by rewrite Hn.
Qed.

Lemma queries_linearize_witness :
  let o := Ret (ReplyAnswer RcodeServerFailure (Some (errMsg "dns chaos error"))) in
  ∃ before between after s' c1 c2,
    ex_late = before ++ 0 :: between ++ 0 :: after ∧ (0 ∉ before) ∧ (0 ∉ after) ∧
    spec_run (list string) (carried_out before ex_server) (mkSpec ∅ ∅) s' ∧
    pool_run (before ++ 0 :: between) ex_server = Some c1 ∧ pool_next 0 c1 = Some c2 ∧
    answered ex_steady 0 (ex_kubernetes ex_snapshot podModeDisabled) ex_lookup
      (mret (RcodeRefused, None)) (λ _ rcode _, mret (rcode, None)) (λ _, false) (λ _, mret tt)
      s' "busybox" "busybox-0" ex_state (p_world c1) o (p_world c2).
Proof.
  intros o. assert (Hdone : ex_reply ex_late = Some o) by (vm_compute; reflexivity).
  destruct (ex_reply_inv _ _ Hdone) as (c & t & Hc & Ht & Ho).
  exact (proj2 (queries_linearize ex_steady ex_range ex_addr ex_jobs new_world (mkSpec ∅ ∅) ex_late c 0
    (ex_kubernetes ex_snapshot podModeDisabled) ex_lookup (mret (RcodeRefused, None))
    (λ _ rcode _, mret (rcode, None)) (λ _, false) (λ _, mret tt) 0 ex_state "busybox" "busybox-0"
    t o ex_range_map ex_steady_ready (quiet_ret _) (λ _ _ _, quiet_ret _)
    (λ _, quiet_ret _) ex_steady_steady ex_addr_own (new_world_indexed ex_addr) new_represents
    eq_refl eq_refl eq_refl (λ w, eq_refl) Hc Ht Ho)).
Defined.

(** * Behaviours worth knowing *)

(** A query on its way is answered by the chaos of the moment it looked its pod up: cancelled by the
    time the query is answered, the chaos still is what it gets; set after the look up, the query
    does not get it. *)
Example answered_late :
  ex_reply [1; 0; 2; 0; 0; 0; 0] = Some (Ret (ReplyAnswer RcodeServerFailure (Some (errMsg "dns chaos error")))) ∧
  ex_reply [0; 1; 0; 0] = Some (Ret (ReplyAnswer RcodeSuccess None)).
Proof. vm_compute. by split. Qed.
