(* ===== verification/Plugin.v ===== *)
(** The whole plugin: from the Corefile through the start (Setup.v) to the queries it serves
    (Handler.v), for any state its caches have reached since (Cluster.v). The client of the API server
    and the network are those of the start; the address a pod has is the one the cluster gave then. *)
From stdpp Require Import prelude strings gmap sets list pretty.
From S2P Require Import Prelude GoStd Object Cache Controller Deps Kubernetes Records Xfr Chaos Setup Handler.

(** The name of the plugin, and [Lookup], by the upstream of CoreDNS. *)
Definition Name : string := "k8s_dns_chaos".
Definition Lookup {Msg} (Upstream_Lookup : Request → string → Z → Msg + go_error) (state : Request)
    (name : string) (typ : Z) : Msg + go_error := Upstream_Lookup state name typ.

Section Facts.
Context `{ClientLib} `{!CaddyLaws} {Sel Store : Type} `{CacheLib Store} `{SelectorLib Sel} `{DnsLib}.
Variable env : Env.
Variable range : ∀ A, gmap string A → list (string * A).
Hypothesis Hrange : ∀ A (m : gmap string A), range A m ≡ₚ map_to_list m.
Implicit Types (s : parsing Sel).

(** The zones of a stanza with these arguments. *)
Definition zones_of (args : list string) : list string :=
  Host_Normalize <$> (if negb (length args =? 0)%nat then args else ServerBlockKeys).

(** The address of the gRPC server. *)
Definition grpc_address (k : Config) : string :=
  ":" +:+ pretty (if (c_grpcPort k =? 0)%Z then 9288%Z else c_grpcPort k).

(** What the start of the plugin leaves, and why it fails. *)
Definition setup_result args ds (r : outcome (option (dnsControl Store * dnsControlOpts * string)))
    s' : Prop :=
  let zones := zones_of args in
  match r with
  | Ret r =>
      ∃ opts i w, r = Some (newdnsController opts, opts, grpc_address (cf s')) ∧
        accepted zones ds ∧ forward_at zones i ∧ cf s' = describe zones i ds ∧
        options_of (cf s') opts ∧ chaos_described ds w ∧
        searched env w (visited range w) (chaos s') ∧ net_Listen (grpc_address (cf s')) = None
  | Throw e => ∃ e', e = plugin_Error pluginName e' ∧
      (¬ accepted zones ds ∨
       ∃ i, forward_at zones i ∧ (start_error (Sel:=Sel) env ds (describe zones i ds) e' ∨
                                  net_Listen (grpc_address (describe zones i ds)) = Some e'))
  | Panic => unanswered (Sel:=Sel) env ds
  end.

(** A pod of a directive [chaos] to which the cluster gave this address. *)
Definition configured_at ds (ip : string) (p : PodInfo Sel) : Prop :=
  entry_of (chaos_pods ds) (pi_Namespace p) (pi_Name p) = Some p ∧
  ∃ n v1Pod, cluster_reply env n (pi_Namespace p) (pi_Name p) = (Some v1Pod, None) ∧
    ap_PodIP v1Pod = ip.

Lemma bind_named {A B} (m : GoM (parsing Sel) A) (f : A → GoM (parsing Sel) B) s :
  (named m ≫= f) s =
    match m s with
    | (Ret a, s') => f a s'
    | (Throw e, s') => (Throw (plugin_Error pluginName e), s')
    | (Panic, s') => (Panic, s')
    end.
Proof. unfold mbind, gom_bind, named. by destruct (m s) as [[a|e|] s']. Qed.

Lemma setup_run fuel s args ds :
  stanzas (at_ s) [(args, ds)] → documented ds → length ds + 2 ≤ fuel →
  let '(r, s') := setup (Store:=Store) env range fuel s in setup_result args ds r s'.
Proof.
  intros Hst Hdoc Hfuel. unfold setup, setup_result, zones_of.
  assert (Hf : ∀ args' ds' ss, [(args, ds)] = (args', ds') :: ss → documented ds' ∧ length ds' + 2 ≤ fuel)
    by (intros ??? [= <- <- <-]; by split).
  pose proof (kubernetesParse_run fuel s [(args, ds)] Hst ltac:(lia) Hf) as Hparse.
  rewrite bind_named. cbv zeta in Hparse |- *.
  destruct (kubernetesParse fuel s) as [[p|e|] s1]; [| |done].
  2:{ exists e. split; [done|]. left. by destruct Hparse as [|[? _]]. }
  destruct Hparse as (-> & _ & Hacc & Hch & i & Hi & Hcf).
  pose proof (InitKubeCache_run (Store:=Store) env range s1 ds Hrange Hch) as Hinit.
  rewrite bind_named.
  destruct (InitKubeCache env range s1) as [[[dns opts]|e|] s2]; [| |exact Hinit].
  2:{ exists e. split; [done|]. right. exists i. split; [done|]. left. by rewrite <- Hcf. }
  destruct Hinit as (-> & Ho & Hcf2 & Hs).
  rewrite bind_named. unfold CreateGRPCServer. go_step. fold (grpc_address (cf s2)).
  destruct (net_Listen (grpc_address (cf s2))) as [e|] eqn:Hl; go_simpl.
  - exists e. split; [done|]. right. exists i. split; [done|]. right. by rewrite <- Hcf, <- Hcf2.
  - exists opts, i, (chaos s1). rewrite Hcf2 in *. by split_and!.
Qed.
End Facts.

(** * Properties *)

(** C29: the start of the plugin. For a Corefile with one stanza, [setup] succeeds only when the stanza
    is accepted, the caches start and the port of the gRPC server is free; then it leaves the
    described configuration, a controller with empty caches and the described options, the pods of
    the directives [chaos] found in the cluster, and it listens on the configured port, 9288 when
    there is none. Every error is named after the plugin and is that of the stanza, of the start of
    the caches or of the port; it panics only when the API server answers for a pod of the configuration
    with nothing. The directives [transfer] are of the documented forms. *)
Theorem setup_spec `{ClientLib} `{!CaddyLaws} {Sel Store : Type} `{CacheLib Store} `{SelectorLib Sel}
    `{DnsLib} env (range : ∀ A, gmap string A → list (string * A)) fuel (s : parsing Sel) args ds :
  (∀ A (m : gmap string A), range A m ≡ₚ map_to_list m) →
  stanzas (at_ s) [(args, ds)] → documented ds → length ds + 2 ≤ fuel →
  let '(r, s') := setup (Store:=Store) env range fuel s in setup_result env range args ds r s'.
Proof. intros Hrange. by apply setup_run. Qed.

#[local] Existing Instances SimpleCaddy.lib SimpleCaddy.laws SimpleCaddy.client SimpleDns.lib
  SimpleCache.lib SimpleSelector.lib.

(** A clock that ticks once a second. *)
Definition ex_start_env : Env :=
  let env := ex_env "10.0.0.1" "10.0.0.1" 0 in
  mkEnv (λ n, (Z.of_nat n * Second)%Z) (Client_Pods env) (rand_Intn env).

Definition ex_started : parsing (list string) :=
  (setup (Store:=SimpleCache.t) ex_start_env ex_range 7 ex_parsing).2.

Lemma ex_started_run : ∃ dns opts address,
  setup (Store:=SimpleCache.t) ex_start_env ex_range 7 ex_parsing
    = (Ret (Some (dns, opts, address)), ex_started).
Proof.
  unfold ex_started.
  assert (Hok : match (setup (Store:=SimpleCache.t) ex_start_env ex_range 7 ex_parsing).1 with
                | Ret (Some _) => true | _ => false end = true) by (vm_compute; reflexivity).
  destruct (setup ex_start_env ex_range 7 ex_parsing) as [[[[[dns opts] address]|]|e|] s'];
    try discriminate Hok. by do 3 eexists.
Qed.

Lemma setup_spec_witness :
  let r := setup (Store:=SimpleCache.t) ex_start_env ex_range 7 ex_parsing in
  accepted (zones_of ["1.10.in-addr.arpa."; "cluster.local."]) ex_directives ∧
  grpc_address (cf r.2) = ":9288".
Proof.
  pose proof (setup_spec (Store:=SimpleCache.t) ex_start_env ex_range 7 ex_parsing
    ["1.10.in-addr.arpa."; "cluster.local."] ex_directives ex_range_map eq_refl ex_documented
    ltac:(simpl; lia)) as Hs.
  destruct (setup _ _ 7 ex_parsing) as [r s'] eqn:He. simpl.
  assert (Hr : is_ret r = true) by (change r with (r, s').1; rewrite <- He; vm_compute; done).
  destruct r as [r|e|]; [|done|done]. destruct Hs as (opts & i & w & _ & Hacc & _ & Hcf & _).
  split; [exact Hacc|]. rewrite Hcf. vm_compute. reflexivity.
Defined.

(** C11: from the Corefile to the answer. After a start that succeeded, with any state of the caches, a
    query that is no transfer and whose lookup does not fail by itself, at most ten seconds after the
    start, is served as without chaos when its source address is not that of a pod of the directives
    [chaos]; otherwise the cluster gave that address to such a pod, and when its scope is [all] the
    answer is that of the pod's action, whatever the name asked, and with any other scope the query
    panics. The address of every pod of a directive [chaos] is covered. The directives
    [transfer] are of the documented forms. *)
Theorem served_as_configured `{ClientLib} `{!CaddyLaws} {Sel Store : Type} `{CacheLib Store}
    `{SelectorLib Sel} `{DnsLib} `{XfrLib} env (range : ∀ A, gmap string A → list (string * A)) fuel
    (s s' : parsing Sel) args ds dns opts address u (dns' : dnsControl Store) localIPs plugin_lookup
    NextOrFailure BackendError Fall_Through Out state :
  let w := chaos s' in
  let k := plugin_of (cf s') dns' opts localIPs in
  let serve := ServeDNS env u k plugin_lookup NextOrFailure BackendError Fall_Through Out in
  (∀ A (m : gmap string A), range A m ≡ₚ map_to_list m) →
  stanzas (at_ s) [(args, ds)] → documented ds → length ds + 2 ≤ fuel →
  setup (Store:=Store) env range fuel s = (Ret (Some (dns, opts, address)), s') →
  is_transfer state = false →
  is_ret (getRecords u k plugin_lookup Out state (tick w)).1 = true →
  (∀ l p, ipPodMap w !! rq_IP state = Some l → store w !! l = Some p →
     (time_Now env (asked w) - pi_LastUpdateTime p <= 10 * Second)%Z) →
  match ipPodMap w !! rq_IP state with
  | None =>
      serve state w = plain_serve u k plugin_lookup NextOrFailure BackendError Fall_Through Out state w
  | Some l =>
      ∃ (p : PodInfo Sel) t, configured_at env ds (rq_IP state) p ∧
        serve state w =
          if decide (pi_Scope p = ScopeAll)
          then chaosDNS env state (set_time t (set_ip (rq_IP state) p)) (tick w)
          else (Panic, tick w)
  end ∧
  ∀ ns name (p : PodInfo Sel), entry_of (chaos_pods ds) ns name = Some p →
    ∃ ip, configured_at env ds ip p ∧ is_Some (ipPodMap w !! ip).
Proof.
  intros w k serve Hrange Hst Hdoc Hfuel Hsetup Ht Hret Hfresh.
  pose proof (setup_run (Store:=Store) env range Hrange fuel s args ds Hst Hdoc Hfuel) as Hres.
  rewrite Hsetup in Hres. destruct Hres as (opts' & i & w0 & _ & _ & _ & _ & _ & Hch & Hs & _).
  destruct (started_chaos env range Hrange ds w0 w Hch Hs) as (_ & Hexact & Hall & _). split.
  - destruct (ipPodMap w !! rq_IP state) as [l|] eqn:Hip; [|by apply ServeDNS_unindexed].
    destruct (started_entry env range Hrange ds w0 w _ l Hch Hs Hip) as (p & n & v1Pod & t & He & Hr & Hl).
    destruct (Hexact _ _ Hip) as (q & Hq & Hat & _). rewrite Hl in Hq. injection Hq as <-.
    simpl in Hat. exists p, t. split; [split; [done|]; by exists n, v1Pod|]. rewrite <- Hat. unfold serve.
    rewrite (ServeDNS_fresh _ _ _ _ _ _ _ _ _ _ l _ Ht Hip Hl) by (done || by eapply Hfresh).
    rewrite (needChaos_entry ds (pi_Namespace p) (pi_Name p)) by done. by case_decide.
  - intros ns name p Hp. destruct (entry_of_name _ _ _ _ Hp) as [<- <-].
    destruct (Hall _ _ _ Hp) as (n & v1Pod & t & Hr & _ & Hip).
    exists (ap_PodIP v1Pod). split; [split; [done|]; by exists n, v1Pod|done].
Qed.

Lemma served_as_configured_witness :
  ∃ dns opts address,
    setup (Store:=SimpleCache.t) ex_start_env ex_range 7 ex_parsing
      = (Ret (Some (dns, opts, address)), ex_started) ∧
    ServeDNS ex_start_env 0 (plugin_of (cf ex_started) dns opts []) ex_lookup
      (mret (RcodeRefused, None)) (λ _ rcode _, mret (rcode, None)) (λ _, false) (λ _, mret tt)
      (ex_query "10.0.0.1" "google.com.") (chaos ex_started)
    = (Ret (RcodeServerFailure, Some (errMsg "dns chaos error")), tick (chaos ex_started)).
Proof.
  destruct ex_started_run as (dns & opts & address & He). exists dns, opts, address.
  split; [exact He|].
  assert (Hst : stanzas (at_ ex_parsing) [(["1.10.in-addr.arpa."; "cluster.local."], ex_directives)])
    by reflexivity.
  destruct (served_as_configured (Store:=SimpleCache.t) ex_start_env ex_range 7 ex_parsing ex_started
    ["1.10.in-addr.arpa."; "cluster.local."] ex_directives dns opts address 0 dns [] ex_lookup
    (mret (RcodeRefused, None)) (λ _ rcode _, mret (rcode, None)) (λ _, false) (λ _, mret tt)
    (ex_query "10.0.0.1" "google.com.") ex_range_map Hst ex_documented ltac:(simpl; lia) He eq_refl) as [Hs _].
  - vm_compute. reflexivity.
  - intros l p Hl Hp. assert (Some l = Some 1%positive) as [= ->] by (rewrite <- Hl; reflexivity).
    assert (Hu : pi_LastUpdateTime <$> (store (chaos ex_started) !! 1%positive) = Some Second)
      by (vm_compute; reflexivity).
    rewrite Hp in Hu. injection Hu as ->. vm_compute. discriminate.
  - change (ipPodMap (chaos ex_started) !! rq_IP (ex_query "10.0.0.1" "google.com."))
      with (Some 1%positive) in Hs.
    destruct Hs as (p & t & [Hp _] & Hserve). rewrite Hserve.
    unfold entry_of in Hp. apply last_Some_elem_of, list_elem_of_filter in Hp as [_ Hp].
    change (chaos_pods ex_directives) with [ex_pod] in Hp. apply list_elem_of_singleton in Hp as ->.
    reflexivity.
Defined.
